(* ===== verification/_CoqProject ===== *)
-Q . S2P
Prelude.v
Protocol.v
Runes.v
Transform.v
Registry.v
Subscriptions.v
Refresh.v
Requests.v
Args.v
Streaming.v
Server.v
Lifecycle.v
Pipeline.v
Dispatch.v
Rest.v
Tasks.v
TaskHooks.v
TaskApi.v
Naming.v
Schema.v
GoNames.v
Zod.v
GoSyntax.v
SourceDocs.v
TsTypes.v
TsRefs.v
Generate.v
TaskGen.v
GoTypes.v
GoGen.v
GoCoherence.v
GoPasses.v
Http.v
Mcp.v
OpenApi.v
Validate.v
Wire.v
Fanout.v
ClientParts.v
ClientTyped.v
Reconnect.v
ClientAuth.v
Client.v
ClientRun.v
ClientFacts.v
ClientCalls.v
ClientConn.v
ClientSlots.v
ClientSubs.v
