(* ===== verification/Prelude.v ===== *)
(** * aprot: a verification development

    aprot is a Go library for typed RPC over WebSocket, byte streams, REST and MCP. A
    program registers handler structs; a server dispatches request and subscribe frames
    to their methods, streams iterators, re-executes subscriptions when a handler
    triggers their keys, and pushes events to connections and users. From the same
    registry, generators print clients in TypeScript and Go; a client library in Go runs
    the latter. This library models the server, the generators and the Go client as
    executable Rocq definitions, translated from the Go source, and proves what makes them
    correct.

    ** Files, and the code each one models

    Foundations
    - Prelude.v (this file): integers at their width, runs of step machines, maps to sets
      (the Go idiom [m[k][x] = struct{}{}]), counting, the order in which [range] visits
      a map (a parameter, [RangeOrder]), and the error type [res].
    - Protocol.v: error codes, Go errors up to [errors.Is], the frames a server writes and
      the functions that map an error to a frame, a stream end, an HTTP status or the
      observer's code (errors.go, protocol.go, and their callers in connection.go,
      server.go and rest.go).
    - Runes.v: the part of strings and unicode that the program uses.

    Registration and arguments
    - Transform.v: Go types and values as reflect shows them, and the [transform] struct
      tag: parsing, validation at registration, application to arguments (transform.go).
    - Registry.v: [Registry] with its registration calls, method lookup, group
      middleware, error codes, enums and push events (handler.go).
    - Args.v: [buildArgs], [Call] and [CallStream]: from positional JSON parameters to the
      arguments of the method (handler.go).
    - Validate.v: what a failed struct validation becomes, and the wire form of the
      database/sql types (validate.go, sql_null.go).

    The server
    - Subscriptions.v: [subscriptionManager] with both of its indexes over heap objects, and
      the abstract map it implements (subscription.go).
    - Refresh.v: trigger collectors, refresh queues, the flush, patches, and the commit of a
      finished subscribe (subscription.go, connection.go). It reaches the index through the
      class [SubIndex], which [manager_index] implements.
    - Requests.v: a connection's in-flight map, with registration tokens, cancels, refresh
      registration and close; the machine that interleaves them; the two counting
      semaphores (connection.go).
    - Streaming.v: the stream loop and the chunker (stream_chunk.go, connection.go).
    - Server.v: options, the user index, and subscriptions against a connection that closes
      (server.go, connection.go).
    - Lifecycle.v: the accept paths of both transports, the goroutine [run], and any number
      of calls to [Stop], as one machine (server.go, transport_ws.go, transport_stream.go).
    - Pipeline.v: contexts, principals, middleware and [invoke], in a state monad with
      panics (context.go, principal.go, address.go, server.go).
    - Dispatch.v: [handleRequest], [runSubscribe] and [refreshSubscription] over that monad,
      and the read loop with its authentication gate (connection.go).
    - Wire.v: binary frames, newline framing, message limits, and the queue between senders
      and the write pump (transport_ws.go, transport_stream.go, client/wire.go).
    - Fanout.v: connections with their ids and transports, [Broadcast], [Push], progress
      updates and detached connections over the queues of Wire.v, the values a connection
      carries, and the hook lists (connection.go, server.go, detached.go, progress.go).

    Other ways in
    - Rest.v: the REST adapter: routes, path parameters, the positional array, and
      [handleRequest] over the monad of Pipeline.v (rest.go).
    - Mcp.v: handlers as MCP tools, and the JSON-RPC adapter over [Invoke]
      (mcp_registry.go, mcp/mcp.go).
    - Http.v: CORS and the origin check (cors.go, origin.go).

    Tasks
    - Tasks.v: task trees, the shared-task manager, ownership, and the progress throttle
      (tasks/task_tree.go, tasks/shared_task.go).
    - TaskHooks.v: the goroutine that holds a task's middleware open (tasks/task_tree.go).
    - TaskApi.v: what handlers call, the three deliveries, and the middleware that ends a
      request's task (tasks/api.go, delivery.go, interceptor.go, context.go, writers.go).
    - TaskGen.v: the task part of the TypeScript client (tasks/codegen.go).

    Generators
    - Naming.v: case conversions, file names, the naming plugins (naming.go).
    - Schema.v: JSON schemas from Go types, inline and with components (schema.go);
      OpenApi.v: the OpenAPI document over them (openapi.go).
    - TsTypes.v, TsRefs.v, Generate.v: TypeScript types, the search for the names a file has
      to import, and the client files (generate.go); Zod.v: validation schemas (zod.go).
    - SourceDocs.v: documentation read from source and baked into the build (docs.go), read
      back by GoSyntax.v, a scanner and parser of the Go that it prints.
    - GoNames.v, GoTypes.v, GoGen.v: identifiers, types and declarations of the Go client;
      GoCoherence.v and GoPasses.v: its two passes agree (generate_go.go).

    The Go client (client/)
    - ClientParts.v: subscriptions, stream buffers and callback queues under their own locks;
      ClientTyped.v: the generic API over them (range loops, pushes, blobs).
    - Reconnect.v: backoff, connection attempts and the run loop; ClientAuth.v: auth frames
      and their verdicts.
    - Client.v: the tables under [Client.mu] and all goroutines, as one machine; ClientRun.v
      runs it on examples. ClientFacts.v counts sections of goroutines, and the theorems are
      in ClientCalls.v, ClientConn.v, ClientSlots.v and ClientSubs.v.

    A frame enters at [Dispatch.Gate.handleIncomingMessage]. What it lets run takes a slot
    and registers itself ([Requests]), runs [Dispatch.handleRequest] or
    [Dispatch.runSubscribe], which resolve the principal and go through
    [Pipeline.invoke], whose innermost handler is [Args.Call] in the program. A subscribe
    ends in [Refresh.commitSubscribe] on the index of Subscriptions.v; triggers end in
    [Refresh.processRefreshQueue], whose launches are [Dispatch.refreshSubscription]. An HTTP
    request enters at [Rest.Adapter.handleRequest] or [Mcp.Rpc.ServeHTTP] and meets the same
    [invoke]. Frames leave through [Fanout.visitConn] and [Wire.Outbound]. The tasks
    package sits beside the server: its middleware and handlers are user code to it. The
    generators read the registry of Registry.v through the views they need of it.

    ** How the code's behaviour is represented

    - Concurrency. What the code does under one lock is one step, a function on the
      component's state. An interleaving is the list of steps in the order they take the
      lock; theorems quantify over all such lists ([runs], [reachable]). Work a method does
      after releasing its lock is kept in the state and done by later steps (the cancel
      calls of Requests.v, the stages of [SetUserID] in Server.v, the visits of a broadcast
      in Fanout.v). In the Go client a goroutine is the list of the sections it has still to
      execute. In Dispatch.v the interference of other goroutines is a parameter [env]
      applied before every read of shared state.
    - Pointers. Objects that are shared or compared by address (subscriptions, refresh
      queues, collectors, connections) live in a heap and are named by their address.
    - Errors and panics. Error results are [res] or an option; a panic is a constructor of
      the result and the recovers of the code handle it.
    - Integers. [int], [int64] and [uint64] are [Z], wrapped where the code can reach the
      bound (request tokens, connection ids, durations); counts are [nat].
    - Printed code is a list of tokens or of declarations, so that the names in it stay
      visible; [render] is the text. What a template prints around them is not modelled,
      except where the text itself is the subject (SourceDocs.v).
    - Types. A Go type is what reflect reports of it; a named type is an identity, looked up
      in an environment, so recursive types are ordinary inputs.
    - Code outside the repository is a parameter: the JSON library, the struct validator, the
      transport's writes, the time, the Unicode tables, go/parser. User code is one too.

    ** What the theorems show

    - Requests: no live context of a running handler is ever unreachable for a cancel; a
      finishing request removes only its own entry; a refresh never cancels a client's
      request and is deferred instead; the caps on requests hold and no slot leaks.
    - Replies: a request gets exactly one terminal frame however its code ends, a subscribe
      too unless its client is gone, a refresh at most one, an HTTP or MCP request one
      response; [invoke]'s contract; nothing runs before authentication; all paths map an
      error to the same code.
    - Subscriptions: the manager refines a finite map and its queries are exact; a flush
      re-executes each matching subscription once and no trigger is lost; the cap holds; no
      subscription outlives its connection.
    - Server: shutdown ends, and leaves no connection behind that joined before it; the user
      index is exact; a broadcast reaches every open connection once.
    - Streams: chunks concatenate to the items, a stream ends once; frames reach the peer in
      the order they were queued; at the other end a range over a typed stream that ends
      without an error has had every item.
    - Registration and arguments: middleware lookup, unique error codes, transforms that pass
      validation never fail at a request, arguments built exactly when the parameters fit.
    - Tasks: a failed task takes its subtree with it, task middleware hears the end of its
      task exactly once, a request leaves no task open, only owners cancel.
    - Documents: schema generation ends on recursive types and its references resolve; the
      OpenAPI document and the MCP tools agree with the router and with argument binding.
    - TypeScript: every type name in a generated file is declared or imported; a generated
      Zod module can be evaluated from top to bottom.
    - Go generation: names that are not refused never clash; the pass that prints meets no
      type that the pass that discovers has missed, and the output mentions nothing that is
      neither declared nor imported; baked documentation is the documentation of the source.
    - Go client: a call has exactly one result; a subscription is a latest-value register, is
      subscribed again after a reconnect and never after its unsubscribe; nothing outlives
      its connection; verdicts go to their own caller; reconnecting gives up as configured.
    - Divergences, which show behaviour the code probably does not intend, are theorems whose
      names say so: in the server [stale_register_leaks], [reuse_drops_deferred_refresh],
      [late_set_user_leaks], [stop_leaves_connection_behind], [stop_misses_late_request],
      [stream_close_drops_queued], [canceled_success_drops_triggers]; in registration and
      arguments [dotted_group_loses_middleware], [variadic_struct_empty_panics],
      [variadic_tail_unchecked], [exotic_null_diverges]; in the adapters
      [no_origin_no_vary], [validation_failure_is_tool_result],
      [unmarshalable_reply_uncorrelated], [second_level_not_flattened],
      [named_embedded_flattened]; in tasks [cancel_before_start_is_undone],
      [cancel_of_completed_reports_true], [late_update_leaks], [first_task_stays_open],
      [children_stay_open]; in the generators [client_group_overwritten],
      [stream_key_not_imported], [variadic_union_unparenthesized],
      [one_value_enum_is_a_union], [meta_name_reexported_twice],
      [enum_member_loses_letter], [import_can_hide_type], [imported_enum_unused]; in the
      client [exact_limit_refused], [timeout_taken_for_verdict]. [request_answered_once]
      states the one case in which the observer is told a code the client did not get, and
      [rest_params_positional] which signatures REST cannot serve.

    ** Fuel

    Recursion that is not structural runs on fuel, and with each use goes the statement of how
    much is enough: the transform validator stops at a struct it has visited ([typeFuel]
    covers every struct once); the walks over types of the generators ([collectType],
    [collectNestedStructs], the queue [drain]) need one unit more than there are types; the
    schema generator [fuelFor]; Zod's search [reachFuel]; the searches for a free name
    ([firstFree]) no more turns than there are names taken; the name conversions a turn per
    rune; the Go parser as many units as the file has tokens. [typeExpr] is given its fuel
    by the depth of the type, and GoCoherence.v shows that it satisfies the equation of the
    code.

    ** Not modelled

    Sockets with their deadlines and keepalive, and the WebSocket library; what templates and
    go/format print around the modelled declarations, and the doc comments in the generated
    Go client; the observer, an interface of user code whose calls are in the logs of the
    machines that make them; logging; code-generation hooks and field type overrides of the
    registry; the reflection that reads metadata values of tasks; test support, examples and
    end-to-end programs.
*)

From stdpp Require Import prelude gmap strings list sorting fin_maps fin_sets.

(** ** Notations, automation and hint databases *)

Declare Scope aprot_scope.
Delimit Scope aprot_scope with aprot.

(** The lemmas every component registers its bookkeeping facts in. *)
Create HintDb aprot.

(** Splits the matches and conditionals of a hypothesis or of the goal. *)
Ltac case_match_in H :=
  match type of H with
  | context [ match ?x with _ => _ end ] => let E := fresh "E" in destruct x eqn:E
  end.

(** Destructs every [match] of the goal and cleans up. *)
Ltac crush_match :=
  repeat (case_match || case_decide); simplify_eq/=; try done.

(** ** Machine integers

    Go's [int] and [int64] are 64-bit two's complement, [uint64] and [uint32]
    wrap modulo a power of two. *)

Definition wrapU64 (z : Z) : Z := z `mod` 2 ^ 64.

Definition wrapU32 (z : Z) : Z := z `mod` 2 ^ 32.

Definition wrapS64 (z : Z) : Z := (z + 2 ^ 63) `mod` 2 ^ 64 - 2 ^ 63.

Lemma wrapU64_id z : (0 ≤ z < 2 ^ 64)%Z → wrapU64 z = z.
Proof. apply Z.mod_small. Qed.

Lemma wrapS64_id z : (- 2 ^ 63 ≤ z < 2 ^ 63)%Z → wrapS64 z = z.
Proof. intros. unfold wrapS64. rewrite Z.mod_small; lia. Qed.

Lemma wrapS64_range z : (- 2 ^ 63 ≤ wrapS64 z < 2 ^ 63)%Z.
Proof. unfold wrapS64. pose proof (Z.mod_pos_bound (z + 2 ^ 63) (2 ^ 64)). lia. Qed.

(** ** Runs of deterministic machines

    A component that several goroutines drive is modelled by the function that
    executes one atomic section (what the code does under one lock); an
    interleaving is the list of the sections in the order they take the lock. *)

Section Runs.
  Context {St Ev : Type} (step : St → Ev → St).

Fixpoint runs (s : St) (evs : list Ev) : St :=
  match evs with
  | [] => s
  | e :: evs => runs (step s e) evs
  end.

Lemma runs_app s es1 es2 : runs s (es1 ++ es2) = runs (runs s es1) es2.
Proof. revert s. induction es1 as [|e es1 IH]; intros s; simpl; auto. Qed.

Lemma runs_invariant (P : St → Prop) s evs :
  P s → (∀ s e, P s → P (step s e)) → P (runs s evs).
Proof. revert s. induction evs; simpl; eauto. Qed.

(** The same with a side condition on the events that may occur. *)
Lemma runs_invariant_if (P : St → Prop) (G : Ev → Prop) s evs :
  P s → Forall G evs → (∀ s e, G e → P s → P (step s e)) → P (runs s evs).
Proof.
  intros HP HG Hstep. revert s HP. induction HG; simpl; eauto.
Qed.

End Runs.

(** ** Reachability of non-deterministic machines *)

Section Reach.
  Context {St : Type} (init : St → Prop) (step : St → St → Prop).

Inductive reachable : St → Prop :=
  | reach_init s : init s → reachable s
  | reach_step s s' : reachable s → step s s' → reachable s'.

Lemma reachable_invariant (P : St → Prop) :
  (∀ s, init s → P s) → (∀ s s', reachable s → P s → step s s' → P s') →
  ∀ s, reachable s → P s.
Proof. intros Hi Hs s Hr. induction Hr; eauto. Qed.

End Reach.

(** ** Maps to sets

    The pattern [if m[k] == nil { m[k] = make(...) }; m[k][x] = struct{}{}]
    and its inverse, [delete(m[k], x)] followed by dropping an empty bucket,
    occur in the subscription index and in the user index. *)

Section Buckets.
  Context `{Countable K} `{Countable A}.
  Implicit Types m : gmap K (gset A).

Definition bucket m (k : K) : gset A := default ∅ (m !! k).

Definition bucketAdd (k : K) (x : A) m : gmap K (gset A) :=
  <[k := {[x]} ∪ bucket m k]> m.

Definition bucketDel (k : K) (x : A) m : gmap K (gset A) :=
  match m !! k with
  | None => m
  | Some s => if decide (s ∖ {[x]} = ∅) then delete k m else <[k := s ∖ {[x]}]> m
  end.

(** No bucket is left empty. *)
Definition bucketsOk m : Prop := ∀ k s, m !! k = Some s → s ≠ ∅.

Lemma bucketAdd_spec k x m k' y :
  y ∈ bucket (bucketAdd k x m) k' ↔ (k' = k ∧ y = x) ∨ y ∈ bucket m k'.
Proof.
  unfold bucketAdd, bucket. destruct (decide (k' = k)) as [->|Hne].
  - rewrite lookup_insert_eq. set_solver.
  - rewrite lookup_insert_ne by done. set_solver.
Qed.

Lemma bucketDel_spec k x m k' y :
  y ∈ bucket (bucketDel k x m) k' ↔ y ∈ bucket m k' ∧ ¬ (k' = k ∧ y = x).
Proof.
  unfold bucketDel, bucket. destruct (m !! k) as [s|] eqn:E; last first.
  { split; [|naive_solver]. intros Hy; split; [done|]. intros [-> ->]. by rewrite E in Hy. }
  destruct (decide (k' = k)) as [->|Hne].
  - rewrite E. case_decide as Hd.
    + rewrite lookup_delete_eq. simpl. set_solver.
    + rewrite lookup_insert_eq. simpl. set_solver.
  - case_decide; [rewrite lookup_delete_ne by done|rewrite lookup_insert_ne by done];
      naive_solver.
Qed.

Lemma bucketAdd_ok k x m : bucketsOk m → bucketsOk (bucketAdd k x m).
Proof.
  intros Hm k' s. unfold bucketAdd. destruct (decide (k' = k)) as [->|Hne].
  - rewrite lookup_insert_eq. intros [= <-]. set_solver.
  - rewrite lookup_insert_ne by done. apply Hm.
Qed.

Lemma bucketDel_ok k x m : bucketsOk m → bucketsOk (bucketDel k x m).
Proof.
  intros Hm k' s. unfold bucketDel. destruct (m !! k) as [s0|] eqn:E; [|apply Hm].
  case_decide as Hd.
  - rewrite lookup_delete_Some. intros [_ Hk]. by eapply Hm.
  - destruct (decide (k' = k)) as [->|Hne].
    + rewrite lookup_insert_eq. intros [= <-]. done.
    + rewrite lookup_insert_ne by done. apply Hm.
Qed.

(** The loops [for k := range ks { ... }] over a set of keys. *)
Definition bucketsAdd (ks : gset K) (x : A) m : gmap K (gset A) :=
  set_fold (λ k m, bucketAdd k x m) m ks.

Definition bucketsDel (ks : gset K) (x : A) m : gmap K (gset A) :=
  set_fold (λ k m, bucketDel k x m) m ks.

Lemma bucketsAdd_spec ks x m k y :
  y ∈ bucket (bucketsAdd ks x m) k ↔ (k ∈ ks ∧ y = x) ∨ y ∈ bucket m k.
Proof.
  unfold bucketsAdd.
  apply (set_fold_ind_L (λ m' ks, y ∈ bucket m' k ↔ (k ∈ ks ∧ y = x) ∨ y ∈ bucket m k)).
  - set_solver.
  - intros k' ks' m' _ IH. rewrite bucketAdd_spec, IH. set_solver.
Qed.

Lemma bucketsDel_spec ks x m k y :
  y ∈ bucket (bucketsDel ks x m) k ↔ y ∈ bucket m k ∧ ¬ (k ∈ ks ∧ y = x).
Proof.
  unfold bucketsDel.
  apply (set_fold_ind_L (λ m' ks, y ∈ bucket m' k ↔ y ∈ bucket m k ∧ ¬ (k ∈ ks ∧ y = x))).
  - set_solver.
  - intros k' ks' m' _ IH. rewrite bucketDel_spec, IH. set_solver.
Qed.

Lemma bucketsAdd_ok ks x m : bucketsOk m → bucketsOk (bucketsAdd ks x m).
Proof.
  intros Hm. unfold bucketsAdd.
  apply (set_fold_ind_L (λ m' _, bucketsOk m')); eauto using bucketAdd_ok.
Qed.

Lemma bucketsDel_ok ks x m : bucketsOk m → bucketsOk (bucketsDel ks x m).
Proof.
  intros Hm. unfold bucketsDel.
  apply (set_fold_ind_L (λ m' _, bucketsOk m')); eauto using bucketDel_ok.
Qed.

(** With no empty bucket, the map is determined by the membership. *)
Lemma bucketsOk_empty m k : bucketsOk m → bucket m k = ∅ → m !! k = None.
Proof.
  unfold bucket. intros Hm. destruct (m !! k) eqn:E; [|done]. simpl.
  intros ->. by apply Hm in E.
Qed.

End Buckets.

#[export] Hint Resolve bucketAdd_ok bucketDel_ok bucketsAdd_ok bucketsDel_ok : aprot.
Create Rewrite HintDb aprot_rw.

#[export] Hint Rewrite @bucketAdd_spec @bucketDel_spec @bucketsAdd_spec @bucketsDel_spec : aprot_rw.

(** ** Lists *)

(** First occurrences of a list, in order: the Go idiom of a [seen] set next to
    the result slice. *)
Section Dedup.
  Context `{Countable A}.

Fixpoint dedupSeen (seen : gset A) (l : list A) : list A :=
  match l with
  | [] => []
  | x :: l => if decide (x ∈ seen) then dedupSeen seen l
              else x :: dedupSeen ({[x]} ∪ seen) l
  end.

Lemma NoDup_fmap_eq {B} (f : A → B) (l : list A) x y :
  NoDup (f <$> l) → x ∈ l → y ∈ l → f x = f y → x = y.
Proof.
  induction l as [|z l IH]; simpl; [intros _ Hx; by apply not_elem_of_nil in Hx|].
  intros [Hz Hl]%NoDup_cons [->|Hx]%elem_of_cons [->|Hy]%elem_of_cons E; [done| | |by apply IH].
  - destruct Hz. rewrite E. by apply list_elem_of_fmap_2.
  - destruct Hz. rewrite <- E. by apply list_elem_of_fmap_2.
Qed.

Lemma elem_of_dedupSeen seen (l : list A) x :
  x ∈ dedupSeen seen l ↔ x ∈ l ∧ x ∉ seen.
Proof.
  revert seen. induction l as [|y l IH]; intros seen; simpl; [set_solver|].
  case_decide as Hd.
  - rewrite IH. set_solver.
  - rewrite !elem_of_cons, IH. destruct (decide (x = y)); set_solver.
Qed.

Lemma NoDup_dedupSeen seen (l : list A) : NoDup (dedupSeen seen l).
Proof.
  revert seen. induction l as [|y l IH]; intros seen; simpl; [constructor|].
  case_decide; [done|]. constructor; [|done].
  rewrite elem_of_dedupSeen. set_solver.
Qed.

End Dedup.

(** ** Ranging over a Go map

    Go leaves the order in which [range] visits a map unspecified. A model that
    turns a set into a slice takes the order as a parameter. *)

Class RangeOrder (A : Type) `{Countable A} := {
  range_of : gset A → list A;
  range_of_perm s : range_of s ≡ₚ elements s;
}.

Section Range.
  Context `{RangeOrder A}.

Lemma elem_of_range_of (s : gset A) x : x ∈ range_of s ↔ x ∈ s.
Proof. rewrite (range_of_perm s). apply elem_of_elements. Qed.

Lemma NoDup_range_of (s : gset A) : NoDup (range_of s).
Proof. rewrite (range_of_perm s). apply NoDup_elements. Qed.

Lemma length_range_of (s : gset A) : length (range_of s) = size s.
Proof. by rewrite (range_of_perm s). Qed.

End Range.

(** One possible order, used by the concrete examples. *)
Definition elements_order `{Countable A} : RangeOrder A :=
  {| range_of := elements; range_of_perm s := reflexivity _ |}.

(** ** Counting the entries of a map *)

Section CountIf.
  Context `{Countable K} {A : Type} (P : A → bool).

Definition countIf (m : gmap K A) : nat := map_fold (λ _ x n, Nat.b2n (P x) + n) 0 m.

Lemma countIf_empty : countIf ∅ = 0.
Proof. done. Qed.

Lemma countIf_insert m k x : m !! k = None → countIf (<[k := x]> m) = Nat.b2n (P x) + countIf m.
Proof.
  intros Hk. unfold countIf. rewrite map_fold_insert_L; [done| |done]. intros. lia.
Qed.

Lemma countIf_delete m k x : m !! k = Some x → countIf m = Nat.b2n (P x) + countIf (delete k m).
Proof.
  intros Hk. rewrite <- (countIf_insert (delete k m) k x) by apply lookup_delete_eq. by rewrite insert_delete_id.
Qed.

Lemma countIf_update m k x y :
  m !! k = Some y → countIf (<[k := x]> m) + Nat.b2n (P y) = countIf m + Nat.b2n (P x).
Proof.
  intros Hk. rewrite (countIf_delete m k y Hk). rewrite <- insert_delete_eq.
  rewrite countIf_insert by apply lookup_delete_eq. lia.
Qed.

Lemma countIf_pos m k x : m !! k = Some x → P x = true → 0 < countIf m.
Proof. intros Hk Hp. rewrite (countIf_delete m k x Hk), Hp. simpl. lia. Qed.

End CountIf.

(** ** Fallible computations *)

Inductive res (E A : Type) := Ok (a : A) | Err (e : E).
Arguments Ok {E A} a.
Arguments Err {E A} e.

#[export] Instance res_ret {E} : MRet (res E) := λ A, Ok.
#[export] Instance res_bind {E} : MBind (res E) := λ A B f r,
  match r with Ok a => f a | Err e => Err e end.

Section Res.
  Context {E : Type}.

Definition is_ok {A} (r : res E A) : bool := match r with Ok _ => true | Err _ => false end.

(** The loop [for i, x := range xs { y, err := f(x); if err != nil { return err } }]. *)
Definition mapRes {A B} (f : A → res E B) : list A → res E (list B) :=
  fix go l := match l with
              | [] => Ok []
              | x :: l => match f x with
                          | Err e => Err e
                          | Ok y => match go l with Ok ys => Ok (y :: ys) | Err e => Err e end
                          end
              end.

Lemma bind_Ok {A B} (f : A → res E B) r y : r ≫= f = Ok y ↔ ∃ x, r = Ok x ∧ f x = Ok y.
Proof. destruct r; split; naive_solver. Qed.

Lemma mapRes_Ok {A B} (f : A → res E B) l ys :
  mapRes f l = Ok ys ↔ Forall2 (λ x y, f x = Ok y) l ys.
Proof.
  revert ys. induction l as [|x l IH]; intros ys; simpl.
  - split; [intros [= <-]; constructor|]. intros H. by inversion H.
  - split.
    + destruct (f x) as [y|e] eqn:Ef; [|done].
      destruct (mapRes f l) as [ys'|e] eqn:El; [|done].
      intros [= <-]. constructor; [done|]. by apply IH.
    + intros H. inversion H as [|? y ? ys' Hy Hys]; subst. rewrite Hy.
      apply IH in Hys. by rewrite Hys.
Qed.

Lemma mapRes_total {A B} (f : A → res E B) (P : A → Prop) (Q : B → Prop) l :
  Forall P l → (∀ x, x ∈ l → P x → ∃ y, f x = Ok y ∧ Q y) → ∃ ys, mapRes f l = Ok ys ∧ Forall Q ys.
Proof.
  induction 1 as [|x l Hx Hl IH]; intros Hf; simpl; [by eexists|].
  destruct (Hf x) as (y & -> & Hy); [left|done|].
  destruct IH as (ys & -> & Hys); [intros; apply Hf; [by right|done]|].
  eexists. split; [done|]. by constructor.
Qed.

End Res.

(** ** Fresh names

    The loop [name := cand(0); for i := 1; bad(name); i++ { name = cand(i) }]. When the
    candidates differ and finitely many names are bad, it ends within [size avoid] rounds. *)
Section Fresh.
  Context `{Countable A}.

Fixpoint firstFree (fuel i : nat) (cand : nat → A) (bad : A → bool) : A :=
  if bad (cand i) then match fuel with 0 => cand i | S fuel => firstFree fuel (S i) cand bad end
  else cand i.

Lemma firstFree_cand fuel i cand bad : ∃ j, firstFree fuel i cand bad = cand j.
Proof.
  revert i. induction fuel as [|fuel IH]; intros i; simpl; destruct (bad (cand i)); by eauto.
Qed.

Lemma firstFree_stuck fuel i cand bad :
  bad (firstFree fuel i cand bad) = true → Forall (λ x, bad x = true) (cand <$> seq i (S fuel)).
Proof.
  revert i. induction fuel as [|fuel IH]; intros i; simpl; destruct (bad (cand i)) eqn:E; intros Hb;
    try congruence; (constructor; [done|]); [constructor|by apply IH].
Qed.

(** The first good candidate is found: [size avoid + 1] different names cannot all be bad. *)
Lemma firstFree_free cand bad (avoid : gset A) :
  Inj (=) (=) cand → (∀ x, bad x = true → x ∈ avoid) →
  bad (firstFree (size avoid) 0 cand bad) = false.
Proof.
  intros Hinj Hbad. apply not_true_iff_false. intros Hb. apply firstFree_stuck in Hb.
  assert (Hsub : list_to_set (cand <$> seq 0 (S (size avoid))) ⊆ avoid).
  { intros x Hx%elem_of_list_to_set. apply Hbad. by eapply Forall_forall in Hb. }
  apply subseteq_size in Hsub. rewrite size_list_to_set, length_fmap, length_seq in Hsub; [lia|].
  apply NoDup_fmap_2; [done|]. apply NoDup_seq.
Qed.

(** The bound is immaterial: more rounds find the same name. *)
Lemma firstFree_more fuel fuel' i cand bad :
  bad (firstFree fuel i cand bad) = false → fuel ≤ fuel' →
  firstFree fuel' i cand bad = firstFree fuel i cand bad.
Proof.
  revert fuel' i. induction fuel as [|fuel IH]; intros fuel' i; destruct fuel'; simpl;
    destruct (bad (cand i)) eqn:E; intros Hb Hle; try congruence; try lia. apply IH; [done|lia].
Qed.

End Fresh.
