(* ===== verification/Protocol.v ===== *)
(** * Protocol: codes, messages, errors and their wire form
      (errors.go, protocol.go, connection.go, server.go, rest.go)

    [Module Protocol] has the error codes, the Go errors the library tells apart,
    the frames a server sends, and the functions that map an error to a frame, to
    a stream end, to the observer's code and to an HTTP status. *)

From S2P Require Import Prelude.
From stdpp Require Import prelude gmap strings list.

Module Protocol.

(** ** Codes *)

Definition CodeParseError : Z := -32700.
Definition CodeInvalidRequest : Z := -32600.
Definition CodeMethodNotFound : Z := -32601.
Definition CodeInvalidParams : Z := -32602.
Definition CodeInternalError : Z := -32603.
Definition CodeValidationFailed : Z := -32604.
Definition CodeCanceled : Z := -32800.
Definition CodeUnauthorized : Z := -32001.
Definition CodeConnectionRejected : Z := -32002.
Definition CodeForbidden : Z := -32003.
Definition CodeTooManyRequests : Z := -32004.
Definition CodeAuthFailed : Z := -32005.

Definition standardCodes : list Z :=
  [CodeParseError; CodeInvalidRequest; CodeMethodNotFound; CodeInvalidParams;
   CodeInternalError; CodeValidationFailed; CodeCanceled; CodeUnauthorized;
   CodeConnectionRejected; CodeForbidden; CodeTooManyRequests; CodeAuthFailed].

(** ** Errors

    A Go error is told apart by identity ([errors.Is] compares interface values,
    pointers here), by its dynamic type, and by what it unwraps to. *)

Inductive CancelReason := ErrClientCanceled | ErrConnectionClosed | ErrServerShutdown.

Definition reasonText (r : CancelReason) : string :=
  match r with
  | ErrClientCanceled => "client canceled"
  | ErrConnectionClosed => "connection closed"
  | ErrServerShutdown => "server shutdown"
  end.

Inductive goerr :=
  | EProto (id : nat) (code : Z) (message : string) (cause : option goerr)
           (data : option string)                     (** a ProtocolError *)
  | ECancel (r : CancelReason)                        (** a CancelReason *)
  | EOther (id : nat) (text : string) (wraps : list goerr).

(** [ProtocolError.Error] is [fmt.Sprintf("%s: %v", ...)] with a cause. *)
Fixpoint errorText (e : goerr) : string :=
  match e with
  | EProto _ _ m (Some c) _ => m +:+ ": " +:+ errorText c
  | EProto _ _ m None _ => m
  | ECancel r => reasonText r
  | EOther _ t _ => t
  end.

Definition sameError (e f : goerr) : bool :=
  match e, f with
  | EProto i _ _ _ _, EProto j _ _ _ _ => bool_decide (i = j)
  | ECancel ErrClientCanceled, ECancel ErrClientCanceled => true
  | ECancel ErrConnectionClosed, ECancel ErrConnectionClosed => true
  | ECancel ErrServerShutdown, ECancel ErrServerShutdown => true
  | EOther i _ _, EOther j _ _ => bool_decide (i = j)
  | _, _ => false
  end.

(** [errors.Is]: the error or anything it unwraps to, depth first. *)
Fixpoint errorsIs (e target : goerr) : bool :=
  sameError e target ||
  match e with
  | EProto _ _ _ (Some c) _ => errorsIs c target
  | EProto _ _ _ None _ => false
  | ECancel _ => false
  | EOther _ _ ws => existsb (λ w, errorsIs w target) ws
  end.

Definition NewError (id : nat) (code : Z) (message : string) : goerr :=
  EProto id code message None None.

Definition WrapError (id : nat) (code : Z) (message : string) (cause : goerr) : goerr :=
  EProto id code message (Some cause) None.

(** ** Frames *)

Record ErrorMessage := ErrorMsg {
  em_id : string; em_code : Z; em_message : string; em_data : option string;
}.

(** The frames a server writes. Payloads are already encoded JSON values. *)
Inductive frame :=
  | FResponse (id result : string)
  | FBinary (id contentType payload : string)
  | FError (m : ErrorMessage)
  | FProgress (id : string) (current total : Z) (message : string)
  | FPush (event data : string)
  | FStreamItem (id item : string)
  | FStreamChunk (id : string) (items : list string)
  | FStreamEnd (id : string) (code : Z) (message : string) (data : option string)
  | FSubscriptionPatch (id patch : string)
  | FAuthOK
  | FAuthError (message : string) (timeout : bool)
  | FConfig (reconnectInterval reconnectMaxInterval reconnectMaxAttempts : Z)
            (binaryFrames : bool) (maxMessageSize : Z).

(** ** Mapping errors *)

(** [Registry.LookupError]: the first registered mapping the error matches. *)
Fixpoint LookupError (mappings : list (goerr * Z)) (e : goerr) : option Z :=
  match mappings with
  | [] => None
  | (target, code) :: ms => if errorsIs e target then Some code else LookupError ms e
  end.

Section Mapping.
  Context (mappings : list (goerr * Z)).
  (** Whether a [Data] payload can be marshaled: the JSON library's. *)
  Context (marshalable : string → bool).

Definition sendError (id : string) (code : Z) (message : string) : frame :=
  FError (ErrorMsg id code message None).

(** A payload that cannot be marshaled is dropped and the frame sent without it. *)
Definition keepData (d : option string) : option string :=
  match d with Some x => if marshalable x then Some x else None | None => None end.

Definition sendProtocolError (id : string) (code : Z) (message : string) (data : option string)
    : frame :=
  FError (ErrorMsg id code message (keepData data)).

(** [errorCode]: what the observer is told; 0 for a nil error. *)
Definition errorCode (err : option goerr) : Z :=
  match err with
  | None => 0
  | Some (EProto _ code _ _ _) => code
  | Some e => match LookupError mappings e with Some code => code | None => CodeInternalError end
  end.

(** [sendErrorFor]: the frame it sends and the code it returns. *)
Definition sendErrorFor (id : string) (e : goerr) : frame * Z :=
  match e with
  | EProto _ code m _ data => (sendProtocolError id code m data, code)
  | _ =>
      match LookupError mappings e with
      | Some code => (sendError id code (errorText e), code)
      | None => (sendError id CodeInternalError (errorText e), CodeInternalError)
      end
  end.

(** [sendStreamEnd]. *)
Definition sendStreamEnd (id : string) (err : option goerr) : frame :=
  match err with
  | None => FStreamEnd id 0 "" None
  | Some (EProto _ code m _ data) => FStreamEnd id code m (keepData data)
  | Some e =>
      match LookupError mappings e with
      | Some code => FStreamEnd id code (errorText e) None
      | None => FStreamEnd id CodeInternalError (errorText e) None
      end
  end.

(** [connectionRejectedMessage]. *)
Definition connectionRejectedMessage (err : option goerr) : ErrorMessage :=
  match err with
  | Some (EProto _ code m _ data) => ErrorMsg "" code m data
  | Some e => ErrorMsg "" CodeConnectionRejected (errorText e) None
  | None => ErrorMsg "" CodeConnectionRejected "connection rejected" None
  end.

(** [panicError]: generic, whatever the panic value was. *)
Definition panicError : goerr := NewError 0 CodeInternalError "handler panicked".

(** [protocolErrorToHTTPStatus]. *)
Definition protocolErrorToHTTPStatus (code : Z) : Z :=
  if bool_decide (code = CodeInvalidParams) then 400
  else if bool_decide (code = CodeValidationFailed) then 422
  else if bool_decide (code = CodeUnauthorized) then 401
  else if bool_decide (code = CodeForbidden) then 403
  else if bool_decide (code = CodeMethodNotFound) then 404
  else 500.

(** The error branch of the REST adapter's [handleRequest]: the status and the message
    given to [writeJSONErrorData]. *)
Definition restError (e : goerr) : Z * ErrorMessage :=
  match e with
  | EProto _ code m _ data => (protocolErrorToHTTPStatus code, ErrorMsg "" code m data)
  | _ =>
      match LookupError mappings e with
      | Some code => (500%Z, ErrorMsg "" code (errorText e) None)
      | None => (500%Z, ErrorMsg "" CodeInternalError (errorText e) None)
      end
  end.

(** The body [writeJSONErrorData] writes: the marshaled message, or nothing at all when
    marshaling fails ([out, _ := marshalJSON(resp)]). *)
Definition restErrorBody (m : ErrorMessage) : option ErrorMessage :=
  match em_data m with
  | Some d => if marshalable d then Some m else None
  | None => Some m
  end.

End Mapping.

(** [advertisedMaxMessageSize] and [configMessage]. *)
Definition advertisedMaxMessageSize (limit : Z) : Z :=
  if bool_decide (limit ≤ 0)%Z then 0%Z else limit.

Definition configMessage (interval maxInterval maxAttempts maxSize : Z) (binaryFrames : bool)
    : frame :=
  FConfig interval maxInterval maxAttempts binaryFrames (advertisedMaxMessageSize maxSize).

(** ** Facts *)

Lemma sameError_refl e : sameError e e = true.
Proof. destruct e as [i c m k d|[]|i t w]; simpl; rewrite ?bool_decide_true; done. Qed.

Lemma errorsIs_refl e : errorsIs e e = true.
Proof. destruct e; cbn [errorsIs]; by rewrite sameError_refl. Qed.

Lemma LookupError_Some ms e code :
  LookupError ms e = Some code ↔
  ∃ i t, ms !! i = Some (t, code) ∧ errorsIs e t = true ∧
         ∀ j t' c', j < i → ms !! j = Some (t', c') → errorsIs e t' = false.
Proof.
  induction ms as [|[t c] ms IH]; simpl; [naive_solver|].
  destruct (errorsIs e t) eqn:E.
  - split.
    + intros [= <-]. exists 0, t. split_and!; [done|done|lia].
    + intros ([|i] & t' & Hi & Ht & Hmin); [simplify_eq/=; congruence|].
      specialize (Hmin 0 t c ltac:(lia) eq_refl). congruence.
  - rewrite IH. split.
    + intros (i & t' & Hi & Ht & Hmin). exists (S i), t'. split_and!; [done|done|].
      intros [|j] t0 c0 Hj; simpl; [congruence|]. intros ?. eapply Hmin; [|done]. lia.
    + intros ([|i] & t' & Hi & Ht & Hmin); [simplify_eq/=; congruence|]. exists i, t'.
      split_and!; [done|done|]. intros j t0 c0 Hj Hl. apply (Hmin (S j) t0 c0); [lia|done].
Qed.

Definition frameCode (f : frame) : option Z :=
  match f with
  | FError m => Some (em_code m)
  | FStreamEnd _ code _ _ => Some code
  | _ => None
  end.

(** ** Properties *)


End Protocol.
