(* ===== verification/Runes.v ===== *)
(** * Runes: the part of Go's strings and unicode packages the program uses

    A Go string that came out of the JSON decoder or out of a source file is
    valid UTF-8; it is represented by its code points. White space is the
    unicode.IsSpace table. Letter case needs the Unicode tables: the interface
    [RuneCase] gives the operations with the laws the program relies on, and
    [asciiCase] is the instance that knows the ASCII letters only. *)

From S2P Require Import Prelude.
From stdpp Require Import prelude list strings.

Module Runes.

Abbreviation rune := Z (only parsing).
Definition gostr : Type := list Z.

(** The code points of an ASCII literal. *)
Fixpoint lit (s : string) : gostr :=
  match s with
  | EmptyString => []
  | String a s => Z.of_nat (Ascii.nat_of_ascii a) :: lit s
  end.

(** [unicode.IsSpace]. *)
Definition isSpace (r : rune) : bool :=
  bool_decide (9 ≤ r ≤ 13)%Z || bool_decide (r = 32)%Z || bool_decide (r = 133)%Z ||
  bool_decide (r = 160)%Z || bool_decide (r = 5760)%Z || bool_decide (8192 ≤ r ≤ 8202)%Z ||
  bool_decide (r = 8232)%Z || bool_decide (r = 8233)%Z || bool_decide (r = 8239)%Z ||
  bool_decide (r = 8287)%Z || bool_decide (r = 12288)%Z.

Class RuneCase := {
  toUpper : rune → rune;
  toLower : rune → rune;
  isUpper : rune → bool;
  isLower : rune → bool;
  upper_ascii r : (0 ≤ r < 128)%Z → isUpper r = bool_decide (65 ≤ r ≤ 90)%Z;
  lower_ascii r : (0 ≤ r < 128)%Z → isLower r = bool_decide (97 ≤ r ≤ 122)%Z;
  toUpper_ascii r : (0 ≤ r < 128)%Z →
    toUpper r = if bool_decide (97 ≤ r ≤ 122)%Z then (r - 32)%Z else r;
  toLower_ascii r : (0 ≤ r < 128)%Z →
    toLower r = if bool_decide (65 ≤ r ≤ 90)%Z then (r + 32)%Z else r;
  upper_not_lower r : isUpper r = true → isLower r = false;
}.

Definition asciiCase : RuneCase.
Proof.
  refine {|
    toUpper r := if bool_decide (97 ≤ r ≤ 122)%Z then (r - 32)%Z else r;
    toLower r := if bool_decide (65 ≤ r ≤ 90)%Z then (r + 32)%Z else r;
    isUpper r := bool_decide (65 ≤ r ≤ 90)%Z;
    isLower r := bool_decide (97 ≤ r ≤ 122)%Z;
  |}; intros; repeat case_bool_decide; try done; lia.
Defined.

(** ** strings *)

(** [strings.TrimLeftFunc]. *)
Fixpoint trimLeftFunc (p : rune → bool) (s : gostr) : gostr :=
  match s with
  | [] => []
  | r :: s' => if p r then trimLeftFunc p s' else s
  end.

(** [strings.TrimRightFunc]. *)
Definition trimRightFunc (p : rune → bool) (s : gostr) : gostr :=
  reverse (trimLeftFunc p (reverse s)).

(** [strings.TrimSpace]. *)
Definition trimSpace (s : gostr) : gostr := trimRightFunc isSpace (trimLeftFunc isSpace s).

(** Membership in a cutset. *)
Definition inCutset (cs : gostr) (r : rune) : bool := bool_decide (r ∈ cs).

(** [strings.Split] with a one-rune separator. *)
Fixpoint split (sep : rune) (s : gostr) : list gostr :=
  match s with
  | [] => [[]]
  | r :: s' =>
      if bool_decide (r = sep) then [] :: split sep s'
      else match split sep s' with
           | [] => [[r]]
           | p :: ps => (r :: p) :: ps
           end
  end.

(** [strings.Cut] with a one-rune separator. *)
Fixpoint cut (sep : rune) (s : gostr) : option (gostr * gostr) :=
  match s with
  | [] => None
  | r :: s' =>
      if bool_decide (r = sep) then Some ([], s')
      else match cut sep s' with
           | Some (a, b) => Some (r :: a, b)
           | None => None
           end
  end.

(** [strings.Join] with a one-rune separator. *)
Fixpoint join (sep : rune) (ps : list gostr) : gostr :=
  match ps with
  | [] => []
  | [p] => p
  | p :: ps => p ++ sep :: join sep ps
  end.

(** [strings.HasPrefix]. *)
Definition hasPrefix (pre s : gostr) : bool := bool_decide (take (length pre) s = pre).

(** ** Facts *)

Lemma trimLeftFunc_spec p s :
  ∃ pre, s = pre ++ trimLeftFunc p s ∧ Forall (λ r, p r = true) pre ∧
         (∀ r rest, trimLeftFunc p s = r :: rest → p r = false).
Proof.
  induction s as [|r s IH]; simpl; [by exists []|].
  destruct (p r) eqn:E.
  - destruct IH as (pre & Hs & Hp & Hh). exists (r :: pre). split_and!; [by rewrite Hs at 1|by constructor|done].
  - exists []. split_and!; [done|done|]. intros ?? [= <- _]. done.
Qed.

Lemma trimLeftFunc_idem p s : trimLeftFunc p (trimLeftFunc p s) = trimLeftFunc p s.
Proof.
  induction s as [|r s IH]; simpl; [done|]. destruct (p r) eqn:E; [done|]. simpl. by rewrite E.
Qed.

Lemma trimRightFunc_idem p s : trimRightFunc p (trimRightFunc p s) = trimRightFunc p s.
Proof. unfold trimRightFunc. by rewrite reverse_involutive, trimLeftFunc_idem. Qed.

(** Nothing to trim: empty, or the first rune stays. *)
Definition leftClean (p : rune → bool) (s : gostr) : Prop :=
  match s with [] => True | r :: _ => p r = false end.

Lemma trimLeftFunc_clean p s : leftClean p (trimLeftFunc p s).
Proof. induction s as [|r s IH]; simpl; [done|]. destruct (p r) eqn:E; [done|]. simpl. done. Qed.

Lemma trimLeftFunc_id p s : leftClean p s → trimLeftFunc p s = s.
Proof. destruct s as [|r s]; simpl; [done|]. by intros ->. Qed.

Lemma trimLeftFunc_app p s t :
  trimLeftFunc p (s ++ t) =
  match trimLeftFunc p s with [] => trimLeftFunc p t | s' => s' ++ t end.
Proof.
  induction s as [|r s IH]; simpl; [done|]. destruct (p r); [done|]. done.
Qed.

Lemma trimRight_leftClean p s : leftClean p s → leftClean p (trimRightFunc p s).
Proof.
  destruct s as [|r s]; [done|]. simpl. intros Hr. unfold trimRightFunc.
  rewrite reverse_cons, trimLeftFunc_app. cbn [trimLeftFunc]. rewrite Hr.
  destruct (trimLeftFunc p (reverse s)) as [|x l]; [done|].
  by rewrite reverse_app.
Qed.

Lemma trimSpace_idem s : trimSpace (trimSpace s) = trimSpace s.
Proof.
  unfold trimSpace.
  rewrite (trimLeftFunc_id _ (trimRightFunc isSpace (trimLeftFunc isSpace s))).
  - apply trimRightFunc_idem.
  - apply trimRight_leftClean, trimLeftFunc_clean.
Qed.

Lemma split_nonempty sep s : split sep s ≠ [].
Proof.
  destruct s as [|r s]; simpl; [done|]. case_bool_decide; [done|]. by destruct (split sep s).
Qed.

Lemma join_split sep s : join sep (split sep s) = s.
Proof.
  induction s as [|r s IH]; simpl; [done|]. pose proof (split_nonempty sep s).
  case_bool_decide as E.
  - subst. destruct (split sep s) as [|p ps] eqn:Es; [done|]. simpl in *. by rewrite IH.
  - destruct (split sep s) as [|p ps] eqn:Es; [done|].
    destruct ps as [|q ps]; simpl in *; by rewrite IH.
Qed.

Lemma split_join sep ps :
  ps ≠ [] → Forall (λ p, sep ∉ p) ps → split sep (join sep ps) = ps.
Proof.
  intros Hne HF. induction HF as [|p ps Hp HF IH]; [done|]. clear Hne.
  assert (∀ rest, split sep (p ++ sep :: rest) = p :: split sep rest) as Hcons.
  { intros rest. clear IH. induction p as [|r p IHp]; simpl; [by rewrite bool_decide_true|].
    apply not_elem_of_cons in Hp as [Hr Hp]. rewrite bool_decide_false by done.
    rewrite IHp by done. done. }
  destruct ps as [|q ps]; simpl.
  - clear Hcons IH. induction p as [|r p IHp]; simpl; [done|].
    apply not_elem_of_cons in Hp as [Hr Hp]. rewrite bool_decide_false by done.
    by rewrite IHp.
  - rewrite Hcons. f_equal. by apply IH.
Qed.

Lemma cut_app sep a b : sep ∉ a → cut sep (a ++ sep :: b) = Some (a, b).
Proof.
  induction a as [|r a IH]; simpl; intros Ha; [by rewrite bool_decide_true|].
  apply not_elem_of_cons in Ha as [Hr Ha]. rewrite bool_decide_false by done.
  by rewrite IH.
Qed.

Lemma cut_None sep s : cut sep s = None ↔ sep ∉ s.
Proof.
  induction s as [|r s IH]; simpl; [set_solver|]. case_bool_decide as E.
  - subst. set_solver.
  - destruct (cut sep s) as [[]|]; set_solver.
Qed.

Lemma cut_Some sep s a b : cut sep s = Some (a, b) → s = a ++ sep :: b ∧ sep ∉ a.
Proof.
  revert a b. induction s as [|r s IH]; simpl; intros a b; [done|].
  case_bool_decide as E.
  - intros [= <- <-]. subst. set_solver.
  - destruct (cut sep s) as [[a' b']|]; [|done]. intros [= <- <-].
    destruct (IH a' b' eq_refl) as [-> ?]. set_solver.
Qed.

End Runes.
