(* ===== verification/Transform.v ===== *)
(** * Transform: Go types, values and the [transform] struct tag
      (transform.go, validate.go)

    The part of reflect the library uses: a type is [goType], a struct type is
    looked up by name in the program's declarations, and a decoded argument is a
    [value]. [ValidateTransformTags] checks the tags of a type when a handler is
    registered, [applyTransformsValue] applies them to every request. A walk carries
    reflect's addressability: writing a field of a struct that was passed by value
    panics. *)

From S2P Require Import Prelude Runes.
From stdpp Require Import prelude gmap strings list.
Import Runes.

Module Transform.

(** ** Types and values *)

Inductive basicKind := KString | KBool | KInt | KUint | KFloat | KOther.

#[export] Instance basicKind_eq_dec : EqDecision basicKind.
Proof. solve_decision. Defined.

Inductive goType :=
  | TBasic (k : basicKind)
  | TStruct (name : string)
  | TPtr (t : goType)
  | TSlice (t : goType)
  | TArray (t : goType)
  | TMap (k v : goType)
  | TIface (name : string)
  | TFunc (ins outs : list goType) (variadic : bool).

(** [reflect.StructField]: [sf_transform] is [Tag.Get("transform")]. *)
Record structField := StructField {
  sf_name : string;
  sf_type : goType;
  sf_exported : bool;
  sf_transform : gostr;
}.

Inductive value :=
  | VString (s : gostr)
  | VPtr (o : option value)
  | VSlice (o : option (list value))     (** [None] is the nil slice *)
  | VArray (l : list value)
  | VStruct (fields : list value)
  | VOther (raw : string).

(** ** Tags *)

Record ValidateRule := Rule { vr_tag : gostr; vr_param : gostr }.

(** [strings.Index(part, "=")] and the two slices around it. *)
Definition parseRule (part : gostr) : ValidateRule :=
  match cut 61 part with
  | Some (t, p) => Rule t p
  | None => Rule part []
  end.

Definition ParseValidateTag (tag : gostr) : list ValidateRule :=
  match tag with
  | [] => []
  | _ => parseRule <$> filter (λ p, p ≠ []) (trimSpace <$> split 44 tag)
  end.

Inductive transformError :=
  | UnsupportedType (field : string)
  | RemoveEmptyOnNonSlice (field : string)
  | UnknownOp (field : string) (op : gostr).

Inductive opName :=
  | OpTrim | OpTrimLeft | OpTrimRight | OpUppercase | OpLowercase | OpRemoveEmpty.

#[export] Instance opName_eq_dec : EqDecision opName.
Proof. solve_decision. Defined.

(** The [switch r.Tag] of both walkers. *)
Definition opOf (tag : gostr) : option opName :=
  if bool_decide (tag = lit "trim") then Some OpTrim
  else if bool_decide (tag = lit "trimleft") then Some OpTrimLeft
  else if bool_decide (tag = lit "trimright") then Some OpTrimRight
  else if bool_decide (tag = lit "uppercase") then Some OpUppercase
  else if bool_decide (tag = lit "lowercase") then Some OpLowercase
  else if bool_decide (tag = lit "removeempty") then Some OpRemoveEmpty
  else None.

(** ** Validation *)

Definition isStringField (t : goType) : bool :=
  match t with
  | TBasic KString | TPtr (TBasic KString) => true
  | _ => false
  end.

Definition isStringSlice (t : goType) : bool :=
  match t with TSlice (TBasic KString) => true | _ => false end.

Fixpoint checkRules (sf : structField) (rules : list ValidateRule) : res transformError unit :=
  match rules with
  | [] => Ok ()
  | r :: rules =>
      match opOf (vr_tag r) with
      | None => Err (UnknownOp (sf_name sf) (vr_tag r))
      | Some OpRemoveEmpty =>
          if negb (isStringSlice (sf_type sf)) then Err (RemoveEmptyOnNonSlice (sf_name sf))
          else checkRules sf rules
      | Some _ => checkRules sf rules
      end
  end.

Definition validateTransformTagOnField (sf : structField) (rules : list ValidateRule)
    : res transformError unit :=
  if negb (isStringField (sf_type sf)) && negb (isStringSlice (sf_type sf))
  then Err (UnsupportedType (sf_name sf))
  else checkRules sf rules.

(** The struct a field leads to, if any: [validateTransformTagsChildren] and
    [recurseIntoField] descend into the same kinds. *)
Definition childStruct (t : goType) : option string :=
  match t with
  | TStruct n | TPtr (TStruct n) => Some n
  | TSlice (TStruct n) | TArray (TStruct n) => Some n
  | TSlice (TPtr (TStruct n)) | TArray (TPtr (TStruct n)) => Some n
  | _ => None
  end.

Section Structs.
  (** The struct types of the program. *)
  Context (structs : gmap string (list structField)).

(** [validateTransformTagsType] and [validateTransformTagsChildren]; the [seen]
    map is threaded through the walk. [None] is running out of fuel. *)
Fixpoint validateTransformTagsType (fuel : nat) (seen : gset string) (t : string)
    : option (res transformError (gset string)) :=
  match fuel with
  | 0 => None
  | S fuel =>
      if decide (t ∈ seen) then Some (Ok seen)
      else
        (fix fields (seen : gset string) (fs : list structField) :=
           match fs with
           | [] => Some (Ok seen)
           | sf :: fs =>
               if negb (sf_exported sf) then fields seen fs
               else
                 match (if bool_decide (sf_transform sf ≠ [])
                        then validateTransformTagOnField sf (ParseValidateTag (sf_transform sf))
                        else Ok ()) with
                 | Err e => Some (Err e)
                 | Ok _ =>
                     match childStruct (sf_type sf) with
                     | None => fields seen fs
                     | Some n =>
                         match validateTransformTagsType fuel seen n with
                         | Some (Ok seen') => fields seen' fs
                         | r => r
                         end
                     end
                 end
           end) ({[t]} ∪ seen) (default [] (structs !! t))
  end.

(** One more than the struct types is enough: a type is entered once. *)
Definition typeFuel : nat := S (size structs).

(** [ValidateTransformTags]; pointers are stripped first. *)
Fixpoint ValidateTransformTags (t : goType) : option (res transformError unit) :=
  match t with
  | TPtr t => ValidateTransformTags t
  | TStruct n =>
      match validateTransformTagsType typeFuel ∅ n with
      | Some (Ok _) => Some (Ok ())
      | Some (Err e) => Some (Err e)
      | None => None
      end
  | _ => Some (Ok ())
  end.

(** ** Application *)

Context {RC : RuneCase}.

(** One step of [applyStringOps]. *)
Definition applyStringOp (field : string) (inSlice : bool) (s : gostr) (r : ValidateRule)
    : res transformError gostr :=
  match opOf (vr_tag r) with
  | Some OpTrim => Ok (trimSpace s)
  | Some OpTrimLeft =>
      Ok (match vr_param r with
          | [] => trimLeftFunc isSpace s
          | cs => trimLeftFunc (inCutset cs) s
          end)
  | Some OpTrimRight =>
      Ok (match vr_param r with
          | [] => trimRightFunc isSpace s
          | cs => trimRightFunc (inCutset cs) s
          end)
  | Some OpUppercase => Ok (toUpper <$> s)
  | Some OpLowercase => Ok (toLower <$> s)
  | Some OpRemoveEmpty =>
      if negb inSlice then Err (RemoveEmptyOnNonSlice field) else Ok s
  | None => Err (UnknownOp field (vr_tag r))
  end.

Fixpoint applyStringOps (field : string) (s : gostr) (rules : list ValidateRule) (inSlice : bool)
    : res transformError gostr :=
  match rules with
  | [] => Ok s
  | r :: rules =>
      s' ← applyStringOp field inSlice s r;
      applyStringOps field s' rules inSlice
  end.

(** The loop of [applySliceStringOps] over the rules. *)
Fixpoint applySliceOps (field : string) (out : list gostr) (rules : list ValidateRule)
    : res transformError (list gostr) :=
  match rules with
  | [] => Ok out
  | r :: rules =>
      if bool_decide (opOf (vr_tag r) = Some OpRemoveEmpty)
      then applySliceOps field (filter (λ s, s ≠ []) out) rules
      else
        out' ← mapRes (λ s, applyStringOps field s [r] true) out;
        applySliceOps field out' rules
  end.

(** How an application ends early: with the error it returns, or in the panic of
    [reflect.Value.SetString] and [Set] on a value that is not addressable. *)
Inductive applyFault :=
  | Returned (e : transformError)
  | SetPanics (field : string).

Definition orReturn {A} (r : res transformError A) : res applyFault A :=
  match r with Ok a => Ok a | Err e => Err (Returned e) end.

(** A write through reflect, on an addressable value or not. *)
Definition setValue (addr : bool) (field : string) (v : value) : res applyFault value :=
  if addr then Ok v else Err (SetPanics field).

Definition stringOf (v : value) : gostr := match v with VString s => s | _ => [] end.

(** [applySliceStringOps]: a nil slice with no survivors stays nil. *)
Definition applySliceStringOps (addr : bool) (field : string) (o : option (list value))
    (rules : list ValidateRule) : res applyFault value :=
  out ← orReturn (applySliceOps field (stringOf <$> default [] o) rules);
  match o, out with
  | None, [] => Ok (VSlice None)
  | _, _ => setValue addr field (VSlice (Some (VString <$> out)))
  end.

(** [applyFieldRules]: the kind is the declared type's; [addr] tells whether [fv] is
    addressable. What a pointer points to always is. *)
Definition applyFieldRules (addr : bool) (sf : structField) (fv : value)
    (rules : list ValidateRule) : res applyFault value :=
  match sf_type sf with
  | TBasic KString =>
      s ← orReturn (applyStringOps (sf_name sf) (stringOf fv) rules false);
      setValue addr (sf_name sf) (VString s)
  | TPtr t =>
      match t, fv with
      | TBasic KString, VPtr (Some w) =>
          s ← orReturn (applyStringOps (sf_name sf) (stringOf w) rules false);
          w' ← setValue true (sf_name sf) (VString s); Ok (VPtr (Some w'))
      | _, _ => Ok fv
      end
  | TSlice (TBasic KString) =>
      match fv with
      | VSlice o => applySliceStringOps addr (sf_name sf) o rules
      | _ => Ok fv
      end
  | _ => Err (Returned (UnsupportedType (sf_name sf)))
  end.

(** [recurseIntoField] on a field of type [t], [rec] being [applyTransformsValue];
    [f1] is the field the rules left, returned where [f] holds no struct. A nested
    struct and the elements of an array are as addressable as the field; the target
    of a pointer and the elements of a slice always are. *)
Definition recurseIntoField (rec : bool → string → value → res applyFault value)
    (addr : bool) (t : goType) (f f1 : value) : res applyFault value :=
  match t, f with
  | TStruct n, _ => rec addr n f
  | TPtr (TStruct n), VPtr (Some w) => w' ← rec true n w; Ok (VPtr (Some w'))
  | TSlice (TStruct n), VSlice (Some l) => l' ← mapRes (rec true n) l; Ok (VSlice (Some l'))
  | TArray (TStruct n), VArray l => l' ← mapRes (rec addr n) l; Ok (VArray l')
  | TSlice (TPtr (TStruct n)), VSlice (Some l) =>
      l' ← mapRes (λ e, match e with
                        | VPtr (Some w) => w' ← rec true n w; Ok (VPtr (Some w'))
                        | _ => Ok e
                        end) l;
      Ok (VSlice (Some l'))
  | TArray (TPtr (TStruct n)), VArray l =>
      l' ← mapRes (λ e, match e with
                        | VPtr (Some w) => w' ← rec true n w; Ok (VPtr (Some w'))
                        | _ => Ok e
                        end) l;
      Ok (VArray l')
  | _, _ => Ok f1
  end.

(** The loop of [applyTransformsValue] over the fields, each as addressable as the
    struct. The rules only change strings, so the recursion is on the field as it
    was. *)
Definition applyFields (rec : bool → string → value → res applyFault value) (addr : bool)
    : list value → list structField → res applyFault (list value) :=
  fix fields fs ds :=
    match fs, ds with
    | f :: fs, sf :: ds =>
        f2 ← (if negb (sf_exported sf) then Ok f
              else
                f1 ← (match ParseValidateTag (sf_transform sf) with
                      | [] => Ok f
                      | rules => applyFieldRules addr sf f rules
                      end);
                recurseIntoField rec addr (sf_type sf) f f1);
        rest ← fields fs ds;
        Ok (f2 :: rest)
    | _, _ => Ok fs
    end.

Fixpoint applyTransformsValue (addr : bool) (t : string) (v : value) {struct v}
    : res applyFault value :=
  match v with
  | VStruct fs =>
      fs' ← applyFields applyTransformsValue addr fs (default [] (structs !! t));
      Ok (VStruct fs')
  | _ => Ok v
  end.

(** The loop of [ApplyTransforms] over pointers: what one points to is addressable. *)
Fixpoint applyBehind (addr : bool) (t : goType) (v : value) : res applyFault value :=
  match t, v with
  | TPtr t, VPtr (Some w) => w' ← applyBehind true t w; Ok (VPtr (Some w'))
  | TStruct n, _ => applyTransformsValue addr n v
  | _, _ => Ok v
  end.

(** [ApplyTransforms] on a value of type [t]: [reflect.ValueOf(v)] is a copy, and not
    addressable. *)
Definition ApplyTransforms (t : goType) (v : value) : res applyFault value :=
  applyBehind false t v.

(** ** Validation: fuel and soundness *)

(** A field validation accepts, with the structs it leads to in [C]. *)
Definition okField (C : gset string) (sf : structField) : Prop :=
  sf_exported sf = true →
  (sf_transform sf ≠ [] →
     validateTransformTagOnField sf (ParseValidateTag (sf_transform sf)) = Ok ()) ∧
  (∀ n, childStruct (sf_type sf) = Some n → n ∈ C).

Definition okStruct (C : gset string) (n : string) : Prop :=
  Forall (okField C) (default [] (structs !! n)).

Lemma okField_mono C C' sf : C ⊆ C' → okField C sf → okField C' sf.
Proof. intros Hs H He. destruct (H He). split; [done|]. set_solver. Qed.

Lemma okStruct_mono C C' n : C ⊆ C' → okStruct C n → okStruct C' n.
Proof. intros Hs H. eapply Forall_impl; [exact H|]. eauto using okField_mono. Qed.

(** What a successful walk guarantees about the names it added. *)
Definition walked (seen seen' : gset string) : Prop :=
  seen ⊆ seen' ∧ ∀ n, n ∈ seen' → n ∉ seen → okStruct seen' n.

Lemma walked_trans s1 s2 s3 : walked s1 s2 → walked s2 s3 → walked s1 s3.
Proof.
  intros [H1 K1] [H2 K2]. split; [set_solver|]. intros n Hn Hn1.
  destruct (decide (n ∈ s2)); [|by apply K2]. eapply okStruct_mono; [done|]. by apply K1.
Qed.

Lemma size_remaining (seen : gset string) t :
  t ∉ seen → t ∈ dom structs →
  size (dom structs ∖ ({[t]} ∪ seen)) < size (dom structs ∖ seen).
Proof. intros Ht Hd. apply subset_size. set_solver. Qed.

Lemma remaining_mono (seen seen' : gset string) :
  seen ⊆ seen' → size (dom structs ∖ seen') ≤ size (dom structs ∖ seen).
Proof. intros H. apply subseteq_size. set_solver. Qed.

Lemma validate_walk fuel seen t :
  size (dom structs ∖ seen) < fuel →
  ∃ r, validateTransformTagsType fuel seen t = Some r ∧
       ∀ seen', r = Ok seen' → walked seen seen' ∧ t ∈ seen'.
Proof.
  revert seen t. induction fuel as [|fuel IH]; intros seen t Hf; [lia|]. simpl.
  case_decide as Ht.
  { eexists. split; [done|]. intros seen' [= <-]. split; [|done]. split; [done|]. naive_solver. }
  match goal with |- context [(?f ({[t]} ∪ seen) (default [] (structs !! t)))] => set (fields := f) end.
  assert (∀ fs seen0, (fs ≠ [] → size (dom structs ∖ seen0) < fuel) →
    ∃ r, fields seen0 fs = Some r ∧
      ∀ seen', r = Ok seen' → walked seen0 seen' ∧ Forall (okField seen') fs) as Hfields.
  { induction fs as [|sf fs IHfs]; intros seen0 Hs0; simpl.
    { eexists. split; [done|]. intros seen' [= <-]. split; [|constructor].
      split; [done|]. naive_solver. }
    specialize (Hs0 ltac:(done)).
    destruct (sf_exported sf) eqn:He; simpl.
    2: { destruct (IHfs seen0) as (r & -> & Hr); [done|]. eexists. split; [done|].
         intros seen' Hok. destruct (Hr _ Hok). split; [done|]. constructor; [|done].
         unfold okField. congruence. }
    destruct (if bool_decide _ then _ else _) as [[]|e] eqn:Htag;
      [|eexists; split; [done|]; naive_solver].
    destruct (childStruct (sf_type sf)) as [n|] eqn:Hc.
    - destruct (IH seen0 n Hs0) as (r & -> & Hr). destruct r as [seen1|e];
        [|eexists; split; [done|]; naive_solver].
      destruct (Hr _ eq_refl) as [Hw Hn]. destruct (IHfs seen1) as (r & -> & Hr').
      { intros _. pose proof (remaining_mono seen0 seen1 (proj1 Hw)). lia. }
      eexists. split; [done|]. intros seen' Hok. destruct (Hr' _ Hok) as [Hw' HF].
      split; [by eapply walked_trans|]. constructor; [|done]. intros _. split.
      + intros Hne. by rewrite bool_decide_true in Htag.
      + intros n' Hn'. rewrite Hc in Hn'. simplify_eq. destruct Hw'. set_solver.
    - destruct (IHfs seen0) as (r & -> & Hr); [done|]. eexists. split; [done|].
      intros seen' Hok. destruct (Hr _ Hok) as [Hw HF]. split; [done|]. constructor; [|done].
      intros _. split; [|naive_solver]. intros Hne. by rewrite bool_decide_true in Htag. }
  destruct (Hfields (default [] (structs !! t)) ({[t]} ∪ seen)) as (r & -> & Hr).
  { intros Hne. assert (t ∈ dom structs) as Hd.
    { apply elem_of_dom. by destruct (structs !! t). }
    pose proof (size_remaining seen t Ht Hd). lia. }
  eexists. split; [done|]. intros seen' Hok. destruct (Hr _ Hok) as [[Hs Hw] HF].
  split; [|set_solver]. split; [set_solver|]. intros n Hn Hns.
  destruct (decide (n = t)) as [->|]; [done|]. apply Hw; set_solver.
Qed.

(** ** Application to well-typed values *)

Definition typedFields (P : goType → value → Prop) : list value → list structField → Prop :=
  fix fields fs ds :=
    match fs, ds with
    | [], [] => True
    | f :: fs, d :: ds => P (sf_type d) f ∧ fields fs ds
    | _, _ => False
    end.

(** The values of a type. *)
Fixpoint hasType (t : goType) (v : value) {struct v} : Prop :=
  match v, t with
  | VString _, TBasic KString => True
  | VPtr None, TPtr _ => True
  | VPtr (Some w), TPtr t => hasType t w
  | VSlice None, TSlice _ => True
  | VSlice (Some l), TSlice t =>
      (fix all (l : list value) : Prop :=
         match l with [] => True | x :: l => hasType t x ∧ all l end) l
  | VArray l, TArray t =>
      (fix all (l : list value) : Prop :=
         match l with [] => True | x :: l => hasType t x ∧ all l end) l
  | VStruct fs, TStruct n => typedFields hasType fs (default [] (structs !! n))
  | VOther _, TBasic k => k ≠ KString
  | VOther _, (TMap _ _ | TIface _ | TFunc _ _ _) => True
  | _, _ => False
  end.

Lemma hasType_slice t l : hasType (TSlice t) (VSlice (Some l)) ↔ Forall (hasType t) l.
Proof. induction l as [|x l IH]; simpl; [naive_solver|]. rewrite Forall_cons. simpl in IH. naive_solver. Qed.

Lemma hasType_array t l : hasType (TArray t) (VArray l) ↔ Forall (hasType t) l.
Proof. induction l as [|x l IH]; simpl; [naive_solver|]. rewrite Forall_cons. simpl in IH. naive_solver. Qed.

Lemma applyStringOps_ok sf s rules inSlice :
  checkRules sf rules = Ok () → (inSlice = false → isStringSlice (sf_type sf) = false) →
  ∃ s', applyStringOps (sf_name sf) s rules inSlice = Ok s'.
Proof.
  revert s. induction rules as [|r rules IH]; intros s Hc Hin; simpl in *; [by eexists|].
  unfold applyStringOp. destruct (opOf (vr_tag r)) as [[]|]; simpl; try by apply IH.
  - destruct inSlice; simpl; [|rewrite Hin in Hc by done; done].
    apply IH; [|done]. by destruct (isStringSlice (sf_type sf)).
  - done.
Qed.

Lemma applySliceOps_ok sf out rules :
  checkRules sf rules = Ok () → ∃ out', applySliceOps (sf_name sf) out rules = Ok out'.
Proof.
  revert out. induction rules as [|r rules IH]; intros out Hc; simpl in *; [by eexists|].
  destruct (opOf (vr_tag r)) as [o|] eqn:Eo; [|done].
  assert (checkRules sf rules = Ok ()) as Hc'.
  { destruct o; try done. by destruct (isStringSlice (sf_type sf)). }
  case_bool_decide; [by apply IH|].
  assert (∀ s, ∃ s', applyStringOps (sf_name sf) s [r] true = Ok s') as Hone.
  { intros s. apply applyStringOps_ok; [|done]. simpl. rewrite Eo. by destruct o. }
  assert (∃ out', mapRes (λ s, applyStringOps (sf_name sf) s [r] true) out = Ok out')
    as [out' E].
  { clear -Hone. induction out as [|s out [out' IH]]; [by eexists|]. simpl in *.
    destruct (Hone s) as [s' ->]. rewrite IH. by eexists. }
  simpl in E. rewrite E. simpl. by apply IH.
Qed.

(** *** Writes that need an addressable struct *)

(** A field whose tag, or a struct held in place in it, is written through the struct
    that holds it. A nil slice of strings is left alone. *)
Definition fieldInPlace (rec : string → value → bool) (sf : structField) (f : value) : bool :=
  sf_exported sf &&
  ((bool_decide (ParseValidateTag (sf_transform sf) ≠ []) &&
    match sf_type sf, f with
    | TBasic KString, _ => true
    | TSlice (TBasic KString), VSlice (Some _) => true
    | _, _ => false
    end)
   || match sf_type sf, f with
      | TStruct n, _ => rec n f
      | TArray (TStruct n), VArray l => existsb (rec n) l
      | _, _ => false
      end).

Definition fieldsInPlace (rec : string → value → bool)
    : list value → list structField → bool :=
  fix fields fs ds :=
    match fs, ds with
    | f :: fs, sf :: ds => fieldInPlace rec sf f || fields fs ds
    | _, _ => false
    end.

(** Does applying the tags of struct [t] to [v] write into [v] itself? *)
Fixpoint writtenInPlace (t : string) (v : value) {struct v} : bool :=
  match v with
  | VStruct fs => fieldsInPlace writtenInPlace fs (default [] (structs !! t))
  | _ => false
  end.

(** How a walk ends on a validated type: with a result, unless it had to write [w]
    into something that is not addressable. *)
Definition lands {A} (addr w : bool) (P : A → Prop) (r : res applyFault A) : Prop :=
  if addr || negb w then ∃ x, r = Ok x ∧ P x else ∃ field, r = Err (SetPanics field).

Lemma lands_ok {A} addr (P : A → Prop) x : P x → lands addr false P (Ok x).
Proof. intros H. unfold lands. rewrite orb_true_r. by exists x. Qed.

Lemma lands_true {A} addr w (P : A → Prop) r : lands true w P r → lands addr false P r.
Proof. unfold lands. by rewrite orb_true_r. Qed.

Lemma lands_bind {A B} addr w1 w2 (P : A → Prop) (Q : B → Prop) r k :
  lands addr w1 P r → (∀ x, P x → lands addr w2 Q (k x)) →
  lands addr (w1 || w2) Q (r ≫= k).
Proof.
  unfold lands. intros H1 H2. destruct (addr || negb w1) eqn:E; destruct H1 as [x H1].
  - destruct H1 as [-> Hx]. specialize (H2 x Hx). by destruct addr, w1.
  - rewrite H1. destruct addr, w1; try done. by exists x.
Qed.

Lemma lands_map {A B} addr w (P : A → Prop) (Q : B → Prop) r (g : A → B) :
  lands addr w P r → (∀ x, P x → Q (g x)) → lands addr w Q (x ← r; Ok (g x)).
Proof.
  intros H HQ. rewrite <- (orb_false_r w). eapply lands_bind; [exact H|].
  intros x Hx. by apply lands_ok, HQ.
Qed.

Lemma mapRes_lands {A B} addr (w : A → bool) (Q : B → Prop) (f : A → res applyFault B) l :
  Forall (λ x, lands addr (w x) Q (f x)) l →
  lands addr (existsb w l) (Forall Q) (mapRes f l).
Proof.
  induction 1 as [|x l Hx _ IH]; [by apply lands_ok|].
  assert (mapRes f (x :: l) = (y ← f x; ys ← mapRes f l; Ok (y :: ys))) as ->.
  { simpl. destruct (f x); [by destruct (mapRes f l)|done]. }
  eapply lands_bind; [exact Hx|]. intros y Hy. eapply lands_map; [exact IH|]. intros ys Hys. by constructor.
Qed.

Lemma setValue_lands addr field (P : value → Prop) v :
  P v → lands addr true P (setValue addr field v).
Proof. intros H. unfold lands, setValue. destruct addr; by eexists. Qed.

(** The rules of a validated field keep its type. *)
Lemma applyFieldRules_lands addr sf f :
  hasType (sf_type sf) f →
  validateTransformTagOnField sf (ParseValidateTag (sf_transform sf)) = Ok () →
  lands addr (match sf_type sf, f with
              | TBasic KString, _ => true
              | TSlice (TBasic KString), VSlice (Some _) => true
              | _, _ => false
              end)
    (hasType (sf_type sf)) (applyFieldRules addr sf f (ParseValidateTag (sf_transform sf))).
Proof.
  intros Ht Hv. unfold validateTransformTagOnField in Hv.
  destruct (negb _ && negb _) eqn:En; [done|]. unfold applyFieldRules.
  set (rules := ParseValidateTag _) in *.
  assert (∀ s, isStringSlice (sf_type sf) = false →
    ∃ s', applyStringOps (sf_name sf) s rules false = Ok s') as Hs.
  { intros s E. by apply applyStringOps_ok. }
  destruct (sf_type sf) as [[]| |[[]| | | | | | |]|[[]| | | | | | |]| | | |] eqn:Et; try done;
    simpl in *.
  - destruct (Hs (stringOf f)) as [s' ->]; [done|]. simpl. by apply setValue_lands.
  - destruct f as [|[w|]|[l|]| | |]; simpl in Ht; try done; [|by apply lands_ok].
    destruct (Hs (stringOf w)) as [s' ->]; [done|]. simpl. by apply lands_ok.
  - destruct f as [|[w|]|o| | |]; simpl in Ht; try done. unfold applySliceStringOps.
    destruct (applySliceOps_ok sf (stringOf <$> default [] o) rules) as [out E]; [done|].
    rewrite E. simpl. destruct o as [l|].
    + apply setValue_lands, hasType_slice, Forall_fmap. by apply Forall_true.
    + assert (out = []) as ->; [|by apply lands_ok].
      clear -E. simpl in E. induction rules as [|r rules IH]; simpl in E; [by injection E|].
      case_bool_decide; [rewrite filter_nil in E|]; by apply IH.
Qed.

Lemma value_ind' (P : value → Prop) :
  (∀ s, P (VString s)) → P (VPtr None) → (∀ w, P w → P (VPtr (Some w))) →
  P (VSlice None) → (∀ l, Forall P l → P (VSlice (Some l))) →
  (∀ l, Forall P l → P (VArray l)) → (∀ fs, Forall P fs → P (VStruct fs)) →
  (∀ r, P (VOther r)) → ∀ v, P v.
Proof.
  intros H1 H2 H3 H4 H5 H6 H7 H8. fix go 1.
  assert (∀ l, (∀ v, P v) → Forall P l) as _ by (intros; by apply Forall_true).
  intros [s|[w|]|[l|]|l|fs|r]; [apply H1|apply H3, go|apply H2|apply H5|apply H4|apply H6|apply H7|apply H8].
  - induction l; constructor; [apply go|done].
  - induction l; constructor; [apply go|done].
  - induction fs; constructor; [apply go|done].
Qed.

(** *** An addressable struct never panics *)

Definition noPanic {A} (r : res applyFault A) : Prop := ∀ field, r ≠ Err (SetPanics field).

Lemma noPanic_bind {A B} (r : res applyFault A) (k : A → res applyFault B) :
  noPanic r → (∀ x, noPanic (k x)) → noPanic (r ≫= k).
Proof. intros Hr Hk field. destruct r; simpl; [apply Hk|]. intros [= ->]. by apply (Hr field). Qed.

Lemma noPanic_ok {A} (x : A) : noPanic (@Ok applyFault A x).
Proof. by intros field. Qed.

Lemma noPanic_return {A} (r : res transformError A) : noPanic (orReturn r).
Proof. intros field. by destruct r. Qed.

Lemma noPanic_map {A B} (f : A → res applyFault B) l :
  Forall (λ x, noPanic (f x)) l → noPanic (mapRes f l).
Proof.
  induction 1 as [|x l Hx _ IH]; intros field; simpl; [done|].
  destruct (f x) as [y|e]; [|intros [= ->]; by apply (Hx field)].
  destruct (mapRes f l) as [ys|e]; [done|]. intros [= ->]. by apply (IH field).
Qed.

Lemma rules_noPanic sf f rules : noPanic (applyFieldRules true sf f rules).
Proof.
  unfold applyFieldRules, applySliceStringOps.
  destruct (sf_type sf) as [[]| |[[]| | | | | | |]|[[]| | | | | | |]| | | |], f as [|[]| | | |];
    repeat first [done | apply noPanic_ok | apply noPanic_bind; [apply noPanic_return|]
                 | intros ? | case_match].
Qed.

(** The walks of [v] itself, of its target and of its elements. *)
Definition calmHere (v : value) : Prop :=
  (∀ n, noPanic (applyTransformsValue true n v)) ∧
  ∀ n w, v = VPtr (Some w) → noPanic (applyTransformsValue true n w).

Lemma ptr_elem_calm n e :
  calmHere e →
  noPanic (match e with
           | VPtr (Some w) => w' ← applyTransformsValue true n w; Ok (VPtr (Some w'))
           | _ => Ok e
           end).
Proof.
  intros [_ H]. destruct e as [|[w|]| | | |]; try apply noPanic_ok.
  apply noPanic_bind; [by apply H|]. intros ?. apply noPanic_ok.
Qed.

Lemma recurse_noPanic t f f1 :
  calmHere f → (∀ l, f = VSlice (Some l) ∨ f = VArray l → Forall calmHere l) →
  noPanic (recurseIntoField applyTransformsValue true t f f1).
Proof.
  intros [H1 H2] Hl.
  destruct t as [| n |[]|[| |[]| | | | |]|[| |[]| | | | |]| | |],
    f as [|[w|]|[l|]|l| |]; simpl; try apply noPanic_ok; try apply H1;
    (apply noPanic_bind; [|intros ?; apply noPanic_ok]); try by apply H2.
  all: apply noPanic_map; eapply Forall_impl; [apply Hl; by eauto|]; intros e He;
    try apply (proj1 He); by apply ptr_elem_calm.
Qed.

Lemma addressable_calm v :
  calmHere v ∧ ∀ l, v = VSlice (Some l) ∨ v = VArray l → Forall calmHere l.
Proof.
  induction v as [s| |w IH| |l IH|l IH|fs IH|r] using value_ind';
    try (split; [split; [intros n; apply noPanic_ok|intros ?? [=]]|intros ? [[=]|[=]]]).
  - subst. apply (proj1 (proj1 IH)).
  - subst. eapply Forall_impl; [exact IH|]. by intros x [].
  - subst. eapply Forall_impl; [exact IH|]. by intros x [].
  - split; [|intros ? [[=]|[=]]]. split; [|intros ?? [=]]. intros n.
    cbn [applyTransformsValue]. apply noPanic_bind; [|intros ?; apply noPanic_ok].
    generalize (default [] (structs !! n)).
    induction IH as [|f fs Hf _ IHfs]; intros [|sf ds]; cbn [applyFields]; try apply noPanic_ok.
    apply noPanic_bind; [|intros ?; apply noPanic_bind; [apply IHfs|intros ?; apply noPanic_ok]].
    destruct (negb _); [apply noPanic_ok|]. apply noPanic_bind.
    + destruct (ParseValidateTag _); [apply noPanic_ok|apply rules_noPanic].
    + intros f1. destruct Hf. by apply recurse_noPanic.
Qed.

(** Whatever the value, valid or not. *)
Lemma addressable_never_panics n v field :
  applyTransformsValue true n v ≠ Err (SetPanics field).
Proof. apply (proj1 (proj1 (addressable_calm v))). Qed.

(** What the induction on values provides at [v]: the walk of [v] as a struct, of
    its target as a pointer, and of its elements as a slice or an array. *)
Definition okHere (C : gset string) (v : value) : Prop :=
  (∀ n addr, n ∈ C → hasType (TStruct n) v →
    lands addr (writtenInPlace n v) (hasType (TStruct n)) (applyTransformsValue addr n v)) ∧
  (∀ n w, v = VPtr (Some w) → n ∈ C → hasType (TStruct n) w →
    ∃ w', applyTransformsValue true n w = Ok w' ∧ hasType (TStruct n) w').

Definition okApply (C : gset string) (v : value) : Prop :=
  okHere C v ∧ ∀ l, v = VSlice (Some l) ∨ v = VArray l → Forall (okHere C) l.

(** Elements of a list of structs, and of a list of pointers to structs. *)
Lemma elems_land C n addr l :
  n ∈ C → Forall (okHere C) l → Forall (hasType (TStruct n)) l →
  lands addr (existsb (writtenInPlace n) l) (Forall (hasType (TStruct n)))
    (mapRes (applyTransformsValue addr n) l).
Proof.
  intros Hn Hok Ht. apply mapRes_lands. rewrite Forall_forall in Hok.
  rewrite Forall_forall in Ht. apply Forall_forall. intros x Hx.
  apply (proj1 (Hok x Hx)); [done|]. by apply Ht.
Qed.

Lemma ptr_elems_land C n addr l :
  n ∈ C → Forall (okHere C) l → Forall (hasType (TPtr (TStruct n))) l →
  lands addr false (Forall (hasType (TPtr (TStruct n))))
    (mapRes (λ e, match e with
                  | VPtr (Some w) => w' ← applyTransformsValue true n w; Ok (VPtr (Some w'))
                  | _ => Ok e
                  end) l).
Proof.
  intros Hn Hok Ht. unfold lands. rewrite orb_true_r.
  eapply mapRes_total; [exact Ht|]. intros x Hx Hxt.
  rewrite Forall_forall in Hok. destruct x as [|[w|]|[l'|]| | |]; try done; [|by eexists].
  destruct (proj2 (Hok _ Hx) n w eq_refl Hn Hxt) as (w' & -> & Hw'). simpl. by eexists.
Qed.

(** The structs a field holds. *)
Lemma recurse_lands C sf f f1 addr :
  okField C sf → sf_exported sf = true → okApply C f → hasType (sf_type sf) f →
  hasType (sf_type sf) f1 →
  lands addr (match sf_type sf, f with
              | TStruct n, _ => writtenInPlace n f
              | TArray (TStruct n), VArray l => existsb (writtenInPlace n) l
              | _, _ => false
              end)
    (hasType (sf_type sf)) (recurseIntoField applyTransformsValue addr (sf_type sf) f f1).
Proof.
  intros Hok He [Hf Hl] Ht Hf1. destruct (Hok He) as [_ Hchild].
  destruct (sf_type sf) as [| n |[]|[| |[]| | | | |]|[| |[]| | | | |]| | |] eqn:Et;
    simpl in Hchild; try specialize (Hchild _ eq_refl); simpl;
    try by (destruct f as [|[w|]|[l|]| | |]; apply lands_ok).
  - by apply (proj1 Hf).
  - destruct f as [|[w|]|[l|]| | |]; try done; [|by apply lands_ok].
    destruct (proj2 Hf _ w eq_refl Hchild Ht) as (w' & -> & Hw'). simpl. by apply lands_ok.
  - destruct f as [|[w|]|[l|]| | |]; try done; [|by apply lands_ok].
    apply hasType_slice in Ht. apply (lands_true _ (existsb (writtenInPlace name) l)).
    eapply lands_map; [apply (elems_land C); [done|by apply Hl; left|done]|].
    intros l' Hl'. by apply hasType_slice.
  - destruct f as [|[w|]|[l|]| | |]; try done; [|by apply lands_ok].
    apply hasType_slice in Ht.
    eapply lands_map; [apply (ptr_elems_land C); [done|by apply Hl; left|done]|].
    intros l' Hl'. by apply hasType_slice.
  - destruct f as [|[w|]|[l0|]|l| |]; try done. apply hasType_array in Ht.
    eapply lands_map; [apply (elems_land C); [done|by apply Hl; right|done]|].
    intros l' Hl'. by apply hasType_array.
  - destruct f as [|[w|]|[l0|]|l| |]; try done. apply hasType_array in Ht.
    eapply lands_map; [apply (ptr_elems_land C); [done|by apply Hl; right|done]|].
    intros l' Hl'. by apply hasType_array.
Qed.

(** One field. *)
Lemma field_lands C sf f addr :
  okField C sf → okApply C f → hasType (sf_type sf) f →
  lands addr (fieldInPlace writtenInPlace sf f) (hasType (sf_type sf))
    (if negb (sf_exported sf) then Ok f
     else f1 ← (match ParseValidateTag (sf_transform sf) with
                | [] => Ok f
                | rules => applyFieldRules addr sf f rules
                end);
          recurseIntoField applyTransformsValue addr (sf_type sf) f f1).
Proof.
  intros Hok Hf Ht. unfold fieldInPlace. destruct (sf_exported sf) eqn:He;
    cbn [negb andb]; [|by apply lands_ok].
  apply (lands_bind addr _ _ (hasType (sf_type sf)));
    [|intros f1 Hf1; by apply (recurse_lands C)].
  destruct (decide (sf_transform sf = [])) as [Hz|Hne].
  { rewrite Hz. by apply lands_ok. }
  pose proof (applyFieldRules_lands addr sf f Ht (proj1 (Hok He) Hne)) as H.
  destruct (ParseValidateTag _) as [|r rs]; [by apply lands_ok|exact H].
Qed.

Lemma applyFields_land C addr fs ds :
  Forall (okApply C) fs → Forall (okField C) ds → typedFields hasType fs ds →
  lands addr (fieldsInPlace writtenInPlace fs ds) (λ fs', typedFields hasType fs' ds)
    (applyFields applyTransformsValue addr fs ds).
Proof.
  intros HF. revert ds. induction HF as [|f fs Hf HF IHf]; intros [|sf ds] Hok Ht; try done.
  { by apply lands_ok. }
  apply Forall_cons in Hok as [Hsf Hds]. destruct Ht as [Hft Hrest].
  cbn [applyFields fieldsInPlace].
  eapply lands_bind; [by apply (field_lands C)|]. intros f2 Hf2.
  eapply lands_map; [by apply IHf|]. intros fs' Hfs'. by split.
Qed.

Lemma applyTransforms_land C v : (∀ n, n ∈ C → okStruct C n) → okApply C v.
Proof.
  intros HC. induction v as [s| |w IH| |l IH|l IH|fs IH|r] using value_ind';
    try (split; [split; [intros n addr Hn Ht; done|intros ?? [=]]|intros ? [[=]|[=]]]).
  - subst. destruct IH as [[IH _] _]. intros Hn Hw. by apply (IH n true).
  - subst. eapply Forall_impl; [exact IH|]. by intros x [].
  - subst. eapply Forall_impl; [exact IH|]. by intros x [].
  - split; [|intros ? [[=]|[=]]]. split; [|intros ?? [=]]. intros n addr Hn Ht.
    cbn [applyTransformsValue writtenInPlace]. eapply lands_map.
    + apply (applyFields_land C); [done|by apply HC|exact Ht].
    + intros fs' Hfs'. exact Hfs'.
Qed.

Lemma validate_total t : ∃ r, ValidateTransformTags t = Some r.
Proof.
  induction t as [k|n|t IH|t _|t _|k _ v _|n|ins outs va];
    cbn [ValidateTransformTags]; try by eexists.
  - destruct (validate_walk typeFuel ∅ n) as (r & -> & _).
    { unfold typeFuel. rewrite difference_empty_L, size_dom. lia. }
    destruct r; by eexists.
  - exact IH.
Qed.

(** The walk of a validated struct type. *)
Lemma apply_struct_lands n v addr :
  ValidateTransformTags (TStruct n) = Some (Ok ()) → hasType (TStruct n) v →
  lands addr (writtenInPlace n v) (hasType (TStruct n)) (applyTransformsValue addr n v).
Proof.
  intros Hv Ht. destruct (validate_walk typeFuel ∅ n) as (r & Er & Hr).
  { unfold typeFuel. rewrite difference_empty_L, size_dom. lia. }
  cbn [ValidateTransformTags] in Hv. rewrite Er in Hv. destruct r as [C|e]; [|done].
  destruct (Hr C eq_refl) as [[_ HC] Hn].
  destruct (applyTransforms_land C v) as [[Happ _] _]; [intros m Hm; by apply HC|].
  by apply Happ.
Qed.

Lemma apply_behind_sound t v :
  ValidateTransformTags t = Some (Ok ()) → hasType t v →
  ∃ v', applyBehind true t v = Ok v' ∧ hasType t v'.
Proof.
  revert v. induction t as [k|n|t IH|t _|t _|k _ w _|n|ins outs va]; intros v Hv Ht;
    try by (exists v; split; [|exact Ht]; destruct v).
  - destruct (apply_struct_lands n v true Hv Ht) as (v' & E & Hv'). exists v'.
    split; [|done]. by destruct v.
  - destruct v as [|[w|]|[l|]| | |]; try done; [|by exists (VPtr None)].
    simpl in Ht. destruct (IH w Hv Ht) as (w' & E & Hw'). exists (VPtr (Some w')).
    simpl. rewrite E. done.
Qed.

(** ** Properties *)


End Structs.

(** ** Tags round trip *)

(** A rule as it is written in a tag. *)
Definition renderRule (r : ValidateRule) : gostr :=
  match vr_param r with [] => vr_tag r | p => vr_tag r ++ 61%Z :: p end.

Definition renderTag (rs : list ValidateRule) : gostr := join 44 (renderRule <$> rs).

(** A rule that can be written: no comma, no [=] in its name, and no white space
    at either end. *)
Definition writable (r : ValidateRule) : Prop :=
  vr_tag r ≠ [] ∧ (61%Z ∉ vr_tag r) ∧ (44%Z ∉ renderRule r) ∧
  trimSpace (renderRule r) = renderRule r.

Lemma parse_render r : writable r → parseRule (renderRule r) = r.
Proof.
  destruct r as [t p]. intros (Hne & Heq & _). unfold parseRule, renderRule in *. simpl in *.
  destruct p as [|c p].
  - by rewrite (proj2 (cut_None 61 t)).
  - by rewrite cut_app.
Qed.

Lemma renderRule_ne r : writable r → renderRule r ≠ [].
Proof. destruct r as [[|c t] [|d p]]; intros [Hne _]; simpl in *; done. Qed.

(** Parsing a tag recovers the rules it was written from. *)
Theorem parse_renders rs :
  Forall writable rs → ParseValidateTag (renderTag rs) = rs.
Proof.
  intros Hrs. unfold ParseValidateTag, renderTag.
  destruct rs as [|r rs]; [done|].
  pose proof Hrs as [Hr _]%Forall_cons.
  assert (join 44 (renderRule <$> r :: rs) ≠ []) as Hne.
  { pose proof (renderRule_ne r Hr). destruct rs; simpl; [done|].
    by destruct (renderRule r). }
  destruct (join 44 (renderRule <$> r :: rs)) as [|c l] eqn:E; [done|]. rewrite <- E. clear E Hne.
  rewrite split_join; [|done|].
  2: { apply Forall_fmap. eapply Forall_impl; [exact Hrs|]. intros x (_ & _ & H & _). exact H. }
  clear Hr. induction Hrs as [|x xs Hx Hxs IH]; [done|]. cbn [fmap list_fmap].
  destruct Hx as (H1 & H2 & H3 & H4). rewrite H4. rewrite filter_cons_True.
  - cbn [fmap list_fmap]. rewrite parse_render by done. f_equal. exact IH.
  - by apply renderRule_ne.
Qed.

(** *** Concrete runs *)

#[local] Existing Instance asciiCase.

Definition exStructs : gmap string (list structField) :=
  {["Req" := [StructField "Name" (TBasic KString) true (lit "trim,lowercase");
              StructField "Tags" (TSlice (TBasic KString)) true (lit "trim,removeempty");
              StructField "Parent" (TPtr (TStruct "Req")) true []]]}.

Definition exReq : value :=
  VStruct [VString (lit " Bob "); VSlice (Some [VString (lit " a"); VString (lit "  ")]);
           VPtr (Some (VStruct [VString (lit "X"); VSlice None; VPtr None]))].

Abbreviation exDone :=
  (VStruct [VString (lit "bob"); VSlice (Some [VString (lit "a")]);
            VPtr (Some (VStruct [VString (lit "x"); VSlice None; VPtr None]))]).

Example exReq_transformed :
  ApplyTransforms exStructs (TPtr (TStruct "Req")) (VPtr (Some exReq)) = Ok (VPtr (Some exDone)).
Proof. vm_compute. reflexivity. Qed.

(** The same struct passed by value, as the comment of [ApplyTransforms] allows, makes
    it panic: [reflect.ValueOf] of a struct is not addressable (code_bug). *)
Lemma by_value_struct_panics :
  ValidateTransformTags exStructs (TStruct "Req") = Some (Ok ()) ∧
  ApplyTransforms exStructs (TStruct "Req") exReq = Err (SetPanics "Name").
Proof. split; vm_compute; reflexivity. Qed.


Lemma parse_renders_witness :
  ParseValidateTag (lit "required,gte=12") =
  [Rule (lit "required") []; Rule (lit "gte") (lit "12")].
Proof.
  apply (parse_renders [Rule (lit "required") []; Rule (lit "gte") (lit "12")]).
  repeat constructor; vm_compute; try done; set_solver.
Defined.

End Transform.
