(* ===== verification/Registry.v ===== *)
(** * Registry: handlers, groups, error codes, enums and push events (handler.go)

    Registration works on what reflect reports of the handler value: whether it
    is a pointer to a struct, the struct's name and the method signatures in
    order. A registration that panics is an [Err]; the messages are kept as
    constructors. Middleware is a parameter type. *)

From S2P Require Import Prelude Protocol Runes Transform.
From stdpp Require Import prelude gmap strings list fin_maps fin_sets pretty.
From Stdlib Require Import Ascii.
Import Protocol Runes Transform.

Module Registry.

(** ** Data *)

Inductive HandlerKind := HandlerKindUnary | HandlerKindStream | HandlerKindStream2.

#[export] Instance HandlerKind_eq_dec : EqDecision HandlerKind.
Proof. solve_decision. Defined.

Record ParamInfo := Param { pi_type : goType; pi_variadic : bool }.

Record HandlerInfo := Info {
  hi_name : string;
  hi_params : list ParamInfo;
  hi_response : goType;
  hi_structName : string;
  hi_isVoid : bool;
  hi_kind : HandlerKind;
  hi_streamKey : option goType;
}.

(** A method as reflect reports it: [m_ins] starts with the receiver. *)
Record methodSig := MethodSig {
  m_name : string;
  m_ins : list goType;
  m_outs : list goType;
  m_variadic : bool;
}.

Record handlerObj := HandlerObj {
  ho_ptrStruct : bool;
  ho_name : string;
  ho_methods : list methodSig;
}.

Record PushEventInfo := PushEvent {
  pe_name : string; pe_type : string; pe_structName : string;
}.

Record EnumInfo := Enum {
  en_name : string; en_type : string; en_isString : bool; en_values : list (gostr * gostr);
}.

Inductive regPanic :=
  | PanicNotPointerToStruct
  | PanicAlreadyRegistered (name : string)
  | PanicTransform (method : string) (e : transformError)
  | PanicDuplicateMethod (method : string)
  | PanicStreamOverREST (method : string)
  | PanicUnregistered (name : string)
  | PanicPushNotRegistered (name : string)
  | PanicEmptyEnum
  | PanicEnumClash (name : gostr).

(** ** Signatures *)

Definition isIterSeq (t : goType) : option goType :=
  match t with
  | TFunc [TFunc [e] [TBasic KBool] false] [] false => Some e
  | _ => None
  end.

Definition isIterSeq2 (t : goType) : option (goType * goType) :=
  match t with
  | TFunc [TFunc [k; v] [TBasic KBool] false] [] false => Some (k, v)
  | _ => None
  end.

(** The type behind one pointer. *)
Definition unptr (t : goType) : goType := match t with TPtr t => t | t => t end.

Definition elemOf (t : goType) : goType :=
  match t with TSlice t | TArray t | TPtr t => t | t => t end.

Definition voidResponseType : goType := TStruct "voidResponse".

Section Reflect.
  (** [reflect.Type.Implements]. *)
  Context (implementsContext implementsError : goType → bool).

(** The parameters after the receiver and the context; the last one of a variadic
    method is declared with its element type. *)
Fixpoint paramsOf (variadic : bool) (ts : list goType) : list ParamInfo :=
  match ts with
  | [] => []
  | [t] => [if variadic then Param (elemOf t) true else Param t false]
  | t :: ts => Param t false :: paramsOf variadic ts
  end.

Definition validateOutputs (m : methodSig) (structName : string) (params : list ParamInfo)
    : option HandlerInfo :=
  match m_outs m with
  | [o] =>
      if implementsError o
      then Some (Info (m_name m) params voidResponseType structName true HandlerKindUnary None)
      else None
  | [o; e] =>
      if negb (implementsError e) then None
      else match isIterSeq o with
           | Some elem =>
               Some (Info (m_name m) params (unptr elem) structName false HandlerKindStream None)
           | None =>
               match isIterSeq2 o with
               | Some (k, v) =>
                   Some (Info (m_name m) params (unptr v) structName false
                           HandlerKindStream2 (Some k))
               | None =>
                   Some (Info (m_name m) params (unptr o) structName false
                           HandlerKindUnary None)
               end
           end
  | _ => None
  end.

Definition validateMethod (m : methodSig) (structName : string) : option HandlerInfo :=
  match m_ins m with
  | _ :: ctx :: rest =>
      if negb (implementsContext ctx) then None
      else validateOutputs m structName (paramsOf (m_variadic m) rest)
  | _ => None
  end.

(** ** The registry *)

Context (structs : gmap string (list structField)) {M : Type}.

Record HandlerGroup := Group {
  gr_name : string;
  gr_handlers : gmap string HandlerInfo;
  gr_pushEvents : list PushEventInfo;
  gr_enums : list EnumInfo;
  gr_middleware : list M;
  gr_socket : bool;
}.

Record Registry := Reg {
  r_handlers : gmap string HandlerInfo;
  r_groups : gmap string HandlerGroup;
  r_pushEvents : list PushEventInfo;
  r_pushEventTypes : gmap string string;
  r_errorCodes : list (string * Z);
  r_errorMappings : list (goerr * Z);
  r_nextErrorCode : Z;
  r_sharedEnums : list EnumInfo;
  r_restGroups : gset string;
  r_mcpOnlyGroups : gset string;
}.

Definition NewRegistry : Registry := Reg ∅ ∅ [] ∅ [] [] 1000 [] ∅ ∅.

Definition withGroups hs gs (r : Registry) : Registry :=
  Reg hs gs (r_pushEvents r) (r_pushEventTypes r) (r_errorCodes r) (r_errorMappings r)
    (r_nextErrorCode r) (r_sharedEnums r) (r_restGroups r) (r_mcpOnlyGroups r).

Definition withModes rest mcp (r : Registry) : Registry :=
  Reg (r_handlers r) (r_groups r) (r_pushEvents r) (r_pushEventTypes r) (r_errorCodes r)
    (r_errorMappings r) (r_nextErrorCode r) (r_sharedEnums r) rest mcp.

Definition withCodes codes maps next (r : Registry) : Registry :=
  Reg (r_handlers r) (r_groups r) (r_pushEvents r) (r_pushEventTypes r) codes maps next
    (r_sharedEnums r) (r_restGroups r) (r_mcpOnlyGroups r).

(** [structName + "." + name]. *)
Definition wireMethod (structName name : string) : string := structName +:+ "." +:+ name.

(** The transform-tag check of one method's parameters. *)
Fixpoint checkParams (wire : string) (ps : list ParamInfo) : res regPanic unit :=
  match ps with
  | [] => Ok ()
  | p :: ps =>
      match ValidateTransformTags structs (pi_type p) with
      | Some (Err e) => Err (PanicTransform wire e)
      | _ => checkParams wire ps
      end
  end.

(** The loop of [register] over the methods: the dispatch map and the group's. *)
Fixpoint registerMethods (structName : string) (addToWSDispatch : bool) (ms : list methodSig)
    (hs gh : gmap string HandlerInfo)
    : res regPanic (gmap string HandlerInfo * gmap string HandlerInfo) :=
  match ms with
  | [] => Ok (hs, gh)
  | m :: ms =>
      match validateMethod m structName with
      | None => registerMethods structName addToWSDispatch ms hs gh
      | Some info =>
          let wire := wireMethod structName (hi_name info) in
          match checkParams wire (hi_params info) with
          | Err e => Err e
          | Ok _ =>
              if addToWSDispatch && bool_decide (is_Some (hs !! wire))
              then Err (PanicDuplicateMethod wire)
              else registerMethods structName addToWSDispatch ms
                     (if addToWSDispatch then <[wire := info]> hs else hs)
                     (<[hi_name info := info]> gh)
          end
      end
  end.

Definition register (r : Registry) (h : handlerObj) (addToWSDispatch : bool) (mw : list M)
    : res regPanic Registry :=
  if negb (ho_ptrStruct h) then Err PanicNotPointerToStruct
  else if bool_decide (is_Some (r_groups r !! ho_name h))
  then Err (PanicAlreadyRegistered (ho_name h))
  else
    match registerMethods (ho_name h) addToWSDispatch (ho_methods h) (r_handlers r) ∅ with
    | Err e => Err e
    | Ok (hs, gh) =>
        Ok (withGroups hs
              (<[ho_name h := Group (ho_name h) gh [] [] mw addToWSDispatch]> (r_groups r)) r)
    end.

Definition assertNoStreamHandlers (r : Registry) (name : string) : res regPanic unit :=
  match r_groups r !! name with
  | None => Ok ()
  | Some g =>
      match filter (λ ni, hi_kind ni.2 ≠ HandlerKindUnary) (map_to_list (gr_handlers g)) with
      | [] => Ok ()
      | (n, _) :: _ => Err (PanicStreamOverREST (wireMethod name n))
      end
  end.

Definition Register (r : Registry) (h : handlerObj) (mw : list M) : res regPanic Registry :=
  register r h true mw.

Definition RegisterREST (r : Registry) (h : handlerObj) (mw : list M) : res regPanic Registry :=
  r1 ← register r h false mw;
  _ ← assertNoStreamHandlers r1 (ho_name h);
  Ok (withModes ({[ho_name h]} ∪ r_restGroups r1) (r_mcpOnlyGroups r1) r1).

Definition RegisterMCP (r : Registry) (h : handlerObj) (mw : list M) : res regPanic Registry :=
  r1 ← register r h false mw;
  _ ← assertNoStreamHandlers r1 (ho_name h);
  Ok (withModes (r_restGroups r1) ({[ho_name h]} ∪ r_mcpOnlyGroups r1) r1).

Definition EnableREST (r : Registry) (h : handlerObj) : res regPanic Registry :=
  match r_groups r !! ho_name h with
  | None => Err (PanicUnregistered (ho_name h))
  | Some _ =>
      _ ← assertNoStreamHandlers r (ho_name h);
      Ok (withModes ({[ho_name h]} ∪ r_restGroups r) (r_mcpOnlyGroups r) r)
  end.

(** ** Lookups *)

Definition Get (r : Registry) (method : string) : option HandlerInfo := r_handlers r !! method.

(** [strings.Cut(method, ".")]. *)
Fixpoint cutDot (s : string) : option (string * string) :=
  match s with
  | EmptyString => None
  | String a s =>
      if bool_decide (a = "."%char) then Some (EmptyString, s)
      else match cutDot s with
           | Some (x, y) => Some (String a x, y)
           | None => None
           end
  end.

Definition lookupMethod (r : Registry) (method : string) : option HandlerInfo :=
  match r_handlers r !! method with
  | Some info => Some info
  | None =>
      match cutDot method with
      | None => None
      | Some (structName, methodName) =>
          match r_groups r !! structName with
          | None => None
          | Some g => gr_handlers g !! methodName
          end
      end
  end.

Definition GroupMiddleware (r : Registry) (groupName : string) : list M :=
  match r_groups r !! groupName with None => [] | Some g => gr_middleware g end.

Definition GetMiddleware (r : Registry) (method : string) : list M :=
  match lookupMethod r method with
  | None => []
  | Some info => GroupMiddleware r (hi_structName info)
  end.

(** ** Error codes *)

Definition RegisterError (r : Registry) (e : goerr) (name : string) : Registry :=
  let code := r_nextErrorCode r in
  withCodes (r_errorCodes r ++ [(name, code)]) (r_errorMappings r ++ [(e, code)]) (code + 1) r.

Definition RegisterErrorCode (r : Registry) (name : string) : Registry * Z :=
  let code := r_nextErrorCode r in
  (withCodes (r_errorCodes r ++ [(name, code)]) (r_errorMappings r) (code + 1) r, code).

(** ** Push events *)

(** [RegisterPushEventFor]: the event is named after the type. *)
Definition RegisterPushEventFor (r : Registry) (structName typeId typeName : string)
    : res regPanic Registry :=
  match r_groups r !! structName with
  | None => Err (PanicUnregistered structName)
  | Some g =>
      let ev := PushEvent typeName typeId structName in
      Ok (Reg (r_handlers r)
            (<[structName := Group (gr_name g) (gr_handlers g) (gr_pushEvents g ++ [ev])
                               (gr_enums g) (gr_middleware g) (gr_socket g)]> (r_groups r))
            (r_pushEvents r ++ [ev]) (<[typeId := typeName]> (r_pushEventTypes r))
            (r_errorCodes r) (r_errorMappings r) (r_nextErrorCode r) (r_sharedEnums r)
            (r_restGroups r) (r_mcpOnlyGroups r))
  end.

Definition eventName (r : Registry) (typeId : string) : res regPanic string :=
  match r_pushEventTypes r !! typeId with
  | None => Err (PanicPushNotRegistered typeId)
  | Some name => Ok name
  end.

(** ** Enums *)

(** An element of the slice: its value as text and the name its methods give it
    ([EnumMemberName] for a string enum, [String] for an integer enum). *)
Record enumElem := EnumElem { ee_value : gostr; ee_named : option gostr }.

Context {RC : RuneCase}.

Definition capitalize (s : gostr) : gostr :=
  match s with [] => [] | r :: s => toUpper r :: s end.

(** [fmt.Sprintf("Value%d", i)]. *)
Definition valueN (i : nat) : gostr := lit ("Value" +:+ pretty i).

Fixpoint enumValues (isString : bool) (i : nat) (seen : gset gostr) (es : list enumElem)
    : res regPanic (list (gostr * gostr)) :=
  match es with
  | [] => Ok []
  | e :: es =>
      let name := match ee_named e with
                  | Some n => n
                  | None => if isString then capitalize (ee_value e) else valueN i
                  end in
      if decide (name ∈ seen) then Err (PanicEnumClash name)
      else
        match enumValues isString (S i) ({[name]} ∪ seen) es with
        | Err e => Err e
        | Ok vs => Ok ((name, ee_value e) :: vs)
        end
  end.

Definition buildEnumInfo (name typeId : string) (isString : bool) (es : list enumElem)
    : res regPanic EnumInfo :=
  match es with
  | [] => Err PanicEmptyEnum
  | _ =>
      match enumValues isString 0 ∅ es with
      | Err e => Err e
      | Ok vs => Ok (Enum name typeId isString vs)
      end
  end.

Definition RegisterEnum (r : Registry) (name typeId : string) (isString : bool)
    (es : list enumElem) : res regPanic Registry :=
  info ← buildEnumInfo name typeId isString es;
  Ok (Reg (r_handlers r) (r_groups r) (r_pushEvents r) (r_pushEventTypes r) (r_errorCodes r)
        (r_errorMappings r) (r_nextErrorCode r) (r_sharedEnums r ++ [info])
        (r_restGroups r) (r_mcpOnlyGroups r)).

Definition RegisterEnumFor (r : Registry) (structName name typeId : string) (isString : bool)
    (es : list enumElem) : res regPanic Registry :=
  match r_groups r !! structName with
  | None => Err (PanicUnregistered structName)
  | Some g =>
      info ← buildEnumInfo name typeId isString es;
      Ok (withGroups (r_handlers r)
            (<[structName := Group (gr_name g) (gr_handlers g) (gr_pushEvents g)
                (gr_enums g ++ [info]) (gr_middleware g) (gr_socket g)]> (r_groups r)) r)
  end.

End Reflect.

(** ** Invariant of registration *)

Fixpoint dotFree (s : string) : bool :=
  match s with
  | EmptyString => true
  | String a s => negb (bool_decide (a = "."%char)) && dotFree s
  end.

Lemma cutDot_dotFree a b : dotFree a = true → cutDot (a +:+ "." +:+ b) = Some (a, b).
Proof.
  induction a as [|c a IH]; [done|]. intros H. simpl in H.
  change (cutDot (String c (a +:+ "." +:+ b)) = Some (String c a, b)). simpl.
  case_bool_decide; [done|]. by rewrite IH.
Qed.

Lemma wireMethod_inj g n g' n' :
  dotFree n = true → dotFree n' = true → wireMethod g n = wireMethod g' n' → g = g' ∧ n = n'.
Proof.
  assert (∀ n s, dotFree n = true → n ≠ s +:+ "." +:+ n') as Hno.
  { intros m. induction m as [|c m IH]; intros [|d s] Hm E; simpl in Hm; try done;
      injection E as -> E.
    - done.
    - apply andb_true_iff in Hm as [_ Hm]. by eapply IH. }
  assert (∀ n' s, dotFree n' = true → n' ≠ s +:+ "." +:+ n) as Hno'.
  { intros m. induction m as [|c m IH]; intros [|d s] Hm E; simpl in Hm; try done;
      injection E as -> E.
    - done.
    - apply andb_true_iff in Hm as [_ Hm]. by eapply IH. }
  intros Hn Hn'. unfold wireMethod. revert g'. induction g as [|c g IH]; intros [|c' g'] E.
  - injection E as E. done.
  - injection E as <- E. exfalso. exact (Hno n g' Hn E).
  - injection E as -> E. exfalso. symmetry in E. exact (Hno' n' g Hn' E).
  - injection E as -> E. destruct (IH g' E) as [-> ->]. done.
Qed.

Section Invariant.
  Context (implementsContext implementsError : goType → bool).
  Context (structs : gmap string (list structField)) {M : Type}.

(** What Go guarantees of a type's methods: identifiers have no dot. *)
Definition goMethods (h : handlerObj) : Prop := Forall (λ m, dotFree (m_name m) = true) (ho_methods h).

Record regInv (r : @Registry M) : Prop := {
  ri_group g grp : r_groups r !! g = Some grp → gr_name grp = g;
  ri_info g grp n info : r_groups r !! g = Some grp → gr_handlers grp !! n = Some info →
    hi_name info = n ∧ hi_structName info = g ∧ dotFree n = true ∧
    (gr_socket grp = true → r_handlers r !! wireMethod g n = Some info);
  ri_handler w info : r_handlers r !! w = Some info →
    ∃ grp, r_groups r !! hi_structName info = Some grp ∧ gr_socket grp = true ∧
      gr_handlers grp !! hi_name info = Some info ∧ w = wireMethod (hi_structName info) (hi_name info);
}.

Lemma validateMethod_name m sn info :
  validateMethod implementsContext implementsError m sn = Some info →
  hi_name info = m_name m ∧ hi_structName info = sn.
Proof.
  unfold validateMethod, validateOutputs. intros H.
  destruct (m_ins m) as [|? [|ctx rest]]; try done. destruct (negb _); [done|].
  destruct (m_outs m) as [|o [|e [|]]]; try done; [by destruct (implementsError o); simplify_eq|].
  destruct (negb _); [done|]. destruct (isIterSeq o); [by simplify_eq|].
  destruct (isIterSeq2 o) as [[]|]; by simplify_eq.
Qed.

(** In socket mode the group's map is part of the dispatch map. *)
Definition inSync (sn : string) (ws : bool) (hs gh : gmap string HandlerInfo) : Prop :=
  ws = true → ∀ n info, gh !! n = Some info → hs !! wireMethod sn n = Some info.

(** The loop over the methods: the group map gets the infos of this struct, the
    dispatch map gets them too in socket mode and only them. *)
Lemma registerMethods_spec sn ws ms hs gh hs' gh' :
  Forall (λ m, dotFree (m_name m) = true) ms → inSync sn ws hs gh →
  registerMethods implementsContext implementsError structs sn ws ms hs gh = Ok (hs', gh') →
  (∀ n info, gh' !! n = Some info → gh !! n = Some info ∨
     (hi_name info = n ∧ hi_structName info = sn ∧ dotFree n = true)) ∧
  (∀ w info, hs !! w = Some info → hs' !! w = Some info) ∧
  (∀ w info, hs' !! w = Some info → hs !! w = Some info ∨
     (ws = true ∧ w = wireMethod sn (hi_name info) ∧ gh' !! hi_name info = Some info ∧
      hi_structName info = sn)) ∧
  inSync sn ws hs' gh' ∧
  (ws = true → ∀ n info, gh !! n = Some info → gh' !! n = Some info).
Proof.
  intros Hd. revert hs gh. induction Hd as [|m ms Hm Hms IH]; intros hs gh Hsync; simpl.
  { intros [= <- <-]. split_and!; eauto. }
  destruct (validateMethod _ _ m sn) as [info|] eqn:Ev; [|by apply IH].
  destruct (validateMethod_name _ _ _ Ev) as [Hn Hs].
  destruct (checkParams _ _ _) as [[]|]; [|done].
  destruct (ws && bool_decide (is_Some (hs !! wireMethod sn (hi_name info)))) eqn:Edup; [done|].
  assert (ws = true → hs !! wireMethod sn (hi_name info) = None) as Hfresh.
  { intros ->. simpl in Edup. rewrite bool_decide_eq_false in Edup. by apply eq_None_not_Some. }
  assert (inSync sn ws (if ws then <[wireMethod sn (hi_name info) := info]> hs else hs)
            (<[hi_name info := info]> gh)) as Hsync'.
  { intros -> n i. rewrite lookup_insert_Some. intros [[<- <-]|[Hne Hi]].
    - by rewrite lookup_insert_eq.
    - apply Hsync in Hi; [|done]. rewrite lookup_insert_ne; [done|]. intros E.
      rewrite <- E in Hi. rewrite Hfresh in Hi; done. }
  intros H. destruct (IH _ _ Hsync' H) as (I1 & I2 & I3 & I4 & I5). clear IH H.
  split_and!; [..|exact I4|].
  - intros n i Hi. destruct (I1 n i Hi) as [Hl|]; [|by right].
    apply lookup_insert_Some in Hl as [[<- <-]|[_ Hl]]; [|by left]. right.
    split_and!; [done|done|]. by rewrite Hn.
  - intros w i Hi. apply I2. destruct ws; [|done]. rewrite lookup_insert_ne; [done|].
    intros <-. rewrite Hfresh in Hi; done.
  - intros w i Hi. destruct (I3 w i Hi) as [Hl|]; [|by right].
    destruct ws; [|by left]. apply lookup_insert_Some in Hl as [[<- <-]|[_ Hl]]; [|by left].
    right. split_and!; [done|done| |done]. apply I5; [done|]. by rewrite lookup_insert_eq.
  - intros Hws n i Hi. apply I5; [done|]. destruct (decide (n = hi_name info)) as [->|Hne].
    + apply Hsync in Hi; [|done]. rewrite Hfresh in Hi; done.
    + by rewrite lookup_insert_ne.
Qed.

Lemma regInv_new : regInv NewRegistry.
Proof. split; simpl; intros *; by rewrite lookup_empty. Qed.

Lemma register_inv r h ws mw r' :
  regInv r → goMethods h →
  register implementsContext implementsError structs r h ws mw = Ok r' →
  regInv r' ∧ (∃ gh, r_groups r' = <[ho_name h := Group (ho_name h) gh [] [] mw ws]> (r_groups r))
  ∧ r_groups r !! ho_name h = None.
Proof.
  intros Hi Hg. unfold register. destruct (negb _); [done|].
  case_bool_decide as Hex; [done|].
  assert (r_groups r !! ho_name h = None) as Hnone by (by apply eq_None_not_Some).
  destruct (registerMethods _ _ _ _ _ _ _ _) as [[hs gh]|] eqn:E; [|done]. intros [= <-].
  destruct (registerMethods_spec _ _ _ _ _ _ _ Hg (λ _ n i H, ltac:(by rewrite lookup_empty in H)) E)
    as (I1 & I2 & I3 & I4 & _).
  split; [|split; [by eexists|done]].
  split; cbn [r_groups r_handlers withGroups].
  - intros g grp. rewrite lookup_insert_Some. intros [[<- <-]|[_ H]]; [done|]. by apply Hi in H.
  - intros g grp n info. rewrite lookup_insert_Some. intros [[<- <-]|[Hne H]] Hin.
    + simpl in Hin. destruct (I1 n info Hin) as [Hl|(? & ? & ?)]; [by rewrite lookup_empty in Hl|].
      split_and!; [done..|]. simpl. intros Hws. by apply I4.
    + destruct (ri_info _ Hi _ _ _ _ H Hin) as (? & ? & ? & Hsock). split_and!; [done..|].
      intros Hs. by apply I2, Hsock.
  - intros w info Hw. destruct (I3 w info Hw) as [Hl|(-> & -> & Hin & Hs)].
    + destruct (ri_handler _ Hi _ _ Hl) as (grp & Hgrp & ?). exists grp.
      rewrite lookup_insert_ne; [done|]. intros E'. rewrite E' in Hnone. congruence.
    + rewrite Hs. exists (Group (ho_name h) gh [] [] mw true). by rewrite lookup_insert_eq.
Qed.

(** The registries a program can build. *)
Context {RC : RuneCase}.

Inductive built : @Registry M → Prop :=
  | built_new : built NewRegistry
  | built_register r h mw r' : built r → goMethods h →
      Register implementsContext implementsError structs r h mw = Ok r' → built r'
  | built_rest r h mw r' : built r → goMethods h →
      RegisterREST implementsContext implementsError structs r h mw = Ok r' → built r'
  | built_mcp r h mw r' : built r → goMethods h →
      RegisterMCP implementsContext implementsError structs r h mw = Ok r' → built r'
  | built_enable r h r' : built r → EnableREST r h = Ok r' → built r'
  | built_error r e name : built r → built (RegisterError r e name)
  | built_code r name : built r → built (RegisterErrorCode r name).1
  | built_push r sn t n r' : built r → RegisterPushEventFor r sn t n = Ok r' → built r'
  | built_enum r n t b es r' : built r → RegisterEnum r n t b es = Ok r' → built r'
  | built_enum_for r sn n t b es r' : built r → RegisterEnumFor r sn n t b es = Ok r' → built r'.

(** Invariants that only look at the two method maps. *)
Lemma regInv_same r r' :
  r_handlers r' = r_handlers r → r_groups r' = r_groups r → regInv r → regInv r'.
Proof. intros H1 H2 []. split; rewrite ?H1, ?H2; done. Qed.

(** Replacing a group by one with the same methods. *)
Lemma regInv_regroup r r' sn g g' :
  r_handlers r' = r_handlers r → r_groups r' = <[sn := g']> (r_groups r) →
  r_groups r !! sn = Some g → gr_name g' = gr_name g → gr_handlers g' = gr_handlers g →
  gr_socket g' = gr_socket g → regInv r → regInv r'.
Proof.
  intros H1 H2 Hg Hn Hh Hs Hi. split; rewrite ?H1, ?H2.
  - intros k grp. rewrite lookup_insert_Some. intros [[<- <-]|[_ H]]; [|by apply Hi in H].
    rewrite Hn. by apply (ri_group _ Hi).
  - intros k grp n info. rewrite lookup_insert_Some. intros [[<- <-]|[_ H]].
    + rewrite Hh, Hs. by apply (ri_info _ Hi).
    + by apply (ri_info _ Hi).
  - intros w info Hw. destruct (ri_handler _ Hi _ _ Hw) as (grp & Hgrp & ? & ? & ?).
    destruct (decide (hi_structName info = sn)) as [E|Hne].
    + exists g'. rewrite E in Hgrp |- *. rewrite lookup_insert_eq. simplify_eq.
      by rewrite Hs, Hh.
    + exists grp. by rewrite lookup_insert_ne.
Qed.

Lemma built_inv r : built r → regInv r.
Proof.
  induction 1 as [|r h mw r' _ IH Hg E|r h mw r' _ IH Hg E|r h mw r' _ IH Hg E|r h r' _ IH E
    |r e n _ IH|r n _ IH|r sn t n r' _ IH E|r n t b es r' _ IH E|r sn n t b es r' _ IH E].
  - apply regInv_new.
  - by eapply register_inv.
  - apply bind_Ok in E as (r1 & E1 & E). apply bind_Ok in E as ([] & _ & [= <-]).
    eapply (regInv_same r1); [done|done|]. by eapply register_inv.
  - apply bind_Ok in E as (r1 & E1 & E). apply bind_Ok in E as ([] & _ & [= <-]).
    eapply (regInv_same r1); [done|done|]. by eapply register_inv.
  - unfold EnableREST in E. destruct (r_groups r !! _); [|done].
    apply bind_Ok in E as ([] & _ & [= <-]). by apply (regInv_same r).
  - by apply (regInv_same r).
  - by apply (regInv_same r).
  - unfold RegisterPushEventFor in E. destruct (r_groups r !! sn) as [g|] eqn:Eg; [|done].
    injection E as <-. by eapply (regInv_regroup r _ sn g).
  - apply bind_Ok in E as (i & _ & [= <-]). by apply (regInv_same r).
  - unfold RegisterEnumFor in E. destruct (r_groups r !! sn) as [g|] eqn:Eg; [|done].
    apply bind_Ok in E as (i & _ & [= <-]). by eapply (regInv_regroup r _ sn g).
Qed.

(** *** Error codes *)

Record codeInv (r : @Registry M) : Prop := {
  ci_range : Forall (λ nc, 1000 ≤ nc.2 < r_nextErrorCode r)%Z (r_errorCodes r);
  ci_NoDup : NoDup (r_errorCodes r).*2;
  ci_maps : Forall (λ ec, ec.2 ∈ (r_errorCodes r).*2) (r_errorMappings r);
  ci_next : (1000 ≤ r_nextErrorCode r)%Z;
}.

Lemma codeInv_same r r' :
  r_errorCodes r' = r_errorCodes r → r_errorMappings r' = r_errorMappings r →
  r_nextErrorCode r' = r_nextErrorCode r → codeInv r → codeInv r'.
Proof. intros H1 H2 H3 []. split; rewrite ?H1, ?H2, ?H3; done. Qed.

Lemma codeInv_add r name ms :
  codeInv r → Forall (λ ec, ec.2 = r_nextErrorCode r) ms →
  codeInv (withCodes (r_errorCodes r ++ [(name, r_nextErrorCode r)]) (r_errorMappings r ++ ms)
             (r_nextErrorCode r + 1) r).
Proof.
  intros [H1 H2 H3 H4] Hms. split; cbn [r_errorCodes r_errorMappings r_nextErrorCode withCodes].
  - apply Forall_app. split.
    + eapply Forall_impl; [exact H1|]. simpl. lia.
    + apply Forall_singleton. simpl. lia.
  - rewrite fmap_app. apply NoDup_app. split_and!; [done| |apply NoDup_singleton].
    intros c Hc Hc'%list_elem_of_singleton. apply list_elem_of_fmap in Hc as (nc & Hnc & Hc).
    rewrite Forall_forall in H1. specialize (H1 _ Hc). simpl in *. lia.
  - rewrite fmap_app. apply Forall_app. split.
    + eapply Forall_impl; [exact H3|]. simpl. set_solver.
    + eapply Forall_impl; [exact Hms|]. simpl. intros ec Hec. rewrite Hec. set_solver.
  - lia.
Qed.

Lemma register_codes r h ws mw r' :
  register implementsContext implementsError structs r h ws mw = Ok r' → codeInv r → codeInv r'.
Proof.
  unfold register. destruct (negb _); [done|]. case_bool_decide; [done|].
  destruct (registerMethods _ _ _ _ _ _ _ _) as [[hs gh]|]; [|done]. intros [= <-].
  by apply codeInv_same.
Qed.

Lemma built_codes r : built r → codeInv r.
Proof.
  induction 1 as [|r h mw r' _ IH Hg E|r h mw r' _ IH Hg E|r h mw r' _ IH Hg E|r h r' _ IH E
    |r e n _ IH|r n _ IH|r sn t n r' _ IH E|r n t b es r' _ IH E|r sn n t b es r' _ IH E].
  - split; simpl; [constructor|constructor|constructor|lia].
  - by eapply register_codes.
  - apply bind_Ok in E as (r1 & E1 & E). apply bind_Ok in E as ([] & _ & [= <-]).
    eapply (codeInv_same r1); [done..|]. by eapply register_codes.
  - apply bind_Ok in E as (r1 & E1 & E). apply bind_Ok in E as ([] & _ & [= <-]).
    eapply (codeInv_same r1); [done..|]. by eapply register_codes.
  - unfold EnableREST in E. destruct (r_groups r !! _); [|done].
    apply bind_Ok in E as ([] & _ & [= <-]). by apply (codeInv_same r).
  - apply codeInv_add; [done|]. by apply Forall_singleton.
  - simpl. rewrite <- (app_nil_r (r_errorMappings r)). by apply codeInv_add.
  - unfold RegisterPushEventFor in E. destruct (r_groups r !! sn); [|done].
    injection E as <-. by apply (codeInv_same r).
  - apply bind_Ok in E as (i & _ & [= <-]). by apply (codeInv_same r).
  - unfold RegisterEnumFor in E. destruct (r_groups r !! sn); [|done].
    apply bind_Ok in E as (i & _ & [= <-]). by apply (codeInv_same r).
Qed.

Lemma LookupError_app ms ms' e :
  LookupError (ms ++ ms') e =
  match LookupError ms e with Some c => Some c | None => LookupError ms' e end.
Proof. induction ms as [|[t c] ms IH]; simpl; [done|]. by destruct (errorsIs e t). Qed.

(** ** Properties *)

(** Every registered method is found with its group's middleware. In any registry
    the registration calls can build, a method of a group registered for the sockets,
    or of any group whose type name has no dot, is resolved under
    "Group.Method" to its own handler and to exactly the middleware its group was
    registered with; the socket dispatch finds it only if the group was registered
    for the sockets. *)
Theorem middleware_found r g grp n info :
  built r → r_groups r !! g = Some grp → gr_handlers grp !! n = Some info →
  gr_socket grp = true ∨ dotFree g = true →
  lookupMethod r (wireMethod g n) = Some info ∧
  GetMiddleware r (wireMethod g n) = gr_middleware grp ∧
  (Get r (wireMethod g n) = Some info ↔ gr_socket grp = true).
Proof.
  intros Hb Hg Hn Hor. pose proof (built_inv r Hb) as Hi.
  destruct (ri_info _ Hi _ _ _ _ Hg Hn) as (Hin & His & Hd & Hsock).
  assert (gr_socket grp = true ∨ Get r (wireMethod g n) = None) as Hget.
  { unfold Get. destruct (r_handlers r !! wireMethod g n) as [info'|] eqn:E; [|by right]. left.
    destruct (ri_handler _ Hi _ _ E) as (grp' & Hg' & Hs' & Hh' & Hw).
    destruct (ri_info _ Hi _ _ _ _ Hg' Hh') as (_ & _ & Hd' & _).
    apply wireMethod_inj in Hw as [-> ->]; [|done|done]. by simplify_eq. }
  assert (lookupMethod r (wireMethod g n) = Some info) as Hl.
  { unfold lookupMethod. destruct Hget as [Hs|Hnone].
    - by rewrite Hsock.
    - unfold Get in Hnone. rewrite Hnone. destruct Hor as [Hs|Hdot].
      { rewrite Hsock in Hnone; done. }
      unfold wireMethod. by rewrite cutDot_dotFree, Hg. }
  split_and!; [done| |].
  - unfold GetMiddleware, GroupMiddleware. by rewrite Hl, His, Hg.
  - split; [|apply Hsock]. intros E. destruct Hget as [|Hnone]; [done|]. congruence.
Qed.

(** Error codes are never ambiguous. In any registry the registration calls can
    build, the custom codes are pairwise distinct, at least 1000 and so none of the
    standard codes, every error mapping uses one of them, and registering an error
    makes it (and anything that unwraps to it) found: under an earlier registration it
    already matched, or under its new code. *)
Theorem error_codes_unique r e name :
  built r →
  NoDup (r_errorCodes r).*2 ∧
  (∀ c, c ∈ (r_errorCodes r).*2 → (1000 ≤ c)%Z ∧ c ∉ standardCodes) ∧
  (∀ t c, (t, c) ∈ r_errorMappings r → c ∈ (r_errorCodes r).*2) ∧
  LookupError (r_errorMappings (RegisterError r e name)) e =
    Some (default (r_nextErrorCode r) (LookupError (r_errorMappings r) e)).
Proof.
  intros Hb%built_codes. destruct Hb as [H1 H2 H3 H4]. split_and!; [done|..].
  - intros c Hc. apply list_elem_of_fmap in Hc as ([n c'] & -> & Hc).
    rewrite Forall_forall in H1. specialize (H1 _ Hc). simpl in *. split; [lia|].
    unfold standardCodes. unfold CodeParseError, CodeInvalidRequest, CodeMethodNotFound,
      CodeInvalidParams, CodeInternalError, CodeValidationFailed, CodeCanceled,
      CodeUnauthorized, CodeConnectionRejected, CodeForbidden, CodeTooManyRequests,
      CodeAuthFailed. rewrite !not_elem_of_cons. split_and!; try lia. apply not_elem_of_nil.
  - intros t c Hc. rewrite Forall_forall in H3. apply (H3 (t, c) Hc).
  - simpl. rewrite LookupError_app. destruct (LookupError _ e); simpl; [done|].
    by rewrite errorsIs_refl.
Qed.

(** A group outside the socket dispatch whose type name contains a dot (a generic
    struct instantiated with a type of another package is named
    "Repo[example.com/app.User]") loses its middleware: the lookup cuts the wire
    method at the first dot, finds no such group, and every call through the server's
    pipeline runs without the middleware the group was registered with. *)
Theorem dotted_group_loses_middleware r g grp n info a b :
  built r → r_groups r !! g = Some grp → gr_handlers grp !! n = Some info →
  gr_socket grp = false → cutDot g = Some (a, b) → r_groups r !! a = None →
  GetMiddleware r (wireMethod g n) = [] ∧ GroupMiddleware r g = gr_middleware grp.
Proof.
  intros Hb Hg Hn Hs Hcut Ha. pose proof (built_inv r Hb) as Hi.
  destruct (ri_info _ Hi _ _ _ _ Hg Hn) as (Hin & His & Hd & _).
  split; [|unfold GroupMiddleware; by rewrite Hg].
  assert (r_handlers r !! wireMethod g n = None) as Hnone.
  { destruct (r_handlers r !! wireMethod g n) as [info'|] eqn:E; [|done].
    destruct (ri_handler _ Hi _ _ E) as (grp' & Hg' & Hs' & Hh' & Hw).
    destruct (ri_info _ Hi _ _ _ _ Hg' Hh') as (_ & _ & Hd' & _).
    apply wireMethod_inj in Hw as [-> ->]; [|done|done]. congruence. }
  assert (∀ g a b s, cutDot g = Some (a, b) → ∃ b', cutDot (g +:+ s) = Some (a, b')) as Hpre.
  { clear. intros g. induction g as [|c g IH]; intros a b s; [done|].
    change (cutDot (String c g +:+ s)) with (cutDot (String c (g +:+ s))). simpl.
    case_bool_decide; [intros [= <- <-]; eauto|].
    destruct (cutDot g) as [[x y]|] eqn:E; [|done]. intros [= <- <-].
    destruct (IH x y s eq_refl) as [b' ->]. eauto. }
  destruct (Hpre g a b ("." +:+ n) Hcut) as [b' Hc].
  unfold GetMiddleware, lookupMethod. rewrite Hnone. unfold wireMethod. by rewrite Hc, Ha.
Qed.

End Invariant.

(** *** Concrete runs *)

#[local] Existing Instance asciiCase.

Definition exContext (t : goType) : bool :=
  match t with TIface n => bool_decide (n = "Context") | _ => false end.

Definition exError (t : goType) : bool :=
  match t with TIface n => bool_decide (n = "error") | _ => false end.

Definition exHandler (name : string) : handlerObj :=
  HandlerObj true name
    [MethodSig "List" [TPtr (TStruct name); TIface "Context"; TBasic KString]
       [TSlice (TBasic KString); TIface "error"] false].

Definition exInfo (name : string) : HandlerInfo :=
  Info "List" [Param (TBasic KString) false] (TSlice (TBasic KString)) name false
    HandlerKindUnary None.

(** One group with one middleware, for the sockets or for REST only. *)
Definition exRegistry (name : string) (ws : bool) : @Registry string :=
  match (if ws then Register exContext exError ∅ NewRegistry (exHandler name) ["auth"]
         else RegisterREST exContext exError ∅ NewRegistry (exHandler name) ["auth"]) with
  | Ok r => r
  | Err _ => NewRegistry
  end.

Definition exGroup (name : string) (ws : bool) : @HandlerGroup string :=
  Group name {["List" := exInfo name]} [] [] ["auth"] ws.

Lemma middleware_found_witness :
  GetMiddleware (exRegistry "Users" true) "Users.List" = ["auth"].
Proof.
  refine (proj1 (proj2 (middleware_found exContext exError ∅ (exRegistry "Users" true)
    "Users" (exGroup "Users" true) "List" (exInfo "Users") _ _ _ (or_introl eq_refl)))).
  - eapply (built_register _ _ _ NewRegistry (exHandler "Users") ["auth"]);
      [constructor|by repeat constructor|reflexivity].
  - reflexivity.
  - reflexivity.
Defined.

Lemma error_codes_unique_witness :
  LookupError (r_errorMappings (RegisterError (M := string) NewRegistry (EOther 1 "EOF" []) "EndOfFile"))
    (EOther 1 "EOF" []) = Some 1000%Z.
Proof.
  exact (proj2 (proj2 (proj2 (error_codes_unique exContext exError ∅ NewRegistry
    (EOther 1 "EOF" []) "EndOfFile" (built_new _ _ _))))).
Defined.

Lemma dotted_group_loses_middleware_witness :
  GetMiddleware (exRegistry "Repo[app.User]" false) "Repo[app.User].List" = [] ∧
  GroupMiddleware (exRegistry "Repo[app.User]" false) "Repo[app.User]" = ["auth"].
Proof.
  refine (dotted_group_loses_middleware exContext exError ∅ (exRegistry "Repo[app.User]" false)
    "Repo[app.User]" (exGroup "Repo[app.User]" false) "List" (exInfo "Repo[app.User]")
    "Repo[app" "User]" _ _ _ eq_refl eq_refl _).
  - eapply (built_rest _ _ _ NewRegistry (exHandler "Repo[app.User]") ["auth"]);
      [constructor|by repeat constructor|reflexivity].
  - reflexivity.
  - reflexivity.
  - reflexivity.
Defined.

End Registry.
