(* ===== verification/Subscriptions.v ===== *)
(** * Subscriptions: the server's subscription index (subscription.go)

    [Module SubscriptionManager] models [subscriptionManager]: two indexes over
    heap-allocated [*subscription] objects, one by trigger key and one by
    connection. Every operation is the code's method, run as one atomic section
    (the methods hold [sm.mu] throughout). [Module SubscriptionSpec] is the
    abstract contract, a finite map from (connection, subscription id) to
    subscriptions, and the lemmas named [abs_*] are the refinement. *)

From S2P Require Import Prelude.
From stdpp Require Import prelude gmap strings list fin_maps fin_sets.

Module SubscriptionManager.

(** ** Data *)

(** [subscription]. The [conn] pointer is represented by the connection's id,
    which [Server.nextConnID] makes unique; raw JSON params are opaque text. *)
Record subscription := Subscription {
  sub_conn : Z;
  sub_id : string;
  sub_method : string;
  sub_keys : gset string;
  sub_params : string;
  sub_wantsPatch : bool;
}.

#[export] Instance subscription_eq_dec : EqDecision subscription.
Proof. solve_decision. Defined.

(** A [*subscription]: the address of the object. *)
Abbreviation ref := nat (only parsing).

Record subscriptionManager := SubscriptionManager {
  sm_heap : gmap ref subscription;
  sm_byKey : gmap string (gset ref);
  sm_byConn : gmap Z (gmap string ref);
}.

(** What [register] reads of the subscription's connection: [isClosed()], and
    [server.options.MaxSubscriptions] ([None] for a connection without server). *)
Record connView := ConnView { cv_closed : bool; cv_max : option Z }.

(** ** Operations *)

Definition newSubscriptionManager : subscriptionManager :=
  SubscriptionManager ∅ ∅ ∅.

Definition withKeys (ks : gset string) (s : subscription) : subscription :=
  Subscription (sub_conn s) (sub_id s) (sub_method s) ks (sub_params s) (sub_wantsPatch s).

Definition withParams (p : string) (w : bool) (s : subscription) : subscription :=
  Subscription (sub_conn s) (sub_id s) (sub_method s) (sub_keys s) p w.

Definition connSubs (sm : subscriptionManager) (c : Z) : gmap string ref :=
  default ∅ (sm_byConn sm !! c).

(** The per-connection cap check of [register]. *)
Definition overLimit (sm : subscriptionManager) (cv : connView) (s : subscription) : bool :=
  match cv_max cv with
  | None => false
  | Some max =>
      bool_decide (0 < max)%Z &&
      bool_decide (connSubs sm (sub_conn s) !! sub_id s = None) &&
      bool_decide (max ≤ Z.of_nat (size (connSubs sm (sub_conn s))))%Z
  end.

(** [register]: the results are [(ok, limited)]. [r] is the address of the
    object the caller allocated for [s]. *)
Definition register (sm : subscriptionManager) (cv : connView) (r : ref) (s : subscription)
    : subscriptionManager * bool * bool :=
  if cv_closed cv then (sm, false, false)
  else if overLimit sm cv s then (sm, false, true)
  else
    (SubscriptionManager
       (<[r := s]> (sm_heap sm))
       (bucketsAdd (sub_keys s) r (sm_byKey sm))
       (<[sub_conn s := <[sub_id s := r]> (connSubs sm (sub_conn s))]> (sm_byConn sm)),
     true, false).

(** Drops one subscription from the connection index, and the connection's map
    when it becomes empty. *)
Definition dropConnSub (c : Z) (i : string) (m : gmap Z (gmap string ref))
    : gmap Z (gmap string ref) :=
  match m !! c with
  | None => m
  | Some subs =>
      if decide (delete i subs = ∅) then delete c m else <[c := delete i subs]> m
  end.

(** [sm.byConn[connID][subID]]. *)
Definition lookupRef (sm : subscriptionManager) (c : Z) (i : string) : option ref :=
  connSubs sm c !! i.

(** [get], dereferenced. *)
Definition get (sm : subscriptionManager) (c : Z) (i : string) : option (ref * subscription) :=
  r ← lookupRef sm c i; s ← sm_heap sm !! r; Some (r, s).

Definition has (sm : subscriptionManager) (c : Z) (i : string) : bool :=
  bool_decide (is_Some (lookupRef sm c i)).

(** [unregister]; the second result is the subscription
    [notifySubscriptionUnregistered] is called with. *)
Definition unregister (sm : subscriptionManager) (c : Z) (i : string)
    : subscriptionManager * option subscription :=
  match get sm c i with
  | None => (sm, None)
  | Some (r, s) =>
      (SubscriptionManager (sm_heap sm)
         (bucketsDel (sub_keys s) r (sm_byKey sm))
         (dropConnSub c i (sm_byConn sm)), Some s)
  end.

(** The loop of [unregisterConn] over one connection's subscriptions. *)
Definition dropRefs (heap : gmap ref subscription) (rs : gmap string ref)
    (m : gmap string (gset ref)) : gmap string (gset ref) :=
  map_fold (λ _ r m, match heap !! r with
                     | Some s => bucketsDel (sub_keys s) r m
                     | None => m
                     end) m rs.

(** The [removed] slice, one entry per subscription still active. *)
Definition removedSubs (heap : gmap ref subscription) (rs : gmap string ref)
    : list subscription :=
  omap (λ ir, heap !! ir.2) (map_to_list rs).

Definition unregisterConn (sm : subscriptionManager) (c : Z)
    : subscriptionManager * list subscription :=
  match sm_byConn sm !! c with
  | None => (sm, [])
  | Some rs =>
      (SubscriptionManager (sm_heap sm)
         (dropRefs (sm_heap sm) rs (sm_byKey sm))
         (delete c (sm_byConn sm)),
       removedSubs (sm_heap sm) rs)
  end.

Definition updateKeys (sm : subscriptionManager) (c : Z) (i : string) (ks : gset string)
    : subscriptionManager :=
  match get sm c i with
  | None => sm
  | Some (r, s) =>
      SubscriptionManager
        (<[r := withKeys ks s]> (sm_heap sm))
        (bucketsAdd ks r (bucketsDel (sub_keys s) r (sm_byKey sm)))
        (sm_byConn sm)
  end.

Definition updateParams (sm : subscriptionManager) (c : Z) (i : string) (p : string) (w : bool)
    : subscriptionManager :=
  match get sm c i with
  | None => sm
  | Some (r, s) =>
      SubscriptionManager (<[r := withParams p w s]> (sm_heap sm)) (sm_byKey sm) (sm_byConn sm)
  end.

Definition count (sm : subscriptionManager) : nat :=
  map_fold (λ _ subs n, size subs + n) 0 (sm_byConn sm).

Definition getSubscriptionsForKey `{!RangeOrder ref} (sm : subscriptionManager) (k : string)
    : list ref :=
  match sm_byKey sm !! k with
  | None => []
  | Some subs => range_of subs
  end.

(** ** The abstraction and the invariant *)

(** The subscriptions by (connection, id). *)
Definition flatten (m : gmap Z (gmap string ref)) : gmap (Z * string) ref :=
  map_uncurry (M1 := gmap Z) (M2 := gmap string) (M12 := gmap (Z * string)) m.

Definition abs (sm : subscriptionManager) : gmap (Z * string) subscription :=
  omap (M := gmap (Z * string)) (λ r, sm_heap sm !! r) (flatten (sm_byConn sm)).

(** The well-formedness of the two indexes: no empty buckets, every indexed
    object carries the connection and id it is filed under, and the key index
    holds exactly the live subscriptions of each key. *)
Record wf (sm : subscriptionManager) : Prop := {
  wf_byConn c subs : sm_byConn sm !! c = Some subs → subs ≠ ∅;
  wf_byKey : bucketsOk (sm_byKey sm);
  wf_filed c i r : lookupRef sm c i = Some r →
    ∃ s, sm_heap sm !! r = Some s ∧ sub_conn s = c ∧ sub_id s = i;
  wf_index k r : r ∈ bucket (sm_byKey sm) k ↔
    ∃ c i s, lookupRef sm c i = Some r ∧ sm_heap sm !! r = Some s ∧ k ∈ sub_keys s;
}.

(** ** Lookup lemmas *)

Lemma lookupRef_uncurry sm c i : lookupRef sm c i = flatten (sm_byConn sm) !! (c, i).
Proof.
  unfold lookupRef, connSubs, flatten. rewrite lookup_map_uncurry.
  destruct (sm_byConn sm !! c); simpl; [done|]. by rewrite lookup_empty.
Qed.

Lemma lookup_abs sm c i : abs sm !! (c, i) = (λ rs, rs.2) <$> get sm c i.
Proof.
  unfold abs, get. rewrite lookup_omap, <- lookupRef_uncurry.
  destruct (lookupRef sm c i) as [r|]; simpl; [|done].
  by destruct (sm_heap sm !! r).
Qed.

Lemma get_Some sm c i r s :
  get sm c i = Some (r, s) ↔ lookupRef sm c i = Some r ∧ sm_heap sm !! r = Some s.
Proof.
  unfold get. destruct (lookupRef sm c i) as [r'|]; simpl; [|naive_solver].
  destruct (sm_heap sm !! r') as [s'|] eqn:E; simpl; naive_solver.
Qed.

Lemma get_None sm c i : wf sm → get sm c i = None ↔ lookupRef sm c i = None.
Proof.
  intros Hwf. unfold get. destruct (lookupRef sm c i) as [r|] eqn:E; simpl; [|naive_solver].
  destruct (wf_filed _ Hwf _ _ _ E) as (s & -> & _). naive_solver.
Qed.

Lemma has_true sm c i : has sm c i = true ↔ is_Some (lookupRef sm c i).
Proof. unfold has. by rewrite bool_decide_eq_true. Qed.

Lemma lookupRef_inj sm c i c' i' r :
  wf sm → lookupRef sm c i = Some r → lookupRef sm c' i' = Some r → c = c' ∧ i = i'.
Proof.
  intros Hwf H1 H2. destruct (wf_filed _ Hwf _ _ _ H1) as (s & Hs & <- & <-).
  destruct (wf_filed _ Hwf _ _ _ H2) as (s' & Hs' & <- & <-). naive_solver.
Qed.

Lemma lookup_dropConnSub c i m c' i' :
  default ∅ (dropConnSub c i m !! c') !! i' =
  if decide (c' = c ∧ i' = i) then None else default ∅ (m !! c') !! i'.
Proof.
  unfold dropConnSub. destruct (m !! c) as [subs|] eqn:E; last first.
  { case_decide as Hd; [|done]. destruct Hd as [-> ->]. by rewrite E. }
  destruct (decide (delete i subs = ∅)) as [He|He], (decide (c' = c)) as [->|Hc].
  - rewrite lookup_delete_eq, E. cbn [from_option id]. rewrite lookup_empty.
    case_decide as Hi; [done|]. apply (f_equal (.!! i')) in He.
    rewrite lookup_delete_ne, lookup_empty in He; naive_solver.
  - rewrite lookup_delete_ne by done. rewrite decide_False by naive_solver. done.
  - rewrite lookup_insert_eq, E. cbn [from_option id]. rewrite lookup_delete.
    repeat case_decide; naive_solver.
  - rewrite lookup_insert_ne by done. rewrite decide_False by naive_solver. done.
Qed.

Lemma dropConnSub_nonempty c i m :
  (∀ c' subs, m !! c' = Some subs → subs ≠ ∅) →
  ∀ c' subs, dropConnSub c i m !! c' = Some subs → subs ≠ ∅.
Proof.
  intros Hm c' subs. unfold dropConnSub. destruct (m !! c) as [s0|]; [|apply Hm].
  destruct (decide (delete i s0 = ∅)).
  - rewrite lookup_delete_Some. naive_solver.
  - rewrite lookup_insert_Some. naive_solver.
Qed.

Lemma dropRefs_ok heap rs m : bucketsOk m → bucketsOk (dropRefs heap rs m).
Proof.
  intros Hm. unfold dropRefs. apply (map_fold_weak_ind (λ m' _, bucketsOk m')); [done|].
  intros i r rs' m' _ IH. destruct (heap !! r); eauto with aprot.
Qed.

Lemma dropRefs_spec heap rs m k x :
  x ∈ bucket (dropRefs heap rs m) k ↔
  x ∈ bucket m k ∧ ¬ ∃ i s, rs !! i = Some x ∧ heap !! x = Some s ∧ k ∈ sub_keys s.
Proof.
  unfold dropRefs.
  apply (map_fold_weak_ind (λ m' rs, x ∈ bucket m' k ↔
    x ∈ bucket m k ∧ ¬ ∃ i s, rs !! i = Some x ∧ heap !! x = Some s ∧ k ∈ sub_keys s)).
  - setoid_rewrite lookup_empty. naive_solver.
  - intros i r rs' m' Hi IH. destruct (heap !! r) as [s|] eqn:Er.
    + rewrite bucketsDel_spec, IH. setoid_rewrite lookup_insert_Some. split.
      * intros [[Hx Hn] Hk]. split; [done|]. intros (j & s' & Hj & Hs' & Hk').
        naive_solver.
      * intros [Hx Hn]. split_and!; [done| |].
        -- intros (j & s' & Hj & Hs' & Hk'). apply Hn. exists j, s'.
           split_and!; [right|done..]. split; [naive_solver|done].
        -- naive_solver.
    + rewrite IH. setoid_rewrite lookup_insert_Some. split.
      * intros [Hx Hn]. split; [done|]. intros (j & s' & Hj & Hs' & Hk'). naive_solver.
      * intros [Hx Hn]. split; [done|]. intros (j & s' & Hj & Hs' & Hk').
        apply Hn. exists j, s'. split_and!; [right|done..]. split; [naive_solver|done].
Qed.

(** ** What the operations do to the indexes *)

Lemma register_ok sm cv r s sm' l :
  register sm cv r s = (sm', true, l) →
  cv_closed cv = false ∧ overLimit sm cv s = false ∧ l = false ∧
  sm' = SubscriptionManager (<[r := s]> (sm_heap sm)) (bucketsAdd (sub_keys s) r (sm_byKey sm))
          (<[sub_conn s := <[sub_id s := r]> (connSubs sm (sub_conn s))]> (sm_byConn sm)).
Proof. unfold register. destruct (cv_closed cv), (overLimit sm cv s); naive_solver. Qed.

Lemma register_refused sm cv r s sm' l : register sm cv r s = (sm', false, l) → sm' = sm.
Proof. unfold register. destruct (cv_closed cv), (overLimit sm cv s); naive_solver. Qed.

Lemma lookupRef_insert heap bk sm c0 i0 r c i :
  lookupRef (SubscriptionManager heap bk
    (<[c0 := <[i0 := r]> (connSubs sm c0)]> (sm_byConn sm))) c i =
  if decide (c = c0 ∧ i = i0) then Some r else lookupRef sm c i.
Proof.
  unfold lookupRef. unfold connSubs at 1. cbn [sm_byConn].
  destruct (decide (c = c0)) as [->|Hc].
  - rewrite lookup_insert_eq. cbn [from_option id]. rewrite lookup_insert.
    repeat case_decide; naive_solver.
  - rewrite lookup_insert_ne by done. rewrite decide_False by naive_solver. done.
Qed.

Lemma lookupRef_drop heap bk sm c0 i0 c i :
  lookupRef (SubscriptionManager heap bk (dropConnSub c0 i0 (sm_byConn sm))) c i =
  if decide (c = c0 ∧ i = i0) then None else lookupRef sm c i.
Proof. unfold lookupRef, connSubs. cbn [sm_byConn]. apply lookup_dropConnSub. Qed.

Lemma lookupRef_delete heap bk sm c0 c i :
  lookupRef (SubscriptionManager heap bk (delete c0 (sm_byConn sm))) c i =
  if decide (c = c0) then None else lookupRef sm c i.
Proof.
  unfold lookupRef, connSubs. cbn [sm_byConn]. case_decide as Hc.
  - subst. by rewrite lookup_delete_eq.
  - by rewrite lookup_delete_ne.
Qed.

Lemma lookupRef_None_byConn sm c : sm_byConn sm !! c = None → ∀ i, lookupRef sm c i = None.
Proof. intros E i. unfold lookupRef, connSubs. by rewrite E. Qed.

(** ** The operations preserve the invariant *)

Lemma wf_new : wf newSubscriptionManager.
Proof.
  split; simpl.
  - intros c subs. by rewrite lookup_empty.
  - intros k s. by rewrite lookup_empty.
  - intros c i r. unfold lookupRef, connSubs. simpl. by rewrite !lookup_empty.
  - intros k r. unfold bucket. rewrite lookup_empty. simpl. split; [set_solver|].
    intros (c & i & s & H & _). unfold lookupRef, connSubs in H. simpl in H.
    by rewrite !lookup_empty in H.
Qed.

Lemma wf_register sm cv r s :
  wf sm → sm_heap sm !! r = None → has sm (sub_conn s) (sub_id s) = false →
  wf (register sm cv r s).1.1.
Proof.
  intros Hwf Hr Hhas. destruct (register sm cv r s) as [[sm' []] l] eqn:E; simpl;
    [|by apply register_refused in E as ->].
  apply register_ok in E as (_ & _ & _ & ->).
  assert (lookupRef sm (sub_conn s) (sub_id s) = None) as Hnone.
  { destruct (lookupRef _ _ _) eqn:El; [|done]. by rewrite (proj2 (has_true _ _ _)) in Hhas. }
  assert (∀ c i, lookupRef sm c i ≠ Some r) as Hnew.
  { intros c i El. destruct (wf_filed _ Hwf _ _ _ El) as (? & ? & _). congruence. }
  split; cbn [sm_byConn sm_byKey sm_heap].
  - intros c subs. rewrite lookup_insert_Some. intros [[_ <-]|[_ H]].
    + apply insert_non_empty.
    + by eapply wf_byConn.
  - apply bucketsAdd_ok, Hwf.
  - intros c i r'. rewrite lookupRef_insert. case_decide as Hd.
    + intros [= <-]. exists s. rewrite lookup_insert_eq. naive_solver.
    + intros El. destruct (wf_filed _ Hwf _ _ _ El) as (s' & ? & ? & ?). exists s'.
      rewrite lookup_insert_ne by naive_solver. done.
  - intros k x. rewrite bucketsAdd_spec, (wf_index _ Hwf). setoid_rewrite lookupRef_insert.
    setoid_rewrite lookup_insert_Some. split.
    + intros [[Hk ->]|(c & i & s' & El & Hs' & Hk)].
      * exists (sub_conn s), (sub_id s), s. rewrite decide_True by done. naive_solver.
      * exists c, i, s'. rewrite decide_False by naive_solver. naive_solver.
    + intros (c & i & s' & El & Hs' & Hk). case_decide; [naive_solver|].
      right. exists c, i, s'. naive_solver.
Qed.

Lemma wf_unregister sm c i : wf sm → wf (unregister sm c i).1.
Proof.
  intros Hwf. unfold unregister. destruct (get sm c i) as [[r s]|] eqn:E; [|done].
  apply get_Some in E as [El Hs]. split; cbn [fst sm_byConn sm_byKey sm_heap].
  - apply dropConnSub_nonempty, Hwf.
  - apply bucketsDel_ok, Hwf.
  - intros c' i' r'. rewrite lookupRef_drop. case_decide; [done|]. apply Hwf.
  - intros k x. rewrite bucketsDel_spec, (wf_index _ Hwf). setoid_rewrite lookupRef_drop.
    split.
    + intros [(c' & i' & s' & El' & Hs' & Hk) Hn]. exists c', i', s'.
      rewrite decide_False; naive_solver.
    + intros (c' & i' & s' & El' & Hs' & Hk). case_decide as Hd; [done|]. split; [naive_solver|].
      intros [_ ->]. apply Hd. by apply (lookupRef_inj sm _ _ _ _ r).
Qed.

Lemma wf_unregisterConn sm c : wf sm → wf (unregisterConn sm c).1.
Proof.
  intros Hwf. unfold unregisterConn. destruct (sm_byConn sm !! c) as [rs|] eqn:E; [|done].
  assert (∀ i, lookupRef sm c i = rs !! i) as Hrs.
  { intros i. unfold lookupRef, connSubs. by rewrite E. }
  split; cbn [fst sm_byConn sm_byKey sm_heap].
  - intros c' subs. rewrite lookup_delete_Some. intros [_ H]. by eapply wf_byConn.
  - apply dropRefs_ok, Hwf.
  - intros c' i r. rewrite lookupRef_delete. case_decide; [done|]. apply Hwf.
  - intros k x. rewrite dropRefs_spec, (wf_index _ Hwf). setoid_rewrite lookupRef_delete.
    setoid_rewrite <- Hrs. split.
    + intros [(c' & i' & s' & El' & Hs' & Hk) Hn]. exists c', i', s'.
      rewrite decide_False by naive_solver. naive_solver.
    + intros (c' & i' & s' & El' & Hs' & Hk). case_decide as Hd; [done|]. split; [naive_solver|].
      intros (j & s'' & Hj & _). apply Hd. by eapply lookupRef_inj.
Qed.

(** Replacing the object behind [r] by one with the same owner and id. *)
Lemma wf_replace sm c i r s s' bk :
  wf sm → lookupRef sm c i = Some r → sm_heap sm !! r = Some s →
  sub_conn s' = sub_conn s → sub_id s' = sub_id s → bucketsOk bk →
  (∀ k x, x ∈ bucket bk k ↔
     (x = r ∧ k ∈ sub_keys s') ∨ (x ≠ r ∧ x ∈ bucket (sm_byKey sm) k)) →
  wf (SubscriptionManager (<[r := s']> (sm_heap sm)) bk (sm_byConn sm)).
Proof.
  intros Hwf El Hs Hc Hi Hbk Hidx.
  assert (∀ heap c i, lookupRef (SubscriptionManager heap bk (sm_byConn sm)) c i
                      = lookupRef sm c i) as Hl by done.
  split; cbn [sm_byConn sm_byKey sm_heap].
  - intros c' subs. apply Hwf.
  - done.
  - intros c' i' r'. rewrite Hl. intros El'.
    destruct (wf_filed _ Hwf _ _ _ El') as (s0 & Hs0 & <- & <-).
    destruct (decide (r' = r)) as [->|Hne].
    + exists s'. rewrite lookup_insert_eq. naive_solver.
    + exists s0. rewrite lookup_insert_ne by done. done.
  - intros k x. rewrite Hidx, (wf_index _ Hwf). setoid_rewrite Hl.
    setoid_rewrite lookup_insert_Some. split.
    + intros [[-> Hk]|[Hne (c' & i' & s0 & El' & Hs0 & Hk)]]; naive_solver.
    + intros (c' & i' & s0 & El' & [[<- <-]|[Hne Hs0]] & Hk); [naive_solver|].
      right. split; naive_solver.
Qed.

Lemma wf_updateKeys sm c i ks : wf sm → wf (updateKeys sm c i ks).
Proof.
  intros Hwf. unfold updateKeys. destruct (get sm c i) as [[r s]|] eqn:E; [|done].
  apply get_Some in E as [El Hs].
  eapply wf_replace; eauto using bucketsAdd_ok, bucketsDel_ok, wf_byKey.
  intros k x. rewrite bucketsAdd_spec, bucketsDel_spec. cbn [sub_keys withKeys].
  destruct (decide (x = r)) as [->|]; [|naive_solver].
  split; [|naive_solver]. intros [[Hk _]|[Hx Hn]]; [naive_solver|]. exfalso.
  apply Hn. split; [|done].
  apply (wf_index _ Hwf) in Hx as (c' & i' & s' & El' & Hs' & Hk'). naive_solver.
Qed.

Lemma wf_updateParams sm c i p w : wf sm → wf (updateParams sm c i p w).
Proof.
  intros Hwf. unfold updateParams. destruct (get sm c i) as [[r s]|] eqn:E; [|done].
  apply get_Some in E as [El Hs].
  eapply wf_replace; eauto using wf_byKey.
  intros k x. cbn [sub_keys withParams].
  destruct (decide (x = r)) as [->|]; [|naive_solver].
  split.
  - intros Hx. left. split; [done|].
    apply (wf_index _ Hwf) in Hx as (c' & i' & s' & El' & Hs' & Hk'). naive_solver.
  - intros [[_ Hk]|[Hn _]]; [|done]. apply (wf_index _ Hwf). by exists c, i, s.
Qed.

End SubscriptionManager.

Module SubscriptionSpec.
Import SubscriptionManager.

(** ** The abstract contract *)

(** The subscriptions one connection holds. *)
Definition connOf (a : gmap (Z * string) subscription) (c : Z) : gmap string subscription :=
  default ∅ (map_curry (M1 := gmap Z) (M2 := gmap string) a !! c).

Inductive op :=
  | OpRegister (cv : connView) (r : nat) (s : subscription)
  | OpUnregister (c : Z) (i : string)
  | OpUnregisterConn (c : Z)
  | OpUpdateKeys (c : Z) (i : string) (ks : gset string)
  | OpUpdateParams (c : Z) (i : string) (p : string) (w : bool).

Inductive result :=
  | RRegister (ok limited : bool)
  | RUnregister (notified : option subscription)
  | RUnregisterConn (removed : list subscription)
  | RNone.

Definition exec (sm : subscriptionManager) (o : op) : subscriptionManager * result :=
  match o with
  | OpRegister cv r s => let '(sm', ok, lim) := register sm cv r s in (sm', RRegister ok lim)
  | OpUnregister c i => let (sm', n) := unregister sm c i in (sm', RUnregister n)
  | OpUnregisterConn c => let (sm', l) := unregisterConn sm c in (sm', RUnregisterConn l)
  | OpUpdateKeys c i ks => (updateKeys sm c i ks, RNone)
  | OpUpdateParams c i p w => (updateParams sm c i p w, RNone)
  end.

(** What callers must guarantee: a registration passes a newly allocated
    object for an id the connection does not hold ([runSubscribe] tests [has]
    first). *)
Definition allowed (sm : subscriptionManager) (o : op) : Prop :=
  match o with
  | OpRegister cv r s =>
      sm_heap sm !! r = None ∧ has sm (sub_conn s) (sub_id s) = false
  | _ => True
  end.

(** The outcome of a registration in the abstract state. *)
Definition specRegister (a : gmap (Z * string) subscription) (cv : connView) (s : subscription)
    : bool * bool :=
  if cv_closed cv then (false, false)
  else match cv_max cv with
       | Some max =>
           if bool_decide (0 < max ∧ max ≤ Z.of_nat (size (connOf a (sub_conn s))))%Z
           then (false, true) else (true, false)
       | None => (true, false)
       end.

Definition specState (a : gmap (Z * string) subscription) (o : op)
    : gmap (Z * string) subscription :=
  match o with
  | OpRegister cv r s =>
      if (specRegister a cv s).1 then <[(sub_conn s, sub_id s) := s]> a else a
  | OpUnregister c i => delete (c, i) a
  | OpUnregisterConn c => filter (λ kv, kv.1.1 ≠ c) a
  | OpUpdateKeys c i ks => alter (withKeys ks) (c, i) a
  | OpUpdateParams c i p w => alter (withParams p w) (c, i) a
  end.

Definition specResult (a : gmap (Z * string) subscription) (o : op) (res : result) : Prop :=
  match o with
  | OpRegister cv r s =>
      res = RRegister (specRegister a cv s).1 (specRegister a cv s).2
  | OpUnregister c i => res = RUnregister (a !! (c, i))
  | OpUnregisterConn c =>
      ∃ l, res = RUnregisterConn l ∧ l ≡ₚ (map_to_list (connOf a c)).*2
  | _ => res = RNone
  end.

(** ** Lookups in the abstraction *)

Lemma lookup_connOf a c i : connOf a c !! i = a !! (c, i).
Proof.
  unfold connOf. rewrite <- (lookup_map_curry (M1 := gmap Z) (M2 := gmap string) a).
  destruct (map_curry a !! c) eqn:E; simpl; [done|]. by rewrite lookup_empty.
Qed.

Lemma lookup_abs_Some sm c i s :
  abs sm !! (c, i) = Some s ↔ ∃ r, lookupRef sm c i = Some r ∧ sm_heap sm !! r = Some s.
Proof.
  rewrite lookup_abs, fmap_Some. setoid_rewrite <- get_Some. split.
  - intros ([r s'] & H & ->). by exists r.
  - intros [r H]. by exists (r, s).
Qed.

Lemma lookup_abs_None sm c i : wf sm → abs sm !! (c, i) = None ↔ lookupRef sm c i = None.
Proof. intros Hwf. by rewrite lookup_abs, fmap_None, get_None. Qed.

Lemma dom_connSubs sm c : wf sm → dom (connSubs sm c) = dom (connOf (abs sm) c).
Proof.
  intros Hwf. apply set_eq. intros i. rewrite !elem_of_dom, lookup_connOf.
  rewrite <- !not_eq_None_Some, lookup_abs_None by done. done.
Qed.

Lemma size_connSubs sm c : wf sm → size (connSubs sm c) = size (connOf (abs sm) c).
Proof. intros Hwf. by rewrite <- !size_dom, dom_connSubs. Qed.

(** ** The refinement *)

Lemma overLimit_spec sm cv s :
  wf sm → has sm (sub_conn s) (sub_id s) = false → cv_closed cv = false →
  specRegister (abs sm) cv s = (negb (overLimit sm cv s), overLimit sm cv s).
Proof.
  intros Hwf Hhas Hcl. unfold specRegister, overLimit. rewrite Hcl.
  destruct (cv_max cv) as [max|]; [|done].
  unfold has in Hhas. rewrite bool_decide_eq_false in Hhas.
  rewrite (bool_decide_eq_true_2 (connSubs sm (sub_conn s) !! sub_id s = None)).
  2: { by apply eq_None_not_Some in Hhas. }
  rewrite andb_true_r, size_connSubs by done.
  repeat case_bool_decide; simpl; try done; lia.
Qed.

Lemma abs_register sm cv r s :
  wf sm → sm_heap sm !! r = None → has sm (sub_conn s) (sub_id s) = false →
  let '(sm', ok, lim) := register sm cv r s in
  (ok, lim) = specRegister (abs sm) cv s ∧
  abs sm' = if ok then <[(sub_conn s, sub_id s) := s]> (abs sm) else abs sm.
Proof.
  intros Hwf Hr Hhas. destruct (register sm cv r s) as [[sm' ok] lim] eqn:E.
  destruct (cv_closed cv) eqn:Hcl.
  { unfold register in E. rewrite Hcl in E. simplify_eq.
    unfold specRegister. by rewrite Hcl. }
  rewrite overLimit_spec by done. unfold register in E. rewrite Hcl in E.
  destruct (overLimit sm cv s) eqn:Hl; simplify_eq/=; [done|]. split; [done|].
  apply map_eq. intros [c i]. apply option_eq. intros s'.
  rewrite lookup_abs_Some, lookup_insert_Some, lookup_abs_Some.
  setoid_rewrite lookupRef_insert. setoid_rewrite lookup_insert_Some. split.
  - intros (r' & El & Hs). case_decide as Hd; [naive_solver|]. right. split; [naive_solver|].
    exists r'. destruct Hs as [[<- <-]|[_ Hs]]; [|done]. exfalso.
    destruct (wf_filed _ Hwf _ _ _ El) as (? & ? & _). congruence.
  - intros [[[= <- <-] <-]|[Hne (r' & El & Hs)]].
    + exists r. rewrite decide_True by done. naive_solver.
    + exists r'. rewrite decide_False by naive_solver. split; [done|]. right.
      split; [|done]. intros ->. congruence.
Qed.

Lemma abs_unregister sm c i :
  wf sm →
  (unregister sm c i).2 = abs sm !! (c, i) ∧
  abs (unregister sm c i).1 = delete (c, i) (abs sm).
Proof.
  intros Hwf. unfold unregister. rewrite lookup_abs.
  destruct (get sm c i) as [[r s]|] eqn:E; simpl.
  - split; [done|]. apply map_eq. intros [c' i']. apply option_eq. intros s'.
    rewrite lookup_delete_Some, !lookup_abs_Some. setoid_rewrite lookupRef_drop. simpl.
    split.
    + intros (r' & El & Hs). case_decide; [done|]. naive_solver.
    + intros [Hne (r' & El & Hs)]. exists r'. rewrite decide_False; naive_solver.
  - split; [done|]. symmetry. apply delete_id. by rewrite lookup_abs, E.
Qed.

Lemma abs_unregisterConn_state sm c :
  abs (unregisterConn sm c).1 = filter (λ kv, kv.1.1 ≠ c) (abs sm).
Proof.
  apply map_eq. intros [c' i]. apply option_eq. intros s.
  rewrite map_lookup_filter_Some, !lookup_abs_Some. unfold unregisterConn.
  destruct (sm_byConn sm !! c) as [rs|] eqn:E; simpl.
  - setoid_rewrite lookupRef_delete. simpl. split.
    + intros (r & El & Hs). case_decide; naive_solver.
    + intros [(r & El & Hs) Hne]. exists r. by rewrite decide_False.
  - split; [|naive_solver]. intros (r & El & Hs). split; [naive_solver|].
    intros ->. by rewrite (lookupRef_None_byConn _ _ E) in El.
Qed.

Lemma removedSubs_connOf sm c rs :
  sm_byConn sm !! c = Some rs →
  removedSubs (sm_heap sm) rs ≡ₚ (map_to_list (connOf (abs sm) c)).*2.
Proof.
  intros E.
  assert (connOf (abs sm) c = omap (λ r, sm_heap sm !! r) rs) as ->.
  { apply map_eq. intros i. rewrite lookup_connOf, lookup_omap. apply option_eq. intros s.
    rewrite lookup_abs_Some. unfold lookupRef, connSubs. rewrite E. simpl.
    rewrite bind_Some. done. }
  unfold removedSubs. clear E. induction rs as [|i r rs Hi IH] using map_ind.
  - by rewrite omap_empty, map_to_list_empty.
  - rewrite map_to_list_insert by done. destruct (sm_heap sm !! r) as [s|] eqn:Es.
    + cbn [omap list_omap snd]. rewrite Es.
      rewrite (omap_insert_Some _ _ _ _ s) by done.
      rewrite map_to_list_insert by (by rewrite lookup_omap, Hi). simpl. by rewrite IH.
    + cbn [omap list_omap snd]. rewrite Es. rewrite omap_insert_None by done.
      rewrite delete_id by (by rewrite lookup_omap, Hi). done.
Qed.

Lemma abs_unregisterConn_result sm c :
  (unregisterConn sm c).2 ≡ₚ (map_to_list (connOf (abs sm) c)).*2.
Proof.
  unfold unregisterConn. destruct (sm_byConn sm !! c) as [rs|] eqn:E; simpl.
  - by apply removedSubs_connOf.
  - assert (connOf (abs sm) c = ∅) as ->; [|by rewrite map_to_list_empty].
    apply map_empty. intros i. rewrite lookup_connOf, eq_None_not_Some. intros [s Hs].
    apply lookup_abs_Some in Hs as (r & El & _).
    by rewrite (lookupRef_None_byConn _ _ E) in El.
Qed.

(** Rewriting the object of a live subscription rewrites its entry. *)
Lemma abs_replace sm c i r s bk f :
  wf sm → get sm c i = Some (r, s) →
  abs (SubscriptionManager (<[r := f s]> (sm_heap sm)) bk (sm_byConn sm)) =
  alter f (c, i) (abs sm).
Proof.
  intros Hwf E. pose proof E as [El Hs]%get_Some.
  apply map_eq. intros [c' i']. apply option_eq. intros s'.
  rewrite lookup_alter_Some, !lookup_abs_Some. cbn [sm_heap].
  change (lookupRef (SubscriptionManager _ _ (sm_byConn sm)) c' i') with (lookupRef sm c' i').
  setoid_rewrite lookup_insert_Some. split.
  - intros (r' & El' & [[<- <-]|[Hne Hs']]).
    + left. destruct (lookupRef_inj _ _ _ _ _ _ Hwf El El') as [<- <-]. split; [done|].
      exists s. split; [|done]. apply lookup_abs_Some. eauto.
    + right. split; [naive_solver|]. eauto.
  - intros [[[= <- <-] (s0 & Hs0 & ->)]|[Hne Hs']].
    + apply lookup_abs_Some in Hs0 as (r0 & Hr0 & Hs0). exists r. naive_solver.
    + destruct Hs' as (r' & Hr' & Hs'). exists r'. split; [done|].
      right. split; [|done]. intros <-.
      destruct (lookupRef_inj _ _ _ _ _ _ Hwf El Hr'). naive_solver.
Qed.

Lemma abs_alter_None sm c i f :
  get sm c i = None → alter f (c, i) (abs sm) = abs sm.
Proof. intros E. apply alter_id. rewrite lookup_abs, E. done. Qed.

Lemma abs_updateKeys sm c i ks :
  wf sm → abs (updateKeys sm c i ks) = alter (withKeys ks) (c, i) (abs sm).
Proof.
  intros Hwf. unfold updateKeys. destruct (get sm c i) as [[r s]|] eqn:E.
  - by apply abs_replace.
  - by rewrite abs_alter_None.
Qed.

Lemma abs_updateParams sm c i p w :
  wf sm → abs (updateParams sm c i p w) = alter (withParams p w) (c, i) (abs sm).
Proof.
  intros Hwf. unfold updateParams. destruct (get sm c i) as [[r s]|] eqn:E.
  - by apply abs_replace.
  - by rewrite abs_alter_None.
Qed.

Lemma exec_refines sm o :
  wf sm → allowed sm o →
  wf (exec sm o).1 ∧ abs (exec sm o).1 = specState (abs sm) o ∧
  specResult (abs sm) o (exec sm o).2.
Proof.
  intros Hwf Hal. destruct o as [cv r s|c i|c|c i ks|c i p w]; simpl.
  - destruct Hal as [Hr Hh]. pose proof (abs_register sm cv r s Hwf Hr Hh) as Ha.
    pose proof (wf_register sm cv r s Hwf Hr Hh) as Hw.
    destruct (register sm cv r s) as [[sm' ok] lim]. destruct Ha as [<- Ha]. simpl in *.
    by destruct ok.
  - pose proof (abs_unregister sm c i Hwf) as [Ha1 Ha2].
    pose proof (wf_unregister sm c i Hwf) as Hw.
    destruct (unregister sm c i) as [sm' n]. simpl in *. by subst.
  - pose proof (wf_unregisterConn sm c Hwf) as Hw.
    pose proof (abs_unregisterConn_state sm c) as Ha.
    pose proof (abs_unregisterConn_result sm c) as Hr.
    destruct (unregisterConn sm c) as [sm' l]. simpl in *. eauto.
  - eauto using wf_updateKeys, abs_updateKeys.
  - eauto using wf_updateParams, abs_updateParams.
Qed.

(** ** Counting *)

Lemma size_flatten_insert c subs m :
  m !! c = None → size (flatten (<[c := subs]> m)) = size subs + size (flatten m).
Proof.
  intros Hc.
  assert (flatten (<[c := subs]> m) = kmap (M2 := gmap (Z * string)) (pair c) subs ∪ flatten m)
    as ->.
  { apply map_eq. intros [c' i]. unfold flatten. rewrite lookup_map_uncurry, lookup_union.
    rewrite lookup_map_uncurry. destruct (decide (c' = c)) as [->|Hne].
    - rewrite lookup_insert_eq, Hc. simpl. rewrite (lookup_kmap (pair c)).
      by destruct (subs !! i).
    - rewrite lookup_insert_ne by done.
      assert (kmap (M2 := gmap (Z * string)) (pair c) subs !! (c', i) = None) as ->.
      { apply lookup_kmap_None; [apply _|naive_solver]. }
      destruct (m !! c') as [subs'|]; simpl; [|done]. by destruct (subs' !! i). }
  rewrite map_size_disj_union.
  - f_equal. rewrite <- !length_map_to_list, (map_to_list_kmap (pair c)).
    by rewrite length_fmap.
  - apply map_disjoint_spec. intros [c' i] x y Hx Hy.
    apply lookup_kmap_Some in Hx as (j & [= -> <-] & _); [|apply _].
    unfold flatten in Hy. rewrite lookup_map_uncurry, Hc in Hy. done.
Qed.

Lemma count_flatten sm : count sm = size (flatten (sm_byConn sm)).
Proof.
  unfold count. induction (sm_byConn sm) as [|c subs m Hc IH] using map_ind; [done|].
  rewrite map_fold_insert_L by (done || (intros; lia)).
  by rewrite size_flatten_insert, IH.
Qed.

Lemma size_abs sm : wf sm → size (abs sm) = count sm.
Proof.
  intros Hwf. rewrite count_flatten, <- !size_dom. f_equal. apply set_eq. intros [c i].
  rewrite !elem_of_dom, <- lookupRef_uncurry, <- !not_eq_None_Some, lookup_abs_None by done.
  done.
Qed.

(** Sequences of operations from the empty manager. *)
Inductive reachableBy : list op → subscriptionManager → Prop :=
  | reach_new : reachableBy [] newSubscriptionManager
  | reach_op os sm o :
      reachableBy os sm → allowed sm o → reachableBy (os ++ [o]) (exec sm o).1.

Lemma reachableBy_wf os sm : reachableBy os sm → wf sm.
Proof. induction 1; [apply wf_new|]. by apply exec_refines. Qed.

Lemma reachableBy_abs os sm :
  reachableBy os sm → abs sm = foldl specState ∅ os.
Proof.
  induction 1 as [|os sm o Hr IH Hal].
  - apply map_eq. intros [c i]. rewrite lookup_abs. by unfold get, lookupRef, connSubs.
  - rewrite foldl_app. simpl. rewrite <- IH.
    by apply exec_refines; [eapply reachableBy_wf|].
Qed.

(** The subscriptions a key names in the abstract state. *)
Definition withKey (a : gmap (Z * string) subscription) (k : string)
    : gmap (Z * string) subscription :=
  filter (λ kv, k ∈ sub_keys kv.2) a.

Lemma elem_of_forKey `{!RangeOrder nat} sm k r :
  wf sm →
  r ∈ getSubscriptionsForKey sm k ↔
  ∃ c i s, get sm c i = Some (r, s) ∧ k ∈ sub_keys s.
Proof.
  intros Hwf.
  transitivity (r ∈ bucket (sm_byKey sm) k).
  - unfold getSubscriptionsForKey, bucket. destruct (sm_byKey sm !! k); simpl.
    + apply elem_of_range_of.
    + set_solver.
  - rewrite (wf_index _ Hwf). setoid_rewrite get_Some. naive_solver.
Qed.

Lemma NoDup_forKey `{!RangeOrder nat} sm k : NoDup (getSubscriptionsForKey sm k).
Proof.
  unfold getSubscriptionsForKey. destruct (sm_byKey sm !! k); [apply NoDup_range_of|].
  constructor.
Qed.

(** A connection that registers with a positive cap. *)
Definition cappedBy (c : Z) (max : Z) (o : op) : Prop :=
  match o with
  | OpRegister cv _ s => sub_conn s = c → cv_max cv = Some max
  | _ => True
  end.

Lemma connOf_insert_eq a c i s : connOf (<[(c, i) := s]> a) c = <[i := s]> (connOf a c).
Proof.
  apply map_eq. intros j. rewrite lookup_connOf. destruct (decide (j = i)) as [->|].
  - by rewrite !lookup_insert_eq.
  - rewrite !lookup_insert_ne by naive_solver. by rewrite lookup_connOf.
Qed.

Lemma connOf_insert_ne a c c' i s : c' ≠ c → connOf (<[(c', i) := s]> a) c = connOf a c.
Proof.
  intros. apply map_eq. intros j. rewrite !lookup_connOf.
  by rewrite lookup_insert_ne by naive_solver.
Qed.

Lemma connOf_subseteq a b c : a ⊆ b → connOf a c ⊆ connOf b c.
Proof.
  intros Hab. apply map_subseteq_spec. intros i s. rewrite !lookup_connOf.
  intros E. by eapply lookup_weaken.
Qed.

Lemma size_connOf_alter a c c' i f :
  size (connOf (alter f (c', i) a) c) = size (connOf a c).
Proof.
  rewrite <- !size_dom. f_equal. apply set_eq. intros j.
  rewrite !elem_of_dom, !lookup_connOf. destruct (decide ((c, j) = (c', i))) as [->|].
  - rewrite lookup_alter_eq. by rewrite fmap_is_Some.
  - by rewrite lookup_alter_ne by done.
Qed.

Lemma specState_cap a c max o :
  (0 < max)%Z → cappedBy c max o →
  (Z.of_nat (size (connOf a c)) ≤ max)%Z →
  (Z.of_nat (size (connOf (specState a o) c)) ≤ max)%Z.
Proof.
  intros Hmax Hcap Ha. destruct o as [cv r s|c' i|c'|c' i ks|c' i p w]; simpl.
  - destruct (specRegister a cv s) as [ok lim] eqn:E. destruct ok; [|done].
    simpl. destruct (decide (sub_conn s = c)) as [Hc|Hc]; [|by rewrite connOf_insert_ne].
    subst c. rewrite connOf_insert_eq. simpl in Hcap.
    unfold specRegister in E. rewrite Hcap in E by done. destruct (cv_closed cv); [done|].
    case_bool_decide as Hle; [done|].
    rewrite map_size_insert. destruct (connOf a (sub_conn s) !! sub_id s); simpl; lia.
  - etransitivity; [|exact Ha]. apply inj_le, map_subseteq_size, connOf_subseteq,
      delete_subseteq.
  - etransitivity; [|exact Ha]. apply inj_le, map_subseteq_size, connOf_subseteq,
      map_filter_subseteq.
  - by rewrite size_connOf_alter.
  - by rewrite size_connOf_alter.
Qed.

(** ** Properties *)

(** What the queries of a manager answer, in terms of an abstract map: [get] and [has] by
    (connection, id), [count] the total, and the key index each subscription that depends on
    the key, exactly once, and no other. *)
Record answersFrom `{!RangeOrder nat} (sm : subscriptionManager) (a : gmap (Z * string) subscription)
    : Prop := {
  af_get c i : snd <$> get sm c i = a !! (c, i);
  af_has c i : has sm c i = bool_decide (is_Some (a !! (c, i)));
  af_count : count sm = size a;
  af_keyOnce k : NoDup (getSubscriptionsForKey sm k);
  af_key k r : r ∈ getSubscriptionsForKey sm k ↔
    ∃ c i s, get sm c i = Some (r, s) ∧ withKey a k !! (c, i) = Some s;
}.

(** A well-formed manager answers from its abstraction. *)
Lemma queries_exact `{!RangeOrder nat} sm : wf sm → answersFrom sm (abs sm).
Proof.
  intros Hwf. split.
  - intros c i. by rewrite lookup_abs.
  - intros c i. unfold has. apply bool_decide_ext.
    rewrite <- !not_eq_None_Some, lookup_abs_None by done. done.
  - by rewrite size_abs.
  - intros k. apply NoDup_forKey.
  - intros k r. rewrite elem_of_forKey by done. unfold withKey.
    setoid_rewrite map_lookup_filter_Some. setoid_rewrite lookup_abs. split.
    + intros (c & i & s & Hg & Hk). exists c, i, s. rewrite Hg. done.
    + naive_solver.
Qed.

(** C19: the subscription index implements its contract. From the empty manager, through any
    sequence of registrations, unregistrations, connection closes and updates in which a
    registration is of a fresh object for an id its connection does not hold ([allowed]; the
    registration of a held id breaks the contract, see [stale_register_leaks]), every operation
    moves the abstract map exactly as [specState] says and returns what [specResult] says,
    errors (closed connection, cap) included, and afterwards every query, those of the key
    index included, answers from that map. *)
Theorem manager_refines `{!RangeOrder nat} os sm o :
  reachableBy os sm → allowed sm o →
  let a := foldl specState ∅ os in
  abs (exec sm o).1 = specState a o ∧ specResult a o (exec sm o).2 ∧
  answersFrom (exec sm o).1 (specState a o).
Proof.
  intros Hr Hal a. unfold a. rewrite <- (reachableBy_abs os sm Hr).
  destruct (exec_refines sm o (reachableBy_wf _ _ Hr) Hal) as (Hwf & Ha & Hres).
  split_and!; [done|done|]. rewrite <- Ha. by apply queries_exact.
Qed.

(** The per-connection cap holds in every reachable state: a connection whose
    server sets [MaxSubscriptions] to a positive value never holds more
    subscriptions than that. *)
Theorem cap_respected os sm c max :
  reachableBy os sm → (0 < max)%Z → Forall (cappedBy c max) os →
  (Z.of_nat (size (connSubs sm c)) ≤ max)%Z.
Proof.
  intros Hr Hmax Hos. rewrite size_connSubs by (by eapply reachableBy_wf).
  rewrite (reachableBy_abs _ _ Hr). clear Hr.
  induction os as [|o os IH] using rev_ind.
  - simpl. assert (connOf ∅ c = ∅) as ->; [done|]. rewrite map_size_empty. lia.
  - apply Forall_app in Hos as [Hos Ho]. rewrite Forall_singleton in Ho.
    rewrite foldl_app. simpl. by apply specState_cap; [| |apply IH].
Qed.

(** That precondition is needed. Registering a second object for an id the
    connection already holds replaces the entry of the connection index and leaves
    the first object in the key index, where neither [unregister] nor
    [unregisterConn] finds it again: after the connection is gone the key still
    names the dead subscription. *)
Theorem stale_register_leaks `{!RangeOrder nat} cv s k :
  cv_closed cv = false → cv_max cv = None → k ∈ sub_keys s →
  let sm1 := (register newSubscriptionManager cv 0 s).1.1 in
  let sm2 := (register sm1 cv 1 s).1.1 in
  let sm3 := (unregisterConn sm2 (sub_conn s)).1 in
  (register sm1 cv 1 s).1.2 = true ∧ count sm3 = 0 ∧
  0 ∈ getSubscriptionsForKey sm3 k.
Proof.
  intros Hcl Hmax Hk.
  assert (∀ sm r, register sm cv r s = (SubscriptionManager
       (<[r := s]> (sm_heap sm)) (bucketsAdd (sub_keys s) r (sm_byKey sm))
       (<[sub_conn s := <[sub_id s := r]> (connSubs sm (sub_conn s))]> (sm_byConn sm)),
     true, false)) as Hreg.
  { intros sm r. unfold register, overLimit. by rewrite Hcl, Hmax. }
  simpl. rewrite !Hreg. cbn [fst snd]. split; [done|].
  unfold unregisterConn. cbn [sm_byConn sm_heap sm_byKey]. rewrite lookup_insert_eq.
  cbn [fst]. unfold connSubs at 1 3. cbn [sm_byConn]. rewrite !lookup_insert_eq.
  cbn [from_option id]. split.
  - unfold count. cbn [sm_byConn]. rewrite insert_insert_eq. by rewrite delete_insert_id.
  - assert (∀ sm, 0 ∈ bucket (sm_byKey sm) k → 0 ∈ getSubscriptionsForKey sm k) as Hq.
    { intros sm. unfold getSubscriptionsForKey, bucket. destruct (sm_byKey sm !! k); simpl.
      - by rewrite elem_of_range_of.
      - set_solver. }
    apply Hq. cbn [sm_byKey]. rewrite dropRefs_spec, !bucketsAdd_spec.
    split; [naive_solver|]. intros (i & s' & Hi & _).
    unfold connSubs in Hi. cbn [sm_byConn newSubscriptionManager] in Hi.
    rewrite lookup_insert_eq in Hi. cbn [from_option id] in Hi.
    rewrite insert_insert_eq, lookup_empty in Hi. cbn [from_option id] in Hi.
    apply lookup_insert_Some in Hi as [[_ ?]|[_ Hi]]; [done|].
    by rewrite lookup_empty in Hi.
Qed.

(** *** Concrete runs *)

#[export] Instance nat_order : RangeOrder nat := elements_order.

Definition exView : connView := ConnView false (Some 2%Z).

Definition exSub (i : string) (ks : gset string) : subscription :=
  Subscription 7 i "list" ks "[]" false.

Definition exOps : list op :=
  [OpRegister exView 0 (exSub "1" {["a"; "b"]}); OpRegister exView 1 (exSub "2" {["b"]})].

Definition exManager : subscriptionManager :=
  foldl (λ sm o, (exec sm o).1) newSubscriptionManager exOps.

Lemma exManager_reachable : reachableBy exOps exManager.
Proof.
  apply (reach_op [_] (exec newSubscriptionManager _).1 _).
  - apply (reach_op [] newSubscriptionManager); [constructor|]. by split; vm_compute.
  - by split; vm_compute.
Qed.

Lemma manager_refines_witness :
  specResult (foldl specState ∅ exOps)
    (OpRegister exView 2 (exSub "3" {["b"]})) (RRegister false true) ∧
  getSubscriptionsForKey (exec exManager (OpUpdateKeys 7 "1" {["c"]})).1 "b" = [1] ∧
  NoDup (getSubscriptionsForKey (exec exManager (OpUpdateKeys 7 "1" {["c"]})).1 "b").
Proof.
  split; [|split; [vm_compute; reflexivity|]].
  - exact (proj1 (proj2 (manager_refines exOps exManager (OpRegister exView 2 (exSub "3" {["b"]}))
      exManager_reachable (conj eq_refl eq_refl)))).
  - exact (af_keyOnce _ _ (proj2 (proj2 (manager_refines exOps exManager
      (OpUpdateKeys 7 "1" {["c"]}) exManager_reachable I))) "b").
Defined.

Lemma cap_respected_witness : (Z.of_nat (size (connSubs exManager 7)) ≤ 2)%Z.
Proof.
  apply (cap_respected exOps); [apply exManager_reachable|lia|].
  repeat constructor.
Defined.

Lemma stale_register_leaks_witness :
  let sm1 := (register newSubscriptionManager (ConnView false None) 0 (exSub "1" {["a"]})).1.1 in
  let sm2 := (register sm1 (ConnView false None) 1 (exSub "1" {["a"]})).1.1 in
  let sm3 := (unregisterConn sm2 7).1 in
  (register sm1 (ConnView false None) 1 (exSub "1" {["a"]})).1.2 = true ∧ count sm3 = 0 ∧
  0 ∈ getSubscriptionsForKey sm3 "a".
Proof.
  apply (stale_register_leaks (ConnView false None) (exSub "1" {["a"]}));
    [done|done|set_solver].
Defined.

End SubscriptionSpec.
