(* ===== verification/Refresh.v ===== *)
(** * Refresh: trigger keys, refresh queues and patch fan-out (subscription.go)

    Handlers register the trigger keys a subscription depends on
    ([RegisterRefreshTrigger]) and queue refreshes of those keys
    ([TriggerRefresh]); the server resolves a queue to subscriptions and
    re-executes each once ([processRefreshQueue]), or pushes a patch to the
    subscribers that asked for patches ([PatchSubscription]). The subscription
    index is reached through the interface [SubIndex]; [manager_index]
    discharges it with the subscription manager. The tail of [runSubscribe] that
    commits a finished subscribe to the index is [commitSubscribe]. *)

From S2P Require Import Prelude Subscriptions.
From stdpp Require Import prelude gmap strings list fin_maps fin_sets.

Module Refresh.
Import SubscriptionManager.

(** ** The index interface *)

(** What the refresh machinery needs of the subscription index: a snapshot of
    the subscriptions of a key, without repetition. *)
Class SubIndex (St Ref : Type) := {
  subs_for : St → string → list Ref;
  subs_for_NoDup st k : NoDup (subs_for st k);
}.

#[export] Instance manager_index `{!RangeOrder nat} : SubIndex subscriptionManager nat := {
  subs_for := getSubscriptionsForKey;
  subs_for_NoDup sm k := SubscriptionSpec.NoDup_forKey sm k;
}.

(** ** Keys, collectors and queues *)

(** [compositeKey]: [strings.Join(keys, "\x00")]. *)
Definition nul : string := String (Ascii.ascii_of_nat 0) EmptyString.

Definition compositeKey (keys : list string) : string := String.concat nul keys.

(** [triggerCollector]: the set of keys a subscription handler registered. *)
Definition triggerCollector : Type := gset string.

(** [refreshQueue]: the queued keys, and whether the queue has a server. *)
Record refreshQueue := RefreshQueue { rq_keys : list string; rq_server : bool }.

(** [RegisterRefreshTrigger]; [None] is a context without a collector. *)
Definition RegisterRefreshTrigger (tc : option triggerCollector) (keys : list string)
    : option triggerCollector :=
  match tc with
  | None => None
  | Some ks => Some ({[compositeKey keys]} ∪ ks)
  end.

(** [TriggerRefresh]; [None] is a context without a queue. *)
Definition TriggerRefresh (rq : option refreshQueue) (keys : list string)
    : option refreshQueue :=
  match rq with
  | None => None
  | Some q => Some (RefreshQueue (rq_keys q ++ [compositeKey keys]) (rq_server q))
  end.

Section Process.
  Context {St Ref : Type} `{Countable Ref} `{!SubIndex St Ref}.

(** What one pass over a queue does: the observer's [RefreshFanout(key, n)]
    calls and the subscriptions handed to [refreshSubscription], in order. *)
Record flush := Flush { fl_fanout : list (string * nat); fl_launch : list Ref }.

(** The two nested loops of [processRefreshQueue], with [seen] as they keep it.
    The index is locked anew for each key: [st n] is its state when the [n]-th
    key is looked up. *)
Fixpoint collectRefresh (st : nat → St) (seen : gset Ref) (keys : list string) : flush :=
  match keys with
  | [] => Flush [] []
  | k :: keys =>
      let subs := subs_for (st 0) k in
      let fresh := dedupSeen seen subs in
      let rest := collectRefresh (λ n, st (S n)) (list_to_set subs ∪ seen) keys in
      Flush ((k, length subs) :: fl_fanout rest) (fresh ++ fl_launch rest)
  end.

(** [processRefreshQueue]: takes the keys, leaves the queue empty. *)
Definition processRefreshQueue (st : nat → St) (q : refreshQueue) : refreshQueue * flush :=
  match rq_keys q with
  | [] => (RefreshQueue [] (rq_server q), Flush [] [])
  | keys => (RefreshQueue [] (rq_server q), collectRefresh st ∅ keys)
  end.

(** [TriggerRefreshNow]: appends the key, and flushes when the queue has a server. *)
Definition TriggerRefreshNow (st : nat → St) (rq : option refreshQueue) (keys : list string)
    : option refreshQueue * flush :=
  match TriggerRefresh rq keys with
  | None => (None, Flush [] [])
  | Some q =>
      if rq_server q then let (q', f) := processRefreshQueue st q in (Some q', f)
      else (Some q, Flush [] [])
  end.

(** [Server.TriggerRefresh]. *)
Definition ServerTriggerRefresh (st : nat → St) (keys : list string) : flush :=
  (processRefreshQueue st (RefreshQueue [compositeKey keys] false)).2.

(** ** Patches *)

(** What the fan-out needs of a subscription. *)
Class PatchTarget := {
  target_wantsPatch : St → Ref → bool;
  target_id : St → Ref → string;
}.

Inductive delivery :=
  | Refreshed (r : Ref)
  | Patched (r : Ref) (data : string).

Definition is_refreshed (d : delivery) : bool :=
  match d with Refreshed _ => true | Patched _ _ => false end.

(** [marshalPatch] encodes the patch, [marshalFrame] the [subscription_patch]
    envelope around it; both are the JSON library's. *)
Context `{!PatchTarget} {P : Type} (marshalPatch : P → option string)
        (marshalFrame : string → string → option string).

(** The loop of [Server.PatchSubscription]: the deliveries and the counters
    [(patched, refreshed)]. *)
Fixpoint patchLoop (st : St) (raw : string) (subs : list Ref)
    : list delivery * (nat * nat) :=
  match subs with
  | [] => ([], (0, 0))
  | r :: subs =>
      let '(ds, (p, f)) := patchLoop st raw subs in
      if negb (target_wantsPatch st r) then (Refreshed r :: ds, (p, S f))
      else match marshalFrame (target_id st r) raw with
           | None => (ds, (S p, f))
           | Some data => (Patched r data :: ds, (S p, f))
           end
  end.

Record fanout := Fanout {
  fo_key : string; fo_patched : nat; fo_refreshed : nat; fo_deliveries : list delivery;
}.

(** [Server.PatchSubscription]; [None] is the marshalling error. *)
Definition ServerPatchSubscription (st : St) (patch : P) (keys : list string)
    : option fanout :=
  match marshalPatch patch with
  | None => None
  | Some raw =>
      let key := compositeKey keys in
      let '(ds, (p, f)) := patchLoop st raw (subs_for st key) in
      Some (Fanout key p f ds)
  end.

(** [PatchSubscription]: [Some None] is the no-op (nil error) outside a request
    context or in a queue without a server. *)
Definition PatchSubscription (st : St) (rq : option refreshQueue) (patch : P)
    (keys : list string) : option (option fanout) :=
  match rq with
  | None => Some None
  | Some q =>
      if rq_server q then
        match ServerPatchSubscription st patch keys with
        | None => None
        | Some fo => Some (Some fo)
        end
      else Some None
  end.

End Process.

Arguments flush : clear implicits.
Arguments delivery : clear implicits.
Arguments fanout : clear implicits.
Arguments PatchTarget : clear implicits.

#[export] Instance manager_target : PatchTarget subscriptionManager nat := {
  target_wantsPatch sm r := default false (sub_wantsPatch <$> sm_heap sm !! r);
  target_id sm r := default EmptyString (sub_id <$> sm_heap sm !! r);
}.

(** ** Committing a subscribe *)

(** The outcomes of the tail of [runSubscribe]. *)
Inductive committed :=
  | NoKeys          (** the handler registered no trigger key *)
  | Updated         (** the id was already subscribed *)
  | Registered      (** newly registered; the observer is told *)
  | LimitReached    (** CodeTooManyRequests is sent *)
  | ConnClosed.     (** refused silently *)

#[export] Instance committed_eq_dec : EqDecision committed.
Proof. solve_decision. Defined.

(** The part of [runSubscribe] after the handler returned, over a state [S] that holds
    the index. Each manager call is a critical section of its own: [env n] is what other
    goroutines do before section [n], [view] what [isClosed] and the cap answer inside
    [register], [addr] the address of the [&subscription{...}] literal, [keys] the
    collector's. *)
Section Commit.
  Context {S : Type} (subs : S → subscriptionManager) (setSubs : subscriptionManager → S → S).
  Context (view : S → connView) (addr : S → nat) (env : nat → S → S).

Definition commitSubscribe (s : S) (c : Z) (i method : string) (keys : gset string)
    (params : string) (patch : bool) : S * committed :=
  if decide (keys = ∅) then (s, NoKeys)
  else
    let s := env 0 s in
    if has (subs s) c i then
      let s := env 1 s in
      let s := setSubs (updateKeys (subs s) c i keys) s in
      let s := env 2 s in
      (setSubs (updateParams (subs s) c i params patch) s, Updated)
    else
      let s := env 1 s in
      match register (subs s) (view s) (addr s) (Subscription c i method keys params patch) with
      | (sm', true, _) => (setSubs sm' s, Registered)
      | (sm', false, true) => (setSubs sm' s, LimitReached)
      | (sm', false, false) => (setSubs sm' s, ConnClosed)
      end.

End Commit.

(** ** Lemmas on flushes *)

Section FlushFacts.
  Context {St Ref : Type} `{Countable Ref} `{!SubIndex St Ref}.

Lemma elem_of_collect (st : nat → St) seen keys r :
  r ∈ fl_launch (collectRefresh st seen keys) ↔
  (r ∉ seen) ∧ ∃ n k, keys !! n = Some k ∧ r ∈ subs_for (st n) k.
Proof.
  revert st seen. induction keys as [|k keys IH]; intros st seen; simpl.
  { set_unfold. naive_solver. }
  rewrite elem_of_app, elem_of_dedupSeen, IH, not_elem_of_union, elem_of_list_to_set.
  split.
  - intros [[Hr Hs]|[[Hn Hs] (n & k' & Hk & Hr)]]; (split; [done|]).
    + by exists 0, k.
    + by exists (S n), k'.
  - intros [Hs (n & k' & Hk & Hr)]. destruct (decide (r ∈ subs_for (st 0) k)); [by left|].
    right. split; [done|]. destruct n as [|n]; simplify_eq/=; [done|]. eauto.
Qed.

Lemma NoDup_collect (st : nat → St) seen keys : NoDup (fl_launch (collectRefresh st seen keys)).
Proof.
  revert st seen. induction keys as [|k keys IH]; intros st seen; simpl; [constructor|].
  apply NoDup_app. split_and!; [apply NoDup_dedupSeen| |apply IH].
  intros r Hr. rewrite elem_of_collect, not_elem_of_union, elem_of_list_to_set.
  apply elem_of_dedupSeen in Hr. naive_solver.
Qed.

Lemma fanout_collect (st : nat → St) seen keys :
  fl_fanout (collectRefresh st seen keys) =
  imap (λ n k, (k, length (subs_for (st n) k))) keys.
Proof.
  revert st seen. induction keys as [|k keys IH]; intros st seen; simpl; [done|].
  by rewrite IH.
Qed.

Lemma fanout_keys (st : nat → St) seen keys : (fl_fanout (collectRefresh st seen keys)).*1 = keys.
Proof.
  revert st seen. induction keys as [|k keys IH]; intros st seen; simpl; [done|]. by rewrite IH.
Qed.

Lemma processRefreshQueue_flush (st : nat → St) q :
  processRefreshQueue st q =
  (RefreshQueue [] (rq_server q), collectRefresh st ∅ (rq_keys q)).
Proof. unfold processRefreshQueue. by destruct (rq_keys q). Qed.

(** A handler's calls to the two trigger functions, with the index states the
    immediate flushes read. *)
Inductive trigger :=
  | Batched (keys : list string)
  | Now (st : nat → St) (keys : list string).

Definition triggerKey (t : trigger) : string :=
  match t with Batched keys => compositeKey keys | Now _ keys => compositeKey keys end.

(** A handler's calls in order, then the flush when it returns. *)
Fixpoint runTriggers (st : nat → St) (q : refreshQueue) (ts : list trigger) : list (flush Ref) :=
  match ts with
  | [] => [(processRefreshQueue st q).2]
  | Batched keys :: ts =>
      match TriggerRefresh (Some q) keys with
      | None => []
      | Some q' => runTriggers st q' ts
      end
  | Now st' keys :: ts =>
      match TriggerRefreshNow st' (Some q) keys with
      | (None, f) => [f]
      | (Some q', f) => f :: runTriggers st q' ts
      end
  end.

Lemma runTriggers_keys st q ts :
  (runTriggers st q ts ≫= fl_fanout).*1 = rq_keys q ++ (triggerKey <$> ts).
Proof.
  revert q. induction ts as [|[keys|st' keys] ts IH]; intros q; simpl.
  - rewrite processRefreshQueue_flush. simpl. by rewrite !app_nil_r, fanout_keys.
  - rewrite IH. simpl. by rewrite <- app_assoc.
  - unfold TriggerRefreshNow. simpl. destruct (rq_server q) eqn:E.
    + rewrite processRefreshQueue_flush. simpl. rewrite fmap_app, IH, fanout_keys. simpl.
      by rewrite <- app_assoc.
    + simpl. rewrite IH. simpl. by rewrite <- app_assoc.
Qed.

Context `{!PatchTarget St Ref}.

Lemma patchLoop_spec marshalFrame (st : St) raw subs :
  (∀ r, r ∈ subs → is_Some (marshalFrame (target_id st r) raw)) →
  let '(ds, (p, f)) := patchLoop marshalFrame st raw subs in
  p + f = length subs ∧
  f = length (filter (λ d, is_refreshed d) ds) ∧
  Forall2 (λ r d,
    if target_wantsPatch st r
    then ∃ data, marshalFrame (target_id st r) raw = Some data ∧ d = Patched r data
    else d = Refreshed r) subs ds.
Proof.
  induction subs as [|r subs IH]; intros Hm; simpl; [done|].
  destruct (patchLoop _ _ _ _) as [ds [p f]] eqn:E.
  destruct IH as (Hl & Hf & HF); [set_solver|].
  destruct (Hm r) as [data Hd]; [set_solver|].
  destruct (target_wantsPatch st r) eqn:Ew; cbn [negb].
  - rewrite Hd. split_and!; [simpl; lia|..].
    + by rewrite filter_cons_False by (simpl; tauto).
    + constructor; [rewrite Ew; eauto|done].
  - split_and!; [simpl; lia|..].
    + rewrite filter_cons_True by (simpl; exact I). simpl. by rewrite Hf.
    + constructor; [by rewrite Ew|done].
Qed.

End FlushFacts.

(** ** Composite keys *)

Fixpoint noNul (s : string) : bool :=
  match s with
  | EmptyString => true
  | String a s => negb (Ascii.eqb a (Ascii.ascii_of_nat 0)) && noNul s
  end.

Lemma noNul_split x y r : noNul x = true → x ≠ (y +:+ (nul +:+ r)).
Proof.
  revert y. induction x as [|a x IH]; intros [|b y]; simpl; try done.
  - intros [Ha _]%andb_true_iff [= -> _]. done.
  - intros [_ Hx]%andb_true_iff [= -> E]. by eapply IH.
Qed.

Lemma noNul_app_inj x y r r' :
  noNul x = true → noNul y = true →
  x +:+ (nul +:+ r) = y +:+ (nul +:+ r') → x = y ∧ r = r'.
Proof.
  revert y. induction x as [|a x IH]; intros [|b y]; unfold nul; cbn.
  - intros _ _ E. injection E as E. by split.
  - intros _ [Hb _]%andb_true_iff [= <- _]. done.
  - intros [Ha _]%andb_true_iff _ [= -> _]. done.
  - intros [_ Hx]%andb_true_iff [_ Hy]%andb_true_iff [= -> E].
    destruct (IH y Hx Hy E) as [-> ->]. done.
Qed.

Lemma compositeKey_cons k k' ks :
  compositeKey (k :: k' :: ks) = k +:+ (nul +:+ compositeKey (k' :: ks)).
Proof. done. Qed.

(** ** Lemmas on committing *)

Lemma has_false_None sm c i : has sm c i = false ↔ lookupRef sm c i = None.
Proof.
  unfold has. rewrite bool_decide_eq_false, eq_None_not_Some. done.
Qed.

(** ** Properties *)

Section Once.
  Context {St Ref : Type} `{Countable Ref} `{!SubIndex St Ref}.

(** C29: processing a refresh queue empties it and re-executes every subscription
    that any queued key matched, each exactly once however many of its keys were
    queued, and nothing else; the observer hears of each queued key with the number
    of subscriptions it matched. The index may change between two keys. *)
Theorem refresh_exactly_once (st : nat → St) q :
  let '(q', f) := processRefreshQueue st q in
  rq_keys q' = [] ∧
  NoDup (fl_launch f) ∧
  (∀ r, r ∈ fl_launch f ↔ ∃ n k, rq_keys q !! n = Some k ∧ r ∈ subs_for (st n) k) ∧
  fl_fanout f = imap (λ n k, (k, length (subs_for (st n) k))) (rq_keys q).
Proof.
  rewrite processRefreshQueue_flush. split_and!; [done|apply NoDup_collect| |].
  - intros r. rewrite elem_of_collect. set_solver.
  - apply fanout_collect.
Qed.

(** No trigger is lost and none is flushed twice: whatever mix of
    [TriggerRefresh] and [TriggerRefreshNow] a handler makes, with or without a
    server behind its queue, the keys flushed up to and including the flush at its
    end are the keys it triggered, in that order. *)
Theorem triggers_flushed_once st (q : refreshQueue) ts :
  rq_keys q = [] →
  (runTriggers st q ts ≫= fl_fanout).*1 = triggerKey <$> ts.
Proof. intros E. by rewrite runTriggers_keys, E. Qed.

Context `{!PatchTarget St Ref}.

(** A patch reaches every subscription of its key exactly once, as a patch
    frame carrying the subscription's id where it declared patch support and as a
    refresh where it did not, and the two counters the observer gets add up; the
    only error is a patch that does not marshal, and then nothing is delivered. *)
Theorem patch_fanout_complete {P} (marshalPatch : P → option string) marshalFrame
    (st : St) patch keys :
  (∀ i raw, is_Some (marshalFrame i raw)) →
  match ServerPatchSubscription marshalPatch marshalFrame st patch keys with
  | None => marshalPatch patch = None
  | Some fo =>
      ∃ raw, marshalPatch patch = Some raw ∧
      fo_patched fo + fo_refreshed fo = length (subs_for st (compositeKey keys)) ∧
      fo_refreshed fo = length (filter is_refreshed (fo_deliveries fo)) ∧
      Forall2 (λ r d,
        if target_wantsPatch st r
        then ∃ data, marshalFrame (target_id st r) raw = Some data ∧ d = Patched r data
        else d = Refreshed r) (subs_for st (compositeKey keys)) (fo_deliveries fo)
  end.
Proof.
  intros Hm. unfold ServerPatchSubscription. destruct (marshalPatch patch) as [raw|]; [|done].
  pose proof (patchLoop_spec marshalFrame st raw (subs_for st (compositeKey keys))) as Hl.
  destruct (patchLoop _ _ _ _) as [ds [p f]]. exists raw. split; [done|]. by apply Hl.
Qed.

End Once.

(** Composite keys do not collide: two non-empty part lists without NUL bytes
    have the same composite key only if they are the same parts. A subscription on
    ("photos", "42") is refreshed by exactly that key, never by "photos" or by
    ("photos", "4", "2"). *)
Theorem compositeKey_injective ks ks' :
  ks ≠ [] → ks' ≠ [] → Forall noNul ks → Forall noNul ks' →
  compositeKey ks = compositeKey ks' → ks = ks'.
Proof.
  revert ks'. induction ks as [|k ks IH]; intros [|k' ks'] Hne Hne' Hk Hk' E; try done.
  apply Forall_cons in Hk as [Hk%Is_true_true Hks].
  apply Forall_cons in Hk' as [Hk'%Is_true_true Hks'].
  destruct ks as [|k2 ks], ks' as [|k2' ks'].
  - change (k = k') in E. by subst.
  - rewrite compositeKey_cons in E. by apply noNul_split in E.
  - rewrite compositeKey_cons in E. symmetry in E. by apply noNul_split in E.
  - rewrite !compositeKey_cons in E. apply noNul_app_inj in E as [-> E]; [|done..].
    f_equal. by apply IH.
Qed.

Section Committing.
  Context {S : Type} (subs : S → subscriptionManager) (setSubs : subscriptionManager → S → S).
  Context (view : S → connView) (addr : S → nat) (env : nat → S → S).
  Context (get_set : ∀ sm s, subs (setSubs sm s) = sm).
  Context (addr_fresh : ∀ s, sm_heap (subs s) !! addr s = None).

(** What other goroutines may do between the sections of a commit of (c, i): anything
    that keeps the index well formed, the removal of (c, i) by an unsubscribe or a
    teardown included, but not a commit of the same id. *)
Record interferes (c : Z) (i : string) : Prop := {
  if_wf n s : wf (subs s) → wf (subs (env n s));
  if_own n s : wf (subs s) → abs (subs (env n s)) !! (c, i) = abs (subs s) !! (c, i) ∨
               abs (subs (env n s)) !! (c, i) = None;
}.

(** No interference touches the entry [k]. *)
Definition spared (k : Z * string) : Prop :=
  ∀ n s, wf (subs s) → abs (subs (env n s)) !! k = abs (subs s) !! k.

Abbreviation commit := (commitSubscribe subs setSubs view addr env).
Abbreviation before s := (env 1 (env 0 s)).

Lemma own_survives c i n s old :
  interferes c i → wf (subs s) → abs (subs (env n s)) !! (c, i) = Some old →
  abs (subs s) !! (c, i) = Some old.
Proof. intros Hi Hw E. destruct (if_own _ _ Hi n s Hw) as [H|H]; congruence. Qed.

Lemma own_stays_gone c i n s :
  interferes c i → wf (subs s) → abs (subs s) !! (c, i) = None →
  abs (subs (env n s)) !! (c, i) = None.
Proof. intros Hi Hw E. destruct (if_own _ _ Hi n s Hw) as [H|H]; congruence. Qed.

Lemma has_abs c i s : wf (subs s) → has (subs s) c i = true ↔ is_Some (abs (subs s) !! (c, i)).
Proof.
  intros Hwf. rewrite has_true, <- !not_eq_None_Some, SubscriptionSpec.lookup_abs_None by done. done.
Qed.

(** The update branch: keys in one section, params and patch support in another. *)
Lemma commit_updated c i method keys params patch s :
  wf (subs s) → interferes c i → keys ≠ ∅ → has (subs (env 0 s)) c i = true →
  let '(s', out) := commit s c i method keys params patch in
  out = Updated ∧ wf (subs s') ∧
  (∀ k, k ≠ (c, i) → spared k → abs (subs s') !! k = abs (subs s) !! k) ∧
  ∃ old, abs (subs s) !! (c, i) = Some old ∧
    (abs (subs s') !! (c, i) = Some (withParams params patch (withKeys keys old)) ∨
     abs (subs s') !! (c, i) = None ∧ ¬ spared (c, i)).
Proof.
  intros Hwf Hi Hk Hh. unfold commitSubscribe. rewrite decide_False, Hh by done.
  pose proof (if_wf _ _ Hi 0 s Hwf) as Hw0. pose proof (if_wf _ _ Hi 1 _ Hw0) as Hw1.
  set (s1 := env 1 (env 0 s)) in *. set (s2 := setSubs _ s1).
  assert (wf (subs s2)) as Hw2 by (unfold s2; rewrite get_set; by apply wf_updateKeys).
  pose proof (if_wf _ _ Hi 2 _ Hw2) as Hw3.
  rewrite get_set, SubscriptionSpec.abs_updateParams by done.
  assert (abs (subs s2) = alter (withKeys keys) (c, i) (abs (subs s1))) as Ha
    by (unfold s2; rewrite get_set; by apply SubscriptionSpec.abs_updateKeys).
  split_and!; [done|by apply wf_updateParams|..].
  - intros k Hne Hs. rewrite lookup_alter_ne, Hs, Ha, lookup_alter_ne by done.
    unfold s1. by rewrite !Hs by done.
  - apply (has_abs c i (env 0 s) Hw0) in Hh as [old Hold].
    exists old. split; [by eapply own_survives|]. rewrite lookup_alter_eq.
    destruct (if_own _ _ Hi 1 (env 0 s) Hw0) as [H1|H1]; fold s1 in H1;
      destruct (if_own _ _ Hi 2 s2 Hw2) as [H2|H2]; rewrite H2, ?Ha, ?lookup_alter_eq, ?H1, ?Hold;
      [by left|..]; (right; split; [done|]); intros Hs.
    + rewrite (Hs 2 s2 Hw2), Ha, lookup_alter_eq, H1, Hold in H2. done.
    + unfold s1 in H1. rewrite (Hs 1 _ Hw0), Hold in H1. done.
    + unfold s1 in H1. rewrite (Hs 1 _ Hw0), Hold in H1. done.
Qed.

(** The other branch: one registration, with the cap and the closed check in it. *)
Lemma commit_registered c i method keys params patch s :
  wf (subs s) → interferes c i → keys ≠ ∅ → has (subs (env 0 s)) c i = false →
  let '(s', out) := commit s c i method keys params patch in
  let new := Subscription c i method keys params patch in
  wf (subs s') ∧ abs (subs (before s)) !! (c, i) = None ∧
  abs (subs s') =
    (if decide (out = Registered) then <[(c, i) := new]> else id) (abs (subs (before s))) ∧
  match SubscriptionSpec.specRegister (abs (subs (before s))) (view (before s)) new with
  | (true, _) => out = Registered
  | (false, true) => out = LimitReached
  | (false, false) => out = ConnClosed
  end.
Proof.
  intros Hwf Hi Hk Hh. unfold commitSubscribe. rewrite decide_False, Hh by done.
  pose proof (if_wf _ _ Hi 0 s Hwf) as Hw0. pose proof (if_wf _ _ Hi 1 _ Hw0) as Hw1.
  assert (abs (subs (before s)) !! (c, i) = None) as Hnone.
  { apply own_stays_gone; [done..|]. apply eq_None_not_Some. rewrite <- has_abs by done. by rewrite Hh. }
  set (s1 := before s) in *. set (new := Subscription c i method keys params patch).
  assert (has (subs s1) c i = false) as Hh1.
  { apply has_false_None. by rewrite <- SubscriptionSpec.lookup_abs_None. }
  pose proof (wf_register (subs s1) (view s1) (addr s1) new Hw1 (addr_fresh s1) Hh1) as Hw.
  pose proof (SubscriptionSpec.abs_register (subs s1) (view s1) (addr s1) new Hw1
    (addr_fresh s1) Hh1) as Ha.
  destruct (register (subs s1) (view s1) (addr s1) new) as [[sm' [|]] lim]; destruct Ha as [Hsp Hab].
  - rewrite get_set. rewrite <- Hsp. by split_and!.
  - destruct lim; rewrite get_set, <- Hsp; by split_and!.
Qed.


End Committing.

(** Two goroutines committing the same new id: both see it missing and both register
    it; the first registration stays in the key index when the connection is swept. *)
Lemma commit_race_leaks :
  let cv := ConnView false None in
  let first sm := (register sm cv 7 (Subscription 0 "1" "list" {["a"]} "[]" false)).1.1 in
  let race n sm := if decide (n = 1) then first sm else sm in
  let '(sm, out) := commitSubscribe (λ sm, sm) (λ sm _, sm) (λ _, cv)
    (λ sm, fresh (dom (sm_heap sm))) race newSubscriptionManager 0 "1" "list" {["a"]} "[]" false in
  out = Registered ∧ sm_byKey (unregisterConn sm 0).1 !! "a" = Some {[7]} ∧
  count (unregisterConn sm 0).1 = 0.
Proof. vm_compute. done. Qed.

(** *** Concrete runs *)

#[local] Existing Instance SubscriptionSpec.nat_order.

Lemma triggers_flushed_once_witness :
  (runTriggers (Ref := nat) (λ _, SubscriptionSpec.exManager) (RefreshQueue [] true)
     [Batched ["a"]; Now (λ _, SubscriptionSpec.exManager) ["b"; "x"]; Batched ["b"]]
   ≫= fl_fanout).*1 = ["a"; compositeKey ["b"; "x"]; "b"].
Proof. apply triggers_flushed_once. reflexivity. Defined.

Lemma patch_fanout_complete_witness :
  match ServerPatchSubscription (Ref := nat) Some (λ i raw, Some (i +:+ raw))
          SubscriptionSpec.exManager "p" ["b"] with
  | None => Some "p" = None
  | Some fo =>
      ∃ raw, Some "p" = Some raw ∧
      fo_patched fo + fo_refreshed fo =
        length (subs_for SubscriptionSpec.exManager (compositeKey ["b"])) ∧
      fo_refreshed fo = length (filter is_refreshed (fo_deliveries fo)) ∧
      Forall2 (λ r d,
        if target_wantsPatch SubscriptionSpec.exManager r
        then ∃ data, Some (target_id SubscriptionSpec.exManager r +:+ raw) = Some data
             ∧ d = Patched r data
        else d = Refreshed r)
        (subs_for SubscriptionSpec.exManager (compositeKey ["b"])) (fo_deliveries fo)
  end.
Proof.
  apply (patch_fanout_complete Some (λ i raw, Some (i +:+ raw))). intros i raw. eauto.
Defined.

Lemma compositeKey_injective_witness :
  compositeKey ["photos"; "42"] = compositeKey ["photos"; "42"] ∧
  ["photos"; "42"] = ["photos"; "42"].
Proof.
  split; [reflexivity|].
  apply (compositeKey_injective ["photos"; "42"] ["photos"; "42"]);
    [done|done|by repeat constructor|by repeat constructor|reflexivity].
Defined.

(** A re-subscribe of a held id, unsubscribed between its two updates. *)
Definition exHeld : subscriptionManager :=
  (register newSubscriptionManager (ConnView false None) 7
     (Subscription 0 "1" "list" {["a"]} "[]" false)).1.1.

Definition exInterfere (n : nat) (sm : subscriptionManager) : subscriptionManager :=
  if decide (n = 2) then (unregister sm 0 "1").1 else sm.

Definition exCommit : subscriptionManager * committed :=
  commitSubscribe (λ sm, sm) (λ sm _, sm) (λ _, ConnView false None)
    (λ sm, fresh (dom (sm_heap sm))) exInterfere exHeld 0 "1" "list" {["b"]} "[1]" true.


End Refresh.
