(* ===== verification/Requests.v ===== *)
(** * Requests: a connection's in-flight requests and its slots (connection.go)

    [Module Requests] models the [requests] map of a [Conn]: registration with
    its token, unregistration, refresh registration, cancellation and close. The
    cancel func of a context is represented by the context's number; the calls a
    method makes after it released [c.mu] are returned, so that a machine can run
    them later. [Module RequestMachine] is that machine: every critical section
    is one step, the cancel calls left to make are a bag any of which may fire at
    any time, and the handler goroutines are the set of running contexts.
    [Module Slots] models the two counting semaphores of [acquireRequestSlot]
    with every channel operation a step of its own. *)

From S2P Require Import Prelude.
From stdpp Require Import prelude gmap strings list fin_maps fin_sets.

Module Requests.

(** ** Data *)

(** The causes the server cancels a context with; [CauseNil] is [cancel(nil)]. *)
Inductive cause :=
  | ErrClientCanceled | ErrConnectionClosed | ErrServerShutdown | CauseNil.

#[export] Instance cause_eq_dec : EqDecision cause.
Proof. solve_decision. Defined.

Record inflight := Inflight {
  if_seq : Z;
  if_cancel : nat;          (** the context its cancel func belongs to *)
  if_method : string;
  if_subscribe : bool;
  if_started : Z;
  if_refresh : bool;
  if_refreshAgain : bool;
}.

(** The fields of [Conn] that [c.mu] guards here. *)
Record reqState := ReqState {
  rs_requests : gmap string inflight;
  rs_closed : bool;
  rs_reqSeq : Z;
}.

Definition newReqState : reqState := ReqState ∅ false 0.

(** ** Operations *)

(** [old := c.requests[id].cancel] and [if old != nil { old(ErrClientCanceled) }]. *)
Definition oldCalls (rs : reqState) (id : string) : list (nat * cause) :=
  match rs_requests rs !! id with
  | None => []
  | Some e => [(if_cancel e, ErrClientCanceled)]
  end.

Definition registerRequest (rs : reqState) (id method : string) (subscribe : bool)
    (started : Z) (cancel : nat) : reqState * Z * list (nat * cause) :=
  if rs_closed rs then (rs, 0%Z, [(cancel, ErrConnectionClosed)])
  else
    let seq := wrapU64 (rs_reqSeq rs + 1) in
    (ReqState (<[id := Inflight seq cancel method subscribe started false false]>
                 (rs_requests rs)) false seq,
     seq, oldCalls rs id).

Definition unregisterRequest (rs : reqState) (id : string) (seq : Z) : reqState * bool :=
  match rs_requests rs !! id with
  | None => (rs, false)
  | Some e =>
      if bool_decide (seq ≠ 0%Z) && bool_decide (if_seq e = seq)
      then (ReqState (delete id (rs_requests rs)) (rs_closed rs) (rs_reqSeq rs),
            if_refreshAgain e)
      else (rs, false)
  end.

Definition markAgain (e : inflight) : inflight :=
  Inflight (if_seq e) (if_cancel e) (if_method e) (if_subscribe e) (if_started e)
    (if_refresh e) true.

(** The results are [(seq, ok)] and the cancel calls made after the lock. *)
Definition registerRefresh (rs : reqState) (id method : string) (started : Z) (cancel : nat)
    : reqState * Z * bool * list (nat * cause) :=
  if rs_closed rs then (rs, 0%Z, false, [(cancel, ErrConnectionClosed)])
  else
    let go :=
      let seq := wrapU64 (rs_reqSeq rs + 1) in
      (ReqState (<[id := Inflight seq cancel method true started true false]>
                   (rs_requests rs)) false seq,
       seq, true, oldCalls rs id) in
    match rs_requests rs !! id with
    | Some cur =>
        if negb (if_refresh cur)
        then (ReqState (<[id := markAgain cur]> (rs_requests rs)) false (rs_reqSeq rs),
              0%Z, false, [(cancel, CauseNil)])
        else go
    | None => go
    end.

Definition cancelRequest (rs : reqState) (id : string) : list (nat * cause) :=
  match rs_requests rs !! id with
  | None => []
  | Some e => [(if_cancel e, ErrClientCanceled)]
  end.

(** The part of [closeWithCause] under [c.mu]; the cancels run under the lock.
    The flag says whether this call performed the transition. *)
Definition closeWithCause (rs : reqState) (k : cause) : reqState * bool * list (nat * cause) :=
  if rs_closed rs then (rs, false, [])
  else (ReqState (rs_requests rs) true (rs_reqSeq rs), true,
        (λ ie, (if_cancel ie.2, k)) <$> map_to_list (rs_requests rs)).

(** *** Introspection *)

Definition InFlightRequests (rs : reqState) : nat := size (rs_requests rs).

(** [requestAge]: a duration, floored at zero. *)
Definition requestAge (now started : Z) : Z :=
  if bool_decide (0 < now - started)%Z then (now - started)%Z else 0%Z.

Record InFlightRequest := InFlight {
  ifr_id : string; ifr_method : string; ifr_subscribe : bool; ifr_age : Z;
}.

Definition appendInFlight (rs : reqState) (dst : list InFlightRequest) (now : Z)
    : list InFlightRequest :=
  dst ++ ((λ ie, InFlight ie.1 (if_method ie.2) (if_subscribe ie.2)
                  (requestAge now (if_started ie.2))) <$> map_to_list (rs_requests rs)).

Definition inFlightStats (rs : reqState) (now : Z) : nat * Z :=
  (size (rs_requests rs),
   map_fold (λ _ e oldest,
     if bool_decide (oldest < requestAge now (if_started e))%Z
     then requestAge now (if_started e) else oldest) 0%Z (rs_requests rs)).

(** *** Facts *)

Lemma inFlightStats_spec rs now :
  let '(n, oldest) := inFlightStats rs now in
  n = InFlightRequests rs ∧ (0 ≤ oldest)%Z ∧
  (∀ id e, rs_requests rs !! id = Some e → requestAge now (if_started e) ≤ oldest)%Z ∧
  (oldest = 0%Z ∨ ∃ id e, rs_requests rs !! id = Some e ∧ oldest = requestAge now (if_started e)).
Proof.
  unfold inFlightStats, InFlightRequests. split; [done|].
  apply (map_fold_weak_ind (λ o m, (0 ≤ o)%Z ∧
    (∀ id e, m !! id = Some e → requestAge now (if_started e) ≤ o)%Z ∧
    (o = 0%Z ∨ ∃ id e, m !! id = Some e ∧ o = requestAge now (if_started e)))).
  - split_and!; [done|by setoid_rewrite lookup_empty|by left].
  - intros id e m o Hid (H0 & Hmax & Hex). case_bool_decide as Hd; split_and!.
    + lia.
    + intros id' e'. rewrite lookup_insert_Some. intros [[_ <-]|[_ Hm]]; [done|].
      specialize (Hmax _ _ Hm). lia.
    + right. exists id, e. by rewrite lookup_insert_eq.
    + done.
    + intros id' e'. rewrite lookup_insert_Some. intros [[_ <-]|[_ Hm]]; [lia|eauto].
    + destruct Hex as [->|(id' & e' & Hm & ->)]; [by left|]. right. exists id', e'.
      rewrite lookup_insert_ne; naive_solver.
Qed.

(** *** The whole server *)

Record ServerStats := StatsOf {
  st_Connections : nat; st_Subscriptions : nat; st_InFlightRequests : nat; st_OldestRequestAge : Z;
}.

(** [Server.Stats] over a snapshot of the connections. *)
Definition Stats (conns : list reqState) (subscriptions : nat) (now : Z) : ServerStats :=
  foldl (λ st c,
    let '(count, oldest) := inFlightStats c now in
    StatsOf (st_Connections st) (st_Subscriptions st) (st_InFlightRequests st + count)
      (if bool_decide (st_OldestRequestAge st < oldest)%Z then oldest else st_OldestRequestAge st))
    (StatsOf (length conns) subscriptions 0 0) conns.

(** [Server.InFlightRequests]. *)
Definition allInFlight (conns : list reqState) (now : Z) : list InFlightRequest :=
  foldl (λ out c, appendInFlight c out now) [] conns.

(** The counts agree with the list, and the oldest age bounds its ages. *)
Lemma Stats_agree conns subs now :
  st_Connections (Stats conns subs now) = length conns ∧
  st_InFlightRequests (Stats conns subs now) = length (allInFlight conns now) ∧
  Forall (λ r, (ifr_age r ≤ st_OldestRequestAge (Stats conns subs now))%Z) (allInFlight conns now).
Proof.
  unfold Stats, allInFlight. generalize (length conns) as n. intros n.
  enough (∀ st out, st_InFlightRequests st = length out → Forall (λ r, (ifr_age r ≤ st_OldestRequestAge st)%Z) out →
    let st' := foldl (λ st c, let '(count, oldest) := inFlightStats c now in
      StatsOf (st_Connections st) (st_Subscriptions st) (st_InFlightRequests st + count)
        (if bool_decide (st_OldestRequestAge st < oldest)%Z then oldest else st_OldestRequestAge st)) st conns in
    let out' := foldl (λ out c, appendInFlight c out now) out conns in
    st_Connections st' = st_Connections st ∧ st_InFlightRequests st' = length out' ∧
    Forall (λ r, (ifr_age r ≤ st_OldestRequestAge st')%Z) out') as H.
  { by apply (H (StatsOf n subs 0 0) []). }
  induction conns as [|c conns IH]; intros st out Hl Ha; [done|]. cbn [foldl].
  pose proof (inFlightStats_spec c now) as Hs. destruct (inFlightStats c now) as [count oldest].
  destruct Hs as (-> & H0 & Hmax & _).
  apply (IH (StatsOf _ _ _ _)); cbn [st_InFlightRequests st_OldestRequestAge]; unfold appendInFlight.
  - rewrite length_app, length_fmap, length_map_to_list. unfold InFlightRequests. lia.
  - apply Forall_app. split.
    + eapply Forall_impl; [exact Ha|]. intros r Hr. cbn in *. case_bool_decide; lia.
    + apply Forall_fmap, Forall_forall. intros [id e] Hin%elem_of_map_to_list. cbn.
      specialize (Hmax id e Hin). case_bool_decide; lia.
Qed.

End Requests.

Module RequestMachine.
Import Requests.

(** ** The machine *)

(** A context is [None] while live and [Some cause] once cancelled; the first
    cancel of a context decides its cause. *)
Definition fireCancel (nk : nat * cause) (cx : gmap nat (option cause))
    : gmap nat (option cause) :=
  match cx !! nk.1 with
  | Some None => <[nk.1 := Some nk.2]> cx
  | _ => cx
  end.

(** What the deferred refreshes of the connection go through: [d_subs] are its ids in the
    subscription index, [d_due] the ids that finishing goroutines hand to
    [runDeferredRefresh], [d_spawned] the goroutines [refreshSubscription] it has started
    (the flag says whether they are past the check that the subscription exists), and
    [d_begun] the refreshes that went on to run the handler. *)
Record deferral := Deferral {
  d_subs : gset string;
  d_due : list string;
  d_spawned : list (string * bool);
  d_begun : list string;
}.

Record machine := Machine {
  m_rs : reqState;
  m_next : nat;                          (** the next context *)
  m_ctx : gmap nat (option cause);
  m_run : gmap nat (string * Z);         (** running goroutines: request id and token *)
  m_calls : list (nat * cause);          (** cancel calls still to be made *)
  m_due : deferral;
}.

Definition initMachine : machine := Machine newReqState 0 ∅ ∅ [] (Deferral ∅ [] [] []).

Inductive event :=
  | EvBegin (id method : string) (subscribe : bool) (started : Z)   (** [beginRequest] *)
  | EvRefresh (id method : string) (started : Z)                    (** [refreshSubscription] *)
  | EvFinish (n : nat)           (** the deferred cleanup of the goroutine of context [n] *)
  | EvCancel (id : string)       (** a cancel or unsubscribe frame *)
  | EvClose (k : cause)          (** [closeWithCause] *)
  | EvCall (j : nat)             (** the [j]-th outstanding cancel call runs *)
  | EvSubscribe (id : string)    (** a subscribe commits to the index *)
  | EvUnsubscribe (id : string)  (** [handleUnsubscribe] *)
  | EvSweep                      (** [unregisterConn], by a close *)
  | EvDeferred (j : nat)         (** the [j]-th due [runDeferredRefresh] looks up its id *)
  | EvSpawned (j : nat) (method : string) (started : Z).
                                 (** a section of the [j]-th goroutine it started *)

Definition setDue (d : deferral) (m : machine) : machine :=
  Machine (m_rs m) (m_next m) (m_ctx m) (m_run m) (m_calls m) d.

Definition addDue (id : string) (d : deferral) : deferral :=
  Deferral (d_subs d) (d_due d ++ [id]) (d_spawned d) (d_begun d).

Definition addBegun (id : string) (d : deferral) : deferral :=
  Deferral (d_subs d) (d_due d) (d_spawned d) (d_begun d ++ [id]).

Definition setSubs (subs : gset string) (d : deferral) : deferral :=
  Deferral subs (d_due d) (d_spawned d) (d_begun d).

Definition setSpawned (l : list (string * bool)) (d : deferral) : deferral :=
  Deferral (d_subs d) (d_due d) l (d_begun d).

(** [runDeferredRefresh]: it looks the subscription up and starts its refresh. *)
Definition runDeferredRefresh (j : nat) (d : deferral) : deferral :=
  match d_due d !! j with
  | None => d
  | Some id =>
      Deferral (d_subs d) (delete j (d_due d))
        (if decide (id ∈ d_subs d) then d_spawned d ++ [(id, false)] else d_spawned d) (d_begun d)
  end.

Definition beginRequest (m : machine) (id method : string) (subscribe : bool) (started : Z)
    : machine :=
  let n := m_next m in
  let '(rs, seq, calls) := registerRequest (m_rs m) id method subscribe started n in
  Machine rs (S n) (<[n := None]> (m_ctx m)) (<[n := (id, seq)]> (m_run m))
    (m_calls m ++ calls) (m_due m).

Definition beginRefresh (m : machine) (id method : string) (started : Z) : machine :=
  let n := m_next m in
  let '(rs, seq, ok, calls) := registerRefresh (m_rs m) id method started n in
  Machine rs (S n) (<[n := None]> (m_ctx m))
    (if ok then <[n := (id, seq)]> (m_run m) else m_run m)
    (m_calls m ++ calls) (if ok then addBegun id (m_due m) else m_due m).

(** [refreshSubscription] up to its handler: the check that the subscription exists, then
    [registerRefresh]. *)
Definition refreshSubscription (m : machine) (j : nat) (method : string) (started : Z) : machine :=
  let d := m_due m in
  match d_spawned d !! j with
  | None => m
  | Some (id, false) =>
      setDue (setSpawned (if decide (id ∈ d_subs d) then <[j := (id, true)]> (d_spawned d)
                          else delete j (d_spawned d)) d) m
  | Some (id, true) => beginRefresh (setDue (setSpawned (delete j (d_spawned d)) d) m) id method started
  end.

(** [unregisterRequest] and [reg.cancel(nil)]; the call of [runDeferredRefresh] is left to
    do. A refresh goroutine ignores the flag, and its own entry never carries it. *)
Definition finish (m : machine) (n : nat) : machine :=
  match m_run m !! n with
  | None => m
  | Some (id, seq) =>
      let '(rs, again) := unregisterRequest (m_rs m) id seq in
      Machine rs (m_next m) (m_ctx m) (delete n (m_run m))
        (m_calls m ++ [(n, CauseNil)])
        (if again then addDue id (m_due m) else m_due m)
  end.

Definition close (m : machine) (k : cause) : machine :=
  let '(rs, did, calls) := closeWithCause (m_rs m) k in
  Machine rs (m_next m) (foldr fireCancel (m_ctx m) calls) (m_run m) (m_calls m) (m_due m).

Definition step (m : machine) (e : event) : machine :=
  match e with
  | EvBegin id method sub st => beginRequest m id method sub st
  | EvRefresh id method st => beginRefresh m id method st
  | EvFinish n => finish m n
  | EvCancel id =>
      Machine (m_rs m) (m_next m) (m_ctx m) (m_run m)
        (m_calls m ++ cancelRequest (m_rs m) id) (m_due m)
  | EvClose k => close m k
  | EvCall j =>
      match m_calls m !! j with
      | None => m
      | Some nk =>
          Machine (m_rs m) (m_next m) (fireCancel nk (m_ctx m)) (m_run m)
            (delete j (m_calls m)) (m_due m)
      end
  | EvSubscribe id =>
      if rs_closed (m_rs m) then m
      else setDue (setSubs ({[id]} ∪ d_subs (m_due m)) (m_due m)) m
  | EvUnsubscribe id => setDue (setSubs (d_subs (m_due m) ∖ {[id]}) (m_due m)) m
  | EvSweep => if rs_closed (m_rs m) then setDue (setSubs ∅ (m_due m)) m else m
  | EvDeferred j => setDue (runDeferredRefresh j (m_due m)) m
  | EvSpawned j method started => refreshSubscription m j method started
  end.

(** ** The invariant *)

Definition live (m : machine) (n : nat) : Prop := m_ctx m !! n = Some None.

(** A cancel of context [n] is on its way. *)
Definition pending (m : machine) (n : nat) : Prop := ∃ k, (n, k) ∈ m_calls m.

Record inv (m : machine) : Prop := {
  (** an entry belongs to a running goroutine, which holds its token *)
  inv_entry id e : rs_requests (m_rs m) !! id = Some e →
    (0 < if_seq e)%Z ∧ m_run m !! if_cancel e = Some (id, if_seq e);
  inv_run n id seq : m_run m !! n = Some (id, seq) →
    n < m_next m ∧ (0 ≤ seq ≤ rs_reqSeq (m_rs m))%Z;
  (** tokens are unique *)
  inv_token n n' id id' seq : m_run m !! n = Some (id, seq) →
    m_run m !! n' = Some (id', seq) → seq ≠ 0%Z → n = n';
  (** no orphans: a live context of a running goroutine is registered, or its
      cancel is on its way *)
  inv_orphan n id seq : m_run m !! n = Some (id, seq) → live m n →
    (∃ e, rs_requests (m_rs m) !! id = Some e ∧ if_cancel e = n) ∨ pending m n;
  (** once closed, registered or not, a live context is about to be cancelled *)
  inv_closed n x : rs_closed (m_rs m) = true → m_run m !! n = Some x → live m n →
    pending m n;
  inv_seq : (0 ≤ rs_reqSeq (m_rs m) ≤ Z.of_nat (m_next m))%Z;
  inv_ctx n x : m_run m !! n = Some x → is_Some (m_ctx m !! n);
}.

Lemma fireCancel_live nk cx n :
  fireCancel nk cx !! n = Some None → cx !! n = Some None ∧ n ≠ nk.1.
Proof.
  unfold fireCancel. destruct (cx !! nk.1) as [[c|]|] eqn:E; intros Hn;
    [naive_solver| |naive_solver].
  apply lookup_insert_Some in Hn. naive_solver.
Qed.

Lemma fireCancel_Some nk cx n : is_Some (cx !! n) → is_Some (fireCancel nk cx !! n).
Proof.
  intros Hn. unfold fireCancel. destruct (cx !! nk.1) as [[c|]|] eqn:E; [done| |done].
  destruct (decide (nk.1 = n)) as [->|Hne].
  - rewrite lookup_insert_eq. eauto.
  - by rewrite lookup_insert_ne.
Qed.

Lemma fireCancel_all_live calls cx n :
  foldr fireCancel cx calls !! n = Some None → cx !! n = Some None ∧ n ∉ calls.*1.
Proof.
  induction calls as [|nk calls IH]; simpl.
  - intros. split; [done|]. apply not_elem_of_nil.
  - intros [H Hn]%fireCancel_live. apply IH in H as [H Hn']. split; [done|].
    by rewrite not_elem_of_cons.
Qed.

Lemma fireCancel_mono nk cx n k : cx !! n = Some (Some k) → fireCancel nk cx !! n = Some (Some k).
Proof.
  intros H. unfold fireCancel. destruct (cx !! nk.1) as [[c|]|] eqn:E; [done| |done].
  rewrite lookup_insert_ne; [done|]. intros Heq. congruence.
Qed.

Lemma pending_app m rs nx cx rn ds calls n :
  pending m n → pending (Machine rs nx cx rn (m_calls m ++ calls) ds) n.
Proof. intros [k Hk]. exists k. simpl. set_solver. Qed.

Lemma pending_new m rs nx cx rn ds calls n k :
  (n, k) ∈ calls → pending (Machine rs nx cx rn (m_calls m ++ calls) ds) n.
Proof. intros Hk. exists k. simpl. set_solver. Qed.

#[local] Hint Resolve pending_app pending_new : core.

Lemma run_fresh m n x : inv m → m_run m !! n = Some x → n ≠ m_next m.
Proof. intros Hi Hn. destruct x. apply (inv_run _ Hi) in Hn. lia. Qed.

(** Registering the next context under [id], for a request or a refresh. *)
Lemma inv_insert m id e ds :
  inv m → (Z.of_nat (m_next m) < 2 ^ 64 - 1)%Z →
  rs_closed (m_rs m) = false →
  if_seq e = wrapU64 (rs_reqSeq (m_rs m) + 1) → if_cancel e = m_next m →
  inv (Machine
    (ReqState (<[id := e]> (rs_requests (m_rs m))) false (if_seq e))
    (S (m_next m)) (<[m_next m := None]> (m_ctx m))
    (<[m_next m := (id, if_seq e)]> (m_run m))
    (m_calls m ++ oldCalls (m_rs m) id) ds).
Proof.
  intros Hi Hlt Hcl Hs Hc. pose proof (inv_seq _ Hi) as Hseq.
  rewrite wrapU64_id in Hs by lia.
  split; cbn [m_rs m_next m_ctx m_run m_calls rs_requests rs_reqSeq rs_closed].
  - intros id' e'. rewrite lookup_insert_Some. intros [[<- <-]|[Hne He]].
    + rewrite Hc, lookup_insert_eq. split; [lia|done].
    + destruct (inv_entry _ Hi _ _ He) as [? Hr]. split; [done|].
      rewrite lookup_insert_ne; [done|]. apply not_eq_sym. eauto using run_fresh.
  - intros n id' seq. rewrite lookup_insert_Some. intros [[<- [= <- <-]]|[Hne Hr]]; [lia|].
    apply (inv_run _ Hi) in Hr. lia.
  - intros n n' id1 id2 seq. rewrite !lookup_insert_Some.
    intros [[<- [= <- <-]]|[Hne Hr]] [[<- ?]|[Hne' Hr']] Hz; simplify_eq; try done.
    + apply (inv_run _ Hi) in Hr'. lia.
    + apply (inv_run _ Hi) in Hr. lia.
    + by eapply (inv_token _ Hi).
  - unfold live. cbn [m_ctx]. intros n id' seq. rewrite lookup_insert_Some.
    intros [[<- [= <- <-]]|[Hne Hr]] Hl.
    + left. exists e. by rewrite lookup_insert_eq.
    + rewrite lookup_insert_ne in Hl by done.
      destruct (inv_orphan _ Hi _ _ _ Hr Hl) as [(e' & He & <-)|Hp]; [|by eauto].
      destruct (decide (id' = id)) as [->|Hid].
      * right. apply (pending_new _ _ _ _ _ _ _ _ ErrClientCanceled).
        unfold oldCalls. rewrite He. set_solver.
      * left. exists e'. by rewrite lookup_insert_ne.
  - done.
  - lia.
  - intros n x Hr. apply lookup_insert_Some in Hr as [[<- _]|[Hne Hr]].
    + rewrite lookup_insert_eq. eauto.
    + rewrite lookup_insert_ne by done. by eapply inv_ctx.
Qed.

Lemma inv_closed_begin m id seq x ds k :
  inv m → rs_closed (m_rs m) = true → seq = 0%Z →
  x = <[m_next m := (id, seq)]> (m_run m) ∨ x = m_run m →
  inv (Machine (m_rs m) (S (m_next m)) (<[m_next m := None]> (m_ctx m)) x
    (m_calls m ++ [(m_next m, k)]) ds).
Proof.
  intros Hi Hcl -> Hx. pose proof (inv_seq _ Hi) as Hseq.
  assert (∀ n y, x !! n = Some y → n = m_next m ∧ y = (id, 0%Z) ∨
    n ≠ m_next m ∧ m_run m !! n = Some y) as Hrun.
  { intros n y Hy. destruct Hx as [->| ->].
    - apply lookup_insert_Some in Hy. naive_solver.
    - right. eauto using run_fresh. }
  split; cbn [m_rs m_next m_ctx m_run m_calls].
  - intros id' e He. destruct (inv_entry _ Hi _ _ He) as [? Hr]. split; [done|].
    destruct Hx as [->| ->]; [|done]. rewrite lookup_insert_ne; [done|].
    apply not_eq_sym. eauto using run_fresh.
  - intros n id' s [[-> [= -> ->]]|[_ Hr]]%Hrun; [lia|]. apply (inv_run _ Hi) in Hr. lia.
  - intros n n' i1 i2 s [[-> [= -> ->]]|[_ Hr]]%Hrun [[-> ?]|[_ Hr']]%Hrun Hz;
      simplify_eq; try done. by eapply (inv_token _ Hi).
  - unfold live. cbn [m_ctx]. intros n id' s [[-> [= -> ->]]|[Hne Hr]]%Hrun Hl.
    + right. apply (pending_new _ _ _ _ _ _ _ _ k). set_solver.
    + rewrite lookup_insert_ne in Hl by done.
      destruct (inv_orphan _ Hi _ _ _ Hr Hl); eauto.
  - unfold live. cbn [m_ctx]. intros n y _ [[-> ->]|[Hne Hr]]%Hrun Hl.
    + apply (pending_new _ _ _ _ _ _ _ _ k). set_solver.
    + rewrite lookup_insert_ne in Hl by done.
      pose proof (inv_closed _ Hi _ _ Hcl Hr Hl). eauto.
  - lia.
  - intros n y [[-> _]|[Hne Hr]]%Hrun.
    + rewrite lookup_insert_eq. eauto.
    + rewrite lookup_insert_ne by done. by eapply inv_ctx.
Qed.

Lemma inv_begin m id method sub st :
  inv m → (Z.of_nat (m_next m) < 2 ^ 64 - 1)%Z → inv (beginRequest m id method sub st).
Proof.
  intros Hi Hlt. unfold beginRequest, registerRequest.
  destruct (rs_closed (m_rs m)) eqn:Hcl.
  - eapply inv_closed_begin; eauto.
  - by eapply (inv_insert m id (Inflight _ _ _ _ _ _ _) _).
Qed.

(** Nothing about running contexts changes. *)
Lemma inv_calls m rs ds calls nx cx :
  inv m → rs_closed rs = rs_closed (m_rs m) → rs_reqSeq rs = rs_reqSeq (m_rs m) →
  (∀ id e, rs_requests rs !! id = Some e →
    ∃ e', rs_requests (m_rs m) !! id = Some e' ∧ if_seq e' = if_seq e ∧ if_cancel e' = if_cancel e) →
  (∀ id e', rs_requests (m_rs m) !! id = Some e' →
    ∃ e, rs_requests rs !! id = Some e ∧ if_cancel e' = if_cancel e) →
  m_next m ≤ nx →
  (∀ n, n < m_next m → cx !! n = m_ctx m !! n) →
  inv (Machine rs nx cx (m_run m) (m_calls m ++ calls) ds).
Proof.
  intros Hi Hcl Hsq He He' Hnx Hcx. pose proof (inv_seq _ Hi).
  split; cbn [m_rs m_next m_ctx m_run m_calls].
  - intros id e (e' & E & <- & <-)%He. by apply (inv_entry _ Hi).
  - rewrite Hsq. intros n id s Hr%(inv_run _ Hi). lia.
  - apply (inv_token _ Hi).
  - intros n id s Hr Hl. assert (live m n) as Hl'.
    { unfold live in *. simpl in Hl. rewrite Hcx in Hl; [done|]. by apply (inv_run _ Hi) in Hr as []. }
    destruct (inv_orphan _ Hi _ _ _ Hr Hl') as [(e & E & <-)|]; [|by eauto].
    left. apply He' in E as (e' & E & ->). eauto.
  - rewrite Hcl. intros n [id s] Hc Hr Hl. assert (live m n) as Hl'.
    { unfold live in *. simpl in Hl. rewrite Hcx in Hl; [done|]. by apply (inv_run _ Hi) in Hr as []. }
    pose proof (inv_closed _ Hi _ _ Hc Hr Hl'). eauto.
  - rewrite Hsq. lia.
  - intros n [id s] Hr. rewrite Hcx; [by eapply inv_ctx|]. by apply (inv_run _ Hi) in Hr as [].
Qed.

Lemma inv_refresh m id method st :
  inv m → (Z.of_nat (m_next m) < 2 ^ 64 - 1)%Z → inv (beginRefresh m id method st).
Proof.
  intros Hi Hlt. unfold beginRefresh, registerRefresh.
  destruct (rs_closed (m_rs m)) eqn:Hcl; [eapply (inv_closed_begin m id 0); eauto|].
  destruct (rs_requests (m_rs m) !! id) as [cur|] eqn:Hid.
  2: by eapply (inv_insert m id (Inflight _ _ _ _ _ _ _) _).
  destruct (if_refresh cur); simpl;
    [by eapply (inv_insert m id (Inflight _ _ _ _ _ _ _) _)|].
  apply inv_calls; [done|done|done|..|lia|].
  - intros id' e. cbn [rs_requests]. rewrite lookup_insert_Some.
    intros [[<- <-]|[_ E]]; [by exists cur|eauto].
  - intros id' e' E. cbn [rs_requests]. destruct (decide (id' = id)) as [->|].
    + rewrite lookup_insert_eq. exists (markAgain cur). naive_solver.
    + rewrite lookup_insert_ne by done. eauto.
  - intros n Hn. by rewrite lookup_insert_ne by lia.
Qed.

(** A goroutine's cleanup removes its own entry and no other. *)
Lemma unregister_own m n id seq rs again :
  inv m → m_run m !! n = Some (id, seq) →
  unregisterRequest (m_rs m) id seq = (rs, again) →
  rs_closed rs = rs_closed (m_rs m) ∧ rs_reqSeq rs = rs_reqSeq (m_rs m) ∧
  (∀ id' e, rs_requests rs !! id' = Some e ↔
    rs_requests (m_rs m) !! id' = Some e ∧ if_cancel e ≠ n) ∧
  (∀ e, rs_requests (m_rs m) !! id = Some e → if_cancel e = n → again = if_refreshAgain e).
Proof.
  intros Hi Hn Hu. unfold unregisterRequest in Hu.
  assert (∀ id' e, rs_requests (m_rs m) !! id' = Some e → if_cancel e = n →
    id' = id ∧ if_seq e = seq ∧ seq ≠ 0%Z) as Hown.
  { intros id' e E <-. destruct (inv_entry _ Hi _ _ E) as [? Hr]. rewrite Hn in Hr. injection Hr as -> ->.
    split_and!; [done|done|lia]. }
  destruct (rs_requests (m_rs m) !! id) as [e|] eqn:Hid; last first.
  { simplify_eq. split_and!; [done|done| |done]. intros id' e.
    split; [|naive_solver]. intros E. split; [done|]. naive_solver. }
  destruct (inv_entry _ Hi _ _ Hid) as [Hz Hr].
  case_bool_decide as H1; [case_bool_decide as H2|]; simplify_eq/=;
    (split_and!; [done|done| |]).
  - intros id' e'. rewrite lookup_delete_Some. split.
    + intros [Hne E]. split; [done|]. intros Hc. by apply Hown in E as [? _].
    + intros [E Hc]. split; [|done]. intros <-. simplify_eq. apply Hc.
      by eapply (inv_token _ Hi).
  - naive_solver.
  - intros id' e'. split; [|naive_solver]. intros E. split; [done|]. naive_solver.
  - naive_solver.
  - intros id' e'. split; [|naive_solver]. intros E. split; [done|]. naive_solver.
  - naive_solver.
Qed.

Lemma inv_finish m n : inv m → inv (finish m n).
Proof.
  intros Hi. unfold finish. destruct (m_run m !! n) as [[id seq]|] eqn:Hn; [|done].
  pose proof (inv_seq _ Hi) as Hseq.
  destruct (unregisterRequest (m_rs m) id seq) as [rs again] eqn:Hu.
  destruct (unregister_own _ _ _ _ _ _ Hi Hn Hu) as (Hcl & Hsq & He & _).
  assert (∀ n' x, delete n (m_run m) !! n' = Some x → n' ≠ n ∧ m_run m !! n' = Some x) as Hrun.
  { intros n' x. rewrite lookup_delete_Some. naive_solver. }
  split; cbn [m_rs m_next m_ctx m_run m_calls].
  - intros id' e [E Hc]%He. destruct (inv_entry _ Hi _ _ E). split; [done|].
    by rewrite lookup_delete_ne by done.
  - intros n' i s [_ Hr]%Hrun. rewrite Hsq. by apply (inv_run _ Hi) in Hr.
  - intros n1 n2 i1 i2 s [_ Hr1]%Hrun [_ Hr2]%Hrun. by eapply (inv_token _ Hi).
  - intros n' i s [Hne Hr]%Hrun Hl.
    destruct (inv_orphan _ Hi _ _ _ Hr Hl) as [(e & E & <-)|]; [|by eauto].
    left. exists e. split; [by apply He|done].
  - rewrite Hcl. intros n' x Hc [Hne Hr]%Hrun Hl.
    pose proof (inv_closed _ Hi _ _ Hc Hr Hl). eauto.
  - by rewrite Hsq.
  - intros n' x [_ Hr]%Hrun. by eapply inv_ctx.
Qed.

Lemma inv_close m k : inv m → inv (close m k).
Proof.
  intros Hi. unfold close, closeWithCause. destruct (rs_closed (m_rs m)) eqn:Hcl; simpl.
  { by destruct m. }
  set (calls := (λ ie : string * inflight, (if_cancel ie.2, k)) <$> map_to_list _).
  assert (∀ n, foldr fireCancel (m_ctx m) calls !! n = Some None →
    live m n ∧ ∀ id e, rs_requests (m_rs m) !! id = Some e → if_cancel e ≠ n) as Hl.
  { intros n [H Hn]%fireCancel_all_live. split; [done|]. intros id e E <-. apply Hn.
    unfold calls. rewrite <- list_fmap_compose.
    apply list_elem_of_fmap. exists (id, e). split; [done|]. by apply elem_of_map_to_list. }
  assert (∀ n calls cx, is_Some (cx !! n) → is_Some (foldr fireCancel cx calls !! n)) as Hsome.
  { intros n l cx Hn. induction l as [|nk l IH]; simpl; [done|]. by apply fireCancel_Some. }
  destruct Hi as [H1 H2 H3 H4 H5 H6 H7].
  split; cbn [m_rs m_next m_ctx m_run m_calls rs_requests rs_reqSeq rs_closed]; try done.
  - intros n id s Hr [Hlv _]%Hl. eauto.
  - intros n [id s] _ Hr [Hlv Hne]%Hl. destruct (H4 _ _ _ Hr Hlv) as [(e & E & <-)|]; [|done].
    by apply Hne in E.
  - eauto.
Qed.

Lemma inv_call m j nk :
  inv m → m_calls m !! j = Some nk →
  inv (Machine (m_rs m) (m_next m) (fireCancel nk (m_ctx m)) (m_run m)
            (delete j (m_calls m)) (m_due m)).
Proof.
  intros [H1 H2 H3 H4 H5 H6 H7] Hj.
  assert (∀ n, n ≠ nk.1 → pending m n → pending (Machine (m_rs m) (m_next m)
    (fireCancel nk (m_ctx m)) (m_run m) (delete j (m_calls m)) (m_due m)) n) as Hp.
  { intros n Hne [k Hk]. exists k. simpl. apply list_elem_of_lookup in Hk as [i Hi].
    assert (i ≠ j) as Hij by (intros ->; simplify_eq; done).
    apply list_elem_of_lookup. destruct (decide (i < j)).
    - exists i. by rewrite list_lookup_delete_lt.
    - exists (pred i). rewrite list_lookup_delete_ge by lia. by replace (S (pred i)) with i by lia. }
  split; cbn [m_rs m_next m_ctx m_run m_calls]; try done.
  - intros n id s Hr [Hl Hn]%fireCancel_live. destruct (H4 _ _ _ Hr Hl); eauto.
  - intros n x Hc Hr [Hl Hn]%fireCancel_live. eauto.
  - intros n x Hr. eauto using fireCancel_Some.
Qed.

Lemma inv_setDue m d : inv m → inv (setDue d m).
Proof. by intros [H1 H2 H3 H4 H5 H6 H7]; split. Qed.

Lemma step_inv m e : inv m → (Z.of_nat (m_next m) < 2 ^ 64 - 1)%Z → inv (step m e).
Proof.
  intros Hi Hlt.
  destruct e as [id method sub st|id method st|n|id|k|j|id|id| |j|j method st]; simpl.
  - by apply inv_begin.
  - by apply inv_refresh.
  - by apply inv_finish.
  - apply inv_calls; eauto.
  - by apply inv_close.
  - destruct (m_calls m !! j) eqn:Hj; [|done]. by apply inv_call.
  - destruct (rs_closed (m_rs m)); [done|]. by apply inv_setDue.
  - by apply inv_setDue.
  - destruct (rs_closed (m_rs m)); [|done]. by apply inv_setDue.
  - by apply inv_setDue.
  - unfold refreshSubscription. destruct (d_spawned _ !! j) as [[id []]|]; [|by apply inv_setDue|done].
    apply inv_refresh; [by apply inv_setDue|done].
Qed.

Lemma step_next m e : m_next m ≤ m_next (step m e) ≤ S (m_next m).
Proof.
  assert (Hr : ∀ m id method st, m_next (beginRefresh m id method st) = S (m_next m)).
  { intros m' id method st. unfold beginRefresh.
    by destruct (registerRefresh _ _ _ _ _) as [[[??]?]?]. }
  destruct e as [id method sub st|id method st|n|id|k|j|id|id| |j|j method st]; simpl.
  - unfold beginRequest. destruct (registerRequest _ _ _ _ _ _) as [[??]?]. simpl. lia.
  - rewrite Hr. lia.
  - unfold finish. destruct (m_run m !! n) as [[??]|]; [|lia].
    destruct (unregisterRequest _ _ _). simpl. lia.
  - lia.
  - unfold close. destruct (closeWithCause _ _) as [[??]?]. simpl. lia.
  - destruct (m_calls m !! j); simpl; lia.
  - destruct (rs_closed (m_rs m)); simpl; lia.
  - lia.
  - destruct (rs_closed (m_rs m)); simpl; lia.
  - lia.
  - unfold refreshSubscription. destruct (d_spawned _ !! j) as [[id []]|]; rewrite ?Hr; simpl; lia.
Qed.

Lemma inv_init : inv initMachine.
Proof. split; simpl; try (by setoid_rewrite lookup_empty); done. Qed.

(** Fewer than 2^64 registrations: the token never wraps. *)
Definition few (evs : list event) : Prop := (Z.of_nat (length evs) < 2 ^ 64 - 1)%Z.

Lemma runs_inv_from m evs :
  inv m → (Z.of_nat (m_next m + length evs) < 2 ^ 64 - 1)%Z →
  inv (runs step m evs) ∧ m_next (runs step m evs) ≤ m_next m + length evs.
Proof.
  revert m. induction evs as [|e evs IH]; intros m Hi Hlt; simpl in *; [split; [done|lia]|].
  pose proof (step_next m e). destruct (IH (step m e)); [apply step_inv; [done|lia]|lia|].
  split; [done|lia].
Qed.

Lemma runs_inv evs : few evs → inv (runs step initMachine evs).
Proof. intros H. apply runs_inv_from; [apply inv_init|done]. Qed.

(** The entry a deferred refresh is waiting on. *)
Definition marked (m : machine) (id : string) (n : nat) : Prop :=
  ∃ e, rs_requests (m_rs m) !! id = Some e ∧ if_cancel e = n ∧
       if_refresh e = false ∧ if_refreshAgain e = true.

(** The events that leave a marked entry alone: anything but another frame with
    the same id and the end of its own goroutine. *)
Definition keepsMark (id : string) (n : nat) (e : event) : Prop :=
  match e with
  | EvBegin id' _ _ _ => id' ≠ id
  | EvFinish n' => n' ≠ n
  | _ => True
  end.

Lemma finish_entries m n id e :
  inv m → is_Some (m_run m !! n) →
  rs_requests (m_rs (finish m n)) !! id = Some e ↔
  rs_requests (m_rs m) !! id = Some e ∧ if_cancel e ≠ n.
Proof.
  intros Hi [[id' seq] Hn]. unfold finish. rewrite Hn.
  destruct (unregisterRequest _ _ _) as [rs again] eqn:Hu. simpl.
  by destruct (unregister_own _ _ _ _ _ _ Hi Hn Hu) as (_ & _ & -> & _).
Qed.

Lemma marked_refresh m id n id' method st :
  marked m id n → marked (beginRefresh m id' method st) id n.
Proof.
  intros (en & E & Hc & Hr & Ha). unfold beginRefresh, registerRefresh.
  destruct (rs_closed (m_rs m)); [by exists en|]. destruct (decide (id' = id)) as [->|Hne].
  - rewrite E, Hr. simpl. exists (markAgain en). simpl. by rewrite lookup_insert_eq.
  - destruct (rs_requests (m_rs m) !! id') as [cur|];
      [destruct (if_refresh cur)|]; exists en; simpl; rewrite ?lookup_insert_ne by done; done.
Qed.

Lemma marked_step m id n e :
  inv m → marked m id n → keepsMark id n e → marked (step m e) id n.
Proof.
  intros Hi Hm Hk. pose proof Hm as (en & E & Hc & Hr & Ha).
  destruct e as [id' method sub st|id' method st|n'|id'|k|j|id'|id'| |j|j method st]; simpl in *.
  - unfold beginRequest, registerRequest. destruct (rs_closed (m_rs m)); exists en; simpl;
      rewrite ?lookup_insert_ne by done; done.
  - by apply marked_refresh.
  - destruct (m_run m !! n') as [x|] eqn:Hn.
    + exists en. rewrite finish_entries by eauto. split_and!; try done. by rewrite Hc.
    + unfold finish. rewrite Hn. by exists en.
  - by exists en.
  - unfold close, closeWithCause. destruct (rs_closed (m_rs m)); by exists en.
  - destruct (m_calls m !! j); by exists en.
  - destruct (rs_closed (m_rs m)); by exists en.
  - by exists en.
  - destruct (rs_closed (m_rs m)); by exists en.
  - by exists en.
  - unfold refreshSubscription. destruct (d_spawned _ !! j) as [[id' []]|]; [|by exists en..].
    apply marked_refresh. by exists en.
Qed.

Lemma marked_runs m id n evs :
  inv m → (Z.of_nat (m_next m + length evs) < 2 ^ 64 - 1)%Z →
  marked m id n → Forall (keepsMark id n) evs → marked (runs step m evs) id n.
Proof.
  revert m. induction evs as [|e evs IH]; intros m Hi Hlt Hm Hk; simpl in *; [done|].
  apply Forall_cons in Hk as [Hk1 Hk2]. pose proof (step_next m e).
  apply IH; [apply step_inv; [done|lia]|lia|by apply marked_step|done].
Qed.

(** The goroutine of the marked entry ends: the id is due, and nothing is registered under it. *)
Lemma finish_hands_over m id n evs :
  inv m → (Z.of_nat (m_next m + length evs) < 2 ^ 64 - 1)%Z →
  marked m id n → Forall (keepsMark id n) evs →
  let m' := step (runs step m evs) (EvFinish n) in
  id ∈ d_due (m_due m') ∧ rs_requests (m_rs m') !! id = None.
Proof.
  intros Hi Hlt Hm Hk. destruct (marked_runs m id n evs) as (e & E & Hce & _ & Ha); [done..|].
  destruct (runs_inv_from m evs Hi Hlt) as [Hi' _]. set (m1 := runs step m evs) in *.
  destruct (inv_entry _ Hi' _ _ E) as [_ Hrun]. rewrite Hce in Hrun. simpl. split.
  - unfold finish. rewrite Hrun. destruct (unregisterRequest _ _ _) as [rs again] eqn:Hu.
    destruct (unregister_own _ _ _ _ _ _ Hi' Hrun Hu) as (_ & _ & _ & Hag).
    rewrite (Hag e E Hce), Ha. simpl. set_solver.
  - apply eq_None_not_Some. intros [e' He']. apply finish_entries in He' as [He' Hne]; [|by eauto..].
    by simplify_eq.
Qed.

(** The events that leave a subscription and its id alone: no frame with the id, no
    unsubscribe, no close. *)
Definition keepsSubscription (id : string) (e : event) : Prop :=
  match e with
  | EvBegin id' _ _ _ | EvUnsubscribe id' => id' ≠ id
  | EvClose _ | EvSweep => False
  | _ => True
  end.

(** How often a refresh of [id] has gone on to run the handler. *)
Definition begun (id : string) (m : machine) : nat :=
  length (filter (.= id) (d_begun (m_due m))).

(** A deferred refresh of [id] on its way, or run since the count was [k]. *)
Definition underWay (id : string) (k : nat) (m : machine) : Prop :=
  rs_closed (m_rs m) = false ∧ id ∈ d_subs (m_due m) ∧
  (∀ e, rs_requests (m_rs m) !! id = Some e → if_refresh e = true) ∧ k ≤ begun id m ∧
  (id ∈ d_due (m_due m) ∨ id ∈ (d_spawned (m_due m)).*1 ∨ k < begun id m).

(** A refresh of a subscription that no client request holds goes through. *)
Lemma refresh_begins m id method st :
  rs_closed (m_rs m) = false →
  (∀ e, rs_requests (m_rs m) !! id = Some e → if_refresh e = true) →
  m_due (beginRefresh m id method st) = addBegun id (m_due m) ∧
  rs_closed (m_rs (beginRefresh m id method st)) = false ∧
  ∃ e, rs_requests (m_rs (beginRefresh m id method st)) !! id = Some e ∧ if_refresh e = true.
Proof.
  intros Hop Hr. unfold beginRefresh, registerRefresh. rewrite Hop.
  destruct (rs_requests (m_rs m) !! id) as [cur|] eqn:E; [rewrite (Hr cur) by done|]; simpl;
    (split_and!; [done..|eexists; by rewrite lookup_insert_eq]).
Qed.

Lemma begun_addBegun id id' m d :
  m_due m = addBegun id' d →
  begun id m = length (filter (.= id) (d_begun d)) + if decide (id' = id) then 1 else 0.
Proof.
  intros Hd. unfold begun. rewrite Hd. simpl. rewrite filter_app, length_app. f_equal. case_decide as Hc.
  - by rewrite filter_cons_True.
  - by rewrite filter_cons_False.
Qed.

(** [refreshSubscription] goes on with a subscription that is there. *)
Lemma underWay_refresh m id k id' method st :
  rs_closed (m_rs m) = false → id ∈ d_subs (m_due m) →
  (∀ e, rs_requests (m_rs m) !! id = Some e → if_refresh e = true) → k ≤ begun id m →
  (id' ≠ id → underWay id k m) →
  underWay id k (beginRefresh m id' method st).
Proof.
  intros Hop Hsub Hr Hk Hu. destruct (decide (id' = id)) as [->|Hne].
  - destruct (refresh_begins m id method st) as (Hd & Hc & e & He & Hre); [done..|].
    pose proof (begun_addBegun id id _ _ Hd) as Hb. rewrite decide_True in Hb by done.
    fold (begun id m) in Hb. unfold underWay. rewrite Hb, Hd. split_and!; [done|done| |lia|].
    + intros e'. rewrite He. by intros [= <-].
    + right. right. lia.
  - specialize (Hu Hne). unfold beginRefresh, registerRefresh. rewrite Hop.
    assert (∀ rs n cx rn calls b, rs_closed rs = false → rs_requests rs !! id = rs_requests (m_rs m) !! id →
      underWay id k (Machine rs n cx rn calls (if b : bool then addBegun id' (m_due m) else m_due m))) as Hgo.
    { intros rs n cx rn calls b Hc He. destruct Hu as (_ & _ & _ & _ & Hu). unfold underWay.
      cbn [m_rs m_due]. rewrite He. assert (begun id (Machine rs n cx rn calls
        (if b then addBegun id' (m_due m) else m_due m)) = begun id m) as ->; [|by destruct b].
      destruct b; [|done]. erewrite begun_addBegun by done. by rewrite decide_False, Nat.add_0_r. }
    destruct (rs_requests (m_rs m) !! id') as [cur|]; [destruct (if_refresh cur)|]; simpl;
      apply (Hgo _ _ _ _ _ true) || apply (Hgo _ _ _ _ _ false); simpl; try done;
      by rewrite lookup_insert_ne.
Qed.

Lemma elem_of_delete_ne {A} (l : list A) j x y : x ∈ l → l !! j = Some y → x ≠ y → x ∈ delete j l.
Proof.
  intros [i Hi]%list_elem_of_lookup Hj Hne. apply list_elem_of_lookup. destruct (decide (i < j)).
  - exists i. by rewrite list_lookup_delete_lt.
  - assert (i ≠ j) by congruence. exists (pred i). rewrite list_lookup_delete_ge by lia.
    by replace (S (pred i)) with i by lia.
Qed.

Lemma underWay_deferred m id k j : underWay id k m → underWay id k (setDue (runDeferredRefresh j (m_due m)) m).
Proof.
  intros (Hop & Hsub & Hr & Hk & Hu). unfold runDeferredRefresh, underWay, begun in *.
  destruct (d_due (m_due m) !! j) as [id'|] eqn:Ej; [|by destruct (m_due m)].
  cbn [setDue m_rs m_due d_subs d_due d_spawned d_begun]. split_and!; [done..|].
  destruct Hu as [Hdue|[Hsp|Hb]]; [|right; left|by right; right].
  - destruct (decide (id = id')) as [<-|Hne]; [|left; by eapply elem_of_delete_ne].
    right. left. rewrite decide_True by done. rewrite fmap_app. set_solver.
  - case_decide; [|done]. rewrite fmap_app. set_solver.
Qed.

Lemma underWay_spawned m id k j method st :
  underWay id k m → underWay id k (refreshSubscription m j method st).
Proof.
  intros Hm. pose proof Hm as (Hop & Hsub & Hr & Hk & Hu). unfold refreshSubscription.
  destruct (d_spawned (m_due m) !! j) as [[id' b]|] eqn:Ej; [|done].
  assert (Hkeep : ∀ l, (id ∈ (d_spawned (m_due m)).*1 → id ∈ l.*1) →
    underWay id k (setDue (setSpawned l (m_due m)) m)).
  { intros l Hl. unfold underWay, begun in *.
    cbn [setDue setSpawned m_rs m_due d_subs d_due d_spawned d_begun]. naive_solver. }
  assert (Hne : id' ≠ id → underWay id k (setDue (setSpawned (delete j (d_spawned (m_due m))) (m_due m)) m)).
  { intros Hne. apply Hkeep. intros ([i c] & -> & Hin)%list_elem_of_fmap.
    apply (list_elem_of_fmap_2 fst _ (i, c)). eapply elem_of_delete_ne; [done|done|].
    simpl in *. congruence. }
  destruct b; [by apply underWay_refresh|]. case_decide as Hin.
  - apply Hkeep. intros Hi. rewrite list_fmap_insert. simpl. rewrite list_insert_id; [done|].
    by rewrite list_lookup_fmap, Ej.
  - apply Hne. by intros ->.
Qed.

Lemma underWay_step m id k e : keepsSubscription id e → underWay id k m → underWay id k (step m e).
Proof.
  intros Hq Hm. pose proof Hm as (Hop & Hsub & Hr & Hk & Hu).
  destruct e as [id' method sub st|id' method st|n|id'|c|j|id'|id'| |j|j method st]; simpl in *.
  - unfold beginRequest, registerRequest. rewrite Hop. unfold underWay, begun in *. simpl.
    rewrite lookup_insert_ne by done. done.
  - by apply underWay_refresh.
  - unfold finish. destruct (m_run m !! n) as [[id' seq]|]; [|done].
    destruct (unregisterRequest (m_rs m) id' seq) as [rs again] eqn:Eu.
    assert (rs_closed rs = false ∧ ∀ e, rs_requests rs !! id = Some e → if_refresh e = true) as [Hc He].
    { unfold unregisterRequest in Eu. destruct (rs_requests (m_rs m) !! id') as [e'|] eqn:E'; [|by simplify_eq].
      destruct (_ && _); simplify_eq; [|done]. simpl. split; [done|]. intros e.
      rewrite lookup_delete_Some. naive_solver. }
    unfold underWay, begun in *. simpl. destruct again; [|done]. simpl. split_and!; [done..|].
    destruct Hu as [?|[?|?]]; [left; set_solver|auto..].
  - done.
  - done.
  - by destruct (m_calls m !! j).
  - rewrite Hop. unfold underWay, begun in *. simpl. set_solver.
  - unfold underWay, begun in *. simpl. set_solver.
  - done.
  - by apply underWay_deferred.
  - by apply underWay_spawned.
Qed.

(** Runs the outstanding cancel calls in order. *)
Definition drain (m : machine) : machine := runs step m (replicate (length (m_calls m)) (EvCall 0)).

Lemma drain_spec m calls :
  m_calls m = calls →
  m_run (drain m) = m_run m ∧ m_calls (drain m) = [] ∧
  (∀ n, m_ctx (drain m) !! n = Some None → m_ctx m !! n = Some None ∧ n ∉ calls.*1).
Proof.
  unfold drain. intros Hc. rewrite Hc. revert m Hc.
  induction calls as [|nk calls IH]; intros m Hc; simpl.
  - split_and!; [done|done|]. intros n Hn. split; [done|]. apply not_elem_of_nil.
  - rewrite Hc. simpl. destruct (IH (Machine (m_rs m) (m_next m) (fireCancel nk (m_ctx m))
      (m_run m) calls (m_due m))) as (H1 & H2 & H3); [done|].
    split_and!; [done|done|]. intros n [[Hn Hne]%fireCancel_live Hnot]%H3.
    split; [done|]. by rewrite not_elem_of_cons.
Qed.

Lemma runs_ctx_is_Some m n evs : is_Some (m_ctx m !! n) → n < m_next m →
  is_Some (m_ctx (runs step m evs) !! n).
Proof.
  revert m. induction evs as [|e evs IH]; intros m Hs Hn; simpl; [done|].
  apply IH; [|pose proof (step_next m e); lia].
  assert (Hr : ∀ m' id method st, m_ctx m' = m_ctx m → m_next m' = m_next m →
    is_Some (m_ctx (beginRefresh m' id method st) !! n)).
  { intros m' id method st Hcx Hnx. unfold beginRefresh.
    destruct (registerRefresh _ _ _ _ _) as [[[??]?]?]. simpl.
    rewrite Hcx, Hnx. by rewrite lookup_insert_ne by lia. }
  destruct e as [id method sub st|id method st|n'|id|k|j|id|id| |j|j method st]; simpl.
  - unfold beginRequest. destruct (registerRequest _ _ _ _ _ _) as [[??]?]. simpl.
    by rewrite lookup_insert_ne by lia.
  - by apply Hr.
  - unfold finish. destruct (m_run m !! n') as [[??]|]; [|done].
    by destruct (unregisterRequest _ _ _).
  - done.
  - unfold close. destruct (closeWithCause _ _) as [[??] l]. simpl.
    induction l as [|nk l IHl]; simpl; [done|]. by apply fireCancel_Some.
  - destruct (m_calls m !! j); simpl; [by apply fireCancel_Some|done].
  - by destruct (rs_closed (m_rs m)).
  - done.
  - by destruct (rs_closed (m_rs m)).
  - done.
  - unfold refreshSubscription. destruct (d_spawned _ !! j) as [[id []]|]; [by apply Hr|done..].
Qed.

(** ** Properties *)

(** C1: no request is orphaned. Whatever interleaving of requests reusing ids,
    refreshes, cancels, ends and closes a connection sees, the context of a running
    handler that is still live is registered under the request's id, where a cancel
    or unsubscribe frame and the close find it, or its cancel is already on its way. *)
Theorem no_orphaned_request evs n id seq :
  few evs → let m := runs step initMachine evs in
  m_run m !! n = Some (id, seq) → live m n →
  (∃ e, rs_requests (m_rs m) !! id = Some e ∧ if_cancel e = n) ∨ pending m n.
Proof. intros Hf m. apply inv_orphan, runs_inv, Hf. Qed.

(** C2: the end of a request removes its own registration and no other (#225): a
    handler that was shadowed by a later request with the same id leaves the
    replacement registered and cancelable when it unwinds. *)
Theorem finish_removes_own_only evs n id e :
  few evs → let m := runs step initMachine evs in
  is_Some (m_run m !! n) →
  rs_requests (m_rs (step m (EvFinish n))) !! id = Some e ↔
  rs_requests (m_rs m) !! id = Some e ∧ if_cancel e ≠ n.
Proof. intros Hf m Hn. by apply finish_entries; [apply runs_inv|]. Qed.

(** Closing a connection cancels every request. Once a connection is closed and
    the cancel calls that were under way have run, every running handler's context
    is cancelled, requests that began after the close included: none can block
    shutdown by waiting on a context nobody will cancel. *)
Theorem closed_cancels_everything evs n x :
  few evs → let m := runs step initMachine evs in
  rs_closed (m_rs m) = true → m_run (drain m) !! n = Some x →
  ∃ k, m_ctx (drain m) !! n = Some (Some k).
Proof.
  intros Hf m Hc Hr. pose proof (runs_inv _ Hf) as Hi. fold m in Hi.
  destruct (drain_spec m _ eq_refl) as (Hrun & _ & Hl). rewrite Hrun in Hr.
  assert (n < m_next m) as Hn by (destruct x; by apply (inv_run _ Hi) in Hr as []).
  destruct (runs_ctx_is_Some m n (replicate (length (m_calls m)) (EvCall 0)))
    as [[k|] Hk]; [by eapply inv_ctx|done|by exists k|].
  exfalso. destruct (Hl n Hk) as [Hlive Hnot].
  destruct (inv_closed _ Hi _ _ Hc Hr Hlive) as [k Hpk].
  apply Hnot. apply list_elem_of_fmap. by exists (n, k).
Qed.

(** C3: a server-driven refresh never cancels a request of the client: the only
    contexts whose cancel it causes are its own and that of an older refresh of the
    same subscription, and a client request registered under the id stays
    registered under the same token. *)
Theorem refresh_spares_client_requests m id method started :
  let m' := step m (EvRefresh id method started) in
  ∃ calls, m_calls m' = m_calls m ++ calls ∧
  (∀ n k, (n, k) ∈ calls → n = m_next m ∨
    ∃ e, rs_requests (m_rs m) !! id = Some e ∧ if_cancel e = n ∧ if_refresh e = true) ∧
  (∀ id' e, rs_requests (m_rs m) !! id' = Some e → if_refresh e = false →
    ∃ e', rs_requests (m_rs m') !! id' = Some e' ∧ if_seq e' = if_seq e ∧
          if_cancel e' = if_cancel e ∧ if_refresh e' = false).
Proof.
  simpl. unfold beginRefresh, registerRefresh.
  destruct (rs_closed (m_rs m)); simpl.
  { eexists. split_and!; [done| |by eauto]. set_solver. }
  destruct (rs_requests (m_rs m) !! id) as [cur|] eqn:E;
    [destruct (if_refresh cur) eqn:Er|]; simpl; eexists; (split_and!; [done|..]).
  - unfold oldCalls. rewrite E. intros n k [= -> ->]%list_elem_of_singleton. eauto.
  - intros id' e He Hr. exists e. by rewrite lookup_insert_ne by congruence.
  - set_solver.
  - intros id' e He Hr. destruct (decide (id' = id)) as [->|Hne].
    + exists (markAgain cur). rewrite lookup_insert_eq. naive_solver.
    + exists e. by rewrite lookup_insert_ne.
  - unfold oldCalls. rewrite E. set_solver.
  - intros id' e He Hr. exists e. by rewrite lookup_insert_ne by congruence.
Qed.

(** C4: a deferred refresh is not lost. Suppose a refresh comes due while a client request
    or subscribe for its id runs, and no other frame uses the id. When that request ends,
    the id is handed to [runDeferredRefresh]. From there on, as long as the subscription
    stays in the index, the connection stays open and no other frame uses the id, the refresh
    is under way: either one of its goroutines still has a section to execute, or it has
    gone on to run the handler again. *)
Theorem deferred_refresh_runs evs evs' evs'' id e method started :
  few (evs ++ EvRefresh id method started :: evs' ++ EvFinish (if_cancel e) :: evs'') →
  let m := runs step initMachine evs in
  rs_closed (m_rs m) = false → rs_requests (m_rs m) !! id = Some e → if_refresh e = false →
  Forall (keepsMark id (if_cancel e)) evs' →
  let m' := step (runs step (step m (EvRefresh id method started)) evs') (EvFinish (if_cancel e)) in
  id ∈ d_due (m_due m') ∧
  (rs_closed (m_rs m') = false → id ∈ d_subs (m_due m') → Forall (keepsSubscription id) evs'' →
   let m'' := runs step m' evs'' in
   id ∈ d_due (m_due m'') ∨ id ∈ (d_spawned (m_due m'')).*1 ∨
   begun id m' < begun id m'').
Proof.
  intros Hf m Hc E Hr Hk m'. unfold few in Hf. rewrite length_app in Hf. simpl in Hf.
  rewrite length_app in Hf. simpl in Hf.
  destruct (runs_inv_from initMachine evs inv_init) as [Hi Hn]; [simpl; lia|]. simpl in Hn.
  fold m in Hi, Hn. pose proof (step_next m (EvRefresh id method started)).
  set (m1 := step m (EvRefresh id method started)) in *.
  assert (inv m1) as Hi1 by (apply step_inv; [done|lia]).
  assert (marked m1 id (if_cancel e)) as Hm1.
  { exists (markAgain e). subst m1. simpl. unfold beginRefresh, registerRefresh.
    rewrite Hc, E, Hr. simpl. by rewrite lookup_insert_eq. }
  destruct (finish_hands_over m1 id (if_cancel e) evs') as [Hdue Hgone];
    [done|lia|done|done|].
  split; [done|]. intros Hop Hsub Hq m''.
  enough (underWay id (begun id m') m'') as (_ & _ & _ & _ & Hu) by done.
  apply (runs_invariant_if step (underWay id (begun id m')) (keepsSubscription id)); [|done|].
  - split_and!; [done|done| |done|by left]. intros e' He'. change (rs_requests (m_rs m') !! id = Some e') in He'.
    unfold m' in He'. rewrite Hgone in He'. done.
  - intros; by apply underWay_step.
Qed.

(** The exception of [deferred_refresh_runs] is real: a frame that reuses the id while a refresh is
    deferred replaces the marked entry by an unmarked one, and the shadowed
    subscribe reports no deferred refresh when it ends. *)
Theorem reuse_drops_deferred_refresh rs id e method subscribe started cancel :
  rs_closed rs = false → rs_requests rs !! id = Some e → if_refreshAgain e = true →
  if_seq e ≠ wrapU64 (rs_reqSeq rs + 1) →
  let '(rs', seq, _) := registerRequest rs id method subscribe started cancel in
  (unregisterRequest rs' id (if_seq e)).2 = false ∧
  (unregisterRequest rs' id seq).2 = false.
Proof.
  intros Hc E Ha Hs. unfold registerRequest. rewrite Hc. unfold unregisterRequest. simpl.
  rewrite !lookup_insert_eq. simpl.
  split; repeat case_bool_decide; simplify_eq/=; done.
Qed.

(** *** Concrete runs *)

(** A subscribe, a refresh deferred to it, a request reusing another id. *)
Definition exEvents : list event :=
  [EvBegin "1" "list" true 0; EvBegin "2" "get" false 1; EvBegin "2" "get" false 2].

Lemma no_orphaned_request_witness :
  (∃ e, rs_requests (m_rs (runs step initMachine exEvents)) !! "2" = Some e ∧ if_cancel e = 1)
  ∨ pending (runs step initMachine exEvents) 1.
Proof.
  apply (no_orphaned_request exEvents 1 "2" 2); [done|reflexivity|reflexivity].
Defined.

Lemma finish_removes_own_only_witness :
  is_Some (rs_requests (m_rs (step (runs step initMachine exEvents) (EvFinish 1))) !! "2").
Proof.
  exists (Inflight 3 2 "get" false 2 false false).
  apply (finish_removes_own_only exEvents 1 "2" (Inflight 3 2 "get" false 2 false false));
    [done|eexists; reflexivity|split; [reflexivity|done]].
Defined.

Lemma closed_cancels_everything_witness :
  ∃ k, m_ctx (drain (runs step initMachine (exEvents ++ [EvClose ErrServerShutdown]))) !! 2
       = Some (Some k).
Proof.
  apply (closed_cancels_everything (exEvents ++ [EvClose ErrServerShutdown]) 2 ("2", 3%Z));
    [done|reflexivity|reflexivity].
Defined.

(** The subscribe of id "1" commits while a refresh is deferred to it, and ends; the deferred
    refresh then looks the subscription up, checks it again and begins. *)
Definition exDeferred : list event := [EvCancel "2"; EvSubscribe "1"; EvFinish 2].
Definition exLaunch : list event := [EvDeferred 0; EvSpawned 0 "list" 6; EvSpawned 0 "list" 6].

Lemma deferred_refresh_runs_witness :
  begun "1" (runs step (step (runs step (step (runs step initMachine exEvents)
    (EvRefresh "1" "list" 5)) exDeferred) (EvFinish 0)) exLaunch) = 1.
Proof.
  destruct (deferred_refresh_runs exEvents exDeferred exLaunch "1"
    (Inflight 1 0 "list" true 0 false false) "list" 5) as [Hdue Hrun];
    [done|reflexivity|reflexivity|reflexivity|by repeat constructor|].
  destruct Hrun as [Hin|[Hin|Hlt]]; [reflexivity|set_solver|by repeat constructor|..].
  - by apply elem_of_nil in Hin.
  - by apply elem_of_nil in Hin.
  - vm_compute in Hlt. vm_compute. lia.
Defined.

Lemma reuse_drops_deferred_refresh_witness :
  (unregisterRequest (registerRequest
     (ReqState {["1" := Inflight 1 0 "list" true 0 false true]} false 1)
     "1" "get" false 1 1).1.1 "1" 1).2 = false.
Proof.
  exact (proj1 (reuse_drops_deferred_refresh
    (ReqState {["1" := Inflight 1 0 "list" true 0 false true]} false 1) "1"
    (Inflight 1 0 "list" true 0 false true) "get" false 1 1 eq_refl eq_refl eq_refl
    ltac:(vm_compute; congruence))).
Defined.

End RequestMachine.

Module Slots.

(** ** The semaphores *)

(** A buffered channel used as a counting semaphore; a nil channel disables the
    cap. *)
Record sem := Sem { s_cap : option nat; s_used : nat }.

(** [make(chan struct{}, n)] when the option is positive. *)
Definition newSem (max : Z) : sem :=
  if bool_decide (0 < max)%Z then Sem (Some (Z.to_nat max)) 0 else Sem None 0.

(** [select { case sem <- struct{}{}: default: ... }]; [None] is the default. *)
Definition trySend (s : sem) : option sem :=
  match s_cap s with
  | None => Some s
  | Some n => if decide (s_used s < n) then Some (Sem (Some n) (S (s_used s))) else None
  end.

(** [<-sem]; [None] would block. *)
Definition recv (s : sem) : option sem :=
  match s_cap s, s_used s with
  | None, _ => Some s
  | Some _, 0 => None
  | Some n, S u => Some (Sem (Some n) u)
  end.

(** The two channels of a connection and its server. *)
Definition slots : Type := sem * sem.

(** [acquireRequestSlot]; [None] would block. *)
Definition acquireRequestSlot (cs : slots) : option (slots * bool) :=
  match trySend cs.1 with
  | None => Some (cs, false)
  | Some c =>
      match trySend cs.2 with
      | Some s => Some ((c, s), true)
      | None =>
          match recv c with
          | Some c' => Some ((c', cs.2), false)
          | None => None
          end
      end
  end.

(** [releaseRequestSlot]; [None] would block. *)
Definition releaseRequestSlot (cs : slots) : option slots :=
  c ← recv cs.1; s ← recv cs.2; Some (c, s).

(** ** Many connections at once

    Each channel operation is a step. A task is a request between the first
    operation of its acquire and the last of its release. *)

Inductive phase := GotConn | Rejecting | Running | HalfReleased.

Definition holdsConn (c : Z) (cp : Z * phase) : bool :=
  bool_decide (cp.1 = c) && match cp.2 with HalfReleased => false | _ => true end.

Definition holdsSrv (cp : Z * phase) : bool :=
  match cp.2 with Running | HalfReleased => true | _ => false end.

Record world := World {
  w_conns : gmap Z sem;
  w_srv : sem;
  w_tasks : gmap nat (Z * phase);
}.

Inductive event :=
  | Arrive (t : nat) (c : Z)     (** the send on the connection's channel *)
  | TakeSrv (t : nat)            (** the send on the server's channel *)
  | Rollback (t : nat)           (** the receive after a refused send *)
  | FreeConn (t : nat)           (** the first receive of the release *)
  | FreeSrv (t : nat).           (** the second *)

(** [None] marks a receive that blocks. *)
Definition step (w : world) (e : event) : option world :=
  match e with
  | Arrive t c =>
      match w_tasks w !! t, w_conns w !! c with
      | None, Some s =>
          match trySend s with
          | None => Some w
          | Some s' => Some (World (<[c := s']> (w_conns w)) (w_srv w)
                               (<[t := (c, GotConn)]> (w_tasks w)))
          end
      | _, _ => Some w
      end
  | TakeSrv t =>
      match w_tasks w !! t with
      | Some (c, GotConn) =>
          match trySend (w_srv w) with
          | None => Some (World (w_conns w) (w_srv w) (<[t := (c, Rejecting)]> (w_tasks w)))
          | Some s' => Some (World (w_conns w) s' (<[t := (c, Running)]> (w_tasks w)))
          end
      | _ => Some w
      end
  | Rollback t =>
      match w_tasks w !! t with
      | Some (c, Rejecting) =>
          s ← w_conns w !! c; s' ← recv s;
          Some (World (<[c := s']> (w_conns w)) (w_srv w) (delete t (w_tasks w)))
      | _ => Some w
      end
  | FreeConn t =>
      match w_tasks w !! t with
      | Some (c, Running) =>
          s ← w_conns w !! c; s' ← recv s;
          Some (World (<[c := s']> (w_conns w)) (w_srv w)
                 (<[t := (c, HalfReleased)]> (w_tasks w)))
      | _ => Some w
      end
  | FreeSrv t =>
      match w_tasks w !! t with
      | Some (c, HalfReleased) =>
          s' ← recv (w_srv w);
          Some (World (w_conns w) s' (delete t (w_tasks w)))
      | _ => Some w
      end
  end.

Fixpoint steps (w : world) (evs : list event) : option world :=
  match evs with
  | [] => Some w
  | e :: evs => w' ← step w e; steps w' evs
  end.

(** A semaphore that counts [n] holders. *)
Definition counts (s : sem) (n : nat) : Prop :=
  match s_cap s with None => True | Some cap => s_used s = n ∧ n ≤ cap end.

Record wok (w : world) : Prop := {
  wok_conn c s : w_conns w !! c = Some s → counts s (countIf (holdsConn c) (w_tasks w));
  wok_srv : counts (w_srv w) (countIf holdsSrv (w_tasks w));
  wok_task t c p : w_tasks w !! t = Some (c, p) → is_Some (w_conns w !! c);
}.

Lemma trySend_counts s s' n : trySend s = Some s' → counts s n → counts s' (S n).
Proof.
  unfold trySend, counts. destruct (s_cap s) as [cap|] eqn:E; [|by intros [= <-]; rewrite E].
  case_decide; [|done]. intros [= <-] [? ?]. simpl. lia.
Qed.

Lemma recv_counts s n : counts s (S n) → ∃ s', recv s = Some s' ∧ counts s' n.
Proof.
  destruct s as [[cap|] u]; unfold recv, counts; simpl.
  - intros [-> ?]. exists (Sem (Some cap) n). simpl. split_and!; [done..|lia].
  - intros _. by exists (Sem None u).
Qed.

Lemma counts_bound s n cap : counts s n → s_cap s = Some cap → s_used s = n ∧ n ≤ cap.
Proof. unfold counts. intros H E. by rewrite E in H. Qed.

(** Moving one task between phases moves the counts with it. *)
Lemma wok_update w t c p q :
  wok w → w_tasks w !! t = Some (c, p) →
  (∀ c', countIf (holdsConn c') (<[t := (c, q)]> (w_tasks w)) + Nat.b2n (holdsConn c' (c, p)) =
         countIf (holdsConn c') (w_tasks w) + Nat.b2n (holdsConn c' (c, q))) ∧
  countIf holdsSrv (<[t := (c, q)]> (w_tasks w)) + Nat.b2n (holdsSrv (c, p)) =
  countIf holdsSrv (w_tasks w) + Nat.b2n (holdsSrv (c, q)).
Proof. intros Hw Ht. split; [intros c'|]; by apply countIf_update. Qed.

Lemma wok_recv_conn w t c p (tasks : gmap nat (Z * phase)) :
  wok w → w_tasks w !! t = Some (c, p) →
  (∀ c', countIf (holdsConn c') (w_tasks w) =
         Nat.b2n (holdsConn c' (c, Running)) + countIf (holdsConn c') tasks) →
  ∃ s s', w_conns w !! c = Some s ∧ recv s = Some s' ∧
    ∀ c' s0, <[c := s']> (w_conns w) !! c' = Some s0 →
      counts s0 (countIf (holdsConn c') tasks).
Proof.
  intros Hw Ht Hcn. destruct (wok_task _ Hw _ _ _ Ht) as [s Hs].
  pose proof (wok_conn _ Hw _ _ Hs) as Hcs. rewrite Hcn in Hcs.
  unfold holdsConn at 1 in Hcs. simpl in Hcs. rewrite bool_decide_true in Hcs by done.
  destruct (recv_counts _ _ Hcs) as (s' & Hr & Hs'). exists s, s'. split_and!; [done|done|].
  intros c' s0. rewrite lookup_insert_Some. intros [[<- <-]|[Hne Hc']]; [done|].
  pose proof (wok_conn _ Hw _ _ Hc') as H0. rewrite Hcn in H0.
  unfold holdsConn at 1 in H0. simpl in H0. by rewrite bool_decide_false in H0 by done.
Qed.

Lemma step_wok w e : wok w → ∃ w', step w e = Some w' ∧ wok w'.
Proof.
  intros Hw. pose proof (wok_srv _ Hw) as Hsrv. destruct e as [t c|t|t|t|t]; simpl.
  - destruct (w_tasks w !! t) eqn:Ht; [by eauto|]. destruct (w_conns w !! c) as [s|] eqn:Hc;
      [|by eauto]. destruct (trySend s) as [s'|] eqn:Hs; [|by eauto].
    eexists. split; [done|]. split; cbn [w_conns w_srv w_tasks].
    + intros c' s0. rewrite countIf_insert by done. rewrite lookup_insert_Some.
      intros [[<- <-]|[Hne Hc']]; unfold holdsConn at 1; simpl.
      * rewrite bool_decide_true by done. simpl.
        apply (trySend_counts s); [done|]. by apply (wok_conn _ Hw).
      * rewrite bool_decide_false by done. by apply (wok_conn _ Hw).
    + rewrite countIf_insert by done. apply (wok_srv _ Hw).
    + intros t' c' p'. rewrite lookup_insert_Some, lookup_insert_is_Some'.
      intros [[_ [= <- _]]|[_ Ht']]; [by left|]. right. by eapply (wok_task _ Hw).
  - destruct (w_tasks w !! t) as [[c []]|] eqn:Ht; try by eauto.
    destruct (trySend (w_srv w)) as [s'|] eqn:Hs; eexists; (split; [done|]).
    + destruct (wok_update w t c GotConn Running Hw Ht) as [Hcn Hsv].
      split; cbn [w_conns w_srv w_tasks].
      * intros c' s Hc. specialize (Hcn c').
        apply Nat.add_cancel_r in Hcn. rewrite Hcn.
        by apply (wok_conn _ Hw).
      * simpl in Hsv. replace (countIf _ _) with (S (countIf holdsSrv (w_tasks w))) by lia.
        apply (trySend_counts _ _ _ Hs), (wok_srv _ Hw).
      * intros t' c' p'. rewrite lookup_insert_Some.
        intros [[_ [= <- _]]|[_ Ht']]; by eapply (wok_task _ Hw).
    + destruct (wok_update w t c GotConn Rejecting Hw Ht) as [Hcn Hsv].
      split; cbn [w_conns w_srv w_tasks].
      * intros c' s Hc. specialize (Hcn c').
        apply Nat.add_cancel_r in Hcn. rewrite Hcn.
        by apply (wok_conn _ Hw).
      * simpl in Hsv. replace (countIf _ _) with (countIf holdsSrv (w_tasks w)) by lia.
        apply (wok_srv _ Hw).
      * intros t' c' p'. rewrite lookup_insert_Some.
        intros [[_ [= <- _]]|[_ Ht']]; by eapply (wok_task _ Hw).
  - destruct (w_tasks w !! t) as [[c []]|] eqn:Ht; try by eauto.
    destruct (wok_recv_conn w t c Rejecting (delete t (w_tasks w)) Hw Ht)
      as (s & s' & -> & Hrs & Hcn).
    { intros c'. exact (countIf_delete (holdsConn c') _ t (c, Rejecting) Ht). }
    simpl. rewrite Hrs. simpl. eexists. split; [done|].
    split; cbn [w_conns w_srv w_tasks].
    + done.
    + rewrite (countIf_delete _ _ _ _ Ht) in Hsrv. done.
    + intros t' c' p'. rewrite lookup_delete_Some, lookup_insert_is_Some'. intros [_ Ht'].
      right. by eapply (wok_task _ Hw).
  - destruct (w_tasks w !! t) as [[c []]|] eqn:Ht; try by eauto.
    destruct (wok_update w t c Running HalfReleased Hw Ht) as [Hc Hs].
    destruct (wok_recv_conn w t c Running (<[t := (c, HalfReleased)]> (w_tasks w)) Hw Ht)
      as (s & s' & -> & Hrs & Hcn).
    { intros c'. specialize (Hc c').
      assert (holdsConn c' (c, HalfReleased) = false) as Hz by apply andb_false_r.
      rewrite Hz in Hc. simpl in Hc. lia. }
    simpl. rewrite Hrs. simpl. eexists. split; [done|].
    split; cbn [w_conns w_srv w_tasks].
    + done.
    + simpl in Hs. replace (countIf _ _) with (countIf holdsSrv (w_tasks w)) by lia. done.
    + intros t' c' p'. rewrite lookup_insert_Some, lookup_insert_is_Some'.
      intros [[_ [= <- _]]|[_ Ht']]; right; by eapply (wok_task _ Hw).
  - destruct (w_tasks w !! t) as [[c []]|] eqn:Ht; try by eauto.
    rewrite (countIf_delete _ _ _ _ Ht) in Hsrv.
    destruct (recv_counts _ _ Hsrv) as (s' & -> & Hs'). simpl. eexists. split; [done|].
    split; cbn [w_conns w_srv w_tasks].
    + intros c' s Hc. pose proof (wok_conn _ Hw _ _ Hc) as Hcs.
      rewrite (countIf_delete _ _ _ _ Ht) in Hcs. unfold holdsConn at 1 in Hcs. simpl in Hcs.
      by rewrite andb_false_r in Hcs.
    + done.
    + intros t' c' p'. rewrite lookup_delete_Some. intros [_ Ht']. by eapply (wok_task _ Hw).
Qed.

Lemma trySend_cap s s' : trySend s = Some s' → s_cap s' = s_cap s.
Proof. unfold trySend. destruct (s_cap s) eqn:E; [case_decide|]; naive_solver. Qed.

Lemma recv_cap s s' : recv s = Some s' → s_cap s' = s_cap s.
Proof. unfold recv. destruct (s_cap s) eqn:E, (s_used s); naive_solver. Qed.

(** The capacities never change. *)
Definition capsAre (cc cs : option nat) (w : world) : Prop :=
  map_Forall (λ _ s, s_cap s = cc) (w_conns w) ∧ s_cap (w_srv w) = cs.

Lemma step_caps cc cs w e w' : capsAre cc cs w → step w e = Some w' → capsAre cc cs w'.
Proof.
  intros Hcap. pose proof Hcap as [Hc Hs]. assert (∀ c s s', w_conns w !! c = Some s → s_cap s' = s_cap s →
    map_Forall (λ _ s, s_cap s = cc) (<[c := s']> (w_conns w))) as Hup.
  { intros c s s' H1 H2. apply map_Forall_insert_2; [|done]. rewrite H2. by apply Hc in H1. }
  destruct e as [t c|t|t|t|t]; simpl.
  - destruct (w_tasks w !! t); [by intros [= <-]|]. destruct (w_conns w !! c) eqn:E; [|by intros [= <-]].
    destruct (trySend _) eqn:Et; [|by intros [= <-]]. intros [= <-].
    split; simpl; eauto using trySend_cap.
  - destruct (w_tasks w !! t) as [[c []]|]; try by intros [= <-].
    destruct (trySend _) eqn:Et; intros [= <-]; [|done].
    split; simpl; [done|]. by rewrite (trySend_cap _ _ Et).
  - destruct (w_tasks w !! t) as [[c []]|]; try by intros [= <-].
    intros (s & E & (s' & Er & [= <-])%bind_Some)%bind_Some. split; simpl; eauto using recv_cap.
  - destruct (w_tasks w !! t) as [[c []]|]; try by intros [= <-].
    intros (s & E & (s' & Er & [= <-])%bind_Some)%bind_Some. split; simpl; eauto using recv_cap.
  - destruct (w_tasks w !! t) as [[c []]|]; try by intros [= <-].
    intros (s' & Er & [= <-])%bind_Some. split; simpl; [done|]. by rewrite (recv_cap _ _ Er).
Qed.

Lemma steps_ok cc cs w evs :
  wok w → capsAre cc cs w → ∃ w', steps w evs = Some w' ∧ wok w' ∧ capsAre cc cs w'.
Proof.
  revert w. induction evs as [|e evs IH]; intros w Hw Hc; simpl; [by eauto|].
  destruct (step_wok w e Hw) as (w' & E & Hw'). rewrite E. simpl.
  apply IH; [done|]. by eapply step_caps.
Qed.

(** A server with fresh semaphores and the given connections. *)
Definition newWorld (maxConn maxSrv : Z) (cs : list Z) : world :=
  World (list_to_map ((λ c, (c, newSem maxConn)) <$> cs)) (newSem maxSrv) ∅.

Lemma newSem_counts max : counts (newSem max) 0.
Proof. unfold newSem, counts. case_bool_decide; simpl; [lia|done]. Qed.

Lemma newWorld_conns maxConn maxSrv cs c s :
  w_conns (newWorld maxConn maxSrv cs) !! c = Some s → s = newSem maxConn.
Proof.
  intros H%elem_of_list_to_map_2. apply list_elem_of_fmap in H. naive_solver.
Qed.

Lemma newWorld_ok maxConn maxSrv cs :
  wok (newWorld maxConn maxSrv cs) ∧
  capsAre (s_cap (newSem maxConn)) (s_cap (newSem maxSrv)) (newWorld maxConn maxSrv cs).
Proof.
  split; [split|split].
  - intros c s ->%newWorld_conns. apply newSem_counts.
  - apply newSem_counts.
  - simpl. intros t c p. by rewrite lookup_empty.
  - intros c s ->%newWorld_conns. done.
  - done.
Qed.

(** ** Properties *)

(** C5: the in-flight caps hold at all times and leak nothing. For any number of
    connections and any interleaving of the channel operations of their acquires and
    releases, no receive ever blocks, the slots in use are exactly the requests that
    hold one, and neither a connection nor the server exceeds its cap. *)
Theorem slots_bounded maxConn maxSrv cs evs :
  ∃ w, steps (newWorld maxConn maxSrv cs) evs = Some w ∧
  ((0 < maxConn)%Z → ∀ c s, w_conns w !! c = Some s →
     s_used s = countIf (holdsConn c) (w_tasks w) ∧ (Z.of_nat (s_used s) ≤ maxConn)%Z) ∧
  ((0 < maxSrv)%Z →
     s_used (w_srv w) = countIf holdsSrv (w_tasks w) ∧
     (Z.of_nat (s_used (w_srv w)) ≤ maxSrv)%Z).
Proof.
  destruct (newWorld_ok maxConn maxSrv cs) as [Hw Hc].
  destruct (steps_ok _ _ _ evs Hw Hc) as (w & E & Hw' & [Hcc Hcs]).
  exists w. split_and!; [done|..].
  - intros Hpos c s Hs. pose proof (Hcc c s Hs) as Hcap. simpl in Hcap. unfold newSem in Hcap.
    rewrite bool_decide_true in Hcap by done. simpl in Hcap.
    destruct (counts_bound _ _ _ (wok_conn _ Hw' _ _ Hs) Hcap). split; [done|lia].
  - intros Hpos. unfold newSem in Hcs. rewrite bool_decide_true in Hcs by done. simpl in Hcs.
    destruct (counts_bound _ _ _ (wok_srv _ Hw') Hcs). split; [done|lia].
Qed.

(** Acquiring is all or nothing and never blocks: it succeeds exactly when both
    caps have room (or are disabled), a failure leaves both semaphores as they were,
    and a release undoes a success. *)
Theorem acquire_all_or_nothing cs :
  (∀ n, s_cap cs.1 = Some n → s_used cs.1 ≤ n) →
  let room s := match s_cap s with None => true | Some n => bool_decide (s_used s < n) end in
  ∃ cs' ok, acquireRequestSlot cs = Some (cs', ok) ∧
  ok = room cs.1 && room cs.2 ∧
  if ok then releaseRequestSlot cs' = Some cs else cs' = cs.
Proof.
  destruct cs as [[[n1|] u1] [[n2|] u2]]; intros Hle;
    unfold acquireRequestSlot, releaseRequestSlot, trySend; simpl;
    repeat case_decide; repeat case_bool_decide; try lia; simpl; eauto 10.
Qed.

(** *** Concrete runs *)

Lemma acquire_all_or_nothing_witness :
  ∃ cs' ok, acquireRequestSlot (Sem (Some 2) 1, Sem (Some 4) 4) = Some (cs', ok) ∧
  ok = false ∧ cs' = (Sem (Some 2) 1, Sem (Some 4) 4).
Proof.
  destruct (acquire_all_or_nothing (Sem (Some 2) 1, Sem (Some 4) 4)) as (cs' & ok & H & -> & Hc).
  - intros n [= <-]. simpl. lia.
  - exists cs', false. done.
Defined.

End Slots.
