(* ===== verification/Args.v ===== *)
(** * Args: from JSON parameters to the handler's arguments (handler.go)

    [buildArgs] decodes the positional JSON array, applies the transform tags and
    runs the validator; [Call] and [CallStream] invoke the method. The JSON
    decoder, the struct validator and the method itself are parameters. *)

From S2P Require Import Prelude Protocol Runes Transform Registry.
From stdpp Require Import prelude gmap strings list.
Import Protocol Runes Transform Registry.

Module Args.

(** What building the arguments or calling the method can come to: a value, an
    error returned to the caller, or a panic of the reflect package. *)
Inductive outcome (A : Type) :=
  | Done (a : A)
  | Fail (e : goerr)
  | Panics.
Arguments Done {A} a.
Arguments Fail {A} e.
Arguments Panics {A}.

#[export] Instance outcome_bind : MBind outcome := λ A B f o,
  match o with Done a => f a | Fail e => Fail e | Panics => Panics end.

(** [ErrInvalidParams(reason)]. *)
Definition ErrInvalidParams (reason : string) : goerr :=
  NewError 0 CodeInvalidParams ("invalid params: " +:+ reason).

Section Build.
  Context (structs : gmap string (list structField)) {RC : RuneCase}.
  (** The JSON decoder: a whole array, and one value of a type. *)
  Context (parseArray : string → option (list string)).
  Context (decode : goType → string → option value).
  (** The configured [StructValidator], if any: its error for a struct value. *)
  Context (validator : option (value → option goerr)).

(** [unmarshalParam]. *)
Definition unmarshalParam (t : goType) (raw : string) : outcome value :=
  match t with
  | TPtr t' =>
      match decode t' raw with
      | Some v => Done (VPtr (Some v))
      | None => Fail (ErrInvalidParams "decode")
      end
  | _ =>
      match decode t raw with
      | Some v => Done v
      | None => Fail (ErrInvalidParams "decode")
      end
  end.

Fixpoint unmarshalAll (ts : list goType) (raws : list string) : outcome (list value) :=
  match ts, raws with
  | t :: ts, raw :: raws =>
      v ← unmarshalParam t raw; vs ← unmarshalAll ts raws; Done (v :: vs)
  | _, _ => Done []
  end.

Fixpoint unmarshalVariadic (t : goType) (raws : list string) : outcome (list value) :=
  match raws with
  | [] => Done []
  | raw :: raws =>
      v ← unmarshalParam t raw; vs ← unmarshalVariadic t raws; Done (v :: vs)
  end.

Definition hasVariadic (ps : list ParamInfo) : bool :=
  match last ps with Some p => pi_variadic p | None => false end.

Definition fixedCount (ps : list ParamInfo) : nat :=
  if hasVariadic ps then pred (length ps) else length ps.

(** The decoding half of [buildArgs]. *)
Definition decodeArgs (ps : list ParamInfo) (params : string) : outcome (list value) :=
  match ps with
  | [] => Done []
  | _ =>
      match (if bool_decide (params = EmptyString) then Some [] else parseArray params) with
      | None => Fail (ErrInvalidParams "not an array")
      | Some raws =>
          if hasVariadic ps then
            if decide (length raws < fixedCount ps) then Fail (ErrInvalidParams "count")
            else
              fixed ← unmarshalAll (pi_type <$> take (fixedCount ps) ps) raws;
              rest ← unmarshalVariadic (default (TIface "") (pi_type <$> last ps))
                       (drop (fixedCount ps) raws);
              Done (fixed ++ rest)
          else if decide (length raws = length ps) then unmarshalAll (pi_type <$> ps) raws
          else Fail (ErrInvalidParams "count")
      end
  end.

Definition isStruct (t : goType) : option string :=
  match unptr t with TStruct n => Some n | _ => None end.

(** [applyTransformsValue(target)]. The target is addressable: [unmarshalParam] decodes
    into [reflect.New] and returns that pointer, or its [Elem]. *)
Definition transformTarget (n : string) (target : value) : outcome value :=
  match applyTransformsValue structs true n target with
  | Ok v => Done v
  | Err (Returned _) => Fail (ErrInvalidParams "transform")
  | Err (SetPanics _) => Panics
  end.

(** The transform step on one struct argument; a nil pointer is skipped. *)
Definition transformArg (n : string) (v : value) : outcome value :=
  match v with
  | VPtr None => Done v
  | VPtr (Some w) => w' ← transformTarget n w; Done (VPtr (Some w'))
  | _ => transformTarget n v
  end.

(** The loop over [info.Params] with [args[i+1]]: an index past the end panics. *)
Fixpoint transformArgs (ps : list ParamInfo) (args : list value) : outcome (list value) :=
  match ps with
  | [] => Done args
  | p :: ps =>
      match isStruct (pi_type p), args with
      | None, [] => transformArgs ps []
      | None, a :: args => rest ← transformArgs ps args; Done (a :: rest)
      | Some n, [] => Panics
      | Some n, a :: args =>
          a' ← transformArg n a; rest ← transformArgs ps args; Done (a' :: rest)
      end
  end.

Definition derefArg (v : value) : value :=
  match v with VPtr (Some w) => w | _ => v end.

Fixpoint validateArgs (check : value → option goerr) (ps : list ParamInfo) (args : list value)
    : outcome unit :=
  match ps with
  | [] => Done ()
  | p :: ps =>
      match isStruct (pi_type p), args with
      | None, _ => validateArgs check ps (tail args)
      | Some _, [] => Panics
      | Some _, a :: args =>
          match check (derefArg a) with
          | Some e => Fail e
          | None => validateArgs check ps args
          end
      end
  end.

Definition buildArgs (ps : list ParamInfo) (params : string) : outcome (list value) :=
  args ← decodeArgs ps params;
  args' ← transformArgs ps args;
  match validator with
  | None => Done args'
  | Some check => _ ← validateArgs check ps args'; Done args'
  end.

(** ** Calling *)

(** The method: its response (absent for a void one) and its error. *)
Context (method : list value → option value * option goerr).

Definition Call (info : HandlerInfo) (params : string) : outcome (option value) :=
  args ← buildArgs (hi_params info) params;
  let '(resp, err) := method args in
  match err with
  | Some e => Fail e
  | None => Done (if hi_isVoid info then None else resp)
  end.

Definition CallStream (info : HandlerInfo) (params : string) : outcome (option value) :=
  if bool_decide (hi_kind info = HandlerKindUnary)
  then Fail (EOther 0 "aprot: CallStream on non-stream handler" [])
  else
    args ← buildArgs (hi_params info) params;
    let '(resp, err) := method args in
    match err with Some e => Fail e | None => Done resp end.

(** ** Facts *)

Lemma outcome_bind_Done {A B} (f : A → outcome B) o b :
  o ≫= f = Done b ↔ ∃ a, o = Done a ∧ f a = Done b.
Proof. destruct o; split; naive_solver. Qed.

Lemma outcome_bind_Panics {A B} (f : A → outcome B) o :
  o ≫= f = Panics ↔ o = Panics ∨ ∃ a, o = Done a ∧ f a = Panics.
Proof. destruct o; split; naive_solver. Qed.

Lemma unmarshalParam_Panics t raw : unmarshalParam t raw ≠ Panics.
Proof. unfold unmarshalParam. by destruct t; destruct (decode _ raw). Qed.

Lemma unmarshalAll_Done ts raws vs :
  length raws = length ts → unmarshalAll ts raws = Done vs →
  length vs = length ts ∧
  ∀ i t raw v, ts !! i = Some t → raws !! i = Some raw → vs !! i = Some v →
    unmarshalParam t raw = Done v.
Proof.
  revert raws vs. induction ts as [|t ts IH]; intros [|raw raws] vs Hl; try done; simpl.
  { intros [= <-]. done. }
  intros (v & Hv & (vs' & Hvs & [= <-])%outcome_bind_Done)%outcome_bind_Done.
  destruct (IH raws vs') as [Hlen Hi]; [by injection Hl|done|]. split; [simpl; lia|].
  intros [|i] t' raw' v' H1 H2 H3; simplify_eq/=; [done|]. by eapply Hi.
Qed.

Lemma unmarshalAll_Panics ts raws : unmarshalAll ts raws ≠ Panics.
Proof.
  revert raws. induction ts as [|t ts IH]; intros [|raw raws]; simpl; try done.
  intros [H|(v & _ & [H|(vs & _ & H)]%outcome_bind_Panics)]%outcome_bind_Panics; try done.
  - by eapply unmarshalParam_Panics.
  - by eapply IH.
Qed.

Lemma unmarshalVariadic_Panics t raws : unmarshalVariadic t raws ≠ Panics.
Proof.
  induction raws as [|raw raws IH]; simpl; [done|].
  intros [H|(v & _ & [H|(vs & _ & H)]%outcome_bind_Panics)]%outcome_bind_Panics; try done.
  by eapply unmarshalParam_Panics.
Qed.

Lemma decodeArgs_Panics ps params : decodeArgs ps params ≠ Panics.
Proof.
  unfold decodeArgs. destruct ps as [|p ps]; [done|].
  destruct (if bool_decide _ then _ else _) as [raws|]; [|done].
  destruct (hasVariadic (p :: ps)).
  - case_decide; [done|].
    intros [H1|(f & _ & [H1|(g & _ & H1)]%outcome_bind_Panics)]%outcome_bind_Panics; try done.
    + by eapply unmarshalAll_Panics.
    + by eapply unmarshalVariadic_Panics.
  - case_decide; [|done]. apply unmarshalAll_Panics.
Qed.

Lemma transformArg_Panics n v : transformArg n v ≠ Panics.
Proof.
  assert (∀ w, transformTarget n w ≠ Panics) as H.
  { intros w. unfold transformTarget. destruct (applyTransformsValue _ _ _ _) as [|[]] eqn:E;
      try done. by apply addressable_never_panics in E. }
  destruct v as [|[w|]| | | |]; try apply H; [|done].
  simpl. specialize (H w). by destruct (transformTarget n w).
Qed.

(** With an argument for every parameter, the two loops stay in bounds. *)
Lemma transformArgs_length ps args :
  length ps ≤ length args →
  transformArgs ps args ≠ Panics ∧
  ∀ args', transformArgs ps args = Done args' →
    length args' = length args ∧
    ∀ i p a a', ps !! i = Some p → args !! i = Some a → args' !! i = Some a' →
      match isStruct (pi_type p) with
      | Some n => transformArg n a = Done a'
      | None => a' = a
      end.
Proof.
  revert args. induction ps as [|p ps IH]; intros args Hl; simpl.
  { split; [done|]. by intros args' [= <-]. }
  destruct args as [|a args]; simpl in *; [lia|].
  destruct (IH args) as [Hp Hd]; [lia|].
  destruct (isStruct (pi_type p)) as [n|] eqn:En; split.
  - intros [H|(a' & _ & [H|(r & _ & H)]%outcome_bind_Panics)]%outcome_bind_Panics; try done.
    by eapply transformArg_Panics.
  - intros args' (a' & Ha & (r & Hr & [= <-])%outcome_bind_Done)%outcome_bind_Done.
    destruct (Hd r Hr) as [Hlen Hi]. split; [simpl; lia|].
    intros [|i] p0 a0 a0' H1 H2 H3; simplify_eq/=; [by rewrite En|]. by eapply Hi.
  - intros [H|(r & _ & H)]%outcome_bind_Panics; done.
  - intros args' (r & Hr & [= <-])%outcome_bind_Done.
    destruct (Hd r Hr) as [Hlen Hi]. split; [simpl; lia|].
    intros [|i] p0 a0 a0' H1 H2 H3; simplify_eq/=; [by rewrite En|]. by eapply Hi.
Qed.

Lemma validateArgs_length check ps args :
  length ps ≤ length args →
  validateArgs check ps args ≠ Panics ∧
  (validateArgs check ps args = Done () →
    ∀ i p a, ps !! i = Some p → args !! i = Some a →
      is_Some (isStruct (pi_type p)) → check (derefArg a) = None).
Proof.
  revert args. induction ps as [|p ps IH]; intros args Hl; simpl.
  { split; [done|]. intros _ i p a. by rewrite lookup_nil. }
  destruct args as [|a args]; simpl in *; [lia|].
  destruct (IH args) as [Hp Hd]; [lia|].
  destruct (isStruct (pi_type p)) as [n|] eqn:En; simpl.
  - destruct (check (derefArg a)) as [e|] eqn:Ec; (split; [done|]); [done|].
    intros Hv [|i] p0 a0 H1 H2 Hs; simplify_eq/=; [done|]. by eapply Hd.
  - split; [done|]. intros Hv [|i] p0 a0 H1 H2 Hs; simplify_eq/=.
    + rewrite En in Hs. by apply is_Some_None in Hs.
    + by eapply Hd.
Qed.

Lemma decodeArgs_length ps params args :
  hasVariadic ps = false → decodeArgs ps params = Done args → length args = length ps.
Proof.
  intros Hv. unfold decodeArgs. destruct ps as [|p ps]; [by intros [= <-]|].
  destruct (if bool_decide _ then _ else _) as [raws|]; [|done]. rewrite Hv.
  case_decide as Hl; [|done]. intros Hd.
  apply unmarshalAll_Done in Hd as [Hd _]; [by rewrite length_fmap in Hd|].
  by rewrite length_fmap.
Qed.

(** ** Properties *)

(** For a handler without a variadic parameter, building the arguments never
    panics, and when it succeeds there is one argument per parameter, each struct
    argument is its decoded value with the transform tags applied, and the validator
    accepted every one of them. *)
Theorem buildArgs_fixed_arity ps params :
  hasVariadic ps = false →
  buildArgs ps params ≠ Panics ∧
  ∀ args, buildArgs ps params = Done args →
    length args = length ps ∧
    ∃ decoded, decodeArgs ps params = Done decoded ∧
    ∀ i p a d n, ps !! i = Some p → args !! i = Some a → decoded !! i = Some d →
      isStruct (pi_type p) = Some n →
      transformArg n d = Done a ∧
      match validator with Some check => check (derefArg a) = None | None => True end.
Proof.
  intros Hv. unfold buildArgs. split.
  - intros [H|(args & Hd & [H|(args' & Ht & H)]%outcome_bind_Panics)]%outcome_bind_Panics.
    + by eapply decodeArgs_Panics.
    + apply (decodeArgs_length _ _ _ Hv) in Hd.
      by apply (proj1 (transformArgs_length ps args ltac:(lia))).
    + apply (decodeArgs_length _ _ _ Hv) in Hd.
      destruct (proj2 (transformArgs_length ps args ltac:(lia)) _ Ht) as [Hl _].
      destruct validator as [check|]; [|done].
      apply outcome_bind_Panics in H as [H|([] & _ & H)]; [|done].
      by apply (proj1 (validateArgs_length check ps args' ltac:(lia))).
  - intros args (d & Hd & (args' & Ht & H)%outcome_bind_Done)%outcome_bind_Done.
    pose proof (decodeArgs_length _ _ _ Hv Hd) as Hl.
    destruct (proj2 (transformArgs_length ps d ltac:(lia)) _ Ht) as [Hl' Hi].
    assert (args = args' ∧ ∀ i p a, ps !! i = Some p → args' !! i = Some a →
      is_Some (isStruct (pi_type p)) →
      match validator with Some check => check (derefArg a) = None | None => True end)
      as [-> Hok].
    { destruct validator as [check|]; [|by injection H as <-].
      apply outcome_bind_Done in H as ([] & Hva & [= <-]). split; [done|].
      by apply (proj2 (validateArgs_length check ps args' ltac:(lia))). }
    split; [lia|]. exists d. split; [done|]. intros i p a d0 n H1 H2 H3 H4. split.
    + specialize (Hi i p d0 a H1 H3 H2). by rewrite H4 in Hi.
    + eapply Hok; [done|done|]. rewrite H4. eauto.
Qed.

(** A handler whose variadic parameter is a struct panics when it is called
    without a variadic argument, though the argument count check accepts that call. *)
Theorem variadic_struct_empty_panics t n params :
  isStruct t = Some n → params = EmptyString ∨ parseArray params = Some [] →
  buildArgs [Param t true] params = Panics.
Proof.
  intros Ht Hp. unfold buildArgs, decodeArgs. cbn [hasVariadic].
  assert ((if bool_decide (params = "") then Some [] else parseArray params) = Some []) as ->.
  { case_bool_decide; [done|]. by destruct Hp. }
  simpl. by rewrite Ht.
Qed.

(** Only the first variadic argument of a struct type is transformed and
    validated. The others reach the method as they were decoded, whatever the
    validator would say of them. *)
Theorem variadic_tail_unchecked t n params raw raws v vs a :
  isStruct t = Some n → params ≠ EmptyString → parseArray params = Some (raw :: raws) →
  unmarshalParam t raw = Done v → unmarshalVariadic t raws = Done vs →
  transformArg n v = Done a →
  match validator with Some check => check (derefArg a) = None | None => True end →
  buildArgs [Param t true] params = Done (a :: vs).
Proof.
  intros Ht Hp Hparse Hv Hvs Ha Hok. unfold buildArgs, decodeArgs.
  rewrite bool_decide_false by done. rewrite Hparse. simpl.
  rewrite Hv. simpl. rewrite Hvs. simpl. rewrite Ht. simpl. rewrite Ha. simpl.
  destruct validator as [check|]; [|done]. by rewrite Hok.
Qed.

End Build.

(** *** Concrete runs *)

#[local] Existing Instance asciiCase.

(** A decoder for the examples: every value is a struct of one string. *)
Definition exParse (s : string) : option (list string) :=
  if bool_decide (s = "[1,2]") then Some ["1"; "2"] else if bool_decide (s = "[1]") then Some ["1"] else None.

Definition exDecode (t : goType) (s : string) : option value := Some (VStruct [VString (lit s)]).

(** A validator that rejects the struct holding "2". *)
Definition exCheck (v : value) : option goerr :=
  match v with
  | VStruct [VString s] =>
      if bool_decide (s = lit "2") then Some (NewError 0 CodeValidationFailed "no") else None
  | _ => None
  end.

Lemma buildArgs_fixed_arity_witness :
  buildArgs ∅ exParse exDecode (Some exCheck) [Param (TStruct "R") false] "[1]" ≠ Panics.
Proof.
  exact (proj1 (buildArgs_fixed_arity ∅ exParse exDecode (Some exCheck)
    [Param (TStruct "R") false] "[1]" eq_refl)).
Defined.

Lemma variadic_struct_empty_panics_witness :
  buildArgs ∅ exParse exDecode (Some exCheck) [Param (TStruct "R") true] "" = Panics.
Proof.
  apply (variadic_struct_empty_panics ∅ exParse exDecode (Some exCheck) (TStruct "R") "R");
    [reflexivity|by left].
Defined.

Lemma variadic_tail_unchecked_witness :
  buildArgs ∅ exParse exDecode (Some exCheck) [Param (TStruct "R") true] "[1,2]" =
    Done [VStruct [VString (lit "1")]; VStruct [VString (lit "2")]] ∧
  exCheck (VStruct [VString (lit "2")]) ≠ None.
Proof.
  split; [|done].
  apply (variadic_tail_unchecked ∅ exParse exDecode (Some exCheck) (TStruct "R") "R" "[1,2]"
    "1" ["2"] (VStruct [VString (lit "1")])); reflexivity || done.
Defined.

End Args.
