(* ===== verification/Streaming.v ===== *)
(** * Streaming: stream_chunk batching and the stream loop
      (stream_chunk.go, connection.go, context.go)

    [Module Chunker] models [streamChunker]: the buffer, its thresholds, the
    MaxDelay timer and the sticky error, one method per atomic section. [Module
    Stream] models [streamIterator]: it consumes what happens during one iteration,
    in the order it happens: yields, timer flushes, cancels. The outcome of the
    [n]-th item or chunk frame handed to the transport is an oracle. *)

From S2P Require Import Prelude Protocol.
From stdpp Require Import prelude gmap strings list.
Import Protocol.

Module Chunker.

(** [StreamChunking], with the defaults filled in by [NewServer]. *)
Record StreamChunking := Chunking { MaxItems : Z; MaxBytes : Z; MaxDelay : Z }.

(** [sc_sent] is what the transport accepted, [sc_attempts] how many frames it was
    handed. *)
Record streamChunker := StreamChunker {
  sc_items : list string;
  sc_bytes : Z;
  sc_timer : bool;
  sc_err : option goerr;
  sc_sent : list (list string);
  sc_attempts : nat;
}.

Definition newStreamChunker : streamChunker := StreamChunker [] 0 false None [] 0.

Definition strLen (s : string) : Z := Z.of_nat (String.length s).

Section Chunk.
  Context (cfg : StreamChunking).
  (** The transport: the error of the [n]-th frame handed to it, if any. *)
  Context (send : nat → option goerr).

Definition stickErr (sc : streamChunker) (e : goerr) : streamChunker :=
  StreamChunker (sc_items sc) (sc_bytes sc) (sc_timer sc)
    (match sc_err sc with Some e' => Some e' | None => Some e end)
    (sc_sent sc) (sc_attempts sc).

Definition flushLocked (sc : streamChunker) : streamChunker * option goerr :=
  match sc_items sc with
  | [] =>
      (StreamChunker [] (sc_bytes sc) false (sc_err sc) (sc_sent sc) (sc_attempts sc),
       sc_err sc)
  | items =>
      match send (sc_attempts sc) with
      | Some e =>
          (stickErr (StreamChunker [] 0 false (sc_err sc) (sc_sent sc) (S (sc_attempts sc))) e,
           Some e)
      | None =>
          (StreamChunker [] 0 false (sc_err sc) (sc_sent sc ++ [items]) (S (sc_attempts sc)),
           None)
      end
  end.

(** [add]: the item comes with the result of marshaling it. *)
Definition add (sc : streamChunker) (item : res goerr string) : streamChunker * option goerr :=
  match item with
  | Err e => (stickErr sc e, Some e)
  | Ok data =>
      match sc_err sc with
      | Some e => (sc, Some e)
      | None =>
          let items := sc_items sc ++ [data] in
          let bytes := (sc_bytes sc + strLen data)%Z in
          let sc' := StreamChunker items bytes (sc_timer sc) None (sc_sent sc) (sc_attempts sc) in
          if bool_decide (MaxItems cfg ≤ Z.of_nat (length items))%Z || bool_decide (MaxBytes cfg ≤ bytes)%Z
          then flushLocked sc'
          else if bool_decide (length items = 1)
          then (StreamChunker items bytes true None (sc_sent sc) (sc_attempts sc), None)
          else (sc', None)
      end
  end.

(** [delayFlush], the timer's callback. *)
Definition delayFlush (sc : streamChunker) : streamChunker :=
  match sc_err sc with
  | None => (flushLocked sc).1
  | Some _ => sc
  end.

Definition close (sc : streamChunker) : streamChunker * option goerr := flushLocked sc.

(** ** Invariant *)

Definition total (l : list string) : Z := foldr (λ s n, (strLen s + n)%Z) 0%Z l.

Lemma total_app l1 l2 : total (l1 ++ l2) = (total l1 + total l2)%Z.
Proof. induction l1 as [|s l1 IH]; simpl; [done|]. rewrite IH. lia. Qed.

(** A chunk as the thresholds allow it: not empty, at most MaxItems items, and below
    MaxBytes before its last item. *)
Definition chunkOk (l : list string) : Prop :=
  l ≠ [] ∧ (Z.of_nat (length l) ≤ MaxItems cfg)%Z ∧ (total (take (pred (length l)) l) < MaxBytes cfg)%Z.

(** [acc] is what [add] accepted so far. *)
Record chunkInv (sc : streamChunker) (acc : list string) : Prop := {
  cv_bytes : sc_bytes sc = total (sc_items sc);
  cv_below : (Z.of_nat (length (sc_items sc)) < MaxItems cfg)%Z ∧ (total (sc_items sc) < MaxBytes cfg)%Z;
  cv_timer : sc_err sc = None → sc_items sc ≠ [] → sc_timer sc = true;
  cv_sent : Forall chunkOk (sc_sent sc);
  cv_prefix : concat (sc_sent sc) ++ sc_items sc `prefix_of` acc;
  cv_all : (∀ n, n < sc_attempts sc → send n = None) → concat (sc_sent sc) ++ sc_items sc = acc;
  cv_done : sc_err sc = None → ∀ n, n < sc_attempts sc → send n = None;
}.

Context (Hitems : (0 < MaxItems cfg)%Z) (Hbytes : (0 < MaxBytes cfg)%Z).

Lemma total_nonneg l : (0 ≤ total l)%Z.
Proof. induction l as [|s l IH]; simpl; [done|]. unfold strLen. lia. Qed.

Lemma total_take n l : (total (take n l) ≤ total l)%Z.
Proof.
  rewrite <- (take_drop n l) at 2. rewrite total_app. pose proof (total_nonneg (drop n l)). lia.
Qed.

Lemma chunkInv_new : chunkInv newStreamChunker [].
Proof. split; simpl; try done; try lia. Qed.

(** A state whose buffer may be flushed. *)
Record flushable (sc : streamChunker) (acc : list string) : Prop := {
  fl_chunk : sc_items sc ≠ [] → chunkOk (sc_items sc);
  fl_bytes : sc_items sc = [] → sc_bytes sc = 0%Z;
  fl_sent : Forall chunkOk (sc_sent sc);
  fl_prefix : concat (sc_sent sc) ++ sc_items sc `prefix_of` acc;
  fl_all : (∀ n, n < sc_attempts sc → send n = None) → concat (sc_sent sc) ++ sc_items sc = acc;
  fl_done : sc_err sc = None → ∀ n, n < sc_attempts sc → send n = None;
}.

Lemma chunkInv_flushable sc acc : chunkInv sc acc → flushable sc acc.
Proof.
  intros [H1 [H2 H2'] _ H4 H5 H6 H7]. split; try done.
  - intros Hne. split_and!; [done|lia|]. pose proof (total_take (pred (length (sc_items sc))) (sc_items sc)). lia.
  - intros E. by rewrite H1, E.
Qed.

Lemma flush_inv sc acc : flushable sc acc → chunkInv (flushLocked sc).1 acc.
Proof.
  intros [H1 H2 H3 H4 H5 H6]. unfold flushLocked. destruct (sc_items sc) as [|x l] eqn:E.
  { split; simpl; rewrite ?app_nil_r in *; try done; auto with lia. }
  destruct (send (sc_attempts sc)) as [e|] eqn:Es; split; simpl; rewrite ?app_nil_r; try done; try lia.
  - etransitivity; [|exact H4]. by eexists.
  - intros Hall. rewrite Hall in Es by lia. done.
  - by destruct (sc_err sc).
  - apply Forall_app. split; [done|]. apply Forall_singleton. by apply H1.
  - rewrite concat_app. simpl. by rewrite app_nil_r.
  - intros Hall. rewrite concat_app. simpl. rewrite app_nil_r. apply H5. intros n Hn.
    apply Hall. lia.
  - intros He n Hn. destruct (decide (n = sc_attempts sc)) as [->|]; [done|]. apply H6; [done|lia].
Qed.

(** What [add] accepts. *)
Definition accepted (sc : streamChunker) (item : res goerr string) : list string :=
  match item, sc_err sc with
  | Ok data, None => [data]
  | _, _ => []
  end.

Lemma add_inv sc acc item :
  chunkInv sc acc → chunkInv (add sc item).1 (acc ++ accepted sc item).
Proof.
  intros Hi. pose proof Hi as [H1 [H2 H2'] H3 H4 H5 H6 H7].
  unfold add, accepted. destruct item as [data|e].
  2: { rewrite app_nil_r. split; simpl; try done. by destruct (sc_err sc). by destruct (sc_err sc). }
  destruct (sc_err sc) as [e|] eqn:Ee; [by rewrite app_nil_r|].
  assert ((∀ n, n < sc_attempts sc → send n = None)) as Hok by (by apply H7).
  assert (concat (sc_sent sc) ++ sc_items sc ++ [data] = acc ++ [data]) as Hall.
  { by rewrite app_assoc, H6. }
  destruct (bool_decide _ || bool_decide _) eqn:Eb.
  - apply flush_inv. split; simpl; try done.
    + intros Hne. split_and!; [done| |].
      * rewrite length_app. simpl. lia.
      * rewrite length_app. simpl. rewrite Nat.add_1_r. simpl. by rewrite take_app_length.
    + intros Hnil. by apply app_eq_nil in Hnil as [_ ?].
    + by rewrite Hall.
  - apply orb_false_iff in Eb as [Eb1%bool_decide_eq_false Eb2%bool_decide_eq_false].
    assert (chunkInv (StreamChunker (sc_items sc ++ [data]) (sc_bytes sc + strLen data) true None
              (sc_sent sc) (sc_attempts sc)) (acc ++ [data])) as Hnew.
    { split; simpl; try done.
      - rewrite total_app, H1. simpl. lia.
      - rewrite total_app. simpl. split; lia.
      - by rewrite Hall. }
    case_bool_decide as Hone; [exact Hnew|]. simpl.
    assert (sc_timer sc = true) as Ht.
    { apply H3; [done|]. intros E. rewrite E in Hone. done. }
    by rewrite Ht.
Qed.

Lemma delayFlush_inv sc acc : chunkInv sc acc → chunkInv (delayFlush sc) acc.
Proof.
  intros Hi. unfold delayFlush. destruct (sc_err sc); [done|]. by apply flush_inv, chunkInv_flushable.
Qed.

Lemma close_inv sc acc : chunkInv sc acc → chunkInv (close sc).1 acc ∧ sc_items (close sc).1 = [].
Proof.
  intros Hi. split; [by apply flush_inv, chunkInv_flushable|].
  unfold close, flushLocked. destruct (sc_items sc); [done|]. by destruct (send _).
Qed.

(** A run of the chunker: adds by the iteration, flushes by the timer, then the
    close. *)
Inductive event := EvAdd (item : res goerr string) | EvTimer.

Fixpoint run (sc : streamChunker) (acc : list string) (evs : list event)
    : streamChunker * list string :=
  match evs with
  | [] => ((close sc).1, acc)
  | EvAdd item :: evs => run (add sc item).1 (acc ++ accepted sc item) evs
  | EvTimer :: evs => run (delayFlush sc) acc evs
  end.

Lemma run_inv sc acc evs :
  chunkInv sc acc →
  chunkInv (run sc acc evs).1 (run sc acc evs).2 ∧ sc_items (run sc acc evs).1 = [].
Proof.
  revert sc acc. induction evs as [|[item|] evs IH]; intros sc acc Hi; simpl.
  - by apply close_inv.
  - by apply IH, add_inv.
  - by apply IH, delayFlush_inv.
Qed.

(** ** Properties *)

(** Chunking loses, duplicates and reorders nothing. Whenever the timer fires
    among the adds, the chunks the transport accepted up to and including the closing
    flush concatenate to exactly the items added, in order, if no send failed, and to a
    prefix of them if one did; every chunk holds at least one and at most MaxItems
    items and stays below MaxBytes until its last item. *)
Theorem chunks_concat_to_items evs :
  let '(sc, acc) := run newStreamChunker [] evs in
  concat (sc_sent sc) `prefix_of` acc ∧
  ((∀ n, n < sc_attempts sc → send n = None) → concat (sc_sent sc) = acc) ∧
  Forall chunkOk (sc_sent sc).
Proof.
  pose proof (run_inv newStreamChunker [] evs chunkInv_new) as H.
  destruct (run _ _ _) as [sc acc]. destruct H as [[H1 H2 H3 H4 H5 H6 H7] Hn]. simpl in *.
  rewrite Hn, app_nil_r in *. done.
Qed.

(** No item waits for the end of the stream: while the stream is healthy, a
    buffer that holds items has its MaxDelay timer armed. *)
Theorem buffered_items_have_timer evs :
  let sc := foldl (λ sc e, match e with EvAdd i => (add sc i).1 | EvTimer => delayFlush sc end)
              newStreamChunker evs in
  sc_err sc = None → sc_items sc ≠ [] → sc_timer sc = true.
Proof.
  simpl. assert (∀ sc acc, chunkInv sc acc → ∃ acc', chunkInv (foldl (λ sc e,
    match e with EvAdd i => (add sc i).1 | EvTimer => delayFlush sc end) sc evs) acc') as Hf.
  { induction evs as [|[item|] evs IH]; intros sc acc Hi; simpl; [by eexists|..].
    - by eapply IH, add_inv.
    - by eapply IH, delayFlush_inv. }
  destruct (Hf _ _ chunkInv_new) as [acc' Hi]. apply (cv_timer _ _ Hi).
Qed.

End Chunk.

(** *** Concrete runs *)

Definition exChunking : StreamChunking := Chunking 2 64 20.

Lemma chunks_concat_to_items_witness :
  concat (sc_sent (run exChunking (λ _, None) newStreamChunker []
    [EvAdd (Ok "a"); EvTimer; EvAdd (Ok "b"); EvAdd (Ok "c"); EvAdd (Ok "d")]).1)
  = ["a"; "b"; "c"; "d"].
Proof.
  pose proof (chunks_concat_to_items exChunking (λ _, None) ltac:(reflexivity) ltac:(reflexivity)
    [EvAdd (Ok "a"); EvTimer; EvAdd (Ok "b"); EvAdd (Ok "c"); EvAdd (Ok "d")]) as H.
  exact (proj1 (proj2 H) (λ _ _, eq_refl)).
Defined.

Lemma buffered_items_have_timer_witness :
  sc_timer (foldl (λ sc e,
      match e with EvAdd i => (add exChunking (λ _, None) sc i).1
                 | EvTimer => delayFlush (λ _, None) sc end)
    newStreamChunker [EvAdd (Ok "a"); EvAdd (Ok "b"); EvAdd (Ok "c")]) = true.
Proof.
  exact (buffered_items_have_timer exChunking (λ _, None) ltac:(reflexivity) ltac:(reflexivity)
    [EvAdd (Ok "a"); EvAdd (Ok "b"); EvAdd (Ok "c")] eq_refl ltac:(discriminate)).
Defined.

End Chunker.

Module Stream.
Import Chunker.

(** ** The stream loop *)

(** What happens during one iteration: the handler yields an item (with the result
    of marshaling it), the chunker's timer fires, the request is canceled. *)
Inductive event :=
  | Yield (item : res goerr string)
  | TimerFires
  | Canceled (r : CancelReason).

Record loopState := LoopState {
  ls_chunker : option streamChunker;      (** [None] without StreamChunking *)
  ls_sent : list string;                  (** stream_item frames the transport took *)
  ls_attempts : nat;
  ls_ctx : option CancelReason;           (** [context.Cause], once canceled *)
  ls_err : option goerr;                  (** streamErr *)
  ls_count : nat;                         (** itemCount *)
  ls_stopped : bool;                      (** yield returned false *)
}.

Section Iterate.
  Context (cfg : StreamChunking) (send : nat → option goerr).

(** The yield callback. The iterator stops once it got false. *)
Definition yieldFn (s : loopState) (item : res goerr string) : loopState :=
  match ls_ctx s with
  | Some _ =>
      LoopState (ls_chunker s) (ls_sent s) (ls_attempts s) (ls_ctx s) (ls_err s) (ls_count s) true
  | None =>
      match ls_chunker s with
      | Some sc =>
          match add cfg send sc item with
          | (sc', Some e) =>
              LoopState (Some sc') (ls_sent s) (ls_attempts s) (ls_ctx s) (Some e) (ls_count s) true
          | (sc', None) =>
              LoopState (Some sc') (ls_sent s) (ls_attempts s) (ls_ctx s) (ls_err s)
                (S (ls_count s)) false
          end
      | None =>
          match item with
          | Err e =>
              LoopState None (ls_sent s) (ls_attempts s) (ls_ctx s) (Some e) (ls_count s) true
          | Ok data =>
              match send (ls_attempts s) with
              | Some e =>
                  LoopState None (ls_sent s) (S (ls_attempts s)) (ls_ctx s) (Some e)
                    (ls_count s) true
              | None =>
                  LoopState None (ls_sent s ++ [data]) (S (ls_attempts s)) (ls_ctx s) (ls_err s)
                    (S (ls_count s)) false
              end
          end
      end
  end.

Definition stepEvent (s : loopState) (e : event) : loopState :=
  match e with
  | Yield item => if ls_stopped s then s else yieldFn s item
  | TimerFires =>
      LoopState (delayFlush send <$> ls_chunker s) (ls_sent s) (ls_attempts s) (ls_ctx s)
        (ls_err s) (ls_count s) (ls_stopped s)
  | Canceled r =>
      LoopState (ls_chunker s) (ls_sent s) (ls_attempts s)
        (match ls_ctx s with Some r' => Some r' | None => Some r end)
        (ls_err s) (ls_count s) (ls_stopped s)
  end.

Definition startLoop (chunking : bool) : loopState :=
  LoopState (if chunking then Some newStreamChunker else None) [] 0 None None 0 false.

(** The stream's outcome: the frames the transport took, what each completion hook
    was called with, and the error returned for the observer. *)
Record streamResult := StreamResult {
  sr_frames : list frame;
  sr_hooks : list (option goerr * nat);
  sr_err : option goerr;
}.

Context (mappings : list (goerr * Z)) (marshalable : string → bool) (reqID : string).

(** [hooks.run]: every hook once, a panicking one included. *)
Definition runHooks (n : nat) (e : option goerr) (items : nat) : list (option goerr * nat) :=
  replicate n (e, items).

(** The iteration: the events, the recover, the closing flush. *)
Definition iterate (chunking : bool) (evs : list event) (panics : bool) : loopState :=
  let s := foldl stepEvent (startLoop chunking) evs in
  let err1 := if panics then Some panicError else ls_err s in
  match ls_chunker s with
  | None => LoopState None (ls_sent s) (ls_attempts s) (ls_ctx s) err1 (ls_count s) (ls_stopped s)
  | Some sc =>
      let '(sc', cerr) := close send sc in
      LoopState (Some sc') (ls_sent s) (ls_attempts s) (ls_ctx s)
        (match err1 with Some e => Some e | None => cerr end) (ls_count s) (ls_stopped s)
  end.

Definition dataFrames (s : loopState) : list frame :=
  match ls_chunker s with
  | None => FStreamItem reqID <$> ls_sent s
  | Some sc => FStreamChunk reqID <$> sc_sent sc
  end.

(** [streamErr != nil && ctx.Err() == nil && streamErr != ErrConnectionClosed]. *)
Definition endError (s : loopState) : option goerr :=
  match ls_err s, ls_ctx s with
  | Some e, None => if sameError e (ECancel ErrConnectionClosed) then None else Some e
  | _, _ => None
  end.

Definition finalErr (s : loopState) : option goerr :=
  match ls_ctx s with Some r => Some (ECancel r) | None => ls_err s end.

Definition streamIterator (chunking : bool) (seqNil : bool) (evs : list event) (panics : bool)
    (nHooks : nat) : streamResult :=
  if seqNil
  then StreamResult [sendStreamEnd mappings marshalable reqID None] (runHooks nHooks None 0) None
  else
    let s := iterate chunking evs panics in
    StreamResult (dataFrames s ++ [sendStreamEnd mappings marshalable reqID (endError s)])
      (runHooks nHooks (finalErr s) (ls_count s)) (endError s).

End Iterate.

(** The items a client sees in a list of frames. *)
Definition itemsOf (fs : list frame) : list string :=
  fs ≫= λ f, match f with FStreamItem _ i => [i] | FStreamChunk _ l => l | _ => [] end.

Definition isEnd (f : frame) : bool := match f with FStreamEnd _ _ _ _ => true | _ => false end.

Lemma itemsOf_items id l : itemsOf (FStreamItem id <$> l) = l.
Proof.
  induction l as [|i l IH]; [done|].
  change (i :: itemsOf (FStreamItem id <$> l) = i :: l). by rewrite IH.
Qed.

Lemma itemsOf_chunks id ls : itemsOf (FStreamChunk id <$> ls) = concat ls.
Proof.
  induction ls as [|l ls IH]; [done|].
  change (l ++ itemsOf (FStreamChunk id <$> ls) = l ++ concat ls). by rewrite IH.
Qed.

Lemma itemsOf_end ms m id e fs : itemsOf (fs ++ [sendStreamEnd ms m id e]) = itemsOf fs.
Proof.
  unfold itemsOf. rewrite bind_app. simpl.
  destruct e as [[]|]; simpl; try (destruct (LookupError _ _)); by rewrite app_nil_r.
Qed.

Lemma sendStreamEnd_isEnd ms m id e : isEnd (sendStreamEnd ms m id e) = true.
Proof. destruct e as [[]|]; simpl; try done; by destruct (LookupError _ _). Qed.

(** ** The unchunked loop and the chunked loop agree *)

(** Two states that differ in the batching only, on a transport without failures. *)
Record sameStream (u c : loopState) : Prop := {
  ss_u : ls_chunker u = None;
  ss_c : ∃ sc, ls_chunker c = Some sc ∧ concat (sc_sent sc) ++ sc_items sc = ls_sent u ∧
         (ls_stopped c = false → sc_err sc = None) ∧
         (sc_err sc = None ∨ sc_err sc = ls_err c);
  ss_ctx : ls_ctx u = ls_ctx c;
  ss_err : ls_err u = ls_err c;
  ss_count : ls_count u = ls_count c;
  ss_stopped : ls_stopped u = ls_stopped c;
}.

Section Agree.
  Context (cfg : StreamChunking).

Definition fine : nat → option goerr := λ _, None.

Lemma flush_fine sc :
  sc_err (flushLocked fine sc).1 = sc_err sc ∧
  concat (sc_sent (flushLocked fine sc).1) ++ sc_items (flushLocked fine sc).1 =
    concat (sc_sent sc) ++ sc_items sc ∧
  sc_items (flushLocked fine sc).1 = [] ∧
  ((flushLocked fine sc).2 = None ∨ (flushLocked fine sc).2 = sc_err sc).
Proof.
  unfold flushLocked, fine. destruct (sc_items sc) as [|x l] eqn:E; simpl.
  - split_and!; auto.
  - rewrite concat_app. simpl. rewrite !app_nil_r. split_and!; auto.
Qed.

Lemma add_fine sc data :
  sc_err sc = None →
  (add cfg fine sc (Ok data)).2 = None ∧ sc_err (add cfg fine sc (Ok data)).1 = None ∧
  concat (sc_sent (add cfg fine sc (Ok data)).1) ++ sc_items (add cfg fine sc (Ok data)).1 =
    (concat (sc_sent sc) ++ sc_items sc) ++ [data].
Proof.
  intros E. unfold add. rewrite E. destruct (bool_decide _ || bool_decide _).
  - match goal with |- context [flushLocked fine ?x] => destruct (flush_fine x) as (H1 & H2 & _ & H4) end.
    simpl in *. rewrite H1, H2, app_assoc. destruct H4 as [-> | ->]; done.
  - case_bool_decide; simpl; by rewrite app_assoc.
Qed.

Lemma step_agree u c e :
  sameStream u c → sameStream (stepEvent cfg fine u e) (stepEvent cfg fine c e).
Proof.
  intros [Hu (sc & Hc & Hcat & Herr & Hor) Hctx He Hcnt Hst]. destruct e as [item| |r]; simpl.
  - rewrite Hst. destruct (ls_stopped c) eqn:Es; [by split; eauto 10; rewrite Es; eauto 10|].
    specialize (Herr eq_refl). unfold yieldFn. rewrite Hctx, Hu, Hc.
    destruct (ls_ctx c) as [r|] eqn:Ec.
    { split; simpl; try done. exists sc. split_and!; auto. }
    destruct item as [data|e].
    + destruct (add_fine sc data Herr) as (H1 & H2 & H3).
      destruct (add cfg fine sc (Ok data)) as [sc' o]. simpl in *. subst o.
      split; simpl; try done; [|lia]. exists sc'. rewrite H3, Hcat. auto.
    + simpl. split; simpl; try done. exists (stickErr sc e). unfold stickErr. simpl.
      rewrite Herr. split_and!; [done|done|done|by right].
  - rewrite Hc. split; simpl; try done; [by rewrite Hu|]. eexists. split; [done|].
    unfold delayFlush. destruct (sc_err sc) as [e|] eqn:E.
    { rewrite ?E in *. auto. }
    destruct (flush_fine sc) as (H1 & H2 & _). rewrite H1, H2, E. auto.
  - split; simpl; try done; [|by rewrite Hctx]. exists sc. auto.
Qed.

Lemma loop_agree evs :
  sameStream (foldl (stepEvent cfg fine) (startLoop false) evs)
             (foldl (stepEvent cfg fine) (startLoop true) evs).
Proof.
  assert (∀ u c, sameStream u c →
    sameStream (foldl (stepEvent cfg fine) u evs) (foldl (stepEvent cfg fine) c evs)) as H.
  { induction evs as [|e evs IH]; intros u c Hs; simpl; [done|]. by apply IH, step_agree. }
  apply H. split; simpl; try done. exists newStreamChunker. auto.
Qed.

(** ** Properties *)

(** Batching is invisible. On a transport without failures, a stream sent in
    chunks carries exactly the items, in the order, with the same end frame, the same
    completion-hook calls and the same reported outcome as the stream sent item by
    item, whatever yields, marshaling errors, cancels, timer flushes and panics the
    iteration is made of. *)
Theorem chunking_transparent ms marshalable id seqNil evs panics nHooks :
  let u := streamIterator cfg fine ms marshalable id false seqNil evs panics nHooks in
  let c := streamIterator cfg fine ms marshalable id true seqNil evs panics nHooks in
  itemsOf (sr_frames u) = itemsOf (sr_frames c) ∧
  last (sr_frames u) = last (sr_frames c) ∧
  sr_hooks u = sr_hooks c ∧ sr_err u = sr_err c.
Proof.
  unfold streamIterator. destruct seqNil; [done|]. simpl.
  rewrite !itemsOf_end, !last_snoc.
  pose proof (loop_agree evs) as [Hu (sc & Hc & Hcat & Hst & Hor) Hctx He Hcnt _].
  unfold iterate. rewrite Hu, Hc. destruct (flush_fine sc) as (H1 & H2 & H3 & H4).
  unfold close. destruct (flushLocked fine sc) as [sc' o]. simpl in *.
  set (u := foldl _ (startLoop false) evs) in *. set (c := foldl _ (startLoop true) evs) in *.
  assert ((if panics then Some panicError else ls_err u) =
          match (if panics then Some panicError else ls_err c) with
          | Some e => Some e | None => o end) as Herr.
  { rewrite He. destruct panics; [done|]. destruct (ls_err c) eqn:Ec; [done|].
    destruct H4 as [-> | ->]; [done|]. by destruct Hor as [-> | ->]. }
  unfold endError, finalErr, dataFrames. cbn [ls_err ls_ctx ls_chunker ls_sent ls_count].
  rewrite <- Herr, Hctx, Hcnt. split_and!; [|done..].
  rewrite itemsOf_items, itemsOf_chunks. rewrite <- Hcat, <- H2, H3. by rewrite app_nil_r.
Qed.

End Agree.

(** A stream ends exactly once and reports what it did. The last frame handed to
    the transport is the only end frame; every completion hook runs exactly once, with
    the number of items whose yield was accepted; a cancel is reported to the hooks as
    its own cause and reaches the client as a clean end, whatever error it provoked;
    otherwise hooks, client and observer get the iteration's error, except that a
    connection that went away ends clean for the client. *)
Theorem stream_ends_once cfg send ms marshalable id chunking evs panics nHooks :
  let r := streamIterator cfg send ms marshalable id chunking false evs panics nHooks in
  let s := iterate cfg send chunking evs panics in
  (∃ datas, sr_frames r = datas ++ [sendStreamEnd ms marshalable id (sr_err r)] ∧
     Forall (λ f, isEnd f = false) datas) ∧
  isEnd (sendStreamEnd ms marshalable id (sr_err r)) = true ∧
  match ls_ctx s with
  | Some reason =>
      sr_hooks r = replicate nHooks (Some (ECancel reason), ls_count s) ∧ sr_err r = None
  | None =>
      sr_hooks r = replicate nHooks (ls_err s, ls_count s) ∧
      (sr_err r = ls_err s ∨
       sr_err r = None ∧ ∃ e, ls_err s = Some e ∧ sameError e (ECancel ErrConnectionClosed) = true)
  end.
Proof.
  unfold streamIterator. simpl. set (s := iterate cfg send chunking evs panics).
  split_and!.
  - eexists. split; [done|]. unfold dataFrames.
    destruct (ls_chunker _); apply Forall_fmap, Forall_true; done.
  - apply sendStreamEnd_isEnd.
  - unfold endError, finalErr, runHooks. destruct (ls_ctx s) as [reason|].
    + split; [done|]. by destruct (ls_err s).
    + split; [done|]. destruct (ls_err s) as [e|]; [|by left].
      destruct (sameError e (ECancel ErrConnectionClosed)) eqn:E; [right|by left]. eauto.
Qed.

End Stream.
