(* ===== verification/Server.v ===== *)
(** * Server: options, user index and connection teardown (server.go, connection.go)

    [Module Options] models the merge of [NewServer]. [Module Users] models the user index, with [SetUserID] split
    into the critical sections it takes. [Module Teardown] runs the subscription
    index against connections that close. *)

From S2P Require Import Prelude Streaming Subscriptions.
From stdpp Require Import prelude gmap strings list fin_maps fin_sets.

Module Options.
Import Chunker.

(** [ServerOptions]; durations are int64 nanoseconds. The observer and the logger
    are whether they are set. *)
Record ServerOptions := ServerOpts {
  ReconnectInterval : Z;
  ReconnectMaxInterval : Z;
  ReconnectMaxAttempts : Z;
  MaxMessageSize : Z;
  WriteTimeout : Z;
  PingInterval : Z;
  PongTimeout : Z;
  MaxConcurrentRequests : Z;
  MaxServerConcurrentRequests : Z;
  MaxSubscriptions : Z;
  Observer : bool;
  Logger : bool;
  AuthTimeout : Z;
  AllowAnonymous : bool;
  StreamChunkingOpt : option StreamChunking;
}.

Definition millisecond : Z := 1000000.
Definition second : Z := 1000000000.

Definition defaultServerOptions : ServerOptions :=
  ServerOpts 1000 10000 0 (Z.shiftl 4 20) (30 * second) (30 * second) (60 * second)
    256 10000 1024 false false (10 * second) false None.

(** [if opt.X > 0 { options.X = opt.X }] and [if opt.X != 0 { ... }]. *)
Definition ifPositive (o d : Z) : Z := if bool_decide (0 < o)%Z then o else d.
Definition ifSet (o d : Z) : Z := if bool_decide (o ≠ 0%Z) then o else d.

Definition fillChunking (c : StreamChunking) : StreamChunking :=
  Chunking (ifPositive (MaxItems c) 128) (ifPositive (MaxBytes c) (Z.shiftl 64 10))
    (ifPositive (MaxDelay c) (20 * millisecond)).

Definition mergeOptions (o d : ServerOptions) : ServerOptions :=
  ServerOpts
    (ifPositive (ReconnectInterval o) (ReconnectInterval d))
    (ifPositive (ReconnectMaxInterval o) (ReconnectMaxInterval d))
    (ifPositive (ReconnectMaxAttempts o) (ReconnectMaxAttempts d))
    (ifSet (MaxMessageSize o) (MaxMessageSize d))
    (ifSet (WriteTimeout o) (WriteTimeout d))
    (ifSet (PingInterval o) (PingInterval d))
    (ifSet (PongTimeout o) (PongTimeout d))
    (ifSet (MaxConcurrentRequests o) (MaxConcurrentRequests d))
    (ifSet (MaxServerConcurrentRequests o) (MaxServerConcurrentRequests d))
    (ifSet (MaxSubscriptions o) (MaxSubscriptions d))
    (Observer o || Observer d) (Logger o || Logger d)
    (ifSet (AuthTimeout o) (AuthTimeout d))
    (AllowAnonymous o)
    (match StreamChunkingOpt o with
     | Some c => Some (fillChunking c)
     | None => StreamChunkingOpt d
     end).

(** The clamp of the pong timeout; the doubling wraps at 64 bits. *)
Definition clampPong (o : ServerOptions) : ServerOptions :=
  if bool_decide (0 < PingInterval o)%Z && bool_decide (0 < PongTimeout o)%Z &&
     bool_decide (PongTimeout o ≤ PingInterval o)%Z
  then ServerOpts (ReconnectInterval o) (ReconnectMaxInterval o) (ReconnectMaxAttempts o)
         (MaxMessageSize o) (WriteTimeout o) (PingInterval o) (wrapS64 (2 * PingInterval o))
         (MaxConcurrentRequests o) (MaxServerConcurrentRequests o) (MaxSubscriptions o)
         (Observer o) (Logger o) (AuthTimeout o) (AllowAnonymous o) (StreamChunkingOpt o)
  else o.

(** The options [NewServer] runs with. *)
Definition serverOptions (opt : option ServerOptions) : ServerOptions :=
  clampPong (match opt with
             | Some o => mergeOptions o defaultServerOptions
             | None => defaultServerOptions
             end).

(** The options a server runs with are sane whatever the caller passed: with pings
    and the pong deadline both on, a healthy connection has time for its next pong (for
    any ping interval below 2^62 ns, about 146 years); the reconnect steps are positive;
    and chunking, when on, has positive thresholds. *)
Theorem options_sane opt :
  let o := serverOptions opt in
  ((0 < PingInterval o < 2 ^ 62)%Z → (0 < PongTimeout o)%Z → (PingInterval o < PongTimeout o)%Z) ∧
  (0 < ReconnectInterval o)%Z ∧ (0 < ReconnectMaxInterval o)%Z ∧
  (∀ c, StreamChunkingOpt o = Some c → 0 < MaxItems c ∧ 0 < MaxBytes c ∧ 0 < MaxDelay c)%Z.
Proof.
  intros o. assert (∃ b, o = clampPong b ∧ (0 < ReconnectInterval b)%Z ∧
    (0 < ReconnectMaxInterval b)%Z ∧
    (∀ c, StreamChunkingOpt b = Some c → 0 < MaxItems c ∧ 0 < MaxBytes c ∧ 0 < MaxDelay c)%Z)
    as (b & -> & H1 & H2 & H3).
  { unfold o, serverOptions. destruct opt as [op|]; eexists; (split; [done|]); [|done].
    simpl. unfold fillChunking, ifPositive.
    split_and!; [by case_bool_decide|by case_bool_decide|].
    intros c. destruct (StreamChunkingOpt op) as [c0|]; [|done]. intros [= <-]. simpl.
    split_and!; by case_bool_decide. }
  unfold clampPong. repeat case_bool_decide; simpl; split_and!; try done; try lia.
  intros Hp _. rewrite wrapS64_id by lia. lia.
Qed.

End Options.

Module Users.

(** ** The user index *)

(** What a call still has to do under [s.mu] after it released [c.mu]. *)
Inductive stage :=
  | NeedRemove (old new : string)     (** [SetUserID] has to leave [old] *)
  | NeedAdd (new : string)            (** [SetUserID] has to join [new] *)
  | NeedDrop (u : string).            (** [disassociateUser] has to leave [u] *)

Record users := UserState {
  us_userID : gmap nat string;               (** [Conn.userID]; absent is "" *)
  us_index : gmap string (gset nat);         (** [s.userConns] *)
  us_detached : gset nat;
  us_calls : gmap nat (nat * stage);         (** calls in flight, with their connection *)
  us_gone : gset nat;                        (** connections [run] disassociated *)
}.

Definition newUsers (detached : gset nat) : users := UserState ∅ ∅ detached ∅ ∅.

Definition UserID (s : users) (c : nat) : string := default "" (us_userID s !! c).

Inductive event :=
  | EvSetUserID (k c : nat) (u : string)     (** the section of [SetUserID] under [c.mu] *)
  | EvDisassociate (k c : nat)               (** [disassociateUser] reads the user *)
  | EvStage (k : nat).                       (** call [k]'s next section under [s.mu] *)

(** What [SetUserID] does once it has swapped the user under [c.mu]. *)
Definition afterSwap (old new : string) : option stage :=
  if bool_decide (old ≠ "") && bool_decide (old ≠ new) then Some (NeedRemove old new)
  else if bool_decide (new ≠ "") then Some (NeedAdd new)
  else None.

Definition setCall (k : nat) (c : nat) (o : option stage) (m : gmap nat (nat * stage))
    : gmap nat (nat * stage) :=
  match o with Some g => <[k := (c, g)]> m | None => delete k m end.

Definition SetUserID (s : users) (k c : nat) (u : string) : users :=
  let old := UserID s c in
  UserState (<[c := u]> (us_userID s)) (us_index s) (us_detached s)
    (if decide (c ∈ us_detached s) then us_calls s
     else setCall k c (afterSwap old u) (us_calls s))
    (us_gone s).

(** [associateUser] and the two removals are the bucket operations. *)
Definition associateUser (c : nat) (u : string) : gmap string (gset nat) → gmap string (gset nat) :=
  bucketAdd u c.

Definition runStage (s : users) (k : nat) : users :=
  match us_calls s !! k with
  | None => s
  | Some (c, NeedRemove old new) =>
      UserState (us_userID s) (bucketDel old c (us_index s)) (us_detached s)
        (setCall k c (if bool_decide (new ≠ "") then Some (NeedAdd new) else None) (us_calls s))
        (us_gone s)
  | Some (c, NeedAdd new) =>
      UserState (us_userID s) (associateUser c new (us_index s)) (us_detached s)
        (delete k (us_calls s)) (us_gone s)
  | Some (c, NeedDrop u) =>
      UserState (us_userID s) (bucketDel u c (us_index s)) (us_detached s)
        (delete k (us_calls s)) (us_gone s)
  end.

Definition disassociateUser (s : users) (k c : nat) : users :=
  UserState (us_userID s) (us_index s) (us_detached s)
    (if bool_decide (UserID s c = "") then us_calls s
     else <[k := (c, NeedDrop (UserID s c))]> (us_calls s))
    ({[c]} ∪ us_gone s).

Definition step (s : users) (e : event) : users :=
  match e with
  | EvSetUserID k c u => SetUserID s k c u
  | EvDisassociate k c => disassociateUser s k c
  | EvStage k => runStage s k
  end.

(** *** Fan-out *)

(** [PushToUser]: the connections pushed to; [now] is each connection's user when its
    turn comes. *)
Definition PushToUser `{!RangeOrder nat} (s : users) (u : string) (now : nat → string) : list nat :=
  filter (λ c, now c = u) (range_of (bucket (us_index s) u)).

(** [DisconnectUser]: the connections closed and the count returned; [closes c] is
    whether this call performs [c]'s close. *)
Definition DisconnectUser `{!RangeOrder nat} (s : users) (u : string) (now : nat → string)
    (closes : nat → bool) : list nat * nat :=
  if bool_decide (u = "") then ([], 0)
  else
    let targets := filter (λ c, now c = u) (range_of (bucket (us_index s) u)) in
    (targets, length (filter (λ c, closes c = true) targets)).

(** ** The index invariant *)

Definition idle (s : users) (c : nat) : Prop := ∀ k g, us_calls s !! k ≠ Some (c, g).

(** One call at a time on a connection, under a fresh call number, and none once the
    connection is gone. [run] disassociates registered connections only. *)
Definition serial (s : users) (e : event) : Prop :=
  match e with
  | EvSetUserID k c _ => us_calls s !! k = None ∧ idle s c ∧ (c ∉ us_gone s)
  | EvDisassociate k c => us_calls s !! k = None ∧ idle s c ∧ (c ∉ us_detached s)
  | EvStage _ => True
  end.

Definition serialStep (s s' : users) : Prop := ∃ e, serial s e ∧ s' = step s e.

Definition reach (detached : gset nat) : users → Prop :=
  reachable (λ s, s = newUsers detached) serialStep.

Definition indexed (s : users) (c : nat) (u : string) : Prop := c ∈ bucket (us_index s) u.

(** What the index says of a connection no call is working on. *)
Definition idleOk (s : users) (c : nat) : Prop :=
  (∀ u, indexed s c u → (c ∉ us_detached s) ∧ (c ∉ us_gone s) ∧ u = UserID s c ∧ u ≠ "") ∧
  (c ∉ us_detached s → c ∉ us_gone s → UserID s c ≠ "" → indexed s c (UserID s c)).

(** And of one a call is working on, by the stage of the call. *)
Definition stageOk (s : users) (c : nat) (g : stage) : Prop :=
  (c ∉ us_detached s) ∧
  match g with
  | NeedRemove old new => UserID s c = new ∧ (c ∉ us_gone s) ∧ ∀ u, indexed s c u → u = old
  | NeedAdd new => UserID s c = new ∧ (c ∉ us_gone s) ∧ new ≠ "" ∧ ∀ u, indexed s c u → u = new
  | NeedDrop old => c ∈ us_gone s ∧ ∀ u, indexed s c u → u = old
  end.

Definition connOk (s : users) (c : nat) : Prop :=
  (idle s c ∧ idleOk s c) ∨
  (∃ k g, us_calls s !! k = Some (c, g) ∧
     (∀ k' g', us_calls s !! k' = Some (c, g') → k' = k) ∧ stageOk s c g).

Definition usersOk (s : users) : Prop := ∀ c, connOk s c.

(** A connection is unaffected by what leaves its calls, user and entries alone. *)
Lemma connOk_frame s s' c :
  (∀ k g, us_calls s !! k = Some (c, g) ↔ us_calls s' !! k = Some (c, g)) →
  UserID s' c = UserID s c → (∀ u, indexed s' c u ↔ indexed s c u) →
  us_detached s' = us_detached s → (c ∈ us_gone s' ↔ c ∈ us_gone s) →
  connOk s c → connOk s' c.
Proof.
  intros Hcalls Hu Hix Hd Hg [[Hidle [H1 H2]]|(k & g & Hk & Hone & Hd0 & Hst)].
  - left. unfold idleOk. rewrite Hu, Hd. split_and!.
    + intros k g Hk. apply (Hidle k g). by apply Hcalls.
    + intros u Hin. rewrite Hg. by apply H1, Hix.
    + rewrite Hg. intros. apply Hix. by apply H2.
  - right. exists k, g. unfold stageOk. rewrite Hu, Hd. split_and!; [by apply Hcalls| |done|].
    + intros k' g' Hk'. apply (Hone k' g'). by apply Hcalls.
    + destruct g; rewrite Hg; setoid_rewrite Hix; done.
Qed.

Lemma setCall_other k c o m k' c' g :
  c' ≠ c → (m !! k = None ∨ ∃ g0, m !! k = Some (c, g0)) →
  setCall k c o m !! k' = Some (c', g) ↔ m !! k' = Some (c', g).
Proof.
  intros Hne Hk. unfold setCall. destruct (decide (k' = k)) as [->|].
  - destruct o; rewrite ?lookup_insert_eq, ?lookup_delete_eq;
      destruct Hk as [->|[g0 ->]]; split; congruence.
  - destruct o; by rewrite ?lookup_insert_ne, ?lookup_delete_ne by done.
Qed.

(** After a call's next stage: where its connection stands. *)
Lemma setCall_own k c o m :
  (∀ k' g', m !! k' = Some (c, g') → k' = k) →
  match o with
  | Some g => setCall k c o m !! k = Some (c, g) ∧
              ∀ k' g', setCall k c o m !! k' = Some (c, g') → k' = k
  | None => ∀ k' g', setCall k c o m !! k' ≠ Some (c, g')
  end.
Proof.
  intros H. destruct o as [g|]; simpl.
  - rewrite lookup_insert_eq. split; [done|]. intros k' g'.
    destruct (decide (k' = k)) as [->|]; [done|]. rewrite lookup_insert_ne by done. apply H.
  - intros k' g' Hk. rewrite lookup_delete_Some in Hk. destruct Hk as [Hne Hk].
    by apply Hne; symmetry; eapply H.
Qed.

(** The invariant of a connection whose call moves to [o]. *)
Lemma connOk_own s k c o m :
  us_calls s = setCall k c o m → (∀ k' g', m !! k' = Some (c, g') → k' = k) →
  match o with Some g => stageOk s c g | None => idleOk s c end → connOk s c.
Proof.
  intros Hs Hm Ho. pose proof (setCall_own k c o m Hm) as H. rewrite <- Hs in H.
  destruct o as [g|]; [right|left; by split]. destruct H. by exists k, g.
Qed.

Lemma idle_unique s c k : idle s c → ∀ k' g', us_calls s !! k' = Some (c, g') → k' = k.
Proof. intros H k' g' Hk. by apply H in Hk. Qed.

Lemma idle_idleOk s c : usersOk s → idle s c → idleOk s c.
Proof. intros H Hi. destruct (H c) as [[_ ?]|(k & g & Hk & _)]; [done|]. by apply Hi in Hk. Qed.

Lemma UserID_set s c u idx d calls gone c' :
  UserID (UserState (<[c:=u]> (us_userID s)) idx d calls gone) c' =
  if decide (c' = c) then u else UserID s c'.
Proof.
  unfold UserID. simpl. case_decide; subst; by rewrite ?lookup_insert_eq, ?lookup_insert_ne by done.
Qed.

Lemma setUserID_ok s k c u :
  usersOk s → serial s (EvSetUserID k c u) → usersOk (SetUserID s k c u).
Proof.
  intros Hok (Hk & Hidle & Hgone) c'. unfold SetUserID.
  destruct (decide (c' = c)) as [->|Hne]; last first.
  { eapply connOk_frame, Hok; simpl; try done.
    - intros k' g. case_decide; [done|]. rewrite setCall_other by (done || by left). done.
    - rewrite UserID_set. by rewrite decide_False. }
  pose proof (idle_idleOk s c Hok Hidle) as [H1 H2]. case_decide as Hd.
  { left. split; [done|]. split; simpl; [|done]. intros u' Hin. by apply H1 in Hin as [? _]. }
  eapply connOk_own; [done|by apply idle_unique|].
  unfold afterSwap, stageOk, idleOk. simpl. rewrite !UserID_set, decide_True by done.
  repeat case_bool_decide; simpl; split_and!; try done; intros u' Hin; apply H1 in Hin;
    naive_solver.
Qed.

Lemma disassociate_ok s k c :
  usersOk s → serial s (EvDisassociate k c) → usersOk (disassociateUser s k c).
Proof.
  intros Hok (Hk & Hidle & Hdet) c'. unfold disassociateUser.
  destruct (decide (c' = c)) as [->|Hne]; last first.
  { eapply connOk_frame, Hok; simpl; try done; [|set_solver].
    intros k' g. case_bool_decide; [done|].
    apply symmetry, (setCall_other k c (Some (NeedDrop (UserID s c)))); auto. }
  pose proof (idle_idleOk s c Hok Hidle) as [H1 H2]. case_bool_decide as Hu.
  - left. split; [done|]. split; simpl; [|set_solver]. intros u Hin.
    apply H1 in Hin as (_ & _ & -> & Hne). by destruct Hne.
  - eapply (connOk_own _ k c (Some (NeedDrop (UserID s c)))); [done|by apply idle_unique|].
    split_and!; simpl; [done|set_solver|]. intros u Hin. by apply H1 in Hin as (_ & _ & -> & _).
Qed.

Lemma runStage_ok s k : usersOk s → usersOk (runStage s k).
Proof.
  intros Hok c'. unfold runStage. destruct (us_calls s !! k) as [[c g]|] eqn:Ek; [|apply Hok].
  pose proof (Hok c) as [[Hi _]|(k0 & g0 & Hk0 & Hone & Hst)]; [by apply Hi in Ek|].
  assert (k0 = k) as -> by (symmetry; by eapply Hone). rewrite Ek in Hk0. simplify_eq.
  destruct Hst as [Hd Hst]. destruct (decide (c' = c)) as [->|Hne].
  - destruct g0 as [old new|new|u].
    + eapply connOk_own; [done|done|]. case_bool_decide; unfold stageOk, idleOk, indexed; simpl;
        setoid_rewrite bucketDel_spec; destruct Hst as (HU & Hg & Hin);
        change (UserID (UserState _ _ _ _ _) c) with (UserID s c); rewrite HU;
        naive_solver.
    + destruct Hst as (HU & Hg & Hn & Hin). eapply (connOk_own _ k c None); [done|done|].
      unfold idleOk, indexed, associateUser. simpl. setoid_rewrite bucketAdd_spec.
      change (UserID (UserState _ _ _ _ _) c) with (UserID s c). rewrite HU.
      split; [|by auto]. intros u [[-> _]|Hu]; [done|]. by rewrite (Hin u Hu).
    + destruct Hst as (Hg & Hin). eapply (connOk_own _ k c None); [done|done|].
      unfold idleOk, indexed. simpl. setoid_rewrite bucketDel_spec.
      change (UserID (UserState _ _ _ _ _) c) with (UserID s c).
      split; [|done]. intros u' [Hu Hn]. destruct Hn. by rewrite (Hin u' Hu).
  - assert (∀ o k' g', setCall k c o (us_calls s) !! k' = Some (c', g') ↔
      us_calls s !! k' = Some (c', g')) as Hsc by (intros; apply setCall_other; eauto).
    destruct g0 as [old new|new|u]; (eapply connOk_frame, Hok); simpl; try done;
      unfold indexed, associateUser; simpl; intros.
    all: try (by rewrite Hsc). all: try (by rewrite <- (Hsc None)).
    all: rewrite ?bucketDel_spec, ?bucketAdd_spec; naive_solver.
Qed.

Lemma reach_usersOk detached s : reach detached s → usersOk s.
Proof.
  apply reachable_invariant.
  - intros s0 -> c. left. unfold idle, idleOk, indexed, UserID. simpl.
    setoid_rewrite lookup_empty. set_solver.
  - intros s0 s1 _ Hok ([k c u|k c|k] & Hs & ->); simpl;
      [by apply setUserID_ok|by apply disassociate_ok|by apply runStage_ok].
Qed.

Lemma reach_detached detached s : reach detached s → us_detached s = detached.
Proof.
  revert s. apply reachable_invariant; [by intros ? ->|]. intros s0 s1 _ H (e & _ & ->).
  destruct e as [| |k]; [done|done|]. simpl. unfold runStage.
  by destruct (us_calls s0 !! k) as [[c []]|].
Qed.

(** C36: the user index is right, provided the identity changes of a connection come one at
    a time and none comes after its disconnect was processed ([serial]; without that it goes
    stale for good, [late_set_user_leaks]). Then a connection no call is working on is filed
    under exactly its own non-empty user id, and not at all when it is detached or gone. So a
    push to a user, and a disconnect of one, acts exactly once on each settled connection of
    that user, and on no other settled connection, when the identities it reads on its way
    ([now]) are those of the snapshot; the disconnect counts the closes it performed. *)
Theorem index_precise `{!RangeOrder nat} detached s u :
  reach detached s →
  let belongs c := (c ∉ detached) ∧ (c ∉ us_gone s) ∧ UserID s c = u ∧ u ≠ "" in
  (∀ c, idle s c → indexed s c u ↔ belongs c) ∧
  (∀ now c, idle s c → now c = UserID s c → c ∈ PushToUser s u now ↔ belongs c) ∧
  (∀ now, NoDup (PushToUser s u now)) ∧
  (∀ now closes c, idle s c → now c = UserID s c →
     c ∈ (DisconnectUser s u now closes).1 ↔ belongs c) ∧
  (∀ now closes, NoDup (DisconnectUser s u now closes).1 ∧
     (DisconnectUser s u now closes).2 = length (filter (λ c, closes c = true) (DisconnectUser s u now closes).1)).
Proof.
  intros Hr belongs. assert (us_detached s = detached) as Hdet.
  { clear belongs. by apply reach_detached. }
  assert (∀ c, idle s c → indexed s c u ↔ belongs c) as Hix.
  { intros c Hi. destruct (idle_idleOk s c (reach_usersOk _ _ Hr) Hi) as [H1 H2].
    unfold belongs. rewrite <- Hdet. split; [|naive_solver]. intros (? & ? & ? & ?)%H1. naive_solver. }
  assert (∀ now c, idle s c → now c = UserID s c →
    c ∈ filter (λ c, now c = u) (range_of (bucket (us_index s) u)) ↔ belongs c) as Hf.
  { intros now c Hi Hn. rewrite list_elem_of_filter, elem_of_range_of, Hn.
    specialize (Hix c Hi). unfold indexed in Hix. rewrite Hix. unfold belongs. naive_solver. }
  assert (∀ now, NoDup (filter (λ c, now c = u) (range_of (bucket (us_index s) u)))) as Hnd
    by (intros; apply NoDup_filter, NoDup_range_of).
  split_and!; [done|exact Hf|exact Hnd| |]; intros now closes; unfold DisconnectUser;
    case_bool_decide as Hu; simpl.
  - intros c _ _. unfold belongs. split; [by intros ?%not_elem_of_nil|naive_solver].
  - exact (Hf now).
  - split; [constructor|done].
  - by split.
Qed.

(** *** Concrete runs *)

#[local] Existing Instance SubscriptionSpec.nat_order.

Definition exLogin : users := runs step (newUsers {[9]}) [EvSetUserID 0 1 "ann"; EvStage 0].

Lemma exLogin_reach : reach {[9]} exLogin.
Proof.
  apply (reach_step _ _ (step (newUsers {[9]}) (EvSetUserID 0 1 "ann"))); [|by exists (EvStage 0)].
  apply (reach_step _ _ (newUsers {[9]})); [by apply reach_init|].
  exists (EvSetUserID 0 1 "ann"). split; [|done]. split_and!; simpl; [done|by intros k g|set_solver].
Defined.

Lemma index_precise_witness :
  reach {[9]} exLogin ∧ 1 ∈ PushToUser exLogin "ann" (UserID exLogin).
Proof.
  split; [exact exLogin_reach|].
  refine (proj2 (proj1 (proj2 (index_precise {[9]} exLogin "ann" exLogin_reach)) (UserID exLogin) 1 _ eq_refl) _).
  - intros k g. assert (us_calls exLogin = ∅) as -> by (refine (bool_decide_unpack _ _); vm_compute; exact I).
    by rewrite lookup_empty.
  - split_and!; [set_solver|refine (bool_decide_unpack _ _); vm_compute; exact I|vm_compute; reflexivity|done].
Defined.

(** Connection 1 is disassociated, then a handler sets its user again. *)
Definition exLate : users := runs step (newUsers ∅)
  [EvSetUserID 0 1 "ann"; EvStage 0; EvDisassociate 1 1; EvStage 1; EvSetUserID 2 1 "ann";
   EvStage 2].

(** Two overlapping [SetUserID] calls on connection 1. *)
Definition exOverlap : users := runs step (newUsers ∅)
  [EvSetUserID 0 1 "ann"; EvSetUserID 1 1 "bob"; EvStage 1; EvStage 1; EvStage 0].

(** Without that discipline the index goes stale. A [SetUserID] that comes after the
    disconnect was processed (a handler still running when its connection closes), or two
    overlapping ones, leave a connection filed under a user for good: no later stage of
    any call removes it. *)
Theorem late_set_user_leaks evs :
  (1 ∈ us_gone exLate) ∧ UserID exOverlap 1 = "bob" ∧ idle exOverlap 1 ∧
  (Forall (λ e, ∃ k, e = EvStage k) evs →
   1 ∈ bucket (us_index (runs step exLate evs)) "ann" ∧
   1 ∈ bucket (us_index (runs step exOverlap evs)) "ann").
Proof.
  assert (∀ s, us_calls s = ∅ → Forall (λ e, ∃ k, e = EvStage k) evs →
    runs step s evs = s) as Hstill.
  { intros s Hs HF. induction HF as [|e evs [k ->] _ IH]; [done|]. simpl. unfold runStage.
    by rewrite Hs, lookup_empty. }
  assert (us_calls exLate = ∅ ∧ us_calls exOverlap = ∅) as [Hl Ho].
  { split; refine (bool_decide_unpack _ _); vm_compute; exact I. }
  split_and!.
  - refine (bool_decide_unpack _ _). vm_compute. exact I.
  - vm_compute. reflexivity.
  - intros k g. by rewrite Ho, lookup_empty.
  - intros HF. rewrite (Hstill _ Hl HF), (Hstill _ Ho HF).
    split; refine (bool_decide_unpack _ _); vm_compute; exact I.
Qed.

Lemma late_set_user_leaks_witness :
  Forall (λ e, ∃ k, e = EvStage k) [EvStage 7] ∧
  1 ∈ bucket (us_index (runs step exLate [EvStage 7])) "ann".
Proof.
  assert (Forall (λ e, ∃ k, e = EvStage k) [EvStage 7]) as HF.
  { constructor; [by exists 7|constructor]. }
  split; [exact HF|].
  exact (proj1 (proj2 (proj2 (proj2 (late_set_user_leaks [EvStage 7]))) HF)).
Defined.

End Users.

Module Teardown.
Import SubscriptionManager SubscriptionSpec.

(** ** Subscriptions against a connection that closes

    [register] reads the connection's closed flag and inserts under [sm.mu], but
    [closeWithCause] sets the flag under [c.mu] alone, so the flag can go up between the
    read and the insert. Both halves of [register] and of [closeWithCause] are steps
    here; a step that needs [sm.mu] waits while a registration holds it. Registrations
    may reuse an id that is held: [td_displaced] remembers whether one did. *)

Record conns := Conns {
  td_sm : subscriptionManager;
  td_lock : option (nat * subscription * connView);  (** the registration inside [sm.mu] *)
  td_closed : gset Z;                                (** connections with [closed] set *)
  td_pending : gset Z;                               (** closed, [unregisterConn] still to run *)
  td_displaced : bool;                               (** a held id was registered again *)
}.

Definition newConns : conns := Conns newSubscriptionManager None ∅ ∅ false.

Inductive event :=
  | EvRegBegin (max : option Z) (r : nat) (s : subscription)
  | EvRegEnd
  | EvUnregister (c : Z) (i : string)
  | EvUpdateKeys (c : Z) (i : string) (ks : gset string)
  | EvUpdateParams (c : Z) (i : string) (p : string) (w : bool)
  | EvCloseFlag (c : Z)
  | EvCloseSweep (c : Z).

(** An operation that takes [sm.mu]. *)
Definition locked (t : conns) (o : op) : conns :=
  match td_lock t with
  | Some _ => t
  | None => Conns (exec (td_sm t) o).1 None (td_closed t) (td_pending t) (td_displaced t)
  end.

(** The first half of [closeWithCause], under [c.mu]. *)
Definition closeFlag (t : conns) (c : Z) : conns :=
  if decide (c ∈ td_closed t) then t
  else Conns (td_sm t) (td_lock t) ({[c]} ∪ td_closed t) ({[c]} ∪ td_pending t) (td_displaced t).

Definition step (t : conns) (e : event) : conns :=
  match e with
  | EvRegBegin max r s =>
      match td_lock t with
      | Some _ => t
      | None => Conns (td_sm t)
                  (Some (r, s, ConnView (bool_decide (sub_conn s ∈ td_closed t)) max))
                  (td_closed t) (td_pending t) (td_displaced t)
      end
  | EvRegEnd =>
      match td_lock t with
      | Some (r, s, v) =>
          Conns (exec (td_sm t) (OpRegister v r s)).1 None (td_closed t) (td_pending t)
            (td_displaced t || has (td_sm t) (sub_conn s) (sub_id s))
      | None => t
      end
  | EvUnregister c i => locked t (OpUnregister c i)
  | EvUpdateKeys c i ks => locked t (OpUpdateKeys c i ks)
  | EvUpdateParams c i p w => locked t (OpUpdateParams c i p w)
  | EvCloseFlag c => closeFlag t c
  | EvCloseSweep c =>
      if decide (c ∈ td_pending t ∧ td_lock t = None)
      then Conns (exec (td_sm t) (OpUnregisterConn c)).1 None (td_closed t) (td_pending t ∖ {[c]})
             (td_displaced t)
      else t
  end.

(** A registration files a new object: [r] is a fresh address. *)
Definition admissible (t : conns) (e : event) : Prop :=
  match e with EvRegBegin _ r _ => td_lock t = None → sm_heap (td_sm t) !! r = None | _ => True end.

Definition reach : conns → Prop :=
  reachable (λ t, t = newConns) (λ t t', ∃ e, admissible t e ∧ t' = step t e).

(** [c] holds nothing in the connection index. *)
Definition bare (sm : subscriptionManager) (c : Z) : Prop := sm_byConn sm !! c = None.

Record teardownOk (t : conns) : Prop := {
  to_wf : td_displaced t = false → wf (td_sm t);
  to_fresh r s v : td_lock t = Some (r, s, v) → sm_heap (td_sm t) !! r = None;
  to_lock r s v : td_lock t = Some (r, s, v) →
    cv_closed v = false → sub_conn s ∈ td_closed t → sub_conn s ∈ td_pending t;
  to_bare c : c ∈ td_closed t → c ∉ td_pending t → bare (td_sm t) c;
  to_pending : td_pending t ⊆ td_closed t;
}.

(** An operation that files nothing for [c] leaves it bare, well-formed index or not. *)
Lemma exec_bare sm o c :
  bare sm c →
  match o with OpRegister v _ s => cv_closed v = true ∨ sub_conn s ≠ c | _ => True end →
  bare (exec sm o).1 c.
Proof.
  unfold bare. intros Hb Ho. destruct o as [v r s|c' i|c'|c' i ks|c' i p w]; simpl.
  - destruct (register sm v r s) as [[sm' []] l] eqn:E; simpl.
    + apply register_ok in E as (Hcl & _ & _ & ->). simpl.
      rewrite lookup_insert_ne; [done|]. destruct Ho; congruence.
    + by apply register_refused in E as ->.
  - unfold unregister. destruct (get sm c' i) as [[r s]|] eqn:E; simpl; [|done].
    unfold dropConnSub. destruct (sm_byConn sm !! c') as [subs|] eqn:Ec; [|done].
    destruct (decide (c' = c)) as [->|Hne]; [congruence|]. case_decide;
      [by rewrite lookup_delete_ne|by rewrite lookup_insert_ne].
  - unfold unregisterConn. destruct (sm_byConn sm !! c') as [subs|]; simpl; [|done].
    rewrite lookup_delete. by case_decide.
  - unfold updateKeys. by destruct (get sm c' i) as [[r s]|].
  - unfold updateParams. by destruct (get sm c' i) as [[r s]|].
Qed.

(** The state after an operation ran to its end under [sm.mu]. *)
Lemma after_op t o d :
  teardownOk t → (d = false → td_displaced t = false ∧ allowed (td_sm t) o) →
  (∀ c, c ∈ td_closed t → c ∉ td_pending t →
     match o with OpRegister v _ s => cv_closed v = true ∨ sub_conn s ≠ c | _ => True end) →
  teardownOk (Conns (exec (td_sm t) o).1 None (td_closed t) (td_pending t) d).
Proof.
  intros [Hwf Hf Hl Hb Hp] Hd Ho.
  split; cbn [td_sm td_lock td_closed td_pending td_displaced]; [|done..| |done].
  - intros E. destruct (Hd E). by apply exec_refines; [apply Hwf|].
  - intros c Hc Hn. apply exec_bare; [by apply Hb|by apply Ho].
Qed.

Lemma locked_ok t o :
  teardownOk t → match o with OpRegister _ _ _ => False | _ => True end → teardownOk (locked t o).
Proof.
  intros Hok Ho. unfold locked. destruct (td_lock t) eqn:E; [done|].
  apply after_op; [done|intros ?; split; [done|by destruct o]|by destruct o].
Qed.

Lemma closeFlag_ok t c : teardownOk t → teardownOk (closeFlag t c).
Proof.
  intros [Hwf Hf Hl Hb Hp]. unfold closeFlag. case_decide as Hc; [done|]. split; simpl; [done|done| | |].
  - intros r s v E H1 H2. specialize (Hl _ _ _ E H1). set_solver.
  - intros c' Hc' Hn. apply Hb; set_solver.
  - set_solver.
Qed.

Lemma closeSweep_ok t c : teardownOk t → teardownOk (step t (EvCloseSweep c)).
Proof.
  intros Hok. simpl. case_decide as Hd; [|done]. destruct Hok as [Hwf Hf Hl Hb Hp].
  change (unregisterConn (td_sm t) c).1 with (exec (td_sm t) (OpUnregisterConn c)).1.
  split; cbn [td_sm td_lock td_closed td_pending td_displaced]; [|done..| |set_solver].
  - intros E. by apply (exec_refines _ (OpUnregisterConn c)); [apply Hwf|].
  - intros c' Hc' Hn. destruct (decide (c' = c)) as [->|Hne].
    + unfold bare. simpl. unfold unregisterConn.
      destruct (sm_byConn (td_sm t) !! c) eqn:E; simpl; [apply lookup_delete_eq|done].
    + apply (exec_bare _ (OpUnregisterConn c)); [apply Hb; set_solver|done].
Qed.

Lemma step_ok t e : teardownOk t → admissible t e → teardownOk (step t e).
Proof.
  intros Hok Hadm. destruct e as [max r s| |c i|c i ks|c i p w|c|c];
    [| |by apply locked_ok..|by apply closeFlag_ok|by apply closeSweep_ok];
    simpl; pose proof Hok as [Hwf Hf Hl Hb Hp].
  - destruct (td_lock t) eqn:E; [done|]. split; simpl; [done|..|done|done];
      intros r' s' v [= <- <- <-]; [by apply Hadm|]. simpl. by case_bool_decide.
  - destruct (td_lock t) as [[[r s] v]|] eqn:E; [|done].
    apply (after_op t (OpRegister v r s)); [done|..].
    + intros [-> Hh]%orb_false_iff. split; [done|]. split; [by eapply Hf|done].
    + intros c Hc Hn. destruct (cv_closed v) eqn:Ev; [by left|right]. intros <-. naive_solver.
Qed.

Lemma reach_ok t : reach t → teardownOk t.
Proof.
  apply reachable_invariant; [|intros t0 t1 _ H (e & ? & ->); by apply step_ok].
  intros ? ->. split; simpl; [intros _; apply wf_new|done|done|set_solver|done].
Qed.

(** C14: no subscription outlives its connection. However registrations interleave with the
    close of their connection, the flag going up between check and insert included, once
    [closeWithCause] has swept the connection, the connection index holds nothing for it,
    and never does again. Provided no registration displaced a held id, the key index holds
    nothing for it either: a later refresh of any key cannot re-execute on a dead
    connection. (A displaced object does stay in the key index: [displaced_outlives].) *)
Theorem no_subscription_outlives_connection `{!RangeOrder nat} t c :
  reach t → c ∈ td_closed t → c ∉ td_pending t →
  sm_byConn (td_sm t) !! c = None ∧
  (td_displaced t = false → ∀ k r s, r ∈ getSubscriptionsForKey (td_sm t) k →
     sm_heap (td_sm t) !! r = Some s → sub_conn s ≠ c).
Proof.
  intros Hr Hc Hn. destruct (reach_ok t Hr) as [Hwf _ _ Hb _]. pose proof (Hb c Hc Hn) as Hbare.
  split; [done|]. intros Hd k r s Hk Hs <-. specialize (Hwf Hd).
  assert (r ∈ bucket (sm_byKey (td_sm t)) k) as Hin.
  { revert Hk. unfold getSubscriptionsForKey, bucket. destruct (sm_byKey (td_sm t) !! k); simpl;
      [by rewrite elem_of_range_of|by intros ?%not_elem_of_nil]. }
  apply (wf_index _ Hwf) in Hin as (c' & i & s' & El & Hs' & _).
  destruct (wf_filed _ Hwf _ _ _ El) as (s0 & Hs0 & <- & _). simplify_eq.
  unfold lookupRef, connSubs in El. by rewrite Hbare in El.
Qed.

(** *** Concrete run: the connection closes inside the registration *)

#[local] Existing Instance SubscriptionSpec.nat_order.

Definition exRun : list event :=
  [EvRegBegin None 0 (exSub "a" {["k"]}); EvCloseFlag 7; EvCloseSweep 7; EvRegEnd; EvCloseSweep 7].

Definition exEnd : conns := runs step newConns exRun.

Lemma runs_reach evs t :
  reach t → Forall (λ e, ∀ max r s, e ≠ EvRegBegin max r s) evs → reach (runs step t evs).
Proof.
  revert t. induction evs as [|e evs IH]; intros t Ht HF; [done|]. inversion HF; subst. simpl.
  apply IH; [|done]. eapply reach_step; [done|]. exists e. split; [|done]. destruct e; naive_solver.
Qed.

Lemma exEnd_reach : reach exEnd.
Proof.
  apply (runs_reach (tail exRun) (step newConns (EvRegBegin None 0 (exSub "a" {["k"]}))));
    [|by repeat constructor].
  eapply reach_step; [by apply reach_init|].
  exists (EvRegBegin None 0 (exSub "a" {["k"]})). split; [|done]. intros _. done.
Defined.

Lemma no_subscription_outlives_connection_witness :
  sm_byConn (td_sm exEnd) !! 7%Z = None ∧ td_displaced exEnd = false ∧
  (0 ∈ getSubscriptionsForKey (td_sm exEnd) "k" → sub_conn (exSub "a" {["k"]}) ≠ 7%Z).
Proof.
  assert (7%Z ∈ td_closed exEnd) as Hc by (refine (bool_decide_unpack _ _); vm_compute; exact I).
  assert (7%Z ∉ td_pending exEnd) as Hp by (refine (bool_decide_unpack _ _); vm_compute; exact I).
  destruct (no_subscription_outlives_connection exEnd 7%Z exEnd_reach Hc Hp) as [H1 H2].
  split; [exact H1|]. split; [vm_compute; reflexivity|].
  intros Hk. apply (H2 eq_refl "k" 0 (exSub "a" {["k"]}) Hk). vm_compute. reflexivity.
Defined.

(** A second registration of a held id, then the close and its sweep: the connection index
    is clean, but the displaced object is still refreshed by its key. *)
Lemma displaced_outlives :
  let t := runs step newConns
    [EvRegBegin None 0 (exSub "a" {["k"]}); EvRegEnd; EvRegBegin None 1 (exSub "a" {["k"]}); EvRegEnd;
     EvCloseFlag 7; EvCloseSweep 7] in
  td_displaced t = true ∧ sm_byConn (td_sm t) !! 7%Z = None ∧
  getSubscriptionsForKey (td_sm t) "k" = [0].
Proof. vm_compute. done. Qed.

End Teardown.
