(* ===== verification/Lifecycle.v ===== *)
(** * Lifecycle: connections from accept to unregister, and shutdown
      (server.go, transport_ws.go, transport_stream.go)

    The accept paths [ServeHTTP] and [ServeStream], the goroutine [run] and any number of
    calls to [Stop], as one machine: each step is what one of them does under [s.mu], one
    hook or callback, or one channel operation. What the application does is in the
    events: how a connect hook ends, when a peer leaves, when a request ends. *)

From S2P Require Import Prelude Runes Subscriptions.
From stdpp Require Import prelude gmap strings list fin_maps fin_sets.

Module Lifecycle.
Import Runes.

(** ** Data *)

Inductive transport := WebSocket | ByteStream.

(** How far the goroutine that serves a connection is. *)
Inductive connPhase :=
  | Connecting (i : nat)   (** before connect hook [i] *)
  | Joining                (** hooks passed, before [registerConn] *)
  | Joined                 (** in [s.conns], the observer not told yet *)
  | Announced              (** before the config frame, the auth timer and the pumps *)
  | Serving                (** the read loop runs *)
  | Leaving                (** the read loop ended, sending to [s.unregister] *)
  | Left                   (** [run] took it *)
  | Abandoned              (** a byte stream saw [s.done] instead *)
  | Refused.               (** rejected by a hook, or the server is stopping *)

(** Where [run] is; [e] is its variable [empty]. *)
Inductive runPhase :=
  | Selecting
  | Hooking (c : nat) (e : bool) (i : nat)   (** before disconnect hook [i] *)
  | Dropping (c : nat) (e : bool)            (** before [disassociateUser] *)
  | Closing (c : nat) (e : bool)             (** before [conn.close] *)
  | Telling (c : nat) (e : bool)             (** before [ConnectionClosed] *)
  | Looping (e : bool)                       (** before the test for the end *)
  | Exited.

(** Where a call to [Stop] is. *)
Inductive stopPhase :=
  | SFlag | SSnapshot | SSweep (todo : list nat) | SWait | SHook (i : nat) | SSignal | SDone
  | SReturned (clean : bool).

#[export] Instance connPhase_eq_dec : EqDecision connPhase.
Proof. solve_decision. Defined.
#[export] Instance transport_eq_dec : EqDecision transport.
Proof. solve_decision. Defined.
#[export] Instance runPhase_eq_dec : EqDecision runPhase.
Proof. solve_decision. Defined.

(** What the application and the observer are told, and what the peer is sent. *)
Inductive entry :=
  | ConnectHook (c i : nat)
  | SentConfig (c : nat)
  | SentRejection (c : nat)
  | ArmedAuthTimeout (c : nat)
  | ConnectionOpened (c : nat)
  | DisconnectHook (c i : nat)
  | ConnectionClosed (c : nat)
  | StopHook (i : nat)
  | SetUser (c : nat) (late : bool).   (** [SetUserID] outside the connect hooks; late when the
                                           server had let go of the connection *)

Record world := World {
  w_stopping : bool;
  w_conns : gset nat;                            (** [s.conns] *)
  w_users : gset nat;                            (** in a bucket of [s.userConns] *)
  w_closed : gset nat;                           (** [conn.closed] *)
  w_phase : gmap nat (transport * connPhase);
  w_run : runPhase;
  w_signalled : bool;                            (** [s.stopCh] is closed *)
  w_heard : bool;                                (** run's [stopCh] is nil *)
  w_stops : gmap nat stopPhase;
  w_requests : nat;                              (** [s.requestsWg] *)
  w_log : list entry;
}.

Definition newServer : world := World false ∅ ∅ ∅ ∅ Selecting false false ∅ 0 [].

Inductive event :=
  | EvAccept (c : nat) (t : transport)
  | EvConnectHook (c : nat) (user ok : bool)   (** it associates a user; it succeeds *)
  | EvJoin (c : nat)
  | EvOpened (c : nat)
  | EvStart (c : nat)
  | EvReadEnd (c : nat)
  | EvGiveUp (c : nat)
  | EvClose (c : nat)                          (** [closeWithCause] from elsewhere *)
  | EvBegin (c : nat)                          (** a frame starts a request *)
  | EvEnd                                      (** a request ends *)
  | EvTake (c : nat)                           (** [run] receives from [s.unregister] *)
  | EvStopSignal                               (** [run] receives from [stopCh] *)
  | EvRun                                      (** [run] goes on *)
  | EvStop (k : nat)                           (** call [k] of [Stop] goes on *)
  | EvExpire (k : nat)                         (** its context expires *)
  | EvSetUser (c : nat) (user : bool).         (** [SetUserID] by a handler, the auth hook, ...;
                                                   to a user or to none *)

#[export] Instance event_eq_dec : EqDecision event.
Proof. solve_decision. Defined.

(** *** Updates *)

Definition setPhase (c : nat) (p : connPhase) (w : world) : world :=
  World (w_stopping w) (w_conns w) (w_users w) (w_closed w) (alter (λ tp, (tp.1, p)) c (w_phase w)) (w_run w)
    (w_signalled w) (w_heard w) (w_stops w) (w_requests w) (w_log w).

Definition setConns (conns : gset nat) (w : world) : world :=
  World (w_stopping w) conns (w_users w) (w_closed w) (w_phase w) (w_run w)
    (w_signalled w) (w_heard w) (w_stops w) (w_requests w) (w_log w).

Definition setUsers (users : gset nat) (w : world) : world :=
  World (w_stopping w) (w_conns w) users (w_closed w) (w_phase w) (w_run w)
    (w_signalled w) (w_heard w) (w_stops w) (w_requests w) (w_log w).

Definition setRun (r : runPhase) (w : world) : world :=
  World (w_stopping w) (w_conns w) (w_users w) (w_closed w) (w_phase w) r
    (w_signalled w) (w_heard w) (w_stops w) (w_requests w) (w_log w).

Definition setStop (k : nat) (p : stopPhase) (w : world) : world :=
  World (w_stopping w) (w_conns w) (w_users w) (w_closed w) (w_phase w) (w_run w)
    (w_signalled w) (w_heard w) (<[k := p]> (w_stops w)) (w_requests w) (w_log w).

Definition setFlags (stopping signalled heard : bool) (w : world) : world :=
  World stopping (w_conns w) (w_users w) (w_closed w) (w_phase w) (w_run w)
    signalled heard (w_stops w) (w_requests w) (w_log w).

Definition setRequests (n : nat) (w : world) : world :=
  World (w_stopping w) (w_conns w) (w_users w) (w_closed w) (w_phase w) (w_run w)
    (w_signalled w) (w_heard w) (w_stops w) n (w_log w).

Definition logs (es : list entry) (w : world) : world :=
  World (w_stopping w) (w_conns w) (w_users w) (w_closed w) (w_phase w) (w_run w)
    (w_signalled w) (w_heard w) (w_stops w) (w_requests w) (w_log w ++ es).

(** [closeWithCause], as far as the server is concerned: the transport is closed, so the
    read loop ends. *)
Definition closeConn (c : nat) (w : world) : world :=
  World (w_stopping w) (w_conns w) (w_users w) ({[c]} ∪ w_closed w) (w_phase w) (w_run w)
    (w_signalled w) (w_heard w) (w_stops w) (w_requests w) (w_log w).

Definition disassociateUser (c : nat) (w : world) : world := setUsers (w_users w ∖ {[c]}) w.

Definition phaseOf (w : world) (c : nat) : option connPhase := snd <$> w_phase w !! c.

(** How far the teardown of a connection is: its user entry goes first, then it closes. *)
Definition tornDown (r : runPhase) (c : nat) : nat :=
  match r with
  | Hooking c' _ _ | Dropping c' _ => if decide (c' = c) then 0 else 2
  | Closing c' _ => if decide (c' = c) then 1 else 2
  | _ => 2
  end.

(** [disassociateUser] has run for the connection. *)
Definition letGo (w : world) (c : nat) : bool :=
  match phaseOf w c with
  | Some Refused => true
  | Some Left => bool_decide (0 < tornDown (w_run w) c)
  | _ => false
  end.

(** [SetUserID] from anywhere but a connect hook. (Users in Server.v has its sections.) *)
Definition setUser (c : nat) (user : bool) (w : world) : world :=
  match phaseOf w c with
  | None => w
  | Some _ =>
      if user then logs [SetUser c (letGo w c)] (setUsers ({[c]} ∪ w_users w) w)
      else setUsers (w_users w ∖ {[c]}) w
  end.
Definition transportOf (w : world) (c : nat) : option transport := fst <$> w_phase w !! c.

(** ** Accepting *)

(** [wsBinaryFromRequest]: the binary query parameter, if there is one. None is the error,
    for which the upgrade is refused. *)
Definition wsBinaryFromRequest `{RuneCase} (binary : option gostr) : option bool :=
  match binary with
  | None => Some true
  | Some v =>
      let v := toLower <$> v in
      if bool_decide (v ∈ lit <$> ["1"; "true"; "yes"; "on"]) then Some true
      else if bool_decide (v ∈ lit <$> ["0"; "false"; "no"; "off"]) then Some false
      else None
  end.

Section Server.
  (** How many hooks there are, whether an observer is set, whether connections are pending
      until they authenticate. *)
  Context (connectHooks disconnectHooks stopHooks : nat) (observed pending : bool).

(** [ServeHTTP] and [ServeStream] up to the connect hooks. A byte stream has its config
    frame queued first. *)
Definition accept (c : nat) (t : transport) (w : world) : world :=
  match w_phase w !! c with
  | Some _ => w
  | None =>
      let w' := World (w_stopping w) (w_conns w) (w_users w) (w_closed w)
        (<[c := (t, if w_stopping w then Refused else Connecting 0)]> (w_phase w)) (w_run w)
        (w_signalled w) (w_heard w) (w_stops w) (w_requests w) (w_log w) in
      if w_stopping w then w'
      else match t with ByteStream => logs [SentConfig c] w' | WebSocket => w' end
  end.

(** [runConnectHooks], one hook; the first error refuses the connection. *)
Definition runConnectHook (c : nat) (user ok : bool) (w : world) : world :=
  match phaseOf w c with
  | Some (Connecting i) =>
      if bool_decide (i < connectHooks) then
        let w := logs [ConnectHook c i] (if user then setUsers ({[c]} ∪ w_users w) w else w) in
        if ok then setPhase c (Connecting (S i)) w
        else setPhase c Refused (logs [SentRejection c] (disassociateUser c w))
      else setPhase c Joining w
  | _ => w
  end.

(** [registerConn] up to the observer. *)
Definition registerConn (c : nat) (w : world) : world * bool :=
  if w_stopping w then (w, false) else (setConns ({[c]} ∪ w_conns w) w, true).

Definition join (c : nat) (w : world) : world :=
  match phaseOf w c with
  | Some Joining =>
      let (w, ok) := registerConn c w in
      if ok then setPhase c Joined w else setPhase c Refused (disassociateUser c w)
  | _ => w
  end.

Definition opened (c : nat) (w : world) : world :=
  match phaseOf w c with
  | Some Joined => setPhase c Announced (if observed then logs [ConnectionOpened c] w else w)
  | _ => w
  end.

(** The config frame, [armAuthTimeout], and the pumps start. *)
Definition start (c : nat) (w : world) : world :=
  match w_phase w !! c with
  | Some (t, Announced) =>
      let w := match t with WebSocket => logs [SentConfig c] w | ByteStream => w end in
      setPhase c Serving (if pending then logs [ArmedAuthTimeout c] w else w)
  | _ => w
  end.

(** The deferred function of a read loop, before its send is received. *)
Definition readEnd (c : nat) (w : world) : world :=
  match phaseOf w c with Some Serving => setPhase c Leaving w | _ => w end.

(** [case <-conn.server.done], of byte streams only. *)
Definition giveUp (c : nat) (w : world) : world :=
  match w_phase w !! c, w_run w with
  | Some (ByteStream, Leaving), Exited => closeConn c (setPhase c Abandoned w)
  | _, _ => w
  end.

Definition beginRequest (c : nat) (w : world) : world :=
  match phaseOf w c with Some Serving => setRequests (S (w_requests w)) w | _ => w end.

(** ** run *)

(** [case conn := <-s.unregister], the section under [s.mu]. *)
Definition take (c : nat) (w : world) : world :=
  match phaseOf w c, w_run w with
  | Some Leaving, Selecting =>
      let existed := bool_decide (c ∈ w_conns w) in
      let w := setPhase c Left (setConns (w_conns w ∖ {[c]}) w) in
      let empty := bool_decide (w_conns w = ∅) in
      setRun (if existed then Hooking c empty 0 else Looping empty) w
  | _, _ => w
  end.

(** [case <-stopCh]. *)
Definition stopSignal (w : world) : world :=
  match w_run w with
  | Selecting =>
      if w_signalled w && negb (w_heard w) then
        setRun (if bool_decide (w_conns w = ∅) then Exited else Selecting) (setFlags (w_stopping w) true true w)
      else w
  | _ => w
  end.

Definition runOn (w : world) : world :=
  match w_run w with
  | Hooking c e i =>
      if bool_decide (i < disconnectHooks) then setRun (Hooking c e (S i)) (logs [DisconnectHook c i] w)
      else setRun (Dropping c e) w
  | Dropping c e => setRun (Closing c e) (disassociateUser c w)
  | Closing c e => setRun (Telling c e) (closeConn c w)
  | Telling c e => setRun (Looping e) (if observed then logs [ConnectionClosed c] w else w)
  | Looping e => setRun (if w_stopping w && e then Exited else Selecting) w
  | Selecting | Exited => w
  end.

(** ** Stop *)

Context `{!RangeOrder nat}.

Definition Stop (k : nat) (w : world) : world :=
  match default SFlag (w_stops w !! k) with
  | SFlag => setStop k SSnapshot (setFlags true (w_signalled w) (w_heard w) w)
  | SSnapshot => setStop k (SSweep (range_of (w_conns w))) w
  | SSweep [] => setStop k SWait w
  | SSweep (c :: cs) => setStop k (SSweep cs) (closeConn c w)
  | SWait => if bool_decide (w_requests w = 0) then setStop k (SHook 0) w else w
  | SHook i =>
      if bool_decide (i < stopHooks) then setStop k (SHook (S i)) (logs [StopHook i] w) else setStop k SSignal w
  | SSignal => setStop k SDone (setFlags (w_stopping w) true (w_heard w) w)
  | SDone => match w_run w with Exited => setStop k (SReturned true) w | _ => w end
  | SReturned _ => w
  end.

(** [case <-ctx.Done()]. *)
Definition expire (k : nat) (w : world) : world :=
  match w_stops w !! k with
  | Some (SWait | SDone) => setStop k (SReturned false) w
  | _ => w
  end.

Definition step (w : world) (e : event) : world :=
  match e with
  | EvAccept c t => accept c t w
  | EvConnectHook c user ok => runConnectHook c user ok w
  | EvJoin c => join c w
  | EvOpened c => opened c w
  | EvStart c => start c w
  | EvReadEnd c => readEnd c w
  | EvGiveUp c => giveUp c w
  | EvClose c => closeConn c w
  | EvBegin c => beginRequest c w
  | EvEnd => setRequests (pred (w_requests w)) w
  | EvTake c => take c w
  | EvStopSignal => stopSignal w
  | EvRun => runOn w
  | EvStop k => Stop k w
  | EvExpire k => expire k w
  | EvSetUser c user => setUser c user w
  end.

(** What the two accept paths do, in their order: whether each connect hook associates a user
    and succeeds is given. Once the connection is refused the rest does nothing. *)
Definition acceptSteps (c : nat) (t : transport) (hooks : list (bool * bool)) : list event :=
  EvAccept c t :: ((λ h, EvConnectHook c h.1 h.2) <$> hooks) ++
  [EvConnectHook c false true; EvJoin c; EvOpened c; EvStart c].

Definition ServeHTTP (c : nat) : list (bool * bool) → list event := acceptSteps c WebSocket.
Definition ServeStream (c : nat) : list (bool * bool) → list event := acceptSteps c ByteStream.

(** ** Facts *)

(** *** Where a connection is *)

Definition registered (p : connPhase) : bool :=
  match p with Joined | Announced | Serving | Leaving | Abandoned => true | _ => false end.

(** The connection [run] is tearing down, and whether that was the last one. *)
Definition tearing (r : runPhase) : option nat :=
  match r with Hooking c _ _ | Dropping c _ | Closing c _ | Telling c _ => Some c | _ => None end.
Definition runEmpty (r : runPhase) : option bool :=
  match r with Hooking _ e _ | Dropping _ e | Closing _ e | Telling _ e | Looping e => Some e | _ => None end.

Lemma phaseOf_setPhase c p w c' :
  phaseOf (setPhase c p w) c' = if decide (c' = c) then (λ _, p) <$> phaseOf w c else phaseOf w c'.
Proof.
  unfold phaseOf, setPhase. cbn [w_phase]. case_decide as Hc.
  - subst. rewrite lookup_alter_eq. by destruct (w_phase w !! c).
  - by rewrite lookup_alter_ne by done.
Qed.

Lemma phaseOf_accept c t w c' :
  phaseOf (accept c t w) c' =
    match phaseOf w c' with
    | Some p => Some p
    | None => if decide (c' = c) then Some (if w_stopping w then Refused else Connecting 0) else None
    end.
Proof.
  assert (∀ es p, phaseOf (logs es (World (w_stopping w) (w_conns w) (w_users w) (w_closed w)
    (<[c := (t, p)]> (w_phase w)) (w_run w) (w_signalled w) (w_heard w) (w_stops w) (w_requests w) (w_log w))) c' =
    if decide (c' = c) then Some p else phaseOf w c') as Hi.
  { intros es p. unfold phaseOf. cbn [logs w_phase]. case_decide; [subst; by rewrite lookup_insert_eq|by rewrite lookup_insert_ne]. }
  unfold accept. destruct (w_phase w !! c) as [tp|] eqn:E.
  - destruct (phaseOf w c') eqn:E'; [done|]. case_decide; [|done]. subst. unfold phaseOf in E'. by rewrite E in E'.
  - assert (phaseOf w c = None) as Hn by (unfold phaseOf; by rewrite E).
    destruct (w_stopping w), t; (etrans; [first [exact (Hi [] _)|exact (Hi [SentConfig c] _)]|]);
      (case_decide as Hd; [subst c'; by rewrite Hn|by destruct (phaseOf w c')]).
Qed.

(** [s.conns] has the connections that are registered and not taken. *)
Definition regd (w : world) (c : nat) : bool :=
  match phaseOf w c with Some p => registered p | None => false end.

Definition connsOk (w : world) : Prop := ∀ c, c ∈ w_conns w ↔ regd w c = true.

Lemma regd_setPhase c p w c' q :
  phaseOf w c = Some q → regd (setPhase c p w) c' = if decide (c' = c) then registered p else regd w c'.
Proof. intros Hq. unfold regd. rewrite phaseOf_setPhase, Hq. by case_decide. Qed.

(** A connection goes on within its class. *)
Lemma connsOk_move c p q w :
  phaseOf w c = Some q → registered p = registered q → connsOk w → connsOk (setPhase c p w).
Proof.
  intros Hq Hpq Hok c'. rewrite (regd_setPhase _ _ _ _ q) by done. cbn [setPhase w_conns].
  rewrite (Hok c'). case_decide as Hc; [|done]. subst c'. unfold regd. by rewrite Hq, Hpq.
Qed.

Lemma step_connsOk w e : connsOk w → connsOk (step w e).
Proof.
  intros Hok. destruct e as [c t|c user ok|c|c|c|c|c|c|c| |c| | |k|k|c u]; cbn [step]; try exact Hok.
  - intros c'. unfold regd. rewrite phaseOf_accept. pose proof (Hok c') as Hc. unfold regd in Hc.
    assert (w_conns (accept c t w) = w_conns w) as -> by (unfold accept; by repeat case_match).
    rewrite Hc. destruct (phaseOf w c'); [done|]. case_decide; [|done]. by destruct (w_stopping w).
  - unfold runConnectHook. destruct (phaseOf w c) as [[]|] eqn:Hp; try exact Hok.
    destruct (bool_decide _); [|by eapply connsOk_move].
    destruct user, ok; (eapply connsOk_move; [exact Hp|done|exact Hok]).
  - unfold join, registerConn. destruct (phaseOf w c) as [[]|] eqn:Hp; try exact Hok.
    destruct (w_stopping w); [by eapply connsOk_move|]. intros c'.
    rewrite (regd_setPhase _ _ _ _ Joining) by done. cbn [setPhase setConns w_conns].
    rewrite elem_of_union, elem_of_singleton, (Hok c'). case_decide; [naive_solver|]. unfold regd, phaseOf. naive_solver.
  - unfold opened. destruct (phaseOf w c) as [[]|] eqn:Hp; try exact Hok.
    destruct observed; (eapply connsOk_move; [exact Hp|done|exact Hok]).
  - unfold start. destruct (w_phase w !! c) as [[t []]|] eqn:Hp; try exact Hok.
    assert (phaseOf w c = Some Announced) as Hp' by (unfold phaseOf; by rewrite Hp).
    destruct t, pending; (eapply connsOk_move; [exact Hp'|done|exact Hok]).
  - unfold readEnd. destruct (phaseOf w c) as [[]|] eqn:Hp; try exact Hok. by eapply connsOk_move.
  - unfold giveUp. destruct (w_phase w !! c) as [[[] []]|] eqn:Hp; try exact Hok.
    assert (phaseOf w c = Some Leaving) as Hp' by (unfold phaseOf; by rewrite Hp).
    destruct (w_run w); try exact Hok. eapply (connsOk_move c Abandoned); [exact Hp'|done|exact Hok].
  - unfold beginRequest. destruct (phaseOf w c) as [[]|]; exact Hok.
  - unfold take. destruct (phaseOf w c) as [[]|] eqn:Hp; try exact Hok. destruct (w_run w); try exact Hok.
    intros c'. cbn [setRun w_conns]. change (regd (setRun _ ?x) c') with (regd x c').
    rewrite (regd_setPhase _ _ _ _ Leaving) by done. cbn [setPhase setConns w_conns].
    rewrite elem_of_difference, elem_of_singleton, (Hok c'). case_decide; [naive_solver|]. unfold regd, phaseOf. naive_solver.
  - unfold stopSignal. destruct (w_run w); try exact Hok. by destruct (_ && _).
  - unfold runOn. destruct (w_run w); try exact Hok; repeat case_match; exact Hok.
  - unfold Stop. destruct (default _ _) as [| |[]| | | | |]; repeat case_match; exact Hok.
  - unfold expire. destruct (w_stops w !! k) as [[]|]; exact Hok.
  - unfold setUser. destruct (phaseOf w c); [|exact Hok]. destruct u; exact Hok.
Qed.

(** *** The server *)

(** What a call to [Stop] has achieved. *)
Definition achieved (w : world) (p : stopPhase) : Prop :=
  match p with
  | SFlag => False
  | SSnapshot => True
  | SSweep todo => ∀ c, c ∈ w_conns w → c ∈ w_closed w ∨ c ∈ todo
  | SWait | SHook _ | SSignal | SReturned false => w_conns w ⊆ w_closed w
  | SDone => w_conns w ⊆ w_closed w ∧ w_signalled w = true
  | SReturned true => w_conns w ⊆ w_closed w ∧ w_run w = Exited
  end.

(** The flags, [run] and the set agree; the last connection that [run] takes once it has
    heard the signal ends it. *)
Record flagsOk (stopping signalled heard : bool) (conns : gset nat) (r : runPhase) : Prop := {
  fo_heard : heard = true → signalled = true;
  fo_signalled : signalled = true → stopping = true;
  fo_exited : r = Exited → stopping = true;
  fo_last : heard = true → conns = ∅ → runEmpty r = Some true ∨ r = Exited;
}.

Record serverOk (w : world) : Prop := {
  so_flags : flagsOk (w_stopping w) (w_signalled w) (w_heard w) (w_conns w) (w_run w);
  so_stops k p : w_stops w !! k = Some p → w_stopping w = true ∧ achieved w p;
}.

(** Once the server is stopping, its set only shrinks; what is closed stays so. *)
Lemma step_shrinks w e :
  (w_stopping w = true → w_stopping (step w e) = true ∧ w_conns (step w e) ⊆ w_conns w) ∧
  w_closed w ⊆ w_closed (step w e) ∧
  (w_signalled w = true → w_signalled (step w e) = true) ∧
  (w_run w = Exited → w_run (step w e) = Exited).
Proof.
  assert (∀ c, w_closed w ⊆ {[c]} ∪ w_closed w) as Hcl by (intros c; apply union_subseteq_r).
  destruct e as [c t|c user ok|c|c|c|c|c|c|c| |c| | |k|k|c u]; cbn [step];
    unfold accept, runConnectHook, join, registerConn, opened, start, readEnd, giveUp, beginRequest, take, stopSignal,
      runOn, Stop, expire, setUser;
    repeat (case_match || case_bool_decide); simplify_eq/=; split_and!; try done;
    try (intros ?; split; [done|]); try done; intros x Hx; by apply elem_of_difference in Hx as [? _].
Qed.

Lemma achieved_mono w w' p :
  w_conns w' ⊆ w_conns w → w_closed w ⊆ w_closed w' → (w_signalled w = true → w_signalled w' = true) →
  (w_run w = Exited → w_run w' = Exited) → achieved w p → achieved w' p.
Proof.
  intros Hc Hd Hs Hr. assert (w_conns w ⊆ w_closed w → w_conns w' ⊆ w_closed w') as Hsub by (intros H; etrans; [exact Hc|]; etrans; [exact H|exact Hd]).
  destruct p as [| |todo| | | | |[]]; cbn [achieved]; try done; try exact Hsub; try (intros [Ha Hb]; split; [exact (Hsub Ha)|auto]).
  intros H c Hin. destruct (H c (Hc c Hin)) as [|]; [left; by apply Hd|by right].
Qed.

(** A call of [Stop] is moved by its own steps only. *)
Lemma step_stops w e k :
  e ≠ EvStop k → e ≠ EvExpire k → w_stops (step w e) !! k = w_stops w !! k.
Proof.
  intros H1 H2. destruct e as [c t|c user ok|c|c|c|c|c|c|c| |c| | |j|j|c u]; cbn [step]; try done;
    unfold accept, runConnectHook, join, registerConn, opened, start, readEnd, giveUp, beginRequest, take, stopSignal,
      runOn, Stop, expire, setUser.
  all: try (by repeat case_match; simplify_eq/=).
  - repeat case_match; try done; cbn [w_stops setStop setFlags logs closeConn]; apply lookup_insert_ne; congruence.
  - repeat case_match; try done; cbn [w_stops setStop]; apply lookup_insert_ne; congruence.
Qed.

(** Each section of [Stop] achieves what the next one relies on. *)
Lemma Stop_achieves w k p :
  serverOk w → w_stops (Stop k w) !! k = Some p → w_stopping (Stop k w) = true ∧ achieved (Stop k w) p.
Proof.
  intros Hok. pose proof (so_stops w Hok k) as Hk. unfold Stop.
  destruct (w_stops w !! k) as [q|] eqn:Hq; cbn [default from_option id]; last first.
  { cbn [setStop setFlags w_stops]. rewrite lookup_insert_eq. intros [= <-]. done. }
  destruct (Hk q eq_refl) as [Hst Ha].
  destruct q as [| |[|c cs]| |i| | |b]; cbn [achieved] in Ha; repeat (case_match || case_bool_decide);
    cbn [setStop setFlags logs closeConn w_stops]; rewrite ?lookup_insert_eq, ?Hq; intros [= <-];
    cbn [achieved setStop setFlags logs closeConn w_stopping w_conns w_closed w_signalled w_run]; try done; split; try done.
  - intros c Hc. right. by rewrite elem_of_range_of.
  - intros c Hc. destruct (Ha c Hc) as [|Hn]; [done|by apply not_elem_of_nil in Hn].
  - intros c' Hc. destruct (Ha c' Hc) as [|[->|]%elem_of_cons]; [left; by apply elem_of_union_r| |by right].
    left. by apply elem_of_union_l, elem_of_singleton.
  - split; [by destruct Ha|done].
Qed.

Lemma expire_achieves w k p :
  serverOk w → w_stops (expire k w) !! k = Some p → w_stopping (expire k w) = true ∧ achieved (expire k w) p.
Proof.
  intros Hok. unfold expire. destruct (w_stops w !! k) as [q|] eqn:Hq; [|by rewrite Hq].
  destruct (so_stops w Hok k q Hq) as [Hst Ha].
  destruct q; cbn [setStop w_stops]; rewrite ?lookup_insert_eq, ?Hq; intros [= <-]; (split; [done|]); try exact Ha.
  by destruct Ha.
Qed.

(** What the steps of the accept paths, but for [registerConn], leave alone. *)
Lemma step_frame w e :
  match e with
  | EvJoin _ | EvTake _ | EvStopSignal | EvRun | EvStop _ => True
  | _ => w_stopping (step w e) = w_stopping w ∧ w_signalled (step w e) = w_signalled w ∧
         w_heard (step w e) = w_heard w ∧ w_conns (step w e) = w_conns w ∧ w_run (step w e) = w_run w
  end.
Proof.
  destruct e as [c t|c user ok|c|c|c|c|c|c|c| |c| | |j|j|c u]; cbn [step]; try done;
    unfold accept, runConnectHook, opened, start, readEnd, giveUp, beginRequest, expire, setUser;
    repeat case_match; by split_and!.
Qed.

Lemma step_flagsOk w e :
  serverOk w → flagsOk (w_stopping (step w e)) (w_signalled (step w e)) (w_heard (step w e))
                 (w_conns (step w e)) (w_run (step w e)).
Proof.
  intros [Hf Hk]. pose proof (step_frame w e) as Hfr.
  destruct e as [c t|c user ok|c|c|c|c|c|c|c| |c| | |j|j|c u];
    try (destruct Hfr as (-> & -> & -> & -> & ->); exact Hf); cbn [step]; destruct Hf as [Hh Hs Hx Hl].
  - unfold join, registerConn. destruct (phaseOf w c) as [[]|]; try (by split).
    destruct (w_stopping w) eqn:E; cbn; rewrite ?E; [by split|]. split; auto. intros Hy. by specialize (Hs (Hh Hy)).
  - unfold take. destruct (phaseOf w c) as [[]|]; try (by split). destruct (w_run w) eqn:E; try (split; by rewrite ?E).
    destruct (bool_decide (c ∈ _)); cbn; (split; [done|done|done|]); intros _ He; left; by rewrite bool_decide_true.
  - unfold stopSignal. destruct (w_run w) eqn:E; try (split; by rewrite ?E).
    destruct (w_signalled w && _) eqn:Es; [|split; by rewrite ?E]. apply andb_true_iff in Es as [Es _]. cbn.
    split; cbn; [done|by auto|by auto|]. intros _ He. right. by rewrite bool_decide_true.
  - assert (∀ r e, runEmpty (w_run w) = Some e → runEmpty r = Some e →
      flagsOk (w_stopping w) (w_signalled w) (w_heard w) (w_conns w) r) as Hgo.
    { intros r e He Hr. split; [done|done|by intros ->|]. intros Hy Hc. left. rewrite Hr, <-He.
      destruct (Hl Hy Hc) as [|Hex]; [done|by rewrite Hex in He]. }
    unfold runOn. destruct (w_run w) as [|c e i|c e|c e|c e|e|] eqn:E; try (split; by rewrite ?E).
    + destruct (bool_decide _); by apply (Hgo _ e).
    + by apply (Hgo _ e).
    + by apply (Hgo _ e).
    + destruct observed; by apply (Hgo _ e).
    + destruct (w_stopping w && e) eqn:Ee; cbn.
      * apply andb_true_iff in Ee as [? _]. split; [done|done|done|]. by right.
      * split; [done|done|done|]. intros Hy He. destruct (Hl Hy He) as [[= ->]|]; [|done].
        by rewrite (Hs (Hh Hy)) in Ee.
  - unfold Stop. destruct (w_stops w !! j) as [q|] eqn:Hq; cbn [default from_option id].
    + destruct (Hk j q Hq) as [Hst _]. destruct q as [| |[]| |i| | |]; try (by split); try (destruct (bool_decide _); by split).
      assert (flagsOk (w_stopping w) (w_signalled w) (w_heard w) (w_conns w) (w_run w)) as Hf by (by split).
      set (r := w_run w) at 1 2 3 4 5. clearbody r. destruct r; exact Hf.
    + split; cbn; auto.
Qed.

Lemma step_serverOk w e : serverOk w → serverOk (step w e).
Proof.
  intros Hok. split; [by apply step_flagsOk|]. intros k p Hp.
  destruct (decide (e = EvStop k)) as [->|H1]; [by apply Stop_achieves|].
  destruct (decide (e = EvExpire k)) as [->|H2]; [by apply expire_achieves|].
  rewrite step_stops in Hp by done. destruct (so_stops w Hok k p Hp) as [Hst Ha].
  destruct (step_shrinks w e) as (Hsh & Hcl & Hsi & Hex). destruct (Hsh Hst). split; [done|]. by eapply achieved_mono.
Qed.

Definition reach : world → Prop := reachable (λ w, w = newServer) (λ w w', ∃ e, w' = step w e).

Lemma reach_inv w : reach w → connsOk w ∧ serverOk w.
Proof.
  apply (reachable_invariant _ _ (λ w, connsOk w ∧ serverOk w)).
  - intros ? ->. split; [|split; [by split|]; intros k p Hk; cbn [newServer w_stops] in Hk; by rewrite lookup_empty in Hk]. intros c. split; [by intros ?%not_elem_of_empty|done].
  - intros ? ? _ [H1 H2] [e ->]. split; [by apply step_connsOk|by apply step_serverOk].
Qed.

(** Shutdown leaves no connection open: whatever is interleaved, once a call to [Stop] is
    past its sweep every connection of the set is closed, and none joins any more. *)
Lemma stop_sweeps_every_connection w k p evs :
  reach w → w_stops w !! k = Some p → p ≠ SSnapshot → (∀ todo, p ≠ SSweep todo) →
  w_conns (runs step w evs) ⊆ w_closed (runs step w evs) ∧ w_conns (runs step w evs) ⊆ w_conns w.
Proof.
  intros Hr Hk H1 H2. destruct (reach_inv w Hr) as [_ Hok]. destruct (so_stops w Hok k p Hk) as [Hst Ha].
  assert (w_conns w ⊆ w_closed w) as Hsub.
  { destruct p as [| |todo| | | | |[]]; cbn [achieved] in Ha; try done; try (by destruct Ha). by destruct (H2 todo). }
  enough (w_stopping (runs step w evs) = true ∧ w_conns (runs step w evs) ⊆ w_closed (runs step w evs) ∧
    w_conns (runs step w evs) ⊆ w_conns w) as [_ ?] by done.
  apply (runs_invariant step (λ v, w_stopping v = true ∧ w_conns v ⊆ w_closed v ∧ w_conns v ⊆ w_conns w)); [done|].
  intros v e (Hs & Hc & Hw). destruct (step_shrinks v e) as (Hsh & Hcl & _). destruct (Hsh Hs) as [Hs' Hc'].
  split_and!; [done| |]; (etrans; [exact Hc'|]); [etrans; [exact Hc|exact Hcl]|done].
Qed.

(** *** What the application is told *)

(** The callbacks about a connection after it joined. *)
Definition about (c : nat) (e : entry) : bool :=
  match e with
  | ConnectionOpened c' | DisconnectHook c' _ | ConnectionClosed c' => bool_decide (c' = c)
  | _ => false
  end.
Definition callbacks (c : nat) (log : list entry) : list entry := filter (λ e, about c e = true) log.

Definition begun (c : nat) : list entry := if observed then [ConnectionOpened c] else [].
Definition hooksRun (c n : nat) : list entry := DisconnectHook c <$> seq 0 n.
Definition ended (c : nat) : list entry :=
  begun c ++ hooksRun c disconnectHooks ++ (if observed then [ConnectionClosed c] else []).

(** What there has to be, by where the connection is and where [run] is. *)
Definition told (p : option connPhase) (r : runPhase) (c : nat) : list entry :=
  match p with
  | Some (Announced | Serving | Leaving | Abandoned) => begun c
  | Some Left =>
      match r with
      | Hooking c' _ i => if decide (c' = c) then begun c ++ hooksRun c i else ended c
      | Dropping c' _ | Closing c' _ | Telling c' _ =>
          if decide (c' = c) then begun c ++ hooksRun c disconnectHooks else ended c
      | _ => ended c
      end
  | _ => []
  end.

(** Its user was set when the server had let go of it. *)
Definition lateUser (w : world) (c : nat) : Prop := SetUser c true ∈ w_log w.

Lemma lateUser_logs w w' es c : w_log w' = w_log w ++ es → lateUser w c → lateUser w' c.
Proof. unfold lateUser. intros -> H. apply elem_of_app. by left. Qed.

Record toldOk (w : world) : Prop := {
  to_log c : callbacks c (w_log w) = told (phaseOf w c) (w_run w) c;
  to_tear c : tearing (w_run w) = Some c → phaseOf w c = Some Left;
  to_hook c e i : w_run w = Hooking c e i → i ≤ disconnectHooks;
  to_left c : phaseOf w c = Some Left →
    (0 < tornDown (w_run w) c → c ∈ w_users w → lateUser w c) ∧
    (1 < tornDown (w_run w) c → c ∈ w_closed w);
  to_users c : c ∈ w_users w → ∃ p, phaseOf w c = Some p ∧ (p = Refused → lateUser w c);
}.

Lemma callbacks_app c l1 l2 : callbacks c (l1 ++ l2) = callbacks c l1 ++ callbacks c l2.
Proof. apply filter_app. Qed.

Lemma callbacks_other c es : Forall (λ e, about c e = false) es → callbacks c es = [].
Proof.
  induction 1 as [|e es He _ IH]; [done|]. unfold callbacks in *. rewrite filter_cons_False; [done|].
  by rewrite He.
Qed.

(** Longer logs change nothing of it. *)
Lemma left_logs w w' es c (P Q R : Prop) :
  w_log w' = w_log w ++ es → (P → Q → lateUser w c) ∧ R → (P → Q → lateUser w' c) ∧ R.
Proof. intros Hl [H1 H2]. split; [|done]. intros ??. eapply lateUser_logs; [done|auto]. Qed.

Lemma users_logs w w' es c o :
  w_log w' = w_log w ++ es → (∃ p, o = Some p ∧ (p = Refused → lateUser w c)) →
  ∃ p : connPhase, o = Some p ∧ (p = Refused → lateUser w' c).
Proof. intros Hl (p & Hp & Hr). exists p. split; [done|]. intros ?. eapply lateUser_logs; [done|auto]. Qed.

(** A connection goes on where nothing is to be told. *)
Lemma toldOk_move c p q es users w :
  phaseOf w c = Some q → (∀ c', Forall (λ e, about c' e = false) es) →
  told (Some p) (w_run w) c = told (Some q) (w_run w) c → p ≠ Left → q ≠ Left →
  (∀ c', c' ∈ users → c' ∈ w_users w ∨ c' = c) → (p = Refused → c ∉ users) → q ≠ Refused →
  toldOk w → toldOk (setPhase c p (logs es (setUsers users w))).
Proof.
  intros Hq Hes Ht Hp Hql Hu Hr Hqr Hok.
  assert (∀ c', phaseOf (setPhase c p (logs es (setUsers users w))) c' = if decide (c' = c) then Some p else phaseOf w c')
    as Hph.
  { intros c'. rewrite phaseOf_setPhase. change (phaseOf (logs es (setUsers users w))) with (phaseOf w). by rewrite Hq. }
  split; [intros c'|intros c'|intros c' e i|intros c'|intros c'];
    cbn [setPhase logs setUsers w_log w_run w_users w_closed]; rewrite ?Hph.
  - rewrite callbacks_app, (callbacks_other c' es), app_nil_r by done. rewrite (to_log w Hok c').
    case_decide; [subst c'; by rewrite Hq|done].
  - intros Htear. apply (to_tear w Hok) in Htear. case_decide; [subst c'|done]. rewrite Hq in Htear. by injection Htear as ->.
  - apply (to_hook w Hok).
  - case_decide; [by intros [= ->]|]. intros Hl. destruct (to_left w Hok c' Hl) as [H1 H2]. split; [|done].
    intros Hlt Hin. destruct (Hu c' Hin); [eapply lateUser_logs; [done|by apply H1]|done].
  - intros Hin. case_decide; [subst c'; exists p; split; [done|]; intros ->; by destruct Hr|].
    destruct (Hu c' Hin); [|done]. destruct (to_users w Hok c') as (p' & Hp' & Hl'); [done|].
    exists p'. split; [done|]. intros E. eapply lateUser_logs; [done|by apply Hl'].
Qed.

Lemma toldOk_quiet c p q w :
  phaseOf w c = Some q → told (Some p) (w_run w) c = told (Some q) (w_run w) c →
  p ≠ Left → q ≠ Left → p ≠ Refused → q ≠ Refused → toldOk w → toldOk (setPhase c p w).
Proof.
  intros. assert (setPhase c p w = setPhase c p (logs [] (setUsers (w_users w) w))) as ->
    by (unfold setPhase; cbn; by rewrite app_nil_r).
  apply (toldOk_move c p q); try done; intros c' Hin; by left.
Qed.

Lemma accept_toldOk c t w : toldOk w → toldOk (accept c t w).
Proof.
  intros Hok.
  assert (∀ es, w_phase w !! c = None → (∀ c', Forall (λ e, about c' e = false) es) →
    toldOk (logs es (World (w_stopping w) (w_conns w) (w_users w) (w_closed w)
      (<[c := (t, if w_stopping w then Refused else Connecting 0)]> (w_phase w)) (w_run w)
      (w_signalled w) (w_heard w) (w_stops w) (w_requests w) (w_log w)))) as Hnew.
  { intros es Hn Hes. assert (phaseOf w c = None) as Hp by (unfold phaseOf; by rewrite Hn).
    set (v := logs _ _).
    assert (∀ c', phaseOf v c' = if decide (c' = c) then Some (if w_stopping w then Refused else Connecting 0) else phaseOf w c')
      as Hph by (intros c'; unfold phaseOf, v; cbn; case_decide; [subst; by rewrite lookup_insert_eq|by rewrite lookup_insert_ne]).
    split; [intros c'|intros c'|intros c' e i|intros c'|intros c']; rewrite ?Hph; unfold v;
      cbn [logs w_log w_run w_users w_closed].
    - rewrite callbacks_app, (callbacks_other c' es), app_nil_r, (to_log w Hok c') by done.
      case_decide; [subst c'; rewrite Hp; by destruct (w_stopping w)|done].
    - intros Htear. apply (to_tear w Hok) in Htear. case_decide; [subst c'; by rewrite Hp in Htear|done].
    - apply (to_hook w Hok).
    - case_decide; [by destruct (w_stopping w)|]. intros Hl. eapply (left_logs w); [done|exact (to_left w Hok _ Hl)].
    - intros Hin. case_decide; [|eapply (users_logs w); [done|exact (to_users w Hok _ Hin)]].
      subst c'. destruct (to_users w Hok c Hin) as (p & Hp' & _). by rewrite Hp in Hp'. }
  unfold accept. destruct (w_phase w !! c) as [tp|] eqn:E; [done|].
  assert (∀ v, logs [] v = v) as Hv by (intros []; unfold logs; cbn; by rewrite app_nil_r).
  pose proof (Hnew [SentConfig c] eq_refl ltac:(by repeat constructor)) as Hc.
  pose proof (Hnew [] eq_refl ltac:(by constructor)) as Hn. rewrite Hv in Hn.
  by destruct (w_stopping w), t.
Qed.

Lemma runConnectHook_toldOk c user ok w : toldOk w → toldOk (runConnectHook c user ok w).
Proof.
  intros Hok. unfold runConnectHook. destruct (phaseOf w c) as [[i| | | | | | | |]|] eqn:Hp; try exact Hok.
  destruct (bool_decide _); [|by eapply toldOk_quiet].
  destruct user, ok.
  - apply (toldOk_move c _ (Connecting i) [ConnectHook c i] ({[c]} ∪ w_users w)); try done; [by repeat constructor|].
    intros c' [->%elem_of_singleton|]%elem_of_union; [by right|by left].
  - assert (toldOk (setPhase c Refused (logs ([ConnectHook c i] ++ [SentRejection c])
      (setUsers (({[c]} ∪ w_users w) ∖ {[c]}) w)))) as H.
    { apply (toldOk_move c _ (Connecting i)); try done; [by repeat constructor| |].
      - intros c' [[->%elem_of_singleton|]%elem_of_union _]%elem_of_difference; [by right|by left].
      - by intros _ [_ Hn%not_elem_of_singleton]%elem_of_difference. }
    unfold logs in *. cbn in *. by rewrite <-(assoc_L (++)).
  - assert (toldOk (setPhase c (Connecting (S i)) (logs [ConnectHook c i] (setUsers (w_users w) w)))) as H; [|exact H].
    apply (toldOk_move c _ (Connecting i)); try done; [by repeat constructor|by left].
  - assert (toldOk (setPhase c Refused (logs ([ConnectHook c i] ++ [SentRejection c]) (setUsers (w_users w ∖ {[c]}) w)))) as H.
    { apply (toldOk_move c _ (Connecting i)); try done; [by repeat constructor| |].
      - intros c' [? _]%elem_of_difference. by left.
      - by intros _ [_ Hn%not_elem_of_singleton]%elem_of_difference. }
    unfold logs in *. cbn in *. by rewrite <-(assoc_L (++)).
Qed.

(** The other fields do not matter, and connections may close at any time. *)
Lemma toldOk_ext w w' :
  w_log w' = w_log w → w_phase w' = w_phase w → w_run w' = w_run w → w_users w' = w_users w →
  w_closed w ⊆ w_closed w' → toldOk w → toldOk w'.
Proof.
  intros Hl Hp Hr Hu Hc Hok. assert (phaseOf w' = phaseOf w) as Hph by (unfold phaseOf; by rewrite Hp).
  assert (∀ c, lateUser w c → lateUser w' c) as Hla by (unfold lateUser; by rewrite Hl).
  split; rewrite ?Hl, ?Hr, ?Hu, ?Hph; [apply Hok|apply Hok|apply Hok| |].
  - intros c Hlt. destruct (to_left w Hok c Hlt) as [H1 H2]. split; [auto|]. intros H3. by apply Hc, H2.
  - intros c Hin. destruct (to_users w Hok c Hin) as (p & Hp' & Hne). exists p. auto.
Qed.

Lemma join_toldOk c w : toldOk w → toldOk (join c w).
Proof.
  intros Hok. unfold join, registerConn. destruct (phaseOf w c) as [[]|] eqn:Hp; try exact Hok.
  destruct (w_stopping w).
  - assert (toldOk (setPhase c Refused (logs [] (setUsers (w_users w ∖ {[c]}) w)))) as H.
    { apply (toldOk_move c _ Joining); try done.
      - intros c' [? _]%elem_of_difference. by left.
      - by intros _ [_ Hn%not_elem_of_singleton]%elem_of_difference. }
    revert H. by apply toldOk_ext; cbn; rewrite ?app_nil_r.
  - apply (toldOk_ext (setPhase c Joined w)); try done. by eapply toldOk_quiet.
Qed.

Lemma opened_toldOk c w : toldOk w → toldOk (opened c w).
Proof.
  intros Hok. unfold opened. destruct (phaseOf w c) as [[]|] eqn:Hp; try exact Hok.
  set (es := if observed then [ConnectionOpened c] else []).
  assert ((if observed then logs [ConnectionOpened c] w else w) = logs es w) as ->
    by (unfold es; destruct observed, w; unfold logs; cbn; by rewrite ?app_nil_r).
  assert (∀ c', callbacks c' es = if decide (c' = c) then begun c else []) as Hes.
  { intros c'. unfold es, begun, callbacks. destruct observed; [|by case_decide]. rewrite filter_cons. cbn [about].
    case_decide as Hd; [apply bool_decide_eq_true in Hd; by rewrite decide_True|].
    rewrite decide_False; [done|]. intros ->. by apply Hd, bool_decide_eq_true. }
  assert (∀ c', phaseOf (setPhase c Announced (logs es w)) c' = if decide (c' = c) then Some Announced else phaseOf w c')
    as Hph by (intros c'; rewrite phaseOf_setPhase; change (phaseOf (logs es w)) with (phaseOf w); by rewrite Hp).
  split; [intros c'|intros c'|intros c' e i|intros c'|intros c']; rewrite ?Hph;
    cbn [setPhase logs w_log w_run w_users w_closed].
  - rewrite callbacks_app, Hes, (to_log w Hok c'). case_decide; [subst c'; by rewrite Hp|by rewrite app_nil_r].
  - intros Ht. apply (to_tear w Hok) in Ht. case_decide; [subst c'; by rewrite Hp in Ht|done].
  - apply (to_hook w Hok).
  - case_decide; [done|]. intros Hl. eapply (left_logs w); [done|exact (to_left w Hok _ Hl)].
  - intros Hin. case_decide; [by eexists|]. eapply (users_logs w); [done|exact (to_users w Hok _ Hin)].
Qed.

Lemma start_toldOk c w : toldOk w → toldOk (start c w).
Proof.
  intros Hok. unfold start. destruct (w_phase w !! c) as [[t []]|] eqn:E; try exact Hok.
  assert (phaseOf w c = Some Announced) as Hp by (unfold phaseOf; by rewrite E).
  set (es := (match t with WebSocket => [SentConfig c] | ByteStream => [] end) ++ if pending then [ArmedAuthTimeout c] else []).
  assert (toldOk (setPhase c Serving (logs es (setUsers (w_users w) w)))) as H.
  { apply (toldOk_move c _ Announced); try done; [|by left]. intros c'. unfold es. destruct t, pending; by repeat constructor. }
  unfold es in H. destruct t, pending; cbn in *; try exact H.
  - unfold logs in *. cbn in *. by rewrite <-(assoc_L (++)).
  - revert H. by apply toldOk_ext; cbn; rewrite ?app_nil_r.
Qed.

Lemma take_toldOk c w : connsOk w → toldOk w → toldOk (take c w).
Proof.
  intros Hco Hok. unfold take. destruct (phaseOf w c) as [[]|] eqn:Hp; try exact Hok.
  destruct (w_run w) eqn:Hr; try exact Hok.
  rewrite bool_decide_true by (apply (Hco c); unfold regd; by rewrite Hp).
  set (conns := w_conns w ∖ {[c]}). set (e := bool_decide _).
  assert (∀ c', phaseOf (setPhase c Left (setConns conns w)) c' = if decide (c' = c) then Some Left else phaseOf w c')
    as Hph by (intros c'; rewrite phaseOf_setPhase; change (phaseOf (setConns conns w)) with (phaseOf w); by rewrite Hp).
  assert (∀ c', phaseOf (setRun (Hooking c e 0) (setPhase c Left (setConns conns w))) c' =
    if decide (c' = c) then Some Left else phaseOf w c') as Hph' by exact Hph.
  split; [intros c'|intros c'|intros c' e' i|intros c'|intros c']; rewrite ?Hph';
    cbn [setRun setPhase setConns w_log w_run w_users w_closed tearing].
  - rewrite (to_log w Hok c'), Hr. case_decide as Hd.
    + subst c'. rewrite Hp. cbn [told]. rewrite decide_True by done. by rewrite app_nil_r.
    + destruct (phaseOf w c') as [[]|]; try done. cbn [told]. by rewrite decide_False.
  - intros [= ->]. by rewrite decide_True.
  - intros [= _ _ <-]. apply Nat.le_0_l.
  - unfold tornDown. case_decide as Hd; [subst c'; rewrite decide_True by done; intros _; split; lia|].
    rewrite decide_False by done. intros Hl. pose proof (to_left w Hok c' Hl) as Hu. by rewrite Hr in Hu.
  - intros Hin. destruct (to_users w Hok c' Hin) as (p & Hp' & Hne). case_decide; [by eexists|by exists p].
Qed.

(** The teardown of one connection is nothing to another. *)
Lemma told_other r c c' p :
  tearing r = Some c ∨ tearing r = None → c' ≠ c → told p r c' = told p Selecting c' ∧ tornDown r c' = 2.
Proof.
  intros Ht Hne. destruct r as [|c2 e i|c2 e|c2 e|c2 e|e|]; cbn [tearing] in Ht;
    try (destruct Ht as [[= ->]|]; [|done]); cbn [told tornDown]; rewrite ?decide_False by congruence;
    destruct p as [[]|]; try done; cbn [told]; by rewrite decide_False by congruence.
Qed.

(** [run] goes on with the connection it tears down. *)
Lemma run_toldOk c r es users closed w :
  tearing (w_run w) = Some c → tearing r = Some c ∨ (∃ e, r = Looping e) →
  (∀ c', callbacks c' es = if decide (c' = c) then callbacks c es else []) →
  told (Some Left) r c = told (Some Left) (w_run w) c ++ callbacks c es →
  (∀ c' e i, r = Hooking c' e i → i ≤ disconnectHooks) →
  users ⊆ w_users w → w_closed w ⊆ closed →
  (0 < tornDown r c → c ∈ users → lateUser w c) → (1 < tornDown r c → c ∈ closed) →
  toldOk w →
  toldOk (World (w_stopping w) (w_conns w) users closed (w_phase w) r
    (w_signalled w) (w_heard w) (w_stops w) (w_requests w) (w_log w ++ es)).
Proof.
  intros Ht Htr Hes Hto Hho Hu Hc H1 H2 Hok. pose proof (to_tear w Hok c Ht) as Hp.
  set (v := World _ _ _ _ _ _ _ _ _ _ _). assert (∀ c', phaseOf v c' = phaseOf w c') as Hph by done.
  assert (∀ c', c' ≠ c → told (phaseOf w c') r c' = told (phaseOf w c') (w_run w) c' ∧
    (tornDown (w_run w) c' = 2)) as Hother.
  { intros c' Hne. destruct (told_other (w_run w) c c' (phaseOf w c') (or_introl Ht) Hne) as [-> ->].
    split; [|done]. apply (told_other r c); [|done]. destruct Htr as [|[e ->]]; [by left|by right]. }
  split; [intros c'|intros c'|intros c' e i|intros c'|intros c']; rewrite ?Hph; cbn [v w_log w_run w_users w_closed].
  - rewrite callbacks_app, Hes, (to_log w Hok c'). case_decide as Hd.
    + subst c'. by rewrite Hp, Hto.
    + rewrite app_nil_r. symmetry. by apply Hother.
  - destruct Htr as [->|[e ->]]; [|done]. by intros [= <-].
  - apply Hho.
  - intros Hl. assert (∀ c, lateUser w c → lateUser v c) as Hla by (intros ?; by eapply lateUser_logs).
    destruct (decide (c' = c)) as [->|Hne]; [split; auto|].
    destruct (to_left w Hok c' Hl) as [Hx Hy]. destruct (Hother c' Hne) as [_ H3]. rewrite H3 in *.
    split; [intros _ Hin; apply Hla, Hx; [lia|by apply Hu]|intros _; by apply Hc, Hy; lia].
  - intros Hin. eapply (users_logs w); [done|]. by apply (to_users w Hok), Hu.
Qed.

Lemma callbacks_single c e c' :
  (∀ c'', about c'' e = bool_decide (c = c'')) → callbacks c' [e] = if decide (c' = c) then callbacks c [e] else [].
Proof.
  intros He. unfold callbacks. rewrite !filter_cons, !He. destruct (decide (c' = c)) as [->|Hne]; [done|].
  rewrite decide_False; [done|]. intros ?%bool_decide_eq_true. by subst.
Qed.

Lemma callbacks_self e c : about c e = true → callbacks c [e] = [e].
Proof. intros He. unfold callbacks. by rewrite filter_cons, decide_True by exact He. Qed.

Lemma hooksRun_S c i : hooksRun c (S i) = hooksRun c i ++ [DisconnectHook c i].
Proof. unfold hooksRun. by rewrite seq_S, fmap_app. Qed.

Lemma run_toldOk_quiet c r users closed w :
  tearing (w_run w) = Some c → tearing r = Some c ∨ (∃ e, r = Looping e) →
  told (Some Left) r c = told (Some Left) (w_run w) c → (∀ c' e i, r ≠ Hooking c' e i) →
  users ⊆ w_users w → w_closed w ⊆ closed →
  (0 < tornDown r c → c ∈ users → lateUser w c) → (1 < tornDown r c → c ∈ closed) →
  toldOk w →
  toldOk (World (w_stopping w) (w_conns w) users closed (w_phase w) r
    (w_signalled w) (w_heard w) (w_stops w) (w_requests w) (w_log w)).
Proof.
  intros Ht Htr Hto Hho Hu Hc H1 H2 Hok.
  assert (∀ c', callbacks c' [] = if decide (c' = c) then callbacks c [] else []) as Hes by (intros c'; by case_decide).
  assert (told (Some Left) r c = told (Some Left) (w_run w) c ++ callbacks c []) as Hto' by (by rewrite app_nil_r).
  assert (∀ c' e i, r = Hooking c' e i → i ≤ disconnectHooks) as Hho' by (intros c' e i Heq; by destruct (Hho c' e i)).
  pose proof (run_toldOk c r [] users closed w Ht Htr Hes Hto' Hho' Hu Hc H1 H2 Hok) as H.
  revert H. by apply toldOk_ext; cbn; rewrite ?app_nil_r.
Qed.

(** Between connections, nothing is to be told. *)
Lemma toldOk_idle r w : tearing (w_run w) = None → tearing r = None → toldOk w → toldOk (setRun r w).
Proof.
  intros Hw Hr Hok. destruct Hok as [H1 H2 H3 H4 H5].
  assert (∀ r c p, tearing r = None → told p r c = told p Selecting c ∧ tornDown r c = 2) as Hid.
  { intros r' c' p Hr'. destruct (told_other r' (S c') c' p (or_intror Hr')); [lia|done]. }
  split; cbn [setRun w_run w_log w_users w_closed].
  - intros c. change (phaseOf (setRun r w) c) with (phaseOf w c). rewrite H1.
    rewrite (proj1 (Hid r c _ Hr)). by rewrite (proj1 (Hid (w_run w) c _ Hw)).
  - intros c Ht. by rewrite Hr in Ht.
  - intros c e i ->. done.
  - intros c Hl. change (phaseOf (setRun r w) c) with (phaseOf w c) in Hl. specialize (H4 c Hl).
    rewrite (proj2 (Hid (w_run w) c None Hw)) in H4. by rewrite (proj2 (Hid r c None Hr)).
  - exact H5.
Qed.

Lemma runOn_toldOk w : toldOk w → toldOk (runOn w).
Proof.
  intros Hok. unfold runOn.
  destruct (w_run w) as [|c e i|c e|c e|c e|e|] eqn:Hr; try exact Hok.
  - pose proof (to_hook w Hok c e i Hr) as Hi. destruct (bool_decide _) eqn:Eb.
    + apply bool_decide_eq_true in Eb.
      apply (run_toldOk c (Hooking c e (S i)) [DisconnectHook c i] (w_users w) (w_closed w) w);
        rewrite ?Hr; cbn [tearing told tornDown]; rewrite ?decide_True by done; try done; try lia.
      * by left.
      * intros c'. by apply callbacks_single.
      * rewrite callbacks_self by (by apply bool_decide_eq_true). by rewrite hooksRun_S, (assoc_L (++)).
      * intros c' e' i' [= <- <- <-]. lia.
    + apply bool_decide_eq_false in Eb. apply (run_toldOk_quiet c (Dropping c e) (w_users w) (w_closed w) w);
        rewrite ?Hr; cbn [tearing told tornDown]; rewrite ?decide_True by done; try done; try lia; [by left|].
      by rewrite (Nat.le_antisymm i disconnectHooks) by lia.
  - apply (run_toldOk_quiet c (Closing c e) (w_users w ∖ {[c]}) (w_closed w) w);
      rewrite ?Hr; cbn [tearing told tornDown]; rewrite ?decide_True by done; try done; try lia; [by left| |].
    + by intros x [? _]%elem_of_difference.
    + by intros _ [_ Hn%not_elem_of_singleton]%elem_of_difference.
  - pose proof (to_left w Hok c (to_tear w Hok c ltac:(by rewrite Hr))) as [Hu _]. rewrite Hr in Hu. cbn [tornDown] in Hu.
    rewrite decide_True in Hu by done.
    apply (run_toldOk_quiet c (Telling c e) (w_users w) ({[c]} ∪ w_closed w) w);
      rewrite ?Hr; cbn [tearing told tornDown]; rewrite ?decide_True by done; try done; try lia; [by left| | |].
    + apply union_subseteq_r.
    + intros _. apply Hu. lia.
    + intros _. by apply elem_of_union_l, elem_of_singleton.
  - pose proof (to_left w Hok c (to_tear w Hok c ltac:(by rewrite Hr))) as [Hu Hc]. rewrite Hr in Hu, Hc. cbn [tornDown] in Hu, Hc.
    assert (told (Some Left) (Looping e) c = told (Some Left) (w_run w) c ++ if observed then [ConnectionClosed c] else []) as Ht.
    { rewrite Hr. cbn [told]. rewrite decide_True by done. unfold ended. by rewrite (assoc_L (++)). }
    destruct observed eqn:Eo.
    + apply (run_toldOk c (Looping e) [ConnectionClosed c] (w_users w) (w_closed w) w);
        rewrite ?Hr in *; try done; [by right; exists e| |..].
      * intros c'. by apply callbacks_single.
      * rewrite callbacks_self by (by apply bool_decide_eq_true). exact Ht.
    + apply (run_toldOk_quiet c (Looping e) (w_users w) (w_closed w) w); rewrite ?Hr in *; try done; [by right; exists e|].
      by rewrite app_nil_r in Ht.
  - apply toldOk_idle; [by rewrite Hr|by destruct (_ && _)|done].
Qed.

(** An entry about no connection. *)
Lemma toldOk_logs e w : (∀ c, about c e = false) → toldOk w → toldOk (logs [e] w).
Proof.
  intros He Hok. pose proof Hok as [H1 H2 H3 H4 H5]. split; [|done|done|..].
  - intros c. cbn [logs w_log]. rewrite callbacks_app, (callbacks_other c [e]), app_nil_r; [apply H1|].
    by constructor.
  - intros c Hl. eapply (left_logs w); [done|exact (H4 c Hl)].
  - intros c Hin. eapply (users_logs w); [done|exact (H5 c Hin)].
Qed.

(** [SetUserID]: who is set when the server had let go of the connection is remembered. *)
Lemma setUser_toldOk c u w : toldOk w → toldOk (setUser c u w).
Proof.
  intros Hok. unfold setUser. destruct (phaseOf w c) as [p|] eqn:Hp; [|done]. destruct u.
  - pose proof (toldOk_logs (SetUser c (letGo w c)) w (λ _, eq_refl) Hok) as Hok'.
    pose proof Hok' as [H1 H2 H3 H4 H5].
    assert (letGo w c = true → lateUser (logs [SetUser c (letGo w c)] w) c) as Hlate.
    { intros ->. unfold lateUser. cbn. apply elem_of_app. right. by left. }
    split; [exact H1|exact H2|exact H3|..].
    + intros c' Hl. destruct (H4 c' Hl) as [Hu Hcl]. split; [|exact Hcl].
      intros Hlt [->%elem_of_singleton|Hin]%elem_of_union; [|by apply Hu].
      apply Hlate. unfold letGo. change (phaseOf w c = Some Left) in Hl. rewrite Hl. by apply bool_decide_true.
    + intros c' [->%elem_of_singleton|Hin]%elem_of_union; [|by apply H5]. exists p. split; [exact Hp|].
      intros ->. apply Hlate. unfold letGo. by rewrite Hp.
  - pose proof Hok as [H1 H2 H3 H4 H5]. split; [exact H1|exact H2|exact H3|..].
    + intros c' Hl. destruct (H4 c' Hl) as [Hu Hcl]. split; [|exact Hcl].
      intros Hlt [Hin _]%elem_of_difference. by apply Hu.
    + intros c' [Hin _]%elem_of_difference. by apply H5.
Qed.

Lemma step_toldOk w e : connsOk w → toldOk w → toldOk (step w e).
Proof.
  intros Hco Hok.
  assert (∀ c, w_closed w ⊆ {[c]} ∪ w_closed w) as Hcl by (intros c; apply union_subseteq_r).
  destruct e as [c t|c user ok|c|c|c|c|c|c|c| |c| | |k|k|c u]; cbn [step].
  - by apply accept_toldOk.
  - by apply runConnectHook_toldOk.
  - by apply join_toldOk.
  - by apply opened_toldOk.
  - by apply start_toldOk.
  - unfold readEnd. destruct (phaseOf w c) as [[]|] eqn:Hp; try exact Hok. by eapply toldOk_quiet.
  - unfold giveUp. destruct (w_phase w !! c) as [[[] []]|] eqn:E; try exact Hok. destruct (w_run w); try exact Hok.
    apply (toldOk_ext (setPhase c Abandoned w)); [done..|apply Hcl|].
    eapply (toldOk_quiet c Abandoned Leaving); try done. unfold phaseOf. by rewrite E.
  - apply (toldOk_ext w); [done..|apply Hcl|done].
  - unfold beginRequest. destruct (phaseOf w c) as [[]|]; try exact Hok. by apply (toldOk_ext w).
  - by apply (toldOk_ext w).
  - by apply take_toldOk.
  - unfold stopSignal. destruct (w_run w) eqn:Hr; try exact Hok. destruct (_ && _); [|exact Hok].
    apply toldOk_idle; [cbn; by rewrite Hr|by destruct (bool_decide _)|by apply (toldOk_ext w)].
  - by apply runOn_toldOk.
  - assert (∀ i, toldOk (logs [StopHook i] w)) as Hl by (intros i; by apply toldOk_logs).
    unfold Stop. destruct (default _ _) as [| |[|c cs]| |i| | |]; try exact Hok; try (by apply (toldOk_ext w));
      try (apply (toldOk_ext w); [done..|apply Hcl|done]); try (destruct (bool_decide _); by apply (toldOk_ext w)).
    + destruct (bool_decide _); [by apply (toldOk_ext (logs [StopHook i] w))|by apply (toldOk_ext w)].
    + destruct (w_run w); first [exact Hok|by apply (toldOk_ext w)].
  - unfold expire. destruct (w_stops w !! k) as [[]|]; first [exact Hok|by apply (toldOk_ext w)].
  - by apply setUser_toldOk.
Qed.

Lemma reach_told w : reach w → toldOk w.
Proof.
  intros Hr. enough (connsOk w ∧ toldOk w) as [_ ?] by done. revert w Hr.
  apply (reachable_invariant _ _ (λ w, connsOk w ∧ toldOk w)).
  - intros ? ->. split.
    + intros c. split; [by intros ?%not_elem_of_empty|done].
    + by split.
  - intros ? ? _ [H1 H2] [e ->]. split; [by apply step_connsOk|by apply step_toldOk].
Qed.

(** A byte stream gives up only when [run] is gone. *)
Lemma reach_abandoned w c : reach w → phaseOf w c = Some Abandoned → w_run w = Exited.
Proof.
  intros Hr. revert c.
  apply (reachable_invariant (λ w, w = newServer) (λ w w', ∃ e, w' = step w e)
    (λ w, ∀ c, phaseOf w c = Some Abandoned → w_run w = Exited)); [by intros ? ->| |done].
  clear w Hr. intros w ? Hr IH [e ->] c Hc.
  destruct (decide (phaseOf w c = Some Abandoned)) as [Ha|Ha].
  { destruct (step_shrinks w e) as (_ & _ & _ & Hx). by eapply Hx, IH. }
  assert (∀ c' q v, phaseOf v = phaseOf w → phaseOf (setPhase c' q v) c = Some Abandoned → q = Abandoned) as Hset.
  { intros c' q v Hv. rewrite phaseOf_setPhase, Hv. case_decide; [|done].
    destruct (phaseOf w c'); [|done]. by intros [= ->]. }
  destruct e as [c' t|c' user ok|c'|c'|c'|c'|c'|c'|c'| |c'| | |k|k|c' u]; cbn [step] in Hc; try done.
  - rewrite phaseOf_accept in Hc. destruct (phaseOf w c); [by injection Hc as ->|]. case_decide; [|done].
    by destruct (w_stopping w).
  - exfalso. revert Hc. unfold runConnectHook. repeat case_match; try done; intros Hc; by apply Hset in Hc.
  - exfalso. revert Hc. unfold join, registerConn. repeat case_match; simplify_eq; try done; intros Hc; by apply Hset in Hc.
  - exfalso. revert Hc. unfold opened. repeat case_match; try done; intros Hc; by apply Hset in Hc.
  - exfalso. revert Hc. unfold start. repeat case_match; try done; intros Hc; by apply Hset in Hc.
  - exfalso. revert Hc. unfold readEnd. repeat case_match; try done; intros Hc; by apply Hset in Hc.
  - cbn [step]. unfold giveUp in *. destruct (w_phase w !! c') as [[[] []]|]; try done. by destruct (w_run w) eqn:E.
  - exfalso. revert Hc. unfold beginRequest. by repeat case_match.
  - exfalso. revert Hc. unfold take. destruct (phaseOf w c') as [[]|]; try done. destruct (w_run w); try done.
    intros Hc. by apply (Hset c' Left (setConns (w_conns w ∖ {[c']}) w) eq_refl) in Hc.
  - exfalso. revert Hc. unfold stopSignal. by repeat case_match.
  - exfalso. revert Hc. unfold runOn. by repeat case_match.
  - exfalso. revert Hc. unfold Stop. by repeat case_match.
  - exfalso. revert Hc. unfold expire. by repeat case_match.
  - exfalso. revert Hc. unfold setUser. by repeat case_match.
Qed.

(** The application hears of a connection in one order: it opened, its disconnect hooks
    run in theirs, it closed; and by the end it is off the user index and closed. *)
Lemma callbacks_in_order w c :
  reach w →
  callbacks c (w_log w) `prefix_of` ended c ∧
  (phaseOf w c = Some Left → tearing (w_run w) ≠ Some c →
     callbacks c (w_log w) = ended c ∧ (c ∈ w_users w → lateUser w c) ∧ c ∈ w_closed w).
Proof.
  intros Hr. pose proof (reach_told w Hr) as Hok. rewrite (to_log w Hok c). split.
  - destruct (phaseOf w c) as [[]|]; cbn [told]; try apply prefix_nil; try (by eexists).
    assert (∀ i, i ≤ disconnectHooks → begun c ++ hooksRun c i `prefix_of` ended c) as Hpre.
    { intros i Hi. unfold ended. apply prefix_app. apply prefix_app_r. exists (DisconnectHook c <$> seq i (disconnectHooks - i)).
      unfold hooksRun. rewrite <-fmap_app, <-seq_app. do 2 f_equal. lia. }
    destruct (w_run w) as [|c' e i|c' e|c' e|c' e|e|] eqn:E; try done; case_decide; try done; apply Hpre; try lia.
    by apply (to_hook w Hok c' e i).
  - intros Hl Hne. destruct (to_left w Hok c Hl) as [H1 H2]. rewrite Hl.
    assert (told (Some Left) (w_run w) c = ended c ∧ tornDown (w_run w) c = 2) as [-> H3].
    { destruct (w_run w); cbn [told tornDown tearing] in *; rewrite ?decide_False by congruence; done. }
    rewrite H3 in *. split_and!; [done|apply H1; lia|apply H2; lia].
Qed.

(** ** Clean shutdown *)

(** [run] computed its [empty] before a connection joined and will go by it. *)
Definition stale (w : world) : bool :=
  match runEmpty (w_run w) with Some true => negb (bool_decide (w_conns w = ∅)) | _ => false end.

(** Steps in which no [Stop] raises the flag while that is so. *)
Definition promptStep (w w' : world) : Prop :=
  ∃ e, w' = step w e ∧ ∀ k, e = EvStop k → w_stopping w = false → stale w = false.

Definition promptReach : world → Prop := reachable (λ w, w = newServer) promptStep.

Lemma promptReach_reach w : promptReach w → reach w.
Proof. induction 1 as [w ->|w w' _ IH (e & -> & _)]; [by constructor|by eapply reach_step; [|exists e]]. Qed.

(** A stopping server goes by a true [empty] only when nothing is left. *)
Definition cleanOk (w : world) : Prop :=
  w_stopping w = true → (runEmpty (w_run w) = Some true → w_conns w = ∅) ∧ (w_run w = Exited → w_conns w = ∅).

Lemma step_cleanOk w w' : serverOk w → promptStep w w' → cleanOk w → cleanOk w'.
Proof.
  intros Hok (e & -> & Hpr) Hc Hst. pose proof (step_frame w e) as Hfr.
  destruct e as [c t|c user ok|c|c|c|c|c|c|c| |c| | |k|k|c u];
    try (destruct Hfr as (Hs & _ & _ & -> & ->); rewrite Hs in Hst; by apply Hc); clear Hfr; cbn [step] in *.
  - revert Hst. unfold join, registerConn. destruct (phaseOf w c) as [[]|]; try exact Hc.
    destruct (w_stopping w) eqn:E; [|intros Hst; cbn in Hst; by rewrite E in Hst]. intros _. by apply Hc.
  - revert Hst. unfold take. destruct (phaseOf w c) as [[]|]; try exact Hc. destruct (w_run w); try exact Hc.
    intros _. cbn. destruct (bool_decide (c ∈ _)); (split; [intros [= ?%bool_decide_eq_true]; done|done]).
  - revert Hst. unfold stopSignal. destruct (w_run w) eqn:Er; try exact Hc. destruct (_ && _); [|exact Hc].
    intros _. cbn. case_bool_decide; split; done.
  - revert Hst. unfold runOn. destruct (w_run w) as [|c e i|c e|c e|c e|e|] eqn:Er; try exact Hc;
      unfold cleanOk in Hc; rewrite Er in Hc; cbn [runEmpty] in Hc.
    + destruct (bool_decide _); intros Hst; (split; [by apply Hc|done]).
    + intros Hst; (split; [by apply Hc|done]).
    + intros Hst; (split; [by apply Hc|done]).
    + destruct observed; intros Hst; (split; [by apply Hc|done]).
    + destruct (w_stopping w) eqn:Es; cbn; [|by rewrite Es]. intros _. destruct e; split; try done. intros _.
      by apply (proj1 (Hc eq_refl)).
  - assert (w_conns (Stop k w) = w_conns w ∧ w_run (Stop k w) = w_run w) as [-> ->]
      by (unfold Stop; destruct (default _ _) as [| |[]| | | | |]; repeat case_match; done).
    destruct (w_stopping w) eqn:Es; [by apply Hc|]. specialize (Hpr k eq_refl eq_refl). unfold stale in Hpr. split.
    + intros He. rewrite He in Hpr. by apply negb_false_iff, bool_decide_eq_true in Hpr.
    + intros Hx. pose proof (fo_exited _ _ _ _ _ (so_flags w Hok) Hx). congruence.
Qed.

(** Still in its connect hooks, or about to be refused by [registerConn]. *)
Definition joining (p : connPhase) : bool :=
  match p with Connecting _ | Joining => true | _ => false end.

(** C17: [shutdown_clean]: when [run] has ended, or a call to [Stop] has returned nil, and no
    connection joined behind [run]'s back just before the flag was raised, no connection is
    left in the server's set and none will be: each one either never joined, or has been
    through all its callbacks in order and is closed. The user index has none of them, but for
    those still in their connect hooks and those whose [SetUserID] (of a handler, say) came
    after the server had let go of the connection: [late_user_outlives]. *)
Theorem shutdown_clean w :
  promptReach w → w_run w = Exited ∨ (∃ k, w_stops w !! k = Some (SReturned true)) →
  (∀ c p, phaseOf w c = Some p →
     (p = Left ∧ callbacks c (w_log w) = ended c ∧ c ∈ w_closed w) ∨
     (registered p = false ∧ p ≠ Left ∧ callbacks c (w_log w) = [])) ∧
  (∀ c, c ∈ w_users w → lateUser w c ∨ ∃ p, phaseOf w c = Some p ∧ joining p = true) ∧
  ∀ evs, w_conns (runs step w evs) = ∅.
Proof.
  intros Hr Hex. pose proof (promptReach_reach w Hr) as Hr'. destruct (reach_inv w Hr') as [Hco Hok].
  assert (cleanOk w) as Hcl.
  { enough (serverOk w ∧ cleanOk w) as [_ ?] by done. revert Hr. clear. revert w.
    apply (reachable_invariant _ _ (λ w, serverOk w ∧ cleanOk w)).
    - intros ? ->. by destruct (reach_inv newServer (reach_init _ _ _ eq_refl)) as [_ ?].
    - intros w w' Hr [H1 H2] Hs. split; [|by eapply step_cleanOk]. destruct Hs as (e & -> & _). by apply step_serverOk. }
  assert (w_run w = Exited) as Hx.
  { destruct Hex as [|[k Hk]]; [done|]. by destruct (so_stops w Hok k _ Hk) as [_ [_ ?]]. }
  pose proof (fo_exited _ _ _ _ _ (so_flags w Hok) Hx) as Hst. destruct (Hcl Hst) as [_ Hempty]. specialize (Hempty Hx).
  split_and!.
  - intros c p Hp. assert (registered p = false) as Hreg.
    { pose proof (Hco c) as Hc. unfold regd in Hc. rewrite Hp, Hempty in Hc. destruct (registered p); [|done].
      exfalso. apply (not_elem_of_empty (C := gset nat) c). by apply Hc. }
    destruct (callbacks_in_order w c Hr') as [_ Hl].
    destruct (decide (p = Left)) as [->|Hne].
    { left. destruct Hl as (? & _ & ?); [done|by rewrite Hx|done]. }
    right. split_and!; [done|done|]. rewrite (to_log w (reach_told w Hr') c), Hp. by destruct p.
  - intros c Hin. destruct (to_users w (reach_told w Hr') c Hin) as (p & Hp & Href).
    assert (registered p = false) as Hreg.
    { pose proof (Hco c) as Hc. unfold regd in Hc. rewrite Hp, Hempty in Hc. destruct (registered p); [|done].
      exfalso. apply (not_elem_of_empty (C := gset nat) c). by apply Hc. }
    destruct p; try done; [by right; eexists|by right; eexists| |by left; apply Href].
    left. destruct (callbacks_in_order w c Hr') as [_ Hl]. apply Hl; [done|by rewrite Hx|done].
  - intros evs. enough (w_stopping (runs step w evs) = true ∧ w_conns (runs step w evs) ⊆ ∅) as [_ Hs]
      by (by apply leibniz_equiv, equiv_empty).
    apply (runs_invariant step (λ v, w_stopping v = true ∧ w_conns v ⊆ ∅)); [by rewrite Hempty|].
    intros v e [Hs Hc]. destruct (step_shrinks v e) as (Hsh & _). destruct (Hsh Hs). split; [done|]. by etrans.
Qed.

(** ** Shutdown ends *)

(** The sum of a weight over a map. *)
Definition total {A} (f : A → nat) (m : gmap nat A) : nat := sum_list_with (λ ka, f ka.2) (map_to_list m).

Lemma total_insert {A} (f : A → nat) m k x y :
  m !! k = Some x → total f (<[k := y]> m) + f x = total f m + f y.
Proof.
  intros Hk. unfold total.
  rewrite <-(insert_id m k x) at 2 by done. rewrite <-!(insert_delete_eq m).
  rewrite !map_to_list_insert by apply lookup_delete_eq. cbn. lia.
Qed.

Lemma total_le {A} (f g : A → nat) m : (∀ k x, m !! k = Some x → f x ≤ g x) → total f m ≤ total g m.
Proof.
  intros Hfg. unfold total. assert (∀ l, (∀ ka, ka ∈ l → m !! ka.1 = Some ka.2) →
    sum_list_with (λ ka, f ka.2) l ≤ sum_list_with (λ ka : nat * A, g ka.2) l) as Hl.
  { induction l as [|[k x] l IH]; intros Hin; [done|]. cbn.
    pose proof (Hfg k x (Hin (k, x) (list_elem_of_here _ _))).
    assert (sum_list_with (λ ka, f ka.2) l ≤ sum_list_with (λ ka : nat * A, g ka.2) l)
      by (apply IH; intros ka Hka; apply Hin; by right). lia. }
  apply Hl. intros [k x] Hin. by apply elem_of_map_to_list.
Qed.

(** The steps a shutdown consists of: what the goroutines do on their own. Handlers return,
    the read loops of closed connections end, and nobody connects or gives up waiting. *)
Definition helpful (w : world) (e : event) : Prop :=
  match e with
  | EvOpened _ | EvStart _ | EvTake _ | EvStopSignal | EvRun | EvEnd => True
  | EvReadEnd c => c ∈ w_closed w
  | EvStop k => is_Some (w_stops w !! k)
  | _ => False
  end.

Definition progress (w w' : world) : Prop := ∃ e, helpful w e ∧ w' = step w e ∧ w' ≠ w.

Definition connWeight (p : transport * connPhase) : nat :=
  match p.2 with
  | Joined => disconnectHooks + 10
  | Announced => disconnectHooks + 9
  | Serving => disconnectHooks + 8
  | Leaving => disconnectHooks + 7
  | _ => 0
  end.

Definition runWeight (r : runPhase) : nat :=
  match r with
  | Hooking _ _ i => disconnectHooks - i + 5
  | Dropping _ _ => 4 | Closing _ _ => 3 | Telling _ _ => 2 | Looping _ => 1
  | Selecting | Exited => 0
  end.

Definition stopWeight (n : nat) (p : stopPhase) : nat :=
  match p with
  | SFlag => n + stopHooks + 7
  | SSnapshot => n + stopHooks + 6
  | SSweep todo => length todo + stopHooks + 5
  | SWait => stopHooks + 4
  | SHook i => stopHooks - i + 3
  | SSignal => 2
  | SDone => 1
  | SReturned _ => 0
  end.

Definition weight (w : world) : nat :=
  total connWeight (w_phase w) + runWeight (w_run w) + total (stopWeight (size (w_conns w))) (w_stops w) +
  w_requests w + (if w_heard w then 0 else 1).

Lemma total_setPhase c p q w :
  phaseOf w c = Some q →
  total connWeight (w_phase (setPhase c p w)) + connWeight (WebSocket, q) =
  total connWeight (w_phase w) + connWeight (WebSocket, p).
Proof.
  unfold phaseOf. intros Hq. destruct (w_phase w !! c) as [[t q']|] eqn:E; [|done]. injection Hq as ->.
  cbn [setPhase w_phase]. assert (alter (λ tp : transport * connPhase, (tp.1, p)) c (w_phase w) = <[c := (t, p)]> (w_phase w)) as ->.
  { apply map_eq. intros c'. destruct (decide (c' = c)) as [->|Hne].
    - by rewrite lookup_alter_eq, lookup_insert_eq, E.
    - by rewrite lookup_alter_ne, lookup_insert_ne by done. }
  exact (total_insert connWeight (w_phase w) c (t, q) (t, p) E).
Qed.

Lemma stopWeight_mono n n' p : n ≤ n' → stopWeight n p ≤ stopWeight n' p.
Proof. destruct p; cbn; lia. Qed.

Lemma setStop_weight k p q w :
  w_stops w !! k = Some q →
  total (stopWeight (size (w_conns w))) (w_stops (setStop k p w)) + stopWeight (size (w_conns w)) q =
  total (stopWeight (size (w_conns w))) (w_stops w) + stopWeight (size (w_conns w)) p.
Proof. intros Hq. cbn [setStop w_stops]. by apply total_insert. Qed.

(** A connection, or [run], goes on. *)
Lemma conn_weight c p q w v :
  phaseOf w c = Some q → connWeight (WebSocket, p) < connWeight (WebSocket, q) →
  w_phase v = w_phase w → w_run v = w_run w → w_conns v = w_conns w → w_stops v = w_stops w →
  w_requests v = w_requests w → w_heard v = w_heard w → weight (setPhase c p v) < weight w.
Proof.
  intros Hq Hlt Hp Hr Hc Hs Hn Hh. pose proof (total_setPhase c p q w Hq) as Ht.
  unfold weight. cbn [setPhase w_phase w_run w_conns w_stops w_requests w_heard] in *.
  rewrite Hp, Hr, Hc, Hs, Hn, Hh. lia.
Qed.

Lemma run_weight r w v :
  runWeight r < runWeight (w_run w) → w_phase v = w_phase w → w_conns v = w_conns w → w_stops v = w_stops w →
  w_requests v = w_requests w → w_heard v = w_heard w → weight (setRun r v) < weight w.
Proof.
  intros Hlt Hp Hc Hs Hn Hh. unfold weight. cbn [setRun w_phase w_run w_conns w_stops w_requests w_heard].
  rewrite Hp, Hc, Hs, Hn, Hh. lia.
Qed.

(** A call of [Stop] goes on. *)
Lemma stop_weight k p q w v :
  w_stops w !! k = Some q → stopWeight (size (w_conns w)) p < stopWeight (size (w_conns w)) q →
  w_phase v = w_phase w → w_run v = w_run w → w_conns v = w_conns w → w_stops v = w_stops w →
  w_requests v = w_requests w → w_heard v = w_heard w → weight (setStop k p v) < weight w.
Proof.
  intros Hq Hlt Hp Hr Hc Hs Hn Hh. pose proof (setStop_weight k p q w Hq) as Ht.
  unfold weight. cbn [setStop w_phase w_run w_conns w_stops w_requests w_heard] in *.
  rewrite Hp, Hr, Hc, Hs, Hn, Hh. lia.
Qed.

Lemma take_weight c w : take c w ≠ w → weight (take c w) < weight w.
Proof.
  unfold take. destruct (phaseOf w c) as [[]|] eqn:Hp; try done. destruct (w_run w) eqn:Hr; try done. intros _.
  set (conns := w_conns w ∖ {[c]}). set (r := if bool_decide _ then _ else _).
  pose proof (total_setPhase c Left Leaving w Hp) as Ht.
  assert (runWeight r ≤ disconnectHooks + 5) as Hrw by (unfold r; destruct (bool_decide _); cbn; lia).
  assert (total (stopWeight (size conns)) (w_stops w) ≤ total (stopWeight (size (w_conns w))) (w_stops w)) as Hst.
  { apply total_le. intros k p _. apply stopWeight_mono, subseteq_size. by intros x [? _]%elem_of_difference. }
  unfold weight. cbn [setRun setPhase setConns w_phase w_run w_conns w_stops w_requests w_heard connWeight snd] in *.
  rewrite Hr. cbn [runWeight]. lia.
Qed.

Lemma progress_decreases w w' : progress w w' → weight w' < weight w.
Proof.
  intros (e & Hh & -> & Hne). destruct e as [c t|c user ok|c|c|c|c|c|c|c| |c| | |k|k|c u]; try done; cbn [step] in *.
  - unfold opened in *. destruct (phaseOf w c) as [[]|] eqn:Hp; try done.
    apply (conn_weight c Announced Joined w); try done; [cbn; lia|by destruct observed..].
  - unfold start in *. destruct (w_phase w !! c) as [[t []]|] eqn:E; try done.
    apply (conn_weight c Serving Announced w); [unfold phaseOf; by rewrite E|cbn; lia|by destruct t, pending..].
  - unfold readEnd in *. destruct (phaseOf w c) as [[]|] eqn:Hp; try done.
    apply (conn_weight c Leaving Serving w); try done. cbn. lia.
  - unfold weight. cbn [setRequests w_phase w_run w_conns w_stops w_requests w_heard].
    destruct (w_requests w) eqn:E; [|lia]. destruct Hne. destruct w. cbn in E. by subst.
  - by apply take_weight.
  - unfold stopSignal in *. destruct (w_run w) eqn:Er; try done. destruct (_ && _) eqn:Eb; [|done].
    apply andb_true_iff in Eb as [_ Eh%negb_true_iff]. unfold weight.
    cbn [setRun setFlags w_phase w_run w_conns w_stops w_requests w_heard]. rewrite Er, Eh.
    destruct (bool_decide _); cbn [runWeight]; lia.
  - unfold runOn in *. destruct (w_run w) as [|c e i|c e|c e|c e|e|] eqn:Er; try done.
    + destruct (bool_decide (i < _)) eqn:Eb.
      * apply bool_decide_eq_true in Eb. apply run_weight; try done. rewrite Er. cbn. lia.
      * apply run_weight; try done. rewrite Er. cbn. lia.
    + apply run_weight; try done. rewrite Er. cbn. lia.
    + apply run_weight; try done. rewrite Er. cbn. lia.
    + destruct observed; (apply run_weight; try done; rewrite Er; cbn; lia).
    + apply run_weight; try done. rewrite Er. destruct (_ && _); cbn; lia.
  - destruct Hh as [q Hq]. unfold Stop in *. rewrite Hq in *. cbn [default from_option id] in *.
    destruct q as [| |[|c cs]| |i| | |b]; try done.
    + apply (stop_weight k _ SFlag); try done. cbn. lia.
    + apply (stop_weight k _ SSnapshot); try done. cbn. pose proof (length_range_of (w_conns w)). lia.
    + apply (stop_weight k _ (SSweep [])); try done. cbn. lia.
    + apply (stop_weight k _ (SSweep (c :: cs))); try done. cbn. lia.
    + destruct (bool_decide _); [|done]. apply (stop_weight k _ SWait); try done. cbn. lia.
    + destruct (bool_decide (i < _)) eqn:Eb.
      * apply bool_decide_eq_true in Eb. apply (stop_weight k _ (SHook i)); try done. cbn. lia.
      * apply (stop_weight k _ (SHook i)); try done. cbn. lia.
    + apply (stop_weight k _ SSignal); try done. cbn. lia.
    + destruct (w_run w) eqn:Er; try done. apply (stop_weight k _ SDone); try done. cbn. lia.
Qed.

Lemma progress_wf w : sn progress w.
Proof.
  remember (weight w) as n eqn:Hn. revert w Hn. induction (lt_wf n) as [n _ IH]. intros w ->. constructor. intros w' Hp.
  unfold flip in Hp. apply (IH (weight w')); [by apply progress_decreases|done].
Qed.

Lemma progress_reach w w' : reach w → rtc progress w w' → reach w'.
Proof.
  intros Hr Hp. induction Hp as [|w v w' (e & _ & -> & _) _ IH]; [done|]. apply IH. eapply reach_step; [done|by exists e].
Qed.

(** A step that moves a part of the state is progress. *)
Lemma moves {A} (f : world → A) w e : helpful w e → f (step w e) ≠ f w → ∃ v, progress w v.
Proof. intros Hh Hf. exists (step w e), e. split_and!; [done|done|]. intros Heq. by rewrite Heq in Hf. Qed.

Lemma phase_moves w c p q e :
  helpful w e → phaseOf w c = Some q → phaseOf (step w e) c = Some p → p ≠ q → ∃ v, progress w v.
Proof. intros Hh Hq Hp Hne. apply (moves (λ w, phaseOf w c) w e Hh). rewrite Hq, Hp. by intros [= ->]. Qed.

Lemma stop_moves w k p :
  w_stops w !! k = Some p → (∃ q, w_stops (Stop k w) !! k = Some q ∧ q ≠ p) → ∃ v, progress w v.
Proof.
  intros Hp (q & Hq & Hne). apply (moves (λ w, w_stops w !! k) w (EvStop k)); [by eexists|].
  cbn [step]. rewrite Hq, Hp. by intros [= ->].
Qed.

Lemma run_moves w r : w_run w = r → w_run (runOn w) ≠ r → ∃ v, progress w v.
Proof. intros <- Hne. by apply (moves w_run w EvRun). Qed.

(** While [run] waits for connections, one of them can go on. *)
Lemma conn_moves w c :
  reach w → w_run w = Selecting → c ∈ w_conns w → c ∈ w_closed w → ∃ v, progress w v.
Proof.
  intros Hr Hs Hc Hcl. destruct (reach_inv w Hr) as [Hco _]. pose proof (proj1 (Hco c) Hc) as Hreg. unfold regd in Hreg.
  destruct (phaseOf w c) as [p|] eqn:Hp; [|done].
  assert (∀ q v, phaseOf v = phaseOf w → phaseOf (setPhase c q v) c = Some q) as Hset
    by (intros q v Hv; rewrite phaseOf_setPhase, Hv, Hp; by rewrite decide_True).
  destruct p; try done.
  - apply (phase_moves w c Announced Joined (EvOpened c)); try done. cbn [step]. unfold opened. rewrite Hp.
    apply Hset. by destruct observed.
  - destruct (w_phase w !! c) as [[t q]|] eqn:E; [|unfold phaseOf in Hp; by rewrite E in Hp].
    assert (q = Announced) as -> by (unfold phaseOf in Hp; rewrite E in Hp; by injection Hp).
    apply (phase_moves w c Serving Announced (EvStart c)); try done. cbn [step]. unfold start. rewrite E.
    apply Hset. by destruct t, pending.
  - apply (phase_moves w c Leaving Serving (EvReadEnd c)); try done. cbn [step]. unfold readEnd. rewrite Hp. by apply Hset.
  - apply (moves w_run w (EvTake c)); [done|]. cbn [step]. unfold take. rewrite Hp, Hs. cbn. by destruct (bool_decide _).
  - pose proof (reach_abandoned w c Hr Hp). congruence.
Qed.

(** A call to [Stop] that has not returned can go on, or something it waits for can. *)
Lemma stop_can_go_on w k p :
  reach w → w_stops w !! k = Some p → (∀ b, p ≠ SReturned b) → ∃ v, progress w v.
Proof.
  intros Hr Hp Hne. destruct (reach_inv w Hr) as [_ Hok]. destruct (so_stops w Hok k p Hp) as [_ Ha].
  assert (∀ q v, q ≠ p → Stop k w = setStop k q v → ∃ v, progress w v) as Hgo.
  { intros q v Hq Heq. apply (stop_moves w k p Hp). exists q. split; [|done]. rewrite Heq. cbn. apply lookup_insert_eq. }
  assert (default SFlag (w_stops w !! k) = p) as Hd by (by rewrite Hp).
  destruct p as [| |[|c cs]| |i| | |b]; try done; unfold Stop in Hgo; rewrite Hd in Hgo.
  - (eapply Hgo; [|reflexivity]; done).
  - (eapply Hgo; [|reflexivity]; done).
  - eapply (Hgo (SSweep cs)); [|reflexivity]. intros [= Heq]. apply (f_equal length) in Heq. cbn in Heq. lia.
  - destruct (w_requests w) eqn:En; [(eapply Hgo; [|reflexivity]; done)|]. apply (moves w_requests w EvEnd); [done|]. cbn. rewrite En. cbn. lia.
  - destruct (bool_decide _); [|(eapply Hgo; [|reflexivity]; done)]. eapply (Hgo (SHook (S i))); [|reflexivity]. intros [= Heq]. lia.
  - (eapply Hgo; [|reflexivity]; done).
  - destruct Ha as [Hsub Hsig]. destruct (w_run w) as [|c e i|c e|c e|c e|e|] eqn:Hrun; [| | | | | |(eapply Hgo; [|reflexivity]; done)].
    + destruct (w_heard w) eqn:Hh.
      * destruct (decide (w_conns w = ∅)) as [He|He].
        { destruct (fo_last _ _ _ _ _ (so_flags w Hok) Hh He) as [H|H]; rewrite Hrun in H; done. }
        destruct (set_choose_L _ He) as [c Hc]. eapply conn_moves; [done|done|exact Hc|by apply Hsub].
      * apply (moves w_heard w EvStopSignal); [done|]. cbn [step]. unfold stopSignal. rewrite Hrun, Hsig, Hh. done.
    + apply (run_moves w _ Hrun). unfold runOn. rewrite Hrun. destruct (bool_decide _); cbn; [|done]. intros [= Heq]. lia.
    + apply (run_moves w _ Hrun). unfold runOn. by rewrite Hrun.
    + apply (run_moves w _ Hrun). unfold runOn. by rewrite Hrun.
    + apply (run_moves w _ Hrun). unfold runOn. rewrite Hrun. by destruct observed.
    + apply (run_moves w _ Hrun). unfold runOn. rewrite Hrun. by destruct (_ && _).
  - by destruct (Hne b).
Qed.

(** C18: [shutdown_terminates]: left to themselves, the goroutines of a server come to rest
    after finitely many steps, in whatever order they run; and when they have, every call
    to [Stop] has returned. *)
Theorem shutdown_terminates w :
  reach w →
  sn progress w ∧
  ∀ w', rtc progress w w' → (∀ v, ¬ progress w' v) → ∀ k p, w_stops w' !! k = Some p → ∃ b, p = SReturned b.
Proof.
  intros Hr. split; [apply progress_wf|]. intros w' Hp Hstuck k p Hk.
  destruct p as [| | | | | | |b]; [..|by exists b];
    (destruct (stop_can_go_on w' k _ (progress_reach w w' Hr Hp) Hk) as [v Hv]; [done|by destruct (Hstuck v)]).
Qed.

(** A WebSocket connection that [run] left behind never gets its unregister through. *)
Lemma left_behind_forever w c evs :
  w_run w = Exited → w_phase w !! c = Some (WebSocket, Leaving) →
  w_phase (runs step w evs) !! c = Some (WebSocket, Leaving).
Proof.
  intros Hx Hp. enough (w_run (runs step w evs) = Exited ∧ w_phase (runs step w evs) !! c = Some (WebSocket, Leaving))
    as [_ ?] by done.
  apply (runs_invariant step (λ v, w_run v = Exited ∧ w_phase v !! c = Some (WebSocket, Leaving))); [done|].
  clear w evs Hx Hp. intros w e [Hx Hp]. destruct (step_shrinks w e) as (_ & _ & _ & Hx'). split; [by apply Hx'|].
  assert (phaseOf w c = Some Leaving) as Hph by (unfold phaseOf; by rewrite Hp).
  assert (∀ c' q v, w_phase v = w_phase w → phaseOf w c' ≠ Some Leaving →
    w_phase (setPhase c' q v) !! c = Some (WebSocket, Leaving)) as Hset.
  { intros c' q v Hv Hne. cbn [setPhase w_phase]. rewrite Hv. rewrite lookup_alter_ne; [done|]. by intros ->. }
  destruct e as [c' t|c' user ok|c'|c'|c'|c'|c'|c'|c'| |c'| | |k|k|c' u]; cbn [step]; try done.
  - unfold accept. destruct (w_phase w !! c') eqn:E; [done|]. assert (c' ≠ c) by (intros ->; by rewrite Hp in E).
    destruct (w_stopping w), t; cbn; by rewrite lookup_insert_ne.
  - unfold runConnectHook. destruct (phaseOf w c') as [[]|] eqn:E; try done.
    destruct (bool_decide _), user, ok; (apply Hset; [done|by rewrite E]).
  - unfold join, registerConn. destruct (phaseOf w c') as [[]|] eqn:E; try done.
    destruct (w_stopping w); (apply Hset; [done|by rewrite E]).
  - unfold opened. destruct (phaseOf w c') as [[]|] eqn:E; try done. destruct observed; (apply Hset; [done|by rewrite E]).
  - unfold start. destruct (w_phase w !! c') as [[t []]|] eqn:E; try done.
    destruct t, pending; (apply Hset; [done|unfold phaseOf; by rewrite E]).
  - unfold readEnd. destruct (phaseOf w c') as [[]|] eqn:E; try done. apply Hset; [done|by rewrite E].
  - unfold giveUp. destruct (w_phase w !! c') as [[[] []]|] eqn:E; try done. rewrite Hx.
    cbn. rewrite lookup_alter_ne; [done|]. intros ->. by rewrite Hp in E.
  - unfold beginRequest. by destruct (phaseOf w c') as [[]|].
  - unfold take. rewrite Hx. by destruct (phaseOf w c') as [[]|].
  - unfold stopSignal. by rewrite Hx.
  - unfold runOn. by rewrite Hx.
  - unfold Stop. by destruct (default _ _) as [| |[]| | | | |]; repeat case_match.
  - unfold expire. by destruct (w_stops w !! k) as [[]|].
  - unfold setUser. destruct (phaseOf w c'); [|done]. by destruct u.
Qed.

(** The condition of [shutdown_clean], for a given run. *)
Fixpoint promptRun (w : world) (evs : list event) : bool :=
  match evs with
  | [] => true
  | e :: evs =>
      match e with EvStop _ => w_stopping w || negb (stale w) | _ => true end && promptRun (step w e) evs
  end.

Lemma promptRun_reach w evs : promptReach w → promptRun w evs = true → promptReach (runs step w evs).
Proof.
  revert w. induction evs as [|e evs IH]; intros w Hr; [done|]. cbn [promptRun runs]. intros [He Hevs]%andb_true_iff.
  apply IH; [|done]. eapply reach_step; [done|]. exists e. split; [done|]. intros k -> Hst. rewrite Hst in He.
  by apply negb_true_iff in He.
Qed.

End Server.

(** ** Concrete runs *)

#[local] Existing Instance SubscriptionSpec.nat_order.

(** One connect, one disconnect and one stop hook; an observer; no authentication. *)
Abbreviation exStep := (step 1 1 1 true false).

Definition exJoin (c : nat) (t : transport) : list event :=
  match t with WebSocket => ServeHTTP c [(true, true)] | ByteStream => ServeStream c [(true, true)] end.

(** [run] takes one connection. *)
Definition exTeardown : list event := replicate 6 EvRun.

Definition exEvents : list event :=
  exJoin 1 WebSocket ++ exJoin 2 ByteStream ++ [EvReadEnd 1; EvTake 1] ++ exTeardown ++
  [EvStop 0; EvAccept 3 WebSocket; EvStop 0; EvStop 0; EvStop 0; EvReadEnd 2; EvStop 0; EvStop 0; EvStop 0; EvStop 0;
   EvStopSignal; EvTake 2] ++ exTeardown ++ [EvStop 0].

Definition exShutdown : world := runs exStep newServer exEvents.

Lemma exShutdown_log :
  w_log exShutdown =
    [ConnectHook 1 0; ConnectionOpened 1; SentConfig 1; SentConfig 2; ConnectHook 2 0; ConnectionOpened 2;
     DisconnectHook 1 0; ConnectionClosed 1; StopHook 0; DisconnectHook 2 0; ConnectionClosed 2] ∧
  w_stops exShutdown !! 0 = Some (SReturned true).
Proof. vm_compute. done. Qed.

Lemma exNew : promptReach 1 1 1 true false newServer.
Proof. by apply reach_init. Qed.

Lemma shutdown_clean_witness :
  w_stops exShutdown !! 0 = Some (SReturned true) ∧
  (∀ c p, phaseOf exShutdown c = Some p →
     (p = Left ∧ callbacks c (w_log exShutdown) = ended 1 true c ∧ c ∈ w_closed exShutdown) ∨
     (registered p = false ∧ p ≠ Left ∧ callbacks c (w_log exShutdown) = [])) ∧
  (∀ c, c ∈ w_users exShutdown → lateUser exShutdown c ∨
     ∃ p, phaseOf exShutdown c = Some p ∧ joining p = true) ∧
  ∀ evs, w_conns (runs exStep exShutdown evs) = ∅.
Proof.
  assert (w_stops exShutdown !! 0 = Some (SReturned true)) as Hs by (vm_compute; reflexivity).
  split; [exact Hs|].
  assert (promptReach 1 1 1 true false exShutdown) as Hr.
  { refine (promptRun_reach 1 1 1 true false newServer exEvents _ _); [exact exNew|vm_compute; reflexivity]. }
  exact (shutdown_clean 1 1 1 true false exShutdown Hr (or_intror (ex_intro _ 0 Hs))).
Defined.

(** [Stop] in the middle: connection 2 still has to leave. *)
Lemma shutdown_terminates_witness :
  let w := runs exStep newServer (firstn 23 exEvents) in
  w_stops w !! 0 = Some (SSweep [2]) ∧ sn (progress 1 1 1 true false) w ∧
  ∀ w', rtc (progress 1 1 1 true false) w w' → (∀ v, ¬ progress 1 1 1 true false w' v) →
    ∀ k p, w_stops w' !! k = Some p → ∃ b, p = SReturned b.
Proof.
  intros w. split; [vm_compute; reflexivity|]. refine (shutdown_terminates 1 1 1 true false w _).
  refine (promptReach_reach 1 1 1 true false w (promptRun_reach 1 1 1 true false newServer (firstn 23 exEvents) exNew _)).
  vm_compute. reflexivity.
Defined.

(** A connection that joins while the last one's disconnect hooks run is left behind when
    the flag is raised before they are done: [run] ends by its old [empty]. [Stop] returns
    nil; the connection's disconnect hook never runs, the observer does not hear that it
    closed, its user entry stays, and its read loop waits for ever. *)
Lemma stop_leaves_connection_behind :
  let w := runs exStep newServer
    (exJoin 1 WebSocket ++ [EvReadEnd 1; EvTake 1] ++ exJoin 2 WebSocket ++ [EvStop 0] ++ exTeardown ++
     replicate 8 (EvStop 0) ++ [EvReadEnd 2]) in
  w_stops w !! 0 = Some (SReturned true) ∧ w_run w = Exited ∧ w_conns w = {[2]} ∧ w_users w = {[2]} ∧
  callbacks 2 (w_log w) = [ConnectionOpened 2] ∧
  ∀ evs, w_phase (runs exStep w evs) !! 2 = Some (WebSocket, Leaving).
Proof.
  intros w. assert (w_run w = Exited) as Hx by (vm_compute; reflexivity).
  split_and!; [vm_compute; reflexivity|exact Hx|vm_compute; reflexivity..|].
  intros evs. apply left_behind_forever; [exact Hx|vm_compute; reflexivity].
Qed.

(** A handler that outlives its connection sets its user after [run] let go of it: the
    connection is in the user index when [Stop] returns nil, and until somebody sets its
    user to none. *)
Lemma late_user_outlives :
  let w := runs exStep newServer
    (exJoin 1 WebSocket ++ [EvSetUser 1 true; EvReadEnd 1; EvTake 1] ++ exTeardown ++
     [EvSetUser 1 true] ++ replicate 7 (EvStop 0) ++ [EvStopSignal; EvStop 0]) in
  w_stops w !! 0 = Some (SReturned true) ∧ w_users w = {[1]} ∧
  w_log w = [ConnectHook 1 0; ConnectionOpened 1; SentConfig 1; SetUser 1 false; DisconnectHook 1 0;
    ConnectionClosed 1; SetUser 1 true; StopHook 0].
Proof. vm_compute. done. Qed.

(** A frame that a closed connection still had buffered starts a request after [Stop] has
    waited for the requests: it returns while the request runs. *)
Lemma stop_misses_late_request :
  let w := runs exStep newServer
    (exJoin 1 WebSocket ++ replicate 5 (EvStop 0) ++ [EvBegin 1] ++ replicate 3 (EvStop 0) ++
     [EvReadEnd 1; EvTake 1] ++ exTeardown ++ [EvStop 0]) in
  w_stops w !! 0 = Some (SReturned true) ∧ w_requests w = 1.
Proof. vm_compute. done. Qed.

End Lifecycle.
