(* ===== verification/Pipeline.v ===== *)
(** * Pipeline: contexts, middleware and the unary execution seam
      (context.go, principal.go, address.go, subscription.go, server.go)

    User code (handlers, middleware, principal providers) is effectful: it runs in
    the state monad [M] over what one execution can touch, and it may panic. The
    context a Go [context.Context] carries is the list of the values installed in it,
    the innermost first. [invoke] is [Server.invoke], with its recover. *)

From S2P Require Import Prelude Protocol Transform Registry Streaming Subscriptions.
From stdpp Require Import prelude gmap strings list fin_maps fin_sets.

Module Pipeline.
Import Protocol Registry.

(** ** Executions *)

(** The body of an HTTP response. *)
Inductive httpBody :=
  | NoBody | BodyText (text : string) | BodyJSON (data : string) | BodyError (m : ErrorMessage).

(** What an execution does that others see: frames handed to the connection (with
    whether it was still open), HTTP status lines, alone or with the body that follows, refresh queues flushed, the observer told,
    and the bookkeeping of the dispatch goroutine. *)
Inductive ev :=
  | Handed (delivered : bool) (f : frame)
  | WroteHeader (status : Z)
  | Wrote (status : Z) (body : httpBody)
  | Flushed (keys : list string)
  | Observed (method : string) (subscribe : bool) (code : Z)
  | ObservedSubscription (method id : string)
  | LoggedPanic (method : string)
  | LoggedEncode (method : string)
  | HooksRan (calls : list (option goerr * nat))
  | Unregistered (id : string)
  | RequestDone.

(** [st_cancel] is the cause the request's context was canceled with; the queues, the
    collectors and the stream hooks are the objects contexts point to. *)
Record St := State {
  st_cancel : option CancelReason;
  st_closed : bool;
  st_next : nat;
  st_queues : gmap nat (list string);
  st_keys : gmap nat (gset string);
  st_hooks : gmap nat nat;
  st_subs : SubscriptionManager.subscriptionManager;
  st_log : list ev;
}.

(** A panic, with whether its value is [http.ErrAbortHandler]. *)
Inductive out (A : Type) := Ret (a : A) | Panic (abort : bool).
Arguments Ret {A} a.
Arguments Panic {A} abort.

Definition M (A : Type) : Type := St → St * out A.

#[export] Instance M_ret : MRet M := λ A a s, (s, Ret a).
#[export] Instance M_bind : MBind M := λ A B f m s,
  match m s with (s', Ret a) => f a s' | (s', Panic b) => (s', Panic b) end.

(** [defer func() { if r := recover(); r != nil { ... } }()]. *)
Definition recover {A} (handle : bool → M A) (m : M A) : M A := λ s,
  match m s with (s', Ret a) => (s', Ret a) | (s', Panic b) => handle b s' end.

(** [defer fin()]: it runs however the body ended. *)
Definition finally {A} (fin : M unit) (m : M A) : M A := λ s,
  let '(s', o) := m s in
  match fin s' with (s'', Ret _) => (s'', o) | (s'', Panic b) => (s'', Panic b) end.

Definition reads {A} (f : St → A) : M A := λ s, (s, Ret (f s)).
Definition modify (f : St → St) : M unit := λ s, (f s, Ret ()).
Definition throw {A} (abort : bool) : M A := λ s, (s, Panic abort).

Definition withLog (l : list ev) (s : St) : St :=
  State (st_cancel s) (st_closed s) (st_next s) (st_queues s) (st_keys s) (st_hooks s)
    (st_subs s) l.

Definition emit (e : ev) : M unit := modify (λ s, withLog (st_log s ++ [e]) s).

(** ** Contexts *)

Record Request := Req { rq_id : string; rq_method : string; rq_params : string }.

Section Code.
  Context {P V : Type}.

(** The values installed with [context.WithValue], by key. *)
Inductive ctxVal :=
  | VProgress (id : string)
  | VConnection (c : nat)
  | VHandlerInfo (i : HandlerInfo)
  | VRequest (r : Request)
  | VTriggerCollector (ref : nat)
  | VRefreshQueue (ref : nat)
  | VStreamHooks (ref : nat)
  | VPrincipal (p : P)
  | VUserID (u : string).

Definition ctx : Type := list ctxVal.

Fixpoint value {A} (get : ctxVal → option A) (c : ctx) : option A :=
  match c with
  | [] => None
  | v :: c => match get v with Some a => Some a | None => value get c end
  end.

Definition Connection : ctx → option nat :=
  value (λ v, match v with VConnection c => Some c | _ => None end).
Definition HandlerInfoFromContext : ctx → option HandlerInfo :=
  value (λ v, match v with VHandlerInfo i => Some i | _ => None end).
Definition RequestFromContext : ctx → option Request :=
  value (λ v, match v with VRequest r => Some r | _ => None end).
Definition refreshQueueOf : ctx → option nat :=
  value (λ v, match v with VRefreshQueue q => Some q | _ => None end).
Definition triggerCollectorOf : ctx → option nat :=
  value (λ v, match v with VTriggerCollector q => Some q | _ => None end).
Definition streamHooksOf : ctx → option nat :=
  value (λ v, match v with VStreamHooks q => Some q | _ => None end).
Definition PrincipalFrom : ctx → option P :=
  value (λ v, match v with VPrincipal p => Some p | _ => None end).
Definition userIDValue : ctx → option string :=
  value (λ v, match v with VUserID u => Some u | _ => None end).

Definition principalResolved (c : ctx) : bool := bool_decide (is_Some (PrincipalFrom c)).
Definition WithPrincipal (c : ctx) (p : P) : ctx := VPrincipal p :: c.
Definition WithUserID (c : ctx) (u : string) : ctx := VUserID u :: c.

(** [UserID(ctx)]; [connUser] is [Conn.UserID]. *)
Definition ctxUserID (connUser : nat → string) (c : ctx) : string :=
  match userIDValue c with
  | Some u => if bool_decide (u ≠ "") then u
              else match Connection c with Some k => connUser k | None => "" end
  | None => match Connection c with Some k => connUser k | None => "" end
  end.

(** *** The objects a context points to *)

Definition newQueue : M nat := λ s,
  (State (st_cancel s) (st_closed s) (S (st_next s)) (<[st_next s := []]> (st_queues s))
     (st_keys s) (st_hooks s) (st_subs s) (st_log s), Ret (st_next s)).

Definition newCollector : M nat := λ s,
  (State (st_cancel s) (st_closed s) (S (st_next s)) (st_queues s)
     (<[st_next s := ∅]> (st_keys s)) (st_hooks s) (st_subs s) (st_log s), Ret (st_next s)).

(** [withStreamCompleteHooks]. *)
Definition newHooks : M nat := λ s,
  (State (st_cancel s) (st_closed s) (S (st_next s)) (st_queues s) (st_keys s)
     (<[st_next s := 0]> (st_hooks s)) (st_subs s) (st_log s), Ret (st_next s)).

Definition queueOf (s : St) (q : nat) : list string := default [] (st_queues s !! q).
Definition keysOf (s : St) (t : nat) : gset string := default ∅ (st_keys s !! t).

Definition setQueue (q : nat) (l : list string) (s : St) : St :=
  State (st_cancel s) (st_closed s) (st_next s) (<[q := l]> (st_queues s)) (st_keys s)
    (st_hooks s) (st_subs s) (st_log s).

(** [processRefreshQueue]: nothing happens for an empty queue. *)
Definition processRefreshQueue (q : nat) : M unit := λ s,
  match queueOf s q with
  | [] => (s, Ret ())
  | keys => emit (Flushed keys) (setQueue q [] s)
  end.

(** What a handler calls: [TriggerRefresh] with an already composed key, and
    [OnStreamComplete]. *)
Definition TriggerRefreshCtx (c : ctx) (key : string) : M unit := λ s,
  match refreshQueueOf c with
  | None => (s, Ret ())
  | Some q => (setQueue q (queueOf s q ++ [key]) s, Ret ())
  end.

Definition OnStreamComplete (c : ctx) : M unit := λ s,
  match streamHooksOf c with
  | None => (s, Ret ())
  | Some h => (State (st_cancel s) (st_closed s) (st_next s) (st_queues s) (st_keys s)
      (<[h := S (default 0 (st_hooks s !! h))]> (st_hooks s)) (st_subs s) (st_log s), Ret ())
  end.

(** ** Handlers and middleware *)

(** A handler's result: a JSON value, a [Blob], a [*Blob], or the iterator of a
    streaming handler, which stands for what its iteration will come to. *)
Inductive result :=
  | RJSON (v : V)
  | RBlob (contentType data : string)
  | RBlobPtr (b : option (string * string))
  | RSeq (isNil : bool) (evs : list Stream.event) (panics : bool).

Definition Handler : Type := ctx → Request → M (res goerr result).
Definition Middleware : Type := Handler → Handler.

Context (reg : @Registry Middleware) (serverMW : list Middleware).
(** [info.Call] and [info.CallStream]: they end in the user's method. *)
Context (Call CallStream : HandlerInfo → ctx → string → M (res goerr result)).
(** [Conn.principalProvider]. *)
Context (provider : nat → option (ctx → M (res goerr P))).

Definition final (info : HandlerInfo) : Handler := λ c req,
  if bool_decide (hi_kind info = HandlerKindStream) || bool_decide (hi_kind info = HandlerKindStream2)
  then CallStream info c (rq_params req)
  else Call info c (rq_params req).

(** [for i := len(mws) - 1; i >= 0; i-- { handler = mws[i](handler) }]. *)
Fixpoint wrapDown (mws : list Middleware) (i : nat) (handler : Handler) : Handler :=
  match i with
  | 0 => handler
  | S i => wrapDown mws i (match mws !! i with Some mw => mw handler | None => handler end)
  end.

Definition buildHandler (info : HandlerInfo) : Handler :=
  let handlerMW := GetMiddleware reg (hi_structName info +:+ "." +:+ hi_name info) in
  wrapDown serverMW (length serverMW)
    (wrapDown handlerMW (length handlerMW) (final info)).

(** [resolvePrincipal]: the context to go on with and the error. *)
Definition resolvePrincipal (conn : nat) (c : ctx) : M (ctx * option goerr) :=
  match provider conn with
  | None => mret (c, None)
  | Some p =>
      r ← p c;
      match r with
      | Err e => mret (c, Some e)
      | Ok v => mret (WithPrincipal c v, None)
      end
  end.

(** The principal step of [invoke]. *)
Definition invokePrincipal (c : ctx) : M (ctx * option goerr) :=
  if principalResolved c then mret (c, None)
  else match Connection c with
       | Some conn => resolvePrincipal conn c
       | None => mret (c, None)
       end.

(** The refresh queue: the caller's, or one [invoke] owns. *)
Definition invokeQueue (c : ctx) : M (ctx * nat * bool) :=
  match refreshQueueOf c with
  | Some q => mret (c, q, false)
  | None => q ← newQueue; mret (VRefreshQueue q :: c, q, true)
  end.

(** The recover of [invoke]. *)
Definition invokeRecover (method : string) (abort : bool) : M (res goerr result) :=
  if abort then throw true
  else (_ ← emit (LoggedPanic method); mret (Err panicError)).

Definition invoke (c : ctx) (info : HandlerInfo) (req : Request) : M (res goerr result) :=
  recover (invokeRecover (rq_method req))
    (r ← invokePrincipal c;
     let '(c, perr) := r in
     match perr with
     | Some e => mret (Err e)
     | None =>
         r ← invokeQueue (VRequest req :: VHandlerInfo info :: c);
         let '(c, q, owned) := r in
         r ← buildHandler info c req;
         match r with
         | Err e => mret (Err e)
         | Ok v => _ ← (if owned : bool then processRefreshQueue q else mret ()); mret (Ok v)
         end
     end).

(** [Server.Invoke]. *)
Definition Invoke (c : ctx) (method params : string) : M (res goerr result) :=
  match lookupMethod reg method with
  | None => mret (Err (NewError 0 CodeMethodNotFound ("method not found: " +:+ method)))
  | Some info =>
      if bool_decide (hi_kind info = HandlerKindUnary)
      then invoke c info (Req "" method params)
      else mret (Err (NewError 0 CodeInvalidRequest
                       ("streaming handlers cannot be invoked: " +:+ method)))
  end.

(** ** What a computation adds to the log *)

(** Two states that differ by events satisfying [E]. *)
Definition ext (E : ev → Prop) (s s' : St) : Prop :=
  ∃ l, st_log s' = st_log s ++ l ∧ Forall E l.

(** A computation that only adds such events. *)
Definition quiet (E : ev → Prop) {A} (m : M A) : Prop := ∀ s, ext E s (m s).1.

Lemma run_bind {A B} (m : M A) (k : A → M B) s s1 a :
  m s = (s1, Ret a) → (m ≫= k) s = k a s1.
Proof. intros H. unfold mbind, M_bind. by rewrite H. Qed.

Section Quiet.
  Context (E : ev → Prop).

Lemma ext_refl s : ext E s s.
Proof. exists []. by rewrite app_nil_r. Qed.

Lemma ext_log s s' : st_log s' = st_log s → ext E s s'.
Proof. intros H. exists []. by rewrite app_nil_r. Qed.

Lemma ext_trans s1 s2 s3 : ext E s1 s2 → ext E s2 s3 → ext E s1 s3.
Proof.
  intros (l1 & H1 & F1) (l2 & H2 & F2). exists (l1 ++ l2).
  rewrite H2, H1, app_assoc. split; [done|]. by apply Forall_app.
Qed.

Lemma quiet_ret {A} (a : A) : quiet E (mret a).
Proof. intros s. apply ext_refl. Qed.

Lemma quiet_throw {A} b : quiet E (throw (A := A) b).
Proof. intros s. apply ext_refl. Qed.

Lemma quiet_reads {A} (f : St → A) : quiet E (reads f).
Proof. intros s. apply ext_refl. Qed.

Lemma quiet_modify f : (∀ s, st_log (f s) = st_log s) → quiet E (modify f).
Proof. intros H s. apply ext_log, H. Qed.

Lemma quiet_emit e : E e → quiet E (emit e).
Proof. intros H s. exists [e]. split; [done|]. by constructor. Qed.

Lemma quiet_bind {A B} (m : M A) (k : A → M B) :
  quiet E m → (∀ a, quiet E (k a)) → quiet E (m ≫= k).
Proof.
  intros Hm Hk s. specialize (Hm s). unfold mbind, M_bind.
  destruct (m s) as [s1 [a|b]]; simpl in *; [|done]. eapply ext_trans; [done|apply Hk].
Qed.

Lemma quiet_recover {A} (h : bool → M A) m :
  quiet E m → (∀ b, quiet E (h b)) → quiet E (recover h m).
Proof.
  intros Hm Hh s. specialize (Hm s). unfold recover.
  destruct (m s) as [s1 [a|b]]; simpl in *; [done|]. eapply ext_trans; [done|apply Hh].
Qed.

Lemma quiet_newQueue : quiet E newQueue.
Proof. intros s. by apply ext_log. Qed.

Lemma quiet_newCollector : quiet E newCollector.
Proof. intros s. by apply ext_log. Qed.

Lemma quiet_newHooks : quiet E newHooks.
Proof. intros s. by apply ext_log. Qed.

End Quiet.

Lemma quiet_mono (E E' : ev → Prop) {A} (m : M A) :
  (∀ e, E e → E' e) → quiet E m → quiet E' m.
Proof. intros HE Hm s. destruct (Hm s) as (l & ? & ?). exists l. split; [done|]. by eapply Forall_impl. Qed.

#[local] Hint Resolve quiet_ret quiet_throw quiet_reads quiet_emit quiet_newQueue quiet_newCollector
  quiet_newHooks ext_refl : aprot.

Lemma quiet_wrap (E : ev → Prop) (mws : list Middleware) (h : Handler) :
  Forall (λ mw : Middleware, ∀ h, (∀ c r, quiet E (h c r)) → ∀ c r, quiet E (mw h c r)) mws →
  (∀ c r, quiet E (h c r)) →
  ∀ c r, quiet E (foldr (λ mw h, mw h) h mws c r).
Proof. intros Hm Hh. induction Hm as [|mw mws Hmw _ IH]; simpl; [done|]. by apply Hmw. Qed.

(** ** Facts *)

Lemma wrapDown_app mws extra i h :
  i ≤ length mws → wrapDown (mws ++ extra) i h = wrapDown mws i h.
Proof.
  revert h. induction i as [|i IH]; intros h Hi; simpl; [done|].
  rewrite (lookup_app_l _ _ _ Hi). apply IH. by apply Nat.lt_le_incl.
Qed.

(** The descending loop wraps the first middleware outermost. *)
Lemma wrapDown_foldr mws h : wrapDown mws (length mws) h = foldr (λ mw h, mw h) h mws.
Proof.
  revert h. induction mws as [|mw mws IH] using rev_ind; intros h; [done|].
  rewrite length_app, Nat.add_1_r. simpl.
  rewrite (lookup_app_r _ _ _ (Nat.le_refl _)), Nat.sub_diag. simpl.
  by rewrite (wrapDown_app _ _ _ _ (Nat.le_refl _)), IH, foldr_app.
Qed.

Lemma buildHandler_foldr info :
  buildHandler info =
  foldr (λ mw h, mw h) (final info)
    (serverMW ++ GetMiddleware reg (hi_structName info +:+ "." +:+ hi_name info)).
Proof. unfold buildHandler. by rewrite !wrapDown_foldr, foldr_app. Qed.

Lemma resolvePrincipal_ctx conn c s s1 c1 :
  resolvePrincipal conn c s = (s1, Ret (c1, None)) →
  c1 = c ∨ ∃ v, c1 = WithPrincipal c v.
Proof.
  unfold resolvePrincipal. destruct (provider conn) as [p|]; [|intros [= _ <-]; by left].
  unfold mbind, M_bind. destruct (p c s) as [s2 [[v|e]|b]]; intros [= _ <-]; right; eauto.
Qed.

Lemma invokePrincipal_ctx c s s1 c1 :
  invokePrincipal c s = (s1, Ret (c1, None)) →
  Connection c1 = Connection c ∧ refreshQueueOf c1 = refreshQueueOf c ∧
  (principalResolved c = true → c1 = c).
Proof.
  unfold invokePrincipal. destruct (principalResolved c); [by intros [= _ <-]|].
  destruct (Connection c) as [conn|] eqn:E; [|intros [= _ <-]; by rewrite E].
  intros H. by destruct (resolvePrincipal_ctx _ _ _ _ _ H) as [->|[v ->]].
Qed.

(** What the flush at the end of [invoke] adds to the log. *)
Definition flushLog (keys : list string) : list ev :=
  match keys with [] => [] | _ => [Flushed keys] end.

Lemma processRefreshQueue_run q s :
  ∃ s', processRefreshQueue q s = (s', Ret ()) ∧ st_log s' = st_log s ++ flushLog (queueOf s q) ∧
    queueOf s' q = [].
Proof.
  unfold processRefreshQueue. destruct (queueOf s q) as [|k ks] eqn:E; simpl.
  - exists s. by rewrite app_nil_r.
  - eexists. split_and!; [done|done|]. unfold queueOf. simpl. by rewrite lookup_insert_eq.
Qed.

(** How [invoke] ends, given how the chain it ran ended: in [s3] with [o3]. *)
Definition invokeEnd (method : string) (owned : bool) (q : nat) (s3 : St)
    (o3 : out (res goerr result)) (s' : St) (o : out (res goerr result)) : Prop :=
  match o3 with
  | Ret (Ok v) => o = Ret (Ok v) ∧
      (if owned then st_log s' = st_log s3 ++ flushLog (queueOf s3 q) ∧ queueOf s' q = []
       else s' = s3)
  | Ret (Err e) => o = Ret (Err e) ∧ s' = s3
  | Panic true => o = Panic true ∧ s' = s3
  | Panic false => o = Ret (Err panicError) ∧ st_log s' = st_log s3 ++ [LoggedPanic method]
  end.

(** C9: every transport executes a unary method alike. [invoke] runs the server
    middleware outermost, then the group's, then the method, in a context that names the
    handler and the request and has a refresh queue. A principal attached upstream wins
    over the connection's provider; a provider error ends the call before any middleware.
    Triggers are flushed by [invoke] exactly when the handler succeeded and the caller
    brought no queue of its own; after an error or a panic nothing is flushed. A panic
    never escapes as such: it becomes the generic internal error, except for
    [http.ErrAbortHandler], which passes through. *)
Theorem invoke_contract c info req s s' o :
  invoke c info req s = (s', o) →
  o ≠ Panic false ∧
  ∃ s1 rp, invokePrincipal c s = (s1, rp) ∧
  match rp with
  | Panic true => o = Panic true ∧ s' = s1
  | Panic false => o = Ret (Err panicError) ∧ st_log s' = st_log s1 ++ [LoggedPanic (rq_method req)]
  | Ret (_, Some e) => o = Ret (Err e) ∧ s' = s1
  | Ret (cp, None) => ∃ c1 q s2 s3 o3,
      foldr (λ mw h, mw h) (final info)
        (serverMW ++ GetMiddleware reg (hi_structName info +:+ "." +:+ hi_name info)) c1 req s2
      = (s3, o3) ∧
      HandlerInfoFromContext c1 = Some info ∧ RequestFromContext c1 = Some req ∧
      Connection c1 = Connection c ∧ PrincipalFrom c1 = PrincipalFrom cp ∧
      (principalResolved c = true → PrincipalFrom c1 = PrincipalFrom c) ∧
      refreshQueueOf c1 = Some q ∧ st_log s2 = st_log s1 ∧
      (refreshQueueOf c = None → queueOf s2 q = []) ∧
      invokeEnd (rq_method req) (bool_decide (refreshQueueOf c = None)) q s3 o3 s' o
  end.
Proof.
  unfold invoke, recover. set (b := mbind _ _). destruct (b s) as [s0 o0] eqn:Eb. intros Hi.
  split.
  { destruct o0 as [r|[]]; injection Hi as _ <-; discriminate. }
  unfold b, mbind, M_bind in Eb. destruct (invokePrincipal c s) as [s1 rp] eqn:Ep.
  exists s1, rp. split; [done|].
  destruct rp as [[cp [e|]]|ab];
    [injection Eb as <- <-; by injection Hi as <- <-| |
     injection Eb as <- <-; destruct ab; by injection Hi as <- <-].
  destruct (invokePrincipal_ctx _ _ _ _ Ep) as (Hc & Hq & Hres).
  rewrite <- buildHandler_foldr.
  set (c0 := VRequest req :: VHandlerInfo info :: cp) in *.
  destruct (invokeQueue c0 s1) as [s2 oq] eqn:Eq.
  assert (∃ c1 q, oq = Ret (c1, q, bool_decide (refreshQueueOf c = None)) ∧
    refreshQueueOf c1 = Some q ∧ st_log s2 = st_log s1 ∧
    (refreshQueueOf c = None → queueOf s2 q = []) ∧
    HandlerInfoFromContext c1 = Some info ∧ RequestFromContext c1 = Some req ∧
    Connection c1 = Connection cp ∧ PrincipalFrom c1 = PrincipalFrom cp)
    as (c1 & q & -> & Hq1 & Hl & Hempty & Hinfo & Hreq & Hconn & Hpr).
  { unfold invokeQueue in Eq. change (refreshQueueOf c0) with (refreshQueueOf cp) in Eq.
    rewrite Hq in Eq. destruct (refreshQueueOf c) as [q|]; injection Eq as <- <-;
      do 2 eexists; split_and!; try done.
    intros _. unfold queueOf. simpl. by rewrite lookup_insert_eq. }
  cbn in Eb. unfold mbind, M_bind in Eb.
  destruct (buildHandler info c1 req s2) as [s3 o3] eqn:Eh.
  exists c1, q, s2, s3, o3. split_and!; try done.
  { by rewrite Hconn. } { intros HP. by rewrite Hpr, Hres. }
  destruct o3 as [[v|e]|ab];
    [|injection Eb as <- <-; by injection Hi as <- <-|
     injection Eb as <- <-; destruct ab; by injection Hi as <- <-].
  simpl. case_bool_decide.
  - destruct (processRefreshQueue_run q s3) as (s4 & Ef & Hlog & Hnil). rewrite Ef in Eb.
    injection Eb as <- <-. by injection Hi as <- <-.
  - injection Eb as <- <-. by injection Hi as <- <-.
Qed.

End Code.

(** *** Concrete run: a handler that triggers a key and succeeds *)

Definition exInfo : HandlerInfo :=
  Info "Add" [] (Transform.Transform.TStruct "R") "Users" false HandlerKindUnary None.

Definition exState : St := State None false 0 ∅ ∅ ∅ SubscriptionManager.newSubscriptionManager [].

Definition exCall (_ : HandlerInfo) (c : @ctx string) (_ : string)
    : M (res goerr (@result nat)) :=
  _ ← TriggerRefreshCtx c "users"; mret (Ok (RJSON 7)).

Definition exInvoke : St * out (res goerr (@result nat)) :=
  invoke (P := string) NewRegistry [] exCall exCall (λ _, None) [] exInfo (Req "1" "Users.Add" "[]")
    exState.

Lemma invoke_contract_witness : st_log exInvoke.1 = [Flushed ["users"]] ∧ exInvoke.2 ≠ Panic false.
Proof.
  split; [vm_compute; reflexivity|].
  exact (proj1 (invoke_contract (P := string) NewRegistry [] exCall exCall (λ _, None) [] exInfo
    (Req "1" "Users.Add" "[]") exState exInvoke.1 exInvoke.2 (surjective_pairing _))).
Defined.

End Pipeline.
