(* ===== verification/Dispatch.v ===== *)
(** * Dispatch: from a frame to its one reply (connection.go)

    [Module Dispatch] models the goroutines that run a request, a subscribe or a
    refresh, over the monad of Pipeline.v: principal, pipeline, error mapping, stream
    iteration, response, flush, observer report and cleanup, with their recovers.
    Another goroutine may cancel the request's context or close the connection between
    any two steps: [env n] is what happens just before the step numbered [n]. The
    in-flight map itself is Requests.v's. [Module Gate] is the authentication gate of
    the read loop. *)

From S2P Require Import Prelude Protocol Transform Registry Streaming Subscriptions Refresh.
From S2P Require Import Pipeline.
From stdpp Require Import prelude gmap strings list fin_maps fin_sets.

Module Dispatch.
Import Protocol Registry Pipeline SubscriptionManager.

(** What marshaling a message comes to: the JSON library's verdict, or a panic of a
    user's marshaler, with whether its value is [http.ErrAbortHandler]. *)
Inductive encoding := EncOk (data : string) | EncErr (text : string) | EncPanic (abort : bool).

Section Code.
  Context {P V : Type}.
  Abbreviation ctx := (@ctx P).
  Abbreviation result := (@result V).
  Abbreviation Middleware := (@Middleware P V).
  Context (reg : @Registry Middleware) (serverMW : list Middleware).
  Context (Call CallStream : HandlerInfo → ctx → string → M (res goerr result)).
  Context (provider : nat → option (ctx → M (res goerr P))).
  (** The connection, its transport and the server's options. *)
  Context (conn : nat) (supportsBinary observer : bool) (maxSubscriptions : Z).
  Context (chunking : option Chunker.StreamChunking) (send : nat → option goerr).
  (** Whether the [Data] of an error can be marshaled, and whether its marshaler panics. *)
  Context (marshalable panicking : string → bool).
  Context (encode : result → encoding) (encodeFallback : string → string → encoding).
  Context (encodeBinary : string → string → string → encoding).
  Context (env : nat → St → St).

Abbreviation mappings := (r_errorMappings reg).

(** ** Reading the context and sending *)

Definition interfere (n : nat) : M unit := modify (env n).

(** [ctx.Err() != nil]: the context has no deadline, so this is also
    [ctx.Err() == context.Canceled]. *)
Definition ctxErr (n : nat) : M bool :=
  _ ← interfere n; reads (λ s, bool_decide (is_Some (st_cancel s))).

(** [sendRaw]: a closed connection drops the frame. *)
Definition sendRaw (n : nat) (f : frame) : M unit :=
  _ ← interfere n; closed ← reads st_closed; emit (Handed (negb closed) f).

Definition sendErr (n : nat) (id : string) (code : Z) (message : string) : M unit :=
  sendRaw n (Protocol.sendError id code message).

(** The marshaler of the error's [Data] panics. *)
Definition errorPanics (e : goerr) : bool :=
  match e with EProto _ _ _ _ (Some d) => panicking d | _ => false end.

Definition sendErrFor (n : nat) (id : string) (e : goerr) : M Z :=
  if errorPanics e then throw false else
  let '(f, code) := sendErrorFor mappings marshalable id e in
  _ ← sendRaw n f; mret code.

Definition asBlob (r : result) : option (string * string) :=
  match r with
  | RBlob ct data => Some (ct, data)
  | RBlobPtr (Some (ct, data)) => Some (ct, data)
  | _ => None
  end.

(** The common tail of the three encoders. *)
Definition sendEncoded (n : nat) (id method what : string) (wrap : string → frame)
    (e : encoding) : M unit :=
  match e with
  | EncOk data => sendRaw n (wrap data)
  | EncErr text =>
      _ ← emit (LoggedEncode method);
      sendErr n id CodeInternalError ("failed to encode " +:+ what +:+ ": " +:+ text)
  | EncPanic abort => throw abort
  end.

Definition sendBlobResponse (n : nat) (id method ct data : string) : M unit :=
  if supportsBinary
  then sendEncoded n id method "binary response" (λ _, FBinary id ct data) (encodeBinary id ct data)
  else sendEncoded n id method "response" (FResponse id) (encodeFallback ct data).

Definition sendResponse (n : nat) (id method : string) (r : result) : M unit :=
  match asBlob r with
  | Some (ct, data) => sendBlobResponse n id method ct data
  | None => sendEncoded n id method "response" (FResponse id) (encode r)
  end.

(** ** Running a request *)

(** A provider's error: a cancel meanwhile is reported as one. *)
Definition rejectPrincipal (n : nat) (id : string) (e : goerr) : M Z :=
  canceled ← ctxErr n;
  if canceled : bool
  then _ ← sendErr (S n) id CodeCanceled "request canceled"; mret CodeCanceled
  else sendErrFor (S n) id e.

(** Frames the stream loop hands over, the end frame last. *)
Fixpoint sendAll (n : nat) (fs : list frame) : M unit :=
  match fs with
  | [] => mret ()
  | f :: fs => _ ← sendRaw n f; sendAll n fs
  end.

(** What iterating the handler's iterator comes to, and whether it was nil. *)
Definition iterated (id : string) (hooks : option nat) (seq : result) (s : St)
    : bool * Stream.streamResult :=
  let nHooks := match hooks with Some h => default 0 (st_hooks s !! h) | None => 0 end in
  let '(isNil, evs, panics) :=
    match seq with RSeq b evs p => (b, evs, p) | _ => (true, [], false) end in
  (isNil, Stream.streamIterator (default (Chunker.Chunking 0 0 0) chunking) send mappings marshalable
            id (bool_decide (is_Some chunking)) isNil evs panics nHooks).

(** The marshaler of the [Data] of the error that ended a stream panics. *)
Definition endPanics (r : Stream.streamResult) : bool :=
  match Stream.sr_err r with Some e => errorPanics e | None => false end.

Definition runStream (n : nat) (id : string) (hooks : option nat) (seq : result) : M Z :=
  it ← reads (iterated id hooks seq);
  let '(isNil, r) := it in
  let endFrame := match last (Stream.sr_frames r) with Some f => [f] | None => [] end in
  _ ← sendAll n (removelast (Stream.sr_frames r));
  _ ← (if isNil : bool
       then _ ← sendAll n endFrame; emit (HooksRan (Stream.sr_hooks r))
       else _ ← emit (HooksRan (Stream.sr_hooks r));
            if endPanics r then throw false else sendAll n endFrame);
  mret (errorCode mappings (Stream.sr_err r)).

Definition isStream (info : HandlerInfo) : bool := negb (bool_decide (hi_kind info = HandlerKindUnary)).

(** What running the user's code comes to: the provider's error, or the refresh queue, the
    stream hooks (of a request) or the collector (of a subscribe), and the chain's result. *)
Definition handled : Type := goerr + nat * option nat * res goerr result.

(** The first part of [handleRequest] under its recover: it ends when the chain returns. *)
Definition requestHandler (id method params : string) (info : HandlerInfo) : M handled :=
  let c0 : ctx := [VConnection conn; VProgress id] in
  r ← resolvePrincipal provider conn c0;
  let '(c, authErr) := r in
  match authErr with
  | Some e => mret (inl e)
  | None =>
      let req := Req id method params in
      q ← newQueue;
      let c : ctx := VRefreshQueue q :: VRequest req :: VHandlerInfo info :: c in
      hk ← (if isStream info then h ← newHooks; mret (Some h) else mret None);
      let c : ctx := match hk with Some h => VStreamHooks h :: c | None => c end in
      r ← (if isStream info then buildHandler reg serverMW Call CallStream info c req
           else invoke reg serverMW Call CallStream provider c info req);
      mret (inr (q, hk, r))
  end.

(** The rest: from the outcome to the reply. *)
Definition requestReply (id method : string) (info : HandlerInfo) (h : handled) : M Z :=
  match h with
  | inl e => rejectPrincipal 0 id e
  | inr (q, hk, r) =>
      canceled ← ctxErr 2;
      if canceled : bool
      then _ ← sendErr 3 id CodeCanceled "request canceled"; mret CodeCanceled
      else
        match r with
        | Err e => sendErrFor 4 id e
        | Ok v =>
            if isStream info
            then code ← runStream 5 id hk v; _ ← processRefreshQueue q; mret code
            else _ ← sendResponse 6 id method v; _ ← processRefreshQueue q; mret 0%Z
        end
  end.

(** The body of [handleRequest] under its recover; it returns [reqCode]. *)
Definition requestBody (id method params : string) (info : HandlerInfo) : M Z :=
  h ← requestHandler id method params info; requestReply id method info h.

(** The backstop of the dispatch goroutines: no panic is passed on. *)
Definition backstop (id method : string) (_ : bool) : M Z :=
  _ ← emit (LoggedPanic method);
  _ ← sendErr 7 id CodeInternalError "handler panicked";
  mret CodeInternalError.

(** The deferred calls: the observer, the in-flight entry, the wait group. *)
Definition finishDispatch (id method : string) (subscribe : bool) (code : Z) : M unit :=
  _ ← (if observer then emit (Observed method subscribe code) else mret ());
  _ ← emit (Unregistered id);
  emit RequestDone.

Definition handleRequest (id method params : string) (info : HandlerInfo) : M unit :=
  code ← recover (backstop id method) (requestBody id method params info);
  finishDispatch id method false code.

(** ** Running a subscribe *)

(** The keys of the collector [t]. *)
Definition collectorKeys (s : St) (t : option nat) : gset string :=
  match t with Some t => keysOf s t | None => ∅ end.

Definition withSubs (sm : subscriptionManager) (s : St) : St :=
  State (st_cancel s) (st_closed s) (st_next s) (st_queues s) (st_keys s) (st_hooks s) sm (st_log s).

(** The commit of Refresh.v on the state's index: sections [n], [n + 1] and [n + 2]. *)
Definition commit (n : nat) (id method params : string) (patch : bool) (keys : gset string)
    : M Refresh.committed := λ s,
  let '(s, out) := Refresh.commitSubscribe st_subs withSubs
      (λ s, ConnView (st_closed s) (Some maxSubscriptions))
      (λ s, fresh (dom (sm_heap (st_subs s)))) (λ k, env (n + k)) s
      (Z.of_nat conn) id method keys params patch in
  (s, Ret out).

Definition subscribeHandler (id method params : string) (info : HandlerInfo) : M handled :=
  let c0 : ctx := [VConnection conn; VProgress id] in
  r ← resolvePrincipal provider conn c0;
  let '(c, authErr) := r in
  match authErr with
  | Some e => mret (inl e)
  | None =>
      let req := Req id method params in
      t ← newCollector;
      q ← newQueue;
      let c : ctx := VRefreshQueue q :: VTriggerCollector t :: VRequest req ::
                     VHandlerInfo info :: c in
      r ← invoke reg serverMW Call CallStream provider c info req;
      mret (inr (q, Some t, r))
  end.

Definition subscribeReply (id method params : string) (patch : bool) (h : handled) : M Z :=
  match h with
  | inl e => rejectPrincipal 0 id e
  | inr (q, t, r) =>
      canceled ← ctxErr 2;
      if canceled : bool
      then _ ← sendErr 3 id CodeCanceled "request canceled"; mret CodeCanceled
      else
        match r with
        | Err e => sendErrFor 4 id e
        | Ok v =>
            late ← ctxErr 5;
            if late : bool then mret CodeCanceled
            else
              keys ← reads (λ s, collectorKeys s t);
              out ← commit 11 id method params patch keys;
              match out with
              | Refresh.LimitReached =>
                  _ ← sendErr 8 id CodeTooManyRequests "subscription limit reached";
                  mret CodeTooManyRequests
              | Refresh.ConnClosed => mret 0%Z
              | _ =>
                  _ ← (match out with
                       | Refresh.Registered =>
                           if observer then emit (ObservedSubscription method id) else mret ()
                       | _ => mret ()
                       end);
                  _ ← sendResponse 9 id method v;
                  _ ← processRefreshQueue q;
                  mret 0%Z
              end
        end
  end.

Definition subscribeBody (id method params : string) (patch : bool) (info : HandlerInfo) : M Z :=
  h ← subscribeHandler id method params info; subscribeReply id method params patch h.

Definition runSubscribe (id method params : string) (patch : bool) (info : HandlerInfo) : M unit :=
  code ← recover (backstop id method) (subscribeBody id method params patch info);
  finishDispatch id method true code.

(** ** Refreshing a subscription *)

(** The execution of [refreshSubscription] once it is registered. *)
Definition refreshBody (sub : subscription) (info : HandlerInfo) : M unit :=
  let id := sub_id sub in
  let c0 : ctx := [VConnection conn; VProgress id] in
  r ← resolvePrincipal provider conn c0;
  let '(c, authErr) := r in
  match authErr with
  | Some e =>
      canceled ← ctxErr 0;
      if canceled : bool then mret () else _ ← sendErrFor 1 id e; mret ()
  | None =>
      let req := Req id (sub_method sub) (sub_params sub) in
      t ← newCollector;
      let c : ctx := VTriggerCollector t :: VRequest req :: VHandlerInfo info :: c in
      r ← buildHandler reg serverMW Call CallStream info c req;
      canceled ← ctxErr 2;
      if canceled : bool then mret ()
      else
        match r with
        | Err e => _ ← sendErrFor 4 id e; mret ()
        | Ok v =>
            late ← ctxErr 5;
            if late : bool then mret ()
            else
              keys ← reads (λ s, keysOf s t);
              _ ← modify (λ s, if decide (keys = ∅) then s
                               else withSubs (updateKeys (st_subs s) (Z.of_nat conn) id keys) s);
              sendResponse 9 id (sub_method sub) v
        end
  end.

(** [refreshSubscription] under its recover; [register] is what [registerRefresh]
    decided. *)
Definition refreshGuarded (sub : subscription) (register : bool) : M unit :=
  _ ← interfere 10;
  held ← reads (λ s, has (st_subs s) (Z.of_nat conn) (sub_id sub));
  if negb held then mret ()
  else match Get reg (sub_method sub) with
       | None => mret ()
       | Some info =>
           if negb register then mret ()
           else finally (emit (Unregistered (sub_id sub))) (refreshBody sub info)
       end.

Definition refreshSubscription (sub : subscription) (register : bool) : M unit :=
  _ ← recover (λ _, _ ← emit (LoggedPanic (sub_method sub));
                    sendErr 7 (sub_id sub) CodeInternalError "handler panicked")
        (refreshGuarded sub register);
  emit RequestDone.

(** ** What an execution adds to the log *)

(** The frames that end the request [id] for its client. *)
Definition isTerminal (id : string) (f : frame) : bool :=
  match f with
  | FResponse i _ | FBinary i _ _ | FStreamEnd i _ _ _ => bool_decide (i = id)
  | FError m => bool_decide (em_id m = id)
  | _ => false
  end.

(** The events that neither end the request nor belong to its bookkeeping. *)
Definition quietEv (id : string) (e : ev) : Prop :=
  match e with
  | Handed _ f => isTerminal id f = false
  | Observed _ _ _ | Unregistered _ | RequestDone => False
  | _ => True
  end.

(** What the dispatch code itself does before it replies: the data frames of a stream, its
    hooks, log lines, a registration. Never a flush. *)
Definition dispatchEv (id : string) (e : ev) : Prop :=
  match e with
  | Handed _ f => isTerminal id f = false
  | HooksRan _ | LoggedPanic _ | LoggedEncode _ | ObservedSubscription _ _ => True
  | _ => False
  end.

(** The keys flushed in a log. *)
Definition flushed (l : list ev) : list string :=
  l ≫= λ e, match e with Flushed keys => keys | _ => [] end.

(** *** Well-behaved user code

    [U] is what the user code of one execution does on its own account: pushes, progress,
    its own flushes with [TriggerRefreshNow], nested calls. It cannot forge a frame that
    ends the request it runs for, nor its bookkeeping. *)

Record tameCode (U : ev → Prop) (id : string) : Prop := {
  tc_user e : U e → quietEv id e;
  tc_call info (c : ctx) p : quiet U (Call info c p);
  tc_callStream info (c : ctx) p : quiet U (CallStream info c p);
  tc_provider k p (c : ctx) : provider k = Some p → quiet U (p c);
  tc_server : Forall (λ mw : Middleware,
    ∀ h, (∀ (c : ctx) r, quiet U (h c r)) → ∀ (c : ctx) r, quiet U (mw h c r)) serverMW;
  tc_group m : Forall (λ mw : Middleware,
    ∀ h, (∀ (c : ctx) r, quiet U (h c r)) → ∀ (c : ctx) r, quiet U (mw h c r)) (GetMiddleware reg m);
  tc_env n s : st_log (env n s) = st_log s;
}.

(** No other goroutine adds to this request's queues once the chain has returned. *)
Definition queuesSettled : Prop := ∀ n s, st_queues (env n s) = st_queues s.

(** The encoding [sendResponse] sends. *)
Definition encodingOf (id : string) (r : result) : encoding :=
  match asBlob r with
  | Some (ct, data) => if supportsBinary then encodeBinary id ct data else encodeFallback ct data
  | None => encode r
  end.

(** *** What is owed, from how the user's code ended *)

Definition marshalPanics (id : string) (r : result) : bool :=
  match encodingOf id r with EncPanic _ => true | _ => false end.

(** Replying to the successful request panics. *)
Definition replyPanics (id : string) (info : HandlerInfo) (hooks : option nat) (v : result) (s : St)
    : bool :=
  if isStream info
  then let '(isNil, r) := iterated id hooks v s in negb isNil && endPanics r
  else marshalPanics id v.

(** The keys flushed after the reply to a request: those its code queued, if it succeeded,
    was not canceled by then, and no marshaler of the reply panics. *)
Definition owedRequest (id : string) (info : HandlerInfo) (h : St * out handled) : list string :=
  match h with
  | (s1, Ret (inr (q, hk, Ok v))) =>
      if bool_decide (is_Some (st_cancel (env 2 s1))) then []
      else if replyPanics id info hk v (env 2 s1) then [] else queueOf s1 q
  | _ => []
  end.

(** The code a subscribe that is owed no answer is reported with: its handler succeeded and
    it was not canceled by the first look at the context, but by the second; or its handler
    registered keys for a new id and the connection is closed when it is filed. *)
Definition unanswered (id : string) (h : St * out handled) : option Z :=
  match h with
  | (s1, Ret (inr (_, t, Ok v))) =>
      let s2 := env 2 s1 in
      let s3 := env 5 s2 in
      if bool_decide (is_Some (st_cancel s2)) then None
      else if bool_decide (is_Some (st_cancel s3)) then Some CodeCanceled
      else if bool_decide (collectorKeys s3 t ≠ ∅) &&
              negb (has (st_subs (env 11 s3)) (Z.of_nat conn) id) && st_closed (env 12 (env 11 s3))
      then Some 0%Z else None
  | _ => None
  end.

(** The keys flushed after the reply to a subscribe. *)
Definition owedSubscribe (id method params : string) (patch : bool) (h : St * out handled)
    : list string :=
  match h with
  | (s1, Ret (inr (q, t, Ok v))) =>
      let s3 := env 5 (env 2 s1) in
      if bool_decide (is_Some (st_cancel (env 2 s1))) || bool_decide (is_Some (st_cancel s3)) then []
      else match (commit 11 id method params patch (collectorKeys s3 t) s3).2 with
           | Ret Refresh.LimitReached | Ret Refresh.ConnClosed => []
           | _ => if marshalPanics id v then [] else queueOf s1 q
           end
  | _ => []
  end.

#[local] Hint Resolve quiet_ret quiet_throw quiet_reads quiet_emit quiet_newQueue quiet_newCollector
  quiet_newHooks ext_refl : aprot.

Section Rules.
  Context (U : ev → Prop) (id : string) (Htame : tameCode U id).

(** Before the reply: the user code's events and the dispatch code's own. *)
Abbreviation before := (λ e, U e ∨ dispatchEv id e).

Lemma dispatch_quiet e : dispatchEv id e → quietEv id e.
Proof. by destruct e. Qed.

Lemma before_quiet l : Forall before l → Forall (quietEv id) l.
Proof.
  intros H. eapply Forall_impl; [done|]. intros e [He|He]; [by eapply tc_user|by apply dispatch_quiet].
Qed.

Lemma quiet_user {A} (m : M A) : quiet U m → quiet before m.
Proof. apply quiet_mono. auto. Qed.

Lemma quiet_interfere n : quiet before (interfere n).
Proof. intros s. apply ext_log, Htame. Qed.

Lemma quiet_buildHandler info (c : ctx) r :
  quiet before (buildHandler reg serverMW Call CallStream info c r).
Proof.
  rewrite buildHandler_foldr. apply quiet_user, quiet_wrap.
  - apply Forall_app. split; apply Htame.
  - intros c' r'. unfold final. destruct (_ || _); apply Htame.
Qed.

Lemma quiet_resolvePrincipal k (c : ctx) : quiet before (resolvePrincipal provider k c).
Proof.
  unfold resolvePrincipal. destruct (provider k) as [p|] eqn:E; [|apply quiet_ret].
  apply quiet_bind; [by eapply quiet_user, tc_provider|]. intros [v|e]; apply quiet_ret.
Qed.

(** With a queue brought along, [invoke] does not flush. *)
Lemma quiet_invoke (c : ctx) info r :
  is_Some (refreshQueueOf c) → quiet before (invoke reg serverMW Call CallStream provider c info r).
Proof.
  intros Hq. unfold invoke. apply quiet_recover.
  2: { intros b. unfold invokeRecover. destruct b; [apply quiet_throw|].
       apply quiet_bind; [by apply quiet_emit; right|intros ?; apply quiet_ret]. }
  assert (quiet before (invokePrincipal provider c)) as Hp.
  { unfold invokePrincipal. destruct (principalResolved c); [apply quiet_ret|].
    destruct (Connection c); [apply quiet_resolvePrincipal|apply quiet_ret]. }
  intros s. specialize (Hp s). unfold mbind, M_bind.
  destruct (invokePrincipal provider c s) as [s1 [[c1 [e|]]|b]] eqn:Ep; try done.
  eapply ext_trans; [done|]. clear Hp. revert s1 Ep. intros s1 Ep.
  apply invokePrincipal_ctx in Ep as (_ & Hq1 & _).
  unfold invokeQueue. change (refreshQueueOf (VRequest r :: VHandlerInfo info :: c1)) with (refreshQueueOf c1).
  rewrite Hq1. destruct Hq as [q ->]. cbn.
  apply (quiet_bind before (buildHandler _ _ _ _ _ _ _)); [apply quiet_buildHandler|].
  intros [v|e] s'; apply ext_refl.
Qed.

Lemma quiet_requestHandler method params info : quiet before (requestHandler id method params info).
Proof.
  unfold requestHandler. apply quiet_bind; [apply quiet_resolvePrincipal|].
  intros [c [e|]]; [apply quiet_ret|]. apply quiet_bind; [apply quiet_newQueue|]. intros q.
  apply quiet_bind.
  { destruct (isStream info); [|apply quiet_ret].
    apply quiet_bind; [apply quiet_newHooks|intros ?; apply quiet_ret]. }
  intros hk. apply quiet_bind; [|intros ?; apply quiet_ret].
  destruct (isStream info); [apply quiet_buildHandler|apply quiet_invoke]. destruct hk; by eexists.
Qed.

Lemma quiet_subscribeHandler method params info : quiet before (subscribeHandler id method params info).
Proof.
  unfold subscribeHandler. apply quiet_bind; [apply quiet_resolvePrincipal|].
  intros [c [e|]]; [apply quiet_ret|]. apply quiet_bind; [apply quiet_newCollector|]. intros t.
  apply quiet_bind; [apply quiet_newQueue|]. intros q.
  apply quiet_bind; [|intros ?; apply quiet_ret]. apply quiet_invoke. by eexists.
Qed.

(** *** Answers *)

(** After the reply only the flush and the stream hooks remain. *)
Definition afterEv (e : ev) : Prop := match e with Flushed _ | HooksRan _ => True | _ => False end.

(** One frame that ends the request, [Pr] of it and of the events that follow. *)
Definition replied (Pr : frame → list ev → Prop) (s s' : St) : Prop :=
  ∃ u d f v, st_log s' = st_log s ++ u ++ Handed d f :: v ∧ Forall before u ∧
    Forall afterEv v ∧ isTerminal id f = true ∧ Pr f v.

(** The reported code is the frame's; a response that could not be encoded is reported
    as a success. *)
Definition agree (code : Z) (f : frame) : Prop :=
  code = default 0%Z (frameCode f) ∨
  code = 0%Z ∧ ∃ text, f = Protocol.sendError id CodeInternalError ("failed to encode " +:+ text).

(** The same, and [Fl] of the keys flushed after the frame. *)
Definition agreeing (code : Z) (Fl : list string → Prop) (f : frame) (v : list ev) : Prop :=
  agree code f ∧ Fl (flushed v).

Definition replies (Pr : frame → list ev → Prop) (m : M unit) : Prop := ∀ s,
  match m s with (s', Ret _) => replied Pr s s' | (s', Panic _) => ext before s s' end.

(** [R] is the code of a request that is owed no answer; a request that panics is
    answered by the backstop, and flushes nothing. *)
Definition answersAt (R : option Z) (Fl : list string → Prop) (m : M Z) (s : St) : Prop :=
  match m s with
  | (s', Ret code) =>
      match R with
      | None => replied (agreeing code Fl) s s'
      | Some c => ext before s s' ∧ code = c
      end
  | (s', Panic _) => ext before s s' ∧ R = None ∧ Fl []
  end.

Lemma replied_after Pr s s1 s2 : ext before s s1 → replied Pr s1 s2 → replied Pr s s2.
Proof.
  intros (l & Hl & Fl) (u & d & f & v & Hu & Fu & Fv & Ht & HP).
  exists (l ++ u), d, f, v. rewrite Hu, Hl, <- !app_assoc. split_and!; try done.
  by apply Forall_app.
Qed.

Lemma replied_more (Pr Pr' : frame → list ev → Prop) s s1 s2 l :
  replied Pr s s1 → st_log s2 = st_log s1 ++ l → Forall afterEv l →
  (∀ f v, Pr f v → Pr' f (v ++ l)) → replied Pr' s s2.
Proof.
  intros (u & d & f & v & Hu & Fu & Fv & Ht & HP) Hl Fl HPr.
  exists u, d, f, (v ++ l). rewrite Hl, Hu, <- !app_assoc, <- app_comm_cons. split_and!; auto.
  by apply Forall_app.
Qed.

Lemma flushed_app l l' : flushed (l ++ l') = flushed l ++ flushed l'.
Proof. apply bind_app. Qed.

Lemma flushed_flushLog keys : flushed (flushLog keys) = keys.
Proof. destruct keys as [|k keys]; [done|]. simpl. by rewrite app_nil_r. Qed.

Lemma flushLog_after keys : Forall afterEv (flushLog keys).
Proof. destruct keys; by repeat constructor. Qed.

Lemma answersAt_bind {A} R Fl (m : M A) (k : A → M Z) s :
  quiet before m → (∀ s1 a, m s = (s1, Ret a) → answersAt R Fl (k a) s1) →
  (∀ s1 b, m s = (s1, Panic b) → R = None ∧ Fl []) → answersAt R Fl (m ≫= k) s.
Proof.
  intros Hm Hk Hp. specialize (Hm s). unfold answersAt, mbind, M_bind in *.
  destruct (m s) as [s1 [a|b]]; simpl in *; [|split; eauto]. specialize (Hk s1 a eq_refl).
  destruct (k a s1) as [s2 [code|b]]; destruct R; naive_solver eauto using replied_after, ext_trans.
Qed.

Lemma answersAt_ctxErr R Fl n (k : bool → M Z) s :
  answersAt R Fl (k (bool_decide (is_Some (st_cancel (env n s))))) (env n s) →
  answersAt R Fl (ctxErr n ≫= k) s.
Proof.
  intros Hk. apply answersAt_bind; [|by intros s1 a [= <- <-]|done].
  apply quiet_bind; [apply quiet_interfere|intros ?; apply quiet_reads].
Qed.

Lemma replies_bind {A} Pr (m : M A) (k : A → M unit) :
  quiet before m → (∀ a, replies Pr (k a)) → replies Pr (m ≫= k).
Proof.
  intros Hm Hk s. specialize (Hm s). unfold mbind, M_bind.
  destruct (m s) as [s1 [a|b]]; simpl in *; [|done]. specialize (Hk a s1).
  destruct (k a s1) as [s2 [[]|b]]; [by eapply replied_after|by eapply ext_trans].
Qed.

Lemma replies_sendRaw (Pr : frame → list ev → Prop) n f :
  isTerminal id f = true → Pr f [] → replies Pr (sendRaw n f).
Proof.
  intros Ht HP. apply replies_bind; [apply quiet_interfere|]. intros _.
  apply replies_bind; [apply quiet_reads|]. intros closed s. by exists [], (negb closed), f, [].
Qed.

(** A reply that is the last thing done. *)
Lemma answersAt_reply (Fl : list string → Prop) m code s :
  replies (λ f v, agree code f ∧ flushed v = []) m → Fl [] → answersAt None Fl (_ ← m; mret code) s.
Proof.
  intros Hm HF. specialize (Hm s). unfold answersAt, mbind, M_bind. destruct (m s) as [s1 [[]|b]]; [|done].
  destruct Hm as (u & d & f & v & ? & ? & ? & ? & ? & Hv). exists u, d, f, v. unfold agreeing. by rewrite Hv.
Qed.

(** A reply followed by the flush of the queue [q]. *)
Lemma answersAt_flush (Fl : list string → Prop) (m : M Z) q s :
  answersAt None (λ ks, ks = []) m s →
  match m s with (s1, Ret _) => Fl (queueOf s1 q) | (_, Panic _) => Fl [] end →
  answersAt None Fl (code ← m; _ ← processRefreshQueue q; mret code) s.
Proof.
  intros Hm HF. unfold answersAt, mbind, M_bind in *. destruct (m s) as [s1 [code|b]]; [|naive_solver].
  destruct (processRefreshQueue_run q s1) as (s2 & -> & Hl & _).
  eapply replied_more; [done|done|apply flushLog_after|]. intros f v [Ha Hv]. split; [done|].
  by rewrite flushed_app, Hv, flushed_flushLog.
Qed.

Lemma answersAt_reply_flush (Fl : list string → Prop) m code q s :
  replies (λ f v, agree code f ∧ flushed v = []) m →
  match m s with (s1, Ret _) => Fl (queueOf s1 q) | (_, Panic _) => Fl [] end →
  answersAt None Fl (_ ← m; _ ← processRefreshQueue q; mret code) s.
Proof.
  intros Hm HF. specialize (Hm s). unfold answersAt, mbind, M_bind in *.
  destruct (m s) as [s1 [[]|b]]; [|done].
  destruct (processRefreshQueue_run q s1) as (s2 & -> & Hl & _).
  eapply replied_more; [done|done|apply flushLog_after|]. intros f v [Ha Hv]. split; [done|].
  by rewrite flushed_app, Hv, flushed_flushLog.
Qed.

Lemma terminal_error n code msg (Pr : frame → list ev → Prop) :
  Pr (Protocol.sendError id code msg) [] → replies Pr (sendErr n id code msg).
Proof. intros H. apply replies_sendRaw; [|done]. simpl. by apply bool_decide_true. Qed.

Lemma answersAt_sendErr (Fl : list string → Prop) n code msg s :
  Fl [] → answersAt None Fl (_ ← sendErr n id code msg; mret code) s.
Proof. intros HF. apply answersAt_reply; [|done]. apply terminal_error. split; [by left|done]. Qed.

Lemma answersAt_sendErrFor (Fl : list string → Prop) n e s : Fl [] → answersAt None Fl (sendErrFor n id e) s.
Proof.
  intros HF. unfold sendErrFor. destruct (errorPanics e); [by split; [apply ext_refl|]|].
  destruct (sendErrorFor mappings marshalable id e) as [f code] eqn:E.
  apply answersAt_reply; [|done]. apply replies_sendRaw; [|split; [left|done]];
    destruct e as [i c m k dt|r|i t w]; simpl in E;
      [|destruct (LookupError _ _)|destruct (LookupError _ _)|
       |destruct (LookupError _ _)|destruct (LookupError _ _)];
      simplify_eq; simpl; try done; by apply bool_decide_true.
Qed.

Lemma replies_sendEncoded n method what wrap e :
  (∀ data, isTerminal id (wrap data) = true ∧ frameCode (wrap data) = None) →
  replies (λ f v, agree 0 f ∧ flushed v = []) (sendEncoded n id method what wrap e).
Proof.
  intros Hw. destruct e as [data|text|]; simpl.
  - destruct (Hw data) as [Ht Hc]. apply replies_sendRaw; [done|]. split; [|done]. left. by rewrite Hc.
  - apply replies_bind; [by apply quiet_emit; right|]. intros _. apply terminal_error. split; [|done].
    right. split; [done|]. by exists (what +:+ ": " +:+ text).
  - intros s. apply ext_refl.
Qed.

Lemma replies_sendResponse n method r :
  replies (λ f v, agree 0 f ∧ flushed v = []) (sendResponse n id method r).
Proof.
  unfold sendResponse, sendBlobResponse.
  destruct (asBlob r) as [[ct data]|]; [destruct supportsBinary|];
    apply replies_sendEncoded; intros; simpl; by rewrite bool_decide_true.
Qed.

(** Sending neither panics nor touches the queues; a panicking marshaler is all that can
    happen before it. *)
Lemma sendRaw_run n f s :
  ∃ s', sendRaw n f s = (s', Ret ()) ∧ (queuesSettled → st_queues s' = st_queues s).
Proof. eexists. split; [reflexivity|]. intros HS. simpl. apply HS. Qed.

Lemma sendEncoded_run n method what wrap e s :
  ∃ s', sendEncoded n id method what wrap e s =
      (s', match e with EncPanic abort => Panic abort | _ => Ret () end) ∧
    (queuesSettled → st_queues s' = st_queues s).
Proof.
  destruct e; simpl; [apply sendRaw_run| |by exists s].
  eexists. split; [reflexivity|]. intros HS. simpl. by rewrite HS.
Qed.

Lemma sendResponse_run n method r s :
  ∃ s', sendResponse n id method r s =
      (s', match encodingOf id r with EncPanic abort => Panic abort | _ => Ret () end) ∧
    (queuesSettled → st_queues s' = st_queues s).
Proof.
  unfold sendResponse, sendBlobResponse, encodingOf.
  destruct (asBlob r) as [[ct data]|]; [destruct supportsBinary|]; apply sendEncoded_run.
Qed.

Lemma sendAll_run n fs s :
  ∃ s', sendAll n fs s = (s', Ret ()) ∧ (queuesSettled → st_queues s' = st_queues s).
Proof.
  revert s. induction fs as [|f fs IH]; intros s; simpl; [by exists s|].
  destruct (sendRaw_run n f s) as (s1 & E1 & H1). unfold mbind, M_bind. rewrite E1.
  destruct (IH s1) as (s2 & -> & H2). exists s2. split; [done|]. intros HS. by rewrite H2, H1.
Qed.

(** The frames of a stream: data, then the one end frame with the reported error. *)
Lemma stream_frames cfg b isNil evs panics n :
  let r := Stream.streamIterator cfg send mappings marshalable id b isNil evs panics n in
  ∃ datas, Stream.sr_frames r = datas ++ [sendStreamEnd mappings marshalable id (Stream.sr_err r)] ∧
    Forall (λ f, isTerminal id f = false) datas ∧ (isNil = true → datas = []).
Proof.
  unfold Stream.streamIterator. destruct isNil; simpl; [by exists []|].
  eexists. split_and!; [done| |done]. unfold Stream.dataFrames.
  destruct (Stream.ls_chunker _); by apply Forall_fmap, Forall_true.
Qed.

Lemma streamEnd_reply n err s :
  match sendAll n [sendStreamEnd mappings marshalable id err] s with
  | (s', Ret _) => replied (λ f v, agree (errorCode mappings err) f ∧ v = []) s s'
  | _ => False
  end.
Proof.
  pose proof (replies_sendRaw (λ f v, agree (errorCode mappings err) f ∧ v = []) n
    (sendStreamEnd mappings marshalable id err)) as H.
  assert (isTerminal id (sendStreamEnd mappings marshalable id err) = true) as Ht.
  { destruct err as [[]|]; simpl; try destruct (LookupError _ _); simpl; by rewrite bool_decide_true. }
  specialize (H Ht). apply (H ltac:(split; [|done]; left;
    by destruct err as [[]|]; simpl; try destruct (LookupError _ _))).
Qed.

Lemma quiet_sendAll n fs : Forall (λ f, isTerminal id f = false) fs → quiet before (sendAll n fs).
Proof.
  induction 1 as [|f fs Hf _ IH]; simpl; [apply quiet_ret|].
  apply quiet_bind; [|by intros _]. unfold sendRaw.
  apply quiet_bind; [apply quiet_interfere|]. intros _.
  apply quiet_bind; [apply quiet_reads|]. intros ?. by apply quiet_emit; right.
Qed.

(** The end frame and the hooks, in either order. *)
Lemma streamEnd_hooks n err calls (isNil panics : bool) s :
  let m := (if isNil
            then _ ← sendAll n [sendStreamEnd mappings marshalable id err]; emit (HooksRan calls)
            else _ ← emit (HooksRan calls);
                 if panics then throw false
                 else sendAll n [sendStreamEnd mappings marshalable id err]) in
  ∃ s', m s = (s', if negb isNil && panics then Panic false else Ret ()) ∧
    (queuesSettled → st_queues s' = st_queues s) ∧
    if negb isNil && panics then ext before s s'
    else replied (agreeing (errorCode mappings err) (λ ks, ks = [])) s s'.
Proof.
  cbv zeta. destruct isNil; simpl.
  - pose proof (streamEnd_reply n err s) as H.
    destruct (sendAll_run n [sendStreamEnd mappings marshalable id err] s) as (s1 & E1 & H1).
    rewrite (run_bind _ _ _ _ _ E1). rewrite E1 in H. eexists. split_and!; [reflexivity|done|].
    eapply replied_more; [done|reflexivity|by repeat constructor|]. by intros f v [Ha ->].
  - destruct (emit (HooksRan calls) s) as [s1 o] eqn:E.
    assert (o = Ret () ∧ st_queues s1 = st_queues s ∧ ext before s s1) as (-> & Hq & He).
    { injection E as <- <-. split_and!; [done|done|]. exists [HooksRan calls]. split; [done|].
      constructor; [by right|done]. }
    rewrite (run_bind _ _ _ _ _ E). destruct panics; [by exists s1|].
    pose proof (streamEnd_reply n err s1) as H.
    destruct (sendAll_run n [sendStreamEnd mappings marshalable id err] s1) as (s2 & E1 & H1).
    rewrite E1 in *. exists s2. split_and!; [done|intros HS; by rewrite H1|].
    eapply replied_after; [done|]. eapply replied_more; [done|by rewrite app_nil_r|done|].
    intros f v [Ha ->]. by rewrite app_nil_r.
Qed.

Lemma runStream_answers n hk v s :
  answersAt None (λ ks, ks = []) (runStream n id hk v) s ∧
  match runStream n id hk v s with
  | (s', Ret _) => (queuesSettled → st_queues s' = st_queues s) ∧
      (let '(isNil, r) := iterated id hk v s in negb isNil && endPanics r) = false
  | (_, Panic _) => (let '(isNil, r) := iterated id hk v s in negb isNil && endPanics r) = true
  end.
Proof.
  unfold answersAt, runStream. rewrite (run_bind (reads _) _ _ _ _ eq_refl).
  unfold iterated.
  destruct (match v with RSeq b evs p => (b, evs, p) | _ => (true, [], false) end)
    as [[isNil evs] panics]. set (nHooks := match hk with Some _ => _ | None => _ end).
  set (r := Stream.streamIterator _ _ _ _ _ _ _ _ _ _).
  destruct (stream_frames (default (Chunker.Chunking 0 0 0) chunking)
    (bool_decide (is_Some chunking)) isNil evs panics nHooks) as (datas & Hf & Hd & _).
  fold r in Hf, Hd. rewrite Hf, last_snoc, removelast_last.
  pose proof (quiet_sendAll n datas Hd s) as Hq. destruct (sendAll_run n datas s) as (s1 & E1 & H1).
  rewrite E1 in Hq. simpl in Hq. rewrite (run_bind _ _ _ _ _ E1).
  destruct (streamEnd_hooks n (Stream.sr_err r) (Stream.sr_hooks r) isNil (endPanics r) s1)
    as (s2 & E2 & H2 & Hr).
  unfold mbind at 1 4, M_bind at 1 4. rewrite E2. destruct (negb isNil && endPanics r).
  - split; [|done]. by split; [eapply ext_trans|].
  - split; [by eapply replied_after|]. split; [|done]. intros HS. by rewrite H2, H1.
Qed.

(** *** The bodies *)

Lemma answersAt_rejectPrincipal (Fl : list string → Prop) n e s :
  Fl [] → answersAt None Fl (rejectPrincipal n id e) s.
Proof.
  intros HF. apply answersAt_ctxErr.
  destruct (bool_decide _); [by apply answersAt_sendErr|by apply answersAt_sendErrFor].
Qed.

Lemma requestReply_answers (Fl : list string → Prop) method info h s :
  (∀ ks, (queuesSettled → ks = owedRequest id info (s, Ret h)) → Fl ks) →
  answersAt None Fl (requestReply id method info h) s.
Proof.
  intros HF. assert (owedRequest id info (s, Ret h) = [] → Fl []) as HF0.
  { intros E. apply HF. by intros _. }
  destruct h as [e|[[q hk] r]]; simpl in HF0; [by apply answersAt_rejectPrincipal, HF0|].
  apply answersAt_ctxErr. destruct r as [v|e]; simpl in HF, HF0.
  2: { destruct (bool_decide _); [apply answersAt_sendErr|apply answersAt_sendErrFor]; auto. }
  destruct (bool_decide _); [apply answersAt_sendErr; auto|]. simpl.
  unfold replyPanics in HF, HF0. destruct (isStream info); simpl in HF, HF0.
  - destruct (runStream_answers 5 hk v (env 2 s)) as (Ha & Hr). apply answersAt_flush; [done|].
    destruct (runStream 5 id hk v (env 2 s)) as [s1 [code|b]]; [destruct Hr as [Hq Hr]|];
      rewrite Hr in HF, HF0; [|by apply HF0].
    apply HF. intros HS. unfold queueOf. by rewrite Hq, HS.
  - apply answersAt_reply_flush; [apply replies_sendResponse|].
    destruct (sendResponse_run 6 method v (env 2 s)) as (s1 & E & Hq).
    unfold marshalPanics in *. rewrite E. destruct (encodingOf id v); [| |by apply HF0];
      apply HF; intros HS; unfold queueOf; by rewrite Hq, HS.
Qed.

Lemma requestBody_answers method params info s :
  answersAt None (λ ks, queuesSettled → ks = owedRequest id info (requestHandler id method params info s))
    (requestBody id method params info) s.
Proof.
  apply answersAt_bind; [apply quiet_requestHandler|..].
  - intros s1 h E. rewrite E. by apply requestReply_answers.
  - intros s1 b E. rewrite E. by split.
Qed.

(** The commit: no events, no queue touched, and refused for a closed connection exactly
    when there was something to register and nothing to update. *)
Lemma commit_run n method params patch keys s :
  ∃ s' out, commit n id method params patch keys s = (s', Ret out) ∧ st_log s' = st_log s ∧
    (queuesSettled → st_queues s' = st_queues s) ∧
    (out = Refresh.ConnClosed ↔ keys ≠ ∅ ∧ has (st_subs (env (n + 0) s)) (Z.of_nat conn) id = false ∧
       st_closed (env (n + 1) (env (n + 0) s)) = true).
Proof.
  pose proof (tc_env _ _ Htame) as He. unfold commit, Refresh.commitSubscribe.
  case_decide as Hk; [do 2 eexists; split_and!; [done..|]; naive_solver|].
  destruct (has _ _ _).
  - do 2 eexists.
    split_and!; [done|simpl; rewrite He; simpl; by rewrite !He|intros HS; simpl; rewrite HS; simpl; by rewrite !HS|].
    split; [done|]. by intros (_ & ? & _).
  - destruct (register _ _ _ _) as [[sm' ok] lim] eqn:E.
    assert (ok = false ∧ lim = false ↔ st_closed (env (n + 1) (env (n + 0) s)) = true) as Hc.
    { unfold register in E. cbn [cv_closed] in E. destruct (st_closed _); [|destruct (overLimit _ _ _)]; naive_solver. }
    destruct ok, lim; do 2 eexists; (split; [reflexivity|]); simpl;
      (split_and!; [by rewrite !He|intros HS; by rewrite !HS|]); naive_solver.
Qed.

Lemma unanswered_commit s3 t out :
  (out = Refresh.ConnClosed ↔ collectorKeys s3 t ≠ ∅ ∧ has (st_subs (env 11 s3)) (Z.of_nat conn) id = false ∧
     st_closed (env 12 (env 11 s3)) = true) →
  (if bool_decide (collectorKeys s3 t ≠ ∅) && negb (has (st_subs (env 11 s3)) (Z.of_nat conn) id) &&
      st_closed (env 12 (env 11 s3)) then Some 0%Z else None) =
  match out with Refresh.ConnClosed => Some 0%Z | _ => None end.
Proof.
  intros Hc. case_bool_decide; destruct (has _ _ _), (st_closed _), out; simpl; naive_solver.
Qed.

Lemma answersAt_ext R Fl m s s1 :
  ext before s s1 → answersAt R Fl m s1 →
  match m s1 with
  | (s', Ret code) =>
      match R with
      | None => replied (agreeing code Fl) s s'
      | Some c => ext before s s' ∧ code = c
      end
  | (s', Panic _) => ext before s s' ∧ R = None ∧ Fl []
  end.
Proof.
  intros He Ha. unfold answersAt in Ha.
  destruct (m s1) as [s2 [code|b]]; destruct R; naive_solver eauto using replied_after, ext_trans.
Qed.

Lemma subscribeReply_answers (R : option Z) (Fl : list string → Prop) method params patch h s :
  R = unanswered id (s, Ret h) →
  (∀ ks, (queuesSettled → ks = owedSubscribe id method params patch (s, Ret h)) → Fl ks) →
  answersAt R Fl (subscribeReply id method params patch h) s.
Proof.
  intros -> HF. assert (owedSubscribe id method params patch (s, Ret h) = [] → Fl []) as HF0.
  { intros E. apply HF. by intros _. }
  destruct h as [e|[[q t] r]]; simpl in HF0 |- *; [by apply answersAt_rejectPrincipal, HF0|].
  apply answersAt_ctxErr. destruct r as [v|e]; simpl in HF, HF0 |- *.
  2: { destruct (bool_decide _); [apply answersAt_sendErr|apply answersAt_sendErrFor]; auto. }
  destruct (bool_decide (is_Some (st_cancel (env 2 s)))); [apply answersAt_sendErr; auto|]. simpl.
  apply answersAt_ctxErr. set (s3 := env 5 (env 2 s)) in *.
  destruct (bool_decide (is_Some (st_cancel s3))); simpl in HF, HF0 |- *.
  { split; [apply ext_refl|done]. }
  unfold answersAt. rewrite (run_bind (reads _) _ _ _ _ eq_refl).
  destruct (commit_run 11 method params patch (collectorKeys s3 t) s3) as (s4 & out & E & Hl & Hq & Hc).
  rewrite (run_bind _ _ _ _ _ E). rewrite E in HF, HF0.
  rewrite (unanswered_commit s3 t out Hc).
  assert (∀ ks, (queuesSettled → ks = if marshalPanics id v then [] else queueOf s q) →
    out ≠ Refresh.ConnClosed → out ≠ Refresh.LimitReached → Fl ks) as HF1.
  { intros ks Hks H1 H2. apply HF. by destruct out. }
  assert (out = Refresh.LimitReached → Fl []) as HF2 by (intros ->; auto).
  assert (out ≠ Refresh.ConnClosed → out ≠ Refresh.LimitReached → ∀ s5,
    ext before s4 s5 → st_queues s5 = st_queues s4 →
    answersAt None Fl (_ ← sendResponse 9 id method v; _ ← processRefreshQueue q; mret 0%Z) s5)
    as HR.
  { intros H1 H2 s5 _ Hs5. apply answersAt_reply_flush; [apply replies_sendResponse|].
    destruct (sendResponse_run 9 method v s5) as (s6 & E6 & Hq6). rewrite E6.
    unfold marshalPanics in HF1. revert HF1.
    destruct (encodingOf id v); intros HF1; apply HF1; try done;
      intros HS; unfold queueOf; rewrite (Hq6 HS), Hs5, (Hq HS); unfold s3; by rewrite !HS. }
  assert (ext before s3 s4) as He by (by apply ext_log).
  destruct out; [| | | |by split].
  - apply (answersAt_ext None Fl _ s3 s4 He), HR; [done|done|apply ext_refl|done].
  - apply (answersAt_ext None Fl _ s3 s4 He), HR; [done|done|apply ext_refl|done].
  - destruct observer; [|apply (answersAt_ext None Fl _ s3 s4 He), HR; [done|done|apply ext_refl|done]].
    destruct (emit (ObservedSubscription method id) s4) as [s5 o] eqn:E5.
    assert (o = Ret () ∧ ext before s4 s5 ∧ st_queues s5 = st_queues s4) as (-> & He5 & Hq5).
    { injection E5 as <- <-. split_and!; [done| |done]. eexists. split; [done|].
      constructor; [by right|done]. }
    rewrite (run_bind _ _ _ _ _ E5).
    apply (answersAt_ext None Fl _ s3 s5); [by eapply ext_trans|]. by apply HR.
  - apply (answersAt_ext None Fl _ s3 s4 He), answersAt_sendErr, HF2, eq_refl.
Qed.

Lemma subscribeBody_answers method params patch info s :
  let h := subscribeHandler id method params info s in
  answersAt (unanswered id h) (λ ks, queuesSettled → ks = owedSubscribe id method params patch h)
    (subscribeBody id method params patch info) s.
Proof.
  cbv zeta. apply answersAt_bind; [apply quiet_subscribeHandler|..].
  - intros s1 h E. rewrite E. by apply subscribeReply_answers.
  - intros s1 b E. rewrite E. by split.
Qed.

(** The recover and the deferred calls around a body. *)
Lemma dispatch_log R Fl method subscribe body s s' o :
  answersAt R Fl body s →
  (code ← recover (backstop id method) body; finishDispatch id method subscribe code) s = (s', o) →
  o = Ret () ∧ ∃ s1 code,
    match R with
    | None => replied (agreeing code Fl) s s1
    | Some c => ext before s s1 ∧ code = c
    end ∧
    st_log s' = st_log s1 ++ (if observer then [Observed method subscribe code] else []) ++
      [Unregistered id; RequestDone].
Proof.
  intros Hb. assert (∃ s1 code, recover (backstop id method) body s = (s1, Ret code) ∧
    match R with
    | None => replied (agreeing code Fl) s s1
    | Some c => ext before s s1 ∧ code = c
    end) as (s1 & code & Hr & Ha).
  { unfold answersAt, recover in *. destruct (body s) as [s1 [code|b]]; [eauto|].
    destruct Hb as (He & -> & HF).
    assert (answersAt None Fl (backstop id method b) s1) as Hh.
    { apply answersAt_bind; [by apply quiet_emit; right| |done].
      intros s2 [] [= <-]. by apply answersAt_sendErr. }
    assert (∃ s2 code, backstop id method b s1 = (s2, Ret code)) as (s2 & code & E)
      by (do 2 eexists; reflexivity).
    unfold answersAt in Hh. rewrite E in *. exists s2, code. split; [done|]. by eapply replied_after. }
  rewrite (run_bind _ _ _ _ _ Hr). unfold finishDispatch.
  destruct observer; intros [= <- <-]; (split; [done|]); exists s1, code; (split; [done|]);
    simpl; by rewrite <- !app_assoc.
Qed.


Lemma quiet_ctxErr n : quiet before (ctxErr n).
Proof. apply quiet_bind; [apply quiet_interfere|intros ?; apply quiet_reads]. Qed.

(** *** Refreshes *)

(** The frames that end [id] among the events of a log. *)
Definition ends (e : ev) : bool := match e with Handed _ f => isTerminal id f | _ => false end.

Definition terminals (l : list ev) : list ev := filter (λ e, ends e = true) l.

Definition notObserved (e : ev) : Prop := match e with Observed _ _ _ => False | _ => True end.

(** At most [n] terminal frames and no observer report. *)
Definition atMost (n : nat) (s s' : St) : Prop :=
  ∃ l, st_log s' = st_log s ++ l ∧ length (terminals l) ≤ n ∧ Forall notObserved l.

Lemma terminals_quiet l : Forall (quietEv id) l → terminals l = [] ∧ Forall notObserved l.
Proof.
  induction 1 as [|e l He _ [IH IHn]]; [done|]. unfold terminals in *. rewrite filter_cons.
  split; [|constructor; [by destruct e|done]].
  case_decide as Hd; [|done]. destruct e; simpl in *; congruence.
Qed.

Lemma ext_atMost s s' : ext before s s' → atMost 0 s s'.
Proof.
  intros (l & Hl & Hq%before_quiet). destruct (terminals_quiet l Hq) as [Ht Hn]. exists l. by rewrite Ht.
Qed.

Lemma atMost_trans n m s s1 s2 : atMost n s s1 → atMost m s1 s2 → atMost (n + m) s s2.
Proof.
  intros (l & Hl & Hn & Fl) (l' & Hl' & Hn' & Fl'). exists (l ++ l').
  unfold terminals in *. rewrite Hl', Hl, app_assoc, filter_app, length_app.
  split_and!; [done|lia|]. by apply Forall_app.
Qed.

Lemma atMost_emit n s e : quietEv id e ∨ e = Unregistered id → atMost n s (emit e s).1.
Proof.
  intros He. exists [e]. split; [done|]. destruct He as [He| ->].
  - destruct (terminals_quiet [e] ltac:(by constructor)) as [-> Hn]. split; [simpl; lia|done].
  - split; [simpl; lia|by repeat constructor].
Qed.

Lemma replied_atMost Pr s s' : replied Pr s s' → atMost 1 s s'.
Proof.
  intros (u & d & f & v & Hu & Fu & Fv & Ht & _). exists (u ++ Handed d f :: v). split; [done|]. apply before_quiet in Fu.
  destruct (terminals_quiet u Fu) as [Hu0 Hun].
  assert (terminals v = [] ∧ Forall notObserved v) as [Hv0 Hvn].
  { apply terminals_quiet. eapply Forall_impl; [done|]. by intros []. }
  unfold terminals in *. rewrite filter_app, Hu0. simpl. rewrite filter_cons_True, Hv0 by done.
  split; [done|]. apply Forall_app. split; [done|]. by constructor.
Qed.

(** A unit computation as an answering one; what a refresh does is at most an answer. *)
Definition mayReply (m : M unit) : Prop := ∀ s,
  match m s with
  | (s', Ret _) => ext before s s' ∨ replied (λ _ _, True) s s'
  | (s', Panic _) => ext before s s'
  end.

Lemma mayReply_quiet m : quiet before m → mayReply m.
Proof. intros H s. specialize (H s). destruct (m s) as [s1 [a|b]]; simpl in *; auto. Qed.

Lemma mayReply_replies Pr m : replies Pr m → mayReply m.
Proof.
  intros H s. specialize (H s). destruct (m s) as [s1 [a|b]]; [|done]. right.
  destruct H as (u & d & f & v & ?). exists u, d, f, v. naive_solver.
Qed.

Lemma mayReply_bind {A} (m : M A) (k : A → M unit) :
  quiet before m → (∀ a, mayReply (k a)) → mayReply (m ≫= k).
Proof.
  intros Hm Hk s. specialize (Hm s). unfold mbind, M_bind.
  destruct (m s) as [s1 [a|b]]; simpl in *; [|done]. specialize (Hk a s1).
  destruct (k a s1) as [s2 [[]|b]]; [|by eapply ext_trans].
  destruct Hk; [left; by eapply ext_trans|right; by eapply replied_after].
Qed.

Lemma mayReply_sendErrFor n e : mayReply (_ ← sendErrFor n id e; mret ()).
Proof.
  intros s. pose proof (answersAt_sendErrFor (λ _, True) n e s I) as H.
  unfold answersAt in H. unfold mbind at 1, M_bind at 1.
  destruct (sendErrFor n id e s) as [s1 [code|b]]; [|naive_solver]. simpl. right.
  destruct H as (u & d & f & v & H). exists u, d, f, v. naive_solver.
Qed.

Lemma mayReply_refreshBody sub info : sub_id sub = id → mayReply (refreshBody sub info).
Proof.
  intros Hid. unfold refreshBody. rewrite Hid. apply mayReply_bind; [apply quiet_resolvePrincipal|].
  intros [c [e|]].
  { apply mayReply_bind; [apply quiet_ctxErr|].
    intros []; [apply mayReply_quiet, quiet_ret|apply mayReply_sendErrFor]. }
  apply mayReply_bind; [apply quiet_newCollector|]. intros t.
  apply mayReply_bind; [apply quiet_buildHandler|]. intros r.
  apply mayReply_bind; [apply quiet_ctxErr|]. intros []; [apply mayReply_quiet, quiet_ret|].
  destruct r as [v|e]; [|apply mayReply_sendErrFor].
  apply mayReply_bind; [apply quiet_ctxErr|]. intros []; [apply mayReply_quiet, quiet_ret|].
  apply mayReply_bind; [apply quiet_reads|]. intros keys.
  apply mayReply_bind; [apply quiet_modify; intros s; by case_decide|]. intros _.
  eapply mayReply_replies, replies_sendResponse.
Qed.

(** The guarded part of [refreshSubscription]: at most one frame, none if it panicked. *)
Lemma refreshGuarded_log sub register s s' o :
  sub_id sub = id → refreshGuarded sub register s = (s', o) →
  atMost (match o with Ret _ => 1 | Panic _ => 0 end) s s'.
Proof.
  intros Hid. unfold refreshGuarded, mbind, M_bind, interfere, modify, reads. simpl.
  assert (ext before s (env 10 s)) as Henv by apply ext_log, Htame.
  assert (∀ n, atMost n s (env 10 s)) as Hskip.
  { intros n. destruct (ext_atMost _ _ Henv) as (l & Hl & Hn & Fl). exists l. split_and!; [done|lia|done]. }
  destruct (has _ _ _); simpl; [|intros [= <- <-]; apply Hskip].
  destruct (Get reg _) as [info|]; [|intros [= <- <-]; apply Hskip].
  destruct register; simpl; [|intros [= <- <-]; apply Hskip].
  unfold finally. pose proof (mayReply_refreshBody sub info Hid (env 10 s)) as Hb.
  destruct (refreshBody sub info (env 10 s)) as [s1 o1]. cbn. intros [= <- <-].
  rewrite <- (Nat.add_0_r (match o1 with Ret _ => 1 | Panic _ => 0 end)).
  eapply atMost_trans; [|apply (atMost_emit 0 s1); right; by rewrite Hid].
  apply (atMost_trans 0 _ _ (env 10 s)); [by apply ext_atMost|].
  destruct o1 as [[]|b]; [|by apply ext_atMost].
  destruct Hb as [Hb|Hb]; [|by eapply replied_atMost].
  apply (atMost_trans 0 1 _ s1); [by apply ext_atMost|]. exists []. rewrite app_nil_r.
  split_and!; [done|simpl; lia|done].
Qed.

End Rules.

(** ** Properties *)



(** A server-driven refresh sends its subscriber at most one frame, reports nothing
    to the observer, and always releases the wait group, last. *)
Theorem refresh_replies_at_most_once U sub register s s' o :
  tameCode U (sub_id sub) → refreshSubscription sub register s = (s', o) →
  o = Ret () ∧ ∃ l, st_log s' = st_log s ++ l ++ [RequestDone] ∧
    length (terminals (sub_id sub) l) ≤ 1 ∧ Forall notObserved l.
Proof.
  intros Ht. unfold refreshSubscription, mbind at 1, M_bind at 1. unfold recover.
  destruct (refreshGuarded sub register s) as [s1 o1] eqn:E.
  apply (refreshGuarded_log _ _ Ht) in E; [|done]. destruct o1 as [[]|b].
  - intros [= <- <-]. destruct E as (l & Hl & Hn & Fl). split; [done|]. exists l.
    simpl. by rewrite Hl, app_assoc.
  - set (h := mbind _ (emit (LoggedPanic (sub_method sub)))).
    assert (replies U (sub_id sub) (λ _ _, True) h) as Hr.
    { apply replies_bind; [apply quiet_emit; by right|]. intros _. by apply (terminal_error _ _ Ht). }
    specialize (Hr s1). destruct (h s1) as [s2 o2] eqn:E2.
    assert (o2 = Ret ()) as -> by (by injection E2 as _ <-).
    apply (replied_atMost _ _ Ht) in Hr. destruct (atMost_trans _ _ _ _ _ _ E Hr) as (l & Hl & Hn & Fl).
    intros [= <- <-]. split; [done|]. exists l. simpl. by rewrite Hl, app_assoc.
Qed.

End Code.

(** *** Concrete runs

    The handler of Pipeline.v, which triggers "users" and succeeds, on a connection
    nothing interferes with; its result cannot be encoded. *)

Definition exReg : @Registry (@Middleware string nat) := NewRegistry.
Definition exProvider (_ : nat) : option (@ctx string → M (res goerr string)) := None.
Definition exEncode (_ : @result nat) : encoding := EncErr "NaN".
Definition exFallback (_ _ : string) : encoding := EncPanic false.
Definition exBinary (_ _ _ : string) : encoding := EncPanic false.
Definition exEnv (_ : nat) (s : St) : St := s.
Definition exSend (_ : nat) : option goerr := None.

(** It does nothing on its own account. *)
Definition exUser (_ : ev) : Prop := False.

Lemma exTame id : tameCode exReg [] exCall exCall exProvider exEnv exUser id.
Proof.
  assert (∀ info c p, quiet exUser (exCall info c p)) as Hcall.
  { intros info c p. apply quiet_bind; [|intros _; apply quiet_ret].
    intros s. unfold TriggerRefreshCtx. destruct (refreshQueueOf c); [by apply ext_log|apply ext_refl]. }
  split; [done|done|done|done|constructor| |done]. intros m. unfold GetMiddleware, exReg, NewRegistry, lookupMethod. simpl.
  rewrite !lookup_empty. destruct (cutDot m) as [[g n]|]; rewrite ?lookup_empty; constructor.
Defined.

Definition exRequest : St * out unit :=
  handleRequest exReg [] exCall exCall exProvider 1 true true None exSend (λ _, true) (λ _, false)
    exEncode exFallback exBinary exEnv "7" "Users.Add" "[]" exInfo exState.


(** The same request canceled after its handler succeeded: the client is told it was
    canceled, and the triggers the handler queued are never flushed. *)
Definition exLateCancel (n : nat) (s : St) : St :=
  if decide (n = 2)
  then State (Some ErrClientCanceled) (st_closed s) (st_next s) (st_queues s) (st_keys s)
         (st_hooks s) (st_subs s) (st_log s)
  else s.

Lemma canceled_success_drops_triggers :
  st_log (handleRequest exReg [] exCall exCall exProvider 1 true true None exSend (λ _, true) (λ _, false)
    exEncode exFallback exBinary exLateCancel "7" "Users.Add" "[]" exInfo exState).1 =
  [Handed true (Protocol.sendError "7" CodeCanceled "request canceled");
   Observed "Users.Add" false CodeCanceled; Unregistered "7"; RequestDone].
Proof. vm_compute. reflexivity. Qed.

Definition exSubscribe : St * out unit :=
  runSubscribe exReg [] exCall exCall exProvider 1 true true 10 (λ _, true) (λ _, false)
    exEncode exFallback exBinary exEnv "8" "Users.Add" "[]" false exInfo exState.


Definition exSub : subscription := Subscription 1 "8" "Users.Add" {["users"]} "[]" false.

Definition exRefresh : St * out unit :=
  refreshSubscription exReg [] exCall exCall exProvider 1 true (λ _, true) (λ _, false)
    exEncode exFallback exBinary exEnv exSub true exState.

Lemma refresh_replies_at_most_once_witness : exRefresh.2 = Ret ().
Proof.
  exact (proj1 (refresh_replies_at_most_once exReg [] exCall exCall exProvider 1 true exSend
    (λ _, true) (λ _, false) exEncode exFallback exBinary exEnv exUser exSub true exState
    exRefresh.1 exRefresh.2 (exTame "8") (surjective_pairing _))).
Defined.

End Dispatch.

Module Gate.
Import Protocol Registry.

(** ** The read loop and the authentication gate *)

Inductive MessageType :=
  | TypeRequest | TypeSubscribe | TypeUnsubscribe | TypeCancel | TypeAuth | TypeUnknown.

#[export] Instance MessageType_eq_dec : EqDecision MessageType.
Proof. solve_decision. Defined.

Record IncomingMessage := Incoming {
  im_type : MessageType; im_id : string; im_method : string; im_params : string;
  im_patch : bool; im_token : string;
}.

(** How a call of the auth hook ends. *)
Inductive hookEnd := HookNil | HookErr (e : goerr) | HookPanics.

(** The auth timer: not running, armed, or past its check and about to fire. *)
Inductive timer := TimerOff | TimerArmed | TimerFiring.

Record gate := Gate { g_authenticated : bool; g_closed : bool; g_timer : timer }.

(** What the read loop does with a frame. *)
Inductive act :=
  | Send (f : frame)
  | Run (msg : IncomingMessage) (info : HandlerInfo) (subscribe : bool)
  | CancelRequest (id : string)
  | Unsubscribe (id : string)
  | Close
  | ObserveReject (method : string) (subscribe : bool) (code : Z)
  | LogPanic.

Section Loop.
  Context {M : Type} (reg : @Registry M).
  Context (hookRegistered allowAnonymous observer : bool).

(** [authEnabled] and [authRequired]. *)
Definition authEnabled : bool := hookRegistered.
Definition authRequired : bool := hookRegistered && negb allowAnonymous.

(** [rejectFrame]: the frame and the observer carry the same code. *)
Definition rejectFrame (msg : IncomingMessage) (subscribe : bool) (code : Z) (message : string)
    : list act :=
  Send (sendError (im_id msg) code message) ::
  (if observer then [ObserveReject (im_method msg) subscribe code] else []).

(** [lookupRunnable]. *)
Definition lookupRunnable (msg : IncomingMessage) (subscribe : bool) : HandlerInfo + list act :=
  match Get reg (im_method msg) with
  | None => inr (rejectFrame msg subscribe CodeMethodNotFound
                   ("method not found: " +:+ im_method msg))
  | Some info =>
      if subscribe && negb (bool_decide (hi_kind info = HandlerKindUnary))
      then inr (rejectFrame msg subscribe CodeInvalidRequest
                  ("streaming handlers cannot be subscribed: " +:+ im_method msg))
      else inl info
  end.

(** [dispatchRequest] and [dispatchSubscribe]; [slot] is whether a slot was free. *)
Definition dispatch (msg : IncomingMessage) (subscribe slot : bool) : list act :=
  match lookupRunnable msg subscribe with
  | inr acts => acts
  | inl info =>
      if slot then [Run msg info subscribe]
      else [Send (sendError (im_id msg) CodeTooManyRequests "too many concurrent requests")]
  end.

Definition dispatchRequest (msg : IncomingMessage) (slot : bool) : list act := dispatch msg false slot.
Definition dispatchSubscribe (msg : IncomingMessage) (slot : bool) : list act := dispatch msg true slot.

(** [runAuthHook]: a panic is logged and becomes an error that is not a protocol error. *)
Definition runAuthHook (h : hookEnd) : option goerr * list act :=
  match h with
  | HookNil => (None, [])
  | HookErr e => (Some e, [])
  | HookPanics => (Some (EOther 0 "aprot: auth hook panicked" []), [LogPanic])
  end.

Definition stopAuthTimer (t : timer) : timer := match t with TimerArmed => TimerOff | t => t end.

Definition authMessage (e : goerr) : string :=
  match e with EProto _ _ m _ _ => m | _ => "authentication failed" end.

Definition handleAuth (g : gate) (h : hookEnd) : gate * list act :=
  if negb authEnabled then (g, [Send FAuthOK])
  else
    let '(err, acts) := runAuthHook h in
    match err with
    | None =>
        (Gate true (g_closed g)
           (if g_authenticated g then g_timer g else stopAuthTimer (g_timer g)),
         acts ++ [Send FAuthOK])
    | Some e =>
        let acts := acts ++ [Send (FAuthError (authMessage e) false)] in
        if g_authenticated g then (g, acts)
        else (Gate false true (g_timer g), acts ++ [Close])
    end.

(** [handleIncomingMessage]; [None] is a frame that is not JSON. *)
Definition handleIncomingMessage (g : gate) (m : option IncomingMessage) (slot : bool) (h : hookEnd)
    : gate * list act :=
  match m with
  | None => (g, [Send (sendError "" CodeParseError "invalid JSON")])
  | Some msg =>
      if bool_decide (im_type msg = TypeAuth) then handleAuth g h
      else if authRequired && negb (g_authenticated g)
      then (g, [Send (FAuthError "authentication required" false)])
      else
        (g, match im_type msg with
            | TypeRequest => dispatchRequest msg slot
            | TypeSubscribe => dispatchSubscribe msg slot
            | TypeUnsubscribe => [CancelRequest (im_id msg); Unsubscribe (im_id msg)]
            | TypeCancel => [CancelRequest (im_id msg)]
            | _ => [Send (sendError (im_id msg) CodeInvalidRequest "unknown message type")]
            end)
  end.

(** [armAuthTimeout] on accept: the state of a new connection. *)
Definition newGate (authTimeout : Z) : gate :=
  Gate false false
    (if authRequired && bool_decide (0 < authTimeout)%Z then TimerArmed else TimerOff).

Inductive event :=
  | EvFrame (m : option IncomingMessage) (slot : bool) (h : hookEnd)
  | EvTimeout                  (** the timer expires and checks [isAuthenticated] *)
  | EvFire.                    (** its callback sends and closes *)

Definition step (g : gate) (e : event) : gate * list act :=
  match e with
  | EvFrame m slot h => handleIncomingMessage g m slot h
  | EvTimeout =>
      match g_timer g with
      | TimerArmed => (Gate (g_authenticated g) (g_closed g)
                         (if g_authenticated g then TimerOff else TimerFiring), [])
      | _ => (g, [])
      end
  | EvFire =>
      match g_timer g with
      | TimerFiring => (Gate (g_authenticated g) true TimerOff,
                        [Send (FAuthError "authentication timeout" true); Close])
      | _ => (g, [])
      end
  end.

Definition after (authTimeout : Z) (evs : list event) : gate :=
  runs (λ g e, (step g e).1) (newGate authTimeout) evs.

(** A token the hook accepted. *)
Definition accepts (e : event) : bool :=
  match e with
  | EvFrame (Some msg) _ HookNil => bool_decide (im_type msg = TypeAuth)
  | _ => false
  end.

(** An act on behalf of the caller. *)
Definition privileged (a : act) : bool :=
  match a with Run _ _ _ | CancelRequest _ | Unsubscribe _ => true | _ => false end.

Lemma handleAuth_authenticated g h :
  hookRegistered = true →
  g_authenticated (handleAuth g h).1 = g_authenticated g || (match h with HookNil => true | _ => false end).
Proof.
  intros Hh. unfold handleAuth, authEnabled. rewrite Hh. simpl.
  destruct h as [|e|]; simpl; [by rewrite orb_true_r|..]; destruct (g_authenticated g) eqn:E; simpl; by rewrite ?E.
Qed.

Lemma step_authenticated g e :
  hookRegistered = true → g_authenticated (step g e).1 = g_authenticated g || accepts e.
Proof.
  intros Hh. destruct e as [[msg|] slot h| |]; simpl; [|by rewrite orb_false_r|..].
  - case_bool_decide as Ht.
    + rewrite handleAuth_authenticated by done. destruct h; by rewrite ?bool_decide_true.
    + assert ((match h with HookNil => false | _ => false end) = false) as Hf by by destruct h.
      assert (g_authenticated (if authRequired && negb (g_authenticated g)
        then (g, [Send (FAuthError "authentication required" false)])
        else (g, match im_type msg with
            | TypeRequest => dispatchRequest msg slot
            | TypeSubscribe => dispatchSubscribe msg slot
            | TypeUnsubscribe => [CancelRequest (im_id msg); Unsubscribe (im_id msg)]
            | TypeCancel => [CancelRequest (im_id msg)]
            | _ => [Send (sendError (im_id msg) CodeInvalidRequest "unknown message type")]
            end)).1 = g_authenticated g) as -> by by destruct (_ && _).
      destruct h; by rewrite ?bool_decide_false, orb_false_r.
  - destruct (g_timer g); simpl; by rewrite orb_false_r.
  - destruct (g_timer g); simpl; by rewrite orb_false_r.
Qed.

Lemma after_authenticated t evs :
  hookRegistered = true → g_authenticated (after t evs) = existsb accepts evs.
Proof.
  intros Hh. unfold after. assert (∀ g, g_authenticated (runs (λ g e, (step g e).1) g evs) =
    g_authenticated g || existsb accepts evs) as H.
  { induction evs as [|e evs IH]; intros g; simpl; [by rewrite orb_false_r|].
    by rewrite IH, step_authenticated, orb_assoc by done. }
  by rewrite H.
Qed.

(** C8: the authentication gate holds. With a hook registered, a connection counts as
    authenticated exactly when the hook accepted one of its tokens. Unless anonymous
    connections are admitted, no frame runs, cancels or unsubscribes anything before
    that. A rejected token
    closes a connection that is still pending and leaves an authenticated one as it was;
    the client is told a protocol error's own message or the generic one, never the text
    of another error or of a panic. *)
Theorem auth_gate authTimeout evs e :
  hookRegistered = true →
  let g := after authTimeout evs in
  (g_authenticated g = true ↔ ∃ e, e ∈ evs ∧ accepts e = true) ∧
  (allowAnonymous = false → (∃ a, a ∈ (step g e).2 ∧ privileged a = true) →
   ∃ e, e ∈ evs ∧ accepts e = true) ∧
  (∀ m slot h, e = EvFrame (Some m) slot h → im_type m = TypeAuth → h ≠ HookNil →
     ∃ text, Send (FAuthError text false) ∈ (step g e).2 ∧
       (text = "authentication failed" ∨ ∃ i c k d, h = HookErr (EProto i c text k d)) ∧
       if g_authenticated g then (step g e).1 = g ∧ Close ∉ (step g e).2
       else g_closed (step g e).1 = true ∧ Close ∈ (step g e).2).
Proof.
  intros Hh g. assert (g_authenticated g = true ↔ ∃ e, e ∈ evs ∧ accepts e = true) as Hg.
  { unfold g. rewrite after_authenticated by done. rewrite existsb_exists.
    by setoid_rewrite list_elem_of_In. }
  split_and!; [done| |].
  - intros Ha (a & Hin & Hp). apply Hg. destruct (g_authenticated g) eqn:Eg; [done|]. exfalso.
    destruct e as [[msg|] slot h| |]; simpl in Hin.
    + unfold handleAuth, authEnabled, authRequired in Hin. rewrite Hh, Ha, Eg in Hin. simpl in Hin.
      case_bool_decide; [destruct h as [|e|]; simpl in Hin|];
        repeat (apply elem_of_cons in Hin as [->|Hin]; [done|]); by apply not_elem_of_nil in Hin.
    + apply list_elem_of_singleton in Hin as ->. done.
    + destruct (g_timer g); by apply not_elem_of_nil in Hin.
    + destruct (g_timer g); repeat (apply elem_of_cons in Hin as [->|Hin]; [done|]);
        by apply not_elem_of_nil in Hin.
  - intros m slot h -> Ht Hn. simpl. rewrite bool_decide_true by done.
    unfold handleAuth, authEnabled. rewrite Hh. simpl. destruct h as [|err|]; [done|..]; simpl.
    + exists (authMessage err). destruct (g_authenticated g); simpl; (split_and!;
        [set_solver|destruct err; simpl; eauto 10|set_solver..]).
    + exists "authentication failed". destruct (g_authenticated g); simpl; (split_and!;
        [set_solver|by left|set_solver..]).
Qed.

End Loop.

Definition exAuth : event :=
  EvFrame (Some (Incoming TypeAuth "" "" "" false "t")) true (HookErr (EOther 1 "dial tcp: refused" [])).

Lemma auth_gate_witness :
  Send (FAuthError "authentication failed" false) ∈
    (step (M := nat) NewRegistry true false true (newGate true false 10) exAuth).2.
Proof.
  destruct (proj2 (proj2 (auth_gate (M := nat) NewRegistry true false true 10 [] exAuth eq_refl))
    _ _ _ eq_refl eq_refl ltac:(done)) as (text & Hin & [->|(i & c & k & d & Heq)] & _).
  - exact Hin.
  - discriminate Heq.
Defined.

End Gate.
