(* ===== verification/Rest.v ===== *)
(** * Rest: the REST adapter (rest.go)

    [Module Routes] derives a route from a registered handler and turns a request's path
    values and body into the positional parameter array. [Module Adapter] is
    [handleRequest]: the adapter's middleware around [invoke] (or around the group chain
    when no server is attached), the error mapping, the response and the flush. The
    naming plugin and the parameter names read from source are parameters; so are the
    JSON library and float parsing. *)

From S2P Require Import Prelude Protocol Runes Transform Registry Streaming Subscriptions.
From S2P Require Import Pipeline Dispatch.
From stdpp Require Import prelude gmap strings list fin_maps fin_sets sorting pretty.
From Stdlib Require Import Ascii.

Module Routes.
Import Protocol Transform Registry.

(** ** Routes *)

Inductive HTTPMethod := HTTPGet | HTTPPost | HTTPPut | HTTPPatch | HTTPDelete.

#[export] Instance HTTPMethod_eq_dec : EqDecision HTTPMethod.
Proof. solve_decision. Defined.

Definition methodText (m : HTTPMethod) : string :=
  match m with
  | HTTPGet => "GET" | HTTPPost => "POST" | HTTPPut => "PUT" | HTTPPatch => "PATCH"
  | HTTPDelete => "DELETE"
  end.

Record routeParam := RouteParam { rp_name : string; rp_info : ParamInfo }.

Record RouteInfo := Route {
  rt_httpMethod : HTTPMethod;
  rt_pattern : string;
  rt_path : string;
  rt_groupName : string;
  rt_methodName : string;
  rt_wireMethod : string;
  rt_pathParams : list routeParam;
  rt_bodyParam : option ParamInfo;
  rt_info : HandlerInfo;
}.

(** [inferHTTPMethod]: the first prefix that fits decides. *)
Definition methodPrefixes : list (string * HTTPMethod) :=
  [("Get", HTTPGet); ("List", HTTPGet); ("Find", HTTPGet); ("Create", HTTPPost);
   ("Add", HTTPPost); ("Update", HTTPPut); ("Set", HTTPPatch); ("Delete", HTTPDelete);
   ("Remove", HTTPDelete)].

Definition inferHTTPMethod (methodName : string) : HTTPMethod :=
  match find (λ pm, String.prefix pm.1 methodName) methodPrefixes with
  | Some (_, m) => m
  | None => HTTPPost
  end.

(** [pt.Kind() == reflect.Struct] after one dereference. *)
Definition isBodyParam (p : ParamInfo) : bool :=
  match unptr (pi_type p) with TStruct _ => true | _ => false end.

(** The loop over the parameters: [i] is the index, the last struct wins. *)
Fixpoint splitParams (names : list string) (i : nat) (ps : list ParamInfo)
    (path : list routeParam) (body : option ParamInfo) : list routeParam * option ParamInfo :=
  match ps with
  | [] => (path, body)
  | p :: ps =>
      if isBodyParam p then splitParams names (S i) ps path (Some p)
      else
        let name := match names !! i with Some n => n | None => "arg" +:+ pretty i end in
        splitParams names (S i) ps (path ++ [RouteParam name p]) body
  end.

Section Build.
  Context (PathPrefix PathSegment : string → string).
  Context (paramNames : string → string → list string).

Definition routeFor (groupName methodName : string) (info : HandlerInfo) : RouteInfo :=
  let m := inferHTTPMethod methodName in
  let '(path, body) := splitParams (paramNames (hi_structName info) (hi_name info)) 0
                         (hi_params info) [] None in
  let p := PathPrefix groupName +:+ "/" +:+ PathSegment methodName +:+
           String.concat "" ((λ pp, "/{" +:+ rp_name pp +:+ "}") <$> path) in
  Route m (methodText m +:+ " " +:+ p) p groupName methodName
    (groupName +:+ "." +:+ methodName) path body info.

(** [sort.Strings]. *)
Definition sortStrings (l : list string) : list string :=
  merge_sort (λ a b, Is_true (String.leb a b)) l.

Definition buildRoutes {M} (reg : @Registry M) : list RouteInfo :=
  groupName ← sortStrings (elements (dom (r_groups reg)));
  if decide (groupName ∈ r_restGroups reg) then
    match r_groups reg !! groupName with
    | None => []
    | Some g =>
        omap (λ methodName, routeFor groupName methodName <$> (gr_handlers g !! methodName))
          (sortStrings (elements (dom (gr_handlers g))))
    end
  else [].

End Build.

(** ** Path parameters *)

(** A converted value: raw JSON, or a string still to be marshaled. *)
Inductive pathVal := Raw (json : string) | Str (s : string).

Definition digit (c : ascii) : option Z :=
  let n := N_of_ascii c in
  if bool_decide (48 ≤ n ∧ n ≤ 57)%N then Some (Z.of_N (n - 48)) else None.

Fixpoint digits (s : string) (acc : Z) : option Z :=
  match s with
  | EmptyString => Some acc
  | String c s => d ← digit c; digits s (10 * acc + d)%Z
  end.

(** [strconv.ParseUint(s, 10, 64)] and [strconv.ParseInt(s, 10, 64)]. *)
Definition ParseUint (s : string) : option Z :=
  match s with
  | EmptyString => None
  | _ => n ← digits s 0; if bool_decide (n < 2 ^ 64)%Z then Some n else None
  end.

Definition ParseInt (s : string) : option Z :=
  let '(neg, t) := match s with
                   | String "-" t => (true, t)
                   | String "+" t => (false, t)
                   | _ => (false, s)
                   end in
  n ← ParseUint t;
  if neg : bool then (if bool_decide (n ≤ 2 ^ 63)%Z then Some (- n)%Z else None)
  else (if bool_decide (n < 2 ^ 63)%Z then Some n else None).

Definition ParseBool (s : string) : option bool :=
  if bool_decide (s ∈ ["1"; "t"; "T"; "TRUE"; "true"; "True"]) then Some true
  else if bool_decide (s ∈ ["0"; "f"; "F"; "FALSE"; "false"; "False"]) then Some false
  else None.

Section Params.
  (** [strconv.ParseFloat] and its formatting: [None] is a parse error or a value that is
      not finite. *)
  Context (convertFloat : string → option string).
  (** [marshalJSON] of a string; invalid UTF-8 fails. *)
  Context (encodeString : string → option string).

Definition convertPathParam (val : string) (t : goType) : option pathVal :=
  match unptr t with
  | TBasic KInt => n ← ParseInt val; Some (Raw (pretty n))
  | TBasic KUint => n ← ParseUint val; Some (Raw (pretty n))
  | TBasic KFloat => Raw <$> convertFloat val
  | TBasic KBool => b ← ParseBool val; Some (Raw (if b : bool then "true" else "false"))
  | _ => Some (Str val)
  end.

Definition marshalPart (p : pathVal) : option string :=
  match p with Raw j => Some j | Str s => encodeString s end.

(** [marshalJSONParams]. *)
Definition marshalJSONParams (ps : list pathVal) : option string :=
  parts ← mapM marshalPart ps;
  Some ("[" +:+ String.concat "," parts +:+ "]").

(** Why a request is refused before its handler. *)
Inductive badRequest := BadPathParam (name : string) | BodyUnread | BodyRequired | BadParams.

Fixpoint convertPath (pathValue : string → string) (pps : list routeParam)
    : res badRequest (list pathVal) :=
  match pps with
  | [] => Ok []
  | pp :: pps =>
      match convertPathParam (pathValue (rp_name pp)) (pi_type (rp_info pp)) with
      | None => Err (BadPathParam (rp_name pp))
      | Some v => vs ← convertPath pathValue pps; Ok (v :: vs)
      end
  end.

(** The parameters in the order of the array: the path's, then the body; [body] is what
    reading the request body gave. *)
Definition jsonParams (rt : RouteInfo) (pathValue : string → string) (body : option string)
    : res badRequest (list pathVal) :=
  vs ← convertPath pathValue (rt_pathParams rt);
  match rt_bodyParam rt with
  | None => Ok vs
  | Some _ =>
      match body with
      | None => Err BodyUnread
      | Some EmptyString =>
          if bool_decide (rt_httpMethod rt = HTTPGet) then Ok vs else Err BodyRequired
      | Some b => Ok (vs ++ [Raw b])
      end
  end.

Definition requestParams (rt : RouteInfo) (pathValue : string → string) (body : option string)
    : res badRequest string :=
  ps ← jsonParams rt pathValue body;
  match ps with
  | [] => Ok EmptyString
  | _ => match marshalJSONParams ps with Some s => Ok s | None => Err BadParams end
  end.

(** ** Facts *)

(** The parameters the array carries, in its order. *)
Definition carried (rt : RouteInfo) : list ParamInfo :=
  (rp_info <$> rt_pathParams rt) ++ option_list (rt_bodyParam rt).

(** Scalars first, then at most one struct. *)
Fixpoint scalarsFirst (ps : list ParamInfo) : bool :=
  match ps with
  | [] => true
  | [p] => true
  | p :: ps => negb (isBodyParam p) && scalarsFirst ps
  end.

Lemma splitParams_spec names i ps path body :
  let r := splitParams names i ps path body in
  rp_info <$> r.1 = (rp_info <$> path) ++ filter (λ p, isBodyParam p = false) ps ∧
  r.2 = match last (filter (λ p, isBodyParam p = true) ps) with Some p => Some p | None => body end.
Proof.
  revert i path body. induction ps as [|p ps IH]; intros i path body; simpl; [by rewrite app_nil_r|].
  rewrite !filter_cons. destruct (isBodyParam p) eqn:E; simpl.
  - destruct (IH (S i) path (Some p)) as [H1 H2]. split; [done|]. rewrite H2, last_cons.
    by destruct (last _).
  - destruct (IH (S i) (path ++ [RouteParam (match names !! i with Some n => n
      | None => "arg" +:+ pretty i end) p]) body) as [H1 H2]. split; [|done].
    rewrite H1, fmap_app, <- app_assoc. done.
Qed.

Lemma carried_routeFor PP PS names g n info :
  carried (routeFor PP PS names g n info) =
  filter (λ p, isBodyParam p = false) (hi_params info) ++
  option_list (last (filter (λ p, isBodyParam p = true) (hi_params info))).
Proof.
  unfold carried, routeFor.
  destruct (splitParams_spec (names (hi_structName info) (hi_name info)) 0 (hi_params info) [] None)
    as [H1 H2].
  destruct (splitParams _ _ _ _ _) as [path body]. simpl in *. rewrite H1, H2. simpl.
  by destruct (last _).
Qed.

Lemma carried_scalarsFirst ps :
  filter (λ p, isBodyParam p = false) ps ++
  option_list (last (filter (λ p, isBodyParam p = true) ps)) = ps ↔ scalarsFirst ps = true.
Proof.
  induction ps as [|p ps IH]; [done|]. rewrite !filter_cons. destruct (isBodyParam p) eqn:E; simpl.
  - destruct ps as [|q ps]; [done|]. simpl scalarsFirst. rewrite E. simpl. split; [|done].
    intros H. exfalso. destruct (filter (λ p, isBodyParam p = false) (q :: ps)) as [|r l] eqn:El.
    + simpl in H. destruct (last _) eqn:EL in H; discriminate H.
    + injection H as -> _. assert (p ∈ filter (λ p, isBodyParam p = false) (q :: ps)) as Hin
        by (rewrite El; left). apply list_elem_of_filter in Hin as [Hin _]. congruence.
  - destruct ps as [|q ps]; [done|]. rewrite E. simpl negb. simpl andb. rewrite <- IH.
    split; [by intros [= H]|by intros ->].
Qed.

(** What may be sent for a parameter. *)
Definition partFor (pathValue : string → string) (rt : RouteInfo) (body : option string)
    (v : pathVal) (p : ParamInfo) : Prop :=
  (isBodyParam p = false ∧ ∃ name, RouteParam name p ∈ rt_pathParams rt ∧
     convertPathParam (pathValue name) (pi_type p) = Some v) ∨
  (rt_bodyParam rt = Some p ∧ ∃ b, body = Some b ∧ b ≠ "" ∧ v = Raw b).

Lemma convertPath_parts pv rt body pps vs :
  Forall (λ pp, pp ∈ rt_pathParams rt ∧ isBodyParam (rp_info pp) = false) pps →
  convertPath pv pps = Ok vs → Forall2 (partFor pv rt body) vs (rp_info <$> pps).
Proof.
  intros Hpps. revert vs. induction Hpps as [|[nm p] pps [Hin Hs] _ IH]; intros vs; simpl.
  - intros [= <-]. constructor.
  - destruct (convertPathParam _ _) as [v|] eqn:E; [|done]. intros H.
    apply bind_Ok in H as (vs' & Hvs & [= <-]). constructor; [|by apply IH].
    left. split; [done|]. by exists nm.
Qed.

Lemma routeFor_path PP PS names g n info :
  let rt := routeFor PP PS names g n info in
  Forall (λ pp, pp ∈ rt_pathParams rt ∧ isBodyParam (rp_info pp) = false) (rt_pathParams rt).
Proof.
  apply Forall_forall. intros pp Hpp. split; [done|]. unfold routeFor in Hpp.
  destruct (splitParams_spec (names (hi_structName info) (hi_name info)) 0 (hi_params info) [] None)
    as [H1 _]. destruct (splitParams _ _ _ _ _) as [path bp]. simpl in *.
  apply (list_elem_of_fmap_2 rp_info) in Hpp. rewrite H1 in Hpp.
  by apply list_elem_of_filter in Hpp as [? _].
Qed.

(** A REST request reaches its handler's parameters. When a route accepts a request,
    the positional array holds, in order, one part for each parameter the route carries: a
    path parameter's value converted to its type's JSON, then the body. The carried
    parameters are the method's own, in the method's own positions, exactly when its
    scalars come first and it has at most one struct; for any other signature (a struct
    before a scalar, or two structs, both of which registration accepts) the array cannot
    line up with the method. *)
Theorem rest_params_positional PP PS names g n info pv body vs :
  let rt := routeFor PP PS names g n info in
  jsonParams rt pv body = Ok vs →
  rt_bodyParam rt = None ∨ body ≠ Some "" →
  Forall2 (partFor pv rt body) vs (carried rt) ∧
  (carried rt = hi_params info ↔ scalarsFirst (hi_params info) = true).
Proof.
  intros rt Hj Hb. split; [|by rewrite <- carried_scalarsFirst, <- (carried_routeFor PP PS names g n info)].
  unfold jsonParams in Hj. apply bind_Ok in Hj as (ws & Hw & Hj). unfold carried.
  assert (Forall2 (partFor pv rt body) ws (rp_info <$> rt_pathParams rt)) as Hpath
    by (apply convertPath_parts; [apply routeFor_path|done]).
  destruct (rt_bodyParam rt) as [bp|] eqn:Eb; [|injection Hj as <-; by rewrite app_nil_r].
  destruct body as [[|c b]|]; [by destruct Hb|injection Hj as <-|done].
  apply Forall2_app; [done|]. constructor; [|constructor]. right. split; [done|]. by eexists.
Qed.

End Params.

(** *** Concrete run: [func(ctx, id int, req *Req)] *)

Definition exIntParam : ParamInfo := Param (TBasic KInt) false.
Definition exBodyParam : ParamInfo := Param (TPtr (TStruct "Req")) false.
Definition exRoute (ps : list ParamInfo) : RouteInfo :=
  routeFor (λ g, "/" +:+ g) (λ m, m) (λ _ _, ["id"; "req"]) "users" "UpdateUser"
    (Info "UpdateUser" ps (TStruct "R") "Users" false HandlerKindUnary None).

Definition exFloat (_ : string) : option string := None.

Lemma rest_params_positional_witness :
  rt_pattern (exRoute [exIntParam; exBodyParam]) = "PUT /users/UpdateUser/{id}" ∧
  carried (exRoute [exIntParam; exBodyParam]) = [exIntParam; exBodyParam] ∧
  carried (exRoute [exBodyParam; exIntParam]) = [exIntParam; exBodyParam].
Proof.
  split; [vm_compute; reflexivity|]. split; [|vm_compute; reflexivity].
  refine (proj2 (proj2 (rest_params_positional exFloat _ _ _ _ _
    (Info "UpdateUser" [exIntParam; exBodyParam] (TStruct "R") "Users" false HandlerKindUnary None)
    (λ _, "7") (Some "{}") [Raw "7"; Raw "{}"] _ _)) _).
  - vm_compute. reflexivity.
  - right. discriminate.
  - reflexivity.
Defined.

End Routes.

Module Adapter.
Import Protocol Transform Registry Pipeline Routes.

Section Code.
  Context {P V : Type}.
  Abbreviation ctx := (@ctx P).
  Abbreviation result := (@result V).
  Abbreviation Middleware := (@Middleware P V).
  Context (reg : @Registry Middleware).
  Context (Call CallStream : HandlerInfo → ctx → string → M (res goerr result)).
  Context (provider : nat → option (ctx → M (res goerr P))).
  (** The adapter's middleware, and the attached server's, if any. *)
  Context (middleware : list Middleware) (server : option (list Middleware)).
  Context (convertFloat encodeString : string → option string).
  (** The JSON library's verdict on a result and on the [Data] of an error; the other fields
      of an error message always marshal. *)
  Context (encode : result → Dispatch.encoding) (encodeData : string → Dispatch.encoding).

(** [writeJSONErrorData]: the status line goes out first; a payload that cannot be marshaled
    leaves the body empty, and a panic of its marshaler comes after the status line. *)
Definition writeJSONErrorData (status : Z) (m : ErrorMessage) : M unit :=
  match encodeData <$> em_data m with
  | Some (Dispatch.EncPanic abort) => _ ← emit (WroteHeader status); throw abort
  | _ =>
      emit (Wrote status
        (match restErrorBody (λ d, match encodeData d with Dispatch.EncOk _ => true | _ => false end) m with
         | Some m => BodyError m
         | None => NoBody
         end))
  end.

Definition writeJSONError (status code : Z) (message : string) : M unit :=
  writeJSONErrorData status (ErrorMsg "" code message None).

(** The chain without a server, and the adapter's middleware around a handler. *)
Definition wrapAdapterMiddleware (h : Handler) : Handler := wrapDown middleware (length middleware) h.

Definition restHandler (info : HandlerInfo) : Handler :=
  let groupMW := GroupMiddleware reg (hi_structName info) in
  wrapAdapterMiddleware
    (wrapDown groupMW (length groupMW) (λ c req, Call info c (rq_params req))).

(** The handler of a route. *)
Definition routeHandler (info : HandlerInfo) : Handler :=
  match server with
  | Some serverMW =>
      wrapAdapterMiddleware (λ c req, invoke reg serverMW Call CallStream provider c info req)
  | None => restHandler info
  end.

Definition badMessage (b : badRequest) : string :=
  match b with
  | BadPathParam name => "invalid value for path parameter " +:+ name
  | BodyUnread => "failed to read request body"
  | BodyRequired => "request body is required"
  | BadParams => "failed to marshal params"
  end.

(** What follows the handler: the error mapping, or the response. *)
Definition respond (info : HandlerInfo) (r : res goerr result) : M unit :=
  match r with
  | Err e =>
      let '(status, m) := restError (r_errorMappings reg) e in writeJSONErrorData status m
  | Ok v =>
      if hi_isVoid info then emit (Wrote 204 NoBody)
      else match encode v with
           | Dispatch.EncOk data => emit (Wrote 200 (BodyJSON data))
           | Dispatch.EncErr _ =>
               writeJSONError 500 CodeInternalError "failed to marshal response"
           | Dispatch.EncPanic abort => throw abort
           end
  end.

(** The refresh queue, installed only with a server. *)
Definition restQueue (c : ctx) : M (ctx * option nat) :=
  match server with
  | None => mret (c, None)
  | Some _ => q ← newQueue; mret (VRefreshQueue q :: c, Some q)
  end.

(** The first part of [handleRequest]: a refused request, or the refresh queue and how the
    handler ended. *)
Definition restHandled (rt : RouteInfo) (c : ctx) (pathValue : string → string)
    (body : option string) : M (badRequest + option nat * res goerr result) :=
  match requestParams convertFloat encodeString rt pathValue body with
  | Err b => mret (inl b)
  | Ok params =>
      let req := Req "" (rt_wireMethod rt) params in
      rq ← restQueue (VRequest req :: VHandlerInfo (rt_info rt) :: c);
      let '(c, q) := rq in
      r ← recover (invokeRecover (rt_wireMethod rt)) (routeHandler (rt_info rt) c req);
      mret (inr (q, r))
  end.

(** The rest: the response, with the flush deferred until after it. *)
Definition restReply (rt : RouteInfo) (h : badRequest + option nat * res goerr result) : M unit :=
  match h with
  | inl b => writeJSONError 400 CodeInvalidParams (badMessage b)
  | inr (Some q, Ok v) => finally (processRefreshQueue q) (respond (rt_info rt) (Ok v))
  | inr (_, r) => respond (rt_info rt) r
  end.

(** The body of [handleRequest] under its outer recover. *)
Definition restBody (rt : RouteInfo) (c : ctx) (pathValue : string → string)
    (body : option string) : M unit :=
  h ← restHandled rt c pathValue body; restReply rt h.

Definition wrote (e : ev) : bool := match e with Wrote _ _ => true | _ => false end.

(** [handleRequest]. [wroteResponse] is whether the request's own log has a response: the
    code sets it on the paths after which something can still run, the deferred flush. *)
Definition handleRequest (rt : RouteInfo) (c : ctx) (pathValue : string → string)
    (body : option string) : M unit :=
  n ← reads (λ s, length (st_log s));
  recover (λ abort,
      if abort : bool then throw true
      else
        _ ← emit (LoggedPanic (rt_wireMethod rt));
        done ← reads (λ s, existsb wrote (drop n (st_log s)));
        if done : bool then mret ()
        else writeJSONError 500 CodeInternalError "handler panicked")
    (restBody rt c pathValue body).

(** ** One response *)

(** The contexts the adapter hands on: with a refresh queue when a server is attached. *)
Definition carriesQueue (c : ctx) : Prop := server = None ∨ is_Some (refreshQueueOf c).

(** A handler that, in such contexts, only adds events satisfying [E]. *)
Definition handlerQuiet (E : ev → Prop) (h : @Handler P V) : Prop :=
  ∀ c r, carriesQueue c → quiet E (h c r).

(** [U] is what the user code does on its own account; it writes no response, for it never
    sees the [ResponseWriter]. Middleware adds its own events to those of the handler it
    wraps, which it calls with contexts derived from its own. *)
Record muteCode (U : ev → Prop) : Prop := {
  mc_user e : U e → wrote e = false;
  mc_call info (c : ctx) p : quiet U (Call info c p);
  mc_callStream info (c : ctx) p : quiet U (CallStream info c p);
  mc_provider k p (c : ctx) : provider k = Some p → quiet U (p c);
  mc_adapter E : (∀ e, U e → E e) →
    Forall (λ mw : Middleware, ∀ h, handlerQuiet E h → handlerQuiet E (mw h)) middleware;
  mc_server mws : server = Some mws →
    Forall (λ mw : Middleware, ∀ h, handlerQuiet U h → handlerQuiet U (mw h)) mws;
  mc_group g : Forall (λ mw : Middleware, ∀ h, handlerQuiet U h → handlerQuiet U (mw h))
    (GroupMiddleware reg g);
}.

(** What comes before a response: the user code's events, and recovered panics. Not a
    flush. *)
Definition beforeEv (U : ev → Prop) (e : ev) : Prop :=
  U e ∨ match e with LoggedPanic _ => True | _ => False end.

(** The keys flushed: those queued by a handler that succeeded, with a server attached. *)
Definition owed (h : St * out (badRequest + option nat * res goerr result)) : list string :=
  match h with (s1, Ret (inr (Some q, Ok _))) => queueOf s1 q | _ => [] end.

(** The marshaler of the successful result panics, and whether it aborts. *)
Definition resultPanics (info : HandlerInfo) (h : badRequest + option nat * res goerr result)
    : option bool :=
  match h with
  | inr (_, Ok v) =>
      if hi_isVoid info then None
      else match encode v with Dispatch.EncPanic abort => Some abort | _ => None end
  | _ => None
  end.

Definition internalError : ErrorMessage := ErrorMsg "" CodeInternalError "handler panicked" None.

(** A response: a status line with its body, or a status line whose error body's marshaler
    panicked, followed by the internal error ([net/http] drops the second status line). *)
Inductive response (method : string) : list ev → Prop :=
  | ResponseWritten status body : response method [Wrote status body]
  | ResponsePanicked status :
      response method [WroteHeader status; LoggedPanic method; Wrote 500 (BodyError internalError)].

Lemma quiet_wrapDown E mws h :
  Forall (λ mw : Middleware, ∀ h, handlerQuiet E h → handlerQuiet E (mw h)) mws →
  handlerQuiet E h → handlerQuiet E (wrapDown mws (length mws) h).
Proof.
  intros Hm Hh. rewrite wrapDown_foldr. induction Hm as [|mw mws Hmw _ IH]; simpl; [done|].
  by apply Hmw.
Qed.

Section Muted.
  Context (U : ev → Prop) (Hmute : muteCode U).
  Abbreviation before := (beforeEv U).

Lemma adapter_quiet_user {A} (m : M A) : quiet U m → quiet before m.
Proof. apply quiet_mono. by left. Qed.

Lemma quiet_invokeRecover method b : quiet before (@invokeRecover V method b).
Proof.
  unfold invokeRecover. destruct b; [apply quiet_throw|].
  apply quiet_bind; [apply quiet_emit; by right|intros ?; apply quiet_ret].
Qed.

Lemma adapter_quiet_buildHandler mws info :
  server = Some mws → handlerQuiet U (buildHandler reg mws Call CallStream info).
Proof.
  intros Hs. unfold buildHandler. apply quiet_wrapDown; [by apply mc_server|].
  apply quiet_wrapDown.
  - unfold GetMiddleware. destruct (lookupMethod _ _); [by apply mc_group|constructor].
  - intros c r _. unfold final. destruct (_ || _); [by apply mc_callStream|by apply mc_call].
Qed.

(** With the adapter's queue in the context, [invoke] does not flush. *)
Lemma adapter_quiet_invoke mws info :
  server = Some mws →
  handlerQuiet before (λ c req, invoke reg mws Call CallStream provider c info req).
Proof.
  intros Hs c req [Hn|Hq]; [congruence|]. unfold invoke.
  apply quiet_recover; [|intros b; apply quiet_invokeRecover].
  assert (quiet before (invokePrincipal provider c)) as Hp.
  { unfold invokePrincipal. destruct (principalResolved c); [apply quiet_ret|].
    destruct (Connection c) as [k|]; [|apply quiet_ret]. unfold resolvePrincipal.
    destruct (provider k) as [p|] eqn:E; [|apply quiet_ret].
    apply quiet_bind; [by eapply adapter_quiet_user, mc_provider|]. intros [v|e]; apply quiet_ret. }
  intros s. specialize (Hp s). unfold mbind at 1, M_bind at 1.
  destruct (invokePrincipal provider c s) as [s1 [[c1 [e|]]|b]] eqn:Ep; try done.
  eapply ext_trans; [done|]. apply invokePrincipal_ctx in Ep as (_ & Hq1 & _).
  destruct Hq as [q Hq]. rewrite Hq in Hq1. unfold invokeQueue.
  change (refreshQueueOf (VRequest req :: VHandlerInfo info :: c1)) with (refreshQueueOf c1).
  rewrite Hq1. cbn. apply (quiet_bind before (buildHandler _ _ _ _ _ _ _)); [|intros [v|e] s'; apply ext_refl].
  apply adapter_quiet_user, adapter_quiet_buildHandler; [done|]. right. exists q. by cbn.
Qed.

Lemma quiet_routeHandler info : handlerQuiet before (routeHandler info).
Proof.
  unfold routeHandler, restHandler, wrapAdapterMiddleware. destruct server as [mws|] eqn:E.
  - apply quiet_wrapDown; [by apply (mc_adapter _ Hmute); left|]. by apply adapter_quiet_invoke.
  - apply quiet_wrapDown; [by apply (mc_adapter _ Hmute); left|]. intros c r Hc.
    apply adapter_quiet_user. revert Hc. apply quiet_wrapDown; [by apply mc_group|].
    intros c' r' _. by apply mc_call.
Qed.

Lemma restHandled_quiet rt c pv body : quiet before (restHandled rt c pv body).
Proof.
  unfold restHandled. destruct (requestParams _ _ _ _ _) as [params|b]; [|apply quiet_ret].
  set (c0 := _ :: _ :: c). intros s.
  assert (∃ s1 c1 q, restQueue c0 s = (s1, Ret (c1, q)) ∧ st_log s1 = st_log s ∧ carriesQueue c1)
    as (s1 & c1 & q & Eq & Hl & Hc).
  { unfold restQueue, carriesQueue. destruct server; do 3 eexists; (split; [reflexivity|]);
      (split; [done|]); [right; by eexists|by left]. }
  rewrite (run_bind _ _ _ _ _ Eq). eapply ext_trans; [by apply ext_log|].
  apply quiet_bind; [|intros r; apply quiet_ret].
  apply quiet_recover; [by apply quiet_routeHandler|]. intros b. apply quiet_invokeRecover.
Qed.
(** How the reply ends: one response and then the flush; or a panic, of the result's
    marshaler (the deferred flush still runs), or of an error's once the status line is out. *)
Lemma restReply_ends rt h s :
  let '(s', o) := restReply rt h s in
  match resultPanics (rt_info rt) h with
  | Some abort => o = Panic abort ∧ st_log s' = st_log s ++ flushLog (owed (s, Ret h))
  | None =>
      (o = Ret () ∧ ∃ status body, st_log s' = st_log s ++ Wrote status body :: flushLog (owed (s, Ret h))) ∨
      (∃ abort status, o = Panic abort ∧ st_log s' = st_log s ++ [WroteHeader status] ∧
         owed (s, Ret h) = [])
  end.
Proof.
  assert (∀ r, match r with
    | Ok v => match (if hi_isVoid (rt_info rt) then None
                     else match encode v with Dispatch.EncPanic abort => Some abort | _ => None end) with
              | Some abort => respond (rt_info rt) r s = (s, Panic abort)
              | None => ∃ status body, respond (rt_info rt) r s = emit (Wrote status body) s
              end
    | Err e => (∃ status body, respond (rt_info rt) r s = emit (Wrote status body) s) ∨
               (∃ status abort, respond (rt_info rt) r s =
                  (withLog (st_log s ++ [WroteHeader status]) s, Panic abort))
    end) as Hr.
  { intros [v|e]; unfold respond.
    - destruct (hi_isVoid _); [eauto|]. destruct (encode v); eauto.
    - destruct (restError _ e) as [status [i c m [d|]]]; unfold writeJSONErrorData; simpl; [|eauto].
      unfold restErrorBody. simpl. destruct (encodeData d); eauto. }
  destruct h as [b|[[q|] [v|e]]]; cbn [restReply resultPanics owed].
  - left. split; [done|]. eauto.
  - unfold finally. specialize (Hr (Ok v)). cbv beta iota in Hr. destruct (if hi_isVoid _ then _ else _) as [ab|].
    + rewrite Hr. destruct (processRefreshQueue_run q s) as (s2 & -> & Hl & _). by split.
    + destruct Hr as (status & body & ->). cbn. set (s1 := withLog _ s).
      destruct (processRefreshQueue_run q s1) as (s2 & -> & Hl & _). left. split; [done|].
      exists status, body. rewrite Hl. unfold s1. simpl. by rewrite <- app_assoc.
  - specialize (Hr (Err e)). destruct Hr as [(st & bd & ->)|(st & ab & ->)]; [left|right]; simpl; eauto 6.
  - specialize (Hr (Ok v)). cbv beta iota in Hr. destruct (if hi_isVoid _ then _ else _) as [ab|].
    + rewrite Hr. by rewrite app_nil_r.
    + destruct Hr as (status & body & ->). left. simpl. eauto.
  - specialize (Hr (Err e)). destruct Hr as [(st & bd & ->)|(st & ab & ->)]; [left|right]; simpl; eauto 6.
Qed.

(** Events that are not a response leave [wroteResponse] unset. *)
Lemma not_wrote l : Forall (λ e, wrote e = false) l → existsb wrote l = false.
Proof. induction 1 as [|e l He _ IH]; [done|]. simpl. by rewrite He. Qed.

Lemma before_not_wrote u : Forall before u → existsb wrote u = false.
Proof.
  intros H. apply not_wrote. eapply Forall_impl; [done|].
  intros e [He|He]; [by eapply mc_user|by destruct e].
Qed.

Lemma flush_not_wrote keys : existsb wrote (flushLog keys) = false.
Proof. by destruct keys. Qed.

(** The outer recover: an abort passes, any other panic becomes the internal error. *)
Lemma handleRequest_run rt c pv body s s1 o u :
  restBody rt c pv body s = (s1, o) → st_log s1 = st_log s ++ u →
  (∀ abort, o = Panic abort → existsb wrote u = false) →
  ∃ s', handleRequest rt c pv body s =
      (s', match o with Panic true => Panic true | _ => Ret () end) ∧
    st_log s' = st_log s1 ++ match o with
      | Panic false => [LoggedPanic (rt_wireMethod rt); Wrote 500 (BodyError internalError)]
      | _ => []
      end.
Proof.
  intros E Hl Hw. unfold handleRequest. rewrite (run_bind (reads _) _ _ _ _ eq_refl).
  unfold recover. rewrite E. destruct o as [[]|[]].
  - exists s1. by rewrite app_nil_r.
  - exists s1. by rewrite app_nil_r.
  - unfold mbind, M_bind, emit, modify, reads. simpl. rewrite Hl, <- app_assoc, drop_app_length.
    rewrite existsb_app, (Hw false eq_refl). simpl. eexists. split; [reflexivity|].
    simpl. by rewrite <- !app_assoc.
Qed.

(** C10: a REST request gets exactly one HTTP response. Whatever its middleware, handler
    or marshalers do, [handleRequest] writes one response, after nothing but what the user
    code does on its own account, and then flushes exactly the keys that a successful
    handler queued. Two panics differ: when the marshaler of the successful result panics,
    the flush comes first and the internal error is the response; when the marshaler of an
    error's [Data] panics, the status line is the error's and the body the internal
    error's. No panic escapes but [http.ErrAbortHandler], which passes through to net/http
    with no body written. *)
Theorem rest_answered_once rt c pv body s s' o :
  handleRequest rt c pv body s = (s', o) →
  let h := restHandled rt c pv body s in
  ∃ u, Forall before u ∧
  ((o = Ret () ∧ ∃ w, response (rt_wireMethod rt) w ∧ st_log s' = st_log s ++ u ++ w ++ flushLog (owed h)) ∨
   (o = Ret () ∧ (∃ s1 a, h = (s1, Ret a) ∧ resultPanics (rt_info rt) a = Some false) ∧
    st_log s' = st_log s ++ u ++ flushLog (owed h) ++
      [LoggedPanic (rt_wireMethod rt); Wrote 500 (BodyError internalError)]) ∨
   (o = Panic true ∧ ∃ w, (w = [] ∨ w = flushLog (owed h) ∨ ∃ status, w = [WroteHeader status]) ∧
    st_log s' = st_log s ++ u ++ w)).
Proof.
  intros H h. pose proof (restHandled_quiet rt c pv body s) as (u & Hu & Fu).
  destruct (restBody rt c pv body s) as [s1 o1] eqn:E.
  pose proof E as E'. unfold restBody, mbind, M_bind in E'. fold h in E', Hu.
  destruct h as [s0 [a|b]] eqn:Eh; simpl in Hu.
  - pose proof (restReply_ends rt a s0) as Hr. rewrite E' in Hr.
    destruct (resultPanics (rt_info rt) a) as [ab|] eqn:Ep.
    + destruct Hr as [-> Hl1]. rewrite Hu, <- app_assoc in Hl1.
      destruct (handleRequest_run _ _ _ _ _ _ _ _ E Hl1) as (s2 & E2 & Hl2).
      { intros _ _. by rewrite existsb_app, before_not_wrote, flush_not_wrote. }
      rewrite H in E2. injection E2 as -> ->. exists u. split; [done|]. rewrite Hl2, Hl1, <- !app_assoc.
      destruct ab; right; [right|left]; rewrite ?app_nil_r; eauto 8.
    + destruct Hr as [(-> & status & bd & Hl1)|(ab & status & -> & Hl1 & Ho)];
        rewrite Hu, <- app_assoc in Hl1;
        (destruct (handleRequest_run _ _ _ _ _ _ _ _ E Hl1) as (s2 & E2 & Hl2);
          [intros ? ?; try done; by rewrite existsb_app, before_not_wrote|]);
        rewrite H in E2; injection E2 as -> ->; exists u; (split; [done|]);
        rewrite Hl2, Hl1, <- !app_assoc.
      * left. split; [done|]. exists [Wrote status bd]. split; [constructor|by rewrite app_nil_r].
      * destruct ab; [right; right|left]; (split; [done|]).
        { exists [WroteHeader status]. rewrite app_nil_r. eauto 6. }
        { exists [WroteHeader status; LoggedPanic (rt_wireMethod rt);
                  Wrote 500 (BodyError internalError)]. rewrite Ho. split; [constructor|done]. }
  - injection E' as <- <-. destruct (handleRequest_run _ _ _ _ _ _ _ _ E Hu) as (s2 & E2 & Hl2).
    { intros _ _. by apply before_not_wrote. }
    rewrite H in E2. injection E2 as -> ->. rewrite Hu in Hl2. destruct b.
    + exists u. split; [done|]. right. right. split; [done|]. exists []. rewrite Hl2, <- app_assoc. eauto.
    + exists (u ++ [LoggedPanic (rt_wireMethod rt)]).
      split; [apply Forall_app; split; [done|]; constructor; [by right|done]|].
      left. split; [done|]. exists [Wrote 500 (BodyError internalError)]. split; [constructor|].
      rewrite Hl2, <- !app_assoc. done.
Qed.

End Muted.

End Code.

(** *** Concrete run: the handler of Pipeline.v over REST, with a server attached *)

Definition exMarshal (_ : @result nat) : Dispatch.encoding := Dispatch.EncOk "7".

Definition exData (_ : string) : Dispatch.encoding := Dispatch.EncPanic false.

Definition exRest : St * out unit :=
  handleRequest Dispatch.exReg exCall exCall Dispatch.exProvider [] (Some []) exFloat
    (λ s, Some s) exMarshal exData (exRoute [exIntParam; exBodyParam]) [] (λ _, "42")
    (Some "{}") exState.

Lemma exMute : muteCode Dispatch.exReg exCall exCall Dispatch.exProvider [] (Some []) Dispatch.exUser.
Proof.
  assert (∀ info c p, quiet Dispatch.exUser (exCall info c p)) as Hcall.
  { intros info c p. apply quiet_bind; [|intros _; apply quiet_ret].
    intros s. apply ext_log. unfold TriggerRefreshCtx. by destruct (refreshQueueOf c). }
  split; [done|done|done|done|constructor|by intros ? [= <-]|].
  intros g. unfold GroupMiddleware, Dispatch.exReg, NewRegistry. simpl. by rewrite lookup_empty.
Defined.

Lemma rest_answered_once_witness :
  st_log exRest.1 = [Wrote 200 (BodyJSON "7"); Flushed ["users"]] ∧
  ∃ u, Forall (beforeEv Dispatch.exUser) u.
Proof.
  split; [vm_compute; reflexivity|].
  pose proof (rest_answered_once Dispatch.exReg exCall exCall Dispatch.exProvider [] (Some []) exFloat
    (λ s, Some s) exMarshal exData Dispatch.exUser exMute (exRoute [exIntParam; exBodyParam]) []
    (λ _, "42") (Some "{}") exState exRest.1 exRest.2 (surjective_pairing _)) as (u & Fu & _).
  by exists u.
Defined.

End Adapter.
