(* ===== verification/Tasks.v ===== *)
(** * Tasks: shared tasks, their trees, ownership and progress (tasks/)

    [Module Tree] models a task node with its subtree ([taskNode]) and the lifecycle
    methods; a method's section under one node's lock is a function on that node's
    record. [Module Manager] models [taskManager]: the registry of shared tasks, creation
    and cancellation, split where another goroutine can get in between, and the ownership
    rule. [Module Throttle] models the progress throttle. Task middleware is represented
    by the one end signal each node gives it: TaskHooks.v has its goroutine, and TaskApi.v the
    deliveries, the entry points of handlers and the writers. *)

From S2P Require Import Prelude Protocol Rest.
From stdpp Require Import prelude gmap strings list fin_maps fin_sets.
From Stdlib Require Import Ascii.

Module Ids.
Import Routes.

(** [itoa]: the digits are written from the end of a 20-byte buffer; [fuel] is the space
    left in it. *)
Fixpoint itoaLoop (fuel : nat) (n : Z) (acc : string) : string :=
  match fuel with
  | 0 => acc
  | S fuel =>
      if bool_decide (0 < n)%Z
      then itoaLoop fuel (n / 10) (String (ascii_of_N (Z.to_N (48 + n `mod` 10))) acc)
      else acc
  end.

Definition itoa (n : Z) : string := if bool_decide (n = 0)%Z then "0" else itoaLoop 20 n "".

Lemma digit_ascii d : (0 ≤ d < 10)%Z → digit (ascii_of_N (Z.to_N (48 + d))) = Some d.
Proof.
  intros Hd. unfold digit. rewrite N_ascii_embedding by lia.
  rewrite bool_decide_true by lia. f_equal. lia.
Qed.

Lemma itoaLoop_nonpos fuel n acc : (n ≤ 0)%Z → itoaLoop fuel n acc = acc.
Proof. intros Hn. destruct fuel; [done|]. simpl. by rewrite bool_decide_false by lia. Qed.

Lemma digits_itoaLoop fuel n acc :
  (0 ≤ n < 10 ^ Z.of_nat fuel)%Z → digits (itoaLoop fuel n acc) 0 = digits acc n.
Proof.
  revert n acc. induction fuel as [|fuel IH]; intros n acc Hn; simpl.
  - by assert (n = 0)%Z as -> by (simpl in Hn; lia).
  - case_bool_decide as Hp; [|by assert (n = 0)%Z as -> by lia].
    rewrite Nat2Z.inj_succ, Z.pow_succ_r in Hn by lia.
    pose proof (Z.mod_pos_bound n 10 ltac:(lia)). pose proof (Z.div_mod n 10 ltac:(lia)).
    rewrite IH by (split; [apply Z.div_pos; lia|apply Z.div_lt_upper_bound; lia]).
    cbn [digits]. rewrite digit_ascii by done. simpl. f_equal. lia.
Qed.

Lemma digits_itoa n : (0 ≤ n < 2 ^ 63)%Z → digits (itoa n) 0 = Some n.
Proof.
  intros Hn. unfold itoa. case_bool_decide; [by subst|].
  rewrite digits_itoaLoop; [done|]. change (Z.of_nat 20) with 20%Z. lia.
Qed.

(** [itoa] prints what it is given: for every non-negative [int64], and so for every
    task id's counter, the digits read back as the number. A negative number, which its
    comment admits too, prints as the empty string. *)
Lemma itoa_roundtrip n :
  ((0 ≤ n < 2 ^ 63)%Z → digits (itoa n) 0 = Some n) ∧ ((n < 0)%Z → itoa n = "").
Proof.
  split; [apply digits_itoa|]. intros Hn. unfold itoa. rewrite bool_decide_false by lia.
  apply itoaLoop_nonpos. lia.
Qed.

(** [allocID] of the manager, and its ids. *)
Definition allocID (nextID : Z) : Z * string :=
  let n := wrapS64 (nextID + 1) in (n, "st" +:+ itoa n).

Lemma allocID_inj n m :
  (0 ≤ n < 2 ^ 63 - 1)%Z → (0 ≤ m < 2 ^ 63 - 1)%Z → (allocID n).2 = (allocID m).2 → n = m.
Proof.
  intros Hn Hm. unfold allocID. rewrite !wrapS64_id by lia. intros H.
  assert (itoa (n + 1) = itoa (m + 1)) as He by by injection H.
  apply (f_equal (λ s, digits s 0)) in He. rewrite !digits_itoa in He by lia.
  injection He. lia.
Qed.

End Ids.

Module Tree.

(** ** Nodes *)

Inductive TaskNodeStatus := Created | Running | Completed | Failed.

#[export] Instance TaskNodeStatus_eq_dec : EqDecision TaskNodeStatus.
Proof. solve_decision. Defined.

(** A node's own fields. [n_ended] is [middlewareEnded] with its error: [Some None] for
    [signalMiddlewareEnd(nil)]. [n_signals] counts how often an end was recorded, and so
    sent to a middleware that waits. *)
Record info := Info {
  n_id : string;
  n_title : string;
  n_status : TaskNodeStatus;
  n_error : string;
  n_current : Z;
  n_total : Z;
  n_ended : option (option string);
  n_signals : nat;
}.

(** [taskNode] with its children. *)
Inductive taskNode := Node (i : info) (children : list taskNode).

Definition infoOf (t : taskNode) : info := match t with Node i _ => i end.

(** *** Sections under a node's lock *)

Definition terminal (s : TaskNodeStatus) : bool :=
  match s with Completed | Failed => true | _ => false end.

Definition putStatus (s : TaskNodeStatus) (err : string) (i : info) : info :=
  Info (n_id i) (n_title i) s err (n_current i) (n_total i) (n_ended i) (n_signals i).

(** [signalMiddlewareEnd]. *)
Definition signalMiddlewareEnd (err : option string) (i : info) : info :=
  match n_ended i with
  | Some _ => i
  | None => Info (n_id i) (n_title i) (n_status i) (n_error i) (n_current i) (n_total i)
              (Some err) (S (n_signals i))
  end.

Definition setStatus (s : TaskNodeStatus) (i : info) : info :=
  if terminal (n_status i) then i
  else
    let i := putStatus s (n_error i) i in
    if bool_decide (s = Completed) then signalMiddlewareEnd None i else i.

Definition setFailed (msg : string) (i : info) : info :=
  if terminal (n_status i) then i
  else signalMiddlewareEnd (Some msg) (putStatus Failed msg i).

Definition setProgress (current total : Z) (i : info) : info :=
  Info (n_id i) (n_title i) (n_status i) (n_error i) current total (n_ended i) (n_signals i).

Definition stepProgress (step : Z) (i : info) : info :=
  setProgress (wrapS64 (n_current i + step)) (n_total i) i.

(** One child's part of [failChildren]. *)
Definition failChild (msg : string) (i : info) : info :=
  match n_status i with
  | Running | Created => signalMiddlewareEnd (Some msg) (putStatus Failed msg i)
  | _ => i
  end.

(** *** Whole methods *)

(** [failChildren]: every descendant, whatever its parent's status. *)
Fixpoint failAll (msg : string) (t : taskNode) : taskNode :=
  match t with Node i cs => Node (failChild msg i) (failAll msg <$> cs) end.

Definition failChildren (msg : string) (cs : list taskNode) : list taskNode := failAll msg <$> cs.

(** [completeTop] and [failTop]: whether the transition was made, and the node. *)
Definition completeTop (t : taskNode) : bool * taskNode :=
  match t with
  | Node i cs =>
      if terminal (n_status i) then (false, t)
      else (true, Node (signalMiddlewareEnd None (putStatus Completed (n_error i) i)) cs)
  end.

Definition failTop (msg : string) (t : taskNode) : bool * taskNode :=
  match t with
  | Node i cs =>
      if terminal (n_status i) then (false, t)
      else (true, Node (signalMiddlewareEnd (Some msg) (putStatus Failed msg i))
                    (failChildren msg cs))
  end.

(** [collectIDs], and the nodes of a tree in its order. *)
Fixpoint nodes (t : taskNode) : list info :=
  match t with Node i cs => i :: (cs ≫= nodes) end.

Definition collectIDs (t : taskNode) : list string :=
  match t with Node _ cs => n_id <$> (cs ≫= nodes) end.

(** [createChild], in its two sections. *)
Definition newChild (id title : string) : taskNode :=
  Node (Info id title Created "" 0 0 None 0) [].

Definition addChild (child t : taskNode) : taskNode :=
  match t with Node i cs => Node i (cs ++ [child]) end.

(** A section on the node named [id]. *)
Fixpoint alterNode (id : string) (f : info → info) (t : taskNode) : taskNode :=
  match t with
  | Node i cs => Node (if bool_decide (n_id i = id) then f i else i) (alterNode id f <$> cs)
  end.

(** ** Facts *)

Section Ind.
  Context (Q : taskNode → Prop) (Hnode : ∀ i cs, Forall Q cs → Q (Node i cs)).

Fixpoint taskNode_ind' (t : taskNode) : Q t :=
  match t with
  | Node i cs => Hnode i cs
      ((fix go cs := match cs return Forall Q cs with
        | [] => Forall_nil_2 Q
        | c :: cs => Forall_cons_2 Q c cs (taskNode_ind' c) (go cs)
        end) cs)
  end.

End Ind.

(** A node's end signal agrees with its status and was sent at most once. *)
Definition endOk (i : info) : Prop :=
  match n_ended i with
  | None => terminal (n_status i) = false ∧ n_signals i = 0
  | Some None => n_status i = Completed ∧ n_signals i = 1
  | Some (Some e) => n_status i = Failed ∧ n_error i = e ∧ n_signals i = 1
  end.

(** What a cascade with [msg] makes of a node: [i] before, [j] after. *)
Definition cascaded (msg : string) (i j : info) : Prop :=
  n_id j = n_id i ∧ terminal (n_status j) = true ∧
  (terminal (n_status i) = true → j = i) ∧
  (terminal (n_status i) = false →
     n_status j = Failed ∧ n_error j = msg ∧ (endOk i → n_ended j = Some (Some msg) ∧ n_signals j = 1)).

Lemma failChild_cascaded msg i : cascaded msg i (failChild msg i).
Proof.
  unfold failChild, cascaded, endOk. destruct i as [id ti st er cu to en sg]. simpl.
  destruct st, en as [[e|]|]; simpl; split_and!; try done; naive_solver.
Qed.

Lemma nodes_failAll msg t : Forall2 (cascaded msg) (nodes t) (nodes (failAll msg t)).
Proof.
  induction t as [i cs IH] using taskNode_ind'. simpl. constructor; [apply failChild_cascaded|].
  induction IH as [|c cs Hc _ IHcs]; [constructor|]. simpl. by apply Forall2_app.
Qed.

(** Canceling or failing a shared task fails everything under it. [failTop] on a task
    that is still running makes it and every descendant terminal: those already completed
    or failed are untouched, the others fail with the message, and each of those gives its
    middleware exactly one end signal, carrying it. On a task that already ended it does
    nothing at all. *)
Theorem fail_cascades msg t :
  if terminal (n_status (infoOf t)) then failTop msg t = (false, t)
  else (failTop msg t).1 = true ∧ n_status (infoOf (failTop msg t).2) = Failed ∧
       Forall2 (cascaded msg) (nodes t) (nodes (failTop msg t).2).
Proof.
  destruct t as [i cs]. simpl. destruct (terminal (n_status i)) eqn:E; [done|].
  assert (signalMiddlewareEnd (Some msg) (putStatus Failed msg i) = failChild msg i) as ->
    by (unfold failChild; by destruct (n_status i)).
  split_and!; [done| |].
  - simpl. pose proof (failChild_cascaded msg i) as (_ & _ & _ & H). by apply H.
  - exact (nodes_failAll msg (Node i cs)).
Qed.

End Tree.

Module Manager.
Import Protocol Tree Ids.

(** ** Shared tasks *)

(** A shared task: its tree, its owner, and whether its context is canceled. *)
Record shared := Shared {
  sh_tree : taskNode;
  sh_ownerConnID : Z;
  sh_ownerUserID : string;
  sh_topLevel : bool;
  sh_canceled : bool;
}.

(** [taskManager]: [m_heap] has every task ever created, [m_tasks] the registered ones. *)
Record taskManager := TaskManager {
  m_heap : gmap string shared;
  m_tasks : gset string;
  m_nextID : Z;
}.

Definition newTaskManager : taskManager := TaskManager ∅ ∅ 0.

Definition withTree (t : taskNode) (canceled : bool) (s : shared) : shared :=
  Shared t (sh_ownerConnID s) (sh_ownerUserID s) (sh_topLevel s) (sh_canceled s || canceled).

Definition putShared (id : string) (s : shared) (m : taskManager) : taskManager :=
  TaskManager (<[id := s]> (m_heap m)) (m_tasks m) (m_nextID m).

(** [create]: the task is registered in its created state. *)
Definition create (m : taskManager) (title : string) (connID : Z) (userID : string)
    (topLevel : bool) : taskManager * string :=
  let '(n, id) := allocID (m_nextID m) in
  (TaskManager (<[id := Shared (newChild id title) connID userID topLevel false]> (m_heap m))
     ({[id]} ∪ m_tasks m) n, id).

(** The second half of [startSharedTask] and [SharedSubTask]: [node.status = Running]. *)
Definition startRunning (m : taskManager) (id : string) : taskManager :=
  match m_heap m !! id with
  | None => m
  | Some s =>
      match sh_tree s with
      | Node i cs => putShared id (withTree (Node (putStatus Running (n_error i) i) cs) false s) m
      end
  end.

(** [completeTop] and [failTop] on a task of the manager; both cancel its context. *)
Definition finishWith (op : taskNode → bool * taskNode) (m : taskManager) (id : string) : taskManager :=
  match m_heap m !! id with
  | None => m
  | Some s => let '(did, t) := op (sh_tree s) in putShared id (withTree t did s) m
  end.

Definition complete : taskManager → string → taskManager := finishWith completeTop.
Definition fail (msg : string) : taskManager → string → taskManager := finishWith (failTop msg).

Definition remove (m : taskManager) (id : string) : taskManager :=
  TaskManager (m_heap m) (m_tasks m ∖ {[id]}) (m_nextID m).

(** [tm.tasks[id]]. *)
Definition lookupTask (m : taskManager) (id : string) : option shared :=
  if decide (id ∈ m_tasks m) then m_heap m !! id else None.

(** [cancelTask]. *)
Definition cancelTask (m : taskManager) (id : string) : taskManager * bool :=
  match lookupTask m id with
  | None => (m, false)
  | Some _ => (fail "canceled" m id, true)
  end.

(** *** Ownership *)

Definition ownedBy (s : shared) (connID : Z) (userID : string) : bool :=
  if bool_decide (sh_ownerUserID s ≠ "")
  then bool_decide (userID ≠ "") && bool_decide (sh_ownerUserID s = userID)
  else bool_decide (sh_ownerConnID s ≠ 0%Z) && bool_decide (sh_ownerConnID s = connID).

Definition startedOn (s : shared) (connID : Z) : bool :=
  bool_decide (sh_ownerConnID s ≠ 0%Z) && bool_decide (sh_ownerConnID s = connID).

(** [sharedSnapshotForConn]: the nodes, [IsOwner] and [StartedHere]. *)
Definition sharedSnapshotForConn (s : shared) (connID : Z) (userID : string)
    : list info * bool * bool :=
  if sh_topLevel s then (nodes (sh_tree s), ownedBy s connID userID, startedOn s connID)
  else (nodes (sh_tree s), false, false).

Record TaskCancelInfo := CancelInfo {
  ci_id : string; ci_title : string; ci_ownerConnID : Z; ci_ownerUserID : string;
}.

Definition cancelInfo (s : shared) : TaskCancelInfo :=
  let i := infoOf (sh_tree s) in
  CancelInfo (n_id i) (n_title i) (sh_ownerConnID s) (sh_ownerUserID s).

Definition notFound (id : string) : goerr := NewError 0 CodeForbidden ("task not found: " +:+ id).

(** [CancelSharedTask] with a manager, under a [CancelAuthorizer] or the default policy. *)
Definition cancelRegistered (m : taskManager) (auth : option (TaskCancelInfo → option goerr))
    (connID : Z) (userID : string) (id : string) : taskManager * option goerr :=
  match auth with
  | Some auth =>
      match lookupTask m id with
      | None => (m, Some (notFound id))
      | Some s => match auth (cancelInfo s) with
                  | Some e => (m, Some e)
                  | None => (fail "canceled" m id, None)
                  end
      end
  | None =>
      match lookupTask m id with
      | None => (m, Some (notFound id))
      | Some s => if ownedBy s connID userID then (fail "canceled" m id, None)
                  else (m, Some (notFound id))
      end
  end.

Definition CancelSharedTask (tm : option taskManager)
    (auth : option (TaskCancelInfo → option goerr)) (connID : Z) (userID : string) (id : string)
    : option taskManager * option goerr :=
  match tm with
  | None => (None, Some (NewError 0 CodeInternalError "tasks not enabled"))
  | Some m => let '(m', err) := cancelRegistered m auth connID userID id in (Some m', err)
  end.

(** *** Runs *)

Inductive event :=
  | EvCreate (title : string) (connID : Z) (userID : string) (topLevel : bool)
  | EvStart (id : string)
  | EvComplete (id : string)
  | EvFail (id msg : string)
  | EvRemove (id : string)
  | EvAddChild (id child title : string)
  | EvSection (id node : string) (sec : info → info).

(** The sections that sub-task methods run on a node. *)
Inductive nodeSection : (info → info) → Prop :=
  | SecStatus s : nodeSection (setStatus s)
  | SecFailed msg : nodeSection (setFailed msg)
  | SecProgress c t : nodeSection (setProgress c t)
  | SecStep n : nodeSection (stepProgress n).

Definition onTree (f : taskNode → taskNode) (id : string) (m : taskManager) : taskManager :=
  match m_heap m !! id with
  | None => m
  | Some s => putShared id (withTree (f (sh_tree s)) false s) m
  end.

Definition step (m : taskManager) (e : event) : taskManager :=
  match e with
  | EvCreate title c u top => (create m title c u top).1
  | EvStart id => startRunning m id
  | EvComplete id => complete m id
  | EvFail id msg => fail msg m id
  | EvRemove id => remove m id
  | EvAddChild id child title => onTree (addChild (newChild child title)) id m
  | EvSection id node sec => onTree (alterNode node sec) id m
  end.

Definition rootInfo (m : taskManager) (id : string) : option info :=
  infoOf ∘ sh_tree <$> m_heap m !! id.

(** Ids are fresh and the sections are the code's; [id] is not started again. *)
Definition fair (id : string) (m : taskManager) (e : event) : Prop :=
  match e with
  | EvCreate _ _ _ _ => m_heap m !! (allocID (m_nextID m)).2 = None
  | EvStart id' => id' ≠ id
  | EvSection _ _ sec => nodeSection sec
  | _ => True
  end.

Lemma section_final sec i :
  nodeSection sec → terminal (n_status i) = true →
  n_status (sec i) = n_status i ∧ n_error (sec i) = n_error i.
Proof.
  intros [s|msg|c t|n] Ht; [unfold setStatus; by rewrite Ht|unfold setFailed; by rewrite Ht|done|done].
Qed.

Lemma rootInfo_putShared id id' s m :
  rootInfo (putShared id' s m) id = if decide (id = id') then Some (infoOf (sh_tree s)) else rootInfo m id.
Proof.
  unfold rootInfo, putShared. simpl. case_decide as Hd.
  - subst. by rewrite lookup_insert_eq.
  - by rewrite lookup_insert_ne.
Qed.

(** The status and error a finished task shows. *)
Definition shows (m : taskManager) (id : string) (st : TaskNodeStatus) (err : string) : Prop :=
  ∃ i, rootInfo m id = Some i ∧ n_status i = st ∧ n_error i = err.

Lemma onTree_shows f id id' m st err :
  (∀ i cs, n_status i = st → n_error i = err →
     n_status (infoOf (f (Node i cs))) = st ∧ n_error (infoOf (f (Node i cs))) = err) →
  shows m id st err → shows (onTree f id' m) id st err.
Proof.
  intros Hf (i & Hi & <- & <-). unfold onTree. destruct (m_heap m !! id') as [s|] eqn:E; [|by exists i].
  unfold shows. rewrite rootInfo_putShared. case_decide as Hd; [|by exists i].
  subst. unfold rootInfo in Hi. rewrite E in Hi. injection Hi as <-. simpl.
  destruct (sh_tree s) as [i cs]. simpl in *. destruct (Hf i cs eq_refl eq_refl). eauto.
Qed.

Lemma finishWith_shows op id id' m st err :
  terminal st = true → (∀ t, terminal (n_status (infoOf t)) = true → op t = (false, t)) →
  shows m id st err → shows (finishWith op m id') id st err.
Proof.
  intros Ht Hop (i & Hi & <- & <-). unfold finishWith.
  destruct (m_heap m !! id') as [s|] eqn:E; [|by exists i].
  destruct (op (sh_tree s)) as [did t] eqn:Eo. unfold shows. rewrite rootInfo_putShared.
  case_decide as Hd; [|by exists i]. subst. unfold rootInfo in Hi. rewrite E in Hi.
  injection Hi as <-. rewrite Hop in Eo by done. injection Eo as <- <-. by eexists.
Qed.

Lemma step_shows id m e st err :
  terminal st = true → fair id m e → shows m id st err → shows (step m e) id st err.
Proof.
  intros Ht Hf Hs.
  destruct e as [title c u top|id'|id'|id' msg|id'|id' child title|id' node sec]; cbn [step fair] in *.
  - destruct Hs as (i & Hi & Hst). exists i. split; [|done].
    unfold create. destruct (allocID (m_nextID m)) as [n nid]. unfold rootInfo in *.
    cbn [fst snd m_heap] in *. rewrite lookup_insert_ne; [done|]. intros ->. by rewrite Hf in Hi.
  - unfold startRunning. destruct (m_heap m !! id') as [s|]; [|done].
    destruct (sh_tree s) as [i cs]. destruct Hs as (j & Hj & Hst). exists j. split; [|done].
    rewrite rootInfo_putShared, decide_False; [done|]. congruence.
  - apply finishWith_shows; [done| |done]. intros [i cs] Hi. simpl in *. by rewrite Hi.
  - apply finishWith_shows; [done| |done]. intros [i cs] Hi. simpl in *. by rewrite Hi.
  - destruct Hs as (i & ?). by exists i.
  - by apply onTree_shows.
  - apply onTree_shows; [|done]. intros i cs <- <-. simpl. case_bool_decide; [|done].
    by apply section_final.
Qed.

Inductive fairRun (id : string) : taskManager → list event → Prop :=
  | fair_nil m : fairRun id m []
  | fair_cons m e evs : fair id m e → fairRun id (step m e) evs → fairRun id m (e :: evs).

(** A shared task ends once. Whatever else happens to the manager's tasks (other
    tasks, sub-tasks, late completions, failures and cancels, removal), a task that
    completed or failed keeps that status and that error for good, as long as its own
    start has run its course. *)
Theorem terminal_is_final id m evs st err :
  shows m id st err → terminal st = true → fairRun id m evs → shows (runs step m evs) id st err.
Proof.
  intros Hs Ht Hf. induction Hf as [m|m e evs He _ IH]; simpl; [done|].
  apply IH. by apply step_shows.
Qed.

(** Who may cancel. Under the default policy a cancel succeeds exactly for a
    registered task its caller owns; it then leaves the task ended with its context
    canceled (unless it had ended already). Everyone else gets the same error as for a
    task that does not exist, and changes nothing. A client that is shown [IsOwner] may
    cancel, and for a top-level task the converse holds too. An authenticated owner is
    matched by user alone, and an anonymous task without a connection has no owner. *)
Theorem owner_may_cancel m connID userID id :
  let '(tm', err) := CancelSharedTask (Some m) None connID userID id in
  match lookupTask m id with
  | None => err = Some (notFound id) ∧ tm' = Some m
  | Some s =>
      (err = None ↔ ownedBy s connID userID = true) ∧
      (ownedBy s connID userID = true → tm' = Some (fail "canceled" m id) ∧
         ∃ s', m_heap (fail "canceled" m id) !! id = Some s' ∧ terminal (n_status (infoOf (sh_tree s'))) = true ∧
           (terminal (n_status (infoOf (sh_tree s))) = false → sh_canceled s' = true)) ∧
      (ownedBy s connID userID = false → err = Some (notFound id) ∧ tm' = Some m) ∧
      ((sharedSnapshotForConn s connID userID).1.2 = true → ownedBy s connID userID = true) ∧
      (sh_topLevel s = true → (sharedSnapshotForConn s connID userID).1.2 = ownedBy s connID userID) ∧
      (sh_ownerUserID s ≠ "" → ownedBy s connID userID = bool_decide (sh_ownerUserID s = userID)) ∧
      (sh_ownerUserID s = "" → sh_ownerConnID s = 0%Z → ownedBy s connID userID = false)
  end.
Proof.
  unfold CancelSharedTask, cancelRegistered. destruct (lookupTask m id) as [s|] eqn:El; [|done].
  assert (m_heap m !! id = Some s) as Hs by (unfold lookupTask in El; by case_decide).
  assert (∃ s', m_heap (fail "canceled" m id) !! id = Some s' ∧
    terminal (n_status (infoOf (sh_tree s'))) = true ∧
    (terminal (n_status (infoOf (sh_tree s))) = false → sh_canceled s' = true)) as Hfail.
  { unfold fail, finishWith. rewrite Hs. destruct (failTop "canceled" (sh_tree s)) as [did t] eqn:E.
    simpl. rewrite lookup_insert_eq. eexists. split; [done|]. simpl.
    destruct (sh_tree s) as [i cs]. simpl in E. destruct (terminal (n_status i)) eqn:Et;
      injection E as <- <-; simpl; [by rewrite Et|]. rewrite orb_true_r. split; [|done].
    unfold signalMiddlewareEnd, putStatus. by destruct (n_ended i). }
  assert ((sharedSnapshotForConn s connID userID).1.2 = true → ownedBy s connID userID = true) as Hsnap
    by (unfold sharedSnapshotForConn; by destruct (sh_topLevel s)).
  assert (sh_topLevel s = true → (sharedSnapshotForConn s connID userID).1.2 = ownedBy s connID userID)
    as Htop by (unfold sharedSnapshotForConn; by intros ->).
  assert (sh_ownerUserID s ≠ "" → ownedBy s connID userID = bool_decide (sh_ownerUserID s = userID)) as Hu.
  { intros Hne. unfold ownedBy. rewrite bool_decide_true by done. repeat case_bool_decide; try done.
    by subst. }
  assert (sh_ownerUserID s = "" → sh_ownerConnID s = 0%Z → ownedBy s connID userID = false) as Ha.
  { intros H1 H2. unfold ownedBy. by rewrite H1, H2. }
  destruct (ownedBy s connID userID) eqn:Eo; split_and!; try done; naive_solver.
Qed.

(** *** Concrete run *)

Definition exManager : taskManager := (create newTaskManager "import" 3 "ann" true).1.
Definition exDone : taskManager := complete (startRunning exManager "st1") "st1".

(** The exception to [terminal_is_final]: a task canceled between its registration and
    [status = Running] comes back to life, with its context canceled, and may complete. *)
Lemma cancel_before_start_is_undone :
  let m := (cancelTask exManager "st1").1 in
  (cancelTask exManager "st1").2 = true ∧ shows m "st1" Failed "canceled" ∧
  shows (startRunning m "st1") "st1" Running "canceled" ∧
  sh_canceled <$> m_heap (startRunning m "st1") !! "st1" = Some true ∧
  shows (complete (startRunning m "st1") "st1") "st1" Completed "canceled".
Proof.
  split_and!; try (vm_compute; reflexivity);
    (eexists; split; [vm_compute; reflexivity|split; reflexivity]).
Qed.

(** [cancelTask] also answers [true] for a task that has already completed. *)
Lemma cancel_of_completed_reports_true :
  (cancelTask exDone "st1").2 = true ∧ shows (cancelTask exDone "st1").1 "st1" Completed "".
Proof.
  split; [vm_compute; reflexivity|]. eexists; split; [vm_compute; reflexivity|split; reflexivity].
Qed.

Lemma terminal_is_final_witness :
  shows (runs step exDone [EvFail "st1" "late"; EvRemove "st1"]) "st1" Completed "".
Proof.
  apply (terminal_is_final "st1" exDone [EvFail "st1" "late"; EvRemove "st1"]).
  - eexists. split; [vm_compute; reflexivity|]. split; reflexivity.
  - reflexivity.
  - repeat constructor.
Defined.

End Manager.

Module Throttle.

(** ** Progress throttling

    The entries of [tm.throttles]. Times are in nanoseconds; [None] is the zero time, long
    past. The timer is whether one is set. *)

Definition progressThrottleInterval : Z := 50 * 1000000.

Record progressThrottle := PT {
  pt_last : option Z;
  pt_pending : option (Z * Z);
  pt_timer : bool;
}.

Record throttles := Throttles {
  th_map : gmap string progressThrottle;
  th_sent : list (string * (Z * Z));      (** progress broadcasts, oldest first *)
}.

Definition noThrottles : throttles := Throttles ∅ [].

Definition elapsed (last : option Z) (now : Z) : bool :=
  match last with
  | None => true
  | Some t => bool_decide (progressThrottleInterval ≤ now - t)%Z
  end.

(** The progress half of [sendUpdate]. *)
Definition sendUpdate (th : throttles) (id : string) (v : Z * Z) (now : Z) : throttles :=
  let pt := default (PT None None false) (th_map th !! id) in
  if elapsed (pt_last pt) now
  then Throttles (<[id := PT (Some now) None (pt_timer pt)]> (th_map th)) (th_sent th ++ [(id, v)])
  else Throttles (<[id := PT (pt_last pt) (Some v) true]> (th_map th)) (th_sent th).

Definition flushProgress (th : throttles) (id : string) (now : Z) : throttles :=
  match th_map th !! id with
  | None => th
  | Some pt =>
      match pt_pending pt with
      | None => Throttles (<[id := PT (pt_last pt) None false]> (th_map th)) (th_sent th)
      | Some v => Throttles (<[id := PT (Some now) None false]> (th_map th)) (th_sent th ++ [(id, v)])
      end
  end.

(** The throttle half of [remove]: the entries of the task and its descendants. *)
Definition dropThrottles (th : throttles) (ids : list string) : throttles :=
  Throttles (foldr delete (th_map th) ids) (th_sent th).

Inductive event :=
  | EvUpdate (id : string) (v : Z * Z) (now : Z)
  | EvFlush (id : string) (now : Z)
  | EvDrop (ids : list string).

Definition step (th : throttles) (e : event) : throttles :=
  match e with
  | EvUpdate id v now => sendUpdate th id v now
  | EvFlush id now => flushProgress th id now
  | EvDrop ids => dropThrottles th ids
  end.

(** The last value reported for [id] since its entry was dropped. *)
Definition reported (id : string) (r : option (Z * Z)) (e : event) : option (Z * Z) :=
  match e with
  | EvUpdate id' v _ => if bool_decide (id' = id) then Some v else r
  | EvDrop ids => if bool_decide (id ∈ ids) then None else r
  | EvFlush _ _ => r
  end.

Definition sentTo (id : string) (th : throttles) : list (Z * Z) :=
  (filter (λ iv, iv.1 = id) (th_sent th)).*2.

(** The last reported value was sent, or waits for the timer. *)
Definition kept (id : string) (th : throttles) (v : Z * Z) : Prop :=
  (∃ pt, th_map th !! id = Some pt ∧ pt_pending pt = Some v ∧ pt_timer pt = true) ∨
  ((∀ pt, th_map th !! id = Some pt → pt_pending pt = None) ∧ last (sentTo id th) = Some v).

Lemma sentTo_snoc id th m id' v :
  sentTo id (Throttles m (th_sent th ++ [(id', v)])) =
  sentTo id th ++ (if decide (id' = id) then [v] else []).
Proof.
  unfold sentTo. simpl. rewrite filter_app, fmap_app. f_equal.
  rewrite filter_cons. simpl. by case_decide.
Qed.

Lemma lookup_drop_keep ids (m : gmap string progressThrottle) id :
  id ∉ ids → foldr delete m ids !! id = m !! id.
Proof.
  induction ids as [|i ids IH]; intros Hid; simpl; [done|].
  rewrite lookup_delete_ne by set_solver. apply IH. set_solver.
Qed.

(** A value for [id] that is sent at once, or parked with the timer set. *)
Lemma update_kept id th v now : kept id (sendUpdate th id v now) v.
Proof.
  unfold sendUpdate. destruct (elapsed _ now).
  - right. split; [intros pt; simpl; rewrite lookup_insert_eq; by intros [= <-]|].
    rewrite sentTo_snoc, decide_True by done. by rewrite last_snoc.
  - left. simpl. rewrite lookup_insert_eq. by eexists.
Qed.

(** Steps on other ids keep what [id] has. *)
Lemma kept_other id th m l v :
  m !! id = th_map th !! id → sentTo id (Throttles m l) = sentTo id th →
  kept id th v → kept id (Throttles m l) v.
Proof. intros Hm Hl. unfold kept. simpl. by rewrite Hm, Hl. Qed.

Lemma step_kept id th e r :
  (∀ v, r = Some v → kept id th v) → ∀ v, reported id r e = Some v → kept id (step th e) v.
Proof.
  intros IH v Hv. destruct e as [id' w now|id' now|ids]; simpl in *.
  - case_bool_decide as Hd; [injection Hv as ->; subst; apply update_kept|].
    specialize (IH v Hv). unfold sendUpdate. destruct (elapsed _ now); apply (kept_other id th); try done;
      simpl; rewrite ?lookup_insert_ne by done; try done.
    rewrite sentTo_snoc, decide_False by done. by rewrite app_nil_r.
  - specialize (IH v Hv). unfold flushProgress. destruct (th_map th !! id') as [pt|] eqn:E; [|done].
    destruct (decide (id' = id)) as [->|Hne].
    + destruct IH as [(pt' & Hpt & Hp & _)|[Hn Hl]].
      * rewrite E in Hpt. injection Hpt as <-. rewrite Hp. right.
        split; [intros q; simpl; rewrite lookup_insert_eq; by intros [= <-]|].
        rewrite sentTo_snoc, decide_True by done. by rewrite last_snoc.
      * rewrite (Hn pt E). right. split; [|done].
        intros q. simpl. rewrite lookup_insert_eq. by intros [= <-].
    + destruct (pt_pending pt); apply (kept_other id th); try done; simpl;
        rewrite ?lookup_insert_ne by done; try done.
      rewrite sentTo_snoc, decide_False by done. by rewrite app_nil_r.
  - case_bool_decide; [done|]. apply (kept_other id th); [by apply lookup_drop_keep|done|by apply IH].
Qed.

(** Throttling never loses the last progress value. However updates, timers and
    removals interleave, the last value reported for a node has been broadcast last, or
    it waits with a timer set; and when that timer fires it is broadcast last. *)
Theorem throttle_keeps_last id evs now :
  let th := runs step noThrottles evs in
  match foldl (reported id) None evs with
  | None => True
  | Some v => kept id th v ∧ kept id (flushProgress th id now) v ∧
              (∀ pt, th_map (flushProgress th id now) !! id = Some pt → pt_pending pt = None) ∧
              last (sentTo id (flushProgress th id now)) = Some v
  end.
Proof.
  intros th. assert (∀ v, foldl (reported id) None evs = Some v → kept id th v) as Hk.
  { unfold th. assert (∀ th0 r, (∀ v, r = Some v → kept id th0 v) →
      ∀ v, foldl (reported id) r evs = Some v → kept id (runs step th0 evs) v) as H.
    { induction evs as [|e evs IH]; intros th0 r Hr v; simpl; [apply Hr|].
      apply IH. by apply step_kept. }
    by apply H. }
  destruct (foldl (reported id) None evs) as [v|]; [|done]. specialize (Hk v eq_refl).
  pose proof (step_kept id th (EvFlush id now) (Some v)) as Hf. simpl in Hf.
  assert (∀ pt, th_map (flushProgress th id now) !! id = Some pt → pt_pending pt = None) as Hnone.
  { intros pt. unfold flushProgress. destruct (th_map th !! id) as [q|] eqn:E; [|by rewrite E].
    destruct (pt_pending q); simpl; rewrite lookup_insert_eq; by intros [= <-]. }
  assert (kept id (flushProgress th id now) v) as Hk' by by apply Hf; [intros ? [= <-]|].
  split_and!; try done. destruct Hk' as [(pt & Hpt & Hp & _)|[_ Hl]]; [|done].
  apply Hnone in Hpt. congruence.
Qed.

(** An update that comes after its task was removed leaves an entry behind. *)
Lemma late_update_leaks id v now :
  is_Some (th_map (runs step noThrottles [EvDrop [id]; EvUpdate id v now]) !! id).
Proof.
  cbn [runs step]. unfold sendUpdate. destruct (elapsed _ now); cbn [th_map];
    rewrite lookup_insert_eq; by eexists.
Qed.

End Throttle.
