(* ===== verification/TaskHooks.v ===== *)
(** * TaskHooks: the task-lifecycle middleware (tasks/task_tree.go: runManaged,
      signalMiddlewareEnd, runScoped)

    A manual-lifecycle task holds its middleware open in a goroutine of its own: the task's
    entry point waits until the middleware calls [next], and [next] returns when the task
    reaches a terminal state, which any goroutine may bring about at any time, also before
    [next] waits. The steps below are the sections under the node's lock and the channel
    operations between them, in any interleaving. *)

From S2P Require Import Prelude.
From stdpp Require Import prelude strings list.

Module Hooks.

Section Code.
  Context {Ctx : Type}.

(** The terminal error of a task: None is nil. *)
Abbreviation terr := (option string).

(** The goroutine that runs the middleware. *)
Inductive mwState :=
  | MwNone                    (** not spawned *)
  | MwUser                    (** in the middleware's own code *)
  | MwNext (ended : option terr)  (** in [next], past its section, [ready] not closed yet *)
  | MwWait                    (** in [next], at [<-done] *)
  | MwDone                    (** returned, or its startup panic was recovered *)
  | MwCrashed.                (** panicked after [next]: re-raised *)

(** The caller of [runManaged]. *)
Inductive callerState :=
  | CallerStart
  | CallerWait
  | CallerOut (ctx : Ctx)
  | CallerPanic.

Record St := State {
  middlewareCtx : option Ctx;
  middlewareDone : bool;            (** the channel is made *)
  middlewareEnded : option terr;    (** with [middlewareEndErr] *)
  buffer : option terr;             (** the channel's buffer, of one *)
  sender : option terr;             (** a signaller past its section, at [done <- err] *)
  ready : bool;
  startupPanic : bool;
  mw : mwState;
  caller : callerState;
  returned : list terr;             (** what [next] has returned so far *)
}.

Definition start : St := State None false None None None false false MwNone CallerStart [].

Inductive event :=
  | EvSpawn                (** runManaged: make the channel, spawn the goroutine *)
  | EvSignal (err : terr)  (** signalMiddlewareEnd: its section *)
  | EvSend                 (** signalMiddlewareEnd: the send *)
  | EvNext (ctx : Ctx)     (** the middleware calls next: the section *)
  | EvReady                (** next: closeReady, and the early return *)
  | EvRecv                 (** next: [<-done] *)
  | EvReturn               (** the middleware returns *)
  | EvPanic                (** the middleware panics *)
  | EvResume (ctx : Ctx).  (** runManaged: past [<-ready], with its own context *)

Definition withMw (m : mwState) (s : St) : St :=
  State (middlewareCtx s) (middlewareDone s) (middlewareEnded s) (buffer s) (sender s) (ready s)
    (startupPanic s) m (caller s) (returned s).

Definition closeReady (s : St) : St :=
  State (middlewareCtx s) (middlewareDone s) (middlewareEnded s) (buffer s) (sender s) true
    (startupPanic s) (mw s) (caller s) (returned s).

Definition nextReturns (err : terr) (s : St) : St :=
  State (middlewareCtx s) (middlewareDone s) (middlewareEnded s) (buffer s) (sender s) (ready s)
    (startupPanic s) MwUser (caller s) (returned s ++ [err]).

(** An event that is not enabled leaves the state as it is. *)
Definition step (s : St) (e : event) : St :=
  match e with
  | EvSpawn =>
      match caller s with
      | CallerStart =>
          State (middlewareCtx s) true (middlewareEnded s) (buffer s) (sender s) (ready s)
            (startupPanic s) MwUser CallerWait (returned s)
      | _ => s
      end
  | EvSignal err =>
      match middlewareEnded s with
      | Some _ => s
      | None =>
          State (middlewareCtx s) (middlewareDone s) (Some err) (buffer s)
            (if middlewareDone s then Some err else sender s) (ready s) (startupPanic s) (mw s)
            (caller s) (returned s)
      end
  | EvSend =>
      match sender s, buffer s with
      | Some err, None =>
          State (middlewareCtx s) (middlewareDone s) (middlewareEnded s) (Some err) None (ready s)
            (startupPanic s) (mw s) (caller s) (returned s)
      | _, _ => s
      end
  | EvNext ctx =>
      match mw s with
      | MwUser =>
          State (Some ctx) (middlewareDone s) (middlewareEnded s) (buffer s) (sender s) (ready s)
            (startupPanic s) (MwNext (middlewareEnded s)) (caller s) (returned s)
      | _ => s
      end
  | EvReady =>
      match mw s with
      | MwNext (Some err) => closeReady (nextReturns err s)
      | MwNext None => closeReady (withMw MwWait s)
      | _ => s
      end
  | EvRecv =>
      match mw s, buffer s with
      | MwWait, Some err =>
          nextReturns err
            (State (middlewareCtx s) (middlewareDone s) (middlewareEnded s) None (sender s) (ready s)
               (startupPanic s) (mw s) (caller s) (returned s))
      | _, _ => s
      end
  | EvReturn => match mw s with MwUser => closeReady (withMw MwDone s) | _ => s end
  | EvPanic =>
      match mw s with
      | MwUser =>
          match middlewareCtx s with
          | Some _ => withMw MwCrashed s
          | None =>
              closeReady (State (middlewareCtx s) (middlewareDone s) (middlewareEnded s) (buffer s)
                (sender s) (ready s) true MwDone (caller s) (returned s))
          end
      | _ => s
      end
  | EvResume ctx =>
      match caller s with
      | CallerWait =>
          if ready s then
            State (middlewareCtx s) (middlewareDone s) (middlewareEnded s) (buffer s) (sender s) (ready s)
              (startupPanic s) (mw s)
              (if startupPanic s then CallerPanic
               else CallerOut (match middlewareCtx s with Some c => c | None => ctx end)) (returned s)
          else s
      | _ => s
      end
  end.

(** [runScoped]: the middleware around a function, on the caller's goroutine. *)
Definition runScoped {W I R : Type} (middleware : option (Ctx → I → (Ctx → W → W * R) → W → W * R))
    (info : I) (ctx : Ctx) (fn : Ctx → W → W * R) : W → W * R :=
  match middleware with
  | None => fn ctx
  | Some m => m ctx info fn
  end.

(** *** Invariant *)

(** Where the one end signal is: ended, at a sender, in the buffer. *)
Inductive signalAt : option terr → option terr → option terr → Prop :=
  | SigNone : signalAt None None None
  | SigSending e : signalAt (Some e) (Some e) None
  | SigBuffered e : signalAt (Some e) None (Some e)
  | SigGone e : signalAt (Some e) None None.

(** Whoever waits for the end can still get it. *)
Definition avail (s : St) : Prop :=
  middlewareEnded s = None ∨ sender s ≠ None ∨ buffer s ≠ None.

Definition inv (s : St) : Prop :=
  signalAt (middlewareEnded s) (sender s) (buffer s) ∧
  (∀ err, err ∈ returned s → middlewareEnded s = Some err) ∧
  (returned s ≠ [] → is_Some (middlewareCtx s)) ∧
  match mw s with
  | MwNone => s = State None false (middlewareEnded s) None None false false MwNone CallerStart []
  | m =>
      middlewareDone s = true ∧ caller s ≠ CallerStart ∧
      match m with
      | MwNone => False
      | MwUser => startupPanic s = false ∧ (is_Some (middlewareCtx s) → ready s = true)
      | MwNext (Some err) => startupPanic s = false ∧ is_Some (middlewareCtx s) ∧ middlewareEnded s = Some err
      | MwNext None => startupPanic s = false ∧ is_Some (middlewareCtx s) ∧ avail s
      | MwWait => startupPanic s = false ∧ is_Some (middlewareCtx s) ∧ ready s = true ∧ avail s
      | MwDone => ready s = true ∧ (startupPanic s = true → middlewareCtx s = None)
      | MwCrashed => startupPanic s = false ∧ ready s = true ∧ is_Some (middlewareCtx s)
      end
  end.

Lemma inv_start : inv start.
Proof. split; [constructor|]. split; [intros err Hin; by apply not_elem_of_nil in Hin|]. by split. Qed.

Lemma signal_inv s err : inv s → inv (step s (EvSignal err)).
Proof.
  intros Hi. destruct s as [mc md me bu se rd sp m ca re]. simpl. destruct me as [e|]; [done|].
  destruct Hi as (Hs & Hr & Hc & Hm). simpl in *. inversion Hs; subst.
  assert (re = []) as -> by (destruct re as [|x re]; [done|]; by specialize (Hr x ltac:(left))).
  destruct m as [| |[x|]| | |]; unfold inv, avail in *; simpl in *;
    [injection Hm as -> -> -> -> ->|destruct Hm as (-> & Hca & Hm)..]; try (destruct Hm as (? & ? & [=]); done).
  - split_and!; [constructor|intros x Hx; by apply not_elem_of_nil in Hx|done|done].
  - split_and!; [constructor|intros x Hx; by apply not_elem_of_nil in Hx|done|done|done|apply Hm..].
  - destruct Hm as (? & ? & _). split_and!; try done; [constructor|intros x Hx; by apply not_elem_of_nil in Hx|].
    right. by left.
  - destruct Hm as (? & ? & ? & _). split_and!; try done; [constructor|intros x Hx; by apply not_elem_of_nil in Hx|].
    right. by left.
  - split_and!; [constructor|intros x Hx; by apply not_elem_of_nil in Hx|done|done|done|apply Hm..].
  - split_and!; [constructor|intros x Hx; by apply not_elem_of_nil in Hx|done|done|done|apply Hm..].
Qed.

Lemma elem_returned (re : list terr) e x : x ∈ re ++ [e] → x ∈ re ∨ x = e.
Proof. rewrite elem_of_app, list_elem_of_singleton. done. Qed.

(** What [next] returns is the recorded end. *)
Lemma returns_inv (re : list terr) me e :
  (∀ err, err ∈ re → me = Some err) → me = Some e → ∀ err, err ∈ re ++ [e] → me = Some err.
Proof. intros Hr He err [Hx| ->]%elem_returned; [by apply Hr|done]. Qed.

Lemma hook_step_inv s e : inv s → inv (step s e).
Proof.
  destruct e as [|err| |ctx| | | | |ctx]; [|apply signal_inv|..];
    destruct s as [mc md me bu se rd sp m ca re]; unfold inv, avail; simpl; intros Hi.
  - destruct ca; try done. destruct Hi as (Hs & Hr & Hc & Hm). destruct m as [| |[x|]| | |]; try (by destruct Hm as (? & ? & ?)).
    cbn in *. injection Hm as -> -> -> -> -> -> ->. split; [done|]. split; [done|].
    split; [done|]. split_and!; try done; by intros [].
  - destruct se as [x|], bu as [y|]; try done. destruct Hi as (Hs & Hr & Hc & Hm). inversion Hs; subst.
    split; [constructor|]. split; [done|]. split; [done|].
    destruct m as [| |[x'|]| | |]; cbn in *; [by injection Hm|..];
      destruct Hm as (-> & Hca & Hm); (split; [done|]; split; [done|]); try exact Hm; destruct_and!;
      split_and!; try done; right; by right.
  - destruct m as [| |[x|]| | |]; try done. simpl. destruct Hi as (Hs & Hr & Hc & Hm & Hca & -> & Hrd).
    split; [done|]. split; [done|]. split; [by eexists|]. destruct me as [z|]; split_and!; try done; by eauto.
  - destruct m as [| |[x|]| | |]; try done; simpl; destruct Hi as (Hs & Hr & Hc & Hm & Hca & -> & Hx & He).
    + subst. split_and!; try done. by apply returns_inv.
    + by split_and!.
  - destruct m as [| |[x|]| | |]; try done. destruct bu as [x|]; [|done]. simpl.
    destruct Hi as (Hs & Hr & Hc & Hm & Hca & -> & Hx & -> & Ha). inversion Hs; subst.
    split_and!; try done; [constructor|by apply returns_inv].
  - destruct m as [| |[x|]| | |]; try done. simpl. destruct Hi as (Hs & Hr & Hc & Hm & Hca & -> & Hrd).
    by split_and!.
  - destruct m as [| |[x|]| | |]; try done. destruct Hi as (Hs & Hr & Hc & Hm & Hca & -> & Hrd).
    destruct mc as [c|]; simpl; split_and!; try done; by eauto.
  - destruct ca; try done. destruct rd; try done. destruct Hi as (Hs & Hr & Hc & Hm).
    split; [done|]. split; [done|]. split; [done|]. simpl.
    destruct m as [| |[x|]| | |]; cbn in *; [by injection Hm|..];
      destruct Hm as (-> & _ & Hm); (split; [done|]; split; [by destruct sp|exact Hm]).
Qed.

Lemma hooks_inv evs : inv (runs step start evs).
Proof. apply runs_invariant; [apply inv_start|intros s e; apply hook_step_inv]. Qed.

(** A panic the caller sees is one raised before [next]. *)
Lemma caller_panic evs :
  caller (runs step start evs) = CallerPanic → startupPanic (runs step start evs) = true.
Proof.
  apply (runs_invariant step (λ s, caller s = CallerPanic → startupPanic s = true)); [done|].
  intros s e Hi. destruct s as [mc md me bu se rd sp m ca re]. simpl in Hi.
  destruct e; simpl; repeat case_match; simpl in *; simplify_eq/=; by auto.
Qed.

(** C26: a task's middleware always learns how the task ended, and starting a task never
    hangs on it. However the end of the task interleaves with the start of its middleware
    (it may come before the goroutine is spawned, before [next] waits, or twice): [next]
    returns the first end recorded and nothing else; when the task has ended, a middleware
    waiting in [next] gets that end after at most the pending send and its own receive; the
    goroutine that reports the end never blocks; the caller of [runManaged] waits only for
    the middleware's own code before [next]; and a panic reaches the caller only if it was
    raised before [next] was called, later ones crash. *)
Theorem middleware_end_delivered (evs : list event) :
  let s := runs step start evs in
  (∀ err, err ∈ returned s → middlewareEnded s = Some err) ∧
  (∀ err, middlewareEnded s = Some err → mw s = MwWait →
     ∃ todo, (todo = [EvRecv] ∨ todo = [EvSend; EvRecv]) ∧
       mw (runs step s todo) = MwUser ∧ returned (runs step s todo) = returned s ++ [err]) ∧
  (is_Some (sender s) → buffer s = None) ∧
  (caller s = CallerWait → ready s = false →
     (mw s = MwUser ∧ middlewareCtx s = None ∧ returned s = []) ∨
     ∃ x, mw s = MwNext x ∧ ready (step s EvReady) = true) ∧
  (caller s = CallerPanic → middlewareCtx s = None ∧ mw s = MwDone) ∧
  (mw s = MwCrashed → is_Some (middlewareCtx s)).
Proof.
  intros s. pose proof (hooks_inv evs) as Hi. pose proof (caller_panic evs) as Hcp. fold s in Hi, Hcp.
  clearbody s. destruct s as [mc md me bu se rd sp m ca re]. destruct Hi as (Hs & Hr & Hc & Hm).
  cbn in *. split_and!.
  - done.
  - intros err -> ->. destruct Hm as (-> & _ & _ & _ & _ & Ha).
    inversion Hs; subst; [exists [EvSend; EvRecv]|exists [EvRecv]|];
      [split_and!; [by right|done|done]|split_and!; [by left|done|done]|].
    destruct Ha as [|[|]]; done.
  - intros [e He]. inversion Hs; congruence.
  - intros -> ->. destruct m as [| |x| | |]; cbn in *; [by injection Hm| | | | |].
    + left. destruct Hm as (_ & _ & _ & Hm). destruct mc; [by discriminate (Hm ltac:(by eexists))|].
      split_and!; [done|done|]. destruct re; [done|]. by destruct (Hc ltac:(done)).
    + right. exists x. split; [done|]. by destruct x.
    + by destruct Hm as (_ & _ & _ & _ & ? & _).
    + by destruct Hm as (_ & _ & ? & _).
    + by destruct Hm as (_ & _ & _ & ? & _).
  - intros Hca. specialize (Hcp Hca). subst sp.
    destruct m as [| |[x|]| | |]; cbn in *; [by injection Hm|..]; destruct_and!; try done.
    split; [|done]. by match goal with H : _ → mc = None |- _ => apply H end.
  - intros ->. by destruct Hm as (_ & _ & _ & _ & ?).
Qed.

End Code.

(** *** Concrete run: the task is canceled between its creation and the spawn *)

Example end_before_start :
  returned (runs (step (Ctx := nat)) start [EvSignal (Some "canceled"); EvSpawn; EvNext 1; EvReady; EvReturn; EvResume 0])
  = [Some "canceled"].
Proof. reflexivity. Qed.

End Hooks.
