(* ===== verification/TaskApi.v ===== *)
(** * TaskApi: what handlers call, and what a request leaves behind
      (tasks/api.go, delivery.go, interceptor.go, context.go, writers.go, enable.go)

    One execution's view of the task system: the shared manager of Tasks.v, the request's
    own tree, and the detached tasks that have no client. A task handle is a reference to a
    node of one of these trees. Handlers are functions over this world that return an
    error or panic. Task middleware is two parameters: what it does around a scope
    ([runScoped]), and what it does before [next] when a task is started ([runManaged]);
    its goroutine after that is in TaskHooks.v. *)

From S2P Require Import Prelude Protocol Tasks TaskHooks.
From stdpp Require Import prelude gmap strings list fin_maps fin_sets.

Module TaskApi.
Import Ids Tree Manager.

Inductive delivery := DRequest | DShared | DNoop (k : nat).

#[export] Instance delivery_eq_dec : EqDecision delivery.
Proof. solve_decision. Defined.

(** A [*taskNode]: the tree it is in, and its id there. *)
Inductive nodeRef :=
  | RReq (id : string)
  | RShared (top id : string)
  | RNoop (k : nat) (id : string).

#[export] Instance nodeRef_eq_dec : EqDecision nodeRef.
Proof. solve_decision. Defined.

Definition deliveryOf (r : nodeRef) : delivery :=
  match r with RReq _ => DRequest | RShared _ _ => DShared | RNoop k _ => DNoop k end.
Definition refId (r : nodeRef) : string :=
  match r with RReq id | RShared _ id | RNoop _ id => id end.
Definition sibling (r : nodeRef) (id : string) : nodeRef :=
  match r with RReq _ => RReq id | RShared top _ => RShared top id | RNoop k _ => RNoop k id end.
(** Nodes of detached tasks have no hooks. *)
Definition IsNoop (r : nodeRef) : bool := match r with RNoop _ _ => true | _ => false end.
Definition IsShared (r : nodeRef) : bool := match r with RShared _ _ => true | _ => false end.

Lemma IsShared_inv r : IsShared r = true → ∃ top, r = RShared top (refId r).
Proof. destruct r; [done|by eexists|done]. Qed.

(** What clients are sent. [PushState] goes to every connection, each with its own view of
    the manager; [PushUpdateProgress] is handed to the throttle of Tasks.v. *)
Inductive push :=
  | PushTree (requestID : string) (tasks : list taskNode)
  | PushOutput (requestID taskID msg : string)
  | PushProgress (requestID taskID : string) (current total : Z)
  | PushState (m : taskManager)
  | PushUpdateOutput (taskID msg : string)
  | PushUpdateProgress (taskID : string) (current total : Z).

(** The task values of a context, with its caller's identity ([tc_conn] is 0 without a
    connection) and whether it can be canceled ([Done() != nil]). *)
Record TaskCtx := TCtx {
  tc_conn : Z;
  tc_user : string;
  tc_delivery : option delivery;
  tc_node : option nodeRef;
  tc_slot : bool;
  tc_manager : bool;
  tc_done : bool;
}.

(** [w_root] and [w_reqNext] are the request's [requestDelivery], [w_noops] the detached
    tasks with their counters, [w_slot] the request's [taskSlot], [w_mids] the
    [middlewareCtx] of the nodes, the last one captured first. *)
Record World := W {
  w_tm : taskManager;
  w_root : option taskNode;
  w_reqNext : Z;
  w_noops : list (Z * taskNode);
  w_slot : option nodeRef;
  w_mids : list (nodeRef * TaskCtx);
  w_log : list push;
}.

(** How Go code ends: it returns an error (None is nil), or it panics. *)
Inductive outcome := Ret (err : option string) | Panicked (v : string).

(** What task middleware does up to its first call of [next] on a task that is started: it
    calls [next] with a context, returns without calling it, or panics. *)
Inductive started := CallsNext (c : TaskCtx) | NeverCalls | PanicsFirst (v : string).

Definition withDelivery (d : delivery) (c : TaskCtx) : TaskCtx :=
  TCtx (tc_conn c) (tc_user c) (Some d) (tc_node c) (tc_slot c) (tc_manager c) (tc_done c).
Definition withTaskNode (r : nodeRef) (c : TaskCtx) : TaskCtx :=
  TCtx (tc_conn c) (tc_user c) (tc_delivery c) (Some r) (tc_slot c) (tc_manager c) (tc_done c).

(** *** Trees *)

Definition putTm (m : taskManager) (w : World) : World :=
  W m (w_root w) (w_reqNext w) (w_noops w) (w_slot w) (w_mids w) (w_log w).
Definition putRoot (t : taskNode) (w : World) : World :=
  W (w_tm w) (Some t) (w_reqNext w) (w_noops w) (w_slot w) (w_mids w) (w_log w).
Definition putSlot (r : nodeRef) (w : World) : World :=
  W (w_tm w) (w_root w) (w_reqNext w) (w_noops w) (Some r) (w_mids w) (w_log w).
Definition putMid (r : nodeRef) (c : TaskCtx) (w : World) : World :=
  W (w_tm w) (w_root w) (w_reqNext w) (w_noops w) (w_slot w) ((r, c) :: w_mids w) (w_log w).
Definition logPush (p : push) (w : World) : World :=
  W (w_tm w) (w_root w) (w_reqNext w) (w_noops w) (w_slot w) (w_mids w) (w_log w ++ [p]).

Definition treeOf (r : nodeRef) (w : World) : option taskNode :=
  match r with
  | RReq _ => w_root w
  | RShared top _ => sh_tree <$> m_heap (w_tm w) !! top
  | RNoop k _ => snd <$> w_noops w !! k
  end.

Definition onTreeOf (r : nodeRef) (f : taskNode → taskNode) (w : World) : World :=
  match r with
  | RReq _ => match w_root w with Some t => putRoot (f t) w | None => w end
  | RShared top _ => putTm (onTree f top (w_tm w)) w
  | RNoop k _ =>
      W (w_tm w) (w_root w) (w_reqNext w) (alter (λ nt, (nt.1, f nt.2)) k (w_noops w)) (w_slot w) (w_mids w) (w_log w)
  end.

(** A section under the node's lock. *)
Definition onNode (r : nodeRef) (sec : info → info) : World → World :=
  onTreeOf r (alterNode (refId r) sec).

Definition findInfo (id : string) (t : taskNode) : option info :=
  snd <$> list_find (λ i, n_id i = id) (nodes t).

(** What the node behind a handle holds. *)
Definition nodeInfo (r : nodeRef) (w : World) : option info := treeOf r w ≫= findInfo (refId r).

Fixpoint addChildAt (pid : string) (child t : taskNode) : taskNode :=
  match t with
  | Node i cs => Node i ((addChildAt pid child <$> cs) ++ (if bool_decide (n_id i = pid) then [child] else []))
  end.

Section Code.
  Context (requestID : string).
  (** The task middleware, if installed: around a scope, and up to [next] for a task that
      is started. *)
  Context (middleware : option (TaskCtx → info → (TaskCtx → World → World * outcome) →
                                World → World * outcome)).
  Context (starting : option (TaskCtx → info → World → World * started)).

(** *** Deliveries *)

Definition sendSnapshot (d : delivery) (w : World) : World :=
  match d with
  | DRequest =>
      match w_root w with
      | Some (Node _ (c :: cs)) => logPush (PushTree requestID (c :: cs)) w
      | _ => w
      end
  | DShared => logPush (PushState (w_tm w)) w
  | DNoop _ => w
  end.

Definition sendOutput (d : delivery) (taskID msg : string) (w : World) : World :=
  match d with
  | DRequest => logPush (PushOutput requestID taskID msg) w
  | DShared => logPush (PushUpdateOutput taskID msg) w
  | DNoop _ => w
  end.

Definition sendProgress (d : delivery) (taskID : string) (current total : Z) (w : World) : World :=
  match d with
  | DRequest => logPush (PushProgress requestID taskID current total) w
  | DShared => logPush (PushUpdateProgress taskID current total) w
  | DNoop _ => w
  end.

Definition allocNode (d : delivery) (w : World) : World * string :=
  match d with
  | DRequest =>
      let n := wrapS64 (w_reqNext w + 1) in
      (W (w_tm w) (w_root w) n (w_noops w) (w_slot w) (w_mids w) (w_log w), "t" +:+ itoa n)
  | DShared =>
      let '(n, id) := allocID (m_nextID (w_tm w)) in
      (putTm (TaskManager (m_heap (w_tm w)) (m_tasks (w_tm w)) n) w, id)
  | DNoop k =>
      match w_noops w !! k with
      | None => (w, "")
      | Some (n, t) =>
          let n := wrapS64 (n + 1) in
          (W (w_tm w) (w_root w) (w_reqNext w) (<[k := (n, t)]> (w_noops w)) (w_slot w) (w_mids w) (w_log w),
           "t" +:+ itoa n)
      end
  end.

(** *** Nodes *)

Definition output (r : nodeRef) (msg : string) : World → World :=
  sendOutput (deliveryOf r) (refId r) msg.

Definition progress (r : nodeRef) (current total : Z) (w : World) : World :=
  sendProgress (deliveryOf r) (refId r) current total (onNode r (setProgress current total) w).

Definition createChild (r : nodeRef) (title : string) (w : World) : World * nodeRef :=
  let '(w, id) := allocNode (deliveryOf r) w in
  let w := onTreeOf r (addChildAt (refId r) (newChild id title)) w in
  let w := sendSnapshot (deliveryOf r) w in
  (onNode (sibling r id) (setStatus Running) w, sibling r id).

Definition closeNode (r : nodeRef) (w : World) : World :=
  sendSnapshot (deliveryOf r) (onNode r (setStatus Completed) w).

Definition failNode (r : nodeRef) (msg : string) (w : World) : World :=
  sendSnapshot (deliveryOf r) (onNode r (setFailed msg) w).

(** [completeTop] and [failTop]: the snapshot is sent only if the transition was made; the
    removal 200 ms later is an event of the manager. *)
Definition finishTop (op : taskNode → bool * taskNode) (top : string) (w : World) : World :=
  match m_heap (w_tm w) !! top with
  | None => w
  | Some s =>
      let w := putTm (finishWith op (w_tm w) top) w in
      if (op (sh_tree s)).1 then logPush (PushState (w_tm w)) w else w
  end.

(** [ensureRoot]. *)
Definition ensureRoot (w : World) : World :=
  match w_root w with
  | Some _ => w
  | None => putRoot (Node (Info "root" "" Running "" 0 0 None 0) []) w
  end.

(** [runManaged], up to its return: the context the middleware passed to [next], or the
    caller's; [inr] is the startup panic, raised again at the caller. *)
Definition runManaged (r : nodeRef) (title : string) (c : TaskCtx) (w : World) : World * (TaskCtx + string) :=
  match (if IsNoop r then None else starting) with
  | None => (w, inl c)
  | Some m =>
      match m c (default (infoOf (newChild (refId r) title)) (nodeInfo r w)) w with
      | (w, CallsNext c') => (putMid r c' w, inl c')
      | (w, NeverCalls) => (w, inl c)
      | (w, PanicsFirst v) => (w, inr v)
      end
  end.

(** [context.Background()]. *)
Definition Background : TaskCtx := TCtx 0 "" None None false false false.

Definition middlewareInheritedCtx (r : nodeRef) (w : World) : TaskCtx :=
  default Background (snd <$> head (filter (λ rc, rc.1 = r) (w_mids w))).

(** [Task.SubTask] and [TaskSub.SubTask]. *)
Definition TaskSubTask (r : nodeRef) (title : string) (w : World) : World * (nodeRef + string) :=
  let '(w, child) := createChild r title w in
  match runManaged child title (middlewareInheritedCtx r w) w with
  | (w, inl _) => (w, inl child)
  | (w, inr v) => (w, inr v)
  end.

(** *** Starting tasks: [inr] is a panic *)

Definition newDetachedTask (title : string) (w : World) : World * nodeRef :=
  (W (w_tm w) (w_root w) (w_reqNext w)
     (w_noops w ++ [(0%Z, Node (Info "t0" title Running "" 0 0 None 0) [])]) (w_slot w) (w_mids w) (w_log w),
   RNoop (length (w_noops w)) "t0").

(** A task with its context, from the context [runManaged] returned. *)
Definition startedTask (r : nodeRef) (wc : World * (TaskCtx + string))
    : World * (TaskCtx * nodeRef + string) :=
  match wc with
  | (w, inl c) => (w, inl (c, r))
  | (w, inr v) => (w, inr v)
  end.

Definition startRequestTask (c : TaskCtx) (title : string) (w : World)
    : World * (TaskCtx * nodeRef + string) :=
  if bool_decide (tc_delivery c = Some DRequest) then
    let w := ensureRoot w in
    let '(w, id) := allocNode DRequest w in
    let r := RReq id in
    let w := onTreeOf r (addChild (newChild id title)) w in
    let w := if tc_slot c then putSlot r w else w in
    let w := sendSnapshot DRequest w in
    startedTask r (runManaged r title (withTaskNode r c) (onNode r (setStatus Running) w))
  else let '(w, r) := newDetachedTask title w in (w, inl (c, r)).

(** The creation of a shared task: registered, broadcast, running. *)
Definition createShared (c : TaskCtx) (title : string) (topLevel : bool) (w : World) : World * string :=
  let '(m, id) := create (w_tm w) title (tc_conn c) (tc_user c) topLevel in
  let w := logPush (PushState m) (putTm m w) in
  (putTm (startRunning (w_tm w) id) w, id).

(** The task's own context: cancelable, with its delivery and node. *)
Definition sharedCtx (c : TaskCtx) (id : string) : TaskCtx :=
  TCtx (tc_conn c) (tc_user c) (Some DShared) (Some (RShared id id)) (tc_slot c) (tc_manager c) true.

Definition startSharedTask (c : TaskCtx) (title : string) (w : World)
    : World * (TaskCtx * nodeRef + string) :=
  if tc_manager c then
    let '(w, id) := createShared c title true w in
    let w := if tc_slot c && tc_done c then putSlot (RShared id id) w else w in
    startedTask (RShared id id) (runManaged (RShared id id) title (sharedCtx c id) w)
  else let '(w, r) := newDetachedTask title w in (w, inl (c, r)).

Definition StartTask (c : TaskCtx) (title : string) (shared : bool) (w : World)
    : World * (TaskCtx * nodeRef + string) :=
  if shared then startSharedTask c title w else startRequestTask c title w.

(** *** Scope-based tasks *)

Abbreviation code := (TaskCtx → World → World * outcome).

(** The parent a context gives to a new child: its node, or the request's root. *)
Definition parentOf (c : TaskCtx) (w : World) : option (World * nodeRef) :=
  match tc_delivery c with
  | None => None
  | Some d =>
      match tc_node c with
      | Some r => Some (w, r)
      | None => if bool_decide (d = DRequest) then Some (ensureRoot w, RReq "root") else None
      end
  end.

Definition SubTask (c : TaskCtx) (title : string) (fn : code) (w : World) : World * outcome :=
  match parentOf c w with
  | None => fn c w
  | Some (w, parent) =>
      let '(w, child) := createChild parent title w in
      Hooks.runScoped (if IsNoop child then None else middleware)
        (default (infoOf (newChild (refId child) title)) (nodeInfo child w)) c
        (λ c w,
          match fn (withTaskNode child c) w with
          | (w, Ret (Some e)) => (failNode child e w, Ret (Some e))
          | (w, Ret None) => (closeNode child w, Ret None)
          | (w, Panicked v) => (w, Panicked v)
          end) w
  end.

Definition SharedSubTask (c : TaskCtx) (title : string) (fn : code) (w : World) : World * outcome :=
  if match tc_node c with Some r => IsShared r | None => false end then SubTask c title fn w
  else if negb (tc_manager c) then SubTask c title fn w
  else
    let '(w, id) := createShared c title false w in
    Hooks.runScoped middleware (infoOf (newChild id title)) (sharedCtx c id)
      (λ c w,
        match fn c w with
        | (w, Ret (Some e)) => (finishTop (failTop e) id w, Ret (Some e))
        | (w, Ret None) => (finishTop completeTop id w, Ret None)
        | (w, Panicked v) => (w, Panicked v)
        end) w.

(** *** Updates *)

Definition Output (c : TaskCtx) (msg : string) (w : World) : World :=
  match tc_node c with
  | Some r => output r msg w
  | None =>
      match tc_delivery c with
      | Some d => if bool_decide (d = DShared) then w else sendOutput d "" msg w
      | None => w
      end
  end.

Definition TaskProgress (c : TaskCtx) (current total : Z) (w : World) : World :=
  match tc_node c with Some r => progress r current total w | None => w end.

Definition StepTaskProgress (c : TaskCtx) (step : Z) (w : World) : World :=
  match tc_node c with
  | None => w
  | Some r =>
      let w := onNode r (stepProgress step) w in
      match nodeInfo r w with
      | Some i => sendProgress (deliveryOf r) (refId r) (n_current i) (n_total i) w
      | None => w
      end
  end.

(** *** Writers: None discards, [inr] is a panic *)

Definition OutputWriter (c : TaskCtx) (title : string) (w : World) : World * (option nodeRef + string) :=
  match parentOf c w with
  | None => (w, inl None)
  | Some (w, parent) =>
      let '(w, child) := createChild parent title w in
      match runManaged child title c w with
      | (w, inl _) => (w, inl (Some child))
      | (w, inr v) => (w, inr v)
      end
  end.

Definition outputWrite (r : option nodeRef) (p : string) (w : World) : World * Z :=
  (match r with Some r => if bool_decide (p = "") then w else output r p w | None => w end,
   Z.of_nat (String.length p)).

Definition outputClose (r : option nodeRef) (w : World) : World :=
  match r with Some r => closeNode r w | None => w end.

(** [progressWriter]; the time of the last update is None before the first. *)
Record progressWriter := PW { pw_node : nodeRef; pw_written : Z; pw_total : Z; pw_lastSend : option Z }.

Definition setTotal (total : Z) (i : info) : info :=
  Info (n_id i) (n_title i) (n_status i) (n_error i) (n_current i) total (n_ended i) (n_signals i).

Definition WriterProgress (c : TaskCtx) (title : string) (size : Z) (w : World)
    : World * (option progressWriter + string) :=
  match parentOf c w with
  | None => (w, inl None)
  | Some (w, parent) =>
      let '(w, child) := createChild parent title w in
      match runManaged child title c (onNode child (setTotal size) w) with
      | (w, inl _) => (w, inl (Some (PW child 0 size None)))
      | (w, inr v) => (w, inr v)
      end
  end.

Definition progressWrite (pw : progressWriter) (p : string) (now : Z) (w : World)
    : World * progressWriter * Z :=
  let n := Z.of_nat (String.length p) in
  let written := wrapS64 (pw_written pw + n) in
  let w := onNode (pw_node pw) (setProgress written (pw_total pw)) w in
  if match pw_lastSend pw with None => true | Some t => bool_decide (100000000 ≤ now - t)%Z end
  then (sendProgress (deliveryOf (pw_node pw)) (refId (pw_node pw)) written (pw_total pw) w,
        PW (pw_node pw) written (pw_total pw) (Some now), n)
  else (w, PW (pw_node pw) written (pw_total pw) (pw_lastSend pw), n).

Definition progressClose (pw : progressWriter) (w : World) : World :=
  closeNode (pw_node pw) (onNode (pw_node pw) (setProgress (pw_written pw) (pw_total pw)) w).

(** *** Handles *)

Definition Close (r : nodeRef) (w : World) : World :=
  if IsShared r then finishTop completeTop (refId r) w
  else sendSnapshot (deliveryOf r) (onNode r (setStatus Completed) w).

Definition Fail (r : nodeRef) (message : string) (w : World) : World :=
  if IsShared r then finishTop (failTop message) (refId r) w
  else sendSnapshot (deliveryOf r) (onNode r (setFailed message) w).

Definition TaskErr (r : nodeRef) (err : option string) (w : World) : World :=
  match err with Some e => Fail r e w | None => Close r w end.

Definition TaskSubErr (r : nodeRef) (err : option string) (w : World) : World :=
  match err with Some e => failNode r e w | None => closeNode r w end.

(** *** The request middleware *)

Definition finalizeTaskSlot (canceled : bool) (err : option string) (hasDelivery : bool) (w : World) : World :=
  match w_slot w with
  | None => w
  | Some r =>
      if IsShared r then
        match err with
        | Some e => finishTop (failTop e) (refId r) w
        | None => if canceled then finishTop (failTop "canceled") (refId r) w
                  else finishTop completeTop (refId r) w
        end
      else
        let w :=
          match err with
          | Some e => onNode r (setFailed e) w
          | None => if canceled then onNode r (setFailed "canceled") w
                    else onNode r (setStatus Completed) w
          end in
        if hasDelivery then sendSnapshot DRequest w else w
  end.

(** The world an execution starts from. *)
Definition enter (m : taskManager) : World := W m None 0 [] None [] [].

Definition handlerCtx (conn : option Z) (user : string) (done : bool) : TaskCtx :=
  TCtx (default 0%Z conn) user
    (match conn with Some _ => Some DRequest | None => None end) None true true done.

(** What a handler does to a task it holds. *)
Inductive update :=
  | UOutput (c : TaskCtx) (msg : string)
  | UProgress (c : TaskCtx) (current total : Z)
  | UStep (c : TaskCtx) (step : Z)
  | UTaskOutput (r : nodeRef) (msg : string)
  | UTaskProgress (r : nodeRef) (current total : Z)
  | UErr (r : nodeRef) (err : option string)
  | USubErr (r : nodeRef) (err : option string)
  | UWrite (r : option nodeRef) (p : string)
  | UCloseWriter (r : option nodeRef)
  | UCloseProgress (pw : progressWriter).

Definition applyUpdate (u : update) : World → World :=
  match u with
  | UOutput c msg => Output c msg
  | UProgress c current total => TaskProgress c current total
  | UStep c step => StepTaskProgress c step
  | UTaskOutput r msg => output r msg
  | UTaskProgress r current total => progress r current total
  | UErr r err => TaskErr r err
  | USubErr r err => TaskSubErr r err
  | UWrite r p => λ w, (outputWrite r p w).1
  | UCloseWriter r => outputClose r
  | UCloseProgress pw => progressClose pw
  end.

(** A handler as its calls into the task system, over the contexts and handles it holds;
    what else it does leaves this state alone. [HAsk] is a choice it makes from what it
    can see, [HPanic] a panic, and [HRecover] code under a deferred [recover]. *)
Inductive handler :=
  | HRet (err : option string)
  | HPanic (v : string)
  | HRecover (body : handler) (k : outcome → handler)
  | HAsk (k : World → handler)
  | HStart (c : TaskCtx) (title : string) (shared : bool) (k : TaskCtx → nodeRef → handler)
  | HSub (c : TaskCtx) (title : string) (body : TaskCtx → handler) (k : option string → handler)
  | HSharedSub (c : TaskCtx) (title : string) (body : TaskCtx → handler) (k : option string → handler)
  | HChild (r : nodeRef) (title : string) (k : nodeRef → handler)
  | HOutputWriter (c : TaskCtx) (title : string) (k : option nodeRef → handler)
  | HWriterProgress (c : TaskCtx) (title : string) (size : Z) (k : option progressWriter → handler)
  | HWriteProgress (pw : progressWriter) (p : string) (now : Z) (k : progressWriter → handler)
  | HUpdate (u : update) (k : handler).

(** A call that may panic, and what follows it. *)
Definition orPanic {A} (wr : World * (A + string)) (k : A → World → World * outcome) : World * outcome :=
  match wr with
  | (w, inl a) => k a w
  | (w, inr v) => (w, Panicked v)
  end.

Definition afterScope (wr : World * outcome) (k : option string → World → World * outcome) : World * outcome :=
  match wr with
  | (w, Ret err) => k err w
  | (w, Panicked v) => (w, Panicked v)
  end.

Fixpoint run (h : handler) (w : World) : World * outcome :=
  match h with
  | HRet err => (w, Ret err)
  | HPanic v => (w, Panicked v)
  | HRecover body k => let '(w, o) := run body w in run (k o) w
  | HAsk k => run (k w) w
  | HStart c title shared k => orPanic (StartTask c title shared w) (λ cr, run (k cr.1 cr.2))
  | HSub c title body k => afterScope (SubTask c title (λ c, run (body c)) w) (λ err, run (k err))
  | HSharedSub c title body k => afterScope (SharedSubTask c title (λ c, run (body c)) w) (λ err, run (k err))
  | HChild r title k => orPanic (TaskSubTask r title w) (λ child, run (k child))
  | HOutputWriter c title k => orPanic (OutputWriter c title w) (λ wr, run (k wr))
  | HWriterProgress c title size k => orPanic (WriterProgress c title size w) (λ pw, run (k pw))
  | HWriteProgress pw p now k => let '(w, pw, _) := progressWrite pw p now w in run (k pw) w
  | HUpdate u k => run k (applyUpdate u w)
  end.

(** [taskMiddleware]: [canceled] is [ctx.Err() != nil] when the handler returned. The slot
    is finalized by the statement after the call of [next], which a panic skips. *)
Definition taskMiddleware (conn : option Z) (user : string) (done canceled : bool) (next : code)
    (m : taskManager) : World * outcome :=
  match next (handlerCtx conn user done) (enter m) with
  | (w, Ret err) =>
      (finalizeTaskSlot canceled err (match conn with Some _ => true | None => false end) w, Ret err)
  | (w, Panicked v) => (w, Panicked v)
  end.

(** *** Queries *)

(** [snapshotAllForConn], in the order the map is walked. *)
Definition snapshotAllForConn (m : taskManager) (connID : Z) (userID : string) : list (list info * bool * bool) :=
  omap (λ id, s ← lookupTask m id; Some (sharedSnapshotForConn s connID userID)) (elements (m_tasks m)).

(** [ListTasks], and what a new connection is pushed. *)
Definition ListTasks (tm : option taskManager) (c : TaskCtx) : list (list info * bool * bool) :=
  match tm with None => [] | Some m => snapshotAllForConn m (tc_conn c) (tc_user c) end.

Definition FindSharedTask (tm : option taskManager) (id : string) : option (list info) :=
  m ← tm; s ← lookupTask m id; Some (nodes (sh_tree s)).

Definition CancelTaskByID (tm : option taskManager) (id : string) : option taskManager * bool :=
  match tm with
  | None => (None, false)
  | Some m => let '(m', b) := cancelTask m id in (Some m', b)
  end.

(** ** Facts *)

Definition ids (t : taskNode) : list string := n_id <$> nodes t.

(** What a section, and what an operation on a tree, leaves in place. *)
Definition keepsId (sec : info → info) : Prop := ∀ i, n_id (sec i) = n_id i.
Definition keepsNodes (f : taskNode → taskNode) : Prop :=
  ∀ t, n_id (infoOf (f t)) = n_id (infoOf t) ∧ ids t ⊆ ids (f t).

(** Every shared task is registered under its root's id. *)
Definition heapOk (m : taskManager) : Prop :=
  ∀ top s, m_heap m !! top = Some s → n_id (infoOf (sh_tree s)) = top.

(** A handle that stands for a node, and that of a shared task for its root. *)
Definition handleOk (r : nodeRef) (w : World) : Prop :=
  is_Some (nodeInfo r w) ∧ match r with RShared top id => top = id | _ => True end.

Definition wf (w : World) : Prop :=
  heapOk (w_tm w) ∧ match w_slot w with Some r => handleOk r w | None => True end.

(** No task goes away, and the slot stays. *)
Definition grows (w w' : World) : Prop :=
  w_slot w' = w_slot w ∧
  (heapOk (w_tm w) → heapOk (w_tm w') ∧ ∀ r, handleOk r w → handleOk r w').

#[export] Instance grows_preorder : PreOrder grows.
Proof.
  split; [done|]. intros a b c [Hs Hh] [Hs' Hh']. split; [by rewrite Hs'|].
  intros Ha. destruct (Hh Ha) as [Hb Hr]. destruct (Hh' Hb) as [Hc Hr']. auto.
Qed.

Lemma grows_wf w w' : grows w w' → wf w → wf w'.
Proof.
  intros [Hs Hh] [Hw Hr]. destruct (Hh Hw) as [Hw' Hn]. split; [done|]. rewrite Hs.
  destruct (w_slot w) as [r|]; [auto|done].
Qed.

Lemma grows_nodes w w' :
  w_slot w' = w_slot w → (heapOk (w_tm w) → heapOk (w_tm w')) →
  (∀ r, is_Some (nodeInfo r w) → is_Some (nodeInfo r w')) → grows w w'.
Proof. intros Hs Hh Hn. split; [done|]. intros Hw. split; [auto|]. intros r [He ?]. split; auto. Qed.

(** *** Trees *)

Lemma findInfo_is_Some id t : is_Some (findInfo id t) ↔ id ∈ ids t.
Proof.
  unfold findInfo, ids. rewrite fmap_is_Some, list_elem_of_fmap. split.
  - intros [[k i] (Hk & Hi & _)%list_find_Some]. exists i. split; [done|].
    by eapply list_elem_of_lookup_2.
  - intros (i & -> & Hi). by apply (list_find_elem_of _ _ i).
Qed.

Lemma nodes_alterNode id f t :
  nodes (alterNode id f t) = (λ i, if bool_decide (n_id i = id) then f i else i) <$> nodes t.
Proof.
  induction t as [i cs IH] using taskNode_ind'. simpl. f_equal.
  induction IH as [|c cs Hc _ IHcs]; [done|].
  rewrite fmap_cons, !bind_cons, fmap_app, Hc. by f_equal.
Qed.

Lemma ids_alterNode id f t : keepsId f → ids (alterNode id f t) = ids t.
Proof.
  intros Hf. unfold ids. rewrite nodes_alterNode, <- list_fmap_compose.
  apply list_fmap_ext. intros _ i _. simpl. case_bool_decide; [apply Hf|done].
Qed.

Lemma findInfo_alterNode id f t : keepsId f → findInfo id (alterNode id f t) = f <$> findInfo id t.
Proof.
  intros Hf. unfold findInfo. rewrite nodes_alterNode. induction (nodes t) as [|i l IH]; [done|].
  rewrite fmap_cons. cbn [list_find]. case_bool_decide as Hi.
  - rewrite decide_True by (rewrite Hf; done). by rewrite decide_True.
  - rewrite !decide_False by done. revert IH.
    by destruct (list_find _ l) as [[]|], (list_find _ (_ <$> l)) as [[]|].
Qed.

Lemma ids_addChildAt pid child t : ids t ⊆ ids (addChildAt pid child t).
Proof.
  unfold ids. induction t as [i cs IH] using taskNode_ind'. simpl.
  intros x [->|Hx]%elem_of_cons; [by left|]. right. rewrite bind_app, fmap_app.
  apply elem_of_app. left. revert x Hx.
  induction IH as [|c cs Hc _ IHcs]; intros x Hx; [done|]. simpl in *.
  rewrite fmap_app in *. apply elem_of_app in Hx as [Hx|Hx]; apply elem_of_app; auto.
Qed.

Lemma keepsNodes_alterNode id f : keepsId f → keepsNodes (alterNode id f).
Proof.
  intros Hf [i cs]. split; [|by rewrite ids_alterNode]. simpl. case_bool_decide; [apply Hf|done].
Qed.

Lemma keepsNodes_addChildAt pid child : keepsNodes (addChildAt pid child).
Proof. intros [i cs]. split; [done|apply ids_addChildAt]. Qed.

Lemma keepsNodes_addChild child : keepsNodes (addChild child).
Proof.
  intros [i cs]. split; [done|]. unfold ids. simpl. rewrite bind_app, fmap_app. set_solver.
Qed.

Lemma signal_id e : keepsId (signalMiddlewareEnd e).
Proof. intros i. unfold signalMiddlewareEnd. by destruct (n_ended i). Qed.

Lemma setStatus_id s : keepsId (setStatus s).
Proof.
  intros i. unfold setStatus. destruct (terminal _); [done|].
  case_bool_decide; [by rewrite signal_id|done].
Qed.

Lemma setFailed_id msg : keepsId (setFailed msg).
Proof.
  intros i. unfold setFailed. destruct (terminal _); [done|]. by rewrite signal_id.
Qed.

Lemma keepsNodes_completeTop : keepsNodes (λ t, (completeTop t).2).
Proof.
  intros [i cs]. unfold ids. simpl. destruct (terminal _); [done|].
  cbn [snd infoOf nodes]. rewrite !fmap_cons, signal_id. done.
Qed.

Lemma ids_failAll msg t : ids (failAll msg t) = ids t.
Proof.
  unfold ids. generalize (nodes_failAll msg t). generalize (nodes (failAll msg t)).
  induction 1 as [|i j l k [Hid _] _ IH]; [done|]. by rewrite !fmap_cons, Hid, IH.
Qed.

Lemma keepsNodes_failTop msg : keepsNodes (λ t, (failTop msg t).2).
Proof.
  intros [i cs]. unfold failTop. destruct (terminal (n_status i)) eqn:E; [done|].
  assert (signalMiddlewareEnd (Some msg) (putStatus Failed msg i) = failChild msg i) as ->
    by (unfold failChild; by destruct (n_status i)).
  split; [simpl; by destruct (failChild_cascaded msg i) as [-> _]|].
  pose proof (ids_failAll msg (Node i cs)) as He. cbn [snd].
  change (Node _ (failChildren msg cs)) with (failAll msg (Node i cs)). by rewrite He.
Qed.

#[local] Hint Resolve setStatus_id setFailed_id keepsNodes_alterNode keepsNodes_addChildAt
  keepsNodes_addChild keepsNodes_completeTop keepsNodes_failTop : core.

(** *** Operations on the world *)

Definition sameTree (r r' : nodeRef) : bool :=
  match r, r' with
  | RReq _, RReq _ => true
  | RShared t _, RShared t' _ => bool_decide (t = t')
  | RNoop k _, RNoop k' _ => bool_decide (k = k')
  | _, _ => false
  end.

Lemma treeOf_onTreeOf r f w r' :
  treeOf r' (onTreeOf r f w) = if sameTree r r' then f <$> treeOf r' w else treeOf r' w.
Proof.
  destruct r as [id|top id|k id]; simpl.
  - destruct (w_root w) as [t|] eqn:E; destruct r'; simpl; by rewrite ?E.
  - destruct r' as [|top' id'|]; simpl; [done| |done]. unfold onTree.
    case_bool_decide as Ht; [subst top'|].
    + destruct (m_heap (w_tm w) !! top) as [s|] eqn:E; simpl; rewrite ?E; [|done].
      by rewrite lookup_insert_eq.
    + destruct (m_heap (w_tm w) !! top) as [s|] eqn:E; simpl; [|done].
      by rewrite lookup_insert_ne.
  - destruct r' as [| |k' id']; simpl; [done|done|]. case_bool_decide as Hk; [subst k'|].
    + rewrite list_lookup_alter_eq. by destruct (w_noops w !! k).
    + by rewrite list_lookup_alter_ne.
Qed.

Lemma onTreeOf_slot r f w : w_slot (onTreeOf r f w) = w_slot w.
Proof. destruct r; simpl; [by destruct (w_root w)|done|done]. Qed.

Lemma onTreeOf_heapOk r f w : keepsNodes f → heapOk (w_tm w) → heapOk (w_tm (onTreeOf r f w)).
Proof.
  intros Hf Hw. destruct r as [id|top id|k id]; simpl; [by destruct (w_root w)| |done].
  unfold onTree. destruct (m_heap (w_tm w) !! top) as [s|] eqn:E; [|done].
  intros top' s'. simpl. rewrite lookup_insert. case_decide as Ht; [|apply Hw].
  intros [= <-]. subst top'. simpl. destruct (Hf (sh_tree s)) as [-> _]. by apply Hw.
Qed.

Lemma nodeInfo_is_Some r w : is_Some (nodeInfo r w) ↔ ∃ t, treeOf r w = Some t ∧ refId r ∈ ids t.
Proof.
  unfold nodeInfo. destruct (treeOf r w) as [t|]; simpl.
  - rewrite findInfo_is_Some. split; [by exists t|by intros (? & [= <-] & ?)].
  - split; [by intros [??]|by intros (? & ? & _)].
Qed.

Lemma onTreeOf_grows r f w : keepsNodes f → grows w (onTreeOf r f w).
Proof.
  intros Hf. apply grows_nodes; [apply onTreeOf_slot|by apply onTreeOf_heapOk|].
  intros r' (t & Ht & Hin)%nodeInfo_is_Some. apply nodeInfo_is_Some.
  rewrite treeOf_onTreeOf, Ht. destruct (sameTree r r'); simpl; [|by exists t].
  exists (f t). split; [done|]. by apply Hf.
Qed.

Lemma onNode_grows r sec w : keepsId sec → grows w (onNode r sec w).
Proof. intros ?. apply onTreeOf_grows. auto. Qed.

Lemma nodeInfo_onNode r sec w : keepsId sec → nodeInfo r (onNode r sec w) = sec <$> nodeInfo r w.
Proof.
  intros Hs. unfold nodeInfo, onNode. rewrite treeOf_onTreeOf.
  assert (sameTree r r = true) as -> by (destruct r; simpl; by rewrite ?bool_decide_true).
  destruct (treeOf r w) as [t|]; simpl; [|done]. by apply findInfo_alterNode.
Qed.

Lemma logPush_grows p w : grows w (logPush p w).
Proof. by apply grows_nodes. Qed.

Lemma logPush_nodeInfo p w r : nodeInfo r (logPush p w) = nodeInfo r w.
Proof. by destruct r. Qed.

Lemma sendSnapshot_log d w : sendSnapshot d w = w ∨ ∃ p, sendSnapshot d w = logPush p w.
Proof.
  destruct d; simpl; [|by right; eexists|by left].
  destruct (w_root w) as [[i [|c cs]]|]; [by left|by right; eexists|by left].
Qed.

Lemma sendSnapshot_grows d w : grows w (sendSnapshot d w).
Proof. destruct (sendSnapshot_log d w) as [->|[p ->]]; [done|apply logPush_grows]. Qed.

Lemma sendSnapshot_nodeInfo d w r : nodeInfo r (sendSnapshot d w) = nodeInfo r w.
Proof. destruct (sendSnapshot_log d w) as [->|[p ->]]; [done|apply logPush_nodeInfo]. Qed.

Lemma sendOutput_grows d id msg w : grows w (sendOutput d id msg w).
Proof. destruct d; simpl; [apply logPush_grows..|done]. Qed.

Lemma sendProgress_grows d id c t w : grows w (sendProgress d id c t w).
Proof. destruct d; simpl; [apply logPush_grows..|done]. Qed.

Lemma allocNode_grows d w : grows w (allocNode d w).1.
Proof.
  destruct d as [| |k]; simpl; [done..|].
  destruct (w_noops w !! k) as [[n t]|] eqn:E; [|done]. apply grows_nodes; [done|done|].
  intros r (t' & Ht & Hin)%nodeInfo_is_Some. apply nodeInfo_is_Some. exists t'. split; [|done].
  destruct r as [| |k' id]; simpl in *; [done|done|].
  destruct (decide (k' = k)) as [->|Hk]; [|by rewrite list_lookup_insert_ne].
  rewrite list_lookup_insert_eq by (by eapply lookup_lt_Some). by rewrite E in Ht.
Qed.

Lemma createChild_grows r title w : grows w (createChild r title w).1.
Proof.
  unfold createChild. pose proof (allocNode_grows (deliveryOf r) w) as Ha.
  destruct (allocNode (deliveryOf r) w) as [w1 id]. simpl in *. etrans; [exact Ha|].
  etrans; [apply (onTreeOf_grows r (addChildAt (refId r) (newChild id title))); auto|].
  etrans; [apply (sendSnapshot_grows (deliveryOf r))|apply onNode_grows; auto].
Qed.

Lemma finishTop_grows op top w : keepsNodes (λ t, (op t).2) → grows w (finishTop op top w).
Proof.
  intros Hop. unfold finishTop. destruct (m_heap (w_tm w) !! top) as [s|] eqn:E; [|done].
  assert (grows w (putTm (finishWith op (w_tm w) top) w)) as Hg.
  { unfold finishWith. rewrite E. pose proof (Hop (sh_tree s)) as [Hid Hsub].
    destruct (op (sh_tree s)) as [did t]. simpl in *. apply grows_nodes; [done| |].
    - intros Hw top' s'. simpl. rewrite lookup_insert. case_decide as Ht; [|apply Hw].
      intros [= <-]. subst top'. simpl. rewrite Hid. by apply Hw.
    - intros r (t' & Ht & Hin)%nodeInfo_is_Some. apply nodeInfo_is_Some.
      destruct r as [|top' id|]; simpl in *; [by exists t'| |by exists t'].
      rewrite lookup_insert. case_decide as He; [|by exists t'].
      subst top'. rewrite E in Ht. injection Ht as <-. exists t. split; [done|auto]. }
  destruct (op (sh_tree s)).1; [|done]. etrans; [exact Hg|apply logPush_grows].
Qed.

(** *** What handlers call *)

Lemma ensureRoot_grows w : grows w (ensureRoot w).
Proof.
  unfold ensureRoot. destruct (w_root w) as [t|] eqn:E; [done|]. apply grows_nodes; [done|done|].
  intros r (t & Ht & Hin)%nodeInfo_is_Some. apply nodeInfo_is_Some. exists t.
  split; [|done]. destruct r as [id| |]; [|exact Ht..].
  simpl in Ht. by rewrite E in Ht.
Qed.

Lemma newDetachedTask_grows title w : grows w (newDetachedTask title w).1.
Proof.
  apply grows_nodes; [done|done|].
  intros r (t & Ht & Hin)%nodeInfo_is_Some. apply nodeInfo_is_Some. exists t. split; [|done].
  destruct r as [| |k id]; simpl in *; [done|done|].
  destruct (w_noops w !! k) as [x|] eqn:E; [|done].
  by rewrite (lookup_app_l_Some _ _ _ _ E).
Qed.

Lemma createShared_grows c title b w :
  grows w (createShared c title b w).1 ∧
  (heapOk (w_tm w) → let id := (createShared c title b w).2 in
     handleOk (RShared id id) (createShared c title b w).1).
Proof.
  unfold createShared, create. destruct (allocID (m_nextID (w_tm w))) as [n id].
  unfold startRunning. cbn [w_tm putTm logPush m_heap fst snd]. rewrite lookup_insert_eq.
  cbn [sh_tree newChild]. set (s' := withTree _ _ _).
  assert (n_id (infoOf (sh_tree s')) = id) as Hid by done.
  assert (heapOk (w_tm w) → ∀ top, is_Some (m_heap (w_tm w) !! top) ∨ top = id →
    handleOk (RShared top top)
      (putTm (putShared id s' (TaskManager (<[id:=Shared (newChild id title) (tc_conn c) (tc_user c) b false]>
         (m_heap (w_tm w))) ({[id]} ∪ m_tasks (w_tm w)) n)) w)) as Hin.
  { intros Hw top Htop. split; [|done]. apply nodeInfo_is_Some. simpl.
    rewrite insert_insert_eq. destruct (decide (top = id)) as [->|Ht].
    - rewrite lookup_insert_eq. eexists. split; [done|]. by left.
    - destruct Htop as [[s Hs]|]; [|done]. rewrite lookup_insert_ne, Hs by done. eexists.
      split; [done|]. rewrite <- (Hw top s Hs). destruct (sh_tree s) as [i cs]. by left. }
  split; [|intros Hw; apply Hin; auto]. split; [done|]. intros Hw. split.
  - intros top s. simpl. rewrite insert_insert_eq, lookup_insert.
    case_decide as Ht; [intros [= <-]; by rewrite Hid|apply Hw].
  - intros [id'|top id'|k id'] [He Hr]; [done| |done]. simpl in Hr. subst id'.
    apply (Hin Hw). left. apply nodeInfo_is_Some in He as (t & Ht & _). simpl in Ht.
    by destruct (m_heap (w_tm w) !! top).
Qed.

Lemma putSlot_wf r w : heapOk (w_tm w) → handleOk r w → wf (putSlot r w).
Proof. by split. Qed.

(** Task middleware uses the task system as handlers do: what it does before [next], and
    around code that leaves the world well-formed, leaves it well-formed. *)
Definition preserves (f : World → World * outcome) : Prop := ∀ w, wf w → wf (f w).1.

Definition middlewareOk : Prop :=
  match middleware with
  | None => True
  | Some mw => ∀ c i f, (∀ c', preserves (f c')) → preserves (mw c i f)
  end ∧
  match starting with
  | None => True
  | Some m => ∀ c i w, wf w → wf (m c i w).1
  end.

Section Handlers.
Context (Hmw : middlewareOk).

Lemma runManaged_wf r title c w : wf w → wf (runManaged r title c w).1.
Proof.
  intros Hw. unfold runManaged. destruct (IsNoop r); [done|].
  destruct Hmw as [_ Hst]. destruct starting as [m|]; [|done].
  specialize (Hst c (default (infoOf (newChild (refId r) title)) (nodeInfo r w)) w Hw).
  destruct (m _ _ w) as [w' [c'| |v]]; done.
Qed.

Lemma startedTask_fst r wc : (startedTask r wc).1 = wc.1.
Proof. by destruct wc as [w []]. Qed.

Lemma startRequestTask_wf c title w : wf w → wf (startRequestTask c title w).1.
Proof.
  intros Hw. unfold startRequestTask. case_bool_decide.
  2:{ apply (grows_wf w); [apply (newDetachedTask_grows title)|done]. }
  assert (wf (ensureRoot w)) as Hr by (apply (grows_wf w); [apply ensureRoot_grows|done]).
  assert (is_Some (w_root (ensureRoot w))) as [t Ht]
    by (unfold ensureRoot; destruct (w_root w) eqn:E; [by rewrite E|by eexists]).
  pose proof (allocNode_grows DRequest (ensureRoot w)) as H1.
  destruct (allocNode DRequest (ensureRoot w)) as [w1 id] eqn:Ea.
  assert (w_root w1 = Some t) as Ht1 by (injection Ea as <- _; exact Ht).
  assert (grows w1 (onTreeOf (RReq id) (addChild (newChild id title)) w1)) as H2
    by (apply onTreeOf_grows; auto).
  cbn [onTreeOf] in *. rewrite Ht1 in *. set (w2 := putRoot _ _) in *. cbn [fst] in *.
  assert (wf w2) as Hw2 by (by apply (grows_wf w1), (grows_wf (ensureRoot w))).
  rewrite startedTask_fst. apply runManaged_wf.
  eapply grows_wf; [apply onNode_grows; auto|]. eapply grows_wf; [apply (sendSnapshot_grows DRequest)|].
  destruct (tc_slot c); [|done]. apply putSlot_wf; [apply Hw2|]. split; [|done].
  apply nodeInfo_is_Some. eexists. split; [done|]. unfold ids. destruct t as [i cs]. simpl.
  rewrite bind_app, fmap_app. right. apply elem_of_app. right. by left.
Qed.

Lemma startSharedTask_wf c title w : wf w → wf (startSharedTask c title w).1.
Proof.
  intros Hw. unfold startSharedTask. destruct (tc_manager c).
  2:{ apply (grows_wf w); [apply (newDetachedTask_grows title)|done]. }
  destruct (createShared_grows c title true w) as [Hg Hh].
  destruct (createShared c title true w) as [w1 id]. simpl in *.
  assert (wf w1) as Hw1 by (by apply (grows_wf w)).
  rewrite startedTask_fst. apply runManaged_wf.
  destruct (tc_slot c && tc_done c); [|done]. apply putSlot_wf; [apply Hw1|apply Hh, Hw].
Qed.

Lemma StartTask_wf c title shared w : wf w → wf (StartTask c title shared w).1.
Proof. unfold StartTask. destruct shared; [apply startSharedTask_wf|apply startRequestTask_wf]. Qed.

Lemma parentOf_grows c w w' r : parentOf c w = Some (w', r) → grows w w'.
Proof.
  unfold parentOf. intros H. destruct (tc_delivery c) as [d|]; [|done].
  destruct (tc_node c); [by injection H as <- _|].
  case_bool_decide; [|done]. injection H as <- _. apply ensureRoot_grows.
Qed.

Lemma finish_grows (err : option string) top w :
  grows w match err with Some e => finishTop (failTop e) top w | None => finishTop completeTop top w end.
Proof. destruct err; apply finishTop_grows; auto. Qed.

Lemma onNode_send_grows r sec d w : keepsId sec → grows w (sendSnapshot d (onNode r sec w)).
Proof. intros Hs. etrans; [by apply (onNode_grows r sec)|apply sendSnapshot_grows]. Qed.

Lemma progress_grows r c t w : grows w (progress r c t w).
Proof. etrans; [by apply (onNode_grows r (setProgress c t))|apply sendProgress_grows]. Qed.

Lemma TaskErr_grows r err w : grows w (TaskErr r err w).
Proof.
  unfold TaskErr, Fail, Close. destruct (IsShared r), err;
    first [apply finishTop_grows|apply onNode_send_grows]; auto.
Qed.

Lemma TaskSubErr_grows r err w : grows w (TaskSubErr r err w).
Proof. destruct err; apply onNode_send_grows; auto. Qed.

Lemma applyUpdate_grows u w : grows w (applyUpdate u w).
Proof.
  destruct u as [c msg|c cu to|c st|r msg|r cu to|r err|r err|[r|] p|[r|]|pw]; simpl.
  - unfold Output. destruct (tc_node c) as [r|]; [apply sendOutput_grows|].
    destruct (tc_delivery c) as [d|]; [|done]. case_bool_decide; [done|apply sendOutput_grows].
  - unfold TaskProgress. destruct (tc_node c) as [r|]; [apply progress_grows|done].
  - unfold StepTaskProgress. destruct (tc_node c) as [r|]; [|done].
    etrans; [by apply (onNode_grows r (stepProgress st))|].
    destruct (nodeInfo r _); [apply sendProgress_grows|done].
  - apply sendOutput_grows.
  - apply progress_grows.
  - apply TaskErr_grows.
  - apply TaskSubErr_grows.
  - case_bool_decide; [done|apply sendOutput_grows].
  - done.
  - apply (TaskSubErr_grows r None).
  - done.
  - etrans; [by apply (onNode_grows (pw_node pw) (setProgress (pw_written pw) (pw_total pw)))|].
    apply (TaskSubErr_grows (pw_node pw) None).
Qed.

Lemma runScoped_wf (b : bool) i c f :
  (∀ c', preserves (f c')) → preserves (Hooks.runScoped (if b then None else middleware) i c f).
Proof.
  intros Hf. destruct Hmw as [Hm _]. destruct b; [apply Hf|].
  destruct middleware as [mw|]; [by apply Hm|apply Hf].
Qed.

Lemma SubTask_wf c title f : (∀ c', preserves (f c')) → preserves (SubTask c title f).
Proof.
  intros Hf w Hw. unfold SubTask. destruct (parentOf c w) as [[w' parent]|] eqn:Hp; [|by apply Hf].
  assert (wf w') as Hw' by (eapply grows_wf; [by eapply parentOf_grows|done]).
  pose proof (createChild_grows parent title w') as Hc.
  destruct (createChild parent title w') as [w1 child]. simpl in Hc.
  apply runScoped_wf; [|by apply (grows_wf w')]. intros c' w2 Hw2.
  pose proof (Hf (withTaskNode child c') w2 Hw2) as H.
  destruct (f _ w2) as [w3 [err|v]]; [|done].
  pose proof (grows_wf _ _ (TaskSubErr_grows child err w3) H) as H'. by destruct err.
Qed.

Lemma SharedSubTask_wf c title f : (∀ c', preserves (f c')) → preserves (SharedSubTask c title f).
Proof.
  intros Hf w Hw. unfold SharedSubTask.
  destruct (match tc_node c with Some r => IsShared r | None => false end); [by apply SubTask_wf|].
  destruct (negb (tc_manager c)); [by apply SubTask_wf|].
  destruct (createShared_grows c title false w) as [Hc _].
  destruct (createShared c title false w) as [w1 id].
  apply (runScoped_wf false); [|by apply (grows_wf w)]. intros c' w2 Hw2.
  pose proof (Hf c' w2 Hw2) as H. destruct (f c' w2) as [w3 [err|v]]; [|done].
  pose proof (grows_wf _ _ (finish_grows err id w3) H) as H'. by destruct err.
Qed.

Lemma orPanic_wf {A} (wr : World * (A + string)) k :
  wf wr.1 → (∀ a, preserves (k a)) → wf (orPanic wr k).1.
Proof. destruct wr as [w [a|v]]; simpl; [|done]. intros Hw Hk. by apply Hk. Qed.

Lemma afterScope_wf wr k : wf wr.1 → (∀ err, preserves (k err)) → wf (afterScope wr k).1.
Proof. destruct wr as [w [err|v]]; simpl; [|done]. intros Hw Hk. by apply Hk. Qed.

Lemma createChild_wf r title w : wf w → wf (createChild r title w).1.
Proof. apply grows_wf, createChild_grows. Qed.

Lemma TaskSubTask_wf r title w : wf w → wf (TaskSubTask r title w).1.
Proof.
  intros Hw. unfold TaskSubTask. pose proof (createChild_wf r title w Hw) as Hc.
  destruct (createChild r title w) as [w1 child].
  pose proof (runManaged_wf child title (middlewareInheritedCtx r w1) w1 Hc) as H.
  by destruct (runManaged _ _ _ w1) as [w2 []].
Qed.

Lemma parentOf_wf c w w' r : parentOf c w = Some (w', r) → wf w → wf w'.
Proof. intros Hp. by eapply grows_wf, parentOf_grows. Qed.

Lemma OutputWriter_wf c title w : wf w → wf (OutputWriter c title w).1.
Proof.
  intros Hw. unfold OutputWriter. destruct (parentOf c w) as [[w' parent]|] eqn:Hp; [|done].
  pose proof (createChild_wf parent title w' (parentOf_wf _ _ _ _ Hp Hw)) as Hc.
  destruct (createChild parent title w') as [w1 child].
  pose proof (runManaged_wf child title c w1 Hc) as H. by destruct (runManaged _ _ _ w1) as [w2 []].
Qed.

Lemma WriterProgress_wf c title size w : wf w → wf (WriterProgress c title size w).1.
Proof.
  intros Hw. unfold WriterProgress. destruct (parentOf c w) as [[w' parent]|] eqn:Hp; [|done].
  pose proof (createChild_wf parent title w' (parentOf_wf _ _ _ _ Hp Hw)) as Hc.
  destruct (createChild parent title w') as [w1 child].
  assert (wf (onNode child (setTotal size) w1)) as Hs by (by apply (grows_wf w1); [apply onNode_grows|]).
  pose proof (runManaged_wf child title c _ Hs) as H. by destruct (runManaged _ _ _ _) as [w2 []].
Qed.

Lemma run_wf h : preserves (run h).
Proof.
  induction h as [err|v|body IHb k IH|k IH|c title sh k IH|c title body IHb k IH|c title body IHb k IH
    |r title k IH|c title k IH|c title size k IH|pw p now k IH|u k IH]; intros w Hw; simpl.
  - done.
  - done.
  - specialize (IHb w Hw). destruct (run body w) as [w1 o]. by apply IH.
  - by apply IH.
  - apply orPanic_wf; [by apply StartTask_wf|auto].
  - apply afterScope_wf; [by apply SubTask_wf|auto].
  - apply afterScope_wf; [by apply SharedSubTask_wf|auto].
  - apply orPanic_wf; [by apply TaskSubTask_wf|auto].
  - apply orPanic_wf; [by apply OutputWriter_wf|auto].
  - apply orPanic_wf; [by apply WriterProgress_wf|auto].
  - unfold progressWrite. set (w1 := onNode _ _ w).
    assert (grows w w1) as Hg by (by apply onNode_grows).
    destruct (match pw_lastSend pw with Some t => _ | None => _ end); apply IH.
    + apply (grows_wf w1); [apply sendProgress_grows|by apply (grows_wf w)].
    + by apply (grows_wf w).
  - apply IH. apply (grows_wf w); [apply applyUpdate_grows|done].
Qed.

End Handlers.

(** *** Finalization *)

(** What the middleware makes of the slot's node. *)
Definition settle (canceled : bool) (err : option string) (i : info) : info :=
  match err with
  | Some e => setFailed e i
  | None => if canceled then setFailed "canceled" i else setStatus Completed i
  end.

Lemma settle_id canceled err : keepsId (settle canceled err).
Proof. intros i. destruct err, canceled; simpl; first [apply setFailed_id|apply setStatus_id]. Qed.

Lemma finishTop_root op sec top w s :
  m_heap (w_tm w) !! top = Some s → n_id (infoOf (sh_tree s)) = top →
  keepsNodes (λ t, (op t).2) → infoOf (op (sh_tree s)).2 = sec (infoOf (sh_tree s)) →
  nodeInfo (RShared top top) w = Some (infoOf (sh_tree s)) ∧
  nodeInfo (RShared top top) (finishTop op top w) = Some (sec (infoOf (sh_tree s))).
Proof.
  intros Hs Hid Hop Hsec. assert (∀ t, n_id (infoOf t) = top → findInfo top t = Some (infoOf t)) as Hf.
  { intros [i cs] Ht. unfold findInfo. cbn [nodes list_find]. by rewrite decide_True. }
  split; [unfold nodeInfo; simpl; rewrite Hs; by apply Hf|].
  unfold finishTop. rewrite Hs. pose proof (Hop (sh_tree s)) as [Hid' _].
  assert (nodeInfo (RShared top top) (putTm (finishWith op (w_tm w) top) w) =
          Some (sec (infoOf (sh_tree s)))) as Hgoal.
  { unfold finishWith. rewrite Hs. destruct (op (sh_tree s)) as [did t]. simpl in *.
    unfold nodeInfo. simpl. rewrite lookup_insert_eq. simpl. rewrite Hf by congruence.
    by rewrite Hsec. }
  destruct (op (sh_tree s)).1; [by rewrite logPush_nodeInfo|done].
Qed.

Lemma finalize_settles canceled err d w r :
  wf w → w_slot w = Some r → ∃ i, nodeInfo r w = Some i ∧
    nodeInfo r (finalizeTaskSlot canceled err d w) = Some (settle canceled err i).
Proof.
  intros [Hh Hr] Hs. unfold finalizeTaskSlot. rewrite Hs in *. destruct Hr as [[i Hi] Htop].
  destruct r as [id|top id|k id]; simpl in Htop.
  1,3: exists i; split; [done|];
    destruct err, canceled, d; cbn [IsShared]; cbv iota zeta;
    rewrite ?sendSnapshot_nodeInfo, nodeInfo_onNode, Hi by auto; done.
  subst id. exists i. split; [done|].
  assert (is_Some (m_heap (w_tm w) !! top)) as [s Hl]
    by (unfold nodeInfo in Hi; simpl in Hi; by destruct (m_heap (w_tm w) !! top)).
  assert (∀ op sec, keepsNodes (λ t, (op t).2) → infoOf (op (sh_tree s)).2 = sec (infoOf (sh_tree s)) →
    nodeInfo (RShared top top) (finishTop op top w) = Some (sec i)) as Hfin.
  { intros op sec Hop Hsec. destruct (finishTop_root op sec top w s) as [H1 H2]; auto.
    rewrite Hi in H1. injection H1 as ->. exact H2. }
  assert (∀ t, infoOf (completeTop t).2 = setStatus Completed (infoOf t)) as Hc.
  { intros [j cs]. simpl. unfold setStatus. destruct (terminal _); [done|].
    by rewrite bool_decide_true. }
  assert (∀ e t, infoOf (failTop e t).2 = setFailed e (infoOf t)) as Hf.
  { intros e [j cs]. simpl. unfold setFailed. by destruct (terminal _). }
  simpl. destruct err; [|destruct canceled]; apply Hfin; auto.
Qed.

(** What a request says of the task it leaves open: None is success. *)
Definition verdict (canceled : bool) (err : option string) : option string :=
  match err with Some e => Some e | None => if canceled then Some "canceled" else None end.

(** C24: a request that returns leaves no open task in its slot. Whatever the handler did
    with the task system, and whatever it recovered from, if it returns while its slot holds
    a task then that task exists, and after the middleware it is terminal: one that had
    already ended is untouched, an open one is failed with the handler's error, failed as
    canceled if the request's context ended, and completed otherwise, and its task
    middleware gets that same verdict; without a task in the slot nothing is touched. The
    handler's result is returned as it is. If the handler panics instead, by itself or
    because the middleware of a task it starts does, the panic goes on and nothing is
    finalized: the state is the one the panic left. *)
Theorem task_finalized (h : TaskCtx → handler) conn user done canceled m :
  heapOk m → middlewareOk →
  let '(w0, o) := run (h (handlerCtx conn user done)) (enter m) in
  let '(w, o') := taskMiddleware conn user done canceled (λ c, run (h c)) m in
  o' = o ∧
  match o, w_slot w0 with
  | Panicked _, _ | Ret _, None => w = w0
  | Ret err, Some r => ∃ i j, nodeInfo r w0 = Some i ∧ nodeInfo r w = Some j ∧ n_id j = n_id i ∧
      if terminal (n_status i) then j = i
      else n_status j = (match verdict canceled err with None => Completed | Some _ => Failed end) ∧
           n_error j = default (n_error i) (verdict canceled err) ∧
           (n_ended i = None → n_ended j = Some (verdict canceled err))
  end.
Proof.
  intros Hm Hmw. unfold taskMiddleware.
  pose proof (run_wf Hmw (h (handlerCtx conn user done)) (enter m)) as Hw.
  destruct (run _ (enter m)) as [w0 [err|v]]; [|done]. simpl in Hw. split; [done|].
  destruct (w_slot w0) as [r|] eqn:Hr; [|by unfold finalizeTaskSlot; rewrite Hr].
  destruct (finalize_settles canceled err (match conn with Some _ => true | None => false end) w0 r)
    as (i & Hi & Hj); [by apply Hw|done|].
  exists i, (settle canceled err i). split_and!; [done..|apply settle_id|].
  unfold settle, verdict. destruct err; [|destruct canceled];
    unfold setFailed, setStatus, signalMiddlewareEnd; destruct (terminal _); try done;
    simpl; by destruct (n_ended i).
Qed.

End Code.

(** ** Concrete runs *)

Definition exFails (c : TaskCtx) : handler :=
  HStart c "import" true (λ c r, HUpdate (UTaskProgress r 1 3) (HRet (Some "disk full"))).

Definition statusOf (r : nodeRef) (w : World) : option (TaskNodeStatus * option (option string)) :=
  (λ i, (n_status i, n_ended i)) <$> nodeInfo r w.

Lemma empty_heapOk : heapOk newTaskManager.
Proof. intros top s Hs. simpl in Hs. by rewrite lookup_empty in Hs. Qed.

Lemma task_finalized_witness :
  statusOf (RShared "st1" "st1") (run "r1" None None (exFails (handlerCtx (Some 3%Z) "ann" true))
    (enter newTaskManager)).1 = Some (Running, None) ∧
  ∃ j, nodeInfo (RShared "st1" "st1") (taskMiddleware "r1" (Some 3%Z) "ann" true false
         (λ c, run "r1" None None (exFails c)) newTaskManager).1 = Some j ∧
    n_status j = Failed ∧ n_error j = "disk full" ∧ n_ended j = Some (Some "disk full").
Proof.
  split; [vm_compute; reflexivity|].
  pose proof (task_finalized "r1" None None exFails (Some 3%Z) "ann" true false newTaskManager
    empty_heapOk (conj I I)) as H.
  remember (run _ _ _ _ _) as wo eqn:E. vm_compute in E. subst wo. cbv beta iota in H.
  destruct (taskMiddleware _ _ _ _ _ _ _) as [w o]. destruct H as [_ H]. cbn [w_slot] in H.
  destruct H as (i & j & Hi & Hj & _ & H). exists j. split; [exact Hj|].
  vm_compute in Hi. injection Hi as <-. cbn in H. destruct H as (H1 & H2 & H3).
  split; [exact H1|]. split; [exact H2|]. by apply H3.
Defined.

(** The slot holds one task: [StartTask] overwrites it, so of two tasks a handler starts and
    does not close only the second is finalized; the first stays running. *)
Definition exTwoTasks (c : TaskCtx) : handler :=
  HStart c "first" false (λ _ _, HStart c "second" false (λ _ _, HRet None)).

Abbreviation after h canceled :=
  ((taskMiddleware "r1" (Some 3%Z) "ann" true canceled (λ c, run "r1" None None (h c)) newTaskManager).1)
  (only parsing).

Lemma first_task_stays_open :
  statusOf (RReq "t1") (after exTwoTasks false) = Some (Running, None) ∧
  statusOf (RReq "t2") (after exTwoTasks false) = Some (Completed, Some None).
Proof. split; vm_compute; reflexivity. Qed.

(** Finalization does not reach the children of a request-scoped task, nor those of a shared
    task that completes: a writer the handler forgot to close stays running, and what its
    task middleware waits for never comes. *)
Definition exOpenWriter (shared : bool) (c : TaskCtx) : handler :=
  HStart c "import" shared (λ c _, HOutputWriter c "log" (λ _, HRet None)).

Lemma children_stay_open :
  statusOf (RReq "t2") (after (exOpenWriter false) false) = Some (Running, None) ∧
  statusOf (RReq "t2") (after (exOpenWriter false) true) = Some (Running, None) ∧
  statusOf (RShared "st1" "st2") (after (exOpenWriter true) false) = Some (Running, None) ∧
  statusOf (RShared "st1" "st2") (after (exOpenWriter true) true) = Some (Failed, Some (Some "canceled")).
Proof. split_and!; vm_compute; reflexivity. Qed.

(** A handler that panics leaves its task as it is: the request is answered with an error,
    but a shared task stays registered and running for every client. So does a task whose
    own middleware panics before [next]. *)
Definition exPanics (c : TaskCtx) : handler := HStart c "import" true (λ _ _, HPanic "nil map").

Definition panicsFirst (c : TaskCtx) (i : info) (w : World) : World * started := (w, PanicsFirst "no tracer").

Lemma panic_leaves_task_open :
  statusOf (RShared "st1" "st1") (after exPanics false) = Some (Running, None) ∧
  lookupTask (w_tm (after exPanics false)) "st1" ≠ None ∧
  let '(w, o) := taskMiddleware "r1" (Some 3%Z) "ann" true false
                   (λ c, run "r1" None (Some panicsFirst) (exFails c)) newTaskManager in
  o = Panicked "no tracer" ∧ statusOf (RShared "st1" "st1") w = Some (Running, None).
Proof. split_and!; [vm_compute; reflexivity|by vm_compute|split; vm_compute; reflexivity]. Qed.

End TaskApi.
