(* ===== verification/Naming.v ===== *)
(** * Naming: from Go names to TypeScript names, file names and URL paths
      (naming.go, generate.go)

    The conversions work on runes. The acronym conversions are index loops whose step
    jumps over runs of upper-case letters; they are written with fuel (one unit per turn)
    and shown to need no more turns than the name has runes. The plugin interface is a
    class, with the two implementations the library ships. *)

From S2P Require Import Prelude Runes.
From stdpp Require Import prelude list strings.

Module Naming.
Import Runes.

Definition dash : rune := 45%Z.
Definition underscore : rune := 95%Z.

Section Code.
  Context `{RuneCase}.
  Implicit Types s : gostr.

(** [toLowerCamel]. *)
Definition toLowerCamel s : gostr :=
  match s with
  | [] => s
  | r :: rest => toLower r :: rest
  end.

(** [toKebab]; [first]: the loop is at the start of the name. *)
Fixpoint kebabRunes (first : bool) s : gostr :=
  match s with
  | [] => []
  | r :: rest =>
      (if isUpper r then (if first then [] else [dash]) ++ [toLower r] else [r])
      ++ kebabRunes false rest
  end.

Definition toKebab s : gostr := kebabRunes true s.

(** The length of the run of upper-case runes at the start. *)
Fixpoint upperRun s : nat :=
  match s with
  | r :: rest => if isUpper r then S (upperRun rest) else 0
  | [] => 0
  end.

Definition lowerAt s (j : nat) : bool :=
  match s !! j with Some r => isLower r | None => false end.

(** The runes from [i] up to [j]. *)
Definition slice s (i j : nat) : gostr := take (j - i) (drop i s).

(** The loop of [toKebabAcronyms] from index [i], with what has been written. *)
Fixpoint kebabLoop (fuel : nat) s (i : nat) (result : gostr) : option gostr :=
  match s !! i with
  | None => Some result
  | Some r =>
      match fuel with
      | O => None
      | S fuel =>
          if negb (isUpper r) then kebabLoop fuel s (i + 1) (result ++ [r])
          else
            let result := if bool_decide (0 < i) then result ++ [dash] else result in
            let j := i + upperRun (drop i s) in
            let splitLast := bool_decide (1 < j - i) && lowerAt s j in
            if negb splitLast then kebabLoop fuel s j (result ++ (toLower <$> slice s i j))
            else kebabLoop fuel s (j - 1) (result ++ (toLower <$> slice s i (j - 1)))
      end
  end.

Definition toKebabAcronyms s : gostr := default [] (kebabLoop (length s) s 0 []).

(** [toSnake]: [strings.ReplaceAll] of the dashes. *)
Definition toSnake s : gostr :=
  (λ r, if bool_decide (r = dash) then underscore else r) <$> toKebabAcronyms s.

(** [toLowerCamelAcronyms]. *)
Definition toLowerCamelAcronyms s : gostr :=
  let upper := upperRun s in
  if bool_decide (upper = 0) then s
  else if bool_decide (upper = length s) then toLower <$> s
  else if bool_decide (upper = 1) then
    match s with r :: rest => toLower r :: rest | [] => [] end
  else
    let end_ := if lowerAt s upper then upper - 1 else upper in
    (toLower <$> take end_ s) ++ drop end_ s.

(** ** TypeScript identifiers (generate.go) *)

Definition asciiLetter (r : rune) : bool :=
  bool_decide (97 ≤ r ≤ 122)%Z || bool_decide (65 ≤ r ≤ 90)%Z || bool_decide (r = 95)%Z ||
  bool_decide (r = 36)%Z.
Definition asciiDigit (r : rune) : bool := bool_decide (48 ≤ r ≤ 57)%Z.

(** [isValidJSIdent]. *)
Definition isValidJSIdent (name : gostr) : bool :=
  match name with
  | [] => false
  | r :: rest => asciiLetter r && forallb (λ r, asciiLetter r || asciiDigit r) rest
  end.

(** [sanitizeTSIdent]; the letters and digits of Unicode are given. *)
Section Sanitize.
  Context (isLetter isDigit : rune → bool).

Fixpoint sanitizeFrom (first newWord : bool) (name : gostr) : gostr :=
  match name with
  | [] => []
  | r :: rest =>
      if bool_decide (r = 95)%Z || bool_decide (r = 36)%Z || isLetter r || (negb first && isDigit r)
      then (if newWord then toUpper r else r) :: sanitizeFrom false false rest
      else sanitizeFrom false true rest
  end.

Definition sanitizeTSIdent (name : gostr) : gostr :=
  if isValidJSIdent name then name else sanitizeFrom true false name.

End Sanitize.

(** ** The plugins *)

Class NamingPlugin := {
  FileName : gostr → gostr;
  MethodName : gostr → gostr;
  HookName : gostr → gostr;
  HandlerName : gostr → gostr;
  ErrorMethodName : gostr → gostr;
  PathPrefix : gostr → gostr;
  PathSegment : gostr → gostr;
}.

Definition kebab (FixAcronyms : bool) s : gostr :=
  if FixAcronyms then toKebabAcronyms s else toKebab s.

Definition DefaultNaming (FixAcronyms : bool) : NamingPlugin := {|
  FileName := kebab FixAcronyms;
  MethodName s := if FixAcronyms then toLowerCamelAcronyms s else toLowerCamel s;
  HookName s := lit "use" ++ s;
  HandlerName s := lit "on" ++ s;
  ErrorMethodName s := lit "is" ++ s;
  PathPrefix s := lit "/" ++ kebab FixAcronyms s;
  PathSegment := kebab FixAcronyms;
|}.

Definition PreserveNaming (FixAcronyms : bool) : NamingPlugin := {|
  FileName := kebab FixAcronyms;
  MethodName s := s;
  HookName s := lit "use" ++ s;
  HandlerName s := lit "on" ++ s;
  ErrorMethodName s := lit "is" ++ s;
  PathPrefix s := lit "/" ++ kebab FixAcronyms s;
  PathSegment := kebab FixAcronyms;
|}.

(** ** What the acronym conversions do, rune by rune *)

Definition startsLower s : bool := match s with r :: _ => isLower r | [] => false end.

(** An upper-case rune begins a word unless it continues an acronym: the rune before it is
    upper-case and the one after it is not lower-case. *)
Definition beginsWord (prev : option rune) (rest : gostr) : bool :=
  match prev with
  | None => false
  | Some p => negb (isUpper p) || startsLower rest
  end.

Fixpoint kebabFrom (prev : option rune) s : gostr :=
  match s with
  | [] => []
  | r :: rest =>
      (if isUpper r then (if beginsWord prev rest then [dash] else []) ++ [toLower r] else [r])
      ++ kebabFrom (Some r) rest
  end.

(** No two upper-case runes next to each other. *)
Fixpoint noAcronym s : bool :=
  match s with
  | r :: rest =>
      negb (isUpper r && match rest with q :: _ => isUpper q | [] => false end) && noAcronym rest
  | [] => true
  end.

Lemma upperRun_le s : upperRun s ≤ length s.
Proof. induction s as [|r s IH]; simpl; [lia|]. destruct (isUpper r); lia. Qed.

Lemma lookup_head (l : gostr) i : head (drop i l) = l !! i.
Proof. revert i. induction l as [|x l IH]; intros [|i]; simpl; try done. Qed.

Lemma drop_S' {A} (l : list A) i x rest : drop i l = x :: rest → drop (S i) l = rest.
Proof. intros E. rewrite <- Nat.add_1_r, <- drop_drop, E. done. Qed.

(** The runes of a run after its first, when the run is taken whole. *)
Lemma kebabFrom_run p rest n :
  isUpper p = true → n ≤ upperRun rest →
  (n = upperRun rest → startsLower (drop n rest) = false ∨ n = 0) →
  kebabFrom (Some p) rest =
    (toLower <$> take n rest) ++ kebabFrom (Some (default p (last (take n rest)))) (drop n rest).
Proof.
  revert p n. induction rest as [|r rest IH]; intros p n Hp Hn Hs.
  - destruct n; [|simpl in Hn; lia]. done.
  - destruct n as [|n]; [done|]. simpl in Hn. destruct (isUpper r) eqn:Er; [|lia].
    cbn [kebabFrom take drop fmap list_fmap]. rewrite Er. unfold beginsWord. rewrite Hp. cbn [negb orb].
    assert (startsLower rest = false) as ->.
    { destruct rest as [|q rest']; [done|]. simpl. destruct (isUpper q) eqn:Eq; [by apply upper_not_lower|].
      simpl in Hn. rewrite Eq in Hn. assert (n = 0) as -> by lia.
      destruct (Hs ltac:(simpl; rewrite Er, Eq; done)) as [Hf|]; [by simpl in Hf|done]. }
    cbn [app]. f_equal. rewrite (IH r n Er ltac:(lia)).
    + f_equal. f_equal. f_equal. rewrite last_cons. by destruct (last (take n rest)).
    + intros ->. destruct (Hs ltac:(simpl; by rewrite Er)) as [Hf|]; [by left|done].
Qed.

Lemma kebabFrom_prev p q s :
  match s with r :: _ => isUpper r = false | [] => True end → kebabFrom p s = kebabFrom q s.
Proof. destruct s as [|r s]; [done|]. simpl. by intros ->. Qed.

Lemma upperRun_ends s : match drop (upperRun s) s with r :: _ => isUpper r = false | [] => True end.
Proof. induction s as [|r s IH]; simpl; [done|]. by destruct (isUpper r) eqn:E. Qed.

Lemma startsLower_drop s j : startsLower (drop j s) = lowerAt s j.
Proof. unfold lowerAt. rewrite <- lookup_head. by destruct (drop j s). Qed.

(** Where the loop stands: it writes a dash exactly when the rune at [i] begins a word. *)
Definition entry (prev : option rune) s (i : nat) : Prop :=
  match drop i s with
  | r :: rest => isUpper r = true → beginsWord prev rest = bool_decide (0 < i)
  | [] => True
  end.

Lemma slice_run s i r rest n :
  drop i s = r :: rest → toLower <$> slice s i (i + S n) = toLower r :: (toLower <$> take n rest).
Proof. intros E. unfold slice. rewrite E. replace (i + S n - i) with (S n) by lia. done. Qed.

Lemma kebabLoop_spec fuel s i prev result :
  length s - i ≤ fuel → entry prev s i →
  kebabLoop fuel s i result = Some (result ++ kebabFrom prev (drop i s)).
Proof.
  revert i prev result. induction fuel as [|fuel IH]; intros i prev result Hf He;
    simpl; rewrite <- lookup_head; unfold entry in He;
    destruct (drop i s) as [|r rest] eqn:E; simpl; try by rewrite app_nil_r.
  { assert (length (drop i s) = 0) by (rewrite length_drop; lia). by rewrite E in *. }
  assert (Hi : i < length s).
  { assert (length (drop i s) ≠ 0) by by rewrite E. rewrite length_drop in *. lia. }
  pose proof (drop_S' _ _ _ _ E) as Er. destruct (isUpper r) eqn:Hr; simpl.
  - specialize (He eq_refl). rewrite He. remember (upperRun rest) as n eqn:Hn0.
    assert (Hd : ∀ m, drop (i + S m) s = drop m rest).
    { intros m. rewrite <- Er, drop_drop. f_equal. lia. }
    replace (if bool_decide (0 < i) then result ++ [dash] else result)
      with (result ++ (if bool_decide (0 < i) then [dash] else [])) by (case_bool_decide; by rewrite ?app_nil_r).
    destruct (bool_decide (1 < i + S n - i) && lowerAt s (i + S n)) eqn:Es; simpl.
    + apply andb_true_iff in Es as [Hn%bool_decide_eq_true Hl]. destruct n as [|m] eqn:En; [lia|].
      replace (i + S (S m) - 1) with (i + S m) by lia. rewrite (slice_run s i r rest m E).
      rewrite (IH _ (Some (default r (last (take m rest))))); [|lia|].
      * rewrite Hd, <- !app_assoc. simpl. do 3 f_equal.
        rewrite (kebabFrom_run r rest m Hr); [done|lia|lia].
      * unfold entry. rewrite Hd. destruct (drop m rest) as [|q rest'] eqn:Eq; [done|]. intros _.
        unfold beginsWord. rewrite bool_decide_true by lia.
        pose proof (drop_S' _ _ _ _ Eq) as Eq'.
        rewrite <- startsLower_drop, Hd in Hl. rewrite <- Eq', Hl. by rewrite orb_true_r.
    + rewrite (slice_run s i r rest n E).
      rewrite (IH _ (Some (default r (last (take n rest))))); [|lia|].
      * rewrite Hd, <- !app_assoc. simpl. do 3 f_equal.
        rewrite (kebabFrom_run r rest n Hr); [done|lia|]. intros _.
        apply andb_false_iff in Es as [Hn%bool_decide_eq_false|Hl]; [right; lia|left].
        by rewrite <- startsLower_drop, Hd in Hl.
      * unfold entry. rewrite Hd. pose proof (upperRun_ends rest) as Hu. rewrite <- Hn0 in Hu.
        destruct (drop n rest); [done|]. congruence.
  - rewrite (IH _ (Some r)); [|lia|].
    + rewrite Nat.add_1_r, Er, <- app_assoc. done.
    + unfold entry. rewrite Nat.add_1_r, Er. destruct rest as [|q rest]; [done|]. intros _.
      unfold beginsWord. rewrite Hr. by rewrite bool_decide_true by lia.
Qed.

Lemma noAcronym_kebab s p :
  noAcronym s = true →
  match s, p with r :: _, Some q => isUpper r && isUpper q = false | _, _ => True end →
  kebabFrom p s = kebabRunes (bool_decide (p = None)) s.
Proof.
  revert p. induction s as [|r s IH]; intros p Ha Hp; simpl; [done|].
  simpl in Ha. apply andb_true_iff in Ha as [Hh Ha]. rewrite (IH (Some r) Ha).
  - f_equal. destruct (isUpper r) eqn:E; [|done]. f_equal. destruct p as [q|]; [|done].
    simpl in *. by rewrite Hp.
  - destruct s as [|q s]; [done|]. apply negb_true_iff in Hh. by rewrite andb_comm.
Qed.

(** The acronym-aware kebab case. The index loop, whose step jumps over runs of
    upper-case letters, always ends, within one turn per rune, and its result is the
    rune-by-rune rule: an upper-case rune is lowered, and a dash goes before it, except at
    the start and inside an acronym (after an upper-case rune, unless a lower-case one
    follows). Where no two upper-case runes are adjacent, this is the plain [toKebab], so
    the option changes only the names that have acronyms. *)
Theorem kebab_acronyms_spec (s : gostr) :
  (∀ fuel, length s ≤ fuel → kebabLoop fuel s 0 [] = Some (toKebabAcronyms s)) ∧
  toKebabAcronyms s = kebabFrom None s ∧
  (noAcronym s = true → toKebabAcronyms s = toKebab s).
Proof.
  assert (He : entry None s 0) by (unfold entry; simpl; by destruct s).
  assert (Hs : ∀ fuel, length s ≤ fuel → kebabLoop fuel s 0 [] = Some (kebabFrom None s)).
  { intros fuel Hf. rewrite (kebabLoop_spec fuel s 0 None); [done|lia|done]. }
  assert (Hk : toKebabAcronyms s = kebabFrom None s) by (unfold toKebabAcronyms; by rewrite Hs).
  rewrite Hk. split_and!; [done|done|]. intros Ha. rewrite noAcronym_kebab; [done|done|by destruct s].
Qed.

(** The camel case of a name without a leading acronym is the plain one. *)
Lemma lowerCamel_agrees s : upperRun s ≤ 1 → noAcronym s = true → toLowerCamelAcronyms s = 
  if bool_decide (upperRun s = 0) then s else toLowerCamel s.
Proof.
  intros Hu Ha. unfold toLowerCamelAcronyms. case_bool_decide as E0; [done|].
  assert (upperRun s = 1) as E1 by lia. rewrite E1. destruct s as [|r s]; [done|].
  case_bool_decide as El; simpl in *; [|done]. assert (s = []) as -> by (by destruct s). done.
Qed.
End Code.

(** With the acronym option, names that differ only in how they write an acronym share a
    path: two handlers of one group registered as REST routes then collide. *)
Example kebab_acronym_collision :
  toKebabAcronyms (H := asciiCase) (lit "GetXMLFile") = lit "get-xml-file" ∧
  toKebabAcronyms (H := asciiCase) (lit "GetXmlFile") = lit "get-xml-file" ∧
  toKebab (H := asciiCase) (lit "GetXMLFile") = lit "get-x-m-l-file" ∧
  toKebabAcronyms (H := asciiCase) (lit "API2Handlers") = lit "api2-handlers" ∧
  toLowerCamelAcronyms (H := asciiCase) (lit "HTTPSConnection") = lit "httpsConnection" ∧
  toSnake (H := asciiCase) (lit "RESTHandlers") = lit "rest_handlers".
Proof. vm_compute. done. Qed.

End Naming.
