(* ===== verification/Schema.v ===== *)
(** * Schema: JSON Schemas from Go types (schema.go, openapi.go, generate.go)

    [goTypeToJSONSchema] follows reflect types through pointers, slices, maps and struct
    fields. Go's named types can be recursive, so the recursion is on fuel; what makes it end
    is the guard on struct types: in inline mode the set of types being built, in ref mode
    the table of component schemas. A struct type is an identity, and the environment gives
    its fields; so is any other named type that contains itself, with its underlying type in
    the environment. There is no guard on those: a cycle through no struct has no end. The mode is threaded as the state the code keeps in [schemaGen]; a component
    registered before its fields are walked is an entry without a schema. *)

From S2P Require Import Prelude Runes Transform Registry Naming.
From stdpp Require Import prelude gmap strings list fin_maps fin_sets sorting.

Module Schema.
Import Runes Naming.
Import Transform(ValidateRule, vr_tag, vr_param, ParseValidateTag).
Import Registry(EnumInfo, en_isString, en_values).

(** ** Types *)

Inductive basic := BString | BInt | BUint8 | BUint | BFloat | BBool | BOther.

#[export] Instance basic_eq_dec : EqDecision basic.
Proof. solve_decision. Defined.

(** [reflect.Type]; [id] is the identity of a named type ("pkg.Name"). [RNull] is a struct
    type too, an instance of the generic sql.Null with the type of its field V. *)
Inductive rtype :=
  | RBasic (k : basic) (id : option string)
  | RPtr (t : rtype)
  | RSlice (id : option string) (elem : rtype)
  | RArray (id : option string) (n : nat) (elem : rtype)
  | RMap (id : option string) (key elem : rtype)
  | RStruct (id : string)
  | RNull (id : string) (v : rtype)
  | RAnonStruct
  | RInterface.

Definition typeId (t : rtype) : option string :=
  match t with
  | RBasic _ id | RSlice id _ | RArray id _ _ | RMap id _ _ => id
  | RStruct id | RNull id _ => Some id
  | RPtr _ | RAnonStruct | RInterface => None
  end.

(** One dereference, as the code does. *)
Definition deref (t : rtype) : rtype := match t with RPtr t => t | t => t end.

Definition isPtr (t : rtype) : bool := match t with RPtr _ => true | _ => false end.
Definition isUint8 (t : rtype) : bool := match t with RBasic BUint8 _ => true | _ => false end.

Definition isUnnamedByteSlice (t : rtype) : bool :=
  match t with RSlice None e => isUint8 e | _ => false end.
Definition isByteSlice (t : rtype) : bool := match t with RSlice _ e => isUint8 e | _ => false end.
Definition isByteArray (t : rtype) : bool := match t with RArray _ _ e => isUint8 e | _ => false end.
Definition isDuration (t : rtype) : bool := bool_decide (typeId (deref t) = Some "time.Duration").

(** [reflect.StructField], with its [json] and [validate] tags. *)
Record rfield := RField {
  f_name : gostr;
  f_type : rtype;
  f_exported : bool;
  f_anonymous : bool;
  f_json : gostr;
  f_validate : gostr;
}.

(** ** Schemas *)

(** The keywords that do not nest; [Num] is float64. *)
Record facets {Num : Type} := Facets {
  Format : string;
  Enum : list gostr;
  MinLength : option Z;
  MaxLength : option Z;
  MinItems : option Z;
  MaxItems : option Z;
  Minimum : option Num;
  Maximum : option Num;
  ExclusiveMinimum : bool;
  ExclusiveMaximum : bool;
  Pattern : string;
}.
Arguments facets Num : clear implicits.

(** [JSONSchema]. Properties are a map, as a list with one entry per name; a $ref is the
    name of its component. *)
Inductive JSONSchema {Num : Type} := JSch {
  Type_ : string;
  Facet : facets Num;
  Properties : list (gostr * JSONSchema);
  Required : list gostr;
  Items : option JSONSchema;
  AdditionalProperties : option JSONSchema;
  Ref : option gostr;
  Description : gostr;
}.
Arguments JSONSchema Num : clear implicits.

(** ** Tags *)

Fixpoint hasInfix (pat s : gostr) : bool :=
  hasPrefix pat s || match s with [] => false | _ :: s => hasInfix pat s end.

Definition comma : rune := 44%Z.

Definition jsonFieldName (f : rfield) : gostr :=
  match f_json f with
  | [] => f_name f
  | tag => match split comma tag with [] :: _ | [] => f_name f | name :: _ => name end
  end.

(** [jsonFormatOption]: the first format option after the name. *)
Definition jsonFormatOption (f : rfield) : gostr :=
  match f_json f with
  | [] => []
  | tag =>
      match find (hasPrefix (lit "format:")) (tail (split comma tag)) with
      | Some p => drop (length (lit "format:")) p
      | None => []
      end
  end.

(** [byteSliceFormatShape]: Some true is the array shape, Some false a string. *)
Definition byteSliceFormatShape (format : gostr) : option bool :=
  if bool_decide (format = lit "array") then Some true
  else if bool_decide (format ∈ lit <$> ["base64"; "base64url"; "base32"; "base32hex"; "base16"; "hex"])
  then Some false else None.

Definition isOptional (f : rfield) : bool :=
  hasInfix (lit "omitempty") (f_json f) || isPtr (f_type f).

(** [properties[name] = s]. *)
Definition setProp {A} (name : gostr) (s : A) (props : list (gostr * A)) : list (gostr * A) :=
  filter (λ p, p.1 ≠ name) props ++ [(name, s)].

Section Gen.
  Context `{RuneCase} {Num : Type}.
  (** [parseFloat] and the conversion of a float64 to int. *)
  Context (parseFloat : gostr → Num) (toInt : Num → Z).
  (** What reflection says of a struct type: its name and fields; and the underlying type
      of the named types that are no structs, for those of them that [RStruct] stands for. *)
  Context (nameOf : string → gostr) (fieldsOf : string → list rfield) (namedOf : string → option rtype).
  (** The registered enums, the documentation, and the letters and digits of Unicode. *)
  Context (enumTypes : gmap string EnumInfo).
  Context (typeDoc : gostr → gostr) (fieldDoc : gostr → gostr → gostr).
  Context (isLetter isDigit : rune → bool).
  Abbreviation schema := (JSONSchema Num).

Definition noFacets : facets Num := Facets Num "" [] None None None None None None false false "".
Definition withFormat (f : string) : facets Num := Facets Num f [] None None None None None None false false "".
Definition withItemCount (n : nat) : facets Num :=
  Facets Num "" [] None None (Some (Z.of_nat n)) (Some (Z.of_nat n)) None None false false "".

Definition plain (ty : string) (fc : facets Num) : schema := JSch Num ty fc [] [] None None None [].
Definition arrayOf (fc : facets Num) (items : schema) : schema :=
  JSch Num "array" fc [] [] (Some items) None None [].
Definition componentName (id : string) : gostr := sanitizeTSIdent isLetter isDigit (nameOf id).
Definition refTo (id : string) : schema := JSch Num "" noFacets [] [] None None (Some (componentName id)) [].

Definition GetEnum (t : rtype) : option EnumInfo := id ← typeId t; enumTypes !! id.

Definition enumToJSONSchema (e : EnumInfo) : schema :=
  plain (if en_isString e then "string" else "integer")
    (Facets Num "" ((en_values e).*2) None None None None None None false false "").

(** A type with its kind, and that of what it points to. *)
Definition resolve (t : rtype) : rtype :=
  match t with RStruct id => default t (namedOf id) | t => t end.

Definition see (t : rtype) : rtype := match resolve t with RPtr u => RPtr (resolve u) | t => t end.

Definition fieldsSeen (id : string) : list rfield :=
  (λ f, RField (f_name f) (see (f_type f)) (f_exported f) (f_anonymous f) (f_json f) (f_validate f))
    <$> fieldsOf id.

(** *** Fields *)

Definition durationFieldSchema (f : rfield) : option schema :=
  if negb (isDuration (f_type f)) then None
  else if bool_decide (jsonFormatOption f = lit "units") then Some (plain "string" noFacets)
  else if bool_decide (jsonFormatOption f = lit "iso8601") then Some (plain "string" (withFormat "duration"))
  else None.

Definition byteSliceFieldSchema (f : rfield) : option schema :=
  let t := f_type f in
  if negb (isByteSlice t) && negb (isByteArray t) then None
  else
    match byteSliceFormatShape (jsonFormatOption f) with
    | Some true =>
        Some (arrayOf (match t with RArray _ n _ => withItemCount n | _ => noFacets end)
                (plain "integer" noFacets))
    | Some false => Some (plain "string" (withFormat "byte"))
    | None =>
        if isUnnamedByteSlice t || isByteArray t then Some (plain "string" (withFormat "byte"))
        else Some (arrayOf noFacets (plain "integer" noFacets))
    end.

Definition formatFieldSchema (f : rfield) : option schema :=
  match durationFieldSchema f with Some s => Some s | None => byteSliceFieldSchema f end.

(** *** Constraints *)

Definition isStringKind (t : rtype) : bool := match deref t with RBasic BString _ => true | _ => false end.
Definition isArrayKind (t : rtype) : bool :=
  match deref t with RSlice _ _ | RArray _ _ _ => true | _ => false end.

(** One rule of [applyValidateConstraints]. *)
Definition applyRule (t : rtype) (fc : facets Num) (r : ValidateRule) : facets Num :=
  let n := parseFloat (vr_param r) in
  let '(Facets _ fmt en mnl mxl mni mxi mn mx emn emx pat) := fc in
  let tagIs (tag : string) := bool_decide (vr_tag r = lit tag) in
  if tagIs "min" then
    if isStringKind t then Facets Num fmt en (Some (toInt n)) mxl mni mxi mn mx emn emx pat
    else if isArrayKind t then Facets Num fmt en mnl mxl (Some (toInt n)) mxi mn mx emn emx pat
    else Facets Num fmt en mnl mxl mni mxi (Some n) mx emn emx pat
  else if tagIs "max" then
    if isStringKind t then Facets Num fmt en mnl (Some (toInt n)) mni mxi mn mx emn emx pat
    else if isArrayKind t then Facets Num fmt en mnl mxl mni (Some (toInt n)) mn mx emn emx pat
    else Facets Num fmt en mnl mxl mni mxi mn (Some n) emn emx pat
  else if tagIs "len" then
    if isArrayKind t then Facets Num fmt en mnl mxl (Some (toInt n)) (Some (toInt n)) mn mx emn emx pat
    else Facets Num fmt en (Some (toInt n)) (Some (toInt n)) mni mxi mn mx emn emx pat
  else if tagIs "gte" then Facets Num fmt en mnl mxl mni mxi (Some n) mx emn emx pat
  else if tagIs "gt" then Facets Num fmt en mnl mxl mni mxi (Some n) mx true emx pat
  else if tagIs "lte" then Facets Num fmt en mnl mxl mni mxi mn (Some n) emn emx pat
  else if tagIs "lt" then Facets Num fmt en mnl mxl mni mxi mn (Some n) emn true pat
  else if tagIs "email" then Facets Num "email" en mnl mxl mni mxi mn mx emn emx pat
  else if tagIs "url" then Facets Num "uri" en mnl mxl mni mxi mn mx emn emx pat
  else if tagIs "uuid" then Facets Num "uuid" en mnl mxl mni mxi mn mx emn emx pat
  else if tagIs "alpha" then Facets Num fmt en mnl mxl mni mxi mn mx emn emx "^[a-zA-Z]+$"
  else if tagIs "alphanum" then Facets Num fmt en mnl mxl mni mxi mn mx emn emx "^[a-zA-Z0-9]+$"
  else if tagIs "oneof" then Facets Num fmt (en ++ split 32 (vr_param r)) mnl mxl mni mxi mn mx emn emx pat
  else fc.

Definition applyValidateConstraints (s : schema) (tag : gostr) (t : rtype) : schema :=
  let '(JSch _ ty fc props req items add ref desc) := s in
  JSch Num ty (foldl (applyRule t) fc (ParseValidateTag tag)) props req items add ref desc.

Definition describe (d : gostr) (s : schema) : schema :=
  let '(JSch _ ty fc props req items add ref desc) := s in
  if bool_decide (d = []) then s else JSch Num ty fc props req items add ref d.

(** *** The walk *)

(** What [schemaGen] keeps: the struct types being expanded, or the components. *)
Inductive mode :=
  | Inline (building : gset string)
  | Refs (refs : gmap string (option schema)).

(** [building[t] = true]. *)
Definition enter (id : string) (building : gset string) : gset string := {[id]} ∪ building.

Definition visited (g : mode) : gset string :=
  match g with Inline b => b | Refs r => dom r end.

(** The properties and the required names collected so far. *)
Abbreviation fieldsAcc := (list (gostr * schema) * list gostr)%type (only parsing).

Section Walk.
  (** [goTypeToJSONSchema], for the types below. *)
  Context (rec : mode → rtype → option (schema * mode)).

(** The schema of one field: both walkers compute it the same way. *)
Definition fieldSchema (owner : gostr) (g : mode) (f : rfield) : option (schema * mode) :=
  sg ← (match formatFieldSchema f with Some s => Some (s, g) | None => rec g (f_type f) end);
  let s := match f_validate f with
           | [] => sg.1
           | tag => applyValidateConstraints sg.1 tag (f_type f)
           end in
  Some (describe (fieldDoc owner (f_name f)) s, sg.2).

Definition addField (f : rfield) (s : schema) (acc : fieldsAcc) : fieldsAcc :=
  (setProp (jsonFieldName f) s acc.1,
   if isOptional f then acc.2 else acc.2 ++ [jsonFieldName f]).

Definition skipped (f : rfield) : bool := negb (f_exported f) || bool_decide (f_json f = lit "-").

(** [buildFieldsInto]. *)
Fixpoint buildFieldsInto (owner : gostr) (g : mode) (fs : list rfield) (acc : fieldsAcc)
    : option (fieldsAcc * mode) :=
  match fs with
  | [] => Some (acc, g)
  | f :: fs =>
      if skipped f then buildFieldsInto owner g fs acc
      else
        sg ← fieldSchema owner g f;
        buildFieldsInto owner sg.2 fs (addField f sg.1 acc)
  end.

(** An embedded struct, of which the fields are flattened into the outer struct. *)
Definition embeddedStruct (f : rfield) : option rtype :=
  if f_anonymous f then
    match deref (f_type f) with
    | RStruct id | RNull id _ => Some (RStruct id)
    | RAnonStruct => Some RAnonStruct
    | _ => None
    end
  else None.

(** A struct type literal is described as a bare object, so its fields are not kept. *)
Definition structFields (t : rtype) : list rfield :=
  match t with RStruct id => fieldsSeen id | _ => [] end.
Definition structName (t : rtype) : gostr :=
  match t with RStruct id => nameOf id | _ => [] end.

(** The loop of [buildStructSchema]. *)
Fixpoint buildFields (owner : gostr) (g : mode) (fs : list rfield) (acc : fieldsAcc)
    : option (fieldsAcc * mode) :=
  match fs with
  | [] => Some (acc, g)
  | f :: fs =>
      if skipped f then buildFields owner g fs acc
      else
        match embeddedStruct f with
        | Some ft =>
            r ← buildFieldsInto (structName ft) g (structFields ft) ([], []);
            let '(sub, g) := r in
            buildFields owner g fs
              (foldl (λ props p, setProp p.1 p.2 props) acc.1 sub.1, acc.2 ++ sub.2)
        | None =>
            sg ← fieldSchema owner g f;
            buildFields owner sg.2 fs (addField f sg.1 acc)
        end
  end.

(** [sort.Strings]: Go compares bytes, which for UTF-8 is the order of the code points. *)
Fixpoint gostrLe (a b : gostr) : bool :=
  match a, b with
  | [], _ => true
  | _ :: _, [] => false
  | x :: a, y :: b => bool_decide (x < y)%Z || (bool_decide (x = y) && gostrLe a b)
  end.

Definition sortNames (l : list gostr) : list gostr := merge_sort (λ a b, Is_true (gostrLe a b)) l.

Definition buildStructSchema (g : mode) (id : string) : option (schema * mode) :=
  let g := match g with Refs refs => Refs (<[id := None]> refs) | Inline b => Inline b end in
  r ← buildFields (nameOf id) g (fieldsSeen id) ([], []);
  let '(acc, g) := r in
  let s := JSch Num "object" noFacets acc.1 (sortNames acc.2) None None None (typeDoc (nameOf id)) in
  Some (s, match g with Refs refs => Refs (<[id := Some s]> refs) | Inline b => Inline b end).

End Walk.

Fixpoint goTypeToJSONSchema (fuel : nat) (g : mode) (t : rtype) : option (schema * mode) :=
  match fuel with
  | O => None
  | S fuel =>
      let rec := goTypeToJSONSchema fuel in
      let t := deref (see t) in
      match GetEnum t with
      | Some e => Some (enumToJSONSchema e, g)
      | None =>
          match t with
          | RBasic BString _ => Some (plain "string" noFacets, g)
          | RBasic (BInt | BUint8 | BUint) _ => Some (plain "integer" noFacets, g)
          | RBasic BFloat _ => Some (plain "number" noFacets, g)
          | RBasic BBool _ => Some (plain "boolean" noFacets, g)
          | RSlice _ e =>
              if isUnnamedByteSlice t then Some (plain "string" (withFormat "byte"), g)
              else sg ← rec g e; Some (arrayOf noFacets sg.1, sg.2)
          | RArray _ n e =>
              if isByteArray t then Some (plain "string" (withFormat "byte"), g)
              else sg ← rec g e; Some (arrayOf (withItemCount n) sg.1, sg.2)
          | RMap _ _ e =>
              sg ← rec g e;
              Some (JSch Num "object" noFacets [] [] None (Some sg.1) None [], sg.2)
          | RAnonStruct => Some (plain "object" noFacets, g)
          | RStruct id | RNull id _ =>
              match g with
              | Refs refs =>
                  if decide (id ∈ dom refs) then Some (refTo id, g)
                  else sg ← buildStructSchema rec g id; Some (refTo id, sg.2)
              | Inline building =>
                  if decide (id ∈ building) then
                    Some (JSch Num "object" noFacets [] [] None None None (nameOf id), g)
                  else
                    sg ← buildStructSchema rec (Inline (enter id building)) id;
                    Some (sg.1, match sg.2 with Inline b => Inline (b ∖ {[id]}) | g => g end)
              end
          | RBasic BOther _ | RPtr _ | RInterface => Some (plain "" noFacets, g)
          end
      end
  end.

(** ** Facts *)

(** The nodes of a type above struct types; [nsize] says how many a named type has. *)
Fixpoint typeSize (nsize : string → nat) (t : rtype) : nat :=
  match t with
  | RPtr t | RSlice _ t | RArray _ _ t | RMap _ _ t => S (typeSize nsize t)
  | RStruct id => match namedOf id with Some _ => S (nsize id) | None => 1 end
  | _ => 1
  end.

(** The struct type that a type leads to. *)
Fixpoint structOf (t : rtype) : option string :=
  match t with
  | RPtr t | RSlice _ t | RArray _ _ t | RMap _ _ t => structOf t
  | RStruct id | RNull id _ => Some id
  | _ => None
  end.

(** The component names a schema refers to. *)
Fixpoint refNames (s : schema) : list gostr :=
  let '(JSch _ _ _ props _ items add ref _) := s in
  option_list ref ++ concat (map (λ p, refNames p.2) props) ++
  match items with Some s => refNames s | None => [] end ++
  match add with Some s => refNames s | None => [] end.

(** One property per name, and every required name is a property, at every level. *)
Fixpoint wfSchema (s : schema) : Prop :=
  let '(JSch _ _ _ props req items add _ _) := s in
  NoDup (props.*1) ∧ (∀ n, n ∈ req → n ∈ props.*1) ∧
  foldr (λ p P, wfSchema p.2 ∧ P) True props ∧
  match items with Some s => wfSchema s | None => True end ∧
  match add with Some s => wfSchema s | None => True end.

Definition named (g : mode) (n : gostr) : Prop :=
  match g with Inline _ => False | Refs r => ∃ id, id ∈ dom r ∧ componentName id = n end.

Definition good (g : mode) (s : schema) : Prop := (∀ n, n ∈ refNames s → named g n) ∧ wfSchema s.

(** What generating does to the state: inline, the guard is restored; in ref mode the table
    grows, nothing registered is left without a schema, and what was added is good. *)
Definition grows (g g' : mode) : Prop :=
  match g, g' with
  | Inline b, Inline b' => b' = b
  | Refs r, Refs r' =>
      dom r ⊆ dom r' ∧ (∀ id, r' !! id = Some None → r !! id = Some None) ∧
      (∀ id x, r' !! id = Some (Some x) → r !! id = Some (Some x) ∨ good g' x)
  | _, _ => False
  end.

Lemma named_mono g g' n : grows g g' → named g n → named g' n.
Proof.
  destruct g as [b|r], g' as [b'|r']; try done. intros (Hd & _) (id & Hid & Hn).
  exists id. split; [by apply Hd|done].
Qed.

Lemma good_mono g g' s : grows g g' → good g s → good g' s.
Proof. intros Hg [Hr Hw]. split; [|done]. intros n Hn. eapply named_mono; eauto. Qed.

Lemma grows_refl g : grows g g.
Proof. destruct g; simpl; [done|]. split_and!; auto. Qed.

Lemma grows_trans g1 g2 g3 : grows g1 g2 → grows g2 g3 → grows g1 g3.
Proof.
  intros H1 H2. destruct g1 as [b1|r1], g2 as [b2|r2], g3 as [b3|r3]; try done; [simpl; by rewrite H2, H1|].
  pose proof H2 as H2'. destruct H1 as (D1 & N1 & G1), H2 as (D2 & N2 & G2). split_and!; [by etrans|auto|].
  intros id x Hx. destruct (G2 id x Hx) as [Hx2|]; [|by right].
  destruct (G1 id x Hx2) as [|Hg]; [by left|right]. by eapply (good_mono (Refs r2)).
Qed.

Lemma grows_visited g g' : grows g g' → visited g ⊆ visited g'.
Proof. destruct g, g'; simpl; try done; [by intros ->|by intros (? & _)]. Qed.

(** Schemas without nesting. *)
Lemma good_plain g ty fc : good g (plain ty fc).
Proof. split; [intros n Hn; by apply not_elem_of_nil in Hn|]. simpl. split_and!; try done. constructor. Qed.

Lemma good_array g fc s : good g s → good g (arrayOf fc s).
Proof.
  intros [Hr Hw]. split; simpl; [|split_and!; try done; constructor]. intros n. rewrite app_nil_r. apply Hr.
Qed.

Lemma good_map g s : good g s → good g (JSch Num "object" noFacets [] [] None (Some s) None []).
Proof. intros [Hr Hw]. split; simpl; [done|split_and!; try done; constructor]. Qed.

Lemma good_ref r id : id ∈ dom r → good (Refs r) (refTo id).
Proof.
  intros Hid. split; simpl; [|split_and!; try done; constructor].
  intros n Hn. apply list_elem_of_singleton in Hn as ->. by exists id.
Qed.

Lemma good_format g f s : formatFieldSchema f = Some s → good g s.
Proof.
  unfold formatFieldSchema, durationFieldSchema, byteSliceFieldSchema.
  repeat case_match; intros; simplify_eq/=; try apply good_array; apply good_plain.
Qed.

Lemma good_validate g s tag t : good g s → good g (applyValidateConstraints s tag t).
Proof. by destruct s. Qed.

Lemma good_describe g d s : good g s → good g (describe d s).
Proof. destruct s. unfold describe. by case_bool_decide. Qed.

(** *** Properties *)

Lemma setProp_names {A} n (s : A) props x : x ∈ (setProp n s props).*1 ↔ x = n ∨ x ∈ props.*1.
Proof.
  unfold setProp. rewrite fmap_app, elem_of_app. cbn [fmap list_fmap fst]. rewrite list_elem_of_singleton.
  split.
  - intros [(p & -> & [_ Hp]%list_elem_of_filter)%list_elem_of_fmap|Hx]; [right|by left].
    by apply list_elem_of_fmap_2.
  - intros [->|(p & -> & Hp)%list_elem_of_fmap]; [by right|].
    destruct (decide (p.1 = n)) as [->|Hne]; [by right|left].
    apply list_elem_of_fmap_2. by apply list_elem_of_filter.
Qed.

Lemma setProp_NoDup {A} n (s : A) props : NoDup props.*1 → NoDup (setProp n s props).*1.
Proof.
  intros Hd. unfold setProp. rewrite fmap_app. apply NoDup_app. split_and!.
  - induction props as [|p props IH]; [constructor|]. apply NoDup_cons in Hd as [Hp Hd].
    rewrite filter_cons. case_decide; [|by apply IH]. simpl. constructor; [|by apply IH].
    intros (q & Hq & [_ Hin]%list_elem_of_filter)%list_elem_of_fmap. apply Hp.
    apply list_elem_of_fmap. eauto.
  - intros x (q & -> & [Hne _]%list_elem_of_filter)%list_elem_of_fmap. simpl.
    by rewrite list_elem_of_singleton.
  - simpl. apply NoDup_singleton.
Qed.

Definition propsGood (g : mode) (props : list (gostr * schema)) : Prop := Forall (λ p, good g p.2) props.

Definition accOk (g : mode) (acc : list (gostr * schema) * list gostr) : Prop :=
  NoDup acc.1.*1 ∧ (∀ n, n ∈ acc.2 → n ∈ acc.1.*1) ∧ propsGood g acc.1.

Lemma propsGood_set g n s props : good g s → propsGood g props → propsGood g (setProp n s props).
Proof.
  intros Hs Hp. apply Forall_app. split; [|by apply Forall_singleton].
  apply Forall_forall. intros p [_ Hin]%list_elem_of_filter. by eapply Forall_forall in Hp.
Qed.

Lemma accOk_mono g g' acc : grows g g' → accOk g acc → accOk g' acc.
Proof.
  intros Hg (Hd & Hr & Hp). split_and!; [done|done|]. eapply Forall_impl; [done|].
  intros p. by apply good_mono.
Qed.

Lemma accOk_add g f s acc : good g s → accOk g acc → accOk g (addField f s acc).
Proof.
  intros Hs (Hd & Hr & Hp). unfold addField. split_and!; simpl.
  - by apply setProp_NoDup.
  - intros n Hn. apply setProp_names. destruct (isOptional f); [right; by apply Hr|].
    apply elem_of_app in Hn as [Hn|Hn]; [right; by apply Hr|left; by apply list_elem_of_singleton in Hn].
  - by apply propsGood_set.
Qed.

Lemma accOk_merge g acc sub :
  accOk g acc → accOk g sub →
  accOk g (foldl (λ props p, setProp p.1 p.2 props) acc.1 sub.1, acc.2 ++ sub.2).
Proof.
  intros (Hd & Hr & Hp) (_ & Hr' & Hp').
  assert (Hgen : ∀ ps props, NoDup props.*1 → propsGood g props → propsGood g ps →
    let r := foldl (λ props p, setProp p.1 p.2 props) props ps in
    NoDup r.*1 ∧ propsGood g r ∧ ∀ x, x ∈ r.*1 ↔ x ∈ ps.*1 ∨ x ∈ props.*1).
  { intros ps. induction ps as [|p ps IH]; intros props Hd0 Hp0 Hps; simpl; [set_solver|].
    apply Forall_cons in Hps as [Hg Hps].
    destruct (IH (setProp p.1 p.2 props)) as (H1 & H2 & H3);
      [by apply setProp_NoDup|by apply propsGood_set|done|].
    split_and!; [done|done|]. intros x. rewrite H3, setProp_names, elem_of_cons. tauto. }
  destruct (Hgen sub.1 acc.1 Hd Hp Hp') as (H1 & H2 & H3). split_and!; [done| |done].
  intros n [Hn|Hn]%elem_of_app; apply H3; [right; by apply Hr|left; by apply Hr'].
Qed.

Lemma good_struct g acc d :
  accOk g acc → good g (JSch Num "object" noFacets acc.1 (sortNames acc.2) None None None d).
Proof.
  intros (Hd & Hr & Hp). split; simpl.
  - intros n. rewrite app_nil_r. intros Hn. clear Hd Hr. induction Hp as [|p props [Hg _] _ IH]; [by apply not_elem_of_nil in Hn|].
    simpl in Hn. apply elem_of_app in Hn as [Hn|Hn]; [by apply Hg|by apply IH].
  - split_and!; try done.
    + intros n Hn. apply Hr. unfold sortNames in Hn. by rewrite merge_sort_Permutation in Hn.
    + clear Hd Hr. induction Hp as [|p props [_ Hw] _ IH]; done.
Qed.

(** *** Termination *)

Section Universe.
  (** The types that can be reached, a bound on the types of their fields, and sizes for the
      named types that are no structs: they exist when every cycle of types goes through a
      struct. *)
  Context (U : gset string) (D : nat) (nsize : string → nat).
Definition inU (t : rtype) : Prop := match structOf t with Some id => id ∈ U | None => True end.

Definition cyclesThroughStructs : Prop :=
  (∀ id f, id ∈ U → f ∈ fieldsOf id → inU (f_type f) ∧ typeSize nsize (f_type f) ≤ D) ∧
  (∀ id u, id ∈ U → namedOf id = Some u → inU u ∧ typeSize nsize u ≤ nsize id).
  Context (Henv : cyclesThroughStructs).

(** What the walk may still cost below struct types. *)
Definition room (g : mode) : nat := size (U ∖ visited g) * S D.

Lemma room_mono g g' : grows g g' → room g' ≤ room g.
Proof.
  intros Hg%grows_visited. unfold room. apply Nat.mul_le_mono_r, subseteq_size. set_solver.
Qed.

Lemma room_enter g g' id :
  id ∈ U → (id ∉ visited g) → visited g' = {[id]} ∪ visited g → room g' + S D ≤ room g.
Proof.
  intros Hu Hn Hv. unfold room. rewrite Hv.
  assert (size (U ∖ ({[id]} ∪ visited g)) < size (U ∖ visited g)) as Hs; [|nia].
  apply subset_size. split; [set_solver|]. intros Hsub. specialize (Hsub id). set_solver.
Qed.

Lemma room_step g g' id ts n :
  id ∈ U → (id ∉ visited g) → visited g' = {[id]} ∪ visited g → 1 ≤ ts → ts + room g ≤ S n →
  D + room g' ≤ n.
Proof. intros Hu Hn Hv ? ?. pose proof (room_enter g g' id Hu Hn Hv). lia. Qed.

Lemma inU_deref t : inU t → inU (deref t).
Proof. by destruct t. Qed.

Lemma typeSize_deref t : typeSize nsize (deref t) ≤ typeSize nsize t.
Proof. destruct t; simpl; lia. Qed.

Lemma resolve_fits t : inU t → inU (resolve t) ∧ typeSize nsize (resolve t) ≤ typeSize nsize t.
Proof.
  intros Hu. destruct t; try done. simpl. destruct (namedOf id) as [u|] eqn:E; [|simpl; by rewrite E].
  destruct (proj2 Henv id u Hu E). split; [done|simpl; lia].
Qed.

Lemma see_fits t : inU t → inU (see t) ∧ typeSize nsize (see t) ≤ typeSize nsize t.
Proof.
  intros Hu. unfold see. destruct (resolve_fits t Hu) as [Hr Hs]. destruct (resolve t) as [|u| | | | | | |]; try done.
  destruct (resolve_fits u Hr) as [Hr' Hs']. split; [exact Hr'|simpl in *; lia].
Qed.

Definition works (rec : mode → rtype → option (schema * mode)) (n : nat) : Prop :=
  ∀ g t, inU t → typeSize nsize t + room g ≤ n → ∃ s g', rec g t = Some (s, g') ∧ grows g g' ∧ good g' s.

Section Fields.
  Context (rec : mode → rtype → option (schema * mode)) (n : nat) (Hrec : works rec n).

Definition fieldOk (f : rfield) : Prop := inU (f_type f) ∧ typeSize nsize (f_type f) ≤ D.

Lemma fields_ok id : id ∈ U → Forall fieldOk (fieldsSeen id).
Proof.
  intros Hu. apply Forall_forall. intros f (f' & -> & Hf)%list_elem_of_fmap.
  destruct (proj1 Henv id f' Hu Hf) as [Ht Hd]. destruct (see_fits _ Ht). split; simpl; [done|lia].
Qed.

Lemma fieldSchema_works owner g f :
  fieldOk f → D + room g ≤ n →
  ∃ s g', fieldSchema rec owner g f = Some (s, g') ∧ grows g g' ∧ good g' s.
Proof.
  intros [Hu Hs] Hn. unfold fieldSchema.
  assert (∃ s g', (match formatFieldSchema f with Some s => Some (s, g) | None => rec g (f_type f) end)
    = Some (s, g') ∧ grows g g' ∧ good g' s) as (s & g' & -> & Hg & Hgood).
  { destruct (formatFieldSchema f) as [s|] eqn:E; [|apply Hrec; [done|lia]].
    exists s, g. split_and!; [done|apply grows_refl|by eapply good_format]. }
  simpl. eexists _, _. split_and!; [done|done|]. apply good_describe.
  destruct (f_validate f); [done|by apply good_validate].
Qed.

Lemma buildFieldsInto_works owner fs g acc :
  Forall fieldOk fs → D + room g ≤ n → accOk g acc →
  ∃ acc' g', buildFieldsInto rec owner g fs acc = Some (acc', g') ∧ grows g g' ∧ accOk g' acc'.
Proof.
  intros Hf. revert g acc. induction Hf as [|f fs Hf _ IH]; intros g acc Hn Ha; simpl.
  - exists acc, g. split_and!; [done|apply grows_refl|done].
  - destruct (skipped f); [by apply IH|].
    destruct (fieldSchema_works owner g f Hf Hn) as (s & g1 & -> & Hg1 & Hs). simpl.
    destruct (IH g1 (addField f s acc)) as (acc' & g2 & -> & Hg2 & Ha2).
    + pose proof (room_mono _ _ Hg1). lia.
    + apply accOk_add; [done|]. by eapply accOk_mono.
    + exists acc', g2. split_and!; [done|by eapply grows_trans|done].
Qed.

Lemma embedded_fields f ft : fieldOk f → embeddedStruct f = Some ft → Forall fieldOk (structFields ft).
Proof.
  intros [Hu _] He. unfold embeddedStruct in He. apply inU_deref in Hu.
  destruct (f_anonymous f); [|done]. destruct (deref (f_type f)); try done; simplify_eq/=; try constructor.
  all: by apply fields_ok.
Qed.

Lemma accOk_nil g : accOk g ([], []).
Proof. split_and!; [constructor|intros x Hx; by apply not_elem_of_nil in Hx|constructor]. Qed.

Lemma buildFields_works owner fs g acc :
  Forall fieldOk fs → D + room g ≤ n → accOk g acc →
  ∃ acc' g', buildFields rec owner g fs acc = Some (acc', g') ∧ grows g g' ∧ accOk g' acc'.
Proof.
  intros Hf. revert g acc. induction Hf as [|f fs Hf _ IH]; intros g acc Hn Ha; simpl.
  - exists acc, g. split_and!; [done|apply grows_refl|done].
  - destruct (skipped f); [by apply IH|]. destruct (embeddedStruct f) as [ft|] eqn:Ee.
    + destruct (buildFieldsInto_works (structName ft) (structFields ft) g ([], [])) as (sub & g1 & -> & Hg1 & Hs);
        [by eapply embedded_fields|done|apply accOk_nil|]. simpl.
      destruct (IH g1 (foldl (λ props p, setProp p.1 p.2 props) acc.1 sub.1, acc.2 ++ sub.2))
        as (acc' & g2 & -> & Hg2 & Ha2).
      * pose proof (room_mono _ _ Hg1). lia.
      * apply accOk_merge; [by eapply accOk_mono|done].
      * exists acc', g2. split_and!; [done|by eapply grows_trans|done].
    + destruct (fieldSchema_works owner g f Hf Hn) as (s & g1 & -> & Hg1 & Hs). simpl.
      destruct (IH g1 (addField f s acc)) as (acc' & g2 & -> & Hg2 & Ha2).
      * pose proof (room_mono _ _ Hg1). lia.
      * apply accOk_add; [done|]. by eapply accOk_mono.
      * exists acc', g2. split_and!; [done|by eapply grows_trans|done].
Qed.

(** The two ways a struct type is built. *)
Lemma buildStruct_inline b id :
  id ∈ U → D + room (Inline b) ≤ n →
  ∃ s, buildStructSchema rec (Inline b) id = Some (s, Inline b) ∧ good (Inline b) s.
Proof.
  intros Hu Hn. unfold buildStructSchema.
  destruct (buildFields_works (nameOf id) (fieldsSeen id) (Inline b) ([], []) (fields_ok id Hu) Hn (accOk_nil _))
    as (acc & [b'|] & -> & Hg & Ha); [|done]. simpl in Hg. subst b'. simpl.
  eexists. split; [done|]. by apply good_struct.
Qed.

Lemma good_dom r r' s : dom r ⊆ dom r' → good (Refs r) s → good (Refs r') s.
Proof.
  intros Hd [Hr Hw]. split; [|done]. intros m Hm. destruct (Hr m Hm) as (id & Hid & Hn).
  exists id. set_solver.
Qed.

Lemma buildStruct_refs r id :
  id ∈ U → (id ∉ dom r) → D + room (Refs (<[id := None]> r)) ≤ n →
  ∃ s r', buildStructSchema rec (Refs r) id = Some (s, Refs r') ∧ grows (Refs r) (Refs r') ∧
    id ∈ dom r'.
Proof.
  intros Hu Hni Hn. unfold buildStructSchema.
  destruct (buildFields_works (nameOf id) (fieldsSeen id) (Refs (<[id := None]> r)) ([], []) (fields_ok id Hu)
    Hn (accOk_nil _)) as (acc & [|r1] & -> & Hg & Ha); [done|]. simpl.
  set (s := JSch _ _ _ _ _ _ _ _ _). exists s, (<[id := Some s]> r1). destruct Hg as (Hd & Hnone & Hsome).
  rewrite dom_insert_L in Hd. assert (Hd1 : dom r1 ⊆ dom (<[id := Some s]> r1)) by (rewrite dom_insert_L; set_solver).
  split; [done|]. split; [|rewrite dom_insert_L; set_solver]. split_and!.
  - rewrite dom_insert_L. set_solver.
  - intros x Hx. destruct (decide (x = id)) as [->|Hne]; [by rewrite lookup_insert_eq in Hx|].
    rewrite lookup_insert_ne in Hx by done. apply Hnone in Hx. by rewrite lookup_insert_ne in Hx.
  - intros x y Hx. destruct (decide (x = id)) as [->|Hne].
    + rewrite lookup_insert_eq in Hx. injection Hx as <-. right. apply (good_dom r1); [done|].
      by apply good_struct.
    + rewrite lookup_insert_ne in Hx by done. destruct (Hsome x y Hx) as [Hy|Hy].
      * left. by rewrite lookup_insert_ne in Hy.
      * right. by apply (good_dom r1).
Qed.

End Fields.

Lemma typeSize_pos t : 1 ≤ typeSize nsize t.
Proof. destruct t; simpl; try lia. destruct (namedOf id); lia. Qed.

Lemma conj3 {A B C : Prop} : A → B → C → A ∧ B ∧ C.
Proof. tauto. Qed.

(** The branch for struct types. *)
Lemma struct_works fuel g t id :
  works (goTypeToJSONSchema fuel) fuel → id ∈ U → 1 ≤ typeSize nsize t → typeSize nsize t + room g ≤ S fuel →
  ∃ s g',
    match g with
    | Refs refs =>
        if decide (id ∈ dom refs) then Some (refTo id, g)
        else sg ← buildStructSchema (goTypeToJSONSchema fuel) g id; Some (refTo id, sg.2)
    | Inline building =>
        if decide (id ∈ building) then
          Some (JSch Num "object" noFacets [] [] None None None (nameOf id), g)
        else
          sg ← buildStructSchema (goTypeToJSONSchema fuel) (Inline (enter id building)) id;
          Some (sg.1, match sg.2 with Inline b => Inline (b ∖ {[id]}) | g => g end)
    end = Some (s, g') ∧ grows g g' ∧ good g' s.
Proof.
  intros IH Hu Hsz Hn. destruct g as [b|r].
  - destruct (decide (id ∈ b)) as [Hin|Hin].
    + eexists _, _. apply (conj3 eq_refl); [done|]. split; [intros x Hx; by apply not_elem_of_nil in Hx|].
      simpl. split_and!; try done. constructor.
    + pose proof (room_step (Inline b) (Inline (enter id b)) id _ fuel Hu Hin eq_refl Hsz Hn) as Hr.
      destruct (buildStruct_inline _ fuel IH _ id Hu Hr) as (s & -> & Hs). simpl.
      eexists _, _. apply (conj3 eq_refl); [unfold enter; simpl; set_solver|]. split; [|by apply Hs].
      intros x Hx. by destruct (proj1 Hs x Hx).
  - destruct (decide (id ∈ dom r)) as [Hin|Hin].
    + eexists _, _. apply (conj3 eq_refl); [apply grows_refl|]. by apply good_ref.
    + pose proof (room_step (Refs r) (Refs (<[id := None]> r)) id _ fuel Hu Hin (dom_insert_L _ _ _) Hsz Hn) as Hr.
      destruct (buildStruct_refs _ fuel IH _ id Hu Hin Hr) as (s & r' & -> & Hg & Hid). simpl.
      eexists _, _. apply (conj3 eq_refl); [done|]. by apply good_ref.
Qed.

Lemma go_works fuel : works (goTypeToJSONSchema fuel) fuel.
Proof.
  induction fuel as [|fuel IH]; intros g t Hu Hn; [pose proof (typeSize_pos t); lia|].
  cbn [goTypeToJSONSchema]. destruct (see_fits t Hu) as [Hv Hsee].
  assert (typeSize nsize (deref (see t)) ≤ typeSize nsize t) as Hsz by (pose proof (typeSize_deref (see t)); lia).
  apply inU_deref in Hv. clear Hu Hsee. revert Hv Hsz. generalize (deref (see t)). intros t' Hu Hsz.
  assert (Hleaf : ∀ ty fc, ∃ s g', Some (plain ty fc, g) = Some (s, g') ∧ grows g g' ∧ good g' s).
  { intros ty fc. eexists _, _. apply (conj3 eq_refl); [apply grows_refl|apply good_plain]. }
  destruct (GetEnum t') as [e|]; [apply Hleaf|].
  assert (Hrec : ∀ e (k : schema → schema), inU e → S (typeSize nsize e) = typeSize nsize t' →
    (∀ g s, good g s → good g (k s)) →
    ∃ s g', (sg ← goTypeToJSONSchema fuel g e; Some (k sg.1, sg.2)) = Some (s, g') ∧ grows g g' ∧ good g' s).
  { intros e k He Hse Hk. assert (typeSize nsize e + room g ≤ fuel) as Hle by lia.
    destruct (IH g e He Hle) as (s & g' & -> & Hg & Hs).
    eexists _, _. apply (conj3 eq_refl); [done|]. by apply Hk. }
  destruct t' as [[] ?|t'|o e|o m e|o k e|id|id v| |]; try apply Hleaf.
  { destruct (isUnnamedByteSlice _); [apply Hleaf|]. apply Hrec; [done|done|intros; by apply good_array]. }
  { destruct (isByteArray _); [apply Hleaf|]. apply Hrec; [done|done|intros; by apply good_array]. }
  { apply (Hrec e (λ s, JSch Num "object" noFacets [] [] None (Some s) None [])); [done|done|].
    intros; by apply good_map. }
  all: by apply struct_works with (t := t); [..|apply typeSize_pos|].
Qed.

(** Enough fuel for any type over the universe. *)
Definition fuelFor (t : rtype) : nat := typeSize nsize t + size U * S D.

(** In any state, one fuel is enough for all the types of a size. *)
Lemma generator_works fuel g t :
  inU t → typeSize nsize t + size U * S D ≤ fuel →
  ∃ s g', goTypeToJSONSchema fuel g t = Some (s, g') ∧ grows g g' ∧ good g' s.
Proof.
  intros Hu Hf. apply go_works; [done|].
  assert (room g ≤ size U * S D); [|lia]. apply Nat.mul_le_mono_r, subseteq_size. set_solver.
Qed.

(** An inline run from a fresh guard. *)
Lemma inline_ends t :
  inU t → ∃ s, goTypeToJSONSchema (fuelFor t) (Inline ∅) t = Some (s, Inline ∅) ∧ refNames s = [] ∧ wfSchema s.
Proof.
  intros Hu. assert (Hf : typeSize nsize t + room (Inline ∅) ≤ fuelFor t).
  { unfold room, fuelFor. simpl. by rewrite difference_empty_L. }
  destruct (go_works (fuelFor t) (Inline ∅) t Hu Hf) as (s & [b|] & E & Hg & [Hr Hw]); [|done].
  simpl in Hg. subst b. exists s. split_and!; [done| |done].
  destruct (refNames s) as [|x l]; [done|]. by destruct (Hr x ltac:(by left)).
Qed.

(** [Registry.SchemaFor]: inline mode, with a generator of its own. *)
Definition SchemaFor (t : rtype) : schema :=
  default (plain "" noFacets) (fst <$> goTypeToJSONSchema (fuelFor t) (Inline ∅) t).

Lemma SchemaFor_wf t : inU t → refNames (SchemaFor t) = [] ∧ wfSchema (SchemaFor t).
Proof. intros Hu. unfold SchemaFor. by destruct (inline_ends t Hu) as (s & -> & ?). Qed.

(** C37: schema generation ends when every cycle of types goes through a struct, recursive
    struct types included, and what it makes is well-formed. For a finite universe of types,
    [fuelFor] bounds the depth of the recursion in both modes. Inline, the schema is
    self-contained: it refers to no component, and the guard is left as it was, so the next
    call starts fresh. In ref mode every $ref, in the schema and in every component, names a
    component that is registered with its schema. At every level there is one entry per
    property, and every required name is a property. A slice or map type that contains
    itself without a struct in between is the exception: [unguarded_cycle_diverges]. *)
Theorem schema_terminates (t : rtype) :
  inU t →
  (∃ s, goTypeToJSONSchema (fuelFor t) (Inline ∅) t = Some (s, Inline ∅) ∧ refNames s = [] ∧ wfSchema s) ∧
  (∃ s r, goTypeToJSONSchema (fuelFor t) (Refs ∅) t = Some (s, Refs r) ∧ wfSchema s ∧
     (∀ id, id ∈ dom r → ∃ x, r !! id = Some (Some x) ∧ wfSchema x) ∧
     (∀ n, n ∈ refNames s ∨ (∃ id x, r !! id = Some (Some x) ∧ n ∈ refNames x) →
        ∃ id, id ∈ dom r ∧ componentName id = n)).
Proof.
  intros Hu. split; [by apply inline_ends|].
  assert (Hf : typeSize nsize t + room (Refs ∅) ≤ fuelFor t).
  { unfold room, fuelFor. simpl. by rewrite dom_empty_L, difference_empty_L. }
  destruct (go_works (fuelFor t) (Refs ∅) t Hu Hf) as (s & [|r] & E & Hg & Hs); [done|].
  destruct Hg as (_ & Hnone & Hsome).
  assert (Hall : ∀ id x, r !! id = Some (Some x) → good (Refs r) x).
  { intros id x Hx. destruct (Hsome id x Hx) as [Hx'|]; [by rewrite lookup_empty in Hx'|done]. }
  exists s, r. split_and!; [done|by apply Hs| |].
  - intros id [[x|] Hx]%elem_of_dom; [exists x; split; [done|by apply (Hall id)]|].
    apply Hnone in Hx. by rewrite lookup_empty in Hx.
  - intros m [Hm|(id & x & Hx & Hm)]; [by apply Hs|by apply (Hall id x Hx)].
Qed.

End Universe.

(** A type that leads to itself through slices, arrays and maps only, such as [type T []T]
    or [type M map[string]M], is walked without end: no fuel is enough. *)
Fixpoint leadsTo (id : string) (t : rtype) : Prop :=
  match t with
  | RSlice o e => GetEnum t = None ∧ leadsTo id e
  | RArray o n e => GetEnum t = None ∧ leadsTo id e
  | RMap o k e => GetEnum t = None ∧ leadsTo id e
  | RStruct x => x = id
  | _ => False
  end.

Lemma unguarded_cycle_diverges id u fuel g t :
  namedOf id = Some u → leadsTo id u → (∀ x, u ≠ RStruct x) → leadsTo id t →
  goTypeToJSONSchema fuel g t = None.
Proof.
  intros Hid Hu Hx. revert g t. induction fuel as [|fuel IH]; intros g t Ht; [done|].
  assert (Hgo : ∀ t, leadsTo id t → (∀ x, t ≠ RStruct x) → see t = t → goTypeToJSONSchema (S fuel) g t = None).
  { intros t' Hl Hn Hs. destruct t' as [| |o e|o n e|o k e| | | |]; try done; [| | |by destruct (Hn id0)];
      destruct Hl as [He Hl]; cbn [goTypeToJSONSchema]; rewrite Hs; cbn [deref]; rewrite He.
    - assert (isUint8 e = false) as E by by destruct e as [[]| | | | | | | |].
      replace (isUnnamedByteSlice (RSlice o e)) with false by (destruct o; simpl; congruence). by rewrite IH.
    - assert (isUint8 e = false) as E by by destruct e as [[]| | | | | | | |].
      cbn [isByteArray]. by rewrite E, IH.
    - by rewrite IH. }
  assert (Hsu : see u = u) by (destruct u as [| | | | |x| | |]; try done; by destruct (Hx x)).
  destruct t as [| |o e|o n e|o k e|x| | |]; try done; try by apply Hgo.
  simpl in Ht. subst x. transitivity (goTypeToJSONSchema (S fuel) g u); [|by apply Hgo].
  cbn [goTypeToJSONSchema]. rewrite Hsu. unfold see. cbn [resolve]. rewrite Hid. cbn [default].
  destruct u; try done.
Qed.

(** Two places where the walk and encoding/json disagree. Embedding is flattened one level
    deep: what [buildFieldsInto] meets as an embedded struct becomes a property. *)
Lemma second_level_not_flattened rec owner g f s g' :
  skipped f = false → fieldSchema rec owner g f = Some (s, g') →
  buildFieldsInto rec owner g [f] ([], []) = Some (addField f s ([], []), g').
Proof. intros Hs Hf. simpl. by rewrite Hs, Hf. Qed.

(** A json name on an embedded struct makes it a property for the encoder; the walk
    flattens it all the same. *)
Lemma named_embedded_flattened rec owner g f ft sub g' :
  skipped f = false → embeddedStruct f = Some ft →
  buildFieldsInto rec (structName ft) g (structFields ft) ([], []) = Some (sub, g') →
  buildFields rec owner g [f] ([], []) = Some (foldl (λ props p, setProp p.1 p.2 props) [] sub.1, sub.2, g').
Proof. intros Hs He Hb. simpl. by rewrite Hs, He, Hb. Qed.

End Gen.

(** ** What the generator promises its clients *)

(** A source of self-contained, well-formed schemas, for the adapters that hand schemas
    out (MCP tools). *)
Class SchemaSource (T Num : Type) := {
  schemaFor : T → JSONSchema Num;
  schemaFor_self t : refNames (schemaFor t) = [];
  schemaFor_wf t : wfSchema (schemaFor t);
}.

(** [Registry.SchemaFor] is one, over a finite universe of struct types. *)
Section Source.
  Context `{RuneCase} {T Num : Type} (parseFloat : gostr → Num) (toInt : Num → Z).
  Context (nameOf : string → gostr) (fieldsOf : string → list rfield) (namedOf : string → option rtype).
  Context (enumTypes : gmap string EnumInfo) (typeDoc : gostr → gostr) (fieldDoc : gostr → gostr → gostr) (isLetter isDigit : rune → bool).
  Context (U : gset string) (D : nat) (nsize : string → nat) (reflectOf : T → rtype).
  Context (Henv : cyclesThroughStructs fieldsOf namedOf U D nsize).
  Context (Hall : ∀ t, inU U (reflectOf t)).

Definition schemaSource : SchemaSource T Num := {|
  schemaFor t := SchemaFor parseFloat toInt nameOf fieldsOf namedOf enumTypes typeDoc fieldDoc isLetter isDigit
                   U D nsize (reflectOf t);
  schemaFor_self t := proj1 (SchemaFor_wf parseFloat toInt nameOf fieldsOf namedOf enumTypes typeDoc fieldDoc
                        isLetter isDigit U D nsize Henv (reflectOf t) (Hall t));
  schemaFor_wf t := proj2 (SchemaFor_wf parseFloat toInt nameOf fieldsOf namedOf enumTypes typeDoc fieldDoc
                      isLetter isDigit U D nsize Henv (reflectOf t) (Hall t));
|}.

End Source.

(** ** Recursive types *)

#[local] Existing Instance asciiCase.

(** A struct that points to itself and has a list of such lists, and a tree of nodes that is
    a slice type: [type Forest []*Node], [type Node struct { Next *Node; Kids Forest }]. *)
Definition nodeField : rfield := RField (lit "Next") (RPtr (RStruct "pkg.Node")) true false [] [].
Definition kidsField : rfield :=
  RField (lit "Kids") (RStruct "pkg.Forest") true false (lit "kids,omitempty") (lit "min=1").
Definition nodeFields (id : string) : list rfield :=
  if bool_decide (id = "pkg.Node") then [nodeField; kidsField] else [].
Definition forest (id : string) : option rtype :=
  if bool_decide (id = "pkg.Forest") then Some (RSlice (Some "pkg.Forest") (RPtr (RStruct "pkg.Node"))) else None.

Abbreviation exSchema fields named fuel t :=
  (goTypeToJSONSchema (λ _, 0%Z) id (λ _, lit "Node") fields named ∅ (λ _, []) (λ _ _, [])
    asciiLetter asciiDigit fuel (Inline ∅) t) (only parsing).

Example node_inline :
  (λ s, ((Properties s).*1, MinItems ∘ Facet <$> (Properties s).*2)) <$>
    (fst <$> exSchema nodeFields forest 12 (RStruct "pkg.Node")) =
  Some ([lit "Next"; lit "kids"], [None; Some 0%Z]).
Proof. vm_compute. reflexivity. Qed.

Lemma nodeCycles : cyclesThroughStructs nodeFields forest {["pkg.Node"; "pkg.Forest"]} 4 (λ _, 3).
Proof.
  split.
  - intros i f _ Hf. unfold nodeFields in Hf. case_bool_decide; [|by apply not_elem_of_nil in Hf].
    apply elem_of_cons in Hf as [->|Hf]; [|apply list_elem_of_singleton in Hf as ->];
      (split; [cbn; set_solver|vm_compute; lia]).
  - intros i u _ Hu. unfold forest in Hu. case_bool_decide; [|done]. injection Hu as <-.
    split; [cbn; set_solver|vm_compute; lia].
Qed.

Lemma schema_terminates_witness :
  ∃ s, exSchema nodeFields forest (fuelFor forest {["pkg.Node"; "pkg.Forest"]} 4 (λ _, 3) (RStruct "pkg.Node"))
         (RStruct "pkg.Node") = Some (s, Inline ∅) ∧ refNames s = [] ∧ wfSchema s.
Proof.
  refine (proj1 (schema_terminates (λ _, 0%Z) id (λ _, lit "Node") nodeFields forest ∅ (λ _, []) (λ _ _, [])
    asciiLetter asciiDigit {["pkg.Node"; "pkg.Forest"]} 4 (λ _, 3) nodeCycles (RStruct "pkg.Node") _)).
  cbn. set_solver.
Defined.

(** [type T []T] and [type M map[string]M]. *)
Definition selfSlice (id : string) : option rtype :=
  if bool_decide (id = "pkg.T") then Some (RSlice (Some "pkg.T") (RStruct "pkg.T"))
  else if bool_decide (id = "pkg.M") then Some (RMap (Some "pkg.M") (RBasic BString None) (RStruct "pkg.M")) else None.

Lemma self_slice_diverges fuel :
  exSchema (λ _, []) selfSlice fuel (RStruct "pkg.T") = None ∧
  exSchema (λ _, []) selfSlice fuel (RStruct "pkg.M") = None.
Proof.
  split.
  - by apply (unguarded_cycle_diverges _ _ _ _ selfSlice _ _ _ _ _ "pkg.T" (RSlice (Some "pkg.T") (RStruct "pkg.T"))).
  - by apply (unguarded_cycle_diverges _ _ _ _ selfSlice _ _ _ _ _ "pkg.M"
      (RMap (Some "pkg.M") (RBasic BString None) (RStruct "pkg.M"))).
Qed.

End Schema.
