(* ===== verification/GoNames.v ===== *)
(** * GoNames: the identifiers of the generated Go client (generate_go.go)

    The Go generator puts everything in one package, so the types it copies, the members of
    their enums, the error codes, the clients of the handler groups and the imported packages
    share one name space, and the methods and parameters live in smaller ones inside it. This
    file has the functions that make identifiers, [assignNames] and [assignImportNames],
    which separate those that clash, and the claims that refuse the rest. The theorem is that
    when none of them reports an error, the names within each of these spaces differ; what it
    leaves open is an import whose package clause starts with an upper-case letter, which can
    have the name of a declaration. *)

From S2P Require Import Prelude Runes Transform Registry Naming Schema.
From stdpp Require Import prelude gmap strings list pretty fin_maps fin_sets sorting.

Module GoNames.
Import Runes Registry Naming Schema.
Import Transform(goType(..)).

(** ** Words of the language (go/token, and the predeclared identifiers) *)

Definition keywords : list string :=
  ["break"; "case"; "chan"; "const"; "continue"; "default"; "defer"; "else"; "fallthrough"; "for";
   "func"; "go"; "goto"; "if"; "import"; "interface"; "map"; "package"; "range"; "return"; "select";
   "struct"; "switch"; "type"; "var"].

Definition keywordSet : gset gostr := list_to_set (lit <$> keywords).
Definition IsKeyword (name : gostr) : bool := bool_decide (name ∈ keywordSet).

(** What the bodies of the generated methods use, and what Go predeclares. *)
Definition goReservedParamNames : gset gostr := list_to_set (lit <$>
  ["ctx"; "h"; "c"; "opts"; "params"; "x"; "err";
   "any"; "bool"; "byte"; "comparable"; "complex64"; "complex128";
   "error"; "float32"; "float64"; "int"; "int8"; "int16";
   "int32"; "int64"; "rune"; "string"; "uint"; "uint8";
   "uint16"; "uint32"; "uint64"; "uintptr"; "true"; "false";
   "iota"; "nil"; "append"; "cap"; "clear"; "close";
   "complex"; "copy"; "delete"; "imag"; "len"; "make";
   "max"; "min"; "new"; "panic"; "print"; "println";
   "real"; "recover"]).

Definition goPromotedClientMembers : list gostr :=
  lit <$> ["Client"; "Close"; "Done"; "Err"; "LastRejection"; "RefreshAuth"; "State"].

Definition itoa (n : nat) : gostr := lit (pretty n).

(** [strings.HasSuffix]. *)
Definition hasSuffix (suf s : gostr) : bool := hasPrefix (reverse suf) (reverse s).

(** ** Replacement (strings.ReplaceAll and regexp.ReplaceAllString)

    A matcher is given the rest of the text and whether a word character precedes it; it
    returns how much it takes, at least one rune, and what is put there. Matches are found
    from the left and do not overlap. *)
Definition matcher : Type := bool → gostr → option (nat * gostr).

(** The word characters of [\b]. *)
Definition isWord (r : rune) : bool :=
  asciiDigit r || bool_decide (65 ≤ r ≤ 90)%Z || bool_decide (97 ≤ r ≤ 122)%Z || bool_decide (r = 95)%Z.

Fixpoint replaceAll (m : matcher) (skip : nat) (prev : bool) (s : gostr) : gostr :=
  match s with
  | [] => []
  | r :: rest =>
      match skip with
      | S skip => replaceAll m skip (isWord r) rest
      | 0 =>
          match m prev s with
          | Some (n, w) => w ++ replaceAll m (n - 1) (isWord r) rest
          | None => r :: replaceAll m 0 (isWord r) rest
          end
      end
  end.

Definition literal (pat w : gostr) : matcher :=
  λ _ s, if hasPrefix pat s then Some (length pat, w) else None.

Fixpoint spanLen (p : rune → bool) (s : gostr) : nat :=
  match s with [] => 0 | r :: s => if p r then S (spanLen p s) else 0 end.

(** [genericArrayRe], [\[(\d+)\]], by [" Array$1 "]. *)
Definition genericArrayRe : matcher := λ _ s,
  match s with
  | 91%Z :: s =>
      let n := spanLen asciiDigit s in
      if bool_decide (0 < n) && bool_decide (s !! n = Some 93%Z)
      then Some (n + 2, lit " Array" ++ take n s ++ lit " ") else None
  | _ => None
  end.

(** [genericMapRe], [\bmap\[], by [" Map "]. *)
Definition genericMapRe : matcher :=
  λ prev s, if negb prev && hasPrefix (lit "map[") s then Some (4, lit " Map ") else None.

(** The Unicode tables: what is relied on of letters and decimal digits. *)
Class UnicodeTables `{RuneCase} (isLetter isDigit : rune → bool) : Prop := {
  letter_ascii r : (0 ≤ r < 128)%Z → isLetter r = bool_decide (65 ≤ r ≤ 90)%Z || bool_decide (97 ≤ r ≤ 122)%Z;
  digit_ascii r : (0 ≤ r < 128)%Z → isDigit r = asciiDigit r;
  upper_letter r : isUpper r = true → isLetter r = true;
  toUpper_letter r : isLetter r = true → isLetter (toUpper r) = true;
  toUpper_digit r : isDigit r = true → isDigit (toUpper r) = true;
  toLower_letter r : isLetter r = true → isLetter (toLower r) = true;
  toLower_digit r : isDigit r = true → isDigit (toLower r) = true;
}.

Section Code.
  Context `{RuneCase} (isLetter isDigit isNumber : rune → bool).
  (** Name, package path and String of a named type, as reflection gives them. *)
  Context (nameOf pkgPathOf stringOf : string → gostr).

(** [[\p{L}_][\p{L}\p{N}_]*] at the start of the text: its length. *)
Definition identLen (s : gostr) : option nat :=
  match s with
  | r :: rest =>
      if isLetter r || bool_decide (r = underscore)
      then Some (S (spanLen (λ r, isLetter r || isNumber r || bool_decide (r = underscore)) rest)) else None
  | [] => None
  end.

(** [pkg.Name] at the start of the text: the lengths of the two words. *)
Definition qualified (s : gostr) : option (nat * nat) :=
  a ← identLen s;
  if bool_decide (s !! a = Some 46%Z) then b ← identLen (drop (S a) s); Some (a, b) else None.

(** [[^\s\[\](),*]]. *)
Definition inPath (r : rune) : bool :=
  negb (bool_decide (r ∈ [9; 10; 12; 13; 32; 91; 93; 40; 41; 44; 42]%Z)).

(** The longest path prefix that ends in a slash and lets the rest match, or none. *)
Fixpoint qualifiedAfter (n : nat) (s : gostr) : option (nat * nat * nat) :=
  match n with
  | 0 => ab ← qualified s; Some (0, ab.1, ab.2)
  | S k =>
      match (if bool_decide (s !! k = Some 47%Z) then qualified (drop n s) else None) with
      | Some ab => Some (n, ab.1, ab.2)
      | None => qualifiedAfter k s
      end
  end.

(** [genericQualRe], by [" $1 $2 "] or [" $2 "]. *)
Definition genericQualRe (withPkg : bool) : matcher := λ _ s,
  match qualifiedAfter (spanLen inPath s) s with
  | None => None
  | Some (p, a, b) =>
      let pkg := take a (drop p s) in
      let name := take b (drop (S a) (drop p s)) in
      Some (p + a + 1 + b, if withPkg then lit " " ++ pkg ++ lit " " ++ name ++ lit " "
                           else lit " " ++ name ++ lit " ")
  end.

(** ** Making identifiers *)

Definition identRune (r : rune) : bool := isLetter r || isDigit r || bool_decide (r = underscore).

(** [token.IsIdentifier]. *)
Definition IsIdentifier (name : gostr) : bool :=
  match name with
  | [] => false
  | r :: rest => (isLetter r || bool_decide (r = underscore)) && forallb identRune rest && negb (IsKeyword name)
  end.

Fixpoint exportedRunes (upper : bool) (s : gostr) : gostr :=
  match s with
  | [] => []
  | r :: rest =>
      if identRune r then (if upper then toUpper r else r) :: exportedRunes false rest
      else exportedRunes true rest
  end.

Definition goExportedIdent (s : gostr) : gostr :=
  match exportedRunes true s with
  | [] => lit "X"
  | (r :: _) as out => if isUpper r then out else 88%Z :: out
  end.

Definition goEnumMemberIdent (name : gostr) (i : nat) : gostr :=
  if negb (existsb (λ r, isLetter r || isDigit r) name) then lit "Value" ++ itoa i
  else
    let id := goExportedIdent name in
    if hasPrefix (lit "X") id && negb (hasPrefix (lit "X") name) && negb (hasPrefix (lit "x") name)
    then drop 1 id else id.

(** [^v[0-9]+$]. *)
Definition majorVersion (s : gostr) : bool :=
  match s with
  | (118%Z :: _ :: _) as ds => forallb asciiDigit (drop 1 ds)
  | _ => false
  end.

Definition goPkgName (pkgPath : gostr) : gostr :=
  let parts := reverse (split 47%Z pkgPath) in
  let name :=
    match parts with
    | last :: prev :: _ => if majorVersion last then prev else last
    | [last] => last
    | [] => []
    end in
  let name := if hasPrefix (lit "go-") name then drop 3 name else name in
  let out := toLower <$> filter (λ r, identRune r = true) name in
  match out with
  | r :: _ => if isLetter r then out else lit "pkg" ++ out
  | [] => lit "pkg"
  end.

(** The type arguments of a generic type, spelled out in words. *)
Definition spellArgs (level : nat) (args : gostr) : gostr :=
  let args := replaceAll genericArrayRe 0 false args in
  let args := replaceAll (literal (lit "[]") (lit " Slice ")) 0 false args in
  let args := replaceAll genericMapRe 0 false args in
  let args := replaceAll (literal (lit "*") (lit " Ptr ")) 0 false args in
  let args := replaceAll (literal (lit "chan ") (lit " Chan ")) 0 false args in
  let args := replaceAll (literal (lit "func(") (lit " Func ")) 0 false args in
  replaceAll (genericQualRe (bool_decide (1 ≤ level))) 0 false args.

Definition goTypeNameCandidate (t : string) (level : nat) : gostr :=
  let name := nameOf t in
  let name :=
    match cut 91%Z name with
    | Some (base, args) =>
        if hasSuffix (lit "]") name
        then base ++ lit " " ++ spellArgs level (take (length args - 1) args) else name
    | None => name
    end in
  let name := goExportedIdent name in
  if bool_decide (2 ≤ level) then goExportedIdent (goPkgName (pkgPathOf t)) ++ name else name.

(** [packageName]; [base] is the last element of the absolute output directory, None when
    there is none. *)
Definition packageName (PackageName : gostr) (base : option gostr) : option gostr :=
  let name := match PackageName with
              | [] => let name := default [] base in if IsIdentifier name then name else lit "api"
              | _ => PackageName
              end in
  if negb (IsIdentifier name) || bool_decide (name = lit "_") then None else Some name.

(** ** Groups, methods and push events *)

Section Client.
  Context {Mw : Type} (reg : @Registry Mw).

Record goGroup := GoGroup { gg_group : @HandlerGroup Mw; gg_fieldName : gostr; gg_typeName : gostr }.

(** [sort.Slice] by a name; the names of groups differ, those of push events need not. *)
Definition sortOn {A} (key : A → string) : list A → list A :=
  merge_sort (λ a b, Is_true (gostrLe (lit (key a)) (lit (key b)))).

Definition goGroupOf (grp : @HandlerGroup Mw) : goGroup :=
  let field := goExportedIdent (lit (gr_name grp)) in GoGroup grp field (field ++ lit "Client").

Definition clientGroups : list goGroup :=
  sortOn (λ g, gr_name (gg_group g))
    (omap (λ g, if gr_socket g.2 then Some (goGroupOf g.2) else None) (map_to_list (r_groups reg))).

Definition pushEvents : list PushEventInfo :=
  sortOn pe_name (clientGroups ≫= λ g, gr_pushEvents (gg_group g)).

(** ** Claims

    What has a name, for the messages. *)
Inductive what :=
  | WClientType | WNewFunc | WGroupType (group : string)
  | WEmbedded | WGroup (group : string) | WEvent (event : string)
  | WHandler (group handler : string)
  | WType (t : string) | WEnumValue (enum : string) (member : gostr) | WErrorCode (name : string).

(** Two things that would have the same name. *)
Inductive nameError := Clash (name : gostr) (prev new : what).

(** The [claim] closures: errors so far, and who has each name. *)
Definition claimState : Type := list nameError * gmap gostr what.

Definition claim (st : claimState) (c : gostr * what) : claimState :=
  match st.2 !! c.1 with
  | Some prev => (st.1 ++ [Clash c.1 prev c.2], st.2)
  | None => (st.1, <[c.1 := c.2]> st.2)
  end.

Definition onEvent (ev : PushEventInfo) : gostr := lit "On" ++ goExportedIdent (lit (pe_name ev)).

(** The members of the Client struct ([renderBody]). *)
Definition clientMembers : claimState :=
  let members := list_to_map ((λ m, (m, WEmbedded)) <$> goPromotedClientMembers) in
  let st := foldl claim ([], members)
              ((λ g, (gg_fieldName g, WGroup (gr_name (gg_group g)))) <$> clientGroups) in
  foldl claim st ((λ ev, (onEvent ev, WEvent (pe_name ev))) <$> pushEvents).

Definition sortedHandlers (grp : @HandlerGroup Mw) : list (string * HandlerInfo) :=
  sortOn fst (map_to_list (gr_handlers grp)).

(** The methods a handler becomes. *)
Definition methodsOf (grp : @HandlerGroup Mw) (h : string * HandlerInfo) : list (gostr * what) :=
  (lit h.1, WHandler (gr_name grp) h.1) ::
  (if bool_decide (hi_kind h.2 = HandlerKindUnary) && negb (hi_isVoid h.2)
   then [(lit "Subscribe" ++ lit h.1, WHandler (gr_name grp) h.1)] else []).

(** The methods of a group's client ([renderGroup]). *)
Definition groupMethods (grp : @HandlerGroup Mw) : claimState :=
  foldl claim ([], ∅) (sortedHandlers grp ≫= methodsOf grp).

(** ** [assignNames]

    [order] lists the types the package declares, [enumOf] the enum of each, if any. *)
  Context (order : list string) (enumOf : string → option EnumInfo).

Definition fixed : gmap gostr what :=
  foldl (λ m g, <[gg_typeName g := WGroupType (gr_name (gg_group g))]> m)
    {[lit "Client" := WClientType; lit "New" := WNewFunc]} clientGroups.

(** The level of each type's candidate. *)
Abbreviation levels := (gmap string nat) (only parsing).
Definition levelOf (lv : levels) (t : string) : nat := default 0 (lv !! t).
Definition candidate (lv : levels) (t : string) : gostr := goTypeNameCandidate t (levelOf lv t).

Definition candidateGroups (lv : levels) : gmap gostr (list string) :=
  foldl (λ m t, let name := candidate lv t in <[name := default [] (m !! name) ++ [t]]> m) ∅ order.

(** The types of one candidate move up if it clashes; the flag is [changed]. *)
Definition raise (st : levels * bool) (ns : gostr * list string) : levels * bool :=
  if bool_decide (length ns.2 < 2) && negb (bool_decide (is_Some (fixed !! ns.1))) then st
  else foldl (λ st t, if bool_decide (levelOf st.1 t < 2) then (<[t := S (levelOf st.1 t)]> st.1, true) else st)
         st ns.2.

(** [for range n]. *)
Fixpoint raiseLevels (n : nat) (lv : levels) : levels :=
  match n with
  | 0 => lv
  | S n =>
      let st := foldl raise (lv, false) (map_to_list (candidateGroups lv)) in
      if st.2 then raiseLevels n st.1 else lv
  end.

Definition finalLevels : levels := raiseLevels 4 ∅.

(** The comparison of the sort: candidate, package, String. Types that agree on all three
    keep no particular order. *)
Definition sortsBefore (a b : string) : bool :=
  let ca := candidate finalLevels a in
  let cb := candidate finalLevels b in
  if bool_decide (ca = cb) then
    if bool_decide (pkgPathOf a = pkgPathOf b) then gostrLe (stringOf a) (stringOf b)
    else gostrLe (pkgPathOf a) (pkgPathOf b)
  else gostrLe ca cb.

(** [base], [base2], [base3], ...: the names the loops on [n] try. *)
Definition numbered (base : gostr) (i : nat) : gostr :=
  match i with 0 => base | S i => base ++ itoa (i + 2) end.

(** The state of the naming loop: [taken], and the names given. *)
Record naming := Naming_ { nm_taken : gmap gostr string; nm_names : gmap string gostr }.

Definition isTaken (nm : naming) (name : gostr) : bool :=
  bool_decide (is_Some (fixed !! name)) || bool_decide (is_Some (nm_taken nm !! name)).

Definition nameType (nm : naming) (t : string) : naming :=
  let avoid := dom fixed ∪ dom (nm_taken nm) in
  let name := firstFree (size avoid) 0 (numbered (candidate finalLevels t)) (isTaken nm) in
  Naming_ (<[name := t]> (nm_taken nm)) (<[t := name]> (nm_names nm)).

Definition named : naming := foldl nameType (Naming_ ∅ ∅) (merge_sort (λ a b, Is_true (sortsBefore a b)) order).
Definition finalName (t : string) : gostr := default [] (nm_names named !! t).

(** The constants: enum members, then error codes. *)
Definition enumConsts (t : string) : list (gostr * what) :=
  match enumOf t with
  | None => []
  | Some e => imap (λ i v, (finalName t ++ goEnumMemberIdent v.1 i, WEnumValue (en_name e) v.1)) (en_values e)
  end.
Definition errorCodeConst (name : string) : gostr := lit "ErrCode" ++ goExportedIdent (lit name).
Definition constants : list (gostr * what) :=
  (order ≫= enumConsts) ++ ((λ ec, (errorCodeConst ec.1, WErrorCode ec.1)) <$> r_errorCodes reg).

Definition claimConst (st : claimState) (c : gostr * what) : claimState :=
  match nm_taken named !! c.1 with
  | Some t => (st.1 ++ [Clash c.1 (WType t) c.2], st.2)
  | None =>
      match fixed !! c.1 with
      | Some prev => (st.1 ++ [Clash c.1 prev c.2], st.2)
      | None => claim st c
      end
  end.
Definition consts : claimState := foldl claimConst ([], ∅) constants.

Definition topLevel : gset gostr := dom fixed ∪ dom (nm_taken named) ∪ dom consts.2.

(** [assignNames]: the errors; the names are [finalName] and [topLevel]. *)
Definition assignNames : list nameError := consts.1.

(** What the package declares, the members of its Client, and the methods of a group. *)
Definition packageNames : list gostr :=
  [lit "Client"; lit "New"] ++ (gg_typeName <$> clientGroups) ++ (finalName <$> order) ++ constants.*1.
Definition memberNames : list gostr :=
  goPromotedClientMembers ++ (gg_fieldName <$> clientGroups) ++ (onEvent <$> pushEvents).
Definition methodNames (grp : @HandlerGroup Mw) : list gostr := (sortedHandlers grp ≫= methodsOf grp).*1.

(** Nothing was refused. *)
Definition accepted : Prop :=
  clientMembers.1 = [] ∧ Forall (λ g, (groupMethods (gg_group g)).1 = []) clientGroups ∧ assignNames = [].

End Client.

(** ** Imports *)

Section Imports.
  (** The package clauses known from reflection. *)
  Context (realPkgNames : gmap gostr gostr).

Definition pkgName (pkgPath : gostr) : gostr := default (goPkgName pkgPath) (realPkgNames !! pkgPath).

Definition badLocal (used : gset gostr) (local : gostr) : bool :=
  bool_decide (local ∈ used) || IsKeyword local || bool_decide (local ∈ goReservedParamNames).

Definition assignImport (st : gset gostr * gmap gostr gostr) (p : gostr) : gset gostr * gmap gostr gostr :=
  let avoid := st.1 ∪ keywordSet ∪ goReservedParamNames in
  let local := firstFree (size avoid) 0 (numbered (pkgName p)) (badLocal st.1) in
  ({[local]} ∪ st.1, <[p := local]> st.2).

Definition assignImportNames (importNames : gmap gostr gostr) : gmap gostr gostr :=
  (foldl assignImport (∅, importNames) (sortNames (elements (dom importNames)))).2.

End Imports.

(** ** Parameters ([buildParams], without the types) *)

Section Params.
  Context (importNames : gmap gostr gostr) (top : gset gostr).

Definition isImportName (name : gostr) : bool :=
  bool_decide (name ∈ (map_to_list importNames).*2).

Definition badParam (used : gset gostr) (name : gostr) : bool :=
  bool_decide (name ∈ goReservedParamNames) || isImportName name || bool_decide (name ∈ top) ||
  bool_decide (name ∈ used).

(** The name in the handler's source, if it has a usable one. *)
Definition sourceName (srcNames : list gostr) (i : nat) : gostr :=
  let name := default [] (srcNames !! i) in
  if bool_decide (name = []) || bool_decide (name = lit "_") || bool_decide (name = lit "arg") ||
     negb (IsIdentifier name)
  then lit "arg" ++ itoa i else name.

Definition paramAvoid (used : gset gostr) : gset gostr :=
  goReservedParamNames ∪ list_to_set (map_to_list importNames).*2 ∪ top ∪ used.

Definition paramName (used : gset gostr) (base : gostr) : gostr :=
  firstFree (size (paramAvoid used)) 0 (λ k, base ++ replicate k underscore) (badParam used).

Fixpoint paramNames (srcNames : list gostr) (i n : nat) (used : gset gostr) : list gostr :=
  match n with
  | 0 => []
  | S n =>
      let name := paramName used (sourceName srcNames i) in
      name :: paramNames srcNames (S i) n ({[name]} ∪ used)
  end.

End Params.
(** ** Claims that succeed *)

(** A step that claims what is [good] and refuses the rest. *)
Definition claims (good : gostr → Prop) (f : claimState → gostr * what → claimState) : Prop :=
  ∀ st c, (f st c = claim st c ∧ good c.1) ∨ (f st c).1 ≠ [].

Lemma claims_ok good f cs st :
  claims good f → (∀ st c, (f st c).1 = [] → st.1 = []) → (foldl f st cs).1 = [] →
  NoDup cs.*1 ∧ (∀ n, n ∈ cs.*1 → st.2 !! n = None ∧ good n) ∧
  dom (foldl f st cs).2 = dom st.2 ∪ list_to_set cs.*1.
Proof.
  intros Hf Hmono. revert st. induction cs as [|c cs IH]; intros st He; simpl in *.
  { split_and!; [constructor|by intros n ?%not_elem_of_nil|set_solver]. }
  assert (Hc : (f st c).1 = []).
  { clear -Hmono He. revert He. generalize (f st c). induction cs as [|d cs IH]; intros st' He; [done|].
    simpl in He. by eapply Hmono, IH. }
  destruct (IH _ He) as (Hnd & Hn & Hdom).
  destruct (Hf st c) as [[Hcl Hg]|]; [|done]. rewrite Hcl in *. unfold claim in *.
  destruct (st.2 !! c.1) as [prev|] eqn:E; simpl in *; [by destruct st.1|].
  split_and!.
  - constructor; [|done]. intros Hin. apply Hn in Hin as [Hin _]. by rewrite lookup_insert_eq in Hin.
  - intros n [->|Hin]%elem_of_cons; [done|]. apply Hn in Hin as [Hin ?].
    by apply lookup_insert_None in Hin as [??].
  - rewrite Hdom, dom_insert_L. set_solver.
Qed.

Lemma claim_claims : claims (λ _, True) claim.
Proof. intros st c. by left. Qed.

Lemma claim_mono st c : (claim st c).1 = [] → st.1 = [].
Proof. unfold claim. destruct (st.2 !! c.1); simpl; [|done]. by destruct st.1. Qed.

Lemma foldl_claim_mono cs st : (foldl claim st cs).1 = [] → st.1 = [].
Proof.
  revert st. induction cs as [|c cs IH]; intros st; simpl; [done|]. intros Hc%IH. by eapply claim_mono.
Qed.

(** ** Names *)

Definition startsUpper (s : gostr) : bool := match s with r :: _ => isUpper r | [] => false end.

Lemma startsUpper_app s t : startsUpper s = true → startsUpper (s ++ t) = true.
Proof. by destruct s. Qed.

Lemma goExportedIdent_upper s : startsUpper (goExportedIdent s) = true.
Proof.
  unfold goExportedIdent. destruct (exportedRunes true s) as [|r out]; simpl.
  - by apply (upper_ascii 88).
  - destruct (isUpper r) eqn:E; simpl; [done|]. by apply (upper_ascii 88).
Qed.

Lemma candidate_upper t level : startsUpper (goTypeNameCandidate t level) = true.
Proof.
  unfold goTypeNameCandidate. case_bool_decide; [apply startsUpper_app|]; apply goExportedIdent_upper.
Qed.

Lemma lit_inj s s' : lit s = lit s' → s = s'.
Proof.
  revert s'. induction s as [|a s IH]; intros [|a' s']; simpl; try done.
  intros [= Ha Hs]. apply Nat2Z.inj in Ha. rewrite (IH _ Hs). f_equal.
  by rewrite <-(Ascii.ascii_nat_embedding a), Ha, Ascii.ascii_nat_embedding.
Qed.

Lemma itoa_inj n m : itoa n = itoa m → n = m.
Proof. intros E%lit_inj. by apply (inj pretty) in E. Qed.

Lemma pretty_N_char_digit x : (x < 10)%N → asciiDigit (Z.of_nat (Ascii.nat_of_ascii (pretty_N_char x))) = true.
Proof.
  intros Hx. assert (x = 0 ∨ x = 1 ∨ x = 2 ∨ x = 3 ∨ x = 4 ∨ x = 5 ∨ x = 6 ∨ x = 7 ∨ x = 8 ∨ x = 9)%N by lia.
  by destruct_or!; subst.
Qed.

Lemma pretty_N_go_digits x s :
  forallb asciiDigit (lit s) = true →
  forallb asciiDigit (lit (pretty_N_go x s)) = true ∧ ((0 < x)%N ∨ s ≠ "" → pretty_N_go x s ≠ "").
Proof.
  revert s. induction (N.lt_wf_0 x) as [x _ IH]; intros s Hs.
  destruct (decide (0 < x)%N) as [Hx|Hx].
  - rewrite pretty_N_go_step by done. destruct (IH (x `div` 10)%N) with (s := String (pretty_N_char (x `mod` 10)) s)
      as [H1 H2]; [by apply N.div_lt| |].
    + cbn [lit forallb]. rewrite Hs, pretty_N_char_digit by (by apply N.mod_lt). done.
    + split; [done|]. intros _. apply H2. by right.
  - assert (x = 0%N) as -> by lia. rewrite pretty_N_go_0. split; [done|]. intros [?|?]; [lia|done].
Qed.

Lemma itoa_digits n : forallb asciiDigit (itoa n) = true ∧ itoa n ≠ [].
Proof.
  unfold itoa, pretty, pretty_nat, pretty, pretty_N. case_decide as Hn; [done|].
  destruct (pretty_N_go_digits (N.of_nat n) "") as [H1 H2]; [done|]. split; [done|].
  destruct (pretty_N_go (N.of_nat n) "") eqn:E; [|done]. exfalso. apply H2; [left; lia|done].
Qed.

#[local] Instance numbered_inj base : Inj (=) (=) (numbered base).
Proof.
  intros [|i] [|j]; simpl; intros E; try done.
  - destruct (itoa_digits (j + 2)) as [_ []]. by apply (app_inv_head base); rewrite app_nil_r.
  - destruct (itoa_digits (i + 2)) as [_ []]. by apply (app_inv_head base); rewrite app_nil_r.
  - apply (inj (app base)), itoa_inj in E. lia.
Qed.

#[local] Instance underscores_inj base : Inj (=) (=) (λ k, base ++ replicate k underscore).
Proof. intros i j E%(f_equal length). rewrite !length_app, !length_replicate in E. lia. Qed.

(** A loop over different elements, each of them new to what its invariant speaks of. *)
Lemma foldl_fresh `{Countable A} {S} (I : gset A → S → Prop) (f : S → A → S) :
  (∀ ps st p, I ps st → p ∉ ps → I ({[p]} ∪ ps) (f st p)) →
  ∀ xs ps st, NoDup xs → (∀ x, x ∈ xs → x ∉ ps) → I ps st → I (ps ∪ list_to_set xs) (foldl f st xs).
Proof.
  intros Hstep xs. induction xs as [|x xs IH]; intros ps st Hnd Hdisj Hinv; simpl.
  { by rewrite (right_id_L ∅ (∪)). }
  apply NoDup_cons in Hnd as [Hx Hnd].
  replace (ps ∪ ({[x]} ∪ list_to_set xs)) with (({[x]} ∪ ps) ∪ list_to_set xs) by set_solver.
  apply IH; [done| |apply Hstep; [done|]].
  - intros y Hy. rewrite not_elem_of_union, not_elem_of_singleton. split; [by intros ->|].
    apply Hdisj. by right.
  - apply Hdisj. left.
Qed.

Section Facts.
  Context {Mw : Type} (reg : @Registry Mw) (order : list string) (enumOf : string → option EnumInfo).

Abbreviation namedOf := (named reg order).
Abbreviation nameOfType := (finalName reg order).

(** What the naming loop keeps: the two maps are inverse, and no name is a fixed one. *)
Record namingInv (done : gset string) (nm : naming) : Prop := NamingInv {
  ni_dom : dom (nm_names nm) = done;
  ni_taken t name : nm_names nm !! t = Some name → nm_taken nm !! name = Some t;
  ni_names t name : nm_taken nm !! name = Some t → nm_names nm !! t = Some name;
  ni_free t name : nm_names nm !! t = Some name → fixed reg !! name = None;
  ni_shape t name : nm_names nm !! t = Some name →
    ∃ i, name = numbered (candidate (finalLevels reg order) t) i;
}.

Lemma nameType_inv ts t nm :
  namingInv ts nm → t ∉ ts → namingInv ({[t]} ∪ ts) (nameType reg order nm t).
Proof.
  intros [Hdom Htaken Hnames Hfree Hshape] Ht.
  assert (Hfresh : nm_names nm !! t = None) by (by apply not_elem_of_dom; rewrite Hdom).
  set (cand := numbered (candidate (finalLevels reg order) t)).
  unfold nameType. fold cand. set (fuel := size _). set (name := firstFree fuel 0 cand _).
  assert (isTaken reg nm name = false) as [Hf Hu]%orb_false_iff.
  { apply firstFree_free; [apply _|]. intros x. unfold isTaken.
    by rewrite orb_true_iff, !bool_decide_eq_true, elem_of_union, !elem_of_dom. }
  apply bool_decide_eq_false, eq_None_not_Some in Hf. apply bool_decide_eq_false, eq_None_not_Some in Hu.
  destruct (firstFree_cand fuel 0 cand (isTaken reg nm)) as [i Hi]. fold name in Hi.
  split; simpl.
  - rewrite dom_insert_L. set_solver.
  - intros t' name'. rewrite lookup_insert_Some. intros [[<- <-]|[Hne E]]; [by rewrite lookup_insert_eq|].
    apply Htaken in E. rewrite lookup_insert_ne; [done|]. congruence.
  - intros t' name'. rewrite lookup_insert_Some. intros [[<- <-]|[Hne E]]; [by rewrite lookup_insert_eq|].
    apply Hnames in E. rewrite lookup_insert_ne; [done|]. congruence.
  - intros t' name'. rewrite lookup_insert_Some. intros [[<- <-]|[Hne E]]; [done|by eapply Hfree].
  - intros t' name'. rewrite lookup_insert_Some. intros [[<- <-]|[Hne E]]; [by eauto|by eapply Hshape].
Qed.

Context (Hnd : NoDup order).

Lemma named_inv : namingInv (list_to_set order) namedOf.
Proof.
  assert (Hp : merge_sort (λ a b, Is_true (sortsBefore reg order a b)) order ≡ₚ order)
    by apply merge_sort_Permutation.
  unfold named. rewrite <-(list_to_set_perm_L _ _ Hp). rewrite <-(left_id_L ∅ (∪) (list_to_set _)).
  apply foldl_fresh.
  - intros ps st p. apply nameType_inv.
  - by rewrite Hp.
  - intros t _. apply not_elem_of_empty.
  - split; simpl; done.
Qed.

Lemma finalName_Some t name : nm_names namedOf !! t = Some name → nameOfType t = name.
Proof. intros E. exact (f_equal (from_option id []) E). Qed.

Lemma nameOfType_spec t :
  t ∈ order → nm_taken namedOf !! nameOfType t = Some t ∧ fixed reg !! nameOfType t = None ∧
    ∃ i, nameOfType t = numbered (candidate (finalLevels reg order) t) i.
Proof.
  intros Ht. destruct named_inv as [Hdom Htaken _ Hfree Hshape].
  assert (is_Some (nm_names namedOf !! t)) as [name E].
  { apply elem_of_dom. rewrite Hdom. by apply elem_of_list_to_set. }
  rewrite (finalName_Some _ _ E). split_and!; [by apply Htaken|by eapply Hfree|by apply Hshape].
Qed.

Lemma dom_taken : dom (nm_taken namedOf) = list_to_set (nameOfType <$> order).
Proof.
  destruct named_inv as [Hdom Htaken Hnames _ _]. apply set_eq. intros name.
  rewrite elem_of_dom, elem_of_list_to_set, list_elem_of_fmap. split.
  - intros [t E]. exists t. rewrite (finalName_Some _ _ (Hnames _ _ E)). split; [done|].
    apply (elem_of_list_to_set (C := gset string)). rewrite <-Hdom. apply elem_of_dom. eauto.
  - intros (t & -> & Ht). apply nameOfType_spec in Ht as [E _]. by eexists.
Qed.

Lemma nameOfType_NoDup : NoDup (nameOfType <$> order).
Proof.
  apply NoDup_fmap_2_strong; [|done]. intros t u Ht Hu E.
  apply nameOfType_spec in Ht as [Ht _]. apply nameOfType_spec in Hu as [Hu _]. congruence.
Qed.

Lemma nameOfType_upper t : t ∈ order → startsUpper (nameOfType t) = true.
Proof.
  intros (_ & _ & [|i] & ->)%nameOfType_spec; [apply candidate_upper|].
  apply startsUpper_app, candidate_upper.
Qed.

Lemma dom_fixed : dom (fixed reg) = list_to_set ([lit "Client"; lit "New"] ++ (gg_typeName <$> clientGroups reg)).
Proof.
  unfold fixed. generalize (clientGroups reg). intros gs.
  assert (∀ (m : gmap gostr what), dom (foldl (λ m g, <[gg_typeName g := WGroupType (gr_name (gg_group g))]> m) m gs) =
            dom m ∪ list_to_set (gg_typeName <$> gs)) as ->.
  { induction gs as [|g gs IH]; intros m; simpl; [set_solver|]. rewrite IH, dom_insert_L. set_solver. }
  rewrite dom_insert_L, dom_singleton_L. simpl. set_solver.
Qed.

(** ** The scopes *)

Lemma goGroups_in g : g ∈ clientGroups reg → ∃ grp, g = goGroupOf grp.
Proof.
  unfold clientGroups, sortOn. rewrite merge_sort_Permutation. intros ([n grp] & _ & E)%list_elem_of_omap.
  simpl in E. destruct (gr_socket grp); [|done]. injection E as <-. by eexists.
Qed.

Lemma clientGroups_shape g :
  g ∈ clientGroups reg → gg_typeName g = gg_fieldName g ++ lit "Client" ∧ startsUpper (gg_fieldName g) = true.
Proof.
  intros [grp ->]%goGroups_in. split; [done|apply goExportedIdent_upper].
Qed.

Lemma fixedNames_NoDup :
  NoDup (gg_fieldName <$> clientGroups reg) →
  NoDup ([lit "Client"; lit "New"] ++ (gg_typeName <$> clientGroups reg)).
Proof.
  intros Hf. assert (Hshape := clientGroups_shape). revert Hf Hshape. generalize (clientGroups reg). intros gs Hf Hshape.
  assert (Hlast : ∀ g, g ∈ gs → length (gg_typeName g) > 6 ∧ last (gg_typeName g) = Some 116%Z).
  { intros g [-> Hu]%Hshape. rewrite length_app, last_app. destruct (gg_fieldName g); [done|]. simpl. split; [lia|done]. }
  apply NoDup_app. split_and!.
  - apply NoDup_cons. split; [|apply NoDup_singleton]. by rewrite list_elem_of_singleton.
  - intros n Hn (g & -> & Hg)%list_elem_of_fmap. destruct (Hlast g Hg) as [Hlen Hl].
    apply elem_of_cons in Hn as [E|E%list_elem_of_singleton]; rewrite E in Hl, Hlen; simpl in *; [lia|done].
  - apply NoDup_fmap_2_strong; [|by eapply NoDup_fmap_1].
    intros g g' Hg Hg' E. rewrite (proj1 (Hshape g Hg)), (proj1 (Hshape g' Hg')) in E.
    apply app_inv_tail in E. by eapply NoDup_fmap_eq.
Qed.

Lemma members_NoDup : (clientMembers reg).1 = [] → NoDup (memberNames reg).
Proof.
  unfold clientMembers, memberNames. rewrite <-foldl_app. intros He.
  apply (claims_ok (λ _, True)) in He as (Hnd' & Hn & _); [|apply claim_claims|apply claim_mono].
  rewrite fmap_app, <-!list_fmap_compose in Hnd', Hn.
  apply NoDup_app. split_and!; [by apply (bool_decide_unpack _)| |done].
  intros n Hp Hin. destruct (Hn n Hin) as [E _]. apply not_elem_of_list_to_map_2 in E.
  by rewrite <-list_fmap_compose, list_fmap_id in E.
Qed.

Lemma methods_NoDup (grp : @HandlerGroup Mw) : (groupMethods grp).1 = [] → NoDup (methodNames grp).
Proof.
  intros He. by apply (claims_ok (λ _, True)) in He as (? & _ & _); [|apply claim_claims|apply claim_mono].
Qed.

Lemma claimConst_claims :
  claims (λ n, nm_taken namedOf !! n = None ∧ fixed reg !! n = None) (claimConst reg order).
Proof.
  intros st c. unfold claimConst. destruct (nm_taken namedOf !! c.1); [right; by destruct st.1|].
  destruct (fixed reg !! c.1); [right; by destruct st.1|by left].
Qed.

Lemma claimConst_mono st c : (claimConst reg order st c).1 = [] → st.1 = [].
Proof.
  unfold claimConst. destruct (nm_taken namedOf !! c.1); [by destruct st.1|].
  destruct (fixed reg !! c.1); [by destruct st.1|apply claim_mono].
Qed.

(** The package's names are those of [topLevel], and they differ. *)
Lemma packageNames_spec :
  (clientMembers reg).1 = [] → assignNames reg order enumOf = [] →
  NoDup (packageNames reg order enumOf) ∧
  topLevel reg order enumOf = list_to_set (packageNames reg order enumOf).
Proof.
  intros Hm He. unfold assignNames, consts in He.
  apply (claims_ok _ _ _ _ claimConst_claims claimConst_mono) in He as (Hc & Hgood & Hdom).
  assert (Hf : NoDup (gg_fieldName <$> clientGroups reg)).
  { apply members_NoDup in Hm. unfold memberNames in Hm. by apply NoDup_app in Hm as (_ & _ & (? & _)%NoDup_app). }
  unfold packageNames, topLevel, consts. rewrite Hdom, (dom_fixed), dom_taken. split.
  - rewrite (assoc_L (++)). apply NoDup_app. split_and!; [by apply fixedNames_NoDup| |].
    + intros n Hn. rewrite elem_of_app. intros [(t & -> & Ht)%list_elem_of_fmap|Hin].
      * apply nameOfType_spec in Ht as (_ & Hno & _). apply not_elem_of_dom in Hno. apply Hno.
        rewrite dom_fixed. by apply elem_of_list_to_set.
      * destruct (Hgood n Hin) as (_ & _ & Hno). apply not_elem_of_dom in Hno. apply Hno.
        rewrite dom_fixed. by apply elem_of_list_to_set.
    + apply NoDup_app. split_and!; [apply nameOfType_NoDup| |done].
      intros n Hn Hin. destruct (Hgood n Hin) as (_ & Hno & _). apply not_elem_of_dom in Hno. apply Hno.
      rewrite dom_taken. by apply elem_of_list_to_set.
  - simpl. by rewrite !list_to_set_app_L, dom_empty_L, (left_id_L ∅ (∪)), !(assoc_L (∪)).
Qed.

Lemma topLevel_upper n :
  n ∈ packageNames reg order enumOf → startsUpper n = true.
Proof.
  unfold packageNames, constants. rewrite !fmap_app, !elem_of_app.
  intros [Hn | [(g & -> & Hg)%list_elem_of_fmap | [(t & -> & Ht)%list_elem_of_fmap | [Hn | Hn]]]].
  - apply elem_of_cons in Hn as [-> | ->%list_elem_of_singleton]; [by apply (upper_ascii 67)|by apply (upper_ascii 78)].
  - destruct (clientGroups_shape g Hg) as [-> Hu]. by apply startsUpper_app.
  - by apply nameOfType_upper.
  - apply list_elem_of_fmap in Hn as (c & -> & Hc). apply list_elem_of_bind in Hc as (t & Hc & Ht).
    unfold enumConsts in Hc. destruct (enumOf t); [|by apply not_elem_of_nil in Hc].
    apply elem_of_lookup_imap in Hc as (i & v & -> & _). by apply startsUpper_app, nameOfType_upper.
  - rewrite <-list_fmap_compose in Hn. apply list_elem_of_fmap in Hn as (ec & -> & _). by apply (upper_ascii 69).
Qed.

End Facts.
(** ** Identifiers *)

Section Identifiers.
  Context {Tables : UnicodeTables isLetter isDigit}.

Definition identChars (s : gostr) : bool := forallb identRune s.

Lemma identChars_app s t : identChars (s ++ t) = identChars s && identChars t.
Proof. apply forallb_app. Qed.

Lemma identRune_ascii r : (0 ≤ r < 128)%Z → identRune r = isWord r.
Proof.
  intros Hr. unfold identRune, isWord. rewrite letter_ascii, digit_ascii by done.
  destruct (asciiDigit r), (bool_decide (65 ≤ r ≤ 90)%Z), (bool_decide (97 ≤ r ≤ 122)%Z); done.
Qed.

Lemma identRune_upper r : identRune r = true → identRune (toUpper r) = true.
Proof.
  unfold identRune. rewrite !orb_true_iff. intros [[Hl|Hd]|Hu].
  - left; left. by apply toUpper_letter.
  - left; right. by apply toUpper_digit.
  - apply bool_decide_eq_true in Hu as ->. right. by rewrite (toUpper_ascii 95).
Qed.

Lemma identRune_lower r : identRune r = true → identRune (toLower r) = true.
Proof.
  unfold identRune. rewrite !orb_true_iff. intros [[Hl|Hd]|Hu].
  - left; left. by apply toLower_letter.
  - left; right. by apply toLower_digit.
  - apply bool_decide_eq_true in Hu as ->. right. by rewrite (toLower_ascii 95).
Qed.

Lemma identChars_ascii s :
  forallb (λ r, bool_decide (0 ≤ r < 128)%Z && isWord r) s = true → identChars s = true.
Proof.
  intros Hs. apply forallb_forall. intros r Hr. eapply forallb_forall in Hs; [|done].
  apply andb_true_iff in Hs as [Hr'%bool_decide_eq_true Hw]. by rewrite identRune_ascii.
Qed.

Lemma itoa_ident n : identChars (itoa n) = true.
Proof.
  destruct (itoa_digits n) as [Hd _]. apply forallb_forall. intros r Hr.
  eapply forallb_forall in Hd; [|done]. rewrite identRune_ascii.
  - unfold isWord. by rewrite Hd.
  - apply bool_decide_eq_true in Hd. lia.
Qed.

Lemma goExportedIdent_ident s : identChars (goExportedIdent s) = true.
Proof.
  assert (Hr : ∀ up s, identChars (exportedRunes up s) = true).
  { clear s. intros up s. revert up. induction s as [|r s IH]; intros up; simpl; [done|].
    destruct (identRune r) eqn:E; [|done]. simpl. rewrite IH, andb_true_r.
    destruct up; [by apply identRune_upper|done]. }
  specialize (Hr true s). unfold goExportedIdent. destruct (exportedRunes true s) as [|r out].
  - by apply identChars_ascii.
  - destruct (isUpper r); [done|]. change (88%Z :: r :: out) with (lit "X" ++ r :: out).
    by rewrite identChars_app, Hr, identChars_ascii.
Qed.

Lemma candidate_ident t level : identChars (goTypeNameCandidate t level) = true.
Proof.
  unfold goTypeNameCandidate.
  case_bool_decide; rewrite ?identChars_app, !goExportedIdent_ident; done.
Qed.

Lemma numbered_ident base i : identChars base = true → identChars (numbered base i) = true.
Proof. destruct i; simpl; [done|]. intros Hb. by rewrite identChars_app, Hb, itoa_ident. Qed.

Lemma goEnumMemberIdent_ident name i : identChars (goEnumMemberIdent name i) = true.
Proof.
  assert (Hd : ∀ s, identChars s = true → identChars (drop 1 s) = true).
  { intros [|r s]; simpl; [done|]. by intros [_ ?]%andb_true_iff. }
  unfold goEnumMemberIdent. case_match.
  - by rewrite identChars_app, itoa_ident, identChars_ascii.
  - case_match; [apply Hd|]; apply goExportedIdent_ident.
Qed.

Lemma keyword_shape s :
  IsKeyword s = true → (match s with r :: _ => (97 ≤ r ≤ 122)%Z | [] => False end) ∧
                       (underscore ∉ s) ∧ take 3 s ≠ lit "arg".
Proof.
  intros Hs%bool_decide_eq_true. unfold keywordSet in Hs. apply elem_of_list_to_set in Hs.
  assert (Hall : forallb (λ s, match s with r :: _ => bool_decide (97 ≤ r ≤ 122)%Z | [] => false end &&
    bool_decide (underscore ∉ s) && bool_decide (take 3 s ≠ lit "arg")) (lit <$> keywords) = true)
    by (vm_compute; reflexivity).
  eapply forallb_forall in Hall; [|by apply list_elem_of_In].
  apply andb_true_iff in Hall as [[H1 H2]%andb_true_iff H3].
  split_and!; [|by apply bool_decide_eq_true in H2|by apply bool_decide_eq_true in H3].
  destruct s; [done|]. by apply bool_decide_eq_true in H1.
Qed.

Lemma exported_identifier s : startsUpper s = true → identChars s = true → IsIdentifier s = true.
Proof.
  destruct s as [|r s]; [done|]. unfold identChars. simpl. intros Hu [_ Hs]%andb_true_iff.
  rewrite (upper_letter _ Hu), Hs. simpl. apply negb_true_iff, not_true_iff_false.
  intros [Hr _]%keyword_shape. rewrite upper_ascii, bool_decide_eq_true in Hu; lia.
Qed.

Lemma goPkgName_ident p : ∃ r rest, goPkgName p = r :: rest ∧ isLetter r = true ∧ identChars (r :: rest) = true.
Proof.
  unfold goPkgName. set (name := if hasPrefix _ _ then _ else _).
  assert (Hc : identChars (toLower <$> filter (λ r, identRune r = true) name) = true).
  { induction name as [|r name' IH]; [done|]. rewrite filter_cons. case_decide as Hr; [|done].
    simpl. by rewrite identRune_lower. }
  assert (Hpkg : ∀ s, identChars s = true → ∃ r rest, lit "pkg" ++ s = r :: rest ∧ isLetter r = true ∧
                                            identChars (r :: rest) = true).
  { intros s Hs. exists 112%Z, (lit "kg" ++ s). split; [done|]. rewrite (letter_ascii 112) by lia. split; [done|].
    change (112%Z :: lit "kg" ++ s) with (lit "pkg" ++ s). by rewrite identChars_app, Hs, identChars_ascii. }
  destruct (toLower <$> _) as [|r rest] eqn:E; [by apply (Hpkg [])|].
  destruct (isLetter r) eqn:El; [by eauto|]. by apply Hpkg.
Qed.

#[local] Opaque keywordSet goReservedParamNames.

Lemma elem_of_rest `{Countable A} (p q : A) (ps : gset A) : q ∈ {[p]} ∪ ps → p ≠ q → q ∈ ps.
Proof. intros [->%elem_of_singleton|Hq]%elem_of_union Hne; done. Qed.

(** *** Imports *)

Section Imports.
  Context (real : gmap gostr gostr) (Hreal : ∀ p name, real !! p = Some name → IsIdentifier name = true).

Lemma identifier_chars s : IsIdentifier s = true → identChars s = true.
Proof.
  destruct s as [|r s]; simpl; [done|]. intros [[Hr Hs]%andb_true_iff _]%andb_true_iff.
  unfold identChars in *. simpl. rewrite Hs, andb_true_r. unfold identRune.
  apply orb_true_iff in Hr as [-> | ->]; by rewrite ?orb_true_r.
Qed.

Lemma pkgName_ident p :
  identChars (pkgName real p) = true ∧
  (match pkgName real p with r :: _ => isLetter r || bool_decide (r = underscore) | [] => false end) = true.
Proof.
  unfold pkgName. destruct (real !! p) as [name|] eqn:E; simpl.
  - apply Hreal in E. split; [by apply identifier_chars|]. destruct name; [done|].
    by apply andb_true_iff in E as [[E _]%andb_true_iff _].
  - destruct (goPkgName_ident p) as (r & rest & -> & Hr & Hc). split; [done|]. by rewrite Hr.
Qed.

Lemma numbered_identifier p i :
  IsKeyword (numbered (pkgName real p) i) = false → IsIdentifier (numbered (pkgName real p) i) = true.
Proof.
  intros Hk. destruct (pkgName_ident p) as [Hc Hr].
  pose proof (numbered_ident _ i Hc) as Hn.
  destruct (pkgName real p) as [|r rest]; [done|]. unfold IsIdentifier.
  assert (∃ rest', numbered (r :: rest) i = r :: rest') as [rest' E] by (destruct i; simpl; eauto).
  rewrite E in *. unfold identChars in Hn. simpl in Hn. apply andb_true_iff in Hn as [_ Hn]. by rewrite Hr, Hn, Hk.
Qed.

(** What the loop over the import paths keeps. *)
Record importsInv (done_ : gset gostr) (st : gset gostr * gmap gostr gostr) : Prop := ImportsInv {
  ii_used p local : p ∈ done_ → st.2 !! p = Some local → local ∈ st.1;
  ii_inj p q local : p ∈ done_ → q ∈ done_ → st.2 !! p = Some local → st.2 !! q = Some local → p = q;
  ii_ok p local : p ∈ done_ → st.2 !! p = Some local →
    IsIdentifier local = true ∧ (local ∉ goReservedParamNames) ∧ ∃ i, local = numbered (pkgName real p) i;
}.

Lemma assignImport_inv done_ st p :
  importsInv done_ st → p ∉ done_ → importsInv ({[p]} ∪ done_) (assignImport real st p).
Proof.
  intros [Hused Hinj Hok] Hp. unfold assignImport. set (fuel := size _). set (local := firstFree fuel 0 _ _).
  assert (badLocal st.1 local = false) as [[Hu Hk]%orb_false_iff Hr]%orb_false_iff.
  { apply (firstFree_free (numbered (pkgName real p)) (badLocal st.1) (st.1 ∪ keywordSet ∪ goReservedParamNames));
      [apply _|]. intros x. unfold badLocal, IsKeyword.
    rewrite !orb_true_iff, !bool_decide_eq_true, !elem_of_union. exact id. }
  apply bool_decide_eq_false in Hu, Hr.
  destruct (firstFree_cand fuel 0 (numbered (pkgName real p)) (badLocal st.1)) as [i Hi]. fold local in Hi. clearbody local.
  split; simpl.
  - intros q l Hq. rewrite lookup_insert_Some. intros [[<- <-]|[Hne E]].
    + by apply elem_of_union_l, elem_of_singleton.
    + apply elem_of_union_r. eapply Hused; [|done]. by eapply elem_of_rest.
  - intros q q' l Hq Hq'. rewrite !lookup_insert_Some.
    intros [[<- <-]|[Hne E]] [[<- El]|[Hne' E']]; [done| | |].
    + destruct Hu. eapply Hused; [|done]. by eapply elem_of_rest.
    + subst l. destruct Hu. eapply Hused; [|done]. by eapply elem_of_rest.
    + eapply Hinj; [| |done|done]; by eapply elem_of_rest.
  - intros q l Hq. rewrite lookup_insert_Some. intros [[<- <-]|[Hne E]].
    + split_and!; [|done|by exists i]. rewrite Hi in *. by apply numbered_identifier.
    + eapply Hok; [|done]. by eapply elem_of_rest.
Qed.

Lemma dom_imports ps st : dom (foldl (assignImport real) st ps).2 = dom st.2 ∪ list_to_set ps.
Proof.
  revert st. induction ps as [|p ps IH]; intros st; simpl; [set_solver|].
  rewrite IH. simpl. rewrite dom_insert_L. set_solver.
Qed.

Lemma assignImportNames_spec imports :
  importsInv (dom imports) (foldl (assignImport real) (∅, imports) (sortNames (elements (dom imports)))) ∧
  dom (assignImportNames real imports) = dom imports.
Proof.
  assert (Hp : sortNames (elements (dom imports)) ≡ₚ elements (dom imports)) by apply merge_sort_Permutation.
  assert (Hs : dom imports = ∅ ∪ list_to_set (sortNames (elements (dom imports)))).
  { by rewrite (list_to_set_perm_L _ _ Hp), list_to_set_elements_L, (left_id_L ∅ (∪)). }
  split.
  - rewrite Hs at 1. apply foldl_fresh.
    + intros ps st p. apply assignImport_inv.
    + rewrite Hp. apply NoDup_elements.
    + intros p _. apply not_elem_of_empty.
    + by split.
  - unfold assignImportNames. rewrite dom_imports. rewrite Hs at 2. set_solver.
Qed.

End Imports.

Lemma startsUpper_numbered b i : b ≠ [] → startsUpper (numbered b i) = startsUpper b.
Proof. by destruct b, i. Qed.

(** *** Parameters *)

Lemma sourceName_identifier srcNames i : IsIdentifier (sourceName srcNames i) = true.
Proof.
  unfold sourceName. set (name := default [] _). destruct (IsIdentifier name) eqn:E; [|rewrite orb_true_r].
  1: destruct (_ || _ || _ || negb true); [|done].
  all: unfold IsIdentifier; cbn [lit app]; rewrite (letter_ascii 97) by done;
    pose proof (itoa_ident i) as Hi; change (_ :: _ :: itoa i) with (lit "rg" ++ itoa i);
    fold (identChars (lit "rg" ++ itoa i)); rewrite identChars_app, Hi, (identChars_ascii (lit "rg")) by done;
    simpl; apply negb_true_iff, not_true_iff_false; intros (_ & _ & [])%keyword_shape; done.
Qed.

Lemma underscored_identifier s k : IsIdentifier s = true → IsIdentifier (s ++ replicate k underscore) = true.
Proof.
  intros Hs. pose proof (identifier_chars s Hs) as Hc. destruct k as [|k]; [by rewrite app_nil_r|].
  destruct s as [|r s]; [done|]. apply andb_true_iff in Hs as [[Hr _]%andb_true_iff _].
  assert (Hk : identChars ((r :: s) ++ replicate (S k) underscore) = true).
  { rewrite identChars_app, Hc. apply forallb_forall. intros x Hx.
    apply list_elem_of_In, elem_of_replicate in Hx as [-> _]. by rewrite identRune_ascii. }
  unfold IsIdentifier. apply andb_true_iff in Hk as [_ Hk]. rewrite <-app_comm_cons, Hr. simpl.
  apply andb_true_iff. split; [exact Hk|]. apply negb_true_iff, not_true_iff_false. intros (_ & Hno & _)%keyword_shape.
  apply Hno. apply elem_of_cons; right. apply elem_of_app; right. left.
Qed.

Lemma paramName_spec importNames top used base :
  IsIdentifier base = true →
  badParam importNames top used (paramName importNames top used base) = false ∧
  IsIdentifier (paramName importNames top used base) = true.
Proof.
  intros Hb. unfold paramName. split.
  - apply (firstFree_free _ _ (paramAvoid importNames top used)); [apply _|]. intros x.
    unfold badParam, isImportName, paramAvoid.
    rewrite !orb_true_iff, !bool_decide_eq_true, !elem_of_union, elem_of_list_to_set. exact id.
  - destruct (firstFree_cand (size (paramAvoid importNames top used)) 0 (λ k, base ++ replicate k underscore)
      (badParam importNames top used)) as [k ->]. by apply underscored_identifier.
Qed.

Lemma badParam_weaken importNames top used name x :
  badParam importNames top ({[name]} ∪ used) x = false → badParam importNames top used x = false ∧ x ≠ name.
Proof.
  unfold badParam. rewrite !orb_false_iff. intros [Hb Hx]. apply bool_decide_eq_false in Hx.
  apply not_elem_of_union in Hx as [Hne%not_elem_of_singleton Hx].
  split; [split; [exact Hb|by apply bool_decide_eq_false]|exact Hne].
Qed.

Lemma paramNames_spec importNames top srcNames i n used :
  let ps := paramNames importNames top srcNames i n used in
  length ps = n ∧ NoDup ps ∧ Forall (λ x, badParam importNames top used x = false ∧ IsIdentifier x = true) ps.
Proof.
  revert i used. induction n as [|n IH]; intros i used; simpl; [split_and!; constructor|].
  set (name := paramName _ _ used _).
  destruct (paramName_spec importNames top used (sourceName srcNames i)) as [Hbad Hid]; [apply sourceName_identifier|].
  fold name in Hbad, Hid. destruct (IH (S i) ({[name]} ∪ used)) as (Hlen & Hnd & Hall).
  split_and!; [by rewrite Hlen| |]; rewrite Forall_forall in Hall.
  - constructor; [|exact Hnd]. intros Hin. destruct (Hall name Hin) as [Hb _].
    destruct (badParam_weaken _ _ _ _ _ Hb) as [_ Hne]. by apply Hne.
  - constructor; [split; assumption|]. apply Forall_forall. intros x Hx. destruct (Hall x Hx) as [Hb Hi].
    split; [exact (proj1 (badParam_weaken _ _ _ _ _ Hb))|exact Hi].
Qed.

(** *** The package *)

Section Declared.
  Context {Mw : Type} (reg : @Registry Mw) (order : list string) (enumOf : string → option EnumInfo).

Lemma packageNames_identifier n :
  NoDup order → n ∈ packageNames reg order enumOf → IsIdentifier n = true.
Proof.
  intros Hnd Hn. apply exported_identifier; [by eapply topLevel_upper|]. revert Hn.
  assert (Ht : ∀ t, t ∈ order → identChars (finalName reg order t) = true).
  { intros t Ht. destruct (nameOfType_spec reg order Hnd t Ht) as (_ & _ & i & ->).
    apply numbered_ident, candidate_ident. }
  unfold packageNames, constants. rewrite !fmap_app, !elem_of_app.
  intros [Hn | [(g & -> & Hg)%list_elem_of_fmap | [(t & -> & Ht')%list_elem_of_fmap | [Hn | Hn]]]].
  - apply elem_of_cons in Hn as [-> | ->%list_elem_of_singleton]; by apply identChars_ascii.
  - apply goGroups_in in Hg as [grp ->]. simpl.
    by rewrite identChars_app, goExportedIdent_ident, identChars_ascii.
  - by apply Ht.
  - apply list_elem_of_fmap in Hn as (c & -> & Hc). apply list_elem_of_bind in Hc as (t & Hc & Ht').
    unfold enumConsts in Hc. destruct (enumOf t); [|by apply not_elem_of_nil in Hc].
    apply elem_of_lookup_imap in Hc as (i & v & -> & _). simpl.
    by rewrite identChars_app, Ht, goEnumMemberIdent_ident.
  - rewrite <-list_fmap_compose in Hn. apply list_elem_of_fmap in Hn as (ec & -> & _).
    change (identChars (lit "ErrCode" ++ goExportedIdent (lit ec.1)) = true). by rewrite identChars_app, goExportedIdent_ident, identChars_ascii.
Qed.

(** The members of Client, and the methods, given that handlers have the names of methods. *)
Lemma memberNames_identifier n : n ∈ memberNames reg → IsIdentifier n = true.
Proof.
  unfold memberNames. rewrite !elem_of_app.
  intros [Hn | [(g & -> & Hg)%list_elem_of_fmap | (ev & -> & _)%list_elem_of_fmap]].
  - apply exported_identifier.
    + apply list_elem_of_fmap in Hn as (m & -> & Hm). revert m Hm. apply Forall_forall.
      repeat constructor; by apply upper_ascii.
    + apply list_elem_of_fmap in Hn as (m & -> & Hm). revert m Hm. apply Forall_forall.
      repeat constructor; by apply identChars_ascii.
  - apply goGroups_in in Hg as [grp ->].
    by apply exported_identifier; [apply goExportedIdent_upper|apply goExportedIdent_ident].
  - unfold onEvent. apply exported_identifier; [by apply (upper_ascii 79)|].
    by rewrite identChars_app, goExportedIdent_ident, identChars_ascii.
Qed.

Lemma methodNames_identifier (grp : @HandlerGroup Mw) n :
  (∀ h info, gr_handlers grp !! h = Some info → IsIdentifier (lit h) = true) →
  n ∈ methodNames grp → IsIdentifier n = true.
Proof.
  intros Hh (m & -> & ((h & info) & Hm & Hin)%list_elem_of_bind)%list_elem_of_fmap.
  unfold sortedHandlers, sortOn in Hin. rewrite merge_sort_Permutation in Hin.
  apply elem_of_map_to_list in Hin. specialize (Hh h info Hin).
  unfold methodsOf in Hm. apply elem_of_cons in Hm as [->|Hm]; [exact Hh|]. simpl in Hm.
  case_match; [|by apply not_elem_of_nil in Hm]. apply list_elem_of_singleton in Hm as ->.
  apply exported_identifier; [by apply (upper_ascii 83)|]. simpl.
  change (identChars (lit "Subscribe" ++ lit h) = true).
  by rewrite identChars_app, (identifier_chars _ Hh), identChars_ascii.
Qed.

End Declared.

Lemma badParam_false importNames top used x :
  badParam importNames top used x = false →
  (x ∉ goReservedParamNames) ∧ (x ∉ top) ∧ ∀ p local, importNames !! p = Some local → x ≠ local.
Proof.
  unfold badParam, isImportName. rewrite !orb_false_iff, !bool_decide_eq_false.
  intros [[[Hr Hi] Ht] _]. split_and!; [done|done|]. intros p local E ->. apply Hi.
  apply list_elem_of_fmap. exists (p, local). split; [done|]. by apply elem_of_map_to_list.
Qed.

End Identifiers.

(** ** The name spaces of the package *)

Section Package.
  Context {Mw : Type} (reg : @Registry Mw) (order : list string) (enumOf : string → option EnumInfo).
  Context (imports real : gmap gostr gostr).

(** C31: When the generator reports no clash, the names of the generated package are sound.
    Its declarations have different names, all identifiers, and so have the members of Client
    and the methods of each group's client (handlers have the names of Go methods). Each
    import has a local name of its own, an identifier that hides nothing predeclared: that of
    its package, or that with a number. It differs from every declaration unless the name of
    the package itself starts with an upper-case letter ([import_can_hide_type]). The
    parameters of every method are different identifiers that hide neither a declaration,
    nor an import, nor a name that the method's body uses. *)
Theorem go_names_unambiguous :
  UnicodeTables isLetter isDigit → NoDup order →
  (∀ p name, real !! p = Some name → IsIdentifier name = true) →
  (∀ g h info, g ∈ clientGroups reg → gr_handlers (gg_group g) !! h = Some info → IsIdentifier (lit h) = true) →
  accepted reg order enumOf →
  let top := topLevel reg order enumOf in
  let locals := assignImportNames real imports in
  (NoDup (packageNames reg order enumOf) ∧
    ∀ n, n ∈ packageNames reg order enumOf → n ∈ top ∧ IsIdentifier n = true) ∧
  (NoDup (memberNames reg) ∧ ∀ n, n ∈ memberNames reg → IsIdentifier n = true) ∧
  (∀ g, g ∈ clientGroups reg → NoDup (methodNames (gg_group g)) ∧
    ∀ n, n ∈ methodNames (gg_group g) → IsIdentifier n = true) ∧
  (dom locals = dom imports ∧ (∀ p q local, locals !! p = Some local → locals !! q = Some local → p = q) ∧
    ∀ p local, locals !! p = Some local →
      IsIdentifier local = true ∧ (local ∉ goReservedParamNames) ∧
      (∃ i, local = numbered (pkgName real p) i) ∧
      (startsUpper (pkgName real p) = false → local ∉ top)) ∧
  (∀ srcNames n, let ps := paramNames locals top srcNames 0 n ∅ in
    length ps = n ∧ NoDup ps ∧
    ∀ x, x ∈ ps → IsIdentifier x = true ∧ (x ∉ goReservedParamNames) ∧ (x ∉ top) ∧
      ∀ p local, locals !! p = Some local → x ≠ local).
Proof.
  intros Tables Hnd Hreal Hmeth (Hm & Hg & Ha). cbv zeta.
  destruct (packageNames_spec reg order enumOf Hnd Hm Ha) as [Hp Htop].
  destruct (assignImportNames_spec real Hreal imports) as [[_ Hinj Hok] Hdom].
  assert (Hin : ∀ p local, assignImportNames real imports !! p = Some local → p ∈ dom imports).
  { intros p local E. rewrite <-Hdom. by eapply elem_of_dom_2. }
  split_and!; [done| |by apply members_NoDup|by apply memberNames_identifier| |done| | |].
  - intros n Hn. split; [by rewrite Htop; apply elem_of_list_to_set|by apply (packageNames_identifier reg order enumOf)].
  - intros g Hgs. split; [apply methods_NoDup; by eapply Forall_forall in Hg|].
    intros n. apply methodNames_identifier. intros h info. by apply Hmeth.
  - intros p q local Ep Eq. by apply (Hinj p q local); [by eapply Hin|by eapply Hin| |].
  - intros p local E. destruct (Hok p local (Hin _ _ E) E) as (Hid & Hr & i & ->).
    split_and!; [done|done|by exists i|]. intros Hlow. rewrite Htop, elem_of_list_to_set.
    intros Hup%topLevel_upper; [|done]. rewrite startsUpper_numbered in Hup; [congruence|].
    destruct (pkgName_ident real Hreal p) as [_ Hne]. by destruct (pkgName real p).
  - intros srcNames n. destruct (paramNames_spec (assignImportNames real imports) (topLevel reg order enumOf)
      srcNames 0 n ∅) as (Hlen & Hps & Hall).
    split_and!; [done|done|]. intros x Hx. eapply Forall_forall in Hall as [Hb Hid]; [|done].
    by apply badParam_false in Hb as (Hr & Hi & Ht).
Qed.

End Package.

End Code.
(** ** Examples *)

Definition asciiLetters (r : rune) : bool := bool_decide (65 ≤ r ≤ 90)%Z || bool_decide (97 ≤ r ≤ 122)%Z.

Lemma asciiTables : @UnicodeTables asciiCase asciiLetters asciiDigit.
Proof.
  assert (Hl : ∀ r, asciiLetters r = true ↔ (65 ≤ r ≤ 90 ∨ 97 ≤ r ≤ 122)%Z).
  { intros r. unfold asciiLetters. by rewrite orb_true_iff, !bool_decide_eq_true. }
  split; try done; intros r; simpl.
  - intros Hr%bool_decide_eq_true. apply Hl. lia.
  - rewrite !Hl. case_bool_decide; lia.
  - unfold asciiDigit. rewrite !bool_decide_eq_true. case_bool_decide; lia.
  - rewrite !Hl. case_bool_decide; lia.
  - unfold asciiDigit. rewrite !bool_decide_eq_true. case_bool_decide; lia.
Qed.

(** A registry with two groups, and three types called Item, one of them an enum. *)
Definition exGroup (name : string) (handlers : gmap string HandlerInfo) : @HandlerGroup unit :=
  Group name handlers [PushEvent "item-added" "models.Item" name] [] [] true.
Definition exInfo (name : string) : HandlerInfo := Info name [] (TStruct "Item") "todos" false HandlerKindUnary None.
Definition exReg : @Registry unit :=
  Reg ∅ {["todos" := exGroup "todos" {["List" := exInfo "List"; "Add" := exInfo "Add"]}]}
    [] ∅ [("quota exceeded", 1000%Z)] [] 1001%Z [] ∅ ∅.
Definition exOrder : list string := ["example.com/a/models.Item"; "example.com/b/models.Item"; "example.com/c/kinds.Item"].
Definition exPkg (id : string) : gostr := lit (String.substring 0 (String.length id - 5) id).
Definition exEnum (id : string) : option EnumInfo :=
  if bool_decide (id = "example.com/c/kinds.Item")
  then Some (Registry.Enum "Item" id true [(lit "in-progress", lit "in-progress"); (lit "done", lit "done")]) else None.
Definition exImports : gmap gostr gostr :=
  {[lit "example.com/ext/type" := lit "type"; lit "example.com/other/type" := lit "type"; lit "example.com/uuid" := lit "uuid"]}.

Lemma go_names_unambiguous_witness :
  let names := packageNames (H := asciiCase) asciiLetters asciiDigit asciiDigit (λ _, lit "Item") exPkg lit
                 exReg exOrder exEnum in
  let locals := assignImportNames (H := asciiCase) asciiLetters asciiDigit ∅ exImports in
  NoDup names ∧ lit "ModelsItem2" ∈ names ∧ lit "KindsItemInProgress" ∈ names ∧
  ∀ p q local, locals !! p = Some local → locals !! q = Some local → p = q.
Proof.
  pose proof (go_names_unambiguous (H := asciiCase) asciiLetters asciiDigit asciiDigit (λ _, lit "Item") exPkg lit
    exReg exOrder exEnum exImports ∅ asciiTables) as Hu.
  destruct Hu as ([Hnd _] & _ & _ & (_ & Hinj & _) & _).
  - refine (bool_decide_unpack _ _). vm_compute. exact I.
  - intros p name E. rewrite lookup_empty in E. discriminate E.
  - assert (Hc : Forall (λ g, map_Forall (λ h _, IsIdentifier asciiLetters asciiDigit (lit h) = true)
        (gr_handlers (gg_group g))) (clientGroups (H := asciiCase) asciiLetters asciiDigit exReg))
      by (refine (bool_decide_unpack _ _); vm_compute; exact I).
    intros g h info Hg Hh. rewrite Forall_forall in Hc. exact (Hc g Hg h info Hh).
  - split; [|split].
    + vm_compute. reflexivity.
    + refine (bool_decide_unpack _ _). vm_compute. exact I.
    + vm_compute. reflexivity.
  - split; [exact Hnd|]. split; [|split; [|exact Hinj]]; refine (bool_decide_unpack _ _); vm_compute; exact I.
Defined.

(** The placeholder X of [goExportedIdent] is told from a letter of the name only when the
    name starts with it: a member whose first word starts with an x loses the letter. *)
Lemma enum_member_loses_letter :
  goEnumMemberIdent (H := asciiCase) asciiLetters asciiDigit (lit "-xml") 0 = lit "ml" ∧
  goEnumMemberIdent (H := asciiCase) asciiLetters asciiDigit (lit "xml") 0 = lit "Xml".
Proof. by vm_compute. Qed.

(** A package clause that starts with an upper-case letter can be the name of a declaration. *)
Lemma import_can_hide_type :
  let real := {[lit "example.com/Item" := lit "Item"]} in
  let locals := assignImportNames (H := asciiCase) asciiLetters asciiDigit real real in
  locals !! lit "example.com/Item" = Some (lit "Item") ∧
  lit "Item" ∈ topLevel (H := asciiCase) asciiLetters asciiDigit asciiDigit (λ _, lit "Item") exPkg lit
                 exReg ["example.com/a/models.Item"] (λ _, None).
Proof. split; [by vm_compute|]. refine (bool_decide_unpack _ _). vm_compute. exact I. Qed.

End GoNames.
