(* ===== verification/Zod.v ===== *)
(** * Zod: validation schemas for the TypeScript client (zod.go)

    What reflection found about a field is a [fieldData]; [fieldToZod] prints its Zod
    expression. An expression is a list of tokens: text, and the references to other
    schemas, which are what evaluating the generated module depends on; [render] is the
    string. [buildZodSchemas] prints one constant per interface with validation rules, in an
    order that lets the module be evaluated from top to bottom. *)

From S2P Require Import Prelude Runes Transform Registry.
From stdpp Require Import prelude gmap strings pretty list fin_maps fin_sets.

Module Zod.
Import Runes.
Import Transform(ValidateRule, vr_tag, vr_param, ParseValidateTag).
Import Registry(EnumInfo, en_isString, en_values).

(** ** Data *)

(** [goKindString]; the empty string is [GkNone]. *)
Inductive goKind :=
  | GkNone | GkString | GkInt | GkUint | GkFloat | GkBool | GkSlice | GkArray | GkMap | GkStruct | GkOther.

#[export] Instance goKind_eq_dec : EqDecision goKind.
Proof. solve_decision. Defined.

(** A printed TypeScript type: text, and the names the file has to declare, each with the
    Go type it stands for. *)
Inductive tsToken := TsTxt (s : gostr) | TsName (n : gostr) (id : string).
Definition tsType : Type := list tsToken.

Record fieldData := FieldData {
  fd_Name : gostr;
  fd_Type : tsType;
  fd_Optional : bool;
  fd_GoType : goKind;
  fd_ValidateTag : gostr;
  fd_SQLNullKind : goKind;
  fd_ElemGoKind : goKind;
  fd_ElemTypeName : gostr;
  fd_ArrayLen : nat;
  fd_Enum : option EnumInfo;
  fd_ElemEnum : option EnumInfo;
  fd_Nullable : bool;
  fd_ElemLazy : bool;
}.

Record interfaceData := InterfaceData { if_Name : gostr; if_Fields : list fieldData }.

(** A Zod expression. *)
Inductive token :=
  | Txt (s : gostr)
  | Ref (name : gostr)      (** the constant [name]Schema *)
  | LazyRef (name : gostr). (** z.lazy(() => [name]Schema) *)

Definition zexpr : Type := list token.

Record zodFieldData := ZField { zf_Name : gostr; zf_ZodType : zexpr }.
Record zodSchemaData := ZSchema { zs_Name : gostr; zs_Fields : list zodFieldData }.

Definition renderToken (t : token) : gostr :=
  match t with
  | Txt s => s
  | Ref n => n ++ lit "Schema"
  | LazyRef n => lit "z.lazy(() => " ++ n ++ lit "Schema)"
  end.

Definition render (e : zexpr) : gostr := e ≫= renderToken.

(** What evaluating the expression reads at once, and later. *)
Definition eager (e : zexpr) : list gostr := omap (λ t, match t with Ref n => Some n | _ => None end) e.
Definition deferred (e : zexpr) : list gostr := omap (λ t, match t with LazyRef n => Some n | _ => None end) e.

(** *** Strings *)

Definition txt (s : string) : zexpr := [Txt (lit s)].

(** [strings.Join] with ", ". *)
Fixpoint joinComma {A} (ps : list (list A)) (comma : list A) : list A :=
  match ps with
  | [] => []
  | [p] => p
  | p :: ps => p ++ comma ++ joinComma ps comma
  end.

(** [strings.Fields]. *)
Fixpoint fieldsFrom (word : gostr) (s : gostr) : list gostr :=
  match s with
  | [] => match word with [] => [] | _ => [word] end
  | r :: s =>
      if isSpace r then match word with [] => fieldsFrom [] s | _ => word :: fieldsFrom [] s end
      else fieldsFrom (word ++ [r]) s
  end.
Definition Fields (s : gostr) : list gostr := fieldsFrom [] s.

(** [strconv.Atoi]. *)
Fixpoint digitsFrom (acc : Z) (s : gostr) : option Z :=
  match s with
  | [] => Some acc
  | r :: s => if bool_decide (48 ≤ r ≤ 57)%Z then digitsFrom (10 * acc + (r - 48)) s else None
  end.

Definition Atoi (s : gostr) : option Z :=
  let '(sign, ds) :=
    match s with
    | r :: s' => if bool_decide (r = 45)%Z then ((-1)%Z, s')
                 else if bool_decide (r = 43)%Z then (1%Z, s') else (1%Z, s)
    | [] => (1%Z, [])
    end in
  match ds with
  | [] => None
  | _ =>
      n ← digitsFrom 0 ds;
      let n := (sign * n)%Z in
      if bool_decide (- 2 ^ 63 ≤ n < 2 ^ 63)%Z then Some n else None
  end.

(** [strconv.Itoa]. *)
Definition Itoa (n : Z) : gostr := lit (pretty n).

Definition hexDigit (d : Z) : rune := if bool_decide (d < 10)%Z then (48 + d)%Z else (87 + d)%Z.

Fixpoint hexDigits (k : nat) (r : Z) : gostr :=
  match k with
  | O => []
  | S k => hexDigits k (r / 16)%Z ++ [hexDigit (r `mod` 16)%Z]
  end.

Section Code.
  (** [unicode.IsPrint]. *)
  Context (isPrint : rune → bool).

(** [strconv.Quote]. *)
Definition quoteRune (r : rune) : gostr :=
  if bool_decide (r = 34)%Z || bool_decide (r = 92)%Z then [92%Z; r]
  else if isPrint r then [r]
  else if bool_decide (r = 7)%Z then [92; 97]%Z
  else if bool_decide (r = 8)%Z then [92; 98]%Z
  else if bool_decide (r = 12)%Z then [92; 102]%Z
  else if bool_decide (r = 10)%Z then [92; 110]%Z
  else if bool_decide (r = 13)%Z then [92; 114]%Z
  else if bool_decide (r = 9)%Z then [92; 116]%Z
  else if bool_decide (r = 11)%Z then [92; 118]%Z
  else if bool_decide (r < 32)%Z || bool_decide (r = 127)%Z then [92; 120]%Z ++ hexDigits 2 r
  else if bool_decide (r < 65536)%Z then [92; 117]%Z ++ hexDigits 4 r
  else [92; 85]%Z ++ hexDigits 8 r.

Definition Quote (s : gostr) : gostr := [34%Z] ++ (s ≫= quoteRune) ++ [34%Z].

(** ** Expressions *)

Definition maxTSTupleLen : nat := 16.

Definition zodEnumBase (info : EnumInfo) : zexpr :=
  if en_isString info then
    txt "enum([" ++ [Txt (joinComma (Quote <$> (en_values info).*2) (lit ", "))] ++ txt "])"
  else
    txt "union([" ++
    [Txt (joinComma ((λ v, lit "z.literal(" ++ v ++ lit ")") <$> (en_values info).*2) (lit ", "))] ++
    txt "])".

(** The empty string is None. *)
Definition zodOneof (k : goKind) (param : gostr) : option zexpr :=
  match Fields param with
  | [] => None
  | v :: vs =>
      match k with
      | GkString => Some (txt "z.enum([" ++ [Txt (joinComma (Quote <$> v :: vs) (lit ", "))] ++ txt "])")
      | GkInt | GkUint | GkFloat =>
          match vs with
          | [] => Some (txt "z.literal(" ++ [Txt v] ++ txt ")")
          | _ => Some (txt "z.union([" ++
                   [Txt (joinComma ((λ v, lit "z.literal(" ++ v ++ lit ")") <$> v :: vs) (lit ", "))] ++
                   txt "])")
          end
      | _ => None
      end
  end.

Definition call (f : string) (arg : gostr) : option gostr := Some (lit f ++ lit "(" ++ arg ++ lit ")").

Definition refine (method message param : gostr) : option gostr :=
  Some (lit "refine(v => v." ++ method ++ lit "(" ++ Quote param ++ lit "), { message: " ++
        Quote (message ++ param) ++ lit " })").

(** The empty string is None. *)
Definition zodConstraint (k : goKind) (rule : ValidateRule) : option gostr :=
  let tagIs (tag : string) := bool_decide (vr_tag rule = lit tag) in
  let param := vr_param rule in
  let lengthKind := bool_decide (k = GkString) || bool_decide (k = GkSlice) in
  if bool_decide (k = GkMap) || bool_decide (k = GkArray) then None
  else if lengthKind && tagIs "gt" then n ← Atoi param; call "min" (Itoa (wrapS64 (n + 1)))
  else if lengthKind && tagIs "lt" then n ← Atoi param; call "max" (Itoa (wrapS64 (n - 1)))
  else if tagIs "required" then if bool_decide (k = GkString) then Some (lit "min(1)") else None
  else if tagIs "min" then call "min" param
  else if tagIs "max" then call "max" param
  else if tagIs "len" then call "length" param
  else if tagIs "gte" then call "min" param
  else if tagIs "gt" then call "gt" param
  else if tagIs "lte" then call "max" param
  else if tagIs "lt" then call "lt" param
  else if tagIs "email" then Some (lit "email()")
  else if tagIs "url" then Some (lit "url()")
  else if tagIs "uuid" then Some (lit "uuid()")
  else if tagIs "alpha" then Some (lit "regex(/^[a-zA-Z]+$/)")
  else if tagIs "alphanum" then Some (lit "regex(/^[a-zA-Z0-9]+$/)")
  else if tagIs "contains" then refine (lit "includes") (lit "must contain ") param
  else if tagIs "startswith" then refine (lit "startsWith") (lit "must start with ") param
  else if tagIs "endswith" then refine (lit "endsWith") (lit "must end with ") param
  else None.

Section Known.
  (** The interfaces that get a schema. *)
  Context (knownSchemas : gset gostr).

Definition zodElemExpr (f : fieldData) : zexpr :=
  match fd_ElemEnum f with
  | Some e => txt "z." ++ zodEnumBase e
  | None =>
      match fd_ElemGoKind f with
      | GkString => txt "z.string()"
      | GkInt | GkUint => txt "z.number().int()"
      | GkFloat => txt "z.number()"
      | GkBool => txt "z.boolean()"
      | GkStruct =>
          if bool_decide (fd_ElemTypeName f ≠ []) && bool_decide (fd_ElemTypeName f ∈ knownSchemas) then
            if fd_ElemLazy f then [LazyRef (fd_ElemTypeName f)] else [Ref (fd_ElemTypeName f)]
          else txt "z.unknown()"
      | _ => txt "z.unknown()"
      end
  end.

Definition zodBaseType (k : goKind) (f : fieldData) : zexpr :=
  match k with
  | GkString => txt "string()"
  | GkInt | GkUint => txt "number().int()"
  | GkFloat => txt "number()"
  | GkBool => txt "boolean()"
  | GkSlice => txt "array(" ++ zodElemExpr f ++ txt ")"
  | GkArray =>
      if bool_decide (maxTSTupleLen < fd_ArrayLen f) then
        txt "array(" ++ zodElemExpr f ++ txt ").length(" ++ [Txt (Itoa (Z.of_nat (fd_ArrayLen f)))] ++ txt ")"
      else txt "tuple([" ++ joinComma (replicate (fd_ArrayLen f) (zodElemExpr f)) (txt ", ") ++ txt "])"
  | GkMap => txt "record(z.string(), " ++ zodElemExpr f ++ txt ")"
  | _ => txt "unknown()"
  end.

Definition hasTag (tag : string) (rules : list ValidateRule) : bool :=
  existsb (λ r, bool_decide (vr_tag r = lit tag)) rules.

(** The first oneof rule. *)
Definition oneofExpr (k : goKind) (rules : list ValidateRule) : option zexpr :=
  r ← find (λ r, bool_decide (vr_tag r = lit "oneof")) rules; zodOneof k (vr_param r).

(** The chain of calls after the base type. *)
Definition ruleChain (k : goKind) (rules : list ValidateRule) : list gostr :=
  let hasExplicitMin := hasTag "min" rules in
  omap (λ r,
    if bool_decide (vr_tag r = lit "omitempty") then None
    else if bool_decide (vr_tag r = lit "required") && bool_decide (k = GkString) && hasExplicitMin
    then None
    else zodConstraint k r) rules.

(** The empty string literal, or what the rules ask for. *)
Definition emptyOr (body : zexpr) : zexpr :=
  txt "z.union([z.literal(" ++ [Txt [34; 34]%Z] ++ txt "), " ++ body ++ txt "])".

Definition fieldToZod (f : fieldData) : zexpr :=
  let rules := ParseValidateTag (fd_ValidateTag f) in
  let sqlNull := negb (bool_decide (fd_SQLNullKind f = GkNone)) in
  let effectiveKind := if sqlNull then fd_SQLNullKind f else fd_GoType f in
  let isNullable := sqlNull || fd_Nullable f in
  let hasValidateOmitempty := hasTag "omitempty" rules in
  let nullable := if isNullable then txt ".nullable()" else [] in
  let finish (isString : bool) (body : zexpr) : zexpr :=
    (if hasValidateOmitempty && isString then emptyOr body else body) ++
    (if fd_Optional f then txt ".optional()" else []) in
  match fd_Enum f with
  | Some e => finish (en_isString e) (txt "z." ++ zodEnumBase e ++ nullable)
  | None =>
      let isString := bool_decide (effectiveKind = GkString) in
      match oneofExpr effectiveKind rules with
      | Some body => finish isString (body ++ nullable)
      | None =>
          finish isString
            (txt "z." ++ zodBaseType effectiveKind f ++
             (ruleChain effectiveKind rules ≫= λ c, [Txt (lit "." ++ c)]) ++ nullable)
      end
  end.

End Known.

(** ** Schemas *)

(** The interfaces with a validated field. *)
Definition validated (iface : interfaceData) : bool :=
  existsb (λ f, negb (bool_decide (fd_ValidateTag f = []))) (if_Fields iface).

Definition knownSchemas (ifaces : list interfaceData) : gset gostr :=
  list_to_set (if_Name <$> filter (λ i, validated i) ifaces).

(** The interfaces that get a schema. *)
Definition schemaIfaces (ifaces : list interfaceData) : list interfaceData :=
  filter (λ i, if_Name i ∈ knownSchemas ifaces) ifaces.

(** The element types of an interface's fields that have schemas, each once. *)
Definition schemaDeps (known : gset gostr) (fs : list fieldData) : list gostr :=
  foldl (λ ds f,
    let n := fd_ElemTypeName f in
    if bool_decide (n ≠ []) && bool_decide (n ∈ known) && negb (bool_decide (n ∈ ds))
    then ds ++ [n] else ds) [] fs.

Definition buildDeps (ifaces : list interfaceData) : gmap gostr (list gostr) :=
  foldl (λ m i, <[if_Name i := schemaDeps (knownSchemas ifaces) (if_Fields i)]> m) ∅
    (schemaIfaces ifaces).

Section Deps.
  Context (deps : gmap gostr (list gostr)).

(** [deps[n]]. *)
Definition depsOf (n : gostr) : list gostr := default [] (deps !! n).

(** The loop over one node's edges: found, or the new visited set and stack. *)
Fixpoint pushDeps (to : gostr) (ds : list gostr) (visited : gset gostr) (stack : list gostr)
    : option (gset gostr * list gostr) :=
  match ds with
  | [] => Some (visited, stack)
  | d :: ds =>
      if bool_decide (d = to) then None
      else if bool_decide (d ∈ visited) then pushDeps to ds visited stack
      else pushDeps to ds ({[d]} ∪ visited) (d :: stack)
  end.

(** The stack's top is its first element; None is out of fuel. *)
Fixpoint reachLoop (fuel : nat) (to : gostr) (visited : gset gostr) (stack : list gostr) : option bool :=
  match fuel with
  | O => None
  | S fuel =>
      match stack with
      | [] => Some false
      | n :: stack =>
          match pushDeps to (depsOf n) visited stack with
          | None => Some true
          | Some (visited, stack) => reachLoop fuel to visited stack
          end
      end
  end.

(** Everything an edge leads to. *)
Definition targets : gset gostr := list_to_set (map_to_list deps ≫= snd).

Definition reachFuel : nat := size targets + 2.

Definition depReaches (from to : gostr) : bool := default false (reachLoop reachFuel to ∅ [from]).

(** *** Topological sort *)

Inductive colour := Gray | Black.

#[export] Instance colour_eq_dec : EqDecision colour.
Proof. solve_decision. Defined.

(** The colours (white is no entry) and the output. *)
Record topo := Topo { tp_color : gmap gostr colour; tp_out : list zodSchemaData }.

Section Visit.
  Context (byName : gmap gostr zodSchemaData).

Fixpoint visit (fuel : nat) (name : gostr) (st : topo) : option topo :=
  match fuel with
  | O => None
  | S fuel =>
      match tp_color st !! name with
      | Some _ => Some st
      | None =>
          let st := Topo (<[name := Gray]> (tp_color st)) (tp_out st) in
          st ← foldl (λ ost dep,
                 st ← ost;
                 match byName !! dep with
                 | None => Some st
                 | Some _ =>
                     if bool_decide (tp_color st !! dep = Some Gray) then Some st
                     else visit fuel dep st
                 end) (Some st) (depsOf name);
          Some (Topo (<[name := Black]> (tp_color st))
                  (tp_out st ++ option_list (byName !! name)))
      end
  end.

End Visit.

Definition topoSortSchemas (schemas : list zodSchemaData) : list zodSchemaData :=
  let byName := foldl (λ m s, <[zs_Name s := s]> m) ∅ schemas in
  let r := foldl (λ ost s, st ← ost; visit byName (S (size byName)) (zs_Name s) st)
             (Some (Topo ∅ [])) schemas in
  match r with Some st => tp_out st | None => [] end.

End Deps.

Definition withLazy (f : fieldData) : fieldData :=
  FieldData (fd_Name f) (fd_Type f) (fd_Optional f) (fd_GoType f) (fd_ValidateTag f) (fd_SQLNullKind f)
    (fd_ElemGoKind f) (fd_ElemTypeName f) (fd_ArrayLen f) (fd_Enum f) (fd_ElemEnum f) (fd_Nullable f) true.

Definition buildSchema (known : gset gostr) (deps : gmap gostr (list gostr)) (iface : interfaceData)
    : zodSchemaData :=
  ZSchema (if_Name iface)
    ((λ f,
       let n := fd_ElemTypeName f in
       let f := if bool_decide (n ≠ []) && bool_decide (n ∈ known) && depReaches deps n (if_Name iface)
                then withLazy f else f in
       ZField (fd_Name f) (fieldToZod known f)) <$> if_Fields iface).

Definition buildZodSchemas (ifaces : list interfaceData) : list zodSchemaData :=
  let known := knownSchemas ifaces in
  let deps := buildDeps ifaces in
  topoSortSchemas deps (buildSchema known deps <$> schemaIfaces ifaces).

(** ** Facts *)

(** *** Reachability *)

Section Reach.
  Context (deps : gmap gostr (list gostr)).

Definition edge (a b : gostr) : Prop := b ∈ depsOf deps a.

Lemma edge_target a b : edge a b → b ∈ targets deps.
Proof.
  unfold edge, depsOf, targets. destruct (deps !! a) as [ds|] eqn:E; simpl; [|by intros ?%not_elem_of_nil].
  intros Hb. apply elem_of_list_to_set, list_elem_of_bind. exists (a, ds).
  split; [done|]. by apply elem_of_map_to_list.
Qed.

Lemma pushDeps_some to ds visited stack visited' stack' :
  pushDeps to ds visited stack = Some (visited', stack') →
  ∃ new, stack' = new ++ stack ∧ visited ⊆ visited' ∧ (∀ d, d ∈ ds → d ∈ visited') ∧
    size visited' = size visited + length new ∧ (∀ d, d ∈ ds → d ≠ to) ∧
    (∀ d, d ∈ new → d ∈ ds) ∧ (∀ d, d ∈ visited' → d ∈ visited ∨ d ∈ new).
Proof.
  revert visited stack. induction ds as [|d ds IH]; intros visited stack; simpl.
  - intros [= <- <-]. exists []. split_and!;
      first [done|by intros d ?%not_elem_of_nil|by intros d Hd; left|by rewrite Nat.add_0_r|idtac].
  - case_bool_decide as Hto; [done|]. case_bool_decide as Hv; intros H.
    + apply IH in H as (new & -> & Hsub & Hds & Hs & Hne & Hn & Hd). exists new.
      split_and!; [done|done| |done| |intros x Hx; right; by apply Hn|done].
      * intros x [->|Hx]%elem_of_cons; [by apply Hsub|by apply Hds].
      * intros x [->|Hx]%elem_of_cons; [done|by apply Hne].
    + apply IH in H as (new & -> & Hsub & Hds & Hs & Hne & Hn & Hd). exists (new ++ [d]).
      rewrite length_app. rewrite size_union, size_singleton in Hs
        by (intros x ->%elem_of_singleton; done). simpl.
      split_and!; [by rewrite <- app_assoc|by intros x Hx; apply Hsub, elem_of_union_r| |lia| | |].
      * intros x [->|Hx]%elem_of_cons; [by apply Hsub, elem_of_union_l, elem_of_singleton|by apply Hds].
      * intros x [->|Hx]%elem_of_cons; [done|by apply Hne].
      * intros x [Hx| ->%list_elem_of_singleton]%elem_of_app; [right; by apply Hn|by left].
      * intros x Hx. destruct (Hd x Hx) as [[->%elem_of_singleton|Hx']%elem_of_union|Hx'];
          [right|by left|right]; apply elem_of_app; [right; by left|by left].
Qed.

Lemma pushDeps_none to ds visited stack : pushDeps to ds visited stack = None → to ∈ ds.
Proof.
  revert visited stack. induction ds as [|d ds IH]; intros visited stack; simpl; [done|].
  case_bool_decide as Hto; [intros _; subst; by left|].
  case_bool_decide; intros Hp0; right; by eapply IH.
Qed.

(** Every node seen is still to be processed, or its edges are seen and do not lead to [to]. *)
Definition scanned (from to : gostr) (visited : gset gostr) (stack : list gostr) : Prop :=
  ∀ n, n = from ∨ n ∈ visited → n ∈ stack ∨ ∀ d, edge n d → d ∈ visited ∧ d ≠ to.

Lemma reachLoop_spec from to fuel visited stack :
  visited ⊆ targets deps → size (targets deps) - size visited + length stack < fuel →
  (∀ n, n ∈ stack → rtc edge from n) → scanned from to visited stack →
  ∃ b, reachLoop deps fuel to visited stack = Some b ∧ (b = true ↔ tc edge from to).
Proof.
  revert visited stack. induction fuel as [|fuel IH]; intros visited stack Hv Hf Hr Hs; [lia|].
  destruct stack as [|n stack]; simpl.
  - exists false. split; [done|]. split; [done|]. intros Ht. exfalso.
    assert (∀ a, tc edge a to → a = from ∨ a ∈ visited → False) as Hno; [|by apply (Hno from Ht); left].
    clear Ht. intros a Ha. induction Ha as [a b Hab|a b c Hab Hbc IHt]; intros Ha.
    + destruct (Hs a Ha) as [?%not_elem_of_nil|Hd]; [done|]. by destruct (Hd b Hab).
    + destruct (Hs a Ha) as [?%not_elem_of_nil|Hd]; [done|]. apply IHt; try done. right. by apply Hd.
  - destruct (pushDeps to (depsOf deps n) visited stack) as [[visited' stack']|] eqn:Hp.
    + apply pushDeps_some in Hp as (new & -> & Hmono & Hds & Hsz & Hne & Hnew & Hvis).
      assert (visited' ⊆ targets deps) as Hsub.
      { intros d Hd. destruct (Hvis d Hd) as [|Hd']; [by apply Hv|].
        by apply (edge_target n), Hnew. }
      apply IH; [done| | |].
      * apply subseteq_size in Hsub. rewrite length_app. simpl in Hf. lia.
      * intros m [Hm|Hm]%elem_of_app; [|apply Hr; by right].
        eapply rtc_r; [apply Hr; by left|]. by apply Hnew.
      * intros m Hm. destruct (decide (m = n)) as [->|Hmn].
        -- right. intros d Hd. split; [by apply Hds|by apply Hne].
        -- assert (m ∈ new ∨ (m = from ∨ m ∈ visited)) as [Hm'|Hm'].
           { destruct Hm as [->|Hm]; [by right; left|]. destruct (Hvis m Hm); [by right; right|by left]. }
           { left. apply elem_of_app. by left. }
           destruct (Hs m Hm') as [[->|Hin]%elem_of_cons|Hd]; [done|left; apply elem_of_app; by right|].
           right. intros d Hed. destruct (Hd d Hed) as [Hdv ?]. split; [|done]. by apply Hmono.
    + exists true. split; [done|]. split; [intros _|done]. apply pushDeps_none in Hp.
      eapply tc_rtc_l; [apply Hr; by left|]. by apply tc_once.
Qed.

Lemma depReaches_spec from to : depReaches deps from to = true ↔ tc edge from to.
Proof.
  unfold depReaches. destruct (reachLoop_spec from to (reachFuel deps) ∅ [from]) as (b & -> & Hb);
    [done|unfold reachFuel; cbn [length]; lia| |  |exact Hb].
  - by intros n ->%list_elem_of_singleton.
  - intros n [->|Hn]; [left; by left|by apply not_elem_of_empty in Hn].
Qed.

End Reach.

(** *** The order *)

Section Topo.
  Context (deps : gmap gostr (list gostr)) (byName : gmap gostr zodSchemaData).
  Context (Hnames : ∀ n s, byName !! n = Some s → zs_Name s = n).

(** What is output: the finished schemas, each after those it depends on unless the edge
    closes a cycle. *)
Definition sorted (out : list zodSchemaData) : Prop :=
  ∀ pre s post, out = pre ++ s :: post → ∀ d, edge deps (zs_Name s) d → is_Some (byName !! d) →
    d ∈ zs_Name <$> pre ∨ tc (edge deps) d (zs_Name s).

Record topoInv (st : topo) : Prop := TopoInv {
  ti_out : ∀ n, tp_color st !! n = Some Black ↔ n ∈ zs_Name <$> tp_out st;
  ti_nodup : NoDup (zs_Name <$> tp_out st);
  ti_from : ∀ s, s ∈ tp_out st → byName !! zs_Name s = Some s;
  ti_known : dom (tp_color st) ⊆ dom byName;
  ti_sorted : sorted (tp_out st);
}.

(** What a visit does to the state: more is finished, the grey nodes stay. *)
Record advances (st st' : topo) : Prop := Advances {
  ad_gray : ∀ n, tp_color st' !! n = Some Gray ↔ tp_color st !! n = Some Gray;
  ad_black : ∀ n, tp_color st !! n = Some Black → tp_color st' !! n = Some Black;
}.

#[export] Instance advances_preorder : PreOrder advances.
Proof.
  split; [by split|]. intros a b c [Hg Hb] [Hg' Hb']. split; [|auto].
  intros n. by rewrite Hg', Hg.
Qed.

Lemma advances_dom st st' : advances st st' → dom (tp_color st) ⊆ dom (tp_color st').
Proof.
  intros [Hg Hb] n [[|] Hn]%elem_of_dom; apply elem_of_dom; [apply Hg in Hn|apply Hb in Hn]; by eexists.
Qed.

Definition whites (st : topo) : nat := size (dom byName ∖ dom (tp_color st)).

Lemma whites_le st st' : dom (tp_color st) ⊆ dom (tp_color st') → whites st' ≤ whites st.
Proof.
  intros Hd. unfold whites. apply subseteq_size. intros n [Hn Hc]%elem_of_difference.
  apply elem_of_difference. split; [done|]. intros Hc'. by apply Hc, Hd.
Qed.

Lemma whites_lt name st :
  is_Some (byName !! name) → tp_color st !! name = None →
  whites (Topo (<[name := Gray]> (tp_color st)) (tp_out st)) < whites st.
Proof.
  intros Hn Hc. unfold whites. apply subset_size. split.
  - intros n [Hd Hw]%elem_of_difference. apply elem_of_difference. split; [done|]. intros Hw'.
    apply Hw. simpl. rewrite dom_insert. by apply elem_of_union_r.
  - intros Hsub. assert (name ∈ dom byName ∖ dom (tp_color st)) as Hin.
    { apply elem_of_difference. split; [by apply elem_of_dom|by apply not_elem_of_dom]. }
    apply Hsub, elem_of_difference in Hin as [_ Hin]. apply Hin. simpl. rewrite dom_insert.
    by apply elem_of_union_l, elem_of_singleton.
Qed.

Lemma gray_inv name st :
  is_Some (byName !! name) → tp_color st !! name = None → topoInv st →
  topoInv (Topo (<[name := Gray]> (tp_color st)) (tp_out st)).
Proof.
  intros Hn Hc [Ho Hd Hf Hk Hs]. split; simpl; [|done|done| |done].
  - intros n. rewrite <- Ho. destruct (decide (n = name)) as [->|Hne].
    + by rewrite lookup_insert_eq, Hc.
    + by rewrite lookup_insert_ne.
  - rewrite dom_insert. apply union_least; [|done]. intros n ->%elem_of_singleton. by apply elem_of_dom.
Qed.

Lemma sorted_snoc out s :
  sorted out →
  (∀ d, edge deps (zs_Name s) d → is_Some (byName !! d) →
     d ∈ zs_Name <$> out ∨ tc (edge deps) d (zs_Name s)) →
  sorted (out ++ [s]).
Proof.
  intros Hs Hnew pre x post Heq d Hd Hk. destruct post as [|y post _] using rev_ind.
  - apply app_inj_tail in Heq as [<- <-]. by apply Hnew.
  - rewrite app_comm_cons, app_assoc in Heq. apply app_inj_tail in Heq as [-> _].
    by apply (Hs pre x post).
Qed.

(** What one visit, and the loop over a node's edges, establish. *)
Definition visited_ok (name : gostr) (st st' : topo) : Prop :=
  topoInv st' ∧ advances st st' ∧ is_Some (tp_color st' !! name).

Definition visitDep (fuel : nat) (ost : option topo) (dep : gostr) : option topo :=
  st ← ost;
  match byName !! dep with
  | None => Some st
  | Some _ =>
      if bool_decide (tp_color st !! dep = Some Gray) then Some st else visit deps byName fuel dep st
  end.

Lemma visit_S fuel name st :
  visit deps byName (S fuel) name st =
  match tp_color st !! name with
  | Some _ => Some st
  | None =>
      st ← foldl (visitDep fuel) (Some (Topo (<[name := Gray]> (tp_color st)) (tp_out st))) (depsOf deps name);
      Some (Topo (<[name := Black]> (tp_color st)) (tp_out st ++ option_list (byName !! name)))
  end.
Proof. done. Qed.

Definition visitable (name : gostr) (st : topo) : Prop :=
  topoInv st ∧ is_Some (byName !! name) ∧ ∀ g, tp_color st !! g = Some Gray → tc (edge deps) g name.

Section Loop.
  Context (fuel : nat) (name : gostr).
  Context (IH : ∀ dep st, visitable dep st → whites st < fuel →
                  ∃ st', visit deps byName fuel dep st = Some st' ∧ visited_ok dep st st').

Lemma visit_loop ds st :
  (∀ d, d ∈ ds → edge deps name d) → topoInv st → whites st < fuel →
  (∀ g, tp_color st !! g = Some Gray → g = name ∨ tc (edge deps) g name) →
  ∃ st', foldl (visitDep fuel) (Some st) ds = Some st' ∧ topoInv st' ∧ advances st st' ∧
    ∀ d, d ∈ ds → is_Some (byName !! d) → is_Some (tp_color st' !! d).
Proof.
  intros Hds. revert st. induction ds as [|d ds IHds]; intros st Hi Hw Hg; cbn [foldl].
  - exists st. split_and!; [done|done|done|by intros d ?%not_elem_of_nil].
  - assert (∃ st1, visitDep fuel (Some st) d = Some st1 ∧ topoInv st1 ∧ advances st st1 ∧
              (is_Some (byName !! d) → is_Some (tp_color st1 !! d))) as (st1 & -> & Hi1 & Ha1 & Hd1).
    { simpl. destruct (byName !! d) as [s|] eqn:Hb.
      2:{ exists st. split_and!; [done|done|done|by intros [??]]. }
      case_bool_decide as Hgr; [exists st; split_and!; [done|done|done|by rewrite Hgr]|].
      destruct (IH d st) as (st1 & Hv & Hi1 & Ha1 & Hc1); [|done|].
      - split_and!; [done|by rewrite Hb|]. intros g Hgg. assert (edge deps name d) by (apply Hds; by left).
        destruct (Hg g Hgg) as [->|Ht]; [by apply tc_once|]. by eapply tc_r.
      - exists st1. by split_and!. }
    destruct (IHds) with (st := st1) as (st' & Hf & Hi' & Ha' & Hd').
    + intros x Hx. apply Hds. by right.
    + done.
    + eapply Nat.le_lt_trans; [by apply whites_le, (advances_dom st)|done].
    + intros g Hgg. apply Hg. by apply (ad_gray _ _ Ha1).
    + exists st'. split_and!; [done|done|by etrans|]. intros x [->|Hx]%elem_of_cons Hk; [|by apply Hd'].
      apply elem_of_dom, (advances_dom st1); [done|]. by apply elem_of_dom, Hd1.
Qed.

End Loop.

Lemma blacken name s st0 st :
  byName !! name = Some s → tp_color st0 !! name = None → topoInv st →
  advances (Topo (<[name := Gray]> (tp_color st0)) (tp_out st0)) st →
  (∀ d, edge deps name d → is_Some (byName !! d) → is_Some (tp_color st !! d)) →
  (∀ g, tp_color st0 !! g = Some Gray → tc (edge deps) g name) →
  visited_ok name st0 (Topo (<[name := Black]> (tp_color st)) (tp_out st ++ [s])).
Proof.
  intros Hs Hc0 [Ho Hnd Hf Hk Hso] [Hg Hb] Hdeps Hgray. simpl in Hg, Hb.
  pose proof (Hnames name s Hs) as Hn.
  assert (tp_color st !! name = Some Gray) as Hcg by (apply Hg; by rewrite lookup_insert_eq).
  split_and!; [split; simpl| |simpl; rewrite lookup_insert_eq; by eexists].
  - intros n. rewrite fmap_app. cbn [fmap list_fmap]. rewrite Hn, elem_of_app, list_elem_of_singleton.
    destruct (decide (n = name)) as [->|Hne]; [rewrite lookup_insert_eq; split; [by right|done]|].
    rewrite lookup_insert_ne, Ho by done. split; [by left|by intros [?|?]].
  - rewrite fmap_app. apply NoDup_app. split_and!; [done| |apply NoDup_singleton].
    intros n Hin Heq. apply list_elem_of_singleton in Heq. rewrite Hn in Heq. subst n.
    apply Ho in Hin. by rewrite Hcg in Hin.
  - intros x [Hx| ->%list_elem_of_singleton]%elem_of_app; [by apply Hf|by rewrite Hn].
  - rewrite dom_insert. apply union_least; [|done]. intros n ->%elem_of_singleton. apply elem_of_dom. by eexists.
  - apply sorted_snoc; [done|]. rewrite Hn. intros d Hd Hkn.
    destruct (Hdeps d Hd Hkn) as [[|] Hcd]; [|left; by apply Ho]. right. apply Hg in Hcd.
    destruct (decide (d = name)) as [->|Hne]; [by apply tc_once|].
    rewrite lookup_insert_ne in Hcd by done. by apply Hgray.
  - split; simpl; intros n; destruct (decide (n = name)) as [->|Hne].
    + by rewrite lookup_insert_eq, Hc0.
    + rewrite lookup_insert_ne, Hg, lookup_insert_ne by done. done.
    + by rewrite lookup_insert_eq.
    + rewrite lookup_insert_ne by done. intros Hbn. apply Hb. by rewrite lookup_insert_ne.
Qed.

Lemma visit_spec fuel name st :
  visitable name st → whites st < fuel →
  ∃ st', visit deps byName fuel name st = Some st' ∧ visited_ok name st st'.
Proof.
  revert name st. induction fuel as [|fuel IH]; intros name st (Hi & Hk & Hg) Hw; [lia|].
  rewrite visit_S. destruct (tp_color st !! name) as [c|] eqn:Hc.
  { exists st. split; [done|]. split_and!; [done|done|by rewrite Hc]. }
  pose proof (whites_lt name st Hk Hc) as Hlt.
  destruct (visit_loop fuel name IH (depsOf deps name)
              (Topo (<[name := Gray]> (tp_color st)) (tp_out st))) as (st' & -> & Hi' & Ha' & Hd').
  - done.
  - by apply gray_inv.
  - lia.
  - simpl. intros g. destruct (decide (g = name)) as [->|Hne]; [by left|].
    rewrite lookup_insert_ne by done. intros Hgg. right. by apply Hg.
  - destruct Hk as [s Hs]. simpl. rewrite Hs. eexists. split; [done|]. by eapply blacken.
Qed.

End Topo.

Section Insert.
  Context {X Y : Type} (key : X → gostr) (val : X → Y).

(** Maps filled by a loop over a list without repeated keys. *)
Lemma lookup_insertAll (xs : list X) (m : gmap gostr Y) n :
  NoDup (key <$> xs) →
  foldl (λ m x, <[key x := val x]> m) m xs !! n =
  match find (λ x, bool_decide (key x = n)) xs with Some x => Some (val x) | None => m !! n end.
Proof.
  revert m. induction xs as [|x xs IH]; intros m Hnd; [done|]. simpl.
  apply NoDup_cons in Hnd as [Hx Hnd]. rewrite IH by done. case_bool_decide as He; [subst n|].
  - destruct (find _ xs) as [y|] eqn:Hf; [|by rewrite lookup_insert_eq]. exfalso.
    apply find_some in Hf as [Hy Hk]. apply bool_decide_eq_true in Hk. apply Hx. rewrite <- Hk.
    apply list_elem_of_fmap_2. by apply list_elem_of_In.
  - destruct (find _ xs); [done|]. by rewrite lookup_insert_ne.
Qed.

Lemma find_key (xs : list X) x :
  NoDup (key <$> xs) → x ∈ xs → find (λ y, bool_decide (key y = key x)) xs = Some x.
Proof.
  induction xs as [|y xs IH]; intros Hnd Hx; [by apply not_elem_of_nil in Hx|]. simpl.
  apply NoDup_cons in Hnd as [Hy Hnd]. apply elem_of_cons in Hx as [->|Hx].
  - by rewrite bool_decide_true.
  - rewrite bool_decide_false; [by apply IH|]. intros He. apply Hy. rewrite He.
    by apply list_elem_of_fmap_2.
Qed.

Lemma lookup_insertAll_in (xs : list X) x :
  NoDup (key <$> xs) → x ∈ xs → foldl (λ m x, <[key x := val x]> m) (∅ : gmap gostr Y) xs !! key x = Some (val x).
Proof. intros Hnd Hx. by rewrite lookup_insertAll, find_key. Qed.

Lemma lookup_insertAll_inv (xs : list X) n v :
  NoDup (key <$> xs) → foldl (λ m x, <[key x := val x]> m) (∅ : gmap gostr Y) xs !! n = Some v →
  ∃ x, x ∈ xs ∧ key x = n ∧ val x = v.
Proof.
  intros Hnd. rewrite lookup_insertAll by done. destruct (find _ xs) as [x|] eqn:Hf.
  - intros [= <-]. apply find_some in Hf as [Hx Hk]. apply bool_decide_eq_true in Hk.
    exists x. split_and!; [by apply list_elem_of_In|done|done].
  - by rewrite lookup_empty.
Qed.

End Insert.

Section Sort.
  Context (deps : gmap gostr (list gostr)) (schemas : list zodSchemaData).
  Context (Hnd : NoDup (zs_Name <$> schemas)).

Definition table : gmap gostr zodSchemaData := foldl (λ m s, <[zs_Name s := s]> m) ∅ schemas.

Lemma table_name n s : table !! n = Some s → zs_Name s = n.
Proof. intros Hs. by apply (lookup_insertAll_inv zs_Name id) in Hs as (x & _ & Hk & <-). Qed.

Lemma table_in s : s ∈ schemas → table !! zs_Name s = Some s.
Proof. apply (lookup_insertAll_in zs_Name id); done. Qed.

Lemma table_from n s : table !! n = Some s → s ∈ schemas.
Proof. intros Hs. by apply (lookup_insertAll_inv zs_Name id) in Hs as (x & Hx & _ & <-). Qed.

Lemma sort_loop ss st :
  (∀ s, s ∈ ss → s ∈ schemas) → topoInv deps table st → (∀ n, tp_color st !! n ≠ Some Gray) →
  ∃ st', foldl (λ ost s, st ← ost; visit deps table (S (size table)) (zs_Name s) st) (Some st) ss = Some st' ∧
    topoInv deps table st' ∧ advances st st' ∧ ∀ s, s ∈ ss → is_Some (tp_color st' !! zs_Name s).
Proof.
  revert st. induction ss as [|s ss IH]; intros st Hss Hi Hg; cbn [foldl].
  - exists st. split_and!; [done|done|by split|by intros s ?%not_elem_of_nil].
  - assert (s ∈ schemas) as Hs by (apply Hss; by left).
    destruct (visit_spec deps table table_name (S (size table)) (zs_Name s) st) as (st1 & Hv & Hi1 & Ha1 & Hc1).
    + split_and!; [done|rewrite table_in by done; by eexists|]. intros g Hgg. by destruct (Hg g).
    + unfold whites. apply Nat.lt_succ_r. rewrite <- (size_dom table).
      apply subseteq_size. by intros n [? _]%elem_of_difference.
    + destruct (IH st1) as (st' & Hf & Hi' & Ha' & Hd').
      * intros x Hx. apply Hss. by right.
      * done.
      * intros n Hn. by apply (ad_gray _ _ Ha1), Hg in Hn.
      * exists st'. cbn [mbind option_bind]. rewrite Hv. split_and!; [done|done|by etrans|].
        intros x [->|Hx]%elem_of_cons; [|by apply Hd'].
        apply elem_of_dom, (advances_dom st1); [done|]. by apply elem_of_dom.
Qed.

(** Every schema comes out once, in dependency order. *)
Lemma topoSortSchemas_spec :
  topoSortSchemas deps schemas ≡ₚ schemas ∧ sorted deps table (topoSortSchemas deps schemas).
Proof.
  destruct (sort_loop schemas (Topo ∅ [])) as (st & Hf & Hi & Ha & Hd).
  - done.
  - split; simpl; [|constructor|by intros s ?%not_elem_of_nil|by rewrite dom_empty|].
    + intros n. rewrite lookup_empty. split; [done|by intros ?%not_elem_of_nil].
    + intros pre s post Hl. by destruct pre.
  - intros n. simpl. by rewrite lookup_empty.
  - unfold topoSortSchemas. fold table. rewrite Hf. split; [|apply Hi].
    apply NoDup_Permutation.
    + eapply NoDup_fmap_1, Hi.
    + by eapply NoDup_fmap_1.
    + intros s. split.
      * intros Hs. apply (ti_from _ _ _ Hi) in Hs. by eapply table_from.
      * intros Hs. destruct (Hd s Hs) as [[|] Hc].
        { apply (ad_gray _ _ Ha) in Hc. simpl in Hc. by rewrite lookup_empty in Hc. }
        apply (ti_out _ _ _ Hi), list_elem_of_fmap in Hc as (x & Hn & Hx).
        pose proof (ti_from _ _ _ Hi _ Hx) as Hx'. rewrite <- Hn, table_in in Hx' by done.
        injection Hx' as ->. done.
Qed.

End Sort.

(** *** References *)

(** The references an expression for a field may hold. *)
Definition tokenOk (known : gset gostr) (f : fieldData) (t : token) : Prop :=
  match t with
  | Txt _ => True
  | Ref n => n = fd_ElemTypeName f ∧ n ≠ [] ∧ n ∈ known ∧ fd_ElemLazy f = false
  | LazyRef n => n = fd_ElemTypeName f ∧ n ≠ [] ∧ n ∈ known
  end.
Definition refsOk (known : gset gostr) (f : fieldData) (e : zexpr) : Prop := Forall (tokenOk known f) e.

Section Refs.
  Context (known : gset gostr) (f : fieldData).

Lemma refs_text (e : zexpr) : (∀ t, t ∈ e → ∃ s, t = Txt s) → refsOk known f e.
Proof. intros He. apply Forall_forall. intros t Ht. by destruct (He t Ht) as [s ->]. Qed.

Lemma refs_txt s : refsOk known f (txt s).
Proof. by repeat constructor. Qed.

Lemma refs_one s : refsOk known f [Txt s].
Proof. by repeat constructor. Qed.

Lemma refs_nil : refsOk known f [].
Proof. constructor. Qed.

Lemma refs_app a b : refsOk known f a → refsOk known f b → refsOk known f (a ++ b).
Proof. intros Ha Hb. by apply Forall_app. Qed.

Lemma refs_join es c :
  (∀ e, e ∈ es → refsOk known f e) → refsOk known f c → refsOk known f (joinComma es c).
Proof.
  intros He Hc. induction es as [|e [|e' es] IH]; [constructor|apply He; by left|].
  cbn [joinComma]. apply refs_app; [apply He; by left|]. apply refs_app; [done|]. apply IH.
  intros x Hx. apply He. by right.
Qed.

#[local] Hint Resolve refs_txt refs_one refs_nil refs_app : core.

Lemma refs_enum e : refsOk known f (zodEnumBase e).
Proof. unfold zodEnumBase. destruct (en_isString e); auto. Qed.

Lemma refs_oneof k param e : zodOneof k param = Some e → refsOk known f e.
Proof.
  unfold zodOneof. destruct (Fields param) as [|v vs]; [done|].
  destruct k, vs; intros Heq; try discriminate Heq; injection Heq as <-;
    repeat constructor.
Qed.

Lemma refs_elem : refsOk known f (zodElemExpr known f).
Proof.
  unfold zodElemExpr. destruct (fd_ElemEnum f) as [e|]; [apply refs_app; [done|apply refs_enum]|].
  destruct (fd_ElemGoKind f); auto.
  destruct (bool_decide _) eqn:H1, (bool_decide (_ ∈ _)) eqn:H2; simpl; auto.
  apply bool_decide_eq_true in H1, H2.
  destruct (fd_ElemLazy f) eqn:Hl; (constructor; [|constructor]); by split_and!.
Qed.

Lemma refs_base k : refsOk known f (zodBaseType known k f).
Proof.
  pose proof refs_elem as Hel. unfold zodBaseType. destruct k; auto 6. case_bool_decide; [auto 8|].
  apply refs_app; [done|]. apply refs_app; [|done]. apply refs_join; [|done].
  by intros e [-> _]%elem_of_replicate.
Qed.

Lemma refs_chain (cs : list gostr) : refsOk known f (cs ≫= λ c, [Txt (lit "." ++ c)]).
Proof.
  apply refs_text. intros t (c & Ht & _)%list_elem_of_bind. apply list_elem_of_singleton in Ht.
  by eexists.
Qed.

Lemma refs_finish (b o : bool) e :
  refsOk known f e →
  refsOk known f ((if b then emptyOr e else e) ++ (if o then txt ".optional()" else [])).
Proof.
  intros He. apply refs_app; [|by destruct o]. destruct b; [|done]. unfold emptyOr. auto 6.
Qed.

Lemma refs_field : refsOk known f (fieldToZod known f).
Proof.
  assert (∀ b : bool, refsOk known f (if b then txt ".nullable()" else [])) as Hnull
    by (intros []; auto).
  pose proof refs_enum as Hen. pose proof refs_base as Hb. pose proof refs_chain as Hc.
  unfold fieldToZod. destruct (fd_Enum f) as [e|]; [apply refs_finish; auto|].
  destruct (oneofExpr _ _) as [e|] eqn:Ho; apply refs_finish; [|auto 8].
  apply refs_app; [|done]. unfold oneofExpr in Ho. destruct (find _ _) as [r|]; [|done].
  by apply refs_oneof in Ho.
Qed.

End Refs.

Lemma eager_inv known f e n : refsOk known f e → n ∈ eager e → tokenOk known f (Ref n).
Proof.
  intros He (t & Ht & Hn)%list_elem_of_omap. destruct t; try done. injection Hn as ->.
  by eapply Forall_forall in He.
Qed.

Lemma deferred_inv known f e n : refsOk known f e → n ∈ deferred e → tokenOk known f (LazyRef n).
Proof.
  intros He (t & Ht & Hn)%list_elem_of_omap. destruct t; try done. injection Hn as ->.
  by eapply Forall_forall in He.
Qed.

Lemma schemaDeps_in known fs f :
  f ∈ fs → fd_ElemTypeName f ≠ [] → fd_ElemTypeName f ∈ known →
  fd_ElemTypeName f ∈ schemaDeps known fs.
Proof.
  unfold schemaDeps. intros Hf Hne Hk.
  assert (∀ ds, (f ∈ fs ∨ fd_ElemTypeName f ∈ ds) → fd_ElemTypeName f ∈ foldl (λ ds f,
    let n := fd_ElemTypeName f in
    if bool_decide (n ≠ []) && bool_decide (n ∈ known) && negb (bool_decide (n ∈ ds))
    then ds ++ [n] else ds) ds fs) as Hgen; [|apply Hgen; by left].
  clear Hf. induction fs as [|g fs IH]; intros ds Hin; simpl.
  - by destruct Hin as [?%not_elem_of_nil|].
  - apply IH. destruct Hin as [[<-|Hin]%elem_of_cons|Hin]; [right|by left|right].
    + rewrite !bool_decide_true by done. simpl. case_bool_decide; [done|]. simpl.
      apply elem_of_app. right. by left.
    + destruct (_ && _); [|done]. apply elem_of_app. by left.
Qed.

Lemma known_in ifaces n : n ∈ knownSchemas ifaces → n ∈ if_Name <$> schemaIfaces ifaces.
Proof.
  intros Hn. pose proof Hn as Hk. apply elem_of_list_to_set, list_elem_of_fmap in Hn as (i & -> & Hi).
  apply list_elem_of_filter in Hi as [_ Hi]. apply list_elem_of_fmap_2, list_elem_of_filter. done.
Qed.

(** C34: the schema module can be evaluated from top to bottom. Each interface with a
    validated field is declared exactly once; an expression that reads another schema's
    constant at once comes after its declaration, also when the interfaces refer to each
    other in cycles; and what is read later, in a [z.lazy], is declared somewhere. *)
Theorem zod_module_loads (ifaces : list interfaceData) :
  NoDup (if_Name <$> schemaIfaces ifaces) →
  let out := buildZodSchemas ifaces in
  zs_Name <$> out ≡ₚ if_Name <$> schemaIfaces ifaces ∧
  ∀ pre s post, out = pre ++ s :: post → ∀ fld n, fld ∈ zs_Fields s →
    (n ∈ eager (zf_ZodType fld) → n ∈ zs_Name <$> pre) ∧
    (n ∈ deferred (zf_ZodType fld) → n ∈ zs_Name <$> out).
Proof.
  intros Hnd. unfold buildZodSchemas. set (deps := buildDeps ifaces). set (known := knownSchemas ifaces).
  set (ss := buildSchema known deps <$> schemaIfaces ifaces).
  assert (zs_Name <$> ss = if_Name <$> schemaIfaces ifaces) as Hss
    by (unfold ss; by rewrite <- list_fmap_compose).
  destruct (topoSortSchemas_spec deps ss) as [Hp Hso]; [by rewrite Hss|]. set (out := topoSortSchemas deps ss) in *.
  assert (zs_Name <$> out ≡ₚ if_Name <$> schemaIfaces ifaces) as Hpn by (by rewrite Hp, Hss).
  assert (∀ n, n ∈ known → is_Some (table ss !! n)) as Hknown.
  { intros n Hn. apply known_in in Hn. rewrite <- Hss in Hn. apply list_elem_of_fmap in Hn as (s & -> & Hs).
    rewrite table_in; [by eexists|by rewrite Hss|done]. }
  split; [done|]. intros pre s post Hout fld n Hfld.
  assert (s ∈ ss) as Hs by (rewrite <- Hp, Hout; apply elem_of_app; right; by left).
  apply list_elem_of_fmap in Hs as (iface & -> & Hif).
  apply list_elem_of_fmap in Hfld as (f & -> & Hf). cbn [zf_ZodType].
  set (f' := if bool_decide _ && _ && _ then withLazy f else f). pose proof (refs_field known f') as Href.
  assert (fd_ElemTypeName f' = fd_ElemTypeName f) as Hn' by (unfold f'; by destruct (_ && _ && _)).
  split; intros Hn.
  - apply (eager_inv known f') in Hn as (-> & Hne & Hk & Hl); [|done]. rewrite Hn' in *.
    assert (edge deps (if_Name iface) (fd_ElemTypeName f)) as Hedge.
    { unfold edge, depsOf, deps, buildDeps.
      rewrite (lookup_insertAll_in if_Name (λ i, schemaDeps known (if_Fields i))) by done.
      by apply schemaDeps_in. }
    destruct (Hso pre _ post Hout (fd_ElemTypeName f)) as [|Hcyc]; [done|by apply Hknown|done|].
    exfalso. apply depReaches_spec in Hcyc. simpl in Hcyc. unfold f' in Hl.
    rewrite Hcyc, !bool_decide_true in Hl by done. done.
  - apply (deferred_inv known f') in Hn as (-> & Hne & Hk); [|done]. rewrite Hpn.
    rewrite Hn' in *. by apply known_in.
Qed.

End Code.

(** ** Concrete runs *)

Definition plainField (name : string) (k elem : goKind) (elemName tag : string) : fieldData :=
  FieldData (lit name) [TsTxt []] false k (lit tag) GkNone elem (lit elemName) 0 None None false false.

(** Mutually recursive interfaces, and one that only refers to them. *)
Definition exIfaces : list interfaceData :=
  [InterfaceData (lit "Order") [plainField "lines" GkSlice GkStruct "Line" "required,min=1"];
   InterfaceData (lit "Line") [plainField "sku" GkString GkNone "" "required,min=3";
                               plainField "parts" GkSlice GkStruct "Part" ""];
   InterfaceData (lit "Part") [plainField "of" GkMap GkStruct "Line" "required"];
   InterfaceData (lit "Plain") [plainField "x" GkInt GkNone "" ""]].

Lemma exIfaces_render :
  (λ s, (zs_Name s, (λ f, render (zf_ZodType f)) <$> zs_Fields s)) <$> buildZodSchemas (λ _, true) exIfaces =
  [(lit "Part", [lit "z.record(z.string(), z.lazy(() => LineSchema))"]);
   (lit "Line", [lit "z.string().min(3)"; lit "z.array(z.lazy(() => PartSchema))"]);
   (lit "Order", [lit "z.array(LineSchema).min(1)"])].
Proof. vm_compute. reflexivity. Qed.

(** An int enum with one value becomes a union of one literal, although [zodOneof] emits a
    bare literal there because z.union wants two members. *)
Lemma one_value_enum_is_a_union e :
  en_isString e = false → (en_values e).*2 = [lit "7"] →
  render (zodEnumBase (λ _, true) e) = lit "union([z.literal(7)])" ∧
  render <$> zodOneof (λ _, true) GkInt (lit "7") = Some (lit "z.literal(7)").
Proof. intros Hs Hv. unfold zodEnumBase. rewrite Hs, Hv. done. Qed.

Lemma zod_module_loads_witness :
  let out := buildZodSchemas (λ _, true) exIfaces in
  NoDup (if_Name <$> schemaIfaces exIfaces) ∧
  zs_Name <$> out ≡ₚ if_Name <$> schemaIfaces exIfaces ∧
  ∀ pre s post, out = pre ++ s :: post → ∀ fld n, fld ∈ zs_Fields s →
    (n ∈ eager (zf_ZodType fld) → n ∈ zs_Name <$> pre) ∧
    (n ∈ deferred (zf_ZodType fld) → n ∈ zs_Name <$> out).
Proof.
  assert (NoDup (if_Name <$> schemaIfaces exIfaces)) as Hnd
    by (apply (bool_decide_unpack _); vm_compute; exact I).
  split; [exact Hnd|]. exact (zod_module_loads (λ _, true) exIfaces Hnd).
Defined.

End Zod.
