(* ===== verification/GoSyntax.v ===== *)
(** * GoSyntax: reading Go source (the files that docs.go writes)

    What a Go compiler makes of the text of a generated file: [scan] is the scanner, with
    the semicolons Go inserts at the end of a line; [parseFile] reads a file that consists of
    a package clause, an import and a function with one call, whose argument is a composite
    literal. The grammar is the relation [spells]; the parser accepts every spelling, in
    fuel that the number of tokens bounds. [unquote] undoes [strconv.Quote]. *)

From S2P Require Import Prelude Runes GoNames Zod.
From stdpp Require Import prelude gmap strings list.

Module GoSyntax.
Import Runes GoNames.
Import Zod(Quote, quoteRune, hexDigit, hexDigits).

(** ** Tokens *)

Inductive token :=
  | Ident (s : gostr) | Str (s : gostr) | Semi
  | LBrace | RBrace | LParen | RParen | LBracket | RBracket | Comma | Colon | Dot | Star | Amp.

Definition punct (r : rune) : option token :=
  if bool_decide (r = 123)%Z then Some LBrace else if bool_decide (r = 125)%Z then Some RBrace
  else if bool_decide (r = 40)%Z then Some LParen else if bool_decide (r = 41)%Z then Some RParen
  else if bool_decide (r = 91)%Z then Some LBracket else if bool_decide (r = 93)%Z then Some RBracket
  else if bool_decide (r = 44)%Z then Some Comma else if bool_decide (r = 58)%Z then Some Colon
  else if bool_decide (r = 46)%Z then Some Dot else if bool_decide (r = 42)%Z then Some Star
  else if bool_decide (r = 38)%Z then Some Amp else None.

(** The tokens after which a line end is a semicolon. *)
Definition endsLine (t : token) : bool :=
  match t with
  | Ident s => negb (IsKeyword s)
  | Str _ | RBrace | RParen | RBracket => true
  | _ => false
  end.

(** ** String literals *)

Definition newline : rune := 10%Z.
Definition quote : rune := 34%Z.
Definition backslash : rune := 92%Z.

Definition validRune (r : rune) : bool :=
  bool_decide (0 ≤ r < 1114112)%Z && negb (bool_decide (55296 ≤ r < 57344)%Z).

Definition hexVal (r : rune) : option Z :=
  if bool_decide (48 ≤ r ≤ 57)%Z then Some (r - 48)%Z
  else if bool_decide (97 ≤ r ≤ 102)%Z then Some (r - 87)%Z
  else if bool_decide (65 ≤ r ≤ 70)%Z then Some (r - 55)%Z else None.

(** Inside a literal: nothing, a backslash, or a hexadecimal escape of which [more + 1]
    digits are missing; [byte] tells [\x] from [\u] and [\U]. *)
Inductive escape := Raw | Backslash | Hex (byte : bool) (more : nat) (acc : Z).

Definition simpleEscape (r : rune) : option rune :=
  if bool_decide (r = 97)%Z then Some 7%Z else if bool_decide (r = 98)%Z then Some 8%Z
  else if bool_decide (r = 102)%Z then Some 12%Z else if bool_decide (r = 110)%Z then Some 10%Z
  else if bool_decide (r = 114)%Z then Some 13%Z else if bool_decide (r = 116)%Z then Some 9%Z
  else if bool_decide (r = 118)%Z then Some 11%Z
  else if bool_decide (r = quote) || bool_decide (r = backslash) then Some r else None.

(** The text between the quotes of a literal, by its value. A byte above 127 is no code
    point; octal escapes are left out. *)
Fixpoint unquote (m : escape) (s : gostr) : option gostr :=
  match s with
  | [] => match m with Raw => Some [] | _ => None end
  | r :: s =>
      match m with
      | Raw => if bool_decide (r = backslash) then unquote Backslash s else cons r <$> unquote Raw s
      | Backslash =>
          if bool_decide (r = 120)%Z then unquote (Hex true 1 0) s
          else if bool_decide (r = 117)%Z then unquote (Hex false 3 0) s
          else if bool_decide (r = 85)%Z then unquote (Hex false 7 0) s
          else c ← simpleEscape r; cons c <$> unquote Raw s
      | Hex byte more acc =>
          d ← hexVal r;
          let acc := (16 * acc + d)%Z in
          match more with
          | S more => unquote (Hex byte more acc) s
          | 0 => if (if byte then bool_decide (acc < 128)%Z else validRune acc)
                 then cons acc <$> unquote Raw s else None
          end
      end
  end.

(** ** The scanner *)

Inductive mode :=
  | Plain | InIdent (acc : gostr) | InStr (acc : gostr) (escaped : bool) | Slash | InComment | Bad.

(** The mode, whether a line end is a semicolon now, and the tokens, the last one first. *)
Record scanner := Scanner { sc_mode : mode; sc_semi : bool; sc_out : list token }.

Definition emit (t : token) (out : list token) : scanner := Scanner Plain (endsLine t) (t :: out).
Definition bad : scanner := Scanner Bad false [].

Section Scan.
  Context (isLetter isDigit : rune → bool).

(** go/scanner's isLetter and isDigit. *)
Definition identStart (r : rune) : bool :=
  if bool_decide (r < 128)%Z
  then bool_decide (97 ≤ r ≤ 122)%Z || bool_decide (65 ≤ r ≤ 90)%Z || bool_decide (r = 95)%Z
  else isLetter r.
Definition identPart (r : rune) : bool :=
  identStart r || (if bool_decide (r < 128)%Z then bool_decide (48 ≤ r ≤ 57)%Z else isDigit r).

Definition plain (semi : bool) (out : list token) (r : rune) : scanner :=
  if identStart r then Scanner (InIdent [r]) semi out
  else if bool_decide (r = quote) then Scanner (InStr [] false) semi out
  else if bool_decide (r = newline) then Scanner Plain false (if semi then Semi :: out else out)
  else if bool_decide (r = 32)%Z || bool_decide (r = 9)%Z then Scanner Plain semi out
  else if bool_decide (r = 47)%Z then Scanner Slash semi out
  else match punct r with Some t => emit t out | None => bad end.

Definition scanStep (σ : scanner) (r : rune) : scanner :=
  match sc_mode σ with
  | Plain => plain (sc_semi σ) (sc_out σ) r
  | InIdent acc =>
      if identPart r then Scanner (InIdent (r :: acc)) (sc_semi σ) (sc_out σ)
      else let t := Ident (reverse acc) in plain (endsLine t) (t :: sc_out σ) r
  | InStr acc escaped =>
      if bool_decide (r = newline) then bad
      else if escaped then Scanner (InStr (r :: acc) false) (sc_semi σ) (sc_out σ)
      else if bool_decide (r = quote)
      then match unquote Raw (reverse acc) with Some s => emit (Str s) (sc_out σ) | None => bad end
      else Scanner (InStr (r :: acc) (bool_decide (r = backslash))) (sc_semi σ) (sc_out σ)
  | Slash => if bool_decide (r = 47)%Z then Scanner InComment (sc_semi σ) (sc_out σ) else bad
  | InComment => if bool_decide (r = newline) then plain (sc_semi σ) (sc_out σ) r else σ
  | Bad => bad
  end.

(** The end of the file ends its last line. *)
Definition scan (text : gostr) : option (list token) :=
  let σ := foldl scanStep (Scanner Plain false []) (text ++ [newline]) in
  match sc_mode σ with Plain => Some (reverse (sc_out σ)) | _ => None end.

End Scan.

(** ** Types and expressions *)

Inductive goTyp := TName (pkg : option gostr) (name : gostr) | TSliceOf (elem : goTyp) | TMapOf (key elem : goTyp).

(** A composite literal may leave its type out; an entry may have a key. *)
Inductive goExpr :=
  | EStr (s : gostr) | EName (s : gostr) | EAddr (e : goExpr)
  | EComp (ty : option goTyp) (entries : list (option goExpr * goExpr)).

Definition kwMap : gostr := lit "map".

Fixpoint typTokens (t : goTyp) : list token :=
  match t with
  | TName None n => [Ident n]
  | TName (Some p) n => [Ident p; Dot; Ident n]
  | TSliceOf e => LBracket :: RBracket :: typTokens e
  | TMapOf k e => Ident kwMap :: LBracket :: typTokens k ++ RBracket :: typTokens e
  end.

Fixpoint parseTyp (fuel : nat) (ts : list token) : option (goTyp * list token) :=
  match fuel with
  | 0 => None
  | S fuel =>
      match ts with
      | LBracket :: RBracket :: ts => '(e, ts) ← parseTyp fuel ts; Some (TSliceOf e, ts)
      | Ident m :: LBracket :: ts =>
          if bool_decide (m = kwMap)
          then '(k, ts) ← parseTyp fuel ts;
               match ts with
               | RBracket :: ts => '(e, ts) ← parseTyp fuel ts; Some (TMapOf k e, ts)
               | _ => None
               end
          else None
      | Ident p :: Dot :: Ident n :: ts => Some (TName (Some p) n, ts)
      | Ident n :: ts => Some (TName None n, ts)
      | _ => None
      end
  end.

#[export] Instance goTyp_eq_dec : EqDecision goTyp.
Proof. solve_decision. Defined.

(** An expression that starts like this is a composite literal with its type. *)
Definition startsTyp (ts : list token) : bool :=
  match ts with
  | LBracket :: _ | Ident _ :: LBracket :: _ | Ident _ :: Dot :: _ | Ident _ :: LBrace :: _ => true
  | _ => false
  end.

(** [key: value], or a value alone. *)
Definition parseEntry (expr : list token → option (goExpr * list token)) (ts : list token) :
    option ((option goExpr * goExpr) * list token) :=
  '(k, ts) ← expr ts;
  match ts with
  | Colon :: ts => '(v, ts) ← expr ts; Some ((Some k, v), ts)
  | _ => Some ((None, k), ts)
  end.

Fixpoint parseExpr (fuel : nat) (ts : list token) : option (goExpr * list token) :=
  match fuel with
  | 0 => None
  | S fuel =>
      if startsTyp ts
      then '(t, ts) ← parseTyp fuel ts;
           match ts with
           | LBrace :: ts => '(es, ts) ← parseEntries fuel ts; Some (EComp (Some t) es, ts)
           | _ => None
           end
      else
        match ts with
        | Str s :: ts => Some (EStr s, ts)
        | Ident n :: ts => Some (EName n, ts)
        | Amp :: ts => '(e, ts) ← parseExpr fuel ts; Some (EAddr e, ts)
        | LBrace :: ts => '(es, ts) ← parseEntries fuel ts; Some (EComp None es, ts)
        | _ => None
        end
  end
with parseEntries (fuel : nat) (ts : list token) : option (list (option goExpr * goExpr) * list token) :=
  match fuel with
  | 0 => None
  | S fuel =>
      match ts with
      | RBrace :: ts => Some ([], ts)
      | _ =>
          '(x, ts) ← parseEntry (parseExpr fuel) ts;
          match ts with
          | Comma :: ts => '(xs, ts) ← parseEntries fuel ts; Some (x :: xs, ts)
          | RBrace :: ts => Some ([x], ts)
          | _ => None
          end
      end
  end.

(** ** Files *)

(** [package gf_package; import gf_import; func gf_func(gf_param *gf_pkg.gf_type)
    { gf_param.gf_method(gf_arg) }]. *)
Record goFile := GoFile {
  gf_package : gostr; gf_import : gostr; gf_func : gostr; gf_param : gostr; gf_pkg : gostr;
  gf_type : gostr; gf_method : gostr; gf_arg : goExpr;
}.

Definition parseFile (ts : list token) : option goFile :=
  match ts with
  | Ident kw1 :: Ident pkg :: Semi :: Ident kw2 :: Str imp :: Semi ::
    Ident kw3 :: Ident f :: LParen :: Ident r :: Star :: Ident q :: Dot :: Ident ty :: RParen :: LBrace ::
    Ident r' :: Dot :: Ident m :: LParen :: ts =>
      if bool_decide (kw1 = lit "package") && bool_decide (kw2 = lit "import") && bool_decide (kw3 = lit "func") &&
         bool_decide (r = r') && negb (existsb IsKeyword [pkg; f; r; q; ty; m]) && negb (bool_decide (pkg = lit "_"))
      then '(e, ts) ← parseExpr (length ts) ts;
           match ts with
           | [RParen; Semi; RBrace; Semi] => Some (GoFile pkg imp f r q ty m e)
           | _ => None
           end
      else None
  | _ => None
  end.

(** ** The grammar *)

Inductive spells : goExpr → list token → Prop :=
  | spells_str s : spells (EStr s) [Str s]
  | spells_name n : spells (EName n) [Ident n]
  | spells_addr e ts : spells e ts → spells (EAddr e) (Amp :: ts)
  | spells_comp t es ts : spellsEntries es ts → spells (EComp (Some t) es) (typTokens t ++ LBrace :: ts ++ [RBrace])
  | spells_elided es ts : spellsEntries es ts → spells (EComp None es) (LBrace :: ts ++ [RBrace])
with spellsEntry : option goExpr * goExpr → list token → Prop :=
  | entry_value v ts : spells v ts → spellsEntry (None, v) ts
  | entry_key k v ks vs : spells k ks → spells v vs → spellsEntry (Some k, v) (ks ++ Colon :: vs)
with spellsEntries : list (option goExpr * goExpr) → list token → Prop :=
  | entries_nil : spellsEntries [] []
  | entries_last x ts : spellsEntry x ts → spellsEntries [x] ts
  | entries_cons x xs ts tss : spellsEntry x ts → spellsEntries xs tss → spellsEntries (x :: xs) (ts ++ Comma :: tss).

Scheme spells_ind' := Induction for spells Sort Prop
  with spellsEntry_ind' := Induction for spellsEntry Sort Prop
  with spellsEntries_ind' := Induction for spellsEntries Sort Prop.
Combined Scheme spells_mutind from spells_ind', spellsEntry_ind', spellsEntries_ind'.

(** ** The parser accepts the grammar *)

Definition endsTyp (rest : list token) : Prop := match rest with LBrace :: _ | RBracket :: _ => True | _ => False end.
Definition stops (rest : list token) : Prop :=
  match rest with Comma :: _ | Colon :: _ | RBrace :: _ | RParen :: _ => True | _ => False end.
Definition endsEntry (rest : list token) : Prop := match rest with Comma :: _ | RBrace :: _ => True | _ => False end.

Lemma parseTyp_ok t fuel rest :
  length (typTokens t) ≤ fuel → endsTyp rest → parseTyp fuel (typTokens t ++ rest) = Some (t, rest).
Proof.
  revert fuel rest. induction t as [[p|] n|e IH|k IHk e IHe]; intros [|fuel] rest Hf Hr; simpl in *; try lia.
  - done.
  - by destruct rest as [|[] rest].
  - by rewrite IH by (done || lia).
  - rewrite length_app in Hf. simpl in Hf. rewrite <-(assoc_L (++)). simpl.
    rewrite IHk by (done || lia). simpl. by rewrite IHe by (done || lia).
Qed.

Lemma startsTyp_ok t rest : startsTyp (typTokens t ++ LBrace :: rest) = true.
Proof. by destruct t as [[p|] n|e|k e]. Qed.

Lemma typTokens_pos t : 0 < length (typTokens t).
Proof. destruct t as [[p|] n|e|k e]; simpl; lia. Qed.

(** No expression and no entry is empty, or starts with a closing brace. *)
Definition opens (ts : list token) : Prop := match ts with [] | RBrace :: _ => False | _ => True end.

Lemma opens_app ts rest : opens ts → opens (ts ++ rest).
Proof. by destruct ts. Qed.

Lemma opens_pos ts : opens ts → 0 < length ts.
Proof. destruct ts; simpl; [done|lia]. Qed.

Lemma typTokens_opens t : opens (typTokens t).
Proof. by destruct t as [[p|] n|e|k e]. Qed.

Lemma spells_opens e ts : spells e ts → opens ts.
Proof. destruct 1; try done. apply opens_app, typTokens_opens. Qed.

Lemma spellsEntry_opens x ts : spellsEntry x ts → opens ts.
Proof. destruct 1; [|apply opens_app]; by eapply spells_opens. Qed.

Lemma parseEntries_step fuel ts :
  opens ts →
  parseEntries (S fuel) ts =
    ('(x, ts) ← parseEntry (parseExpr fuel) ts;
     match ts with
     | Comma :: ts => '(xs, ts) ← parseEntries fuel ts; Some (x :: xs, ts)
     | RBrace :: ts => Some ([x], ts)
     | _ => None
     end).
Proof. by destruct ts as [|[] ts]. Qed.

Lemma parse_spells :
  (∀ e ts, spells e ts → ∀ fuel rest, length ts ≤ fuel → stops rest → parseExpr fuel (ts ++ rest) = Some (e, rest)) ∧
  (∀ x ts, spellsEntry x ts → ∀ fuel rest, length ts ≤ fuel → endsEntry rest →
     parseEntry (parseExpr fuel) (ts ++ rest) = Some (x, rest)) ∧
  (∀ es ts, spellsEntries es ts → ∀ fuel rest, length ts < fuel → parseEntries fuel (ts ++ RBrace :: rest) = Some (es, rest)).
Proof.
  apply spells_mutind.
  - intros s [|fuel] rest Hf Hr; simpl in *; [lia|done].
  - intros n [|fuel] rest Hf Hr; simpl in *; [lia|]. by destruct rest as [|[] rest].
  - intros e ts _ IH [|fuel] rest Hf Hr; simpl in *; [lia|]. by rewrite IH by (done || lia).
  - intros t es ts _ IH [|fuel] rest Hf Hr; rewrite length_app in Hf; simpl in Hf; rewrite length_app in Hf;
      simpl in Hf; [lia|]. pose proof (typTokens_pos t). rewrite <-(assoc_L (++)). simpl. rewrite startsTyp_ok.
    rewrite parseTyp_ok by (done || lia). simpl. rewrite <-(assoc_L (++)). simpl. by rewrite IH by lia.
  - intros es ts _ IH [|fuel] rest Hf Hr; simpl in *; rewrite length_app in Hf; simpl in Hf; [lia|].
    rewrite <-(assoc_L (++)). simpl. by rewrite IH by lia.
  - intros v ts _ IH fuel rest Hf Hr. unfold parseEntry. rewrite IH; [|done|by destruct rest as [|[] rest]].
    simpl. by destruct rest as [|[] rest].
  - intros k v ks vs _ IHk _ IHv fuel rest Hf Hr. rewrite length_app in Hf. simpl in Hf. unfold parseEntry.
    rewrite <-(assoc_L (++)). simpl. rewrite IHk by (done || lia). simpl.
    rewrite IHv; [done|lia|by destruct rest as [|[] rest]].
  - intros [|fuel] rest Hf; simpl in *; [lia|done].
  - intros x ts Hx IH [|fuel] rest Hf; [lia|]. rewrite parseEntries_step by (by eapply opens_app, spellsEntry_opens).
    by rewrite IH by (done || lia).
  - intros x xs ts tss Hx IHx _ IH [|fuel] rest Hf; [lia|]. rewrite length_app in Hf. simpl in Hf.
    rewrite <-(assoc_L (++)). rewrite parseEntries_step by (by eapply opens_app, spellsEntry_opens).
    rewrite IHx by (done || lia). simpl. pose proof (opens_pos _ (spellsEntry_opens _ _ Hx)). by rewrite IH by lia.
Qed.

(** ** Quoting *)

Lemma hexVal_digit d : (0 ≤ d < 16)%Z → hexVal (hexDigit d) = Some d.
Proof.
  intros Hd. unfold hexVal, hexDigit. destruct (decide (d < 10)%Z).
  - rewrite (bool_decide_true (d < 10)%Z), bool_decide_true by lia. f_equal. lia.
  - rewrite (bool_decide_false (d < 10)%Z), bool_decide_false, bool_decide_true by lia. f_equal. lia.
Qed.

Lemma unquote_hex byte k j acc r s :
  unquote (Hex byte (k + j) acc) (hexDigits k r ++ s) = unquote (Hex byte j (acc * 16 ^ Z.of_nat k + r `mod` 16 ^ Z.of_nat k)) s.
Proof.
  revert j acc r s. induction k as [|k IH]; intros j acc r s.
  { simpl. f_equal. f_equal. rewrite Z.mod_1_r. lia. }
  rewrite Nat2Z.inj_succ, Z.pow_succ_r by lia. cbn [hexDigits]. rewrite <-(assoc_L (++)).
  replace (S k + j) with (k + S j) by lia. rewrite IH. cbn [app unquote].
  rewrite hexVal_digit by (apply Z.mod_pos_bound; lia). simpl. f_equal. f_equal.
  rewrite Z.rem_mul_r by (try apply Z.pow_nonzero; lia). lia.
Qed.

Lemma unquote_hexDigits (byte : bool) k r s :
  (0 ≤ r < 16 ^ Z.of_nat (S k))%Z → (if byte then bool_decide (r < 128)%Z else validRune r) = true →
  unquote (Hex byte k 0) (hexDigits (S k) r ++ s) = cons r <$> unquote Raw s.
Proof.
  intros Hr Hv. cbn [hexDigits]. rewrite <-(assoc_L (++)). pose proof (unquote_hex byte k 0 0 (r / 16) ([hexDigit (r `mod` 16)] ++ s)) as E.
  rewrite Nat.add_0_r in E. rewrite E. cbn [app unquote].
  rewrite hexVal_digit by (apply Z.mod_pos_bound; lia). cbn [mbind option_bind]. cbv zeta.
  rewrite Nat2Z.inj_succ, Z.pow_succ_r in Hr by lia.
  assert (0 ≤ r / 16 < 16 ^ Z.of_nat k)%Z by (split; [apply Z.div_pos; lia|apply Z.div_lt_upper_bound; lia]).
  rewrite (Z.mod_small (r / 16)) by done.
  replace (16 * (0 * 16 ^ Z.of_nat k + r / 16) + r `mod` 16)%Z with r; [by rewrite Hv|].
  rewrite Z.mul_0_l, Z.add_0_l. apply Z.div_mod. lia.
Qed.

Section Quoting.
  Context (isPrint : rune → bool) (control : ∀ r, (0 ≤ r < 32)%Z → isPrint r = false).

Lemma unquote_quoteRune r s :
  validRune r = true → unquote Raw (quoteRune isPrint r ++ s) = cons r <$> unquote Raw s.
Proof.
  intros Hv. pose proof Hv as [Hr%bool_decide_eq_true _]%andb_true_iff. unfold quoteRune.
  repeat match goal with
  | |- context [ if bool_decide (r = ?c) || bool_decide (r = ?d) then _ else _ ] =>
      destruct (decide (r = c)) as [->|?]; [done|]; destruct (decide (r = d)) as [->|?]; [done|];
      rewrite (bool_decide_false (r = c)), (bool_decide_false (r = d)) by done; cbn [orb]
  | |- context [ if bool_decide (r = ?c) then _ else _ ] =>
      destruct (decide (r = c)) as [->|?]; [done|]; rewrite (bool_decide_false (r = c)) by done
  | |- context [ if isPrint r then _ else _ ] =>
      destruct (isPrint r); [simpl; by rewrite bool_decide_false by done|]
  end.
  destruct (bool_decide (r < 32)%Z || bool_decide (r = 127)%Z) eqn:E1.
  { apply orb_true_iff in E1. rewrite !bool_decide_eq_true in E1. rewrite <-(assoc_L (++)). cbn [app unquote].
    rewrite bool_decide_true by done. simpl.
    apply (unquote_hexDigits true 1); [change (16 ^ Z.of_nat 2)%Z with 256%Z; lia|apply bool_decide_eq_true; lia]. }
  destruct (bool_decide (r < 65536)%Z) eqn:E2; [apply bool_decide_eq_true in E2|apply bool_decide_eq_false in E2];
    rewrite <-(assoc_L (++)); cbn [app unquote]; simpl.
  - apply (unquote_hexDigits false 3); [change (16 ^ Z.of_nat 4)%Z with 65536%Z; lia|done].
  - apply (unquote_hexDigits false 7); [change (16 ^ Z.of_nat 8)%Z with 4294967296%Z; lia|done].
Qed.

Lemma unquote_quoted s : Forall (λ r, validRune r = true) s → unquote Raw (s ≫= quoteRune isPrint) = Some s.
Proof.
  induction 1 as [|r s Hr _ IH]; [done|]. change ((r :: s) ≫= quoteRune isPrint) with (quoteRune isPrint r ++ (s ≫= quoteRune isPrint)).
  by rewrite unquote_quoteRune, IH.
Qed.

(** *** Scanning *)

Context (isLetter isDigit : rune → bool).
Abbreviation step := (scanStep isLetter isDigit).
Abbreviation run σ s := (foldl step σ s).

(** Scanning [s] yields [ts]; before it, and after it, a line end is a semicolon or not. *)
Definition scans (semi : bool) (s : gostr) (semi' : bool) (ts : list token) : Prop :=
  ∀ out, run (Scanner Plain semi out) s = Scanner Plain semi' (reverse ts ++ out).

Lemma scans_app b1 s1 b2 ts1 b3 s2 ts2 : scans b1 s1 b2 ts1 → scans b2 s2 b3 ts2 → scans b1 (s1 ++ s2) b3 (ts1 ++ ts2).
Proof. intros H1 H2 out. rewrite foldl_app, H1, H2, reverse_app. by rewrite (assoc_L (++)). Qed.

Lemma scans_nil b : scans b [] b [].
Proof. by intros out. Qed.

Lemma scans_concat {A : Type} (f : A → gostr) (g : A → list token) (l : list A) :
  (∀ x, x ∈ l → scans false (f x) false (g x)) → scans false (l ≫= f) false (l ≫= g).
Proof.
  induction l as [|x l IH]; intros Hl; [apply scans_nil|]. simpl. eapply scans_app; [apply Hl; left|].
  apply IH. intros. apply Hl. by right.
Qed.

Definition ordinary (r : rune) : Prop := r ≠ newline ∧ r ≠ quote ∧ r ≠ backslash.

Lemma run_ordinary semi out acc s :
  Forall ordinary s → run (Scanner (InStr acc false) semi out) s = Scanner (InStr (reverse s ++ acc) false) semi out.
Proof.
  intros Hs. revert acc. induction Hs as [|r s (Hn & Hq & Hb) _ IH]; intros acc; [done|]. simpl.
  unfold scanStep at 2. simpl. rewrite !bool_decide_false by done. rewrite IH. by rewrite reverse_cons, <-(assoc_L (++)).
Qed.

Lemma hexDigits_ordinary k r : Forall ordinary (hexDigits k r).
Proof.
  revert r. induction k as [|k IH]; intros r; [constructor|]. cbn [hexDigits]. apply Forall_app. split; [apply IH|].
  constructor; [|constructor]. pose proof (Z.mod_pos_bound r 16). unfold ordinary, hexDigit, newline, quote, backslash.
  case_bool_decide; lia.
Qed.

(** A backslash, what it escapes, and ordinary characters. *)
Lemma run_escaped semi out acc c s :
  c ≠ newline → Forall ordinary s →
  run (Scanner (InStr acc false) semi out) (backslash :: c :: s) =
  Scanner (InStr (reverse (backslash :: c :: s) ++ acc) false) semi out.
Proof.
  intros Hc Hs. cbn [foldl]. unfold scanStep at 2 3. simpl. rewrite (bool_decide_false (c = newline)) by done.
  rewrite run_ordinary by done. by rewrite !reverse_cons, <-!(assoc_L (++)).
Qed.

Lemma run_quoteRune semi out acc r :
  validRune r = true →
  run (Scanner (InStr acc false) semi out) (quoteRune isPrint r) =
  Scanner (InStr (reverse (quoteRune isPrint r) ++ acc) false) semi out.
Proof.
  intros Hv. pose proof Hv as [Hr%bool_decide_eq_true _]%andb_true_iff. unfold quoteRune.
  destruct (bool_decide (r = 34)%Z || bool_decide (r = 92)%Z) eqn:E1.
  { apply orb_true_iff in E1. rewrite !bool_decide_eq_true in E1. apply run_escaped; [unfold newline; lia|constructor]. }
  apply orb_false_iff in E1. rewrite !bool_decide_eq_false in E1. destruct (isPrint r) eqn:Ep.
  { apply run_ordinary. constructor; [|constructor]. unfold ordinary, newline, quote, backslash. split_and!; [|lia|lia].
    intros ->. by rewrite control in Ep. }
  repeat (match goal with |- context [ if ?b then _ else _ ] => destruct b end);
    (apply run_escaped; [done|first [apply hexDigits_ordinary|apply Forall_nil_2]]).
Qed.

Lemma scans_Quote b s : Forall (λ r, validRune r = true) s → scans b (Quote isPrint s) true [Str s].
Proof.
  intros Hs out. unfold Quote. rewrite !foldl_app.
  change (run (Scanner Plain b out) [34%Z]) with (Scanner (InStr [] false) b out).
  assert (E : ∀ acc, run (Scanner (InStr acc false) b out) (s ≫= quoteRune isPrint) =
                     Scanner (InStr (reverse (s ≫= quoteRune isPrint) ++ acc) false) b out).
  { induction Hs as [|r s Hr _ IH]; intros acc; [done|].
    change ((r :: s) ≫= quoteRune isPrint) with (quoteRune isPrint r ++ (s ≫= quoteRune isPrint)).
    rewrite foldl_app, run_quoteRune, IH by done. by rewrite reverse_app, (assoc_L (++)). }
  rewrite E. simpl. unfold scanStep. simpl. rewrite app_nil_r, reverse_involutive, unquote_quoted by done. done.
Qed.

(** An identifier, up to the character that ends it. *)
Lemma run_ident acc semi out s :
  forallb (identPart isLetter isDigit) s = true →
  run (Scanner (InIdent acc) semi out) s = Scanner (InIdent (reverse s ++ acc)) semi out.
Proof.
  revert acc. induction s as [|r s IH]; intros acc; [done|]. simpl. intros [Hr Hs]%andb_true_iff.
  unfold scanStep at 2. simpl. rewrite Hr, IH by done. by rewrite reverse_cons, <-(assoc_L (++)).
Qed.

End Quoting.

End GoSyntax.
