(* ===== verification/SourceDocs.v ===== *)
(** * SourceDocs: documentation read from source, and baked into the build
      (docs.go, generate.go)

    Godoc comments and parameter names come from the handlers' source: [extractSourceMeta]
    walks the declarations that go/parser found. A deployed binary has no source, so
    [GenerateSourceDocsGo] prints a Go file whose function hands the same data to
    [SetSourceDocs]. The theorem is that a program built with the file has, wherever it runs,
    the documentation it was generated from: the printed text is read back with GoSyntax.v,
    and the composite literal in it evaluated. *)

From S2P Require Import Prelude Runes Naming Schema GoNames Zod GoSyntax.
From stdpp Require Import prelude gmap strings list fin_maps fin_sets sorting.

Module SourceDocs.
Import Runes GoNames GoSyntax.
Import Schema(sortNames).
Import Naming(underscore, asciiDigit).
Import Zod(Quote, joinComma).

(** ** Declarations (go/ast)

    The text of a comment group that is not there is empty. *)
Record fieldAst := FieldAst { fd_Names : list gostr; fd_Doc : gostr; fd_Comment : gostr }.

Inductive typeAst := AIdent (name : gostr) | AStar (x : typeAst) | AStruct (fields : option (list fieldAst)) | AOther.

Inductive specAst := TypeSpec (name doc : gostr) (type : typeAst) | OtherSpec.

(** Receiver types; the names of each parameter field. *)
Record funcDecl := FuncDecl {
  fn_Recv : option (list typeAst);
  fn_Name : gostr;
  fn_Params : option (list (list gostr));
  fn_Doc : gostr;
}.

Record genDecl := GenDecl { gd_type : bool; gd_Doc : gostr; gd_Specs : list specAst }.

Inductive declAst := DFunc (fn : funcDecl) | DGen (gd : genDecl) | DBad.

(** ** Metadata *)

Record handlerMeta := HandlerMeta { hm_ParamNames : list gostr; hm_Doc : gostr }.
Record typeMeta := TypeMeta { tm_Doc : gostr; tm_FieldDocs : gmap gostr gostr }.
Record sourceMeta := SourceMeta {
  sm_Handlers : gmap gostr (gmap gostr handlerMeta);
  sm_Types : gmap gostr typeMeta;
}.

Definition paramNames (m : option sourceMeta) (structName methodName : gostr) : list gostr :=
  match m with
  | None => []
  | Some m => match sm_Handlers m !! structName with
              | Some methods => default [] (hm_ParamNames <$> methods !! methodName)
              | None => []
              end
  end.

Definition handlerDoc (m : option sourceMeta) (structName methodName : gostr) : gostr :=
  match m with
  | None => []
  | Some m => match sm_Handlers m !! structName with
              | Some methods => default [] (hm_Doc <$> methods !! methodName)
              | None => []
              end
  end.

Definition typeDoc (m : option sourceMeta) (typeName : gostr) : gostr :=
  match m with None => [] | Some m => default [] (tm_Doc <$> sm_Types m !! typeName) end.

Definition fieldDoc (m : option sourceMeta) (typeName fieldName : gostr) : gostr :=
  match m with
  | None => []
  | Some m => match sm_Types m !! typeName with
              | Some t => default [] (tm_FieldDocs t !! fieldName)
              | None => []
              end
  end.

(** ** Extraction *)

(** The names of the parameters after the first one; the first field is skipped whole. *)
Definition namesOf (params : option (list (list gostr))) : list gostr :=
  drop 1 (default [] params) ≫= λ names, match names with [] => [lit "arg"] | _ => names end.

Definition collectHandlerMeta (fn : funcDecl) (m : sourceMeta) : sourceMeta :=
  match fn_Recv fn with
  | Some (recv :: _) =>
      match (match recv with AStar x => x | t => t end) with
      | AIdent structName =>
          let methods := default ∅ (sm_Handlers m !! structName) in
          let h := HandlerMeta (namesOf (fn_Params fn)) (trimSpace (fn_Doc fn)) in
          SourceMeta (<[structName := <[fn_Name fn := h]> methods]> (sm_Handlers m)) (sm_Types m)
      | _ => m
      end
  | _ => m
  end.

Definition collectField (docs : gmap gostr gostr) (f : fieldAst) : gmap gostr gostr :=
  let doc := match trimSpace (fd_Doc f) with [] => trimSpace (fd_Comment f) | doc => doc end in
  if bool_decide (doc = []) then docs else foldl (λ docs name, <[name := doc]> docs) docs (fd_Names f).

Definition collectSpec (gd : genDecl) (m : sourceMeta) (spec : specAst) : sourceMeta :=
  match spec with
  | TypeSpec name doc (AStruct fields) =>
      let doc := match doc with [] => gd_Doc gd | doc => doc end in
      let fieldDocs := foldl collectField ∅ (default [] fields) in
      SourceMeta (sm_Handlers m) (<[name := TypeMeta (trimSpace doc) fieldDocs]> (sm_Types m))
  | _ => m
  end.

Definition collectTypeMeta (gd : genDecl) (m : sourceMeta) : sourceMeta := foldl (collectSpec gd) m (gd_Specs gd).

Definition collectDecl (m : sourceMeta) (d : declAst) : sourceMeta :=
  match d with
  | DFunc fn => collectHandlerMeta fn m
  | DGen gd => if gd_type gd then collectTypeMeta gd m else m
  | DBad => m
  end.

(** [sortedKeys]. *)
Definition sortedKeys {A : Type} (m : gmap gostr A) : list gostr := sortNames (elements (dom m)).

(** The entries of a map in the order of their keys. *)
Definition sortedEntries {A : Type} (m : gmap gostr A) : list (gostr * A) :=
  omap (λ k, pair k <$> m !! k) (sortedKeys m).

Section Registry.
  (** [parser.ParseDir]: packages of files of declarations, None for an error. *)
  Context (ParseDir : gostr → option (gmap gostr (gmap gostr (list declAst)))).
  Context (isPrint : rune → bool).

Definition extractDir (m : sourceMeta) (dir : gostr) : sourceMeta :=
  match ParseDir dir with
  | None => m
  | Some pkgs => foldl (λ m pkg, foldl (λ m file, foldl collectDecl m file.2) m (sortedEntries pkg.2)) m (sortedEntries pkgs)
  end.

Definition extractSourceMeta (dirs : gset gostr) : sourceMeta :=
  foldl extractDir (SourceMeta ∅ ∅) (sortNames (elements dirs)).

(** The directories of the groups, None where there is no handler: [SourceDir]. *)
Definition sourceDirs (groups : list gostr) : gset gostr := list_to_set (filter (λ dir, dir ≠ []) groups).

(** ** Baked documentation *)

Record HandlerDoc := HandlerDoc_ { hd_ParamNames : list gostr; hd_Doc : gostr }.
Record TypeDoc := TypeDoc_ { td_Doc : gostr; td_FieldDocs : gmap gostr gostr }.
Record SourceDocs := SourceDocs_ {
  sd_Handlers : gmap gostr (gmap gostr HandlerDoc);
  sd_Types : gmap gostr TypeDoc;
}.

(** What the registry keeps: [r.sourceDocs]. *)
Definition handlerMetaOf (h : HandlerDoc) : handlerMeta := HandlerMeta (hd_ParamNames h) (hd_Doc h).
Definition typeMetaOf (t : TypeDoc) : typeMeta := TypeMeta (td_Doc t) (td_FieldDocs t).

Definition SetSourceDocs (docs : option SourceDocs) : option sourceMeta :=
  match docs with
  | None => None
  | Some docs => Some (SourceMeta (fmap (M := gmap gostr) handlerMetaOf <$> sd_Handlers docs) (typeMetaOf <$> sd_Types docs))
  end.

Definition resolveSourceMeta (sourceDocs : option sourceMeta) (groups : list gostr) : sourceMeta :=
  match sourceDocs with Some m => m | None => extractSourceMeta (sourceDirs groups) end.

(** ** The generated file *)

Definition eol : gostr := [10%Z].
Definition tab (n : nat) : gostr := replicate n 9%Z.
Definition quoted (s : gostr) : gostr := Quote isPrint s.

Definition goStringSlice (ss : list gostr) : gostr :=
  match ss with
  | [] => lit "nil"
  | _ => lit "[]string{" ++ joinComma (quoted <$> ss) (lit ", ") ++ lit "}"
  end.

Definition methodLine (h : gostr * handlerMeta) : gostr :=
  tab 4 ++ quoted h.1 ++ lit ": {ParamNames: " ++ goStringSlice (hm_ParamNames h.2) ++ lit ", Doc: " ++
  quoted (hm_Doc h.2) ++ lit "}," ++ eol.

Definition structLines (s : gostr * gmap gostr handlerMeta) : gostr :=
  tab 3 ++ quoted s.1 ++ lit ": {" ++ eol ++ (sortedEntries s.2 ≫= methodLine) ++ tab 3 ++ lit "}," ++ eol.

Definition fieldDocLine (f : gostr * gostr) : gostr := tab 4 ++ quoted f.1 ++ lit ": " ++ quoted f.2 ++ lit "," ++ eol.

Definition typeLines (t : gostr * typeMeta) : gostr :=
  tab 3 ++ quoted t.1 ++ lit ": {Doc: " ++ quoted (tm_Doc t.2) ++ lit ", FieldDocs: map[string]string{" ++ eol ++
  (sortedEntries (tm_FieldDocs t.2) ≫= fieldDocLine) ++ tab 3 ++ lit "}}," ++ eol.

Definition aprotPath : gostr := lit "github.com/marrasen/aprot".

Definition preamble : gostr := lit "// Code generated by aprot. DO NOT EDIT." ++ eol ++ eol.
Definition packageClause (goPackage : gostr) : gostr := lit "package " ++ goPackage ++ eol.
Definition fileOpening : gostr :=
  eol ++ lit "import " ++ [quote] ++ aprotPath ++ [quote] ++ eol ++ eol ++
  lit "// RegisterSourceDocs seeds r with handler and type documentation extracted" ++ eol ++
  lit "// from source at generation time, so OpenAPI descriptions, REST parameter" ++ eol ++
  lit "// names and MCP tool descriptions work in deployed binaries without source." ++ eol ++
  lit "func RegisterSourceDocs(r *aprot.Registry) {" ++ eol ++
  tab 1 ++ lit "r.SetSourceDocs(&aprot.SourceDocs{" ++ eol.

Definition handlersOpen : gostr := tab 2 ++ lit "Handlers: map[string]map[string]aprot.HandlerDoc{" ++ eol.
Definition typesOpen : gostr := tab 2 ++ lit "}," ++ eol ++ tab 2 ++ lit "Types: map[string]aprot.TypeDoc{" ++ eol.
Definition typesClose : gostr := tab 2 ++ lit "}," ++ eol.

Definition body (m : sourceMeta) : gostr :=
  handlersOpen ++ (sortedEntries (sm_Handlers m) ≫= structLines) ++
  typesOpen ++ (sortedEntries (sm_Types m) ≫= typeLines) ++ typesClose.

Definition trailer : gostr := tab 1 ++ lit "})" ++ eol ++ lit "}" ++ eol.

(** None: there is no package name. *)
Definition GenerateSourceDocsGo (groups : list gostr) (goPackage : gostr) : option gostr :=
  if bool_decide (goPackage = []) then None
  else Some (preamble ++ packageClause goPackage ++ fileOpening ++ body (extractSourceMeta (sourceDirs groups)) ++ trailer).

End Registry.

(** ** Running the generated file

    The part of Go's semantics it takes: a composite literal with its type, the fields of a
    struct by name, a map whose constant keys differ. *)

Definition evalStr (e : goExpr) : option gostr := match e with EStr s => Some s | _ => None end.

Definition evalSlice (e : goExpr) : option (list gostr) :=
  match e with
  | EName n => if bool_decide (n = lit "nil") then Some [] else None
  | EComp (Some (TSliceOf (TName None t))) es =>
      if bool_decide (t = lit "string")
      then mapM (λ x, match x with (None, e) => evalStr e | _ => None end) es else None
  | _ => None
  end.

Definition entries : Type := list (option goExpr * goExpr).

(** The keys of a struct literal: field names. *)
Definition fieldKeys (es : entries) : option (list (gostr * goExpr)) :=
  mapM (λ x, match x with (Some (EName n), e) => Some (n, e) | _ => None end) es.

(** The fields [names], all of them given, each once. *)
Definition evalFields (names : list gostr) (es : entries) : option (list goExpr) :=
  fs ← fieldKeys es;
  if bool_decide (fs.*1 = names) then Some fs.*2 else None.

Definition mapKeys (es : entries) : option (list (gostr * goExpr)) :=
  mapM (λ x, match x with (Some (EStr k), e) => Some (k, e) | _ => None end) es.

(** A map literal; two equal constant keys do not compile. *)
Definition evalMap {A : Type} (eval : goExpr → option A) (es : entries) : option (gmap gostr A) :=
  kvs ← mapKeys es;
  if bool_decide (NoDup kvs.*1) then list_to_map <$> mapM (λ kv, pair kv.1 <$> eval kv.2) kvs else None.

Definition tyString : goTyp := TName None (lit "string").
Definition tyAprot (name : string) : goTyp := TName (Some (lit "aprot")) (lit name).

Definition withType (t : goTyp) (e : goExpr) : option entries :=
  match e with EComp (Some t') es => if bool_decide (t = t') then Some es else None | _ => None end.
Definition elided (e : goExpr) : option entries := match e with EComp None es => Some es | _ => None end.

Definition evalHandlerDoc (e : goExpr) : option HandlerDoc :=
  es ← elided e;
  fs ← evalFields [lit "ParamNames"; lit "Doc"] es;
  match fs with
  | [ps; doc] => ps ← evalSlice ps; doc ← evalStr doc; Some (HandlerDoc_ ps doc)
  | _ => None
  end.

Definition evalMethods (e : goExpr) : option (gmap gostr HandlerDoc) := elided e ≫= evalMap evalHandlerDoc.

Definition evalTypeDoc (e : goExpr) : option TypeDoc :=
  es ← elided e;
  fs ← evalFields [lit "Doc"; lit "FieldDocs"] es;
  match fs with
  | [doc; docs] =>
      doc ← evalStr doc; docs ← withType (TMapOf tyString tyString) docs ≫= evalMap evalStr; Some (TypeDoc_ doc docs)
  | _ => None
  end.

Definition tyHandlers : goTyp := TMapOf tyString (TMapOf tyString (tyAprot "HandlerDoc")).
Definition tyTypes : goTyp := TMapOf tyString (tyAprot "TypeDoc").

Definition evalDocs (e : goExpr) : option SourceDocs :=
  match e with
  | EAddr e =>
      es ← withType (tyAprot "SourceDocs") e;
      fs ← evalFields [lit "Handlers"; lit "Types"] es;
      match fs with
      | [hs; ts] =>
          hs ← withType tyHandlers hs ≫= evalMap evalMethods;
          ts ← withType tyTypes ts ≫= evalMap evalTypeDoc;
          Some (SourceDocs_ hs ts)
      | _ => None
      end
  | _ => None
  end.

(** What compiling the text in its package, and calling [RegisterSourceDocs], passes to
    [SetSourceDocs]. *)
Definition runFile (isLetter isDigit : rune → bool) (text : gostr) : option (gostr * SourceDocs) :=
  ts ← scan isLetter isDigit text;
  f ← parseFile ts;
  if bool_decide (gf_import f = aprotPath) && bool_decide (gf_pkg f = lit "aprot") &&
     bool_decide (gf_type f = lit "Registry") && bool_decide (gf_func f = lit "RegisterSourceDocs") &&
     bool_decide (gf_method f = lit "SetSourceDocs")
  then docs ← evalDocs (gf_arg f); Some (gf_package f, docs) else None.

(** ** What the file spells *)

Section Spelled.

Definition nameKey (s : string) (e : goExpr) : option goExpr * goExpr := (Some (EName (lit s)), e).
Definition strKey (s : gostr) (e : goExpr) : option goExpr * goExpr := (Some (EStr s), e).

Definition sliceExpr (ss : list gostr) : goExpr :=
  match ss with
  | [] => EName (lit "nil")
  | _ => EComp (Some (TSliceOf tyString)) ((λ s, (None, EStr s)) <$> ss)
  end.
Definition handlerExpr (h : handlerMeta) : goExpr :=
  EComp None [nameKey "ParamNames" (sliceExpr (hm_ParamNames h)); nameKey "Doc" (EStr (hm_Doc h))].
Definition methodsExpr (ms : gmap gostr handlerMeta) : goExpr :=
  EComp None ((λ h, strKey h.1 (handlerExpr h.2)) <$> sortedEntries ms).
Definition typeDocExpr (t : typeMeta) : goExpr :=
  EComp None [nameKey "Doc" (EStr (tm_Doc t));
              nameKey "FieldDocs" (EComp (Some (TMapOf tyString tyString))
                ((λ f, strKey f.1 (EStr f.2)) <$> sortedEntries (tm_FieldDocs t)))].
Definition docsExpr (m : sourceMeta) : goExpr :=
  EAddr (EComp (Some (tyAprot "SourceDocs"))
    [nameKey "Handlers" (EComp (Some tyHandlers) ((λ s, strKey s.1 (methodsExpr s.2)) <$> sortedEntries (sm_Handlers m)));
     nameKey "Types" (EComp (Some tyTypes) ((λ t, strKey t.1 (typeDocExpr t.2)) <$> sortedEntries (sm_Types m)))]).

(** *** Its value *)

Lemma sortedKeys_perm {A : Type} (m : gmap gostr A) : sortedKeys m ≡ₚ elements (dom m).
Proof. apply merge_sort_Permutation. Qed.

Lemma sortedEntries_keys {A : Type} (m : gmap gostr A) : (sortedEntries m).*1 = sortedKeys m.
Proof.
  unfold sortedEntries. assert (Hk : ∀ k, k ∈ sortedKeys m → is_Some (m !! k)).
  { intros k. rewrite sortedKeys_perm, elem_of_elements. by intros ?%elem_of_dom. }
  induction (sortedKeys m) as [|k ks IH]; [done|]. destruct (Hk k) as [a Ha]; [left|]. simpl. rewrite Ha. simpl.
  f_equal. apply IH. intros j Hj. apply Hk. by right.
Qed.

Lemma sortedEntries_NoDup {A : Type} (m : gmap gostr A) : NoDup (sortedEntries m).*1.
Proof. rewrite sortedEntries_keys, sortedKeys_perm. apply NoDup_elements. Qed.

Lemma sortedEntries_elem {A : Type} (m : gmap gostr A) k a : (k, a) ∈ sortedEntries m ↔ m !! k = Some a.
Proof.
  unfold sortedEntries. rewrite list_elem_of_omap. split.
  - intros (j & _ & E). destruct (m !! j) as [b|] eqn:Ej; [|done]. simpl in E. by simplify_eq.
  - intros E. exists k. rewrite E. split; [|done]. rewrite sortedKeys_perm, elem_of_elements. by eapply elem_of_dom_2.
Qed.

Lemma sortedEntries_map {A : Type} (m : gmap gostr A) : list_to_map (sortedEntries m) = m.
Proof.
  apply map_eq. intros k. destruct (m !! k) as [a|] eqn:E.
  - apply elem_of_list_to_map_1; [apply sortedEntries_NoDup|by apply sortedEntries_elem].
  - apply not_elem_of_list_to_map_1. intros ([j a] & -> & Ha)%list_elem_of_fmap. apply sortedEntries_elem in Ha. simpl in *. congruence.
Qed.

Lemma mapM_map {A B C : Type} (f : B → option C) (g : A → B) (h : A → C) (l : list A) :
  (∀ x, f (g x) = Some (h x)) → mapM f (g <$> l) = Some (h <$> l).
Proof.
  intros Hf. induction l as [|x l IH]; [done|].
  change (mapM f (g <$> x :: l)) with (y ← f (g x); k ← mapM f (g <$> l); mret (y :: k)). by rewrite Hf, IH.
Qed.

Lemma evalMap_sorted {A C : Type} (eval : goExpr → option C) (expr : A → goExpr) (value : A → C) (m : gmap gostr A) :
  (∀ a, eval (expr a) = Some (value a)) →
  evalMap eval ((λ x, strKey x.1 (expr x.2)) <$> sortedEntries m) = Some (value <$> m).
Proof.
  intros He. unfold evalMap, mapKeys.
  rewrite (mapM_map _ _ (λ x : gostr * A, (x.1, expr x.2))) by done. cbn [mbind option_bind]. rewrite bool_decide_true.
  2:{ rewrite <-list_fmap_compose. apply sortedEntries_NoDup. }
  rewrite (mapM_map _ _ (prod_map id value)) by (intros x; simpl; by rewrite He). simpl.
  by rewrite list_to_map_fmap, sortedEntries_map.
Qed.

Lemma evalSlice_expr ss : evalSlice (sliceExpr ss) = Some ss.
Proof.
  destruct ss as [|s ss]; [done|]. cbn [evalSlice sliceExpr tyString]. rewrite bool_decide_true by done.
  rewrite (mapM_map _ _ id) by done. by rewrite list_fmap_id.
Qed.

Definition handlerDocOf (h : handlerMeta) : HandlerDoc := HandlerDoc_ (hm_ParamNames h) (hm_Doc h).
Definition typeDocOf (t : typeMeta) : TypeDoc := TypeDoc_ (tm_Doc t) (tm_FieldDocs t).
Definition docsOf (m : sourceMeta) : SourceDocs :=
  SourceDocs_ (fmap (M := gmap gostr) handlerDocOf <$> sm_Handlers m) (typeDocOf <$> sm_Types m).

Lemma evalFields_two n1 n2 e1 e2 :
  evalFields [lit n1; lit n2] [nameKey n1 e1; nameKey n2 e2] = Some [e1; e2].
Proof. unfold evalFields. simpl. by rewrite bool_decide_true. Qed.

Lemma evalHandlerDoc_expr h : evalHandlerDoc (handlerExpr h) = Some (handlerDocOf h).
Proof.
  unfold evalHandlerDoc, handlerExpr. cbn [elided mbind option_bind]. rewrite evalFields_two. simpl.
  by rewrite evalSlice_expr.
Qed.

Lemma evalMethods_expr ms : evalMethods (methodsExpr ms) = Some (handlerDocOf <$> ms).
Proof. unfold evalMethods, methodsExpr. simpl. apply evalMap_sorted, evalHandlerDoc_expr. Qed.

Lemma withType_same t es : withType t (EComp (Some t) es) = Some es.
Proof. simpl. by rewrite bool_decide_true. Qed.

Lemma evalTypeDoc_expr t : evalTypeDoc (typeDocExpr t) = Some (typeDocOf t).
Proof.
  unfold evalTypeDoc, typeDocExpr. cbn [elided mbind option_bind]. rewrite evalFields_two. cbn [mbind option_bind].
  cbn [evalStr]. rewrite withType_same. cbn [mbind option_bind].
  rewrite (evalMap_sorted evalStr EStr id) by done. simpl. by rewrite map_fmap_id.
Qed.

Lemma evalDocs_expr m : evalDocs (docsExpr m) = Some (docsOf m).
Proof.
  unfold evalDocs, docsExpr. rewrite withType_same. cbn [mbind option_bind]. rewrite evalFields_two.
  cbn [mbind option_bind]. rewrite !withType_same. cbn [mbind option_bind].
  by rewrite (evalMap_sorted evalMethods methodsExpr (fmap handlerDocOf)), (evalMap_sorted evalTypeDoc typeDocExpr typeDocOf)
    by (apply evalMethods_expr || apply evalTypeDoc_expr).
Qed.

(** What the registry makes of it is what was extracted. *)
Lemma SetSourceDocs_docsOf m : SetSourceDocs (Some (docsOf m)) = Some m.
Proof.
  destruct m as [hs ts]. unfold SetSourceDocs, docsOf. simpl. f_equal. f_equal.
  - rewrite <-map_fmap_compose. rewrite <-(map_fmap_id hs) at 2. apply map_fmap_ext. intros k ms _. simpl.
    rewrite <-map_fmap_compose. rewrite <-(map_fmap_id ms) at 2. apply map_fmap_ext. by intros ? [].
  - rewrite <-map_fmap_compose. rewrite <-(map_fmap_id ts) at 2. apply map_fmap_ext. by intros ? [].
Qed.

(** *** Its tokens *)

Definition sliceTokens (ss : list gostr) : list token :=
  match ss with
  | [] => [Ident (lit "nil")]
  | _ => [LBracket; RBracket; Ident (lit "string"); LBrace] ++ joinComma ((λ s, [Str s]) <$> ss) [Comma] ++ [RBrace]
  end.

Definition methodTokens (h : gostr * handlerMeta) : list token :=
  [Str h.1] ++ [Colon; LBrace; Ident (lit "ParamNames"); Colon] ++
  (sliceTokens (hm_ParamNames h.2) ++ [Comma; Ident (lit "Doc"); Colon]) ++ [Str (hm_Doc h.2)] ++ [RBrace; Comma].

Definition structTokens (s : gostr * gmap gostr handlerMeta) : list token :=
  [Str s.1] ++ [Colon; LBrace] ++ (sortedEntries s.2 ≫= methodTokens) ++ [RBrace; Comma].

Definition fieldTokens (f : gostr * gostr) : list token := [Str f.1] ++ [Colon] ++ [Str f.2] ++ [Comma].

Definition typeTokens (t : gostr * typeMeta) : list token :=
  [Str t.1] ++ [Colon; LBrace; Ident (lit "Doc"); Colon] ++ [Str (tm_Doc t.2)] ++
  ([Comma; Ident (lit "FieldDocs"); Colon] ++ typTokens (TMapOf tyString tyString) ++ [LBrace]) ++
  (sortedEntries (tm_FieldDocs t.2) ≫= fieldTokens) ++ [RBrace; RBrace; Comma].

Definition bodyTokens (m : sourceMeta) : list token :=
  ([Ident (lit "Handlers"); Colon] ++ typTokens tyHandlers ++ [LBrace]) ++
  (sortedEntries (sm_Handlers m) ≫= structTokens) ++
  ([RBrace; Comma; Ident (lit "Types"); Colon] ++ typTokens tyTypes ++ [LBrace]) ++
  (sortedEntries (sm_Types m) ≫= typeTokens) ++ [RBrace; Comma].

Definition headTokens : list token :=
  [Ident (lit "import"); Str aprotPath; Semi; Ident (lit "func"); Ident (lit "RegisterSourceDocs"); LParen;
   Ident (lit "r"); Star; Ident (lit "aprot"); Dot; Ident (lit "Registry"); RParen; LBrace;
   Ident (lit "r"); Dot; Ident (lit "SetSourceDocs"); LParen] ++
  Amp :: typTokens (tyAprot "SourceDocs") ++ [LBrace].

Definition fileTokens (goPackage : gostr) (m : sourceMeta) : list token :=
  [Ident (lit "package"); Ident goPackage; Semi] ++ headTokens ++ bodyTokens m ++ [RBrace; RParen; Semi; RBrace; Semi].

(** An entry followed by a comma, for each of a list. *)
Lemma spells_all {A : Type} (entry : A → option goExpr * goExpr) (tokens : A → list token) (l : list A) :
  (∀ x, ∃ ts, tokens x = ts ++ [Comma] ∧ spellsEntry (entry x) ts) → spellsEntries (entry <$> l) (l ≫= tokens).
Proof.
  intros Hx. induction l as [|x l IH]; [constructor|]. destruct (Hx x) as (ts & Et & Hs).
  change (spellsEntries (entry x :: (entry <$> l)) (tokens x ++ (l ≫= tokens))). rewrite Et, <-(assoc_L (++)).
  by apply (entries_cons (entry x) (entry <$> l) ts).
Qed.

Lemma spells_slice ss : spells (sliceExpr ss) (sliceTokens ss).
Proof.
  destruct ss as [|s ss]; [constructor|].
  apply (spells_comp (TSliceOf tyString) _ (joinComma ((λ s, [Str s]) <$> s :: ss) [Comma])).
  generalize (s :: ss). clear s ss. intros ss. induction ss as [|s ss IH]; [constructor|].
  destruct ss as [|s' ss]; [constructor; constructor; constructor|].
  apply (entries_cons (None, EStr s) _ [Str s]); [do 2 constructor|exact IH].
Qed.

Lemma spells_two n1 e1 ts1 n2 e2 ts2 :
  spells e1 ts1 → spells e2 ts2 →
  spellsEntries [nameKey n1 e1; nameKey n2 e2] ((Ident (lit n1) :: Colon :: ts1) ++ Comma :: Ident (lit n2) :: Colon :: ts2).
Proof.
  intros H1 H2. apply (entries_cons (nameKey n1 e1) [nameKey n2 e2]).
  - apply (entry_key _ _ [Ident (lit n1)]); [constructor|done].
  - constructor. apply (entry_key _ _ [Ident (lit n2)]); [constructor|done].
Qed.

Lemma spells_method h :
  ∃ ts, methodTokens h = ts ++ [Comma] ∧ spellsEntry (strKey h.1 (handlerExpr h.2)) ts.
Proof.
  eexists ([Str h.1] ++ Colon :: LBrace :: ((Ident (lit "ParamNames") :: Colon :: sliceTokens (hm_ParamNames h.2)) ++
    Comma :: Ident (lit "Doc") :: Colon :: [Str (hm_Doc h.2)]) ++ [RBrace]). split.
  - unfold methodTokens. simpl. by rewrite <-!(assoc_L (++)).
  - apply (entry_key _ _ [Str h.1]); [constructor|]. apply spells_elided.
    apply spells_two; [apply spells_slice|constructor].
Qed.

Lemma spells_struct s : ∃ ts, structTokens s = ts ++ [Comma] ∧ spellsEntry (strKey s.1 (methodsExpr s.2)) ts.
Proof.
  eexists ([Str s.1] ++ Colon :: LBrace :: (sortedEntries s.2 ≫= methodTokens) ++ [RBrace]). split.
  - unfold structTokens. simpl. by rewrite <-!(assoc_L (++)).
  - apply (entry_key _ _ [Str s.1]); [constructor|]. apply spells_elided.
    apply (spells_all (λ h, strKey h.1 (handlerExpr h.2))), spells_method.
Qed.

Lemma spells_field f : ∃ ts, fieldTokens f = ts ++ [Comma] ∧ spellsEntry (strKey f.1 (EStr f.2)) ts.
Proof. eexists ([Str f.1] ++ Colon :: [Str f.2]). split; [done|]. apply (entry_key _ _ [Str f.1]); constructor. Qed.

Lemma spells_type t : ∃ ts, typeTokens t = ts ++ [Comma] ∧ spellsEntry (strKey t.1 (typeDocExpr t.2)) ts.
Proof.
  eexists ([Str t.1] ++ Colon :: LBrace :: ((Ident (lit "Doc") :: Colon :: [Str (tm_Doc t.2)]) ++
    Comma :: Ident (lit "FieldDocs") :: Colon :: (typTokens (TMapOf tyString tyString) ++ LBrace ::
      (sortedEntries (tm_FieldDocs t.2) ≫= fieldTokens) ++ [RBrace])) ++ [RBrace]). split.
  - unfold typeTokens. simpl. by rewrite <-!(assoc_L (++)).
  - apply (entry_key _ _ [Str t.1]); [constructor|]. apply spells_elided. apply spells_two; [constructor|].
    apply spells_comp. apply (spells_all (λ f, strKey f.1 (EStr f.2))), spells_field.
Qed.

Lemma spells_docs m :
  spells (docsExpr m) (Amp :: typTokens (tyAprot "SourceDocs") ++ LBrace :: bodyTokens m ++ [RBrace]).
Proof.
  apply spells_addr, spells_comp. unfold bodyTokens.
  replace (_ ++ _) with ((Ident (lit "Handlers") :: Colon ::
      (typTokens tyHandlers ++ LBrace :: (sortedEntries (sm_Handlers m) ≫= structTokens) ++ [RBrace])) ++
    Comma :: (Ident (lit "Types") :: Colon ::
      (typTokens tyTypes ++ LBrace :: (sortedEntries (sm_Types m) ≫= typeTokens) ++ [RBrace])) ++ Comma :: []).
  2:{ simpl. by rewrite <-!(assoc_L (++)). }
  apply (entries_cons (nameKey "Handlers" _) [nameKey "Types" _]); [|apply (entries_cons (nameKey "Types" _) [])].
  - apply (entry_key _ _ [Ident (lit "Handlers")]); [constructor|]. apply spells_comp.
    apply (spells_all (λ s, strKey s.1 (methodsExpr s.2))), spells_struct.
  - apply (entry_key _ _ [Ident (lit "Types")]); [constructor|]. apply spells_comp.
    apply (spells_all (λ t, strKey t.1 (typeDocExpr t.2))), spells_type.
  - constructor.
Qed.

Lemma parse_fileTokens goPackage m :
  IsKeyword goPackage = false → goPackage ≠ lit "_" →
  parseFile (fileTokens goPackage m) =
  Some (GoFile goPackage aprotPath (lit "RegisterSourceDocs") (lit "r") (lit "aprot") (lit "Registry")
         (lit "SetSourceDocs") (docsExpr m)).
Proof.
  intros Hk Hu. unfold fileTokens, headTokens. rewrite <-!(assoc_L (++)).
  change ([LBrace] ++ bodyTokens m ++ [RBrace; RParen; Semi; RBrace; Semi])
    with (LBrace :: bodyTokens m ++ [RBrace; RParen; Semi; RBrace; Semi]).
  cbn [app parseFile]. rewrite (bool_decide_false (goPackage = lit "_")) by done.
  assert (E : existsb IsKeyword [goPackage; lit "RegisterSourceDocs"; lit "r"; lit "aprot"; lit "Registry"; lit "SetSourceDocs"] = false).
  { cbn [existsb]. rewrite Hk. by vm_compute. }
  rewrite E. rewrite !bool_decide_true by done. cbn [andb negb].
  pose proof (spells_docs m) as Hs. set (ts := Amp :: _) in Hs.
  match goal with |- context [ parseExpr (length ?l) ?l ] => replace l with (ts ++ [RParen; Semi; RBrace; Semi]) end.
  - clearbody ts. pose proof (proj1 parse_spells _ _ Hs (length (ts ++ [RParen; Semi; RBrace; Semi])) [RParen; Semi; RBrace; Semi]) as E2.
    rewrite E2; [done|rewrite length_app; lia|done].
  - unfold ts. simpl. by rewrite <-!(assoc_L (++)).
Qed.

End Spelled.

(** *** Its text *)

Section Text.
  Context `{RuneCase} (isLetter isDigit isPrint : rune → bool) {Tables : UnicodeTables isLetter isDigit}.
  Context (control : ∀ r, (0 ≤ r < 32)%Z → isPrint r = false).

Abbreviation scans := (scans isLetter isDigit).
Abbreviation quoted := (quoted isPrint).

(** Strings of code points. *)
Definition validStr (s : gostr) : Prop := Forall (λ r, validRune r = true) s.

Definition validHandler (h : gostr * handlerMeta) : Prop :=
  validStr h.1 ∧ Forall validStr (hm_ParamNames h.2) ∧ validStr (hm_Doc h.2).
Definition validStruct (s : gostr * gmap gostr handlerMeta) : Prop :=
  validStr s.1 ∧ Forall validHandler (sortedEntries s.2).
Definition validField (f : gostr * gostr) : Prop := validStr f.1 ∧ validStr f.2.
Definition validType (t : gostr * typeMeta) : Prop :=
  validStr t.1 ∧ validStr (tm_Doc t.2) ∧ Forall validField (sortedEntries (tm_FieldDocs t.2)).
Definition validMeta (m : sourceMeta) : Prop :=
  Forall validStruct (sortedEntries (sm_Handlers m)) ∧ Forall validType (sortedEntries (sm_Types m)).

(** Fixed text. *)
Ltac fixed := intros ?; vm_compute; reflexivity.

Lemma scans_skip b s1 s2 b' ts : scans b s1 b [] → scans b s2 b' ts → scans b (s1 ++ s2) b' ts.
Proof. intros H1 H2. apply (scans_app isLetter isDigit b s1 b [] b' s2 ts H1 H2). Qed.

Lemma scans_quoted b s : validStr s → scans b (quoted s) true [Str s].
Proof. intros Hs. by apply scans_Quote. Qed.

Lemma scans_tab b n : scans b (tab n) b [].
Proof. intros out. revert b. induction n as [|n IH]; intros b; [done|]. apply (IH b). Qed.

Lemma scans_join ss :
  ss ≠ [] → Forall validStr ss → scans false (joinComma (quoted <$> ss) (lit ", ")) true (joinComma ((λ s, [Str s]) <$> ss) [Comma]).
Proof.
  intros Hne Hss. induction Hss as [|s ss Hs Hss IH]; [done|]. destruct ss as [|s' ss]; [by apply scans_quoted|].
  apply (scans_app _ _ false (quoted s) true [Str s]); [by apply scans_quoted|].
  apply (scans_app _ _ true (lit ", ") false [Comma]); [fixed|]. by apply IH.
Qed.

Lemma scans_slice ss :
  Forall validStr ss →
  scans false (goStringSlice isPrint ss ++ lit ", Doc: ") false (sliceTokens ss ++ [Comma; Ident (lit "Doc"); Colon]).
Proof.
  intros Hss. destruct ss as [|s ss]; [fixed|].
  change (goStringSlice isPrint (s :: ss)) with (lit "[]string{" ++ joinComma (quoted <$> s :: ss) (lit ", ") ++ lit "}").
  change (sliceTokens (s :: ss)) with
    ([LBracket; RBracket; Ident (lit "string"); LBrace] ++ joinComma ((λ s, [Str s]) <$> s :: ss) [Comma] ++ [RBrace]).
  rewrite <-!(assoc_L (++)). apply scans_app with (b2 := false); [fixed|].
  apply scans_app with (b2 := true); [by apply scans_join|fixed].
Qed.

Lemma scans_method h : validHandler h → scans false (methodLine isPrint h) false (methodTokens h).
Proof.
  intros (H1 & H2 & H3). unfold methodLine, methodTokens. apply scans_skip; [apply scans_tab|].
  apply scans_app with (b2 := true); [by apply scans_quoted|].
  apply scans_app with (b2 := false); [fixed|]. rewrite (assoc_L (++) (goStringSlice _ _)).
  apply scans_app with (b2 := false); [by apply scans_slice|].
  apply scans_app with (b2 := true); [by apply scans_quoted|fixed].
Qed.

Lemma scans_struct s : validStruct s → scans false (structLines isPrint s) false (structTokens s).
Proof.
  intros [H1 H2]. unfold structLines, structTokens. apply scans_skip; [apply scans_tab|].
  apply scans_app with (b2 := true); [by apply scans_quoted|]. rewrite (assoc_L (++) (lit ": {")).
  apply scans_app with (b2 := false); [fixed|].
  apply scans_app with (b2 := false); [|fixed]. apply scans_concat. intros h Hh. apply scans_method.
  by eapply Forall_forall in H2.
Qed.

Lemma scans_field f : validField f → scans false (fieldDocLine isPrint f) false (fieldTokens f).
Proof.
  intros [H1 H2]. unfold fieldDocLine, fieldTokens. apply scans_skip; [apply scans_tab|].
  apply scans_app with (b2 := true); [by apply scans_quoted|]. apply scans_app with (b2 := false); [fixed|].
  apply scans_app with (b2 := true); [by apply scans_quoted|fixed].
Qed.

Lemma scans_type t : validType t → scans false (typeLines isPrint t) false (typeTokens t).
Proof.
  intros (H1 & H2 & H3). unfold typeLines, typeTokens. apply scans_skip; [apply scans_tab|].
  apply scans_app with (b2 := true); [by apply scans_quoted|]. apply scans_app with (b2 := false); [fixed|].
  apply scans_app with (b2 := true); [by apply scans_quoted|]. rewrite (assoc_L (++) (lit ", FieldDocs: map[string]string{")).
  apply scans_app with (b2 := false); [fixed|].
  apply scans_app with (b2 := false); [|fixed]. apply scans_concat. intros f Hf. apply scans_field.
  by eapply Forall_forall in H3.
Qed.

Lemma scans_body m : validMeta m → scans false (body isPrint m) false (bodyTokens m).
Proof.
  intros [H1 H2]. unfold body, bodyTokens.
  apply scans_app with (b2 := false); [fixed|]. apply scans_app with (b2 := false).
  { apply scans_concat. intros s Hs. apply scans_struct. by eapply Forall_forall in H1. }
  apply scans_app with (b2 := false); [fixed|]. apply scans_app with (b2 := false); [|fixed].
  apply scans_concat. intros t Ht. apply scans_type. by eapply Forall_forall in H2.
Qed.

(** The scanner and [token.IsIdentifier] agree on what an identifier is. *)
Lemma identStart_ok r : validRune r = true → identStart isLetter r = isLetter r || bool_decide (r = underscore).
Proof.
  intros [Hr%bool_decide_eq_true _]%andb_true_iff. unfold identStart, underscore.
  destruct (decide (r < 128)%Z); [rewrite (bool_decide_true (r < 128)%Z) by done|rewrite (bool_decide_false (r < 128)%Z) by done].
  - rewrite letter_ascii by lia. rewrite (orb_comm (bool_decide (97 ≤ r ≤ 122)%Z)). done.
  - rewrite (bool_decide_false (r = 95%Z)) by lia. by rewrite orb_false_r.
Qed.

Lemma identPart_ok r : validRune r = true → identPart isLetter isDigit r = identRune isLetter isDigit r.
Proof.
  intros Hv. unfold identPart, identRune. rewrite identStart_ok by done.
  pose proof Hv as [Hr%bool_decide_eq_true _]%andb_true_iff. unfold underscore.
  destruct (decide (r < 128)%Z); [rewrite (bool_decide_true (r < 128)%Z) by done|rewrite (bool_decide_false (r < 128)%Z) by done].
  - assert (Ed : isDigit r = asciiDigit r) by (apply (digit_ascii (isLetter := isLetter)); lia). rewrite Ed. unfold asciiDigit. by destruct (isLetter r), (bool_decide (r = 95%Z)), (bool_decide (48 ≤ r ≤ 57)%Z).
  - by destruct (isLetter r), (isDigit r), (bool_decide (r = 95%Z)).
Qed.

Lemma scans_package goPackage :
  validStr goPackage → IsIdentifier isLetter isDigit goPackage = true →
  scans false (packageClause goPackage) false [Ident (lit "package"); Ident goPackage; Semi].
Proof.
  intros Hv Hid out. destruct goPackage as [|r rest]; [done|]. apply Forall_cons in Hv as [Hr Hv].
  simpl in Hid. apply andb_true_iff in Hid as [[Hs Hrest]%andb_true_iff Hk%negb_true_iff].
  unfold packageClause. rewrite !foldl_app.
  change (foldl (scanStep isLetter isDigit) (Scanner Plain false out) (lit "package "))
    with (Scanner Plain false (Ident (lit "package") :: out)).
  change (r :: rest) with ([r] ++ rest) at 1. rewrite foldl_app. cbn [foldl]. unfold scanStep at 3. cbn [sc_mode sc_semi sc_out].
  unfold plain. rewrite identStart_ok, Hs by done. rewrite run_ident.
  2:{ apply forallb_forall. intros c Hc. eapply forallb_forall in Hrest; [|exact Hc].
      rewrite identPart_ok; [done|]. eapply Forall_forall in Hv; [exact Hv|by apply list_elem_of_In]. }
  unfold eol. cbn [foldl]. unfold scanStep. cbn [sc_mode sc_semi sc_out].
  change (identPart isLetter isDigit 10%Z) with false. cbv iota zeta.
  rewrite reverse_app, reverse_involutive. cbn [endsLine app reverse]. 
  change (reverse [r] ++ rest) with (r :: rest). unfold endsLine. rewrite Hk. by vm_compute.
Qed.

Lemma scan_file goPackage m :
  validStr goPackage → IsIdentifier isLetter isDigit goPackage = true → validMeta m →
  scan isLetter isDigit (preamble ++ packageClause goPackage ++ fileOpening ++ body isPrint m ++ trailer) =
  Some (fileTokens goPackage m).
Proof.
  intros Hv Hid Hm.
  assert (E : scans false (preamble ++ packageClause goPackage ++ fileOpening ++ body isPrint m ++ trailer) false (fileTokens goPackage m)).
  { apply scans_skip; [fixed|]. apply scans_app with (b2 := false); [by apply scans_package|].
    apply scans_app with (b2 := false); [fixed|]. apply scans_app with (b2 := false); [by apply scans_body|fixed]. }
  unfold scan. generalize dependent (fileTokens goPackage m). intros ts E.
  assert (Es : foldl (scanStep isLetter isDigit) (Scanner Plain false [])
    ((preamble ++ packageClause goPackage ++ fileOpening ++ body isPrint m ++ trailer) ++ [newline]) =
    Scanner Plain false (reverse ts)) by (rewrite foldl_app, E, app_nil_r; reflexivity).
  rewrite Es. cbn [sc_mode sc_out]. by rewrite reverse_involutive.
Qed.

End Text.

(** ** The property *)

Section Baked.
  Context `{RuneCase} (isLetter isDigit isPrint : rune → bool).
  Context (ParseDir : gostr → option (gmap gostr (gmap gostr (list declAst)))).

(** The Unicode tables, what go/parser returns, and the package name that was asked for. *)
Record bakeable (groups : list gostr) (goPackage : gostr) : Prop := Bakeable {
  bk_tables : UnicodeTables isLetter isDigit;
  bk_control r : (0 ≤ r < 32)%Z → isPrint r = false;
  bk_meta : validMeta (extractSourceMeta ParseDir (sourceDirs groups));
  bk_name : validStr goPackage ∧ IsIdentifier isLetter isDigit goPackage = true ∧ goPackage ≠ lit "_";
}.

(** C35: documentation baked into a build is the documentation in the source. Without a package
    name there is no file; otherwise the file is a program of that package that compiles,
    and when it has run, the registry answers, wherever it runs and whatever source is on
    disk there, with the parameter names and comments that were extracted when the file was
    generated. *)
Theorem baked_docs_are_source_docs (groups : list gostr) (goPackage : gostr) :
  bakeable groups goPackage →
  GenerateSourceDocsGo ParseDir isPrint groups [] = None ∧
  ∃ text docs,
    GenerateSourceDocsGo ParseDir isPrint groups goPackage = Some text ∧
    runFile isLetter isDigit text = Some (goPackage, docs) ∧
    ∀ ParseDir' groups',
      resolveSourceMeta ParseDir' (SetSourceDocs (Some docs)) groups' = resolveSourceMeta ParseDir None groups.
Proof.
  intros [Tables Hc Hm (Hv & Hid & Hu)]. split; [done|].
  set (m := extractSourceMeta ParseDir (sourceDirs groups)) in *. eexists _, (docsOf m). split.
  { unfold GenerateSourceDocsGo. rewrite bool_decide_false; [reflexivity|]. by intros ->. }
  split; [|intros ParseDir' groups'; by rewrite SetSourceDocs_docsOf].
  unfold runFile. fold m. rewrite scan_file by done. cbn [mbind option_bind].
  rewrite parse_fileTokens; [|by destruct goPackage as [|r s]; [|simpl in Hid; apply andb_true_iff in Hid as [_ Hk%negb_true_iff]]|done].
  cbn [mbind option_bind gf_import gf_pkg gf_type gf_func gf_method gf_arg gf_package].
  rewrite !bool_decide_true by done. cbn [andb]. by rewrite evalDocs_expr.
Qed.

End Baked.

(** ** An example *)

#[export] Instance validStr_dec (s : gostr) : Decision (validStr s).
Proof. unfold validStr. apply _. Defined.
#[export] Instance validHandler_dec h : Decision (validHandler h).
Proof. unfold validHandler. apply _. Defined.
#[export] Instance validStruct_dec s : Decision (validStruct s).
Proof. unfold validStruct. apply _. Defined.
#[export] Instance validField_dec f : Decision (validField f).
Proof. unfold validField. apply _. Defined.
#[export] Instance validType_dec t : Decision (validType t).
Proof. unfold validType. apply _. Defined.
#[export] Instance validMeta_dec m : Decision (validMeta m).
Proof. unfold validMeta. apply _. Defined.

(** A handler method with a comment that needs quoting, and the type it takes. *)
Definition exFile : list declAst :=
  [DFunc (FuncDecl (Some [AStar (AIdent (lit "Todos"))]) (lit "Add") (Some [[lit "ctx"]; [lit "title"]; []])
     (lit "Add adds an " ++ [quote] ++ lit "item" ++ [quote] ++ lit "." ++ eol));
   DGen (GenDecl true (lit "Item is one line.") [TypeSpec (lit "Item") []
     (AStruct (Some [FieldAst [lit "ID"; lit "Key"] [] (lit "unique"); FieldAst [] (lit "embedded") []]))]);
   DFunc (FuncDecl None (lit "main") None [])].

Definition exDir (dir : gostr) : option (gmap gostr (gmap gostr (list declAst))) :=
  if bool_decide (dir = lit "/src/api") then Some {[lit "api" := {[lit "todos.go" := exFile]}]} else None.

Definition exPrintable (r : rune) : bool := bool_decide (32 ≤ r < 127)%Z.

Lemma exBakeable :
  bakeable (H := asciiCase) asciiLetters asciiDigit exPrintable exDir [lit "/src/api"; []] (lit "api").
Proof.
  split.
  - apply asciiTables.
  - intros r Hr. apply bool_decide_eq_false. lia.
  - refine (bool_decide_unpack _ _). vm_compute. exact I.
  - split; [|split]; [refine (bool_decide_unpack _ _); vm_compute; exact I|by vm_compute|by vm_compute].
Qed.

Lemma baked_docs_are_source_docs_witness :
  ∃ text docs,
    GenerateSourceDocsGo exDir exPrintable [lit "/src/api"; []] (lit "api") = Some text ∧
    runFile asciiLetters asciiDigit text = Some (lit "api", docs) ∧
    let m := SetSourceDocs (Some docs) in
    paramNames m (lit "Todos") (lit "Add") = [lit "title"; lit "arg"] ∧
    handlerDoc m (lit "Todos") (lit "Add") = lit "Add adds an " ++ [quote] ++ lit "item" ++ [quote] ++ lit "." ∧
    typeDoc m (lit "Item") = lit "Item is one line." ∧ fieldDoc m (lit "Item") (lit "Key") = lit "unique".
Proof.
  destruct (baked_docs_are_source_docs (H := asciiCase) asciiLetters asciiDigit exPrintable exDir [lit "/src/api"; []]
    (lit "api") exBakeable) as (_ & text & docs & Ht & Hr & Hm).
  exists text, docs. split; [exact Ht|]. split; [exact Hr|].
  assert (E : SetSourceDocs (Some docs) = Some (extractSourceMeta exDir (sourceDirs [lit "/src/api"; []]))).
  { specialize (Hm (λ _, None) []). unfold SetSourceDocs in *. exact (f_equal Some Hm). }
  cbv zeta. rewrite E. split; [|split; [|split]]; vm_compute; reflexivity.
Defined.

End SourceDocs.
