(* ===== verification/TsTypes.v ===== *)
(** * TsTypes: TypeScript types from Go types (generate.go)

    [goTypeToTS] prints the TypeScript type of a Go type; [collectInterfaceFields] makes the
    fields of an interface out of a struct, and [collectNestedType] gathers the struct and
    enum types an output file has to declare. A printed type is a list of tokens, text and
    the names that have to be declared; [render] is the string. Types are those of Schema.v:
    a named type is its identity, and what reflection knows of it is the environment. *)

From S2P Require Import Prelude Runes Transform Registry Naming Schema Zod.
From stdpp Require Import prelude gmap strings list fin_maps fin_sets.

Module TsTypes.
Import Runes Naming Schema.
Import Registry(EnumInfo, en_name, en_isString, en_values).
Import Zod(goKind(..), tsToken(..), tsType, fieldData(..), interfaceData(..), maxTSTupleLen, joinComma, Quote, fd_Type, if_Name, if_Fields).

(** ** Printed types *)

Definition renderToken (t : tsToken) : gostr := match t with TsTxt s => s | TsName n _ => n end.
Definition render (e : tsType) : gostr := e ≫= renderToken.
Definition txt (s : string) : tsType := [TsTxt (lit s)].

(** The names a type refers to, with the Go types they stand for. *)
Abbreviation tsName := (gostr * string)%type (only parsing).
Definition names (e : tsType) : list tsName :=
  omap (λ t, match t with TsName n id => Some (n, id) | _ => None end) e.

Definition hasSuffix (suf s : gostr) : bool := hasPrefix (reverse suf) (reverse s).
Definition isUnion (e : tsType) : bool := hasInfix (lit " | ") (render e).

(** [T[]], with the element in parentheses if it is a union. *)
Definition listOf (elem : tsType) : tsType :=
  if isUnion elem then txt "(" ++ elem ++ txt ")[]" else elem ++ txt "[]".

Definition tsTupleOrArray (elem : tsType) (n : nat) : tsType :=
  if bool_decide (maxTSTupleLen < n) then listOf elem
  else txt "[" ++ joinComma (replicate n elem) (txt ", ") ++ txt "]".

(** ** Marshalers *)

(** What the encoding of a type's zero value is. *)
Inductive json := JNull | JBool | JNumber | JString | JObject (vs : list json) | JArray (vs : list json).

(** Which of the marshaler interfaces a type implements; None is a zero value whose
    encoding fails, panics or is empty. *)
Inductive marshaler := NoMarshaler | TextMarshaler | JSONMarshaler (zero : option json).

Definition jsonValueToTS (v : json) : string :=
  match v with JString => "string" | JNumber => "number" | JBool => "boolean" | _ => "unknown" end.

(** The one type all values have. *)
Definition commonType (vs : list json) : option string :=
  match vs with
  | [] => None
  | v :: vs =>
      if forallb (λ w, bool_decide (jsonValueToTS w = jsonValueToTS v)) vs
      then Some (jsonValueToTS v) else None
  end.

Definition inferObjectType (vs : list json) : gostr :=
  match commonType vs with
  | Some t => lit "Record<string, " ++ lit t ++ lit ">"
  | None => lit "Record<string, unknown>"
  end.

Definition inferArrayType (vs : list json) : gostr :=
  match commonType vs with Some t => lit t ++ lit "[]" | None => lit "unknown[]" end.

Definition InferTypeFromMarshal (isInterface : bool) (m : marshaler) : option gostr :=
  if isInterface then None
  else
    match m with
    | NoMarshaler => None
    | TextMarshaler => Some (lit "string")
    | JSONMarshaler None => None
    | JSONMarshaler (Some v) =>
        match v with
        | JString => Some (lit "string")
        | JBool => Some (lit "boolean")
        | JNumber => Some (lit "number")
        | JObject vs => Some (inferObjectType vs)
        | JArray vs => Some (inferArrayType vs)
        | JNull => None
        end
    end.

(** *** database/sql *)

Definition sqlNullBase (id : string) : option (string * goKind) :=
  if bool_decide (id = "database/sql.NullString") then Some ("string", GkString)
  else if bool_decide (id ∈ ["database/sql.NullInt64"; "database/sql.NullInt32"; "database/sql.NullInt16";
                             "database/sql.NullByte"]) then Some ("number", GkInt)
  else if bool_decide (id = "database/sql.NullFloat64") then Some ("number", GkFloat)
  else if bool_decide (id = "database/sql.NullBool") then Some ("boolean", GkBool)
  else if bool_decide (id = "database/sql.NullTime") then Some ("string", GkString)
  else None.

Definition SQLNullTSType (typeResolver : rtype → tsType) (t : rtype) : option tsType :=
  match deref t with
  | RStruct id => b ← sqlNullBase id; Some (txt b.1 ++ txt " | null")
  | RNull _ v => Some (typeResolver v ++ txt " | null")
  | _ => None
  end.

Definition goKindString (t : rtype) : goKind :=
  match deref t with
  | RBasic BString _ => GkString
  | RBasic BInt _ => GkInt
  | RBasic (BUint8 | BUint) _ => GkUint
  | RBasic BFloat _ => GkFloat
  | RBasic BBool _ => GkBool
  | RSlice _ _ => GkSlice
  | RArray _ _ _ => GkArray
  | RMap _ _ _ => GkMap
  | RStruct _ | RNull _ _ | RAnonStruct => GkStruct
  | RBasic BOther _ | RPtr _ | RInterface => GkOther
  end.

Definition SQLNullGoKind (t : rtype) : goKind :=
  match deref t with
  | RStruct id => match sqlNullBase id with Some b => b.2 | None => GkNone end
  | RNull _ v => goKindString v
  | _ => GkNone
  end.

Definition blobType : string := "github.com/marrasen/aprot.Blob".
Definition voidResponseType : string := "github.com/marrasen/aprot.voidResponse".
Definition blobTSWireShape : tsType := txt "{ contentType?: string; data: string }".

Definition isRawJSON (t : rtype) : bool :=
  match typeId t with
  | Some id => bool_decide (id ∈ ["encoding/json.RawMessage"; "encoding/json/jsontext.Value"])
  | None => false
  end.

(** [tsObjectKey] quotes what is not an identifier. *)
Definition tsObjectKey (quote : gostr → gostr) (s : gostr) : gostr :=
  if isValidJSIdent s then s else quote s.

Section Gen.
  Context `{RuneCase} (isLetter isDigit isPrint : rune → bool).
  Context (nameOf : string → gostr) (fieldsOf : string → list rfield).
  (** The marshaler interfaces of each type, and the registered enums and overrides. *)
  Context (marshalerOf : rtype → marshaler).
  Context (enumTypes : gmap string EnumInfo).
  Context (fieldTypeOverride : string → gostr → option rtype).

Definition typeName (id : string) : gostr := sanitizeTSIdent isLetter isDigit (nameOf id).
Definition enumName (e : EnumInfo) : gostr := lit (en_name e) ++ lit "Type".

Definition lookupType (t : rtype) : option EnumInfo := id ← typeId t; enumTypes !! id.
Definition nameToken (t : rtype) (e : EnumInfo) : tsToken := TsName (enumName e) (default "" (typeId t)).

Definition infer (t : rtype) : option gostr :=
  InferTypeFromMarshal (match t with RInterface => true | _ => false end) (marshalerOf t).

(** [goTypeToTS]. *)
Fixpoint goTypeToTS (t : rtype) : tsType :=
  match lookupType t with
  | Some e => [nameToken t e]
  | None =>
      match infer t with
      | Some mt =>
          match t with
          | RSlice _ elem => if hasSuffix (lit "[]") mt then listOf (goTypeToTS elem) else [TsTxt mt]
          | _ => [TsTxt mt]
          end
      | None =>
          if isRawJSON t then txt "unknown"
          else
            match t with
            | RPtr (RNull _ v) | RNull _ v => goTypeToTS v ++ txt " | null"
            | RPtr (RStruct id as u) =>
                match sqlNullBase id with Some b => txt b.1 ++ txt " | null" | None => goTypeToTS u end
            | RStruct id =>
                match sqlNullBase id with
                | Some b => txt b.1 ++ txt " | null"
                | None => if bool_decide (id = blobType) then blobTSWireShape else [TsName (typeName id) id]
                end
            | RBasic BString _ => txt "string"
            | RBasic (BInt | BUint8 | BUint | BFloat) _ => txt "number"
            | RBasic BBool _ => txt "boolean"
            | RSlice _ e => if isUnnamedByteSlice t then txt "string" else listOf (goTypeToTS e)
            | RArray _ n e => if isByteArray t then txt "string" else tsTupleOrArray (goTypeToTS e) n
            | RMap _ k e =>
                match k with
                | RBasic BBool _ =>
                    [TsTxt (lit "Partial<Record<" ++ [34%Z] ++ lit "true" ++ [34%Z] ++ lit " | " ++ [34%Z] ++
                          lit "false" ++ [34%Z] ++ lit ", ")] ++ goTypeToTS e ++ txt ">>"
                | _ => txt "Record<" ++ goTypeToTS k ++ txt ", " ++ goTypeToTS e ++ txt ">"
                end
            | RPtr e => goTypeToTS e
            | RAnonStruct | RInterface | RBasic BOther _ => txt "unknown"
            end
      end
  end.

Definition hasMarshalOverride (t : rtype) : bool :=
  match infer t, SQLNullTSType goTypeToTS t with None, None => false | _, _ => true end.

(** ** Fields *)

Definition lookupEnum (t : rtype) : option EnumInfo := lookupType (deref t).

Definition lookupElemEnum (t : rtype) : option EnumInfo :=
  match deref t with
  | RSlice _ e | RMap _ _ e | RArray _ _ e => lookupType (deref e)
  | _ => None
  end.

Definition elemTypeInfo (t : rtype) : goKind * gostr :=
  match deref t with
  | RSlice _ e | RMap _ _ e | RArray _ _ e =>
      let e := deref e in
      match goKindString e with
      | GkStruct =>
          match e with
          | RStruct id | RNull id _ =>
              if bool_decide (nameOf id = []) then (GkNone, []) else (GkStruct, typeName id)
          | _ => (GkNone, [])
          end
      | GkSlice | GkMap | GkArray => (GkNone, [])
      | k => (k, [])
      end
  | _ => (GkNone, [])
  end.

Definition effectiveFieldType (owner : string) (f : rfield) : rtype :=
  match fieldTypeOverride owner (f_name f) with Some ov => ov | None => f_type f end.

Definition retype (t : rtype) (f : rfield) : rfield :=
  RField (f_name f) t (f_exported f) (f_anonymous f) (f_json f) (f_validate f).

Definition orNull (e : tsType) : tsType := e ++ txt " | null".

(** The shape of a field: its TypeScript type, its kind and its element's kind and name. *)
Record shape := Shape { sp_ts : tsType; sp_kind : goKind; sp_elem : goKind; sp_elemName : gostr; sp_len : nat }.

Definition arrayLen (t : rtype) : nat := match deref t with RArray _ n _ => n | _ => 0 end.

Definition isNullable (f : rfield) : bool :=
  isPtr (f_type f) && negb (hasInfix (lit "omitempty") (f_json f)).

(** The [time.Duration] formats that are strings on the wire. *)
Definition durationShape (f : rfield) (s : shape) : shape :=
  if isDuration (f_type f) &&
     (bool_decide (jsonFormatOption f = lit "units") || bool_decide (jsonFormatOption f = lit "iso8601"))
  then Shape (if isNullable f then orNull (txt "string") else txt "string") GkString GkNone [] (sp_len s)
  else s.

Definition byteShape (f : rfield) (s : shape) : shape :=
  let t := f_type f in
  if isByteSlice t || isByteArray t then
    match jsonFormatOption f with
    | [] =>
        if isUnnamedByteSlice t || isByteArray t then Shape (sp_ts s) GkString GkNone [] 0 else s
    | format =>
        match byteSliceFormatShape format with
        | None => s
        | Some true =>
            if isByteArray t then Shape (tsTupleOrArray (txt "number") (sp_len s)) GkArray GkUint [] (sp_len s)
            else Shape (txt "number[]") GkSlice GkUint [] (sp_len s)
        | Some false => Shape (txt "string") GkString GkNone [] (sp_len s)
        end
    end
  else s.

Definition fieldShape (f : rfield) : shape :=
  let t := f_type f in
  let ts := goTypeToTS t in
  let ts := if isNullable f then if hasSuffix (lit " | null") (render ts) then ts else orNull ts else ts in
  byteShape f (durationShape f (Shape ts (goKindString t) (elemTypeInfo t).1 (elemTypeInfo t).2 (arrayLen t))).

(** One field of [collectInterfaceFields] that is not flattened. *)
Definition interfaceField (owner : string) (f : rfield) : fieldData :=
  let f := retype (effectiveFieldType owner f) f in
  let s := fieldShape f in
  FieldData (tsObjectKey (Quote isPrint) (jsonFieldName f)) (sp_ts s) (isOptional f && negb (isNullable f)) (sp_kind s)
    (f_validate f) (SQLNullGoKind (f_type f)) (sp_elem s) (sp_elemName s) (sp_len s)
    (lookupEnum (f_type f)) (lookupElemEnum (f_type f)) (isNullable f) false.

(** A struct type to flatten into the outer interface; one without a name has no fields in
    this model. *)
Definition flattened (f : rfield) : option (option string) :=
  if f_anonymous f then
    match deref (f_type f) with
    | RStruct id | RNull id _ => Some (Some id)
    | RAnonStruct => Some None
    | _ => None
    end
  else None.

(** The fuel is for embedding: a struct that embeds a pointer to itself has no end. *)
Fixpoint collectInterfaceFields (fuel : nat) (id : string) : option (list fieldData) :=
  match fuel with
  | O => None
  | S fuel =>
      foldr (λ f acc,
        rest ← acc;
        if skipped f then Some rest
        else
          match flattened f with
          | Some (Some ft) => fs ← collectInterfaceFields fuel ft; Some (fs ++ rest)
          | Some None => Some rest
          | None => Some (interfaceField id f :: rest)
          end) (Some []) (fieldsOf id)
  end.

(** ** Collection *)

(** [g.types] and [g.collectedEnums]. *)
Record collected := Collected { c_types : gset string; c_enums : gset string }.

Definition addEnum (t : rtype) (c : collected) : collected :=
  match typeId t, lookupType t with
  | Some id, Some _ => Collected (c_types c) ({[id]} ∪ c_enums c)
  | _, _ => c
  end.

Section Nested.
  (** [collectType]. *)
  Context (collectType : string → collected → option collected).

Fixpoint collectNestedType (t : rtype) (c : collected) : option collected :=
  let c := addEnum (deref t) c in
  match t with
  | RPtr (RStruct id as u) | RStruct id as u | RPtr (RNull id _ as u) | RNull id _ as u =>
      if hasMarshalOverride u then Some c else collectType id c
  | RSlice _ e | RArray _ _ e | RMap _ _ e => collectNestedType e c
  | RPtr (RSlice _ e) | RPtr (RArray _ _ e) | RPtr (RMap _ _ e) => collectNestedType e c
  | _ => Some c
  end.

(** The fields of an embedded struct are collected one level deep. *)
Definition collectEmbedded (f : rfield) (c : collected) : option collected :=
  match deref (f_type f) with
  | RStruct id as u | RNull id _ as u =>
      if hasMarshalOverride u then Some c
      else
        foldl (λ oc ef, c ← oc; if skipped ef then Some c else collectNestedType (effectiveFieldType id ef) c)
          (Some c) (fieldsOf id)
  | _ => Some c
  end.

Definition collectFields (id : string) (c : collected) : option collected :=
  foldl (λ oc f,
    c ← oc;
    if skipped f then Some c
    else if f_anonymous f then collectEmbedded f c
    else collectNestedType (effectiveFieldType id f) c) (Some c) (fieldsOf id).

End Nested.

Fixpoint collectType (fuel : nat) (id : string) (c : collected) : option collected :=
  match fuel with
  | O => None
  | S fuel =>
      if bool_decide (id = voidResponseType) || bool_decide (id = blobType) || bool_decide (id ∈ c_types c)
      then Some c
      else collectFields (collectType fuel) id (Collected ({[id]} ∪ c_types c) (c_enums c))
  end.

(** ** Facts *)

(** *** Names *)

Lemma names_app a b : names (a ++ b) = names a ++ names b.
Proof. apply omap_app. Qed.

Lemma names_txt s : names (txt s) = [].
Proof. done. Qed.

Lemma names_listOf e : names (listOf e) = names e.
Proof.
  unfold listOf. destruct (isUnion e); rewrite !names_app, !names_txt; cbn [app]; by rewrite app_nil_r.
Qed.

Lemma names_join es n :
  n ∈ names (joinComma es (txt ", ")) → ∃ e, e ∈ es ∧ n ∈ names e.
Proof.
  induction es as [|e [|e' es] IH]; [by intros ?%not_elem_of_nil|intros Hn; exists e; split; [by left|done]|].
  cbn [joinComma]. rewrite !names_app, names_txt. cbn [app]. intros [Hn|Hn]%elem_of_app.
  - exists e. split; [by left|done].
  - destruct (IH Hn) as (x & Hx & ?). exists x. split; [by right|done].
Qed.

Lemma names_tuple e k n : n ∈ names (tsTupleOrArray e k) → n ∈ names e.
Proof.
  unfold tsTupleOrArray. case_bool_decide; [by rewrite names_listOf|].
  rewrite !names_app, !names_txt, app_nil_r. cbn [app].
  by intros (x & [-> _]%elem_of_replicate & Hn)%names_join.
Qed.

Lemma names_orNull e : names (orNull e) = names e.
Proof. unfold orNull. rewrite names_app, names_txt. by rewrite app_nil_r. Qed.

(** What the shape of a field refers to is what its type refers to. *)
Lemma fieldShape_names f n : n ∈ names (sp_ts (fieldShape f)) → n ∈ names (goTypeToTS (f_type f)).
Proof.
  unfold fieldShape. set (ts := if isNullable f then _ else _).
  assert (names ts = names (goTypeToTS (f_type f))) as Hts.
  { unfold ts. destruct (isNullable f); [|done]. destruct (hasSuffix _ _); [done|apply names_orNull]. }
  assert (∀ s, names (sp_ts s) = names (goTypeToTS (f_type f)) →
    n ∈ names (sp_ts (durationShape f s)) → n ∈ names (goTypeToTS (f_type f))) as Hd.
  { intros s <-. unfold durationShape. destruct (_ && _); [|done]. cbn [sp_ts].
    intros Hn. destruct (isNullable f); [rewrite names_orNull in Hn|]; by apply not_elem_of_nil in Hn. }
  unfold byteShape. set (s := durationShape f _). specialize (Hd (Shape ts (goKindString (f_type f))
    (elemTypeInfo (f_type f)).1 (elemTypeInfo (f_type f)).2 (arrayLen (f_type f))) Hts).
  destruct (isByteSlice _ || isByteArray _); [|exact Hd].
  destruct (jsonFormatOption f) as [|r l]; [destruct (_ || _); exact Hd|].
  destruct (byteSliceFormatShape _) as [[|]|]; [|by intros ?%not_elem_of_nil|exact Hd].
  destruct (isByteArray _); [|by intros ?%not_elem_of_nil].
  cbn [sp_ts]. by intros ?%names_tuple%not_elem_of_nil.
Qed.

(** *** What collection covers *)

(** The names an output file declares for what was collected. *)
Definition declares (c : collected) (n : tsName) : Prop :=
  match enumTypes !! n.2 with
  | Some e => n.2 ∈ c_enums c ∧ enumName e = n.1
  | None => n.2 ∈ c_types c ∧ typeName n.2 = n.1
  end.

Definition grows (c c' : collected) : Prop := c_types c ⊆ c_types c' ∧ c_enums c ⊆ c_enums c'.

#[export] Instance collected_preorder : PreOrder grows.
Proof. split; [by split|]. intros a b d [H1 H2] [H3 H4]. split; by etrans. Qed.

Lemma declares_mono c c' n : grows c c' → declares c n → declares c' n.
Proof.
  intros [Ht He]. unfold declares. destruct (enumTypes !! n.2); intros [Hid Hn]; split; try done; auto.
Qed.

Lemma addEnum_grows t c : grows c (addEnum t c).
Proof.
  unfold addEnum. destruct (typeId t), (lookupType t); try done.
  split; [done|]. apply union_subseteq_r.
Qed.

Lemma addEnum_declares t c e :
  lookupType t = Some e → declares (addEnum t c) (enumName e, default "" (typeId t)).
Proof.
  unfold addEnum, lookupType. destruct (typeId t) as [id|]; [|done]. cbn [mbind option_bind].
  intros He. rewrite He. unfold declares. change (enumName e, default "" (Some id)).2 with id. rewrite He.
  split; [by apply elem_of_union_l, elem_of_singleton|done].
Qed.

Definition special (id : string) : bool := bool_decide (id = voidResponseType) || bool_decide (id = blobType).

(** The types collection follows as far as printing does: printing also reaches a map's
    key, the argument of sql.Null and what is behind two pointers. *)
Fixpoint collectable (t : rtype) : Prop :=
  match t with
  | RPtr u => match u with RPtr _ => names (goTypeToTS u) = [] | _ => collectable u end
  | RMap _ k e => names (goTypeToTS k) = [] ∧ collectable e
  | RSlice _ e | RArray _ _ e => collectable e
  | RNull _ v => names (goTypeToTS v) = []
  | RStruct id => id ≠ voidResponseType
  | RBasic _ _ | RAnonStruct | RInterface => True
  end.

Section Covers.
  Context (ct : string → collected → option collected).
  Context (Hct : ∀ id c c', ct id c = Some c' → grows c c' ∧ (special id = false → id ∈ c_types c')).

Lemma nested_ptr t c : isPtr t = false → collectNestedType ct (RPtr t) c = collectNestedType ct t c.
Proof. by destruct t. Qed.

Lemma nested_ptr_ptr t c : collectNestedType ct (RPtr (RPtr t)) c = Some c.
Proof. done. Qed.

Lemma struct_grows u id c c' :
  (if hasMarshalOverride u then Some c else ct id c) = Some c' → grows c c'.
Proof. destruct (hasMarshalOverride u); [by intros [= ->]|by intros [? _]%Hct]. Qed.

Lemma nested_grows t c c' : collectNestedType ct t c = Some c' → grows c c'.
Proof.
  revert c c'. induction t as [k o|t IH|o e IH|o m e IH|o k _ e IH|id|id v _| |]; intros c c' Hc.
  2:{ destruct (isPtr t) eqn:Hp; [|rewrite nested_ptr in Hc by done; by apply IH].
      destruct t; try done. rewrite nested_ptr_ptr in Hc. by injection Hc as ->. }
  all: cbn [collectNestedType deref] in Hc.
  all: etrans; [apply addEnum_grows|].
  all: first [by eapply IH|by eapply struct_grows|injection Hc as <-; done].
Qed.

End Covers.

(** Where a printed name comes from. *)
Definition below (t : rtype) (n : tsName) : Prop :=
  match t with
  | RPtr u => n ∈ names (goTypeToTS u) ∨ ∃ id v, u = RNull id v ∧ n ∈ names (goTypeToTS v)
  | RSlice _ e | RArray _ _ e => n ∈ names (goTypeToTS e)
  | RMap _ k e => n ∈ names (goTypeToTS k) ∨ n ∈ names (goTypeToTS e)
  | RStruct id => n = (typeName id, id) ∧ enumTypes !! id = None ∧ hasMarshalOverride t = false ∧ id ≠ blobType
  | RNull _ v => n ∈ names (goTypeToTS v)
  | RBasic _ _ | RAnonStruct | RInterface => False
  end.

Lemma names_one s n : n ∉ names [TsTxt s].
Proof. apply not_elem_of_nil. Qed.

Lemma names_wrap a b e n : n ∈ names (txt a ++ e ++ txt b) → n ∈ names e.
Proof. rewrite !names_app, !names_txt. cbn [app]. by rewrite app_nil_r. Qed.

Lemma goTypeToTS_names t n :
  n ∈ names (goTypeToTS t) → (∃ e, lookupType t = Some e ∧ n = (enumName e, default "" (typeId t))) ∨ below t n.
Proof.
  destruct t as [k o|u|o e|o m e|o k e|id|id v| |]; cbn [goTypeToTS];
    (destruct (lookupType _) as [en|] eqn:He;
      [intros Hn; left; exists en; split; [done|by apply list_elem_of_singleton in Hn]|]);
    intros Hn; right; cbn [below];
    (destruct (infer _) as [mt|] eqn:Hi; [|destruct (isRawJSON _); [by apply names_one in Hn|]]).
  all: try (by apply names_one in Hn).
  - by destruct k; apply names_one in Hn.
  - destruct u as [k o|u|o e|o m e|o k e|id|id v| |]; try (by left).
    + left. destruct (sqlNullBase id) as [b|]; [|done].
      rewrite names_app, !names_txt in Hn. by apply not_elem_of_nil in Hn.
    + right. exists id, v. split; [done|]. by rewrite names_app, names_txt, app_nil_r in Hn.
  - destruct (hasSuffix _ mt); [by rewrite names_listOf in Hn|by apply names_one in Hn].
  - destruct (isUnnamedByteSlice _); [by apply names_one in Hn|by rewrite names_listOf in Hn].
  - destruct (isByteArray _); [by apply names_one in Hn|by apply names_tuple in Hn].
  - assert (n ∈ names (txt "Record<" ++ goTypeToTS k ++ txt ", " ++ goTypeToTS e ++ txt ">") →
      n ∈ names (goTypeToTS k) ∨ n ∈ names (goTypeToTS e)) as Hrec.
    { rewrite !names_app, !names_txt, app_nil_r. cbn [app]. by intros [?|?]%elem_of_app; [left|right]. }
    destruct k as [[] ?|?|? ?|? ? ?|? ? ?|?|? ?| |]; try (by apply Hrec).
    right. rewrite !names_app, names_txt, app_nil_r in Hn. exact Hn.
  - unfold hasMarshalOverride. rewrite Hi. cbn [SQLNullTSType deref].
    destruct (sqlNullBase id) as [b|]; [rewrite names_app, !names_txt in Hn; by apply not_elem_of_nil in Hn|].
    case_bool_decide; [by apply names_one in Hn|].
    apply list_elem_of_singleton in Hn. by split_and!.
  - by rewrite names_app, names_txt, app_nil_r in Hn.
Qed.

Section Declares.
  Context (ct : string → collected → option collected).
  Context (Hct : ∀ id c c', ct id c = Some c' → grows c c' ∧ (special id = false → id ∈ c_types c')).

Lemma nested_enum t c c' e :
  isPtr t = false → lookupType t = Some e → collectNestedType ct t c = Some c' →
  declares c' (enumName e, default "" (typeId t)).
Proof.
  intros Hp He Hc. apply (declares_mono (addEnum t c)); [|by apply addEnum_declares].
  destruct t; try done; cbn [collectNestedType deref] in Hc;
    first [by eapply nested_grows|by eapply struct_grows|injection Hc as <-; done].
Qed.

Lemma nested_declares t c c' n :
  collectable t → collectNestedType ct t c = Some c' → n ∈ names (goTypeToTS t) → declares c' n.
Proof.
  revert c c'. induction t as [k o|t IH|o e IH|o m e IH|o k _ e IH|id|id v _| |]; intros c c' Hk Hc Hn;
    (apply goTypeToTS_names in Hn as [(en & He & ->)|Hn]; [first [(refine (nested_enum _ c c' en _ He Hc); done)|cbn in He; discriminate He]|]);
    cbn [below] in Hn; try done.
  - destruct Hn as [Hn|(id & v & -> & Hn)].
    + cbn [collectable] in Hk. destruct (isPtr t) eqn:Hp.
      * destruct t; try done. rewrite Hk in Hn. by apply not_elem_of_nil in Hn.
      * rewrite nested_ptr in Hc by done. eapply IH; [by destruct t|done|done].
    + cbn [collectable] in Hk. rewrite Hk in Hn. by apply not_elem_of_nil in Hn.
  - by eapply IH.
  - by eapply IH.
  - destruct Hk as [Hk1 Hk2]. destruct Hn as [Hn|Hn]; [rewrite Hk1 in Hn; by apply not_elem_of_nil in Hn|].
    by eapply IH.
  - destruct Hn as (-> & He & Ho & Hb). cbn [collectNestedType deref] in Hc. rewrite Ho in Hc.
    unfold declares. cbn [fst snd]. rewrite He. split; [|done]. eapply Hct; [done|]. unfold special.
    rewrite !bool_decide_false by done. done.
  - cbn [collectable] in Hk. rewrite Hk in Hn. by apply not_elem_of_nil in Hn.
Qed.

End Declares.

(** *** Obligations *)

(** The fields collection handles as printing does. Left out are a struct whose encoding is
    overridden but that is embedded, a codegen override on an embedded struct, and an
    embedded type of another kind that refers to other types. *)
Definition regularField (id : string) (f : rfield) : Prop :=
  match flattened f with
  | Some (Some ft) =>
      hasMarshalOverride (deref (f_type f)) = false ∧ fieldTypeOverride id (f_name f) = None ∧ special ft = false
  | Some None => True
  | None =>
      if f_anonymous f then names (goTypeToTS (effectiveFieldType id f)) = []
      else collectable (effectiveFieldType id f)
  end.

Definition regular (id : string) : Prop := ∀ f, f ∈ fieldsOf id → skipped f = false → regularField id f.

(** The names of one field are declared; a struct embedded in an embedded one is collected. *)
Definition fieldMet (id : string) (c : collected) (f : rfield) : Prop :=
  match flattened f with
  | Some (Some ft) => ft ∈ c_types c
  | Some None => True
  | None => ∀ n, n ∈ names (goTypeToTS (effectiveFieldType id f)) → declares c n
  end.

(** What has to be collected along with a struct. *)
Definition met (id : string) (c : collected) : Prop :=
  ∀ f, f ∈ fieldsOf id → skipped f = false →
    match flattened f with
    | Some (Some ft) => ∀ ef, ef ∈ fieldsOf ft → skipped ef = false → fieldMet ft c ef
    | _ => fieldMet id c f
    end.

Lemma fieldMet_mono id c c' f : grows c c' → fieldMet id c f → fieldMet id c' f.
Proof.
  intros Hg. unfold fieldMet. destruct (flattened f) as [[ft|]|]; [apply Hg|done|].
  intros Hm n Hn. eapply declares_mono; [done|by apply Hm].
Qed.

Lemma met_mono id c c' : grows c c' → met id c → met id c'.
Proof.
  intros Hg Hm f Hf Hs. specialize (Hm f Hf Hs). destruct (flattened f) as [[ft|]|].
  - intros ef Hef Hse. eapply fieldMet_mono; [done|]. by apply Hm.
  - by eapply fieldMet_mono.
  - by eapply fieldMet_mono.
Qed.

(** A loop over fields: what each step establishes holds at the end. *)
Lemma fields_loop (step : rfield → collected → option collected) (Q : collected → rfield → Prop) fs c c' :
  (∀ f c c', f ∈ fs → skipped f = false → step f c = Some c' → grows c c' ∧ Q c' f) →
  (∀ f c c', grows c c' → Q c f → Q c' f) →
  foldl (λ oc f, c ← oc; if skipped f then Some c else step f c) (Some c) fs = Some c' →
  grows c c' ∧ ∀ f, f ∈ fs → skipped f = false → Q c' f.
Proof.
  intros Hstep Hmono. revert c. induction fs as [|f fs IH]; intros c; cbn [foldl].
  - intros [= ->]. split; [done|]. by intros f ?%not_elem_of_nil.
  - cbn [mbind option_bind]. destruct (skipped f) eqn:Hs; intros Hf.
    + destruct (IH (λ f c c' Hf, Hstep f c c' (list_elem_of_further _ _ _ Hf)) c Hf) as [Hg HQ].
      split; [done|]. intros x [->|Hx]%elem_of_cons Hsx; [by rewrite Hs in Hsx|by apply HQ].
    + destruct (step f c) as [c1|] eqn:E.
      2:{ exfalso. revert Hf. clear. induction fs as [|g fs IH]; [done|]. cbn [foldl]. apply IH. }
      destruct (Hstep f c c1 (list_elem_of_here _ _) Hs E) as [Hg1 HQ1].
      destruct (IH (λ f c c' Hf, Hstep f c c' (list_elem_of_further _ _ _ Hf)) c1 Hf) as [Hg HQ].
      split; [by etrans|]. intros x [->|Hx]%elem_of_cons Hsx; [by eapply Hmono|by apply HQ].
Qed.

Section Struct.
  Context (ct : string → collected → option collected).
  Context (Hct : ∀ id c c', ct id c = Some c' → grows c c' ∧ (special id = false → id ∈ c_types c')).
  Context (Hreg : ∀ id, regular id).

Lemma flattened_type f ft :
  flattened f = Some (Some ft) →
  f_anonymous f = true ∧ (deref (f_type f) = RStruct ft ∨ ∃ v, deref (f_type f) = RNull ft v).
Proof.
  unfold flattened. destruct (f_anonymous f); [|done]. destruct (deref (f_type f)); try done;
    intros [= ->]; split; auto; right; by eexists.
Qed.

(** An embedded struct, met as a field's type. *)
Lemma nested_embedded id f ft c c' :
  regularField id f → flattened f = Some (Some ft) →
  collectNestedType ct (effectiveFieldType id f) c = Some c' → ft ∈ c_types c'.
Proof.
  intros Hr Hf. unfold regularField in Hr. rewrite Hf in Hr. destruct Hr as (Ho & Hov & Hsp).
  unfold effectiveFieldType. rewrite Hov. apply flattened_type in Hf as [_ Hd].
  assert (∀ c, collectNestedType ct (f_type f) c = ct ft (addEnum (deref (f_type f)) c)) as Heq.
  { intros c0. destruct (f_type f) as [|u| | | | | | |]; try (by destruct Hd as [?|[??]]);
      [destruct u; try (by destruct Hd as [?|[??]])|..];
      (destruct Hd as [[= ->]|[v [= ->]]] || destruct Hd as [?|[v [= -> ->]]]);
      cbn [collectNestedType deref] in *; by rewrite Ho. }
  rewrite Heq. intros Hc. by eapply Hct.
Qed.

Lemma nested_fieldMet id f c c' :
  f ∈ fieldsOf id → skipped f = false →
  collectNestedType ct (effectiveFieldType id f) c = Some c' → fieldMet id c' f.
Proof.
  intros Hf Hs Hc. pose proof (Hreg id f Hf Hs) as Hr. unfold fieldMet.
  destruct (flattened f) as [[ft|]|] eqn:E; [by eapply nested_embedded|done|].
  unfold regularField in Hr. rewrite E in Hr. intros n Hn.
  destruct (f_anonymous f); [rewrite Hr in Hn; by apply not_elem_of_nil in Hn|]. by eapply nested_declares.
Qed.

Lemma collectEmbedded_met id f c c' :
  f ∈ fieldsOf id → skipped f = false → f_anonymous f = true → collectEmbedded ct f c = Some c' →
  grows c c' ∧ match flattened f with
               | Some (Some ft) => ∀ ef, ef ∈ fieldsOf ft → skipped ef = false → fieldMet ft c' ef
               | _ => fieldMet id c' f
               end.
Proof.
  intros Hf Hs Ha Hc. pose proof (Hreg id f Hf Hs) as Hr. unfold regularField in Hr.
  unfold collectEmbedded in Hc. unfold fieldMet. unfold flattened in *. rewrite Ha in *.
  assert (∀ ft, foldl (λ oc ef, c ← oc; if skipped ef then Some c
                          else collectNestedType ct (effectiveFieldType ft ef) c) (Some c) (fieldsOf ft) = Some c' →
            grows c c' ∧ ∀ ef, ef ∈ fieldsOf ft → skipped ef = false → fieldMet ft c' ef) as Hloop.
  { intros ft. apply (fields_loop (λ ef, collectNestedType ct (effectiveFieldType ft ef)) (λ c, fieldMet ft c)).
    - intros ef c1 c2 Hef Hse Hn. split; [by eapply nested_grows|by eapply nested_fieldMet].
    - intros ef c1 c2. apply fieldMet_mono. }
  destruct (deref (f_type f)) as [k o|u|o e|o m e|o k e|ft|ft v| |];
    try (destruct Hr as (Ho & _ & _); rewrite Ho in Hc; exact (Hloop ft Hc));
    injection Hc as <-; split; try done; rewrite Hr; intros n Hn; by apply not_elem_of_nil in Hn.
Qed.

Lemma collectFields_met id c c' : collectFields ct id c = Some c' → grows c c' ∧ met id c'.
Proof.
  unfold collectFields. intros Hc.
  destruct (fields_loop (λ f c, if f_anonymous f then collectEmbedded ct f c
                                else collectNestedType ct (effectiveFieldType id f) c)
    (λ c f, match flattened f with
            | Some (Some ft) => ∀ ef, ef ∈ fieldsOf ft → skipped ef = false → fieldMet ft c ef
            | _ => fieldMet id c f
            end) (fieldsOf id) c c') as [Hg Hm]; [| |exact Hc|].
  - intros f c1 c2 Hf Hs. destruct (f_anonymous f) eqn:Ha; [by apply collectEmbedded_met|].
    intros Hn. split; [by eapply nested_grows|].
    assert (flattened f = None) as Hfl by (unfold flattened; by rewrite Ha). rewrite Hfl.
    by eapply nested_fieldMet.
  - intros f c1 c2 Hg. destruct (flattened f) as [[ft|]|]; [|by apply fieldMet_mono..].
    intros Hm ef Hef Hse. eapply fieldMet_mono; [done|]. by apply Hm.
  - split; [done|]. intros f Hf Hs. by apply Hm.
Qed.

End Struct.

(** *** Closure *)

Section Relation.
  Context (ct : string → collected → option collected) (R : collected → collected → Prop).
  Context `{!PreOrder R} (Henum : ∀ t c, R c (addEnum t c)) (Hct : ∀ id c c', ct id c = Some c' → R c c').

Lemma nested_rel t c c' : collectNestedType ct t c = Some c' → R c c'.
Proof.
  revert c c'. induction t as [k o|t IH|o e IH|o m e IH|o k _ e IH|id|id v _| |]; intros c c' Hc.
  2:{ destruct (isPtr t) eqn:Hp; [|rewrite nested_ptr in Hc by done; by apply IH].
      destruct t; try done. rewrite nested_ptr_ptr in Hc. by injection Hc as ->. }
  all: cbn [collectNestedType deref] in Hc.
  all: etrans; [apply Henum|].
  5,6: destruct (hasMarshalOverride _); [by injection Hc as <-|by eapply Hct].
  all: first [by eapply IH|by injection Hc as <-].
Qed.

Lemma foldl_rel (step : rfield → collected → option collected) fs c c' :
  (∀ f c c', step f c = Some c' → R c c') →
  foldl (λ oc f, c ← oc; if skipped f then Some c else step f c) (Some c) fs = Some c' → R c c'.
Proof.
  intros Hstep. revert c. induction fs as [|f fs IH]; intros c; cbn [foldl]; [by intros [= ->]|].
  cbn [mbind option_bind]. destruct (skipped f); [apply IH|].
  destruct (step f c) as [c1|] eqn:E.
  - intros Hf. etrans; [by eapply Hstep|by apply IH].
  - intros Hf. exfalso. revert Hf. clear. induction fs as [|g fs IH]; [done|]. cbn [foldl]. apply IH.
Qed.

Lemma collectFields_rel id c c' : collectFields ct id c = Some c' → R c c'.
Proof.
  apply foldl_rel. intros f c1 c2. destruct (f_anonymous f); [|apply nested_rel].
  unfold collectEmbedded.
  destruct (deref (f_type f)); try (by intros [= ->]);
    (destruct (hasMarshalOverride _); [by intros [= ->]|]); apply foldl_rel; intros; by eapply nested_rel.
Qed.

End Relation.

(** Everything a step adds has its obligations met. *)
Definition complete (c c' : collected) : Prop :=
  grows c c' ∧ ∀ x, x ∈ c_types c' → x ∉ c_types c → met x c'.

#[export] Instance complete_preorder : PreOrder complete.
Proof.
  split; [by split|]. intros a b d [Hg Hm] [Hg' Hm']. split; [by etrans|]. intros x Hx Hna.
  destruct (decide (x ∈ c_types b)) as [Hb|Hb]; [|by apply Hm'].
  eapply met_mono; [exact Hg'|]. by apply Hm.
Qed.

Lemma addEnum_complete t c : complete c (addEnum t c).
Proof.
  split; [apply addEnum_grows|]. intros x Hx Hn. exfalso. apply Hn. revert Hx. unfold addEnum.
  by destruct (typeId t), (lookupType t).
Qed.

Lemma collectType_complete fuel id c c' :
  (∀ id, regular id) → collectType fuel id c = Some c' →
  complete c c' ∧ (special id = false → id ∈ c_types c').
Proof.
  intros Hreg. revert id c c'. induction fuel as [|fuel IH]; intros id c c'; [done|].
  cbn [collectType].
  change (bool_decide (id = voidResponseType) || bool_decide (id = blobType)) with (special id).
  destruct (special id) eqn:Hsp; cbn [orb].
  { intros Hc. injection Hc as <-. by split. }
  case_bool_decide as Hin.
  { intros Hc. injection Hc as <-. by split. }
  intros Hc.
  destruct (collectFields_met (collectType fuel)) with (id := id)
    (c := Collected ({[id]} ∪ c_types c) (c_enums c)) (c' := c') as [Hg Hm]; [|exact Hreg|exact Hc|].
  { intros x c1 c2 Hx. apply IH in Hx as [[Hg _] Hi]. split; [done|exact Hi]. }
  apply (collectFields_rel _ complete) in Hc as [_ Hnew]; [|apply addEnum_complete|].
  2:{ intros x c1 c2 Hx. by apply IH in Hx as [Hx _]. }
  split; [split|].
  - etrans; [|exact Hg]. split; [apply union_subseteq_r|done].
  - intros x Hx Hnx. destruct (decide (x = id)) as [->|Hne]; [done|]. apply Hnew; [done|].
    intros [->%elem_of_singleton|?]%elem_of_union; done.
  - intros _. apply Hg. by apply elem_of_union_l, elem_of_singleton.
Qed.

Definition closed (c : collected) : Prop := ∀ x, x ∈ c_types c → met x c.

Lemma complete_closed c c' : complete c c' → closed c → closed c'.
Proof.
  intros [Hg Hm] Hc x Hx. destruct (decide (x ∈ c_types c)) as [Hin|Hin]; [|by apply Hm].
  eapply met_mono; [exact Hg|]. by apply Hc.
Qed.

(** *** Interfaces *)

Definition fieldNames (fd : fieldData) : list tsName := names (fd_Type fd).

Lemma interfaceField_names id f n :
  n ∈ fieldNames (interfaceField id f) → n ∈ names (goTypeToTS (effectiveFieldType id f)).
Proof. intros Hn. by apply fieldShape_names in Hn. Qed.

Lemma interfaceFields_inv fuel id fs fd :
  collectInterfaceFields (S fuel) id = Some fs → fd ∈ fs →
  ∃ f, f ∈ fieldsOf id ∧ skipped f = false ∧
    match flattened f with
    | Some (Some ft) => ∃ fs', collectInterfaceFields fuel ft = Some fs' ∧ fd ∈ fs'
    | Some None => False
    | None => fd = interfaceField id f
    end.
Proof.
  cbn [collectInterfaceFields]. revert fs. induction (fieldsOf id) as [|f l IH]; intros fs; cbn [foldr].
  { intros [= <-]. by intros ?%not_elem_of_nil. }
  destruct (foldr _ _ l) as [rest|]; [|done]. cbn [mbind option_bind].
  assert (fd ∈ rest → ∃ f', f' ∈ f :: l ∧ skipped f' = false ∧
    match flattened f' with
    | Some (Some ft) => ∃ fs', collectInterfaceFields fuel ft = Some fs' ∧ fd ∈ fs'
    | Some None => False
    | None => fd = interfaceField id f'
    end) as Hrest.
  { intros Hin. destruct (IH rest eq_refl Hin) as (f' & Hf' & Hs & Hm). exists f'. split; [by right|done]. }
  destruct (skipped f) eqn:Hs; [by intros [= <-]|].
  destruct (flattened f) as [[ft|]|] eqn:Hfl.
  - destruct (collectInterfaceFields fuel ft) as [fs'|] eqn:E; [|done]. cbn [mbind option_bind].
    intros [= <-]. intros [Hin|Hin]%elem_of_app; [|by apply Hrest].
    exists f. split; [by left|]. split; [done|]. rewrite Hfl. by exists fs'.
  - by intros [= <-].
  - intros [= <-]. intros [->|Hin]%elem_of_cons; [|by apply Hrest].
    exists f. split; [by left|]. split; [done|]. by rewrite Hfl.
Qed.

Lemma interface_closed c fuel id fs fd n :
  closed c → id ∈ c_types c → collectInterfaceFields fuel id = Some fs → fd ∈ fs → n ∈ fieldNames fd →
  declares c n.
Proof.
  intros Hcl. revert id fs. induction (lt_wf fuel) as [fuel _ IH]. intros id fs Hid Hfs Hfd Hn.
  destruct fuel as [|fuel]; [done|].
  destruct (interfaceFields_inv fuel id fs fd Hfs Hfd) as (f & Hf & Hs & Hm).
  pose proof (Hcl id Hid f Hf Hs) as Hmet. destruct (flattened f) as [[ft|]|] eqn:Hfl; [|done|].
  - destruct Hm as (fs' & Hfs' & Hfd'). destruct fuel as [|fuel]; [done|].
    destruct (interfaceFields_inv fuel ft fs' fd Hfs' Hfd') as (ef & Hef & Hse & Hm').
    specialize (Hmet ef Hef Hse). unfold fieldMet in Hmet.
    destruct (flattened ef) as [[ft'|]|]; [|done|].
    + destruct Hm' as (fs'' & Hfs'' & Hfd''). by apply (IH fuel ltac:(lia) ft' fs'').
    + subst fd. apply Hmet. by apply interfaceField_names.
  - subst fd. unfold fieldMet in Hmet. rewrite Hfl in Hmet. apply Hmet. by apply interfaceField_names.
Qed.

(** Embedding without end does not occur: as much fuel as the nesting is deep is enough. *)
Lemma collectInterfaceFields_ends (depth : string → nat) fuel id :
  (∀ id f ft, f ∈ fieldsOf id → flattened f = Some (Some ft) → depth ft < depth id) → depth id < fuel →
  is_Some (collectInterfaceFields fuel id).
Proof.
  intros Hd. revert id. induction fuel as [|fuel IH]; intros id Hf; [lia|]. cbn [collectInterfaceFields].
  assert (∀ f ft, f ∈ fieldsOf id → flattened f = Some (Some ft) → is_Some (collectInterfaceFields fuel ft)) as Hrec
    by (intros f ft Hin Hfl; apply IH; pose proof (Hd id f ft Hin Hfl); lia).
  revert Hrec. clear. induction (fieldsOf id) as [|f l IHl]; intros Hrec; cbn [foldr]; [by eexists|].
  destruct IHl as [rest ->]; [intros g ft Hg; apply (Hrec g); by right|]. cbn [mbind option_bind].
  destruct (skipped f); [by eexists|]. destruct (flattened f) as [[ft|]|] eqn:E; [|by eexists..].
  destruct (Hrec f ft (list_elem_of_here _ _) E) as [fs ->]. by eexists.
Qed.

(** *** Termination *)

Section Universe.
  Context (U : gset string).

Definition inU (t : rtype) : Prop := match structOf t with Some id => id ∈ U | None => True end.

Context (Henv : ∀ id f, id ∈ U → f ∈ fieldsOf id → inU (f_type f) ∧ inU (effectiveFieldType id f)).

Definition left_ (c : collected) : nat := size (U ∖ c_types c).

Lemma left_le c c' : grows c c' → left_ c' ≤ left_ c.
Proof.
  intros [Hg _]. unfold left_. apply subseteq_size. intros x [Hx Hn]%elem_of_difference.
  apply elem_of_difference. split; [done|]. intros ?. by apply Hn, Hg.
Qed.

Section Ends.
  Context (ct : string → collected → option collected) (k : nat).
  Context (Hgrow : ∀ id c c', ct id c = Some c' → grows c c').
  Context (Hends : ∀ id c, id ∈ U → left_ c < k → is_Some (ct id c)).

Lemma nested_ends t c : inU t → left_ c < k → is_Some (collectNestedType ct t c).
Proof.
  revert c. induction t as [b o|t IH|o e IH|o m e IH|o kt _ e IH|id|id v _| |]; intros c Hu Hk;
    assert (∀ u, left_ (addEnum u c) < k) as Hk' by
      (intros u; eapply Nat.le_lt_trans; [apply left_le, (addEnum_grows u)|exact Hk]).
  2:{ destruct (isPtr t) eqn:Hp; [destruct t; try done; rewrite nested_ptr_ptr; by eexists|].
      rewrite nested_ptr by done. by apply IH. }
  all: cbn [collectNestedType deref].
  5,6: destruct (hasMarshalOverride _); [by eexists|by apply Hends].
  all: first [by apply IH|by eexists].
Qed.

Lemma loop_ends (step : rfield → collected → option collected) fs c :
  (∀ f c, f ∈ fs → left_ c < k → ∃ c', step f c = Some c' ∧ grows c c') → left_ c < k →
  is_Some (foldl (λ oc f, c ← oc; if skipped f then Some c else step f c) (Some c) fs).
Proof.
  intros Hstep. revert c. induction fs as [|f fs IH]; intros c Hk; cbn [foldl]; [by eexists|].
  cbn [mbind option_bind].
  assert (∀ g c, g ∈ fs → left_ c < k → ∃ c', step g c = Some c' ∧ grows c c') as Hs'
    by (intros g c0 Hg; apply Hstep; by right).
  destruct (skipped f); [by apply IH|].
  destruct (Hstep f c) as (c' & -> & Hg); [by left|done|]. apply IH; [done|].
  eapply Nat.le_lt_trans; [by apply left_le|done].
Qed.

Lemma fields_end id c : id ∈ U → left_ c < k → is_Some (collectFields ct id c).
Proof.
  intros Hid Hk.
  assert (∀ t c, inU t → left_ c < k → ∃ c', collectNestedType ct t c = Some c' ∧ grows c c') as Hn.
  { intros t c0 Ht Hk0. destruct (nested_ends t c0 Ht Hk0) as [c' Hc]. exists c'. split; [done|].
    by eapply (nested_rel ct grows addEnum_grows Hgrow). }
  assert (∀ ft c, ft ∈ U → left_ c < k → ∃ c', foldl (λ oc ef, c ← oc; if skipped ef then Some c
      else collectNestedType ct (effectiveFieldType ft ef) c) (Some c) (fieldsOf ft) = Some c' ∧ grows c c') as Hemb.
  { intros ft c0 Hft Hk0.
    destruct (loop_ends (λ ef, collectNestedType ct (effectiveFieldType ft ef)) (fieldsOf ft) c0) as [c' Hc];
      [intros ef c1 Hef Hk1; apply Hn; [by apply (Henv ft)|done]|done|].
    exists c'. split; [exact Hc|]. eapply (foldl_rel grows); [|exact Hc].
    intros ef c1 c2 He2. exact (nested_rel ct grows addEnum_grows Hgrow _ _ _ He2). }
  unfold collectFields. apply loop_ends; [|done]. intros f c0 Hf Hk0. destruct (Henv id f Hid Hf) as [Hd He].
  destruct (f_anonymous f); [|by apply Hn]. unfold collectEmbedded.
  assert (inU (deref (f_type f))) as Hd' by (by destruct (f_type f)).
  destruct (deref (f_type f)) as [b o|u|o e|o m e|o kt e|ft|ft v| |]; try (exists c0; split; done);
    (destruct (hasMarshalOverride _); [exists c0; split; done|]); by apply Hemb.
Qed.

End Ends.

Lemma collectType_grows fuel id c c' : collectType fuel id c = Some c' → grows c c'.
Proof.
  revert id c c'. induction fuel as [|fuel IH]; intros id c c'; [done|]. cbn [collectType].
  destruct (_ || _ || _); [by intros [= ->]|]. intros Hc.
  etrans; [|eapply (collectFields_rel _ grows addEnum_grows IH), Hc]. split; [apply union_subseteq_r|done].
Qed.

(** As much fuel as there are struct types is enough. *)
Lemma collectType_ends fuel id c : id ∈ U → left_ c < fuel → is_Some (collectType fuel id c).
Proof.
  revert id c. induction fuel as [|fuel IH]; intros id c Hid Hk; [lia|]. cbn [collectType].
  destruct (bool_decide (id = voidResponseType) || bool_decide (id = blobType)); [by eexists|]. cbn [orb].
  case_bool_decide as Hin; [by eexists|].
  apply (fields_end (collectType fuel) fuel); [intros; by eapply collectType_grows|done|done|].
  assert (left_ c ≤ fuel) as Hle by lia. eapply Nat.lt_le_trans; [|exact Hle]. unfold left_. apply subset_size. split.
  - intros x [Hx Hn]%elem_of_difference. apply elem_of_difference. split; [done|]. intros ?. apply Hn.
    by apply elem_of_union_r.
  - intros Hsub. assert (id ∈ U ∖ c_types c) as Hd by by apply elem_of_difference.
    apply Hsub, elem_of_difference in Hd as [_ Hd]. apply Hd. by apply elem_of_union_l, elem_of_singleton.
Qed.

End Universe.

End Gen.
End TsTypes.
