(* ===== verification/TsRefs.v ===== *)
(** * TsRefs: how a generated file finds the names it has to import (generate.go)

    The generator looks for type names in the printed types of a file, as whole identifiers
    in a string. That finds every name a printed type refers to: around each of them
    [goTypeToTS] writes characters that no identifier contains. *)

From S2P Require Import Prelude Runes Transform Registry Naming Schema Zod TsTypes.
From stdpp Require Import prelude gmap strings list fin_maps fin_sets sorting.

Module TsRefs.
Import Runes Naming Schema TsTypes.
Import Registry(EnumInfo).
Import Zod(tsToken(..), tsType, fieldData, fd_Type, joinComma).

Definition isIdentChar (c : rune) : bool :=
  bool_decide (97 ≤ c ≤ 122)%Z || bool_decide (65 ≤ c ≤ 90)%Z || bool_decide (48 ≤ c ≤ 57)%Z ||
  bool_decide (c = 95)%Z.

(** The first character, and the last, are not part of an identifier. *)
Definition firstOk (s : gostr) : bool := match s with [] => true | r :: _ => negb (isIdentChar r) end.
Fixpoint lastOk (s : gostr) : bool :=
  match s with [] => true | [r] => negb (isIdentChar r) | _ :: s => lastOk s end.

(** [containsTypeName], from a position on; [startOk] is about the character before it. *)
Fixpoint containsFrom (startOk : bool) (s name : gostr) : bool :=
  (startOk && hasPrefix name s && firstOk (drop (length name) s)) ||
  match s with [] => false | r :: s => containsFrom (negb (isIdentChar r)) s name end.

Definition containsTypeName (typeStr name : gostr) : bool := containsFrom true typeStr name.

(** ** Facts *)

Lemma lastOk_cons r s : s ≠ [] → lastOk (r :: s) = lastOk s.
Proof. by destruct s. Qed.

Lemma hasPrefix_app name post : hasPrefix name (name ++ post) = true.
Proof. unfold hasPrefix. rewrite take_app_length. by apply bool_decide_eq_true. Qed.

Lemma containsFrom_here b name post :
  b = true → firstOk post = true → containsFrom b (name ++ post) name = true.
Proof.
  intros -> Hp. assert ((true && hasPrefix name (name ++ post) &&
    firstOk (drop (length name) (name ++ post))) = true) as Hhere
    by (by rewrite hasPrefix_app, drop_app_length, Hp).
  destruct (name ++ post) as [|r s] eqn:E; cbn [containsFrom]; rewrite ?E in *; by rewrite Hhere.
Qed.

Lemma containsFrom_skip b pre s name :
  pre ≠ [] → containsFrom (lastOk pre) s name = true → containsFrom b (pre ++ s) name = true.
Proof.
  revert b. induction pre as [|r pre IH]; intros b Hne Hs; [done|]. cbn [app containsFrom].
  apply orb_true_iff. right. destruct pre as [|r' pre]; [exact Hs|]. apply IH; [done|].
  by rewrite lastOk_cons in Hs.
Qed.

Lemma containsTypeName_app pre name post :
  lastOk pre = true → firstOk post = true → containsTypeName (pre ++ name ++ post) name = true.
Proof.
  intros Hl Hf. unfold containsTypeName. destruct pre as [|r pre].
  - exact (containsFrom_here true name post eq_refl Hf).
  - apply containsFrom_skip; [done|]. by apply containsFrom_here.
Qed.

(** *** Bounded names *)

Lemma render_app a b : render (a ++ b) = render a ++ render b.
Proof. unfold render. by rewrite bind_app. Qed.

Definition bounded (e : tsType) : Prop :=
  ∀ pre n id post, e = pre ++ TsName n id :: post →
    lastOk (render pre) = true ∧ firstOk (render post) = true.

Lemma bounded_contains e n : bounded e → n ∈ names e → containsTypeName (render e) n.1 = true.
Proof.
  intros He (t & Ht & Hn)%list_elem_of_omap. destruct t as [|n0 id]; [done|]. injection Hn as <-. cbn [fst].
  apply list_elem_of_split in Ht as (pre & post & Heq). destruct (He _ _ _ _ Heq) as [Hl Hf].
  subst e. rewrite render_app. change (TsName n0 id :: post) with ([TsName n0 id] ++ post).
  rewrite render_app. unfold render at 2. cbn [mbind list_bind]. rewrite app_nil_r.
  by apply containsTypeName_app.
Qed.

Lemma bounded_text s : bounded [TsTxt s].
Proof. intros pre n id post Heq. destruct pre as [|? [|??]]; done. Qed.

Lemma bounded_name n id : bounded [TsName n id].
Proof. intros pre m id' post Heq. destruct pre as [|? [|??]]; [by injection Heq as -> -> <-|done|done]. Qed.

Lemma bounded_nil : bounded [].
Proof. intros pre m id' post Heq. by destruct pre. Qed.

Lemma firstOk_app a b : firstOk a = true → firstOk b = true → firstOk (a ++ b) = true.
Proof. by destruct a. Qed.

Lemma lastOk_app a b : lastOk a = true → lastOk b = true → lastOk (a ++ b) = true.
Proof.
  intros Ha Hb. induction a as [|r a IH]; [done|]. destruct a as [|r' a].
  - destruct b as [|x b]; [done|]. exact Hb.
  - cbn [app]. rewrite lastOk_cons by done. apply IH. by rewrite lastOk_cons in Ha.
Qed.

(** Names stay bounded in a concatenation when what is next to them bounds them. *)
Lemma bounded_app a b :
  bounded a → bounded b → names a = [] ∨ firstOk (render b) = true →
  names b = [] ∨ lastOk (render a) = true → bounded (a ++ b).
Proof.
  intros Ha Hb Hf Hl pre n id post Heq. apply app_eq_inv in Heq as [(k & -> & Hk)|(k & -> & Hk)].
  - destruct k as [|t k].
    + cbn [app] in Hk. subst b. destruct (Hb [] n id post eq_refl) as [_ Hp]. rewrite app_nil_r in *.
      destruct Hl as [?|Hl]; [done|]. by split.
    + injection Hk as <- ->. destruct (Ha pre n id k eq_refl) as [Hp1 Hp2]. rewrite render_app.
      split; [done|]. apply firstOk_app; [done|]. destruct Hf as [Hf|?]; [|done].
      rewrite names_app in Hf. by apply app_eq_nil in Hf as [_ ?].
  - subst b. destruct (Hb k n id post eq_refl) as [Hp1 Hp2]. rewrite render_app. split; [|done].
    destruct Hl as [Hl|Hl]; [|by apply lastOk_app]. rewrite names_app in Hl.
    by apply app_eq_nil in Hl as [_ ?].
Qed.

Lemma render_txt s : render (txt s) = lit s.
Proof. unfold render, txt. cbn [mbind list_bind renderToken]. by rewrite app_nil_r. Qed.

(** Text in front, text behind. *)
Lemma bounded_before s e : lastOk s = true → bounded e → bounded ([TsTxt s] ++ e).
Proof.
  intros Hs He. apply bounded_app; [apply bounded_text|done|by left|right].
  unfold render. cbn [mbind list_bind renderToken]. by rewrite app_nil_r.
Qed.

Lemma bounded_after e s : firstOk s = true → bounded e → bounded (e ++ [TsTxt s]).
Proof.
  intros Hs He. apply bounded_app; [done|apply bounded_text|right|by left].
  unfold render. cbn [mbind list_bind renderToken]. by rewrite app_nil_r.
Qed.

Lemma bounded_listOf e : bounded e → bounded (listOf e).
Proof.
  intros He. unfold listOf. destruct (isUnion e); [|by apply bounded_after].
  apply bounded_before; [done|]. by apply bounded_after.
Qed.

Lemma lastOk_app_r a b : b ≠ [] → lastOk (a ++ b) = lastOk b.
Proof.
  intros Hb. induction a as [|r a IH]; [done|]. cbn [app]. rewrite lastOk_cons; [done|].
  intros Hn. by apply app_eq_nil in Hn as [_ ?].
Qed.

Lemma render_sep s e : render (TsTxt s :: e) = s ++ render e.
Proof. done. Qed.

(** A separator bounds the names on both sides. *)
Lemma bounded_sep e s rest :
  s ≠ [] → firstOk s = true → lastOk s = true → bounded e → bounded rest →
  bounded (e ++ [TsTxt s] ++ rest).
Proof.
  intros Hs Hf Hl He Hr pre n id post Heq. apply app_eq_inv in Heq as [(k & -> & Hk)|(k & -> & Hk)].
  - destruct k as [|t k]; [discriminate Hk|]. injection Hk as <- ->.
    destruct (He pre n id k eq_refl) as [Hp1 Hp2]. split; [done|]. rewrite render_app, render_sep.
    apply firstOk_app; [done|]. by destruct s.
  - destruct k as [|t k]; [discriminate Hk|]. injection Hk as <- Hk.
    destruct (Hr k n id post Hk) as [Hp1 Hp2]. split; [|done]. rewrite render_app.
    rewrite render_sep. rewrite lastOk_app_r by (intros Hn; by apply app_eq_nil in Hn as [? _]). by apply lastOk_app.
Qed.

Lemma bounded_tuple e n : bounded e → bounded (tsTupleOrArray e n).
Proof.
  intros He. unfold tsTupleOrArray. case_bool_decide; [by apply bounded_listOf|].
  apply bounded_before; [done|]. apply bounded_after; [done|].
  clear H. induction n as [|n IH]; [apply bounded_nil|]. cbn [replicate joinComma].
  destruct n as [|n]; [done|]. cbn [replicate] in *. by apply bounded_sep.
Qed.

Lemma bounded_orNull e : bounded e → bounded (orNull e).
Proof. intros He. by apply bounded_after. Qed.

(** *** Printed types *)

Section Gen.
  Context `{RuneCase} (isLetter isDigit isPrint : rune → bool).
  Context (nameOf : string → gostr) (fieldsOf : string → list rfield).
  Context (marshalerOf : rtype → marshaler) (enumTypes : gmap string EnumInfo).
  Context (fieldTypeOverride : string → gostr → option rtype).

Abbreviation tsOf := (goTypeToTS isLetter isDigit nameOf marshalerOf enumTypes).

Lemma bounded_type t : bounded (tsOf t).
Proof.
  assert (∀ k e, bounded k → bounded e → bounded (txt "Record<" ++ k ++ txt ", " ++ e ++ txt ">")) as Hrec.
  { intros k e Hk He. apply bounded_before; [done|]. apply bounded_sep; try done. by apply bounded_after. }
  assert (∀ id, bounded (match sqlNullBase id with
    | Some b => txt b.1 ++ txt " | null"
    | None => if bool_decide (id = blobType) then blobTSWireShape else [TsName (typeName isLetter isDigit nameOf id) id]
    end)) as Hst.
  { intros id. destruct (sqlNullBase id); [by apply bounded_after, bounded_text|].
    case_bool_decide; [apply bounded_text|apply bounded_name]. }
  enough (bounded (tsOf t) ∧ match t with RNull _ v => bounded (tsOf v) | _ => True end) as [? _] by done.
  induction t as [k o|u [IH IHn]|o e [IH _]|o m e [IH _]|o k [IHk _] e [IH _]|id|id v [IH _]| |];
    (split; [|done]); cbn [goTypeToTS];
    (destruct (lookupType _ _) as [en|]; [apply bounded_name|]);
    (destruct (infer _ _) as [mt|]; [|destruct (isRawJSON _); [apply bounded_text|]]);
    try apply bounded_text.
  - destruct k; apply bounded_text.
  - destruct u as [| | | | |id|id v| |]; try exact IH.
    + destruct (sqlNullBase id); [by apply bounded_after, bounded_text|exact IH].
    + by apply bounded_after.
  - destruct (hasSuffix _ mt); [by apply bounded_listOf|apply bounded_text].
  - destruct (isUnnamedByteSlice _); [apply bounded_text|by apply bounded_listOf].
  - destruct (isByteArray _); [apply bounded_text|by apply bounded_tuple].
  - destruct k as [[] ?|?|? ?|? ? ?|? ? ?|?|? ?| |]; try by apply Hrec.
    apply bounded_before; [done|]. by apply bounded_after.
  - apply Hst.
  - by apply bounded_after.
Qed.

Lemma bounded_field id f :
  bounded (fd_Type (interfaceField isLetter isDigit isPrint nameOf marshalerOf enumTypes fieldTypeOverride id f)).
Proof.
  unfold interfaceField. cbn [fd_Type]. set (f' := retype _ _). unfold fieldShape.
  set (ts := if isNullable f' then _ else _).
  assert (bounded ts) as Hts.
  { unfold ts. destruct (isNullable f'); [|apply bounded_type].
    destruct (hasSuffix _ _); [apply bounded_type|by apply bounded_orNull, bounded_type]. }
  assert (∀ s, bounded (sp_ts s) → bounded (sp_ts (durationShape f' s))) as Hd.
  { intros s Hs. unfold durationShape. destruct (_ && _); [|done]. cbn [sp_ts].
    destruct (isNullable f'); [by apply bounded_orNull, bounded_text|apply bounded_text]. }
  assert (∀ s, bounded (sp_ts s) → bounded (sp_ts (byteShape f' s))) as Hb.
  { intros s Hs. unfold byteShape. destruct (_ || _); [|done].
    destruct (jsonFormatOption f'); [by destruct (_ || _)|].
    destruct (byteSliceFormatShape _) as [[|]|]; [|apply bounded_text|done].
    destruct (isByteArray _); [by apply bounded_tuple, bounded_text|apply bounded_text]. }
  by apply Hb, Hd.
Qed.

End Gen.

(** ** Imports *)

(** Names sorted as [sort.Strings] does. *)
Definition sortedNames (s : gset gostr) : list gostr := sortNames (elements s).

(** [findSharedTypeImports] over the printed types of a file: the names found, by module. *)
Section Imports.
  (** The names the file declares, its types, and where the shared names are. *)
  Context (localNames : gset gostr) (texts : list gostr) (sharedTypeNames : gmap gostr gostr).

Definition referenced (n : gostr) : bool :=
  negb (bool_decide (n ∈ localNames)) && existsb (λ text, containsTypeName text n) texts.

Definition byModule : gmap gostr (gset gostr) :=
  map_fold (λ n module m,
    if referenced n then <[module := {[n]} ∪ default ∅ (m !! module)]> m else m) ∅ sharedTypeNames.

Definition findSharedTypeImports : list (gostr * list gostr) :=
  (λ module, (module, sortedNames (default ∅ (byModule !! module)))) <$> sortedNames (dom byModule).

Lemma sortedNames_in n s : n ∈ sortedNames s ↔ n ∈ s.
Proof. unfold sortedNames, sortNames. by rewrite merge_sort_Permutation, elem_of_elements. Qed.

Lemma byModule_spec n module :
  (∃ ns, byModule !! module = Some ns ∧ n ∈ ns) ↔ sharedTypeNames !! n = Some module ∧ referenced n = true.
Proof.
  unfold byModule. revert n module.
  apply (map_fold_weak_ind (λ m (shared : gmap gostr gostr), ∀ n module,
    (∃ ns, m !! module = Some ns ∧ n ∈ ns) ↔ shared !! n = Some module ∧ referenced n = true)).
  - intros n module. split; [intros (ns & Hm & _); by rewrite lookup_empty in Hm|].
    intros [Hs _]. by rewrite lookup_empty in Hs.
  - intros k mk shared m Hk IH n module. destruct (referenced k) eqn:Hr.
    + destruct (decide (n = k)) as [->|Hne].
      * rewrite lookup_insert_eq. split.
        -- intros (ns & Hm & Hn). split; [|done]. f_equal. destruct (decide (mk = module)) as [|Hmm]; [done|].
           rewrite lookup_insert_ne in Hm by done. exfalso.
           destruct (proj1 (IH k module)) as [Hs _]; [by exists ns|]. by rewrite Hk in Hs.
        -- intros [[= ->] _]. eexists. rewrite lookup_insert_eq. split; [done|].
           by apply elem_of_union_l, elem_of_singleton.
      * rewrite (lookup_insert_ne shared) by done. rewrite <- IH. destruct (decide (mk = module)) as [->|Hmm].
        -- rewrite lookup_insert_eq. split.
           ++ intros (ns & [= <-] & [?%elem_of_singleton|Hn]%elem_of_union); [done|].
              destruct (m !! module) as [ns|]; [by exists ns|by apply not_elem_of_empty in Hn].
           ++ intros (ns & Hm & Hn). eexists. split; [done|]. rewrite Hm. by apply elem_of_union_r.
        -- by rewrite lookup_insert_ne.
    + rewrite IH. destruct (decide (n = k)) as [->|Hne].
      * split; [by intros [_ ?]; rewrite Hr in *|by intros [_ ?]; rewrite Hr in *].
      * by rewrite lookup_insert_ne.
Qed.

(** A name that is used, not declared here, and shared, is imported from where it is. *)
Lemma import_found n text module :
  n ∉ localNames → text ∈ texts → containsTypeName text n = true → sharedTypeNames !! n = Some module →
  ∃ ns, (module, ns) ∈ findSharedTypeImports ∧ n ∈ ns.
Proof.
  intros Hl Ht Hc Hs.
  assert (referenced n = true) as Hr.
  { unfold referenced. rewrite bool_decide_false by done. apply existsb_exists. exists text.
    split; [by apply list_elem_of_In|done]. }
  destruct (proj2 (byModule_spec n module) (conj Hs Hr)) as (ns & Hm & Hn).
  exists (sortedNames ns). split; [|by apply sortedNames_in].
  unfold findSharedTypeImports. apply list_elem_of_fmap. exists module. rewrite Hm. split; [done|].
  apply sortedNames_in, elem_of_dom. by exists ns.
Qed.

(** Nothing is imported that the file declares itself, or that is not there. *)
Lemma import_sound module ns n :
  (module, ns) ∈ findSharedTypeImports → n ∈ ns → sharedTypeNames !! n = Some module ∧ n ∉ localNames.
Proof.
  intros (module' & [= <- ->] & _)%list_elem_of_fmap Hn%sortedNames_in.
  destruct (byModule !! module) as [ns|] eqn:Hm; [|by apply not_elem_of_empty in Hn].
  destruct (proj1 (byModule_spec n module)) as [Hs Hr]; [by exists ns|]. split; [done|].
  apply andb_true_iff in Hr as [Hr _]. by apply negb_true_iff, bool_decide_eq_false in Hr.
Qed.

End Imports.
End TsRefs.
