(* ===== verification/Generate.v ===== *)
(** * Generate: the TypeScript client files (generate.go)

    [Generate] gives each socket handler group a file, moves the types that several groups
    use into one file per Go package, and imports them. Files are modelled up to the data
    the templates are filled with. The theorem is that no generated file prints the name of
    a type that nothing declares, and which it neither declares nor imports: the key of a
    two-value stream only. *)

From S2P Require Import Prelude Protocol Runes Transform Registry Naming Schema Streaming Subscriptions Pipeline Dispatch Rest Zod TsTypes TsRefs.
From stdpp Require Import prelude gmap strings list pretty fin_maps fin_sets sorting.

Module Generate.
Import Runes Transform Registry Naming Schema TsTypes TsRefs Rest.Routes.
Import Zod(tsToken(..), tsType, fieldData, fd_Type, interfaceData(..), if_Name, if_Fields,
  zodSchemaData, buildZodSchemas, Quote).

(** ** Template data *)

Record paramData := ParamData { pd_Name : gostr; pd_Type : tsType; pd_Variadic : bool }.

(** [md_ItemKeyType] is None for the empty string. *)
Record methodData := MethodData {
  md_Name : gostr;
  md_WireMethod : gostr;
  md_MethodName : gostr;
  md_HookName : gostr;
  md_SubscribeName : gostr;
  md_ResponseType : tsType;
  md_ItemKeyType : option tsType;
  md_IsVoid : bool;
  md_IsStream : bool;
  md_IsStream2 : bool;
  md_Params : list paramData;
}.

Record pushEventData := PushData {
  pv_Name : gostr; pv_HandlerName : gostr; pv_HookName : gostr; pv_DataType : tsType;
}.

Record errorCodeData := ErrorCode { ec_Name : gostr; ec_Code : Z; ec_MethodName : gostr }.

Record enumTemplateData := EnumData {
  ed_Name : gostr; ed_IsString : bool; ed_Values : list (gostr * gostr);
}.

Record templateData := Template {
  td_StructName : gostr;
  td_FileName : gostr;
  td_Interfaces : list interfaceData;
  td_Methods : list methodData;
  td_PushEvents : list pushEventData;
  td_CustomErrorCodes : list errorCodeData;
  td_Enums : list enumTemplateData;
  td_SharedImports : list (gostr * list gostr);
  td_React : bool;
}.

(** What is written: the data of each template. *)
Inductive genFile :=
  | SharedFile (d : templateData)
  | HandlerFile (d : templateData)
  | SchemaFile (schemas : list zodSchemaData)
  | BaseFile (codes : list errorCodeData).

(** *** Identifiers *)

Definition tsReservedWords : list string :=
  ["break"; "case"; "catch"; "class"; "const"; "continue"; "debugger"; "default"; "delete"; "do";
   "else"; "enum"; "export"; "extends"; "false"; "finally"; "for"; "function"; "if"; "import";
   "in"; "instanceof"; "new"; "null"; "return"; "super"; "switch"; "this"; "throw"; "true";
   "try"; "typeof"; "var"; "void"; "while"; "with"; "implements"; "interface"; "let";
   "package"; "private"; "protected"; "public"; "static"; "yield"; "await"].

Definition tsSafeIdent (name : gostr) : gostr :=
  if bool_decide (name ∈ lit <$> tsReservedWords) || negb (isValidJSIdent name)
  then name ++ [underscore] else name.

Definition builtinErrorHelpers : list string :=
  ["isUnauthorized"; "isForbidden"; "isNotFound"; "isInvalidParams"; "isValidationFailed";
   "isCanceled"; "isConnectionRejected"; "isTooManyRequests"; "isAuthFailed"].

(** [t == voidResponseType]. *)
Definition isVoidType (t : goType) : bool :=
  match t with TStruct n => bool_decide (n = "voidResponse") | _ => false end.

(** [pkgShortName]: what is after the last slash. *)
Fixpoint afterSlash (acc s : gostr) : gostr :=
  match s with
  | [] => acc
  | r :: s => if bool_decide (r = 47)%Z then afterSlash [] s else afterSlash (acc ++ [r]) s
  end.
Definition pkgShortName (path : gostr) : gostr := afterSlash [] path.

Section Code.
  Context `{RuneCase} `{NamingPlugin} {Mw : Type}.
  (** The Unicode tables, and what reflection says of types. *)
  Context (isLetter isDigit isPrint : rune → bool).
  Context (nameOf pkgPathOf : string → gostr) (fieldsOf : string → list rfield).
  Context (marshalerOf : rtype → marshaler) (fieldTypeOverride : string → gostr → option rtype).
  Context (rtypeOf : goType → rtype).
  (** The parameter names the source files give. *)
  Context (paramNames : string → string → list gostr).
  Context (reg : @Registry Mw) (reservedClientFiles : gset gostr) (react zod : bool).
  (** The struct types of the program, and how deep they embed one another. *)
  Context (U : gset string) (embedDepth : nat).

(** [registry.enumTypes]. *)
Definition allEnums : list EnumInfo := (map_to_list (r_groups reg) ≫= λ g, gr_enums g.2) ++ r_sharedEnums reg.
Definition enumTypes : gmap string EnumInfo := foldl (λ m e, <[en_type e := e]> m) ∅ allEnums.

Abbreviation tsOf := (goTypeToTS isLetter isDigit nameOf marshalerOf enumTypes).
Abbreviation typeNameOf := (typeName isLetter isDigit nameOf).

Definition collectTypeU : string → collected → option collected :=
  collectType isLetter isDigit nameOf fieldsOf marshalerOf enumTypes fieldTypeOverride (S (size U)).
Definition collectNestedU : rtype → collected → option collected :=
  collectNestedType isLetter isDigit nameOf marshalerOf enumTypes collectTypeU.

Definition collectFieldsU : string → option (list fieldData) :=
  collectInterfaceFields isLetter isDigit isPrint nameOf fieldsOf marshalerOf enumTypes fieldTypeOverride (S embedDepth).

Definition interfaceFields (id : string) : list fieldData := default [] (collectFieldsU id).

(** *** Collection *)

Definition andThen {A} (f : A → collected → option collected) (xs : list A) (oc : option collected)
    : option collected := foldl (λ oc x, c ← oc; f x c) oc xs.

(** A struct result is collected whatever its encoding. *)
Definition collectResponse (t : goType) (c : collected) : option collected :=
  if isVoidType t then Some c
  else
    match rtypeOf t with
    | RStruct id | RNull id _ => collectTypeU id c
    | RAnonStruct => Some c
    | t => collectNestedU t c
    end.

Definition isStream2 (info : HandlerInfo) : bool := bool_decide (hi_kind info = HandlerKindStream2).
Definition isStream (info : HandlerInfo) : bool := bool_decide (hi_kind info = HandlerKindStream).

Definition streamKey (info : HandlerInfo) : list goType :=
  if isStream2 info then option_list (hi_streamKey info) else [].

Definition collectHandler (info : HandlerInfo) (c : collected) : option collected :=
  c ← andThen (λ p, collectNestedU (rtypeOf (pi_type p))) (hi_params info) (Some c);
  c ← collectResponse (hi_response info) c;
  andThen (λ t, collectNestedU (rtypeOf t)) (streamKey info) (Some c).

Definition addEnumOf (e : EnumInfo) (c : collected) : collected :=
  Collected (c_types c) ({[en_type e]} ∪ c_enums c).

(** The handlers of a group, by name. *)
Definition handlersOf (g : @HandlerGroup Mw) : list (string * HandlerInfo) :=
  omap (λ n, info ← gr_handlers g !! n; Some (n, info)) (sortStrings (elements (dom (gr_handlers g)))).

Definition collectInto (g : @HandlerGroup Mw) (c : collected) : option collected :=
  c ← andThen (λ h, collectHandler h.2) (handlersOf g) (Some c);
  c ← andThen (λ ev, collectTypeU (pe_type ev)) (gr_pushEvents g) (Some c);
  Some (foldl (λ c e, addEnumOf e c) c (gr_enums g)).

Definition collectGroupTypes (g : @HandlerGroup Mw) : option collected := collectInto g (Collected ∅ ∅).

Definition collectedOf (g : @HandlerGroup Mw) : collected :=
  default (Collected ∅ ∅) (collectGroupTypes g).

(** [clientGroups], by name. *)
Definition clientGroups : list (@HandlerGroup Mw) :=
  omap (λ n, g ← r_groups reg !! n; if gr_socket g then Some g else None)
    (sortStrings (elements (dom (r_groups reg)))).

(** *** Sharing *)

(** The types that more than one group uses. *)
Definition usedTwice (sel : collected → gset string) : gset string :=
  let all := (λ g, sel (collectedOf g)) <$> clientGroups in
  filter (λ id, 1 < length (filter (λ s, id ∈ s) all)) (⋃ all).

Definition sharedTypeSet : gset string := usedTwice c_types.
Definition sharedEnumSet : gset string := usedTwice c_enums ∪ list_to_set (en_type <$> r_sharedEnums reg).

Definition pkgOf (id : string) : gostr := pkgShortName (pkgPathOf id).

Definition sortedPkgs : list gostr :=
  sortedNames (list_to_set (pkgOf <$> elements (sharedTypeSet ∪ sharedEnumSet))).

Definition handlerFileNames : gset gostr := list_to_set ((λ g, FileName (lit (gr_name g))) <$> clientGroups).

Definition pkgBase (pkg : gostr) : gostr :=
  if bool_decide (pkg ∈ handlerFileNames) || bool_decide (pkg ∈ reservedClientFiles)
  then pkg ++ lit ".types" else pkg.

Definition moduleOf (pkg : gostr) : gostr := lit "./" ++ pkgBase pkg.

(** *** Building *)

(** [sort.Slice] by name; equal names keep no particular order. *)
Definition sortBy {A} (key : A → gostr) (l : list A) : list A :=
  merge_sort (λ a b, Is_true (gostrLe (key a) (key b))) l.

Definition buildInterfaces (types : gset string) : list interfaceData :=
  (λ id, InterfaceData (typeNameOf id) (interfaceFields id)) <$> sortBy nameOf (elements types).

Definition enumData (e : EnumInfo) : enumTemplateData :=
  EnumData (lit (en_name e)) (en_isString e)
    ((λ v, (tsObjectKey (Quote isPrint) v.1,
            if en_isString e then [34%Z] ++ v.2 ++ [34%Z] else v.2)) <$> en_values e).

Definition buildEnums (enums : gset string) : list enumTemplateData :=
  enumData <$> sortBy (λ e, lit (en_name e)) (omap (λ id, enumTypes !! id) (elements enums)).

(** The names a file declares. *)
Definition localNames (ifaces : list interfaceData) (enums : list enumTemplateData) : gset gostr :=
  list_to_set ((if_Name <$> ifaces) ++ ((λ e, ed_Name e ++ lit "Type") <$> enums)).

(** What is scanned for names to import. *)
Definition scanned (d : templateData) : list tsType :=
  (td_Interfaces d ≫= λ i, fd_Type <$> if_Fields i) ++
  (td_Methods d ≫= λ m, md_ResponseType m :: (pd_Type <$> md_Params m)) ++
  (pv_DataType <$> td_PushEvents d).

(** What else is printed: the key types of two-value streams. *)
Definition keyTypes (d : templateData) : list tsType := omap md_ItemKeyType (td_Methods d).
Definition printed (d : templateData) : list tsType := scanned d ++ keyTypes d.

Definition withImports (shared : gmap gostr gostr) (d : templateData) : templateData :=
  Template (td_StructName d) (td_FileName d) (td_Interfaces d) (td_Methods d) (td_PushEvents d)
    (td_CustomErrorCodes d) (td_Enums d)
    (findSharedTypeImports (localNames (td_Interfaces d) (td_Enums d)) (render <$> scanned d) shared)
    (td_React d).

(** Pass 1: the data of a package's file. *)
Definition pkgData (pkg : gostr) : templateData :=
  Template pkg (pkgBase pkg ++ lit ".ts")
    (buildInterfaces (filter (λ id, pkgOf id = pkg) sharedTypeSet)) [] [] []
    (buildEnums (filter (λ id, pkgOf id = pkg) sharedEnumSet)) [] false.

Definition declaredIn (pkg : gostr) : gset gostr :=
  localNames (td_Interfaces (pkgData pkg)) (td_Enums (pkgData pkg)).

Definition sharedTypeNames : gmap gostr gostr :=
  foldl (λ m pkg, set_fold (λ n m, <[n := moduleOf pkg]> m) m (declaredIn pkg)) ∅ sortedPkgs.

(** Pass 2: a file does not import from itself. *)
Definition sharedFile (pkg : gostr) : templateData :=
  withImports (filter (λ nm, ¬ (nm.2 = moduleOf pkg ∧ nm.1 ∈ declaredIn pkg)) sharedTypeNames) (pkgData pkg).

(** *** Handler files *)

Definition validateErrorCodes : list gostr :=
  omap (λ ec, let method := ErrorMethodName (lit ec.1) in
              if bool_decide (method ∈ lit <$> builtinErrorHelpers) then Some (lit ec.1) else None)
    (r_errorCodes reg).

Definition buildCustomErrorCodes : list errorCodeData :=
  omap (λ ec, let method := ErrorMethodName (lit ec.1) in
              if bool_decide (method ∈ lit <$> builtinErrorHelpers) then None
              else Some (ErrorCode (lit ec.1) ec.2 method))
    (r_errorCodes reg).

Fixpoint paramsFrom (i : nat) (names : list gostr) (ps : list ParamInfo) : list paramData :=
  match ps with
  | [] => []
  | p :: ps =>
      let name := match names with n :: _ => n | [] => lit "arg" ++ lit (pretty i) end in
      let ts := tsOf (rtypeOf (pi_type p)) in
      ParamData (tsSafeIdent name) (if pi_variadic p then ts ++ txt "[]" else ts) (pi_variadic p)
        :: paramsFrom (S i) (tail names) ps
  end.

Definition buildParamData (info : HandlerInfo) : list paramData :=
  paramsFrom 0 (paramNames (hi_structName info) (hi_name info)) (hi_params info).

Definition isBlobResponse (t : rtype) : bool := bool_decide (typeId (deref t) = Some blobType).

Definition buildMethodData (info : HandlerInfo) (wireMethod shortName : gostr) : methodData :=
  let stream := isStream info in
  let stream2 := isStream2 info in
  let isVoid := negb stream && negb stream2 && isVoidType (hi_response info) in
  let resp := rtypeOf (hi_response info) in
  MethodData shortName wireMethod (tsSafeIdent (MethodName shortName)) (tsSafeIdent (HookName shortName))
    (lit "subscribe" ++ shortName)
    (if isVoid then txt "void"
     else if stream || stream2 then tsOf resp
     else if isBlobResponse resp then txt "Blob" else tsOf resp)
    (if stream2 then (λ k, tsOf (rtypeOf k)) <$> hi_streamKey info else None)
    isVoid stream stream2 (buildParamData info).

Definition pushData (ev : PushEventInfo) : pushEventData :=
  PushData (lit (pe_name ev)) (tsSafeIdent (HandlerName (lit (pe_name ev))))
    (tsSafeIdent (HookName (lit (pe_name ev)))) [TsName (typeNameOf (pe_type ev)) (pe_type ev)].

Definition buildTemplateData (g : @HandlerGroup Mw) : templateData :=
  let c := collectedOf g in
  Template (lit (gr_name g)) (FileName (lit (gr_name g)) ++ lit ".ts")
    (buildInterfaces (c_types c ∖ sharedTypeSet))
    ((λ h, buildMethodData h.2 (lit (gr_name g) ++ lit "." ++ lit h.1) (lit h.1)) <$> handlersOf g)
    (pushData <$> gr_pushEvents g) buildCustomErrorCodes (buildEnums (c_enums c ∖ sharedEnumSet)) [] react.

Definition handlerFile (g : @HandlerGroup Mw) : templateData :=
  withImports sharedTypeNames (buildTemplateData g).

(** The files in the order they are stored; a name stored again replaces the file. *)
Definition schemaName (d : templateData) : gostr :=
  take (length (td_FileName d) - 3) (td_FileName d) ++ lit ".schema.ts".

Definition groupFiles (g : @HandlerGroup Mw) : list (gostr * genFile) :=
  let d := handlerFile g in
  let schemas := buildZodSchemas isPrint (td_Interfaces d) in
  (td_FileName d, HandlerFile d) ::
  (if zod then match schemas with [] => [] | _ => [(schemaName d, SchemaFile schemas)] end else []).

Definition files : list (gostr * genFile) :=
  ((λ pkg, (td_FileName (sharedFile pkg), SharedFile (sharedFile pkg))) <$> sortedPkgs) ++
  (clientGroups ≫= groupFiles) ++ [(lit "client.ts", BaseFile buildCustomErrorCodes)].

(** [Generate], without the hooks: the errors, or the results. *)
Definition Generate : res (list gostr) (gmap gostr genFile) :=
  match validateErrorCodes with
  | [] => Ok (foldl (λ m f, <[f.1 := f.2]> m) ∅ files)
  | errs => Err errs
  end.

(** [GenerateTo] of a new generator, up to the template: everything in one file. Error
    helpers that collide are dropped, not rejected. *)
Definition combinedData (c : collected) : templateData :=
  Template (lit "Combined") (lit "client.ts") (buildInterfaces (c_types c))
    (omap (λ n, info ← r_handlers reg !! n; Some (buildMethodData info (lit n) (lit (hi_name info))))
      (sortStrings (elements (dom (r_handlers reg)))))
    (pushData <$> r_pushEvents reg) buildCustomErrorCodes (buildEnums (c_enums c)) [] react.

Definition GenerateTo : option templateData :=
  c ← andThen collectInto clientGroups (Some (Collected ∅ ∅));
  Some (combinedData (foldl (λ c e, addEnumOf e c) c (r_sharedEnums reg))).

(** ** Facts *)

Abbreviation inUniverse := (inU U).
Abbreviation regularType := (regular isLetter isDigit nameOf fieldsOf marshalerOf enumTypes fieldTypeOverride).
Abbreviation collectableType := (collectable isLetter isDigit nameOf marshalerOf enumTypes).
Abbreviation declaresName := (declares isLetter isDigit nameOf enumTypes).
Abbreviation metBy := (met isLetter isDigit nameOf fieldsOf marshalerOf enumTypes fieldTypeOverride).
Abbreviation completes := (complete isLetter isDigit nameOf fieldsOf marshalerOf enumTypes fieldTypeOverride).
Abbreviation closedUnder := (closed isLetter isDigit nameOf fieldsOf marshalerOf enumTypes fieldTypeOverride).

(** *** Registered enums *)

Lemma enumTypes_in e : e ∈ allEnums → is_Some (enumTypes !! en_type e).
Proof.
  unfold enumTypes. intros He.
  assert (∀ l (m : gmap string EnumInfo) id, (∃ e, e ∈ l ∧ en_type e = id) ∨ is_Some (m !! id) →
    is_Some (foldl (λ m e, <[en_type e := e]> m) m l !! id)) as Hgen; [|apply Hgen; left; by exists e].
  clear He. induction l as [|x l IH]; intros m id Hin; cbn [foldl].
  - destruct Hin as [(y & Hy & _)|]; [by apply not_elem_of_nil in Hy|done].
  - apply IH. destruct Hin as [(y & [->|Hy]%elem_of_cons & <-)|Hm].
    + right. rewrite lookup_insert_eq. by eexists.
    + left. by exists y.
    + right. destruct (decide (id = en_type x)) as [->|Hne].
      * rewrite lookup_insert_eq. by eexists.
      * by rewrite lookup_insert_ne.
Qed.

Lemma enumTypes_from id e : enumTypes !! id = Some e → e ∈ allEnums ∧ en_type e = id.
Proof.
  unfold enumTypes.
  assert (∀ l (m : gmap string EnumInfo), foldl (λ m e, <[en_type e := e]> m) m l !! id = Some e →
    (e ∈ l ∧ en_type e = id) ∨ m !! id = Some e) as Hgen.
  { induction l as [|x l IH]; intros m; cbn [foldl]; [by right|]. intros Hl.
    destruct (IH _ Hl) as [[He ?]|Hm]; [left; split; [by right|done]|].
    destruct (decide (id = en_type x)) as [->|Hne].
    - rewrite lookup_insert_eq in Hm. injection Hm as <-. left. split; [by left|done].
    - rewrite lookup_insert_ne in Hm by done. by right. }
  intros Hl. destruct (Hgen allEnums ∅ Hl) as [|Hm]; [done|]. by rewrite lookup_empty in Hm.
Qed.

(** *** Collecting a group *)

(** What the registry holds is about the program's types, and collection handles it: a type
    argument of sql.Null, a map's key and what is behind two pointers name no other types. *)
Definition rootOk (t : goType) : Prop := inUniverse (rtypeOf t) ∧ collectableType (rtypeOf t).

Definition responseOk (t : goType) : Prop :=
  rootOk t ∧ match rtypeOf t with RStruct id | RNull id _ => enumTypes !! id = None | _ => True end.

Definition handlerOk (info : HandlerInfo) : Prop :=
  (∀ p, p ∈ hi_params info → rootOk (pi_type p)) ∧
  (isVoidType (hi_response info) = false → responseOk (hi_response info)) ∧
  (∀ k, k ∈ streamKey info → rootOk k) ∧
  (isVoidType (hi_response info) = true → isStream info = false ∧ isStream2 info = false).

Definition groupOk (g : @HandlerGroup Mw) : Prop :=
  (∀ n info, gr_handlers g !! n = Some info → handlerOk info) ∧
  (∀ ev, ev ∈ gr_pushEvents g →
     pe_type ev ∈ U ∧ special (pe_type ev) = false ∧ enumTypes !! pe_type ev = None).

Record environment : Prop := Env {
  env_regular : ∀ id, regularType id;
  env_closed : ∀ id f, id ∈ U → f ∈ fieldsOf id →
    inUniverse (f_type f) ∧ inUniverse (effectiveFieldType fieldTypeOverride id f);
  env_registry : regInv reg;
  env_groups : ∀ g, g ∈ clientGroups → groupOk g;
  env_events : ∀ ev, ev ∈ r_pushEvents reg → ∃ g, g ∈ clientGroups ∧ ev ∈ gr_pushEvents g;
  env_embed : ∃ depth : string → nat, (∀ id, depth id ≤ embedDepth) ∧
    ∀ id f ft, f ∈ fieldsOf id → flattened f = Some (Some ft) → depth ft < depth id;
}.

Section Env.
Context (Henv : environment).

Lemma collectTypeU_ok id c :
  id ∈ U → ∃ c', collectTypeU id c = Some c' ∧ completes c c' ∧ (special id = false → id ∈ c_types c').
Proof.
  intros Hid. destruct (collectType_ends isLetter isDigit nameOf fieldsOf marshalerOf enumTypes fieldTypeOverride
    U (env_closed Henv) (S (size U)) id c Hid) as [c' Hc].
  { apply Nat.lt_succ_r. unfold left_. apply subseteq_size. by intros x [? _]%elem_of_difference. }
  exists c'. split; [exact Hc|]. by eapply collectType_complete, Hc; apply (env_regular Henv).
Qed.

Lemma collectTypeU_spec id c c' :
  collectTypeU id c = Some c' → completes c c' ∧ (special id = false → id ∈ c_types c').
Proof. apply collectType_complete, (env_regular Henv). Qed.

Lemma collectNestedU_ok t c :
  inUniverse t → collectableType t →
  ∃ c', collectNestedU t c = Some c' ∧ completes c c' ∧ ∀ n, n ∈ names (tsOf t) → declaresName c' n.
Proof.
  intros Hu Hk. unfold collectNestedU.
  destruct (nested_ends isLetter isDigit nameOf marshalerOf enumTypes U collectTypeU (S (size U))) with (t := t) (c := c)
    as [c' Hc].
  - intros id c0 Hid _. destruct (collectTypeU_ok id c0 Hid) as (c1 & -> & _). by eexists.
  - done.
  - apply Nat.lt_succ_r. unfold left_. apply subseteq_size. by intros x [? _]%elem_of_difference.
  - exists c'. split; [exact Hc|]. split.
    + eapply (nested_rel _ _ _ _ _ collectTypeU completes); [apply addEnum_complete| |exact Hc].
      intros id c0 c1 Hi. by apply collectTypeU_spec in Hi as [? _].
    + intros n. eapply nested_declares; [|exact Hk|exact Hc].
      intros id c0 c1 Hi. apply collectTypeU_spec in Hi as [[Hg _] ?]. by split.
Qed.

(** A loop of collection steps: it ends, and what each step established stays. *)
Lemma andThen_ok {A} (f : A → collected → option collected) (Q : collected → A → Prop) xs c :
  (∀ x c, x ∈ xs → ∃ c', f x c = Some c' ∧ completes c c' ∧ Q c' x) →
  (∀ x c c', completes c c' → Q c x → Q c' x) →
  ∃ c', andThen f xs (Some c) = Some c' ∧ completes c c' ∧ ∀ x, x ∈ xs → Q c' x.
Proof.
  intros Hf HQ. revert c. induction xs as [|x xs IH]; intros c.
  - exists c. split_and!; [done|done|by intros x ?%not_elem_of_nil].
  - destruct (Hf x c) as (c1 & Hx & Hc1 & Hq1); [by left|].
    destruct (IH (λ y c Hy, Hf y c (list_elem_of_further _ _ _ Hy)) c1) as (c' & Hxs & Hc' & Hq').
    exists c'. unfold andThen in *. cbn [foldl mbind option_bind]. rewrite Hx. split_and!; [done|by etrans|].
    intros y [->|Hy]%elem_of_cons; [by eapply HQ|by apply Hq'].
Qed.

Definition declaresType (c : collected) (e : tsType) : Prop := ∀ n, n ∈ names e → declaresName c n.

Lemma declaresType_mono c c' e : completes c c' → declaresType c e → declaresType c' e.
Proof. intros [Hg _] He n Hn. eapply declares_mono; [exact Hg|]. by apply He. Qed.

Lemma collectResponse_ok t c :
  isVoidType t = false → responseOk t →
  ∃ c', collectResponse t c = Some c' ∧ completes c c' ∧ declaresType c' (tsOf (rtypeOf t)).
Proof.
  intros Hv [[Hu Hk] He]. unfold collectResponse. rewrite Hv.
  assert (∀ id, id ∈ U → rtypeOf t = RStruct id ∨ (∃ v, rtypeOf t = RNull id v) →
    ∃ c', collectTypeU id c = Some c' ∧ completes c c' ∧ declaresType c' (tsOf (rtypeOf t))) as Hst.
  { intros id Hid Heq. destruct (collectTypeU_ok id c Hid) as (c' & Hc & Hcc & Hin). exists c'.
    split_and!; [done|done|]. intros n Hn. apply goTypeToTS_names in Hn as [(e & Hl & _)|Hn].
    - exfalso. destruct Heq as [Heq|[v Heq]]; rewrite Heq in *; cbn in Hl; by rewrite He in Hl.
    - destruct Heq as [Heq|[v Heq]]; rewrite Heq in *; cbn [below collectable] in *.
      + destruct Hn as (-> & _ & _ & Hb). unfold declares. cbn [fst snd]. rewrite He.
        split; [|done]. apply Hin. unfold special.
        by rewrite !bool_decide_false.
      + rewrite Hk in Hn. by apply not_elem_of_nil in Hn. }
  pose proof (collectNestedU_ok (rtypeOf t) c Hu Hk) as Hn.
  destruct (rtypeOf t) as [k o|u|o e|o m e|o k e|id|id v| |] eqn:Eq; try exact Hn.
  - apply Hst; [exact Hu|by left].
  - apply Hst; [exact Hu|right; by eexists].
Qed.

(** Every type that a handler's functions are printed with. *)
Definition handlerTypes (info : HandlerInfo) : list tsType :=
  ((λ p, tsOf (rtypeOf (pi_type p))) <$> hi_params info) ++
  (if isVoidType (hi_response info) then [] else [tsOf (rtypeOf (hi_response info))]) ++
  ((λ k, tsOf (rtypeOf k)) <$> streamKey info).

Lemma collectHandler_ok info c :
  handlerOk info →
  ∃ c', collectHandler info c = Some c' ∧ completes c c' ∧
    ∀ e, e ∈ handlerTypes info → declaresType c' e.
Proof.
  intros (Hp & Hr & Hk & _). unfold collectHandler.
  destruct (andThen_ok (λ p, collectNestedU (rtypeOf (pi_type p))) (λ c p, declaresType c (tsOf (rtypeOf (pi_type p))))
    (hi_params info) c) as (c1 & H1 & Hc1 & Hq1).
  { intros p c0 Hin. destruct (Hp p Hin). by apply collectNestedU_ok. }
  { intros p c0 c1. apply declaresType_mono. }
  rewrite H1. cbn [mbind option_bind].
  assert (∃ c2, collectResponse (hi_response info) c1 = Some c2 ∧ completes c1 c2 ∧
    (isVoidType (hi_response info) = false → declaresType c2 (tsOf (rtypeOf (hi_response info)))))
    as (c2 & -> & Hc2 & Hq2).
  { destruct (isVoidType (hi_response info)) eqn:Hv.
    - exists c1. unfold collectResponse. rewrite Hv. by split_and!.
    - destruct (collectResponse_ok _ c1 Hv (Hr eq_refl)) as (c2 & H2' & Hc2 & Hq2). exists c2. by split_and!. }
  cbn [mbind option_bind].
  destruct (andThen_ok (λ t, collectNestedU (rtypeOf t)) (λ c t, declaresType c (tsOf (rtypeOf t)))
    (streamKey info) c2) as (c3 & H3 & Hc3 & Hq3).
  { intros t c0 Hin. destruct (Hk t Hin). by apply collectNestedU_ok. }
  { intros t c0 c3. apply declaresType_mono. }
  exists c3. split; [done|]. split; [by repeat (etrans; [eassumption|])|].
  intros e [He|[He|He]%elem_of_app]%elem_of_app.
  - apply list_elem_of_fmap in He as (p & -> & Hin). eapply declaresType_mono; [|by apply Hq1]. by etrans.
  - destruct (isVoidType (hi_response info)); [by apply not_elem_of_nil in He|].
    apply list_elem_of_singleton in He as ->. eapply declaresType_mono; [done|by apply Hq2].
  - apply list_elem_of_fmap in He as (k & -> & Hin). by apply Hq3.
Qed.

Lemma handlersOf_in g n info : (n, info) ∈ handlersOf g → gr_handlers g !! n = Some info.
Proof.
  intros (m & _ & Hm)%list_elem_of_omap. destruct (gr_handlers g !! m) eqn:E; [|done].
  by injection Hm as <- <-.
Qed.

Lemma addEnumOf_ok es c :
  (∀ e, e ∈ es → e ∈ allEnums) →
  completes c (foldl (λ c e, addEnumOf e c) c es) ∧
  ∀ e, e ∈ es → en_type e ∈ c_enums (foldl (λ c e, addEnumOf e c) c es).
Proof.
  revert c. induction es as [|e es IH]; intros c Hes; cbn [foldl]; [split; [done|by intros e ?%not_elem_of_nil]|].
  destruct (IH (addEnumOf e c)) as [Hc Hin]; [intros x Hx; apply Hes; by right|]. split.
  - etrans; [|exact Hc]. split; [split; [done|apply union_subseteq_r]|]. intros x Hx Hn. by destruct Hn.
  - intros x [->|Hx]%elem_of_cons; [|by apply Hin]. apply (proj1 Hc). by apply elem_of_union_l, elem_of_singleton.
Qed.

Lemma clientGroups_in g : g ∈ clientGroups → ∃ n, r_groups reg !! n = Some g ∧ gr_socket g = true.
Proof.
  intros (n & _ & Hn)%list_elem_of_omap. destruct (r_groups reg !! n) as [g'|] eqn:E; [|done].
  cbn [mbind option_bind] in Hn. destruct (gr_socket g') eqn:Hs; [|done]. injection Hn as ->. by exists n.
Qed.

Lemma groupEnums_in g e : g ∈ clientGroups → e ∈ gr_enums g → e ∈ allEnums.
Proof.
  intros (n & Hg & _)%clientGroups_in He. unfold allEnums. apply elem_of_app. left.
  apply list_elem_of_bind. exists (n, g). split; [done|]. by apply elem_of_map_to_list.
Qed.

(** What a file for a group is printed with is collected. *)
Definition covers (g : @HandlerGroup Mw) (c : collected) : Prop :=
  (∀ n info e, (n, info) ∈ handlersOf g → e ∈ handlerTypes info → declaresType c e) ∧
  (∀ ev, ev ∈ gr_pushEvents g → pe_type ev ∈ c_types c).

Lemma covers_mono g c c' : completes c c' → covers g c → covers g c'.
Proof.
  intros Hc [Hh He]. split; [|intros ev Hev; by apply (proj1 Hc), He].
  intros n info e Hin Het. eapply declaresType_mono; [exact Hc|]. by eapply Hh.
Qed.

(** Collecting a group ends; it covers everything its file is printed with, and everything
    that in turn mentions. *)
Lemma collectInto_ok g c :
  g ∈ clientGroups → ∃ c', collectInto g c = Some c' ∧ completes c c' ∧ covers g c'.
Proof.
  intros Hg. destruct (env_groups Henv g Hg) as [Hh He]. unfold collectInto.
  destruct (andThen_ok (λ h : string * HandlerInfo, collectHandler h.2)
    (λ c h, ∀ e, e ∈ handlerTypes h.2 → declaresType c e) (handlersOf g) c) as (c1 & -> & Hc1 & Hq1).
  { intros [n info] c0 Hin. apply handlersOf_in in Hin. by apply collectHandler_ok, (Hh n). }
  { intros h c0 c' Hcc Hq e Hin. eapply declaresType_mono; [done|]. by apply Hq. }
  cbn [mbind option_bind].
  destruct (andThen_ok (λ ev, collectTypeU (pe_type ev)) (λ c ev, pe_type ev ∈ c_types c) (gr_pushEvents g) c1)
    as (c2 & -> & Hc2 & Hq2).
  { intros ev c0 Hin. destruct (He ev Hin) as (Hu & Hs & _).
    destruct (collectTypeU_ok (pe_type ev) c0 Hu) as (c' & Hc & Hcc & Ht). exists c'. by split_and!; [..|apply Ht]. }
  { intros ev c0 c' [[Hg' _] _]. apply Hg'. }
  cbn [mbind option_bind].
  destruct (addEnumOf_ok (gr_enums g) c2) as [Hc3 _]; [intros e Hin; by eapply groupEnums_in|].
  eexists. split_and!; [done|by repeat (etrans; [eassumption|])|]. apply (covers_mono _ c2); [exact Hc3|]. split.
  - intros n info e Hin Het. eapply declaresType_mono; [exact Hc2|]. by apply (Hq1 (n, info)).
  - exact Hq2.
Qed.

Lemma empty_closed : closedUnder (Collected ∅ ∅).
Proof. by intros x ?%not_elem_of_empty. Qed.

Lemma collectedOf_ok g :
  g ∈ clientGroups → is_Some (collectGroupTypes g) ∧ closedUnder (collectedOf g) ∧ covers g (collectedOf g).
Proof.
  intros Hg. unfold collectedOf, collectGroupTypes.
  destruct (collectInto_ok g (Collected ∅ ∅) Hg) as (c & -> & Hc & Hcov). cbn [default].
  split_and!; [by eexists|by eapply complete_closed, empty_closed|done..].
Qed.

Lemma collectFieldsU_ok id : is_Some (collectFieldsU id).
Proof.
  destruct (env_embed Henv) as (depth & Hle & Hd). apply (collectInterfaceFields_ends _ _ _ _ _ _ _ _ depth); [exact Hd|].
  apply Nat.lt_succ_r, Hle.
Qed.

(** *** Sharing *)

(** What is used where a shared type is, is shared too. *)
Lemma usedTwice_mono sel1 sel2 x y :
  (∀ g, g ∈ clientGroups → x ∈ sel1 (collectedOf g) → y ∈ sel2 (collectedOf g)) →
  x ∈ usedTwice sel1 → y ∈ usedTwice sel2.
Proof.
  intros Hxy. unfold usedTwice. rewrite !elem_of_filter. intros [Hlen _].
  set (n1 := length _) in Hlen. set (all2 := _ <$> clientGroups).
  assert (n1 ≤ length (filter (λ s, y ∈ s) all2)) as Hle.
  { unfold n1, all2. clear Hlen n1 all2. revert Hxy. generalize clientGroups. intros l Hxy.
    induction l as [|g l IH]; [done|]. rewrite !fmap_cons.
    assert (length (filter (λ s, x ∈ s) ((λ g, sel1 (collectedOf g)) <$> l)) ≤
            length (filter (λ s, y ∈ s) ((λ g, sel2 (collectedOf g)) <$> l))) as IHl
      by (apply IH; intros g' Hg'; apply Hxy; by right).
    destruct (decide (x ∈ sel1 (collectedOf g))) as [Hx|Hx].
    - assert (y ∈ sel2 (collectedOf g)) as Hy by (apply Hxy; [by left|done]).
      rewrite !filter_cons_True by done. cbn [length]. lia.
    - rewrite (filter_cons_False (λ s, x ∈ s)) by done. etrans; [exact IHl|].
      rewrite filter_cons. case_decide; cbn [length]; lia. }
  split; [lia|]. apply elem_of_union_list.
  destruct (filter (λ s, y ∈ s) all2) as [|s l] eqn:E; [simpl in Hle; lia|].
  assert (s ∈ filter (λ s, y ∈ s) all2) as Hs by (rewrite E; by left).
  apply list_elem_of_filter in Hs as [? ?]. by exists s.
Qed.

Lemma usedTwice_some sel x :
  x ∈ usedTwice sel → ∃ g, g ∈ clientGroups ∧ x ∈ sel (collectedOf g).
Proof.
  unfold usedTwice. rewrite elem_of_filter. intros [_ (s & Hs & Hx)%elem_of_union_list].
  apply list_elem_of_fmap in Hs as (g & -> & Hg). by exists g.
Qed.

(** *** Declarations *)

Lemma sortBy_in {A} (key : A → gostr) l x : x ∈ sortBy key l ↔ x ∈ l.
Proof. unfold sortBy. by rewrite merge_sort_Permutation. Qed.

Lemma localNames_type types enums id :
  id ∈ types → typeNameOf id ∈ localNames (buildInterfaces types) enums.
Proof.
  intros Hid. apply elem_of_list_to_set, elem_of_app. left. unfold buildInterfaces.
  rewrite <- list_fmap_compose. apply list_elem_of_fmap. exists id. split; [done|].
  by apply sortBy_in, elem_of_elements.
Qed.

Lemma localNames_enum ifaces enums id e :
  id ∈ enums → enumTypes !! id = Some e → enumName e ∈ localNames ifaces (buildEnums enums).
Proof.
  intros Hid He. apply elem_of_list_to_set, elem_of_app. right. unfold buildEnums.
  rewrite <- list_fmap_compose. apply list_elem_of_fmap. exists e. split; [done|].
  apply sortBy_in, list_elem_of_omap. exists id. split; [by apply elem_of_elements|done].
Qed.

Lemma pkg_sorted id : id ∈ sharedTypeSet ∪ sharedEnumSet → pkgOf id ∈ sortedPkgs.
Proof.
  intros Hid. apply sortedNames_in, elem_of_list_to_set, list_elem_of_fmap_2. by apply elem_of_elements.
Qed.

Lemma shared_type_declared id :
  id ∈ sharedTypeSet → pkgOf id ∈ sortedPkgs ∧ typeNameOf id ∈ declaredIn (pkgOf id).
Proof.
  intros Hid. split; [by apply pkg_sorted, elem_of_union_l|]. apply localNames_type. by apply elem_of_filter.
Qed.

Lemma shared_enum_declared id e :
  id ∈ sharedEnumSet → enumTypes !! id = Some e →
  pkgOf id ∈ sortedPkgs ∧ enumName e ∈ declaredIn (pkgOf id).
Proof.
  intros Hid He. split; [by apply pkg_sorted, elem_of_union_r|].
  apply (localNames_enum _ _ id); [by apply elem_of_filter|done].
Qed.

(** *** The table of shared names *)

Lemma insertAll_lookup (s : gset gostr) (module : gostr) (m : gmap gostr gostr) n :
  (n ∈ s → set_fold (λ n m, <[n := module]> m) m s !! n = Some module) ∧
  (n ∉ s → set_fold (λ n m, <[n := module]> m) m s !! n = m !! n).
Proof.
  revert n. apply (set_fold_ind_L (λ (r : gmap gostr gostr) (s : gset gostr), ∀ n,
    (n ∈ s → r !! n = Some module) ∧ (n ∉ s → r !! n = m !! n))).
  - intros n. split; [by intros ?%not_elem_of_empty|done].
  - intros x s' r _ IH n. destruct (decide (n = x)) as [->|Hne].
    + rewrite lookup_insert_eq. split; [done|]. intros Hn. destruct Hn. by apply elem_of_union_l, elem_of_singleton.
    + rewrite lookup_insert_ne by done. destruct (IH n) as [H1 H2]. split.
      * by intros [?%elem_of_singleton|?]%elem_of_union; [|apply H1].
      * intros Hn. apply H2. intros Hin. apply Hn. by apply elem_of_union_r.
Qed.

Lemma sharedTypeNames_spec n :
  (∀ pkg, pkg ∈ sortedPkgs → n ∈ declaredIn pkg → is_Some (sharedTypeNames !! n)) ∧
  (∀ module, sharedTypeNames !! n = Some module →
     ∃ pkg, pkg ∈ sortedPkgs ∧ module = moduleOf pkg ∧ n ∈ declaredIn pkg).
Proof.
  unfold sharedTypeNames.
  assert (∀ pkgs (m : gmap gostr gostr), (∀ pkg, pkg ∈ pkgs → pkg ∈ sortedPkgs) →
    (∀ pkg, pkg ∈ pkgs ∧ n ∈ declaredIn pkg ∨ is_Some (m !! n) →
       is_Some (foldl (λ m pkg, set_fold (λ n m, <[n := moduleOf pkg]> m) m (declaredIn pkg)) m pkgs !! n)) ∧
    (∀ module, foldl (λ m pkg, set_fold (λ n m, <[n := moduleOf pkg]> m) m (declaredIn pkg)) m pkgs !! n = Some module →
       m !! n = Some module ∨ ∃ pkg, pkg ∈ sortedPkgs ∧ module = moduleOf pkg ∧ n ∈ declaredIn pkg)) as Hgen.
  { induction pkgs as [|p pkgs IH]; intros m Hp; cbn [foldl].
    - split; [intros pkg [[Hin _]|Hm]; [by apply not_elem_of_nil in Hin|done]|by left].
    - destruct (IH (set_fold (λ n m, <[n := moduleOf p]> m) m (declaredIn p))) as [H1 H2];
        [intros q Hq; apply Hp; by right|].
      destruct (insertAll_lookup (declaredIn p) (moduleOf p) m n) as [Hi1 Hi2]. split.
      + intros pkg [[[->|Hin]%elem_of_cons Hn]|Hm].
        * apply (H1 p). right. rewrite Hi1 by done. by eexists.
        * apply (H1 pkg). by left.
        * apply (H1 pkg). right.
          destruct (decide (n ∈ declaredIn p)); [rewrite Hi1 by done; by eexists|by rewrite Hi2].
      + intros module Hf. destruct (H2 module Hf) as [Hm|]; [|by right].
        destruct (decide (n ∈ declaredIn p)) as [Hin|]; [|left; by rewrite Hi2 in Hm].
        rewrite Hi1 in Hm by done. injection Hm as <-. right. exists p. split_and!; [apply Hp; by left|done|done]. }
  destruct (Hgen sortedPkgs ∅) as [H1 H2]; [done|]. split.
  - intros pkg Hp Hn. apply (H1 pkg). by left.
  - intros module Hm. destruct (H2 module Hm) as [Hm'|]; [by rewrite lookup_empty in Hm'|done].
Qed.

(** *** References *)

(** A name of a file is declared there, or imported from a package's file that declares it. *)
Definition resolves (d : templateData) (n : gostr) : Prop :=
  n ∈ localNames (td_Interfaces d) (td_Enums d) ∨
  ∃ pkg ns, pkg ∈ sortedPkgs ∧ (moduleOf pkg, ns) ∈ td_SharedImports d ∧ n ∈ ns ∧ n ∈ declaredIn pkg.

Definition sharedName (n : gostr) : Prop := ∃ pkg, pkg ∈ sortedPkgs ∧ n ∈ declaredIn pkg.

Lemma resolves_import shared d e n :
  e ∈ scanned d → bounded e → n ∈ names e →
  n.1 ∈ localNames (td_Interfaces d) (td_Enums d) ∨
  (∃ pkg, pkg ∈ sortedPkgs ∧ n.1 ∈ declaredIn pkg ∧ shared !! n.1 = Some (moduleOf pkg)) →
  resolves (withImports shared d) n.1.
Proof.
  intros He Hb Hn Hd.
  destruct (decide (n.1 ∈ localNames (td_Interfaces d) (td_Enums d))) as [Hl|Hl]; [by left|right].
  destruct Hd as [|(pkg & Hp & Hin & Hs)]; [done|].
  destruct (import_found (localNames (td_Interfaces d) (td_Enums d)) (render <$> scanned d) shared n.1
    (render e) (moduleOf pkg)) as (ns & Hi & Hns).
  - done.
  - by apply list_elem_of_fmap_2.
  - by apply bounded_contains.
  - done.
  - exists pkg, ns. by split_and!.
Qed.

Lemma fields_bounded fuel id fs fd :
  collectInterfaceFields isLetter isDigit isPrint nameOf fieldsOf marshalerOf enumTypes fieldTypeOverride
    fuel id = Some fs → fd ∈ fs → bounded (fd_Type fd).
Proof.
  revert id fs. induction fuel as [|fuel IH]; intros id fs Hfs Hfd; [done|].
  destruct (interfaceFields_inv _ _ _ _ _ _ _ _ fuel id fs fd Hfs Hfd) as (f & Hf & Hs & Hm).
  destruct (flattened f) as [[ft|]|]; [|done|].
  - destruct Hm as (fs' & Hfs' & Hfd'). by eapply IH.
  - subst fd. apply bounded_field.
Qed.

(** The fields of an interface of a file. *)
Lemma buildInterfaces_field types i fd :
  i ∈ buildInterfaces types → fd ∈ if_Fields i →
  ∃ id fuel fs, id ∈ types ∧ fd ∈ fs ∧
    collectInterfaceFields isLetter isDigit isPrint nameOf fieldsOf marshalerOf enumTypes fieldTypeOverride
      fuel id = Some fs.
Proof.
  intros (id & -> & Hid)%list_elem_of_fmap Hfd. apply sortBy_in, elem_of_elements in Hid.
  cbn [if_Fields] in Hfd. unfold interfaceFields, collectFieldsU in Hfd.
  destruct (collectInterfaceFields _ _ _ _ _ _ _ _ _ id) as [fs|] eqn:E; [|by apply not_elem_of_nil in Hfd].
  by exists id, (S embedDepth), fs.
Qed.

Lemma paramsFrom_type i ns ps p :
  p ∈ paramsFrom i ns ps → ∃ q, q ∈ ps ∧
    (pd_Type p = tsOf (rtypeOf (pi_type q)) ∨ pd_Type p = tsOf (rtypeOf (pi_type q)) ++ txt "[]").
Proof.
  revert i ns. induction ps as [|q ps IH]; intros i ns; cbn [paramsFrom]; [by intros ?%not_elem_of_nil|].
  intros [->|Hp]%elem_of_cons.
  - exists q. split; [by left|]. cbn [pd_Type]. destruct (pi_variadic q); [by right|by left].
  - destruct (IH _ _ Hp) as (q' & Hq' & ?). exists q'. split; [by right|done].
Qed.

(** What is printed for a method are types that were collected for it. *)
Lemma method_types h wire short e n :
  handlerOk h →
  e ∈ md_ResponseType (buildMethodData h wire short) :: (pd_Type <$> md_Params (buildMethodData h wire short)) →
  n ∈ names e → bounded e ∧ ∃ e', e' ∈ handlerTypes h ∧ n ∈ names e'.
Proof.
  intros (_ & _ & _ & Hv) [->|(p & -> & Hp)%list_elem_of_fmap]%elem_of_cons Hn.
  - cbn [buildMethodData md_ResponseType] in *. unfold handlerTypes.
    destruct (isVoidType (hi_response h)) eqn:Ev.
    { destruct (Hv eq_refl) as [Hs Hs2]. rewrite Hs, Hs2 in Hn. by apply not_elem_of_nil in Hn. }
    rewrite andb_false_r in *. set (resp := tsOf _) in *.
    assert (n ∈ names resp ∧ bounded (if isStream h || isStream2 h then resp
      else if isBlobResponse (rtypeOf (hi_response h)) then txt "Blob" else resp)) as [Hr Hb].
    { destruct (_ || _); [|destruct (isBlobResponse _)]; try (by apply not_elem_of_nil in Hn);
        (split; [exact Hn|apply bounded_type]). }
    split; [exact Hb|]. exists resp. split; [|exact Hr]. apply elem_of_app. right. by left.
  - destruct (paramsFrom_type _ _ _ _ Hp) as (q & Hq & [Heq|Heq]); rewrite Heq in *.
    + split; [apply bounded_type|]. eexists. split; [|exact Hn].
      apply elem_of_app. left. apply list_elem_of_fmap. by exists q.
    + split; [by apply bounded_after, bounded_type|].
      rewrite names_app, names_txt, app_nil_r in Hn. eexists. split; [|exact Hn].
      apply elem_of_app. left. apply list_elem_of_fmap. by exists q.
Qed.

(** What a group's types are called is declared in its own file or in a package's. *)
Definition sharedBy (n : gostr * string) : Prop :=
  match enumTypes !! n.2 with
  | Some e => n.2 ∈ sharedEnumSet ∧ enumName e = n.1
  | None => n.2 ∈ sharedTypeSet ∧ typeNameOf n.2 = n.1
  end.

Lemma sharedBy_entry n :
  sharedBy n → ∃ pkg, pkg ∈ sortedPkgs ∧ n.1 ∈ declaredIn pkg ∧ sharedTypeNames !! n.1 = Some (moduleOf pkg).
Proof.
  intros Hs. assert (∃ pkg, pkg ∈ sortedPkgs ∧ n.1 ∈ declaredIn pkg) as (pkg & Hp & Hin).
  { unfold sharedBy in Hs. exists (pkgOf n.2). destruct (enumTypes !! n.2) as [e|] eqn:He; destruct Hs as [Hin <-].
    - by apply shared_enum_declared.
    - by apply shared_type_declared. }
  destruct (sharedTypeNames_spec n.1) as [H1 H2]. destruct (H1 pkg Hp Hin) as [module Hm].
  destruct (H2 module Hm) as (pkg' & Hp' & -> & Hin'). by exists pkg'.
Qed.

Lemma group_name_declared g n d :
  declaresName (collectedOf g) n →
  td_Interfaces d = buildInterfaces (c_types (collectedOf g) ∖ sharedTypeSet) →
  td_Enums d = buildEnums (c_enums (collectedOf g) ∖ sharedEnumSet) →
  n.1 ∈ localNames (td_Interfaces d) (td_Enums d) ∨ sharedBy n.
Proof.
  intros Hd -> ->. unfold declares, sharedBy in *.
  destruct (enumTypes !! n.2) as [e|] eqn:He; destruct Hd as [Hin <-].
  - destruct (decide (n.2 ∈ sharedEnumSet)); [by right|left].
    apply (localNames_enum _ _ n.2); [by apply elem_of_difference|done].
  - destruct (decide (n.2 ∈ sharedTypeSet)); [by right|left]. apply localNames_type. by apply elem_of_difference.
Qed.

(** The fields of a type that groups share mention what those groups share. *)
Lemma shared_field_names id fuel fs fd n :
  id ∈ sharedTypeSet →
  collectInterfaceFields isLetter isDigit isPrint nameOf fieldsOf marshalerOf enumTypes fieldTypeOverride
    fuel id = Some fs → fd ∈ fs → n ∈ names (fd_Type fd) → sharedBy n.
Proof.
  intros Hid Hfs Hfd Hn.
  assert (∀ g, g ∈ clientGroups → id ∈ c_types (collectedOf g) → declaresName (collectedOf g) n) as Hall.
  { intros g Hg Hin. destruct (collectedOf_ok g Hg) as (_ & Hcl & _). by eapply interface_closed. }
  destruct (usedTwice_some _ _ Hid) as (g & Hg & Hin). pose proof (Hall g Hg Hin) as Hd.
  unfold sharedBy, declares in *. destruct (enumTypes !! n.2) as [e|] eqn:He; destruct Hd as [_ Hname].
  - split; [|done]. apply elem_of_union_l. eapply usedTwice_mono; [|exact Hid].
    intros g' Hg' Hin'. by destruct (Hall g' Hg' Hin').
  - split; [|done]. eapply usedTwice_mono; [|exact Hid].
    intros g' Hg' Hin'. by destruct (Hall g' Hg' Hin').
Qed.

(** A file of methods and events that were collected. *)
Definition madeOf (d : templateData) (c : collected) : Prop :=
  (∃ types, types ⊆ c_types c ∧ td_Interfaces d = buildInterfaces types) ∧
  (∀ m, m ∈ td_Methods d → ∃ g n info wire short,
     g ∈ clientGroups ∧ covers g c ∧ (n, info) ∈ handlersOf g ∧ m = buildMethodData info wire short) ∧
  (∀ pv, pv ∈ td_PushEvents d → ∃ g ev, g ∈ clientGroups ∧ covers g c ∧ ev ∈ gr_pushEvents g ∧ pv = pushData ev).

(** What is scanned in a file is collected. *)
Lemma scanned_collected d c e n :
  madeOf d c → closedUnder c → e ∈ scanned d → n ∈ names e → bounded e ∧ declaresName c n.
Proof.
  intros ((types & Hsub & Hi) & Hm & Hp) Hcl He Hn.
  apply elem_of_app in He as [He|[He|He]%elem_of_app].
  - apply list_elem_of_bind in He as (i & (fd & -> & Hfd)%list_elem_of_fmap & Hin). rewrite Hi in Hin.
    destruct (buildInterfaces_field _ _ _ Hin Hfd) as (id & fuel & fs & Hid & Hfs' & Hfs).
    split; [by eapply fields_bounded|]. eapply interface_closed; [done|by apply Hsub|done..].
  - apply list_elem_of_bind in He as (m & He & Hin). destruct (Hm m Hin) as (g & name & info & w & sh & Hg & [Hc _] & Hh & ->).
    destruct (method_types _ _ _ _ _ (proj1 (env_groups Henv g Hg) _ _ (handlersOf_in _ _ _ Hh)) He Hn)
      as (Hb & e' & He' & Hn').
    split; [done|]. by eapply Hc.
  - apply list_elem_of_fmap in He as (pv & -> & Hin). destruct (Hp pv Hin) as (g & ev & Hg & [_ Hc] & Hev & ->).
    cbn [pushData pv_DataType] in *. apply list_elem_of_singleton in Hn as ->.
    split; [apply bounded_name|]. destruct (proj2 (env_groups Henv g Hg) ev Hev) as (_ & _ & Hno).
    unfold declares. cbn [fst snd]. rewrite Hno. split; [by apply Hc|done].
Qed.

(** So is the key of a two-value stream. *)
Lemma keys_collected d c e n :
  madeOf d c → e ∈ keyTypes d → n ∈ names e → declaresName c n.
Proof.
  intros (_ & Hm & _) (m & Hin & He)%list_elem_of_omap Hn.
  destruct (Hm m Hin) as (g & name & info & w & sh & Hg & [Hc _] & Hh & ->).
  cbn [buildMethodData md_ItemKeyType] in He. eapply (Hc name info e Hh); [|exact Hn].
  unfold handlerTypes, streamKey. destruct (isStream2 info); [|done].
  destruct (hi_streamKey info) as [k|]; [|done]. injection He as <-.
  apply elem_of_app. right. apply elem_of_app. right. by left.
Qed.

Lemma printed_collected d c e n :
  madeOf d c → closedUnder c → e ∈ printed d → n ∈ names e → declaresName c n.
Proof.
  intros Hm Hcl [He|He]%elem_of_app Hn; [by eapply scanned_collected|by eapply keys_collected].
Qed.

Lemma group_madeOf g : g ∈ clientGroups → madeOf (buildTemplateData g) (collectedOf g).
Proof.
  intros Hg. destruct (collectedOf_ok g Hg) as (_ & _ & Hcov). split_and!.
  - eexists. split; [|done]. by intros x [? _]%elem_of_difference.
  - intros m ([n info] & -> & Hm)%list_elem_of_fmap. by exists g, n, info, (lit (gr_name g) ++ lit "." ++ lit n), (lit n).
  - intros pv (ev & -> & Hev)%list_elem_of_fmap. by exists g, ev.
Qed.

(** *** One file *)

Lemma handlersOf_lookup g n info : gr_handlers g !! n = Some info → (n, info) ∈ handlersOf g.
Proof.
  intros Hn. apply list_elem_of_omap. exists n. rewrite Hn. split; [|done].
  unfold sortStrings. rewrite merge_sort_Permutation. by apply elem_of_elements, elem_of_dom.
Qed.

Lemma clientGroups_lookup n g : r_groups reg !! n = Some g → gr_socket g = true → g ∈ clientGroups.
Proof.
  intros Hn Hs. apply list_elem_of_omap. exists n. rewrite Hn. cbn [mbind option_bind]. rewrite Hs. split; [|done].
  unfold sortStrings. rewrite merge_sort_Permutation. by apply elem_of_elements, elem_of_dom.
Qed.

Lemma combined_madeOf c : (∀ g, g ∈ clientGroups → covers g c) → madeOf (combinedData c) c.
Proof.
  intros Hcov. split_and!.
  - by exists (c_types c).
  - intros m (w & _ & Hm)%list_elem_of_omap. destruct (r_handlers reg !! w) as [info|] eqn:Hw; [|done].
    injection Hm as <-. destruct (ri_handler reg (env_registry Henv) w info Hw) as (g & Hg & Hs & Hh & _).
    pose proof (clientGroups_lookup _ _ Hg Hs) as Hin. exists g, (hi_name info), info, (lit w), (lit (hi_name info)).
    split_and!; [done|by apply Hcov|by apply handlersOf_lookup|done].
  - intros pv (ev & -> & Hev)%list_elem_of_fmap. destruct (env_events Henv ev Hev) as (g & Hg & Hin).
    exists g, ev. split_and!; [done|by apply Hcov|done..].
Qed.

Lemma combined_declares c n d :
  declaresName c n → d = combinedData c → n.1 ∈ localNames (td_Interfaces d) (td_Enums d).
Proof.
  intros Hd ->. unfold declares in Hd. cbn [combinedData td_Interfaces td_Enums].
  destruct (enumTypes !! n.2) as [e|] eqn:He; destruct Hd as [Hin <-].
  - by apply (localNames_enum _ _ n.2).
  - by apply localNames_type.
Qed.

Lemma GenerateTo_ok :
  ∃ d, GenerateTo = Some d ∧
    ∀ e n, e ∈ printed d → n ∈ names e → n.1 ∈ localNames (td_Interfaces d) (td_Enums d).
Proof.
  unfold GenerateTo.
  destruct (andThen_ok collectInto (λ c g, covers g c) clientGroups (Collected ∅ ∅)) as (c & -> & Hc & Hcov).
  { intros g c Hg. by apply collectInto_ok. }
  { intros g c c'. apply covers_mono. }
  cbn [mbind option_bind]. destruct (addEnumOf_ok (r_sharedEnums reg) c) as [Hc' _].
  { intros e He. unfold allEnums. apply elem_of_app. by right. }
  set (c' := foldl _ c _) in *. exists (combinedData c'). split; [done|]. intros e n He Hn.
  eapply combined_declares; [|done]. eapply printed_collected; [| |exact He|exact Hn].
  - apply combined_madeOf. intros g Hg. eapply covers_mono; [exact Hc'|]. by apply Hcov.
  - eapply complete_closed; [exact Hc'|]. eapply complete_closed; [exact Hc|apply empty_closed].
Qed.

Lemma scanned_resolves g e n :
  g ∈ clientGroups → e ∈ scanned (handlerFile g) → n ∈ names e → resolves (handlerFile g) n.1.
Proof.
  intros Hg He Hn. destruct (collectedOf_ok g Hg) as (_ & Hcl & _).
  destruct (scanned_collected _ _ e n (group_madeOf g Hg) Hcl He Hn) as [Hb Hd].
  apply (resolves_import _ _ e); [done|done|done|].
  assert (n.1 ∈ localNames (td_Interfaces (buildTemplateData g)) (td_Enums (buildTemplateData g)) ∨ sharedBy n)
    as [Hl|Hs] by (by eapply group_name_declared); [by left|right].
  by apply sharedBy_entry.
Qed.

Lemma shared_resolves pkg e n :
  pkg ∈ sortedPkgs → e ∈ printed (sharedFile pkg) → n ∈ names e → resolves (sharedFile pkg) n.1.
Proof.
  intros Hp [He|He]%elem_of_app Hn; [|by apply not_elem_of_nil in He].
  assert (bounded e ∧ sharedBy n) as [Hb Hs].
  { apply elem_of_app in He as [He|He]; [|by apply not_elem_of_nil in He].
    apply list_elem_of_bind in He as (i & (fd & -> & Hfd)%list_elem_of_fmap & Hi).
    destruct (buildInterfaces_field _ _ _ Hi Hfd) as (id & fuel & fs & Hid & Hin & Hfs).
    apply elem_of_filter in Hid as [_ Hid]. split; [by eapply fields_bounded|by eapply shared_field_names]. }
  apply (resolves_import _ _ e); [done|done|done|].
  destruct (decide (n.1 ∈ declaredIn pkg)) as [Hl|Hl]; [by left|right].
  destruct (sharedBy_entry n Hs) as (pkg' & Hp' & Hin' & Ht). exists pkg'. split_and!; [done|done|].
  apply map_lookup_filter_Some. split; [done|]. by intros [_ ?].
Qed.

End Env.
End Code.

(** *** Stale files *)

Definition generatedFileMarker : string := "// Code generated by aprot. DO NOT EDIT.".

Definition isGeneratedByAprot (content : gostr) : bool :=
  hasPrefix (lit generatedFileMarker) content &&
  match drop (length (lit generatedFileMarker)) content with
  | [] => true
  | r :: _ => bool_decide (r = 10)%Z || bool_decide (r = 13)%Z
  end.

(** A directory entry; the content is None if it cannot be read. *)
Record dirEntry := Entry { de_Name : gostr; de_IsDir : bool; de_Content : option gostr }.

(** The entries [removeStaleFiles] removes, all removals succeeding. *)
Definition removeStaleFiles (entries : list dirEntry) (written : gset gostr) : list gostr :=
  omap (λ e,
    if de_IsDir e || negb (hasSuffix (lit ".ts") (de_Name e)) then None
    else if bool_decide (de_Name e ∈ written) then None
    else
      match de_Content e with
      | Some content => if isGeneratedByAprot content then Some (de_Name e) else None
      | None => None
      end) entries.

(** Only files that are not written this time and that aprot generated are removed. *)
Lemma stale_files_only entries written n :
  n ∈ removeStaleFiles entries written →
  (n ∉ written) ∧ hasSuffix (lit ".ts") n = true ∧
  ∃ content, Entry n false (Some content) ∈ entries ∧ isGeneratedByAprot content = true.
Proof.
  intros ([m dir content] & Hin & Hm)%list_elem_of_omap. cbn [de_IsDir de_Name de_Content] in Hm.
  destruct dir; [done|]. destruct (hasSuffix _ m) eqn:Hs; [|done]. cbn [orb negb] in Hm.
  case_bool_decide; [done|]. destruct content as [content|]; [|done].
  destruct (isGeneratedByAprot content) eqn:Hg; [|done]. injection Hm as <-. split_and!; [done|done|by exists content].
Qed.

(** ** Concrete runs *)

#[local] Existing Instance asciiCase.
#[local] Instance exNaming : NamingPlugin := DefaultNaming false.

#[local] Instance tsToken_eq_dec : EqDecision tsToken.
Proof. solve_decision. Defined.

Definition exField (name : string) (t : rtype) : rfield := RField (lit name) t true false [] [].

Definition exFields (id : string) : list rfield :=
  if bool_decide (id = "m.User") then
    [exField "Id" (RBasic BInt None); exField "Role" (RBasic BString (Some "m.Role"));
     exField "Addr" (RPtr (RStruct "m.Addr"))]
  else if bool_decide (id = "m.Addr") then [exField "City" (RBasic BString None)]
  else if bool_decide (id = "m.Order") then
    [exField "Buyer" (RStruct "m.User"); exField "Lines" (RSlice None (RStruct "m.Line"))]
  else if bool_decide (id = "m.Line") then [exField "Sku" (RBasic BString None)]
  else [].

Fixpoint exRtype (t : goType) : rtype :=
  match t with
  | TBasic KString => RBasic BString None
  | TStruct n => RStruct n
  | TPtr t => RPtr (exRtype t)
  | TSlice t => RSlice None (exRtype t)
  | _ => RInterface
  end.

(** [m.Name] is the type [Name] of the package [example/models]. *)
Definition exName (id : string) : gostr := drop 2 (lit id).
Definition exPkg (id : string) : gostr := lit "example/models".

Definition exGet : HandlerInfo :=
  Info "Get" [Param (TBasic KString) false] (TStruct "m.User") "Users" false HandlerKindUnary None.
Definition exList : HandlerInfo :=
  Info "List" [Param (TStruct "m.Order") true] (TSlice (TStruct "m.Order")) "Orders" false HandlerKindStream None.

Definition exUsers : @HandlerGroup unit := Group "Users" {["Get" := exGet]} [] [] [] true.
Definition exOrders : @HandlerGroup unit :=
  Group "Orders" {["List" := exList]} [PushEvent "Line" "m.Line" "Orders"] [] [] true.

Definition exReg : @Registry unit :=
  Reg {["Users.Get" := exGet; "Orders.List" := exList]} {["Users" := exUsers; "Orders" := exOrders]}
    [PushEvent "Line" "m.Line" "Orders"] ∅ [] [] 1000
    [Registry.Enum "Role" "m.Role" true [(lit "Admin", lit "admin")]] ∅ ∅.

Definition exU : gset string := {["m.User"; "m.Addr"; "m.Order"; "m.Line"]}.
Definition ascii (r : rune) : bool := bool_decide (65 ≤ r ≤ 122)%Z.

Abbreviation exEnvironment := (environment ascii ascii exName exFields (λ _, NoMarshaler) (λ _ _, None) exRtype exReg exU 0).
Abbreviation exFile := (handlerFile ascii ascii (λ _, true) exName exPkg exFields (λ _, NoMarshaler) (λ _ _, None)
  exRtype (λ _ _, []) exReg {[lit "client"]} false exU 0).
Abbreviation exShared := (sharedFile ascii ascii (λ _, true) exName exPkg exFields (λ _, NoMarshaler) (λ _ _, None)
  exRtype exReg {[lit "client"]} exU 0).
Abbreviation exResolves := (resolves ascii ascii (λ _, true) exName exPkg exFields (λ _, NoMarshaler) (λ _ _, None)
  exRtype exReg {[lit "client"]} exU 0).

(** Users and Orders share User, with the address and the role it mentions. *)
Lemma exFile_imports :
  td_SharedImports (exFile exUsers) = [(lit "./models", [lit "User"])] ∧
  td_SharedImports (exFile exOrders) = [(lit "./models", [lit "User"])] ∧
  if_Name <$> td_Interfaces (exFile exOrders) = [lit "Line"; lit "Order"] ∧
  if_Name <$> td_Interfaces (exShared (lit "models")) = [lit "Addr"; lit "User"] ∧
  ed_Name <$> td_Enums (exShared (lit "models")) = [lit "Role"].
Proof. vm_compute. done. Qed.

Abbreviation exHandlerOk := (handlerOk ascii ascii exName (λ _, NoMarshaler) exRtype exReg exU).
Abbreviation exRootOk := (rootOk ascii ascii exName (λ _, NoMarshaler) exRtype exReg exU).
Abbreviation exResponseOk := (responseOk ascii ascii exName (λ _, NoMarshaler) exRtype exReg exU).

Lemma exHandler info :
  Forall (λ p, exRootOk (pi_type p)) (hi_params info) → exResponseOk (hi_response info) →
  isStream2 info = false → isVoidType (hi_response info) = false → exHandlerOk info.
Proof.
  intros Hp Hr Hs Hv. split_and!; [by apply Forall_forall|done| |by rewrite Hv].
  unfold streamKey. rewrite Hs. by intros k ?%not_elem_of_nil.
Qed.

(** The named types of the example, behind a slice or not. *)
Lemma exRoot id :
  id ∈ exU → id ≠ TsTypes.voidResponseType → exRootOk (TStruct id) ∧ exRootOk (TSlice (TStruct id)).
Proof. intros Hid Hv. by split; split. Qed.

Lemma exIn id : bool_decide (id ∈ exU) = true → id ∈ exU.
Proof. apply bool_decide_eq_true. Qed.

Lemma exRegInv : regInv exReg.
Proof.
  split; cbn [r_groups r_handlers exReg].
  - intros g grp [[<- <-]|[_ [<- <-]%lookup_singleton_Some]]%lookup_insert_Some; done.
  - intros g grp n info [[<- <-]|[_ [<- <-]%lookup_singleton_Some]]%lookup_insert_Some;
      cbn [gr_handlers exUsers exOrders]; intros [<- <-]%lookup_singleton_Some; by split_and!.
  - intros w info [[<- <-]|[_ [<- <-]%lookup_singleton_Some]]%lookup_insert_Some; eexists; by split_and!.
Qed.

Lemma exEnv : exEnvironment.
Proof.
  split.
  - intros id f Hf _. unfold exFields in Hf.
    repeat case_bool_decide; repeat (apply elem_of_cons in Hf as [->|Hf]); by try apply not_elem_of_nil in Hf.
  - intros id f _ Hf. unfold exFields in Hf.
    repeat case_bool_decide; repeat (apply elem_of_cons in Hf as [->|Hf]); try (by apply not_elem_of_nil in Hf);
      split; first [exact I|refine (exIn _ _); vm_compute; reflexivity].
  - exact exRegInv.
  - intros g (n & Hg & _)%clientGroups_in. cbn [r_groups exReg] in Hg.
    apply lookup_insert_Some in Hg as [[_ <-]|[_ [_ <-]%lookup_singleton_Some]]; split; cbn [gr_handlers gr_pushEvents exUsers exOrders].
    + intros m info [_ <-]%lookup_singleton_Some. apply exHandler; [by repeat constructor|split; [|reflexivity]|done..].
      apply exRoot; [by apply exIn; vm_compute|done].
    + intros ev Hev. by apply not_elem_of_nil in Hev.
    + intros m info [_ <-]%lookup_singleton_Some. apply exHandler; [constructor; [|constructor]|split; [|done]|done..];
        (apply exRoot; [by apply exIn; vm_compute|done]).
    + intros ev ->%list_elem_of_singleton. split_and!; [by apply exIn; vm_compute|done|reflexivity].
  - intros ev ->%list_elem_of_singleton. exists exOrders. split; [by left|by left].
  - exists (λ _, 0). split; [done|]. intros id f ft Hf. unfold exFields in Hf.
    repeat case_bool_decide; repeat (apply elem_of_cons in Hf as [->|Hf]); by try apply not_elem_of_nil in Hf.
Qed.



(** The base client is stored last, whatever else has its name. *)
Lemma base_client_written fs codes :
  foldl (λ m f, <[f.1 := f.2]> m) (∅ : gmap gostr genFile) (fs ++ [(lit "client.ts", BaseFile codes)]) !! lit "client.ts" =
  Some (BaseFile codes).
Proof. rewrite foldl_app. cbn [foldl fst snd]. by rewrite lookup_insert_eq. Qed.

Definition exClient : @HandlerGroup unit := Group "Client" {["Get" := exGet]} [] [] [] true.
Definition exReg1 : @Registry unit := Reg ∅ {["Client" := exClient]} [] ∅ [] [] 1000 [] ∅ ∅.

(** The file of a handler named Client has the base client's name, which replaces it. *)
Lemma client_group_overwritten :
  let gen := Generate ascii ascii (λ _, true) exName exPkg exFields (λ _, NoMarshaler) (λ _ _, None)
    exRtype (λ _ _, []) exReg1 ∅ false false exU 0 in
  FileName (lit (gr_name exClient)) ++ lit ".ts" = lit "client.ts" ∧
  match gen with Ok fs => fs !! lit "client.ts" = Some (BaseFile []) ∧ size fs = 1 | Err _ => False end.
Proof. vm_compute. done. Qed.

Definition exWatch : HandlerInfo :=
  Info "Watch" [] (TStruct "m.Line") "Orders" false HandlerKindStream2 (Some (TStruct "m.Role")).
Definition exReg2 : @Registry unit :=
  Reg ∅ {["Orders" := Group "Orders" {["Watch" := exWatch]} [] [] [] true]} [] ∅ [] [] 1000 (r_sharedEnums exReg) ∅ ∅.
Definition exRtype2 (t : goType) : rtype :=
  match t with TStruct "m.Role" => RBasic BString (Some "m.Role") | _ => exRtype t end.

(** The key of a two-value stream is printed, but not looked at for imports. *)
Lemma stream_key_not_imported :
  let d := handlerFile ascii ascii (λ _, true) exName exPkg exFields (λ _, NoMarshaler) (λ _ _, None)
    exRtype2 (λ _ _, []) exReg2 ∅ false exU 0 in
  (λ g, md_ItemKeyType <$> td_Methods (d g)) <$> clientGroups exReg2 = [[Some [TsName (lit "RoleType") "m.Role"]]] ∧
  (λ g, (td_SharedImports (d g), ed_Name <$> td_Enums (d g))) <$> clientGroups exReg2 = [([], [])].
Proof. vm_compute. done. Qed.

(** An enum that was registered for another group, and is used only as the key of a map, is
    printed but not collected: it is neither declared nor imported. *)
Definition exCount : HandlerInfo :=
  Info "Count" [] (TStruct "counts") "Orders" false HandlerKindUnary None.
Definition exReg3 : @Registry unit :=
  Reg ∅ {["Orders" := Group "Orders" {["Count" := exCount]} [] [] [] true;
          "Users" := Group "Users" ∅ [] (r_sharedEnums exReg) [] true]} [] ∅ [] [] 1000 [] ∅ ∅.
Definition exRtype3 (t : goType) : rtype :=
  match t with TStruct "counts" => RMap None (RBasic BString (Some "m.Role")) (RBasic BInt None) | _ => exRtype t end.

Lemma map_key_enum_undeclared :
  let d := handlerFile ascii ascii (λ _, true) exName exPkg exFields (λ _, NoMarshaler) (λ _ _, None)
    exRtype3 (λ _ _, []) exReg3 ∅ false exU 0 in
  (λ g, render ∘ md_ResponseType <$> td_Methods (d g)) <$> clientGroups exReg3 =
    [[lit "Record<RoleType, number>"]; []] ∧
  (λ g, (td_SharedImports (d g), ed_Name <$> td_Enums (d g))) <$> clientGroups exReg3 =
    [([], []); ([], [lit "Role"])].
Proof. vm_compute. done. Qed.

(** The element type of a variadic parameter is not put in parentheses. *)
Lemma variadic_union_unparenthesized :
  (λ p, render (pd_Type p)) <$> paramsFrom ascii ascii exName (λ _, NoMarshaler) exRtype exReg 0 []
    [Param (TStruct "database/sql.NullString") true] = [lit "string | null[]"] ∧
  render (goTypeToTS ascii ascii exName (λ _, NoMarshaler) ∅ (RSlice None (RStruct "database/sql.NullString"))) =
    lit "(string | null)[]".
Proof. vm_compute. done. Qed.

End Generate.
