(* ===== verification/TaskGen.v ===== *)
(** * TaskGen: the task part of the TypeScript client (tasks/codegen.go)

    The metadata type of tasks is declared by the main generator, in the task handler's file
    or in a shared one; [buildMetaReExports] finds where, so that tasks.ts can re-export the
    names. Struct types can be recursive: [collectNestedStructs] is on fuel, and the set of
    types it has seen bounds it. Generated files are texts by file name. *)

From S2P Require Import Prelude Runes Transform Registry Naming Schema Zod TsTypes.
From stdpp Require Import prelude gmap strings list fin_maps fin_sets sorting.

Module TaskGen.
Import Runes Naming Schema.
Import Zod(tsType, joinComma).
Import TsTypes(marshaler, InferTypeFromMarshal, sqlNullBase, hasSuffix, isRawJSON).

Section Gen.
  Context (nameOf : string → gostr) (fieldsOf : string → list rfield) (marshalerOf : rtype → marshaler).

Definition infer (t : rtype) : option gostr :=
  InferTypeFromMarshal (match t with RInterface => true | _ => false end) (marshalerOf t).

(** [T[]], with the element in parentheses if it is a union. *)
Definition elemList (e : gostr) : gostr := if hasInfix (lit " | ") e then lit "(" ++ e ++ lit ")[]" else e ++ lit "[]".
Definition elemTuple (n : nat) (e : gostr) : gostr :=
  if bool_decide (16 < n) then elemList e
  else let e := if hasInfix (lit " | ") e then lit "(" ++ e ++ lit ")" else e in
       lit "[" ++ joinComma (replicate n e) (lit ", ") ++ lit "]".

(** [goTypeToTS] of this package. *)
Fixpoint goTypeToTS (t : rtype) : gostr :=
  match t with
  | RPtr e => goTypeToTS e
  | _ =>
      match infer t with
      | Some mt =>
          match t with
          | RSlice _ e => if hasSuffix (lit "[]") mt then elemList (goTypeToTS e) else mt
          | _ => mt
          end
      | None =>
          match t with
          | RNull _ v => goTypeToTS v ++ lit " | null"
          | RStruct id =>
              match sqlNullBase id with Some b => lit b.1 ++ lit " | null" | None => nameOf id end
          | RBasic BString _ => lit "string"
          | RBasic (BInt | BUint8 | BUint | BFloat) _ => lit "number"
          | RBasic BBool _ => lit "boolean"
          | RSlice _ e => elemList (goTypeToTS e)
          | RArray _ n e => if isUint8 e then lit "string" else elemTuple n (goTypeToTS e)
          | RMap _ k e => lit "Record<" ++ goTypeToTS k ++ lit ", " ++ goTypeToTS e ++ lit ">"
          | RPtr _ | RAnonStruct | RInterface | RBasic BOther _ => lit "unknown"
          end
      end
  end.

(** [aprot.SQLNullTSType(t, goTypeToTS)]. *)
Definition SQLNullTSType (t : rtype) : gostr :=
  match deref t with
  | RStruct id => match sqlNullBase id with Some b => lit b.1 ++ lit " | null" | None => [] end
  | RNull _ v => goTypeToTS v ++ lit " | null"
  | _ => []
  end.

Definition hasMarshalOverride (t : rtype) : bool :=
  bool_decide (is_Some (infer t)) || negb (bool_decide (SQLNullTSType t = [])).

Fixpoint underlyingStructType (t : rtype) : rtype :=
  match t with
  | RPtr e | RSlice _ e | RArray _ _ e | RMap _ _ e => underlyingStructType e
  | _ => t
  end.

(** The struct types a field leads to: at most one. *)
Definition fieldStruct (f : rfield) : option string :=
  if negb (f_exported f) || bool_decide (f_json f = lit "-") then None
  else
    match underlyingStructType (f_type f) with
    | RStruct id as ft => if hasMarshalOverride ft then None else Some id
    | RNull id _ as ft => if hasMarshalOverride ft then None else Some id
    | _ => None
    end.

(** The nested types so far, and [seen]. *)
Definition nestedState : Type := list string * gset string.

Fixpoint collectNestedStructs (fuel : nat) (id : string) (st : nestedState) : option nestedState :=
  match fuel with
  | 0 => None
  | S fuel =>
      if bool_decide (id ∈ st.2) then Some st
      else
        foldl (λ o f,
          st ← o;
          match fieldStruct f with
          | None => Some st
          | Some ft => st ← collectNestedStructs fuel ft st; Some (st.1 ++ [ft], st.2)
          end) (Some (st.1, {[id]} ∪ st.2)) (fieldsOf id)
  end.

(** Names of the nested types, then of [t] itself. *)
Definition metaTypeNames (fuel : nat) (t : rtype) : option (list gostr) :=
  match deref t with
  | RStruct id | RNull id _ => st ← collectNestedStructs fuel id ([], ∅); Some ((nameOf <$> st.1) ++ [nameOf id])
  | _ => Some []
  end.

(** ** Re-exports *)

Definition results : Type := gmap gostr gostr.

Definition isTs (file : gostr) : bool := hasSuffix (lit ".ts") file.
Definition moduleOf (file : gostr) : gostr := lit "./" ++ take (length file - 3) file.
Definition tsFiles (rs : results) : list gostr := sortNames (filter (λ f, isTs f = true) (elements (dom rs))).

Definition declaresIn (rs : results) (name file : gostr) : bool :=
  hasInfix (lit "export interface " ++ name ++ lit " {") (default [] (rs !! file)).

(** The file that declares a name: the first one. *)
Definition declaringFile (rs : results) (name : gostr) : option gostr :=
  find (declaresIn rs name) (tsFiles rs).

(** [byModule] and [moduleOrder] in one: the modules in order, each with its names. *)
Fixpoint addName (module name : gostr) (ms : list (gostr * list gostr)) : list (gostr * list gostr) :=
  match ms with
  | [] => [(module, [name])]
  | (m, ns) :: ms => if bool_decide (m = module) then (m, ns ++ [name]) :: ms else (m, ns) :: addName module name ms
  end.

Definition groupNames (rs : results) (names : list gostr) : list (gostr * list gostr) :=
  foldl (λ ms name, match declaringFile rs name with Some f => addName (moduleOf f) name ms | None => ms end) [] names.

Record metaReExportData := MetaReExport { me_Module : gostr; me_Names : gostr }.

Definition buildMetaReExports (fuel : nat) (rs : results) (t : rtype) : option (list metaReExportData) :=
  names ← metaTypeNames fuel t;
  Some ((λ m, MetaReExport m.1 (joinComma m.2 (lit ", "))) <$> groupNames rs names).

(** ** The convenience code *)

Record taskTemplateData := TaskTemplate { tt_IsMultiFile : bool; tt_IsReact : bool; tt_MetaReExports : list metaReExportData }.

(** The template is the parameter; [metaType] is None without metadata. *)
Definition appendTaskConvenienceCode (template : taskTemplateData → gostr) (fuel : nat)
    (rs : results) (react : bool) (metaType : option rtype) : option results :=
  let isMultiFile := bool_decide (is_Some (rs !! lit "tasks-handler.ts")) in
  reExports ← match metaType with
              | Some t => if isMultiFile then buildMetaReExports fuel rs t else Some []
              | None => Some []
              end;
  let code := template (TaskTemplate isMultiFile react reExports) in
  Some (if isMultiFile then <[lit "tasks.ts" := code]> rs
        else <[lit "client.ts" := default [] (rs !! lit "client.ts") ++ code]> rs).

(** ** The walk ends, and finds every type *)

(** [ft] is the type of a field of [id]. *)
Definition child (id ft : string) : Prop := ∃ f, f ∈ fieldsOf id ∧ fieldStruct f = Some ft.

(** Types entered, all of whose fields are in the list; [open] are those whose fields are
    still being walked. *)
Record covers (open : gset string) (st : nestedState) : Prop := Covers {
  cv_children id ft : id ∈ st.2 → id ∉ open → child id ft → ft ∈ st.1;
  cv_seen id : id ∈ st.1 → id ∈ st.2;
}.

Context (U : gset string) (HU : ∀ id ft, child id ft → ft ∈ U).

Lemma collect_spec fuel id st open :
  size (U ∖ st.2) < fuel → id ∈ U → open ⊆ st.2 → covers open st →
  ∃ st', collectNestedStructs fuel id st = Some st' ∧ covers open st' ∧ id ∈ st'.2 ∧ st.2 ⊆ st'.2 ∧ st.1 ⊆ st'.1.
Proof.
  revert id st open. induction fuel as [|fuel IH]; intros id st open Hf Hid Ho Hc; [lia|]. simpl.
  case_bool_decide as Hs; [by exists st|].
  assert (Hsize : size (U ∖ ({[id]} ∪ st.2)) < fuel).
  { assert (size (U ∖ ({[id]} ∪ st.2)) < size (U ∖ st.2)); [|lia]. apply subset_size. set_solver. }
  assert (Hloop : ∀ fs st1, (∀ f, f ∈ fs → f ∈ fieldsOf id) → {[id]} ∪ st.2 ⊆ st1.2 → covers ({[id]} ∪ open) st1 →
    ∃ st2, foldl (λ o f,
          st ← o;
          match fieldStruct f with
          | None => Some st
          | Some ft => st ← collectNestedStructs fuel ft st; Some (st.1 ++ [ft], st.2)
          end) (Some st1) fs = Some st2 ∧ covers ({[id]} ∪ open) st2 ∧ st1.2 ⊆ st2.2 ∧ st1.1 ⊆ st2.1 ∧
      ∀ f ft, f ∈ fs → fieldStruct f = Some ft → ft ∈ st2.1).
  { induction fs as [|f fs IHfs]; intros st1 Hfs Hst1 Hc1; simpl.
    { exists st1. split_and!; try done. by intros f ft ?%not_elem_of_nil. }
    destruct (fieldStruct f) as [ft|] eqn:Ef.
    - destruct (IH ft st1 ({[id]} ∪ open)) as (st2 & E2 & Hc2 & Hft & Hs2 & Hn2).
      + eapply Nat.le_lt_trans; [|exact Hsize]. apply subseteq_size. set_solver.
      + eapply HU. exists f. split; [apply Hfs; by left|exact Ef].
      + set_solver.
      + done.
      + rewrite E2. simpl. destruct (IHfs (st2.1 ++ [ft], st2.2)) as (st3 & E3 & Hc3 & Hs3 & Hn3 & Hall).
        * intros g Hg. apply Hfs. by right.
        * set_solver.
        * destruct Hc2 as [Hch Hse]. split; simpl.
          { intros i j Hi Hni Hij. apply elem_of_app; left. by eapply Hch. }
          { intros i [Hi| ->%list_elem_of_singleton]%elem_of_app; [by apply Hse|done]. }
        * exists st3. simpl in *. split_and!; [exact E3|exact Hc3|set_solver| |].
          { intros i Hi. apply Hn3, elem_of_app; left. by apply Hn2. }
          { intros g gt [->|Hg]%elem_of_cons Eg; [|by eapply Hall].
            rewrite Ef in Eg. injection Eg as <-. apply Hn3, elem_of_app; right. by left. }
    - destruct (IHfs st1) as (st3 & E3 & Hc3 & Hs3 & Hn3 & Hall).
      + intros g Hg. apply Hfs. by right.
      + done.
      + done.
      + exists st3. split_and!; [exact E3|exact Hc3|done|done|].
        intros g gt [->|Hg]%elem_of_cons Eg; [congruence|by eapply Hall]. }
  destruct (Hloop (fieldsOf id) (st.1, {[id]} ∪ st.2)) as (st2 & E2 & [Hch Hse] & Hs2 & Hn2 & Hall); [done|done| |].
  { destruct Hc as [Hch Hse]. split; simpl.
    - intros i j [->%elem_of_singleton|Hi]%elem_of_union Hni Hij; [set_solver|]. eapply Hch; [exact Hi|set_solver|exact Hij].
    - intros i Hi. apply elem_of_union; right. by apply Hse. }
  exists st2. simpl in *. split_and!; [exact E2| |set_solver|set_solver|done]. split; [|done].
  intros i j Hi Hni Hij. destruct (decide (i = id)) as [->|Hne]; [|eapply Hch; [exact Hi|set_solver|exact Hij]].
  destruct Hij as (f & Hf' & Ef). by eapply Hall.
Qed.

Lemma metaTypeNames_complete t id :
  deref t = RStruct id → id ∈ U →
  ∃ names, metaTypeNames (S (size U)) t = Some names ∧ ∀ i, rtc child id i → nameOf i ∈ names.
Proof.
  intros Ht Hid. unfold metaTypeNames. rewrite Ht.
  destruct (collect_spec (S (size U)) id ([], ∅) ∅) as (st & E & [Hch Hse] & Hin & _ & _).
  - assert (size (U ∖ ∅) ≤ size U) by (apply subseteq_size; set_solver). simpl. lia.
  - done.
  - done.
  - split; simpl; [set_solver|by intros i ?%not_elem_of_nil].
  - rewrite E. simpl. eexists. split; [done|]. intros i Hi. apply elem_of_app.
    assert (Hs : i ∈ st.2 ∧ (i = id ∨ i ∈ st.1)).
    { revert i Hi. apply (rtc_ind_r (λ i, i ∈ st.2 ∧ (i = id ∨ i ∈ st.1)) id); [auto|].
      intros j k _ Hjk [Hj _]. assert (k ∈ st.1) by (eapply Hch; [exact Hj|set_solver|exact Hjk]).
      split; [by apply Hse|by right]. }
    destruct Hs as [_ [->|Hi']]; [right; by left|left]. by apply list_elem_of_fmap_2.
Qed.

(** *** Groups *)

Lemma addName_modules module name ms :
  (addName module name ms).*1 = ms.*1 ∨ ((module ∉ ms.*1) ∧ (addName module name ms).*1 = ms.*1 ++ [module]).
Proof.
  induction ms as [|[m ns] ms IH]; simpl; [right; split; [apply not_elem_of_nil|done]|].
  case_bool_decide as E; [by left|]. destruct IH as [IH|[Hn IH]]; [left|right].
  - change (m :: (addName module name ms).*1 = m :: ms.*1). by rewrite IH.
  - split; [by apply not_elem_of_cons|]. change (m :: (addName module name ms).*1 = m :: (ms.*1 ++ [module])). by rewrite IH.
Qed.

Lemma addName_NoDup module name ms : NoDup ms.*1 → NoDup (addName module name ms).*1.
Proof.
  intros Hnd. destruct (addName_modules module name ms) as [->|[E ->]]; [done|]. apply NoDup_app.
  split_and!; [done| |apply NoDup_singleton]. by intros m Hm ->%list_elem_of_singleton.
Qed.

Lemma addName_elem module name ms m ns n :
  (m, ns) ∈ addName module name ms → n ∈ ns → (m = module ∧ n = name) ∨ ∃ ns', (m, ns') ∈ ms ∧ n ∈ ns'.
Proof.
  induction ms as [|[m' ns'] ms IH]; simpl.
  - intros [= -> ->]%list_elem_of_singleton ->%list_elem_of_singleton. by left.
  - case_bool_decide as E; intros [[= -> ->]|Hin]%elem_of_cons Hn.
    + apply elem_of_app in Hn as [Hn| ->%list_elem_of_singleton]; [right|by left].
      exists ns'. split; [by left|done].
    + right. exists ns. split; [by right|done].
    + right. exists ns'. split; [by left|done].
    + destruct (IH Hin Hn) as [?|(ns'' & ? & ?)]; [by left|right]. exists ns''. split; [by right|done].
Qed.

Lemma addName_keeps module name ms m ns n :
  (m, ns) ∈ ms → n ∈ ns → ∃ ns', (m, ns') ∈ addName module name ms ∧ n ∈ ns'.
Proof.
  induction ms as [|[m' ns'] ms IH]; [by intros ?%not_elem_of_nil|]. simpl.
  intros [[= -> ->]|Hin]%elem_of_cons Hn; case_bool_decide.
  - exists (ns' ++ [name]). split; [by left|]. apply elem_of_app; by left.
  - exists ns'. split; [by left|done].
  - exists ns. split; [by right|done].
  - destruct (IH Hin Hn) as (ns'' & ? & ?). exists ns''. split; [by right|done].
Qed.

Lemma addName_new module name ms : ∃ ns, (module, ns) ∈ addName module name ms ∧ name ∈ ns.
Proof.
  induction ms as [|[m ns] ms (ns' & IH1 & IH2)]; simpl; [exists [name]; split; left|]. case_bool_decide as E.
  - subst. exists (ns ++ [name]). split; [by left|]. apply elem_of_app; right. by left.
  - exists ns'. split; [by right|done].
Qed.

(** The re-exports name the modules that declare, each once, and leave no declared name out. *)
Lemma groupNames_spec rs names :
  let groups := groupNames rs names in
  NoDup groups.*1 ∧
  (∀ m ns n, (m, ns) ∈ groups → n ∈ ns →
     n ∈ names ∧ ∃ file, file ∈ tsFiles rs ∧ declaresIn rs n file = true ∧ m = moduleOf file) ∧
  (∀ n file, n ∈ names → file ∈ tsFiles rs → declaresIn rs n file = true → ∃ m ns, (m, ns) ∈ groups ∧ n ∈ ns).
Proof.
  cbv zeta. unfold groupNames. induction names as [|name names IH] using rev_ind.
  { simpl. split_and!; [constructor|by intros m ns n ?%not_elem_of_nil|by intros n f ?%not_elem_of_nil]. }
  rewrite foldl_app. simpl. destruct IH as (Hnd & Hsound & Hcomp).
  set (ms := foldl _ [] names) in *. clearbody ms. unfold declaringFile.
  destruct (find (declaresIn rs name) (tsFiles rs)) as [file|] eqn:Ef.
  - apply find_some in Ef as [Hin%list_elem_of_In Hd]. split_and!; [by apply addName_NoDup| |].
    + intros m ns n Hm Hn. destruct (addName_elem _ _ _ _ _ _ Hm Hn) as [[-> ->]|(ns' & Hm' & Hn')].
      * split; [apply elem_of_app; right; by left|]. by exists file.
      * destruct (Hsound _ _ _ Hm' Hn') as [Hnn ?]. split; [|done]. apply elem_of_app; by left.
    + intros n f [Hn| ->%list_elem_of_singleton]%elem_of_app Hf Hdn.
      * destruct (Hcomp n f Hn Hf Hdn) as (m & ns & Hm & Hns).
        destruct (addName_keeps (moduleOf file) name _ _ _ _ Hm Hns) as (ns' & ? & ?). by exists m, ns'.
      * destruct (addName_new (moduleOf file) name ms) as (ns & ? & ?). by exists (moduleOf file), ns.
  - split_and!; [done| |].
    + intros m ns n Hm Hn. destruct (Hsound _ _ _ Hm Hn) as [Hnn ?]. split; [|done]. apply elem_of_app; by left.
    + intros n f [Hn| ->%list_elem_of_singleton]%elem_of_app Hf Hdn; [by eapply Hcomp|].
      apply list_elem_of_In in Hf. pose proof (find_none _ _ Ef f Hf). congruence.
Qed.

End Gen.

(** A metadata type with two fields of one struct type: its name is exported twice, which
    TypeScript refuses. *)
Definition exMetaFields (id : string) : list rfield :=
  if bool_decide (id = "app.Meta")
  then [RField (lit "From") (RStruct "app.Info") true false [] []; RField (lit "To") (RStruct "app.Info") true false [] []]
  else [].
Definition exMetaName (id : string) : gostr := if bool_decide (id = "app.Meta") then lit "Meta" else lit "Info".
Definition exResults : results :=
  {[lit "tasks-handler.ts" := lit "export interface Info { } export interface Meta { }"; lit "app.txt" := lit "no"]}.

Lemma meta_name_reexported_twice :
  buildMetaReExports exMetaName exMetaFields (λ _, TsTypes.NoMarshaler) 3 exResults (RPtr (RStruct "app.Meta")) =
  Some [MetaReExport (lit "./tasks-handler") (lit "Info, Info, Meta")].
Proof. by vm_compute. Qed.

End TaskGen.
