(* ===== verification/GoTypes.v ===== *)
(** * GoTypes: Go types of the generated Go client (generate_go.go)

    [typeExpr] prints the type the generated client uses for a type of the server. Printing
    has effects: it registers the types that the client has to declare, records the packages
    it has to import, and collects errors. Effects are a state monad over the fields of
    GoGenerator. The generator runs the same code twice: a pass that discovers, and a pass
    that prints with the final names; the pass is a parameter here, as is what reflection
    says of a type. A type is its identity, a string; the empty string is the nil type.

    A printed type is a list of tokens, so that the names in it stay visible. Recursion is on
    fuel; GoCoherence.v shows that it satisfies the equation the code has. *)

From S2P Require Import Prelude Runes Transform Registry Naming Schema GoNames Zod.
From stdpp Require Import prelude gmap strings list pretty fin_maps fin_sets.

Module GoTypes.
Import Runes Registry Naming GoNames.
Import Schema(gostrLe, hasInfix).
Import Zod(Quote).

(** ** Types as reflection shows them *)

Record structField := StructField {
  sf_Name : gostr;
  sf_Type : string;
  sf_Anonymous : bool;
  sf_Exported : bool;
  (** The json tag, None when there is none. *)
  sf_Tag : option gostr;
}.

Inductive kind :=
  | Basic (name : string) | Pointer (elem : string) | Slice (elem : string) | Array (n : nat) (elem : string)
  | Map (key elem : string) | Struct (fields : list structField) | Interface
  (** Func, Chan, UnsafePointer, Complex64 and Complex128. *)
  | Unencodable.

(** Name, package path and String; whether the type or a pointer to it implements one of the
    JSON, or of the text, marshaler interfaces; and the encoding of its zero value, None if
    that fails or panics. *)
Record typeInfo := TypeInfo {
  ti_Kind : kind;
  ti_Name : gostr;
  ti_PkgPath : gostr;
  ti_String : gostr;
  ti_JSON : bool;
  ti_Text : bool;
  ti_Zero : option gostr;
}.

Definition fieldsOf (k : kind) : list structField := match k with Struct fs => fs | _ => [] end.

(** ** Expressions *)

(** Text, the name of a type the package declares, the local name of an import. *)
Inductive token := Txt (s : gostr) | Ref (t : string) (name : gostr) | Pkg (path local : gostr).
Definition expr : Type := list token.

Definition renderToken (t : token) : gostr := match t with Txt s => s | Ref _ n => n | Pkg _ l => l end.
Definition render (e : expr) : gostr := e ≫= renderToken.
Definition txt (s : string) : expr := [Txt (lit s)].

(** [expr[strings.LastIndex(expr, ".")+1:]]. *)
Definition afterDot (s : gostr) : gostr := List.last (split 46%Z s) [].

(** ** State *)

Inductive genError :=
  | EName (e : nameError)
  | EDiscovered (t : string)
  | EImportGeneric (t : string) | EImportUnexported (t : string)
  | EHoldsNull (t : string) (path : list gostr)
  | EMarshalEnum (enum : string) (member : gostr)
  | EEmbeddedPointer (t embedded : string) (name : gostr)
  | ETwoFields (t : string) (name : gostr).

(** [goNamedType]; the type is the key, the name and the level belong to GoNames.v. *)
Record goNamedType := NamedType { nt_enum : option EnumInfo; nt_marshaled : option (list gostr) }.

Record gen := Gen {
  g_named : gmap string goNamedType;
  g_order : list string;
  g_importNames : gmap gostr gostr;
  g_usedImports : gset gostr;
  g_realPkgNames : gmap gostr gostr;
  g_importChecked : gset string;
  g_errs : list genError;
}.

Definition M (A : Type) : Type := gen → A * gen.
#[export] Instance M_ret : MRet M := λ A a σ, (a, σ).
#[export] Instance M_bind : MBind M := λ A B f m σ, let '(a, σ) := m σ in f a σ.

Definition errorf (e : genError) : M unit :=
  λ σ, (tt, Gen (g_named σ) (g_order σ) (g_importNames σ) (g_usedImports σ) (g_realPkgNames σ)
                (g_importChecked σ) (g_errs σ ++ [e])).
Definition setRealPkgName (pkg real : gostr) : M unit :=
  λ σ, (tt, Gen (g_named σ) (g_order σ) (g_importNames σ) (g_usedImports σ) (<[pkg := real]> (g_realPkgNames σ))
                (g_importChecked σ) (g_errs σ)).
Definition setImportChecked (t : string) : M unit :=
  λ σ, (tt, Gen (g_named σ) (g_order σ) (g_importNames σ) (g_usedImports σ) (g_realPkgNames σ)
                ({[t]} ∪ g_importChecked σ) (g_errs σ)).
Definition addNamed (t : string) (nt : goNamedType) : M unit :=
  λ σ, (tt, Gen (<[t := nt]> (g_named σ)) (g_order σ ++ [t]) (g_importNames σ) (g_usedImports σ)
                (g_realPkgNames σ) (g_importChecked σ) (g_errs σ)).
Definition useImport (pkg : gostr) : M unit :=
  λ σ, (tt, Gen (g_named σ) (g_order σ) (g_importNames σ) ({[pkg]} ∪ g_usedImports σ) (g_realPkgNames σ)
                (g_importChecked σ) (g_errs σ)).
Definition addImportName (pkg local : gostr) : M unit :=
  λ σ, (tt, Gen (g_named σ) (g_order σ) (<[pkg := local]> (g_importNames σ)) (g_usedImports σ)
                (g_realPkgNames σ) (g_importChecked σ) (g_errs σ)).

Definition goClientPkgPath : gostr := lit "github.com/marrasen/aprot/client".
Definition aprotPkgPath : gostr := lit "github.com/marrasen/aprot".
Definition blobType : string := "github.com/marrasen/aprot.Blob".

(** [strings.HasPrefix(t.Name(), ...)] and the like need the name as a literal. *)
Definition isOneOf (s : gostr) (names : list string) : bool := bool_decide (s ∈ lit <$> names).

Section Code.
  Context `{RuneCase} (isLetter isDigit isNumber isPrint : rune → bool).
  (** Reflection, pointer types, and the directories of GOROOT. *)
  Context (reflect : string → typeInfo) (PointerTo : string → string) (isStdlibPkg : gostr → bool).
  (** The registered enums and field overrides, and [ImportTypes]. *)
  Context (enumTypes : gmap string EnumInfo) (fieldTypeOverride : string → gostr → option string).
  Context (importTypes : gset gostr).
  (** What marshaling a member of an enum yields: None for an error, Some None for JSON that is
      no string. *)
  Context (marshalMember : string → gostr → option (option gostr)).
  (** The pass: None discovers; Some is the pass that prints, with the final names. *)
  Context (rendering : option (string → gostr)).

Definition kindOf (t : string) : kind := ti_Kind (reflect t).
Definition nameOf (t : string) : gostr := ti_Name (reflect t).
Definition pkgPathOf (t : string) : gostr := ti_PkgPath (reflect t).
Definition stringOf (t : string) : gostr := ti_String (reflect t).

Abbreviation candidate0 t := (goTypeNameCandidate isLetter isDigit isNumber nameOf pkgPathOf t 0).

(** ** Imports *)

(** [qualPkg]: the local name of a package, which is recorded as used. *)
Definition importName (pkgPath : gostr) : M expr := λ σ,
  match g_importNames σ !! pkgPath with
  | Some local => ([Pkg pkgPath local], σ)
  | None =>
      let local := pkgName isLetter isDigit (g_realPkgNames σ) pkgPath in
      match rendering with
      | Some _ => ([Pkg pkgPath local], σ)
      | None => ([Pkg pkgPath local], (addImportName pkgPath local σ).2)
      end
  end.

Definition qualPkg (pkgPath : gostr) : M expr := useImport pkgPath ;; importName pkgPath.

Definition qual (pkgPath name : gostr) : M expr :=
  p ← qualPkg pkgPath; mret (p ++ [Txt (lit "." ++ name)]).

(** ** Named types *)

Definition namedRef (t : string) (enum : option EnumInfo) (marshaled : option (list gostr)) : M expr := λ σ,
  match g_named σ !! t, rendering with
  | Some _, Some finalName => ([Ref t (finalName t)], σ)
  | Some _, None => ([Ref t (candidate0 t)], σ)
  | None, Some _ => (txt "any", (errorf (EDiscovered t) σ).2)
  | None, None => ([Ref t (candidate0 t)], (addNamed t (NamedType enum marshaled) σ).2)
  end.

(** [token.IsExported]. *)
Definition IsExported (s : gostr) : bool := match s with r :: _ => isUpper r | [] => false end.
Definition generic (name : gostr) : bool := bool_decide (91%Z ∈ name).

(** ** database/sql *)

(** The types of [sqlNullFlattened], by package and name. *)
Definition flattenedType (t : string) : bool :=
  (bool_decide (pkgPathOf t = []) &&
     isOneOf (nameOf t) ["string"; "int"; "int64"; "int32"; "int16"; "float64"; "bool"]) ||
  (bool_decide (pkgPathOf t = lit "time") && bool_decide (nameOf t = lit "Time")).

(** [t.FieldByName("V")]. *)
Definition fieldV (t : string) : option string :=
  sf_Type <$> head (filter (λ f, sf_Name f = lit "V") (fieldsOf (kindOf t))).

Definition isSql (t : string) : bool := bool_decide (pkgPathOf t = lit "database/sql").

Definition isSQLNullFlattened (t : string) : bool :=
  if negb (isSql t) then false
  else if isOneOf (nameOf t) ["NullString"; "NullInt64"; "NullInt32"; "NullInt16"; "NullFloat64"; "NullBool";
                              "NullByte"; "NullTime"] then true
  else if hasPrefix (lit "Null[") (nameOf t)
       then match fieldV t with Some v => flattenedType v | None => false end else false.

(** ** Marshalers *)

Inductive wireShape := goShapeString | goShapeBool | goShapeRaw.

(** [marshalShape]; None is the empty string. *)
Definition marshalShape (t : string) : option wireShape :=
  let info := reflect t in
  if negb (ti_JSON info) then (if ti_Text info then Some goShapeString else None)
  else Some (match ti_Zero info with
             | Some (34%Z :: _) => goShapeString
             | Some (116%Z :: _) | Some (102%Z :: _) => goShapeBool
             | _ => goShapeRaw
             end).

Definition shapeTypeExpr (s : wireShape) : M expr :=
  match s with
  | goShapeString => mret (txt "string")
  | goShapeBool => mret (txt "bool")
  | goShapeRaw => qual (lit "encoding/json/jsontext") (lit "Value")
  end.

(** [marshaledEnumValues]. *)
Fixpoint marshaledValues (t : string) (enum : EnumInfo) (vs : list (gostr * gostr)) : M (option (list gostr)) :=
  match vs with
  | [] => mret (Some [])
  | v :: vs =>
      match marshalMember t v.2 with
      | None => errorf (EMarshalEnum (en_name enum) v.2) ;; mret None
      | Some None => mret None
      | Some (Some s) => rest ← marshaledValues t enum vs; mret ((s ::.) <$> rest)
      end
  end.
Definition marshaledEnumValues (t : string) (enum : EnumInfo) : M (option (list gostr)) :=
  marshaledValues t enum (en_values enum).

(** ** Imported types *)

Definition shouldSkipField (f : structField) : bool := bool_decide (sf_Tag f = Some (lit "-")).

(** [findSQLNull]; [path] is where the walk is. The result is None if the fuel runs out. *)
Section FindNull.
  Context (rec : string → list gostr → gset string → option (option (list gostr) * gset string)).

Fixpoint findInFields (fs : list structField) (path : list gostr) (seen : gset string)
    : option (option (list gostr) * gset string) :=
  match fs with
  | [] => Some (None, seen)
  | f :: fs =>
      if shouldSkipField f || (negb (sf_Exported f) && negb (sf_Anonymous f)) then findInFields fs path seen
      else
        r ← rec (sf_Type f) (path ++ [sf_Name f]) seen;
        match r.1 with Some p => Some (Some p, r.2) | None => findInFields fs path r.2 end
  end.
End FindNull.

Fixpoint derefAll (fuel : nat) (t : string) : option string :=
  match kindOf t with
  | Pointer elem => match fuel with 0 => None | S fuel => derefAll fuel elem end
  | _ => Some t
  end.

Fixpoint findSQLNull (ptrs fuel : nat) (t : string) (path : list gostr) (seen : gset string)
    : option (option (list gostr) * gset string) :=
  match fuel with
  | 0 => None
  | S fuel =>
      t ← derefAll ptrs t;
      if isSql t && hasPrefix (lit "Null") (nameOf t) then Some (Some (path ++ [stringOf t]), seen)
      else if decide (t ∈ seen) then Some (None, seen)
      else
        let seen := {[t]} ∪ seen in
        if ti_JSON (reflect t) then Some (None, seen)
        else
          match kindOf t with
          | Slice elem | Array _ elem | Map _ elem => findSQLNull ptrs fuel elem (path ++ [lit "[]"]) seen
          | Struct fs => findInFields (findSQLNull ptrs fuel) fs path seen
          | _ => Some (None, seen)
          end
  end.

(** [checkImportedType], with the fuel for the walk. *)
Definition checkImportedType (ptrs fuel : nat) (t : string) : M unit := λ σ,
  if decide (t ∈ g_importChecked σ) then (tt, σ)
  else
    (setImportChecked t ;;
     match findSQLNull ptrs fuel t [] ∅ with
     | Some (Some path, _) => errorf (EHoldsNull t path)
     | _ => mret tt
     end) σ.

(** ** Struct fields *)

(** [stripTypeTagOptions]. *)
Definition stripTypeTagOptions (tag : gostr) : gostr :=
  match split 44%Z tag with
  | [] => []
  | name :: options =>
      join 44%Z (name :: filter (λ p, p ≠ lit "string" ∧ hasPrefix (lit "format:") p = false) options)
  end.

(** [goStructTag]: between backquotes if it has none. *)
Definition goStructTag (key value : gostr) : gostr :=
  let tag := key ++ lit ":" ++ Quote isPrint value in
  if bool_decide (96%Z ∈ tag) then Quote isPrint tag else [96%Z] ++ tag ++ [96%Z].

(** [embeddableRe], an identifier or two with a dot between them, as an automaton. *)
Inductive reState := ReStart | ReFirst | ReDot | ReSecond | ReFail.

Definition reStep (q : reState) (r : rune) : reState :=
  let starts := isLetter r || bool_decide (r = underscore) in
  let goesOn := starts || isNumber r in
  match q with
  | ReStart => if starts then ReFirst else ReFail
  | ReFirst => if goesOn then ReFirst else if bool_decide (r = 46)%Z then ReDot else ReFail
  | ReDot => if starts then ReSecond else ReFail
  | ReSecond => if goesOn then ReSecond else ReFail
  | ReFail => ReFail
  end.
Definition reAccepts (q : reState) : bool := match q with ReFirst | ReSecond => true | _ => false end.
Definition embeddableRe (s : gostr) : bool := reAccepts (foldl reStep ReStart s).

Record goField := GoField {
  gf_goName : gostr;
  gf_jsonKey : gostr;
  gf_decl : expr;
  gf_tag : gostr;
  gf_embedded : option string;
  gf_ptr : bool;
}.

Definition hasExportedField (t : string) : bool := existsb sf_Exported (fieldsOf (kindOf t)).

Definition effectiveType (owner : string) (f : structField) : string :=
  default (sf_Type f) (fieldTypeOverride owner (sf_Name f)).

Definition isStruct (t : string) : bool := match kindOf t with Struct _ => true | _ => false end.

(** The type behind one pointer, and whether there was one. *)
Definition derefPtr (t : string) : string * bool := match kindOf t with Pointer e => (e, true) | _ => (t, false) end.

Definition serverIgnoresTagOptions (t : string) : bool :=
  let t := (derefPtr t).1 in
  if isSQLNullFlattened t then true
  else if bool_decide (t = blobType) || bool_decide (nameOf t = []) || bool_decide (pkgPathOf t = []) ||
          isStdlibPkg (pkgPathOf t) || bool_decide (pkgPathOf t ∈ importTypes) then false
  else match marshalShape t with Some _ => true | None => false end.

(** [goBasicKind] of a kind. *)
Definition goBasicKind (k : kind) : gostr :=
  match k with
  | Basic name => if bool_decide (name = "uint8") then lit "byte" else lit name
  | Pointer _ => lit "ptr" | Slice _ => lit "slice" | Array _ _ => lit "array" | Map _ _ => lit "map"
  | Struct _ => lit "struct" | Interface => lit "interface" | Unencodable => lit "func"
  end.

Section Rec.
  (** [typeExpr], and the fuel of [findSQLNull]. *)
  Context (rec : string → M expr) (ptrs walk : nat).

(** [fieldTypeExpr]. *)
Definition fieldTypeExpr (owner : string) (f : structField) : M expr :=
  match fieldTypeOverride owner (sf_Name f) with
  | None => rec (sf_Type f)
  | Some ov =>
      match kindOf ov with
      | Pointer _ | Map _ _ | Slice _ | Interface => rec ov
      | _ => rec (PointerTo ov)
      end
  end.

(** The declaration of an embedded struct that the encoder inlines; None if its expression
    cannot be embedded. *)
Definition embeddedDecl (ft : string) (ptr : bool) : M (option goField) :=
  e ← (if bool_decide (ft = blobType) || isSql ft then namedRef ft None None else rec ft);
  mret (if embeddableRe (render e)
        then Some (GoField (afterDot (render e)) [] (if ptr then txt "*" ++ e else e) [] (Some ft) ptr) else None).

Definition namedField (owner : string) (f : structField) (jsonName : gostr) : M goField :=
  let name := goExportedIdent isLetter isDigit (sf_Name f) in
  let key := if bool_decide (jsonName = []) then sf_Name f else jsonName in
  e ← fieldTypeExpr owner f;
  mret (GoField name key ([Txt (name ++ lit " ")] ++ e) [] None false).

Definition withTag (tag : option gostr) (field : goField) : goField :=
  GoField (gf_goName field) (gf_jsonKey field) (gf_decl field)
    (match tag with Some tag => goStructTag (lit "json") tag | None => [] end) (gf_embedded field) (gf_ptr field).

(** One round of the loop of [structFields]; None for a field that is left out. *)
Definition goFieldOf (owner : string) (f : structField) : M (option goField) :=
  if shouldSkipField f then mret None
  else
    let jsonName := match sf_Tag f with Some tag => match split 44%Z tag with n :: _ => n | [] => [] end | None => [] end in
    let '(ft, ptr) := derefPtr (sf_Type f) in
    let embeddedStruct := sf_Anonymous f && isStruct ft in
    let inlined := embeddedStruct && bool_decide (jsonName = []) in
    if inlined && isStdlibPkg (pkgPathOf ft) && negb (hasExportedField ft) then mret None
    else
      embedded ← (if inlined then embeddedDecl ft ptr else mret None);
      match embedded with
      | Some field => mret (Some (withTag (sf_Tag f) field))
      | None =>
          if negb (sf_Exported f) && negb embeddedStruct then mret None
          else
            field ← namedField owner f jsonName;
            let strip := serverIgnoresTagOptions (effectiveType owner f) in
            mret (Some (withTag ((λ tag, if strip then stripTypeTagOptions tag else tag) <$> sf_Tag f) field))
      end.

Definition structFields (t : string) : M (list goField) :=
  fields ← mapM (goFieldOf t) (fieldsOf (kindOf t)); mret (omap id fields).

(** ** Expressions of types *)

(** What a field becomes when its name can clash with that of a field with a declared name:
    an embedded struct whose name does is replaced by its fields. *)
Definition inlineClash (t : string) (direct keys : list gostr) (f : goField) : M (list goField) :=
  match gf_embedded f with
  | None => mret [f]
  | Some ft =>
      if bool_decide (gf_goName f ∉ direct) then mret [f]
      else if gf_ptr f then errorf (EEmbeddedPointer t ft (gf_goName f)) ;; mret []
      else inner ← structFields ft;
           mret (filter (λ i, gf_embedded i = None → gf_jsonKey i ∉ keys) inner)
  end.

Definition isDirect (f : goField) : Prop := gf_embedded f = None.

Definition fieldLine (f : goField) : expr :=
  gf_decl f ++ (if bool_decide (gf_tag f = []) then [] else [Txt (lit " " ++ gf_tag f)]) ++ [Txt [10%Z]].

(** The body of the struct; a second field of the same name is an error. *)
Fixpoint structBody (t : string) (seen : gset gostr) (fs : list goField) : M expr :=
  match fs with
  | [] => mret []
  | f :: fs =>
      if bool_decide (gf_goName f ∈ seen) then errorf (ETwoFields t (gf_goName f)) ;; structBody t seen fs
      else rest ← structBody t ({[gf_goName f]} ∪ seen) fs; mret (fieldLine f ++ rest)
  end.

Definition structExpr (t : string) : M expr :=
  fields ← structFields t;
  let direct := filter isDirect fields in
  out ← mapM (inlineClash t (gf_goName <$> direct) (gf_jsonKey <$> direct)) fields;
  body ← structBody t ∅ (concat out);
  mret ([Txt (lit "struct {" ++ [10%Z])] ++ body ++ txt "}").

(** [mapKeyExpr]. *)
Definition mapKeyExpr (k : string) : M expr :=
  if negb (bool_decide (nameOf k = [])) && negb (bool_decide (pkgPathOf k = [])) &&
     negb (isStdlibPkg (pkgPathOf k)) && negb (bool_decide (pkgPathOf k ∈ importTypes)) &&
     match marshalShape k with Some goShapeBool | Some goShapeRaw => true | _ => false end
  then mret (txt "string") else rec k.

(** [underlyingExpr]. *)
Definition underlyingExpr (t : string) : M expr :=
  match kindOf t with
  | Pointer elem => e ← rec elem; mret (txt "*" ++ e)
  | Slice elem => e ← rec elem; mret (txt "[]" ++ e)
  | Array n elem => e ← rec elem; mret ([Txt (lit "[" ++ itoa n ++ lit "]")] ++ e)
  | Map key elem => k ← mapKeyExpr key; e ← rec elem; mret (txt "map[" ++ k ++ txt "]" ++ e)
  | Struct _ => structExpr t
  | Interface | Unencodable => mret (txt "any")
  | Basic _ as k => mret [Txt (goBasicKind k)]
  end.

(** [sqlNullExpr]; None is [ok = false]. *)
Definition sqlNullExpr (t : string) : M (option expr) :=
  if negb (isSql t) then mret None
  else
    let name := nameOf t in
    if bool_decide (name = lit "NullString") then mret (Some (txt "*string"))
    else if bool_decide (name = lit "NullInt64") then mret (Some (txt "*int64"))
    else if bool_decide (name = lit "NullInt32") then mret (Some (txt "*int32"))
    else if bool_decide (name = lit "NullInt16") then mret (Some (txt "*int16"))
    else if bool_decide (name = lit "NullFloat64") then mret (Some (txt "*float64"))
    else if bool_decide (name = lit "NullBool") then mret (Some (txt "*bool"))
    else if bool_decide (name = lit "NullByte") then mret (Some (txt "*byte"))
    else if bool_decide (name = lit "NullTime") then e ← qual (lit "time") (lit "Time"); mret (Some (txt "*" ++ e))
    else if hasPrefix (lit "Null[") name then
      match fieldV t with
      | Some v =>
          if flattenedType v then e ← rec v; mret (Some (txt "*" ++ e))
          else e ← underlyingExpr t; mret (Some e)
      | None => mret None
      end
    else mret None.

(** A type of a package in [ImportTypes]. *)
Definition importedExpr (t : string) : M expr :=
  let pkg := pkgPathOf t in
  let name := nameOf t in
  if generic name then errorf (EImportGeneric t) ;; mret (txt "any")
  else if negb (IsExported name) then errorf (EImportUnexported t) ;; mret (txt "any")
  else
    checkImportedType ptrs walk t ;;
    match cut 46%Z (stringOf t) with
    | Some (real, _) => if IsIdentifier isLetter isDigit real then setRealPkgName pkg real else mret tt
    | None => mret tt
    end ;;
    qual pkg name.

(** A named type of the server that the client declares, or the shape of its marshaler. *)
Definition declaredExpr (t : string) : M expr :=
  let enum := enumTypes !! t in
  match marshalShape t with
  | Some shape =>
      match enum, shape with
      | Some e, goShapeString =>
          values ← marshaledEnumValues t e;
          match values with
          | Some values => namedRef t (Some e) (Some values)
          | None => shapeTypeExpr shape
          end
      | _, _ => shapeTypeExpr shape
      end
  | None =>
      match enum with
      | Some e => namedRef t (Some e) None
      | None => match kindOf t with Unencodable => mret (txt "any") | _ => namedRef t None None end
      end
  end.

(** [typeExpr], with [rec] for the recursive calls. *)
Definition typeExprBody (t : string) : M expr :=
  if bool_decide (t = "") then mret (txt "any")
  else if bool_decide (t = blobType) then qual goClientPkgPath (lit "Blob")
  else
    match kindOf t with
    | Pointer elem =>
        if isSQLNullFlattened elem then e ← sqlNullExpr elem; mret (default [] e)
        else e ← rec elem; mret (txt "*" ++ e)
    | k =>
        null ← sqlNullExpr t;
        match null with
        | Some e => mret e
        | None =>
            match k with
            | Interface => mret (txt "any")
            | _ =>
                let pkg := pkgPathOf t in
                let name := nameOf t in
                if bool_decide (name = []) || bool_decide (pkg = []) then underlyingExpr t
                else if isStdlibPkg pkg then
                  if negb (generic name) && IsExported name then qual pkg name
                  else match marshalShape t with
                       | Some shape => shapeTypeExpr shape
                       | None => underlyingExpr t
                       end
                else if bool_decide (pkg ∈ importTypes) then importedExpr t
                else declaredExpr t
            end
        end
    end.

End Rec.

Fixpoint typeExpr (ptrs walk fuel : nat) (t : string) : M expr :=
  match fuel with
  | 0 => mret (txt "any")
  | S fuel => typeExprBody (typeExpr ptrs walk fuel) ptrs walk t
  end.

End Code.
End GoTypes.
