(* ===== verification/GoGen.v ===== *)
(** * GoGen: the generated Go client (generate_go.go)

    [renderBody] goes through the groups, push events, methods, error codes, enums and the
    types that all of them mention; a type it prints can mention further ones, so the pass
    that discovers works through a queue. [Generate] runs it twice, with the naming of
    GoNames.v in between, and prints the imports that the second pass used. The output is a
    list of declarations; doc comments, and the formatting by go/format, are left out. *)

From S2P Require Import Prelude Runes Transform Registry Naming Schema GoNames Zod GoTypes.
From stdpp Require Import prelude gmap strings list pretty fin_maps fin_sets sorting.

Module GoGen.
Import Runes Registry Naming GoNames GoTypes.
Import Schema(gostrLe, sortNames).
Import Transform(goType).
Import Zod(Quote).

(** ** Declarations *)

Record goParam := GoParam { gp_name : gostr; gp_typ : expr; gp_variadic : bool }.

(** What a method's body calls, with the types it is called at: Stream, Stream2, Call at
    struct{} or at the result, Subscribe. *)
Inductive runtimeCall := CallStream (item : expr) | CallStream2 (key val : expr) | CallVoid | Call (result : expr)
  | Subscribe (result : expr).

Inductive decl :=
  | DClient (runtime : expr) (fields : list (gostr * gostr))
  | DNew (runtime : expr) (fields : list (gostr * gostr))
  | DOnPush (method : gostr) (dataType runtime : expr) (event : gostr)
  | DGroup (typeName : gostr) (runtime : expr)
  | DMethod (recv name wire : gostr) (runtime context : expr) (params : list goParam) (call : runtimeCall)
  | DErrorCodes (runtime : expr) (codes : list (gostr * Z))
  | DType (t : string) (name : gostr) (e : expr)
  | DEnum (t : string) (name : gostr) (kind : gostr) (members : list (gostr * gostr)).

Definition exprsOfCall (c : runtimeCall) : list expr :=
  match c with CallStream e | Call e | Subscribe e => [e] | CallStream2 k v => [k; v] | CallVoid => [] end.

(** The expressions of a declaration. *)
Definition exprsOf (d : decl) : list expr :=
  match d with
  | DClient r _ | DNew r _ | DGroup _ r | DErrorCodes r _ => [r]
  | DOnPush _ e r _ => [e; r]
  | DMethod _ _ _ r c ps call => r :: c :: (gp_typ <$> ps) ++ exprsOfCall call
  | DType _ _ e => [e]
  | DEnum _ _ _ _ => []
  end.

(** The type a declaration declares. *)
Definition declares (d : decl) : option (string * gostr) :=
  match d with DType t n _ | DEnum t n _ _ => Some (t, n) | _ => None end.

Section Code.
  Context `{RuneCase} (isLetter isDigit isNumber isPrint : rune → bool).
  Context (reflect : string → typeInfo) (PointerTo : string → string) (isStdlibPkg : gostr → bool).
  Context (fieldTypeOverride : string → gostr → option string).
  Context (marshalMember : string → gostr → option (option gostr)).
  (** The reflect.Type of a parameter or result, and the parameter names in the source. *)
  Context (typeOf : goType → string) (srcNames : string → string → list gostr).
  Context {Mw : Type} (reg : @Registry Mw) (importTypes : gset gostr).
  (** Bounds: pointers in a row, types an imported type is made of, nesting of a type, and the
      named types of the program. *)
  Context (ptrs walk depth : nat) (U : gset string).

(** [registry.enumTypes]. *)
Definition enumTypes : gmap string EnumInfo :=
  foldl (λ m e, <[en_type e := e]> m) ∅ ((map_to_list (r_groups reg) ≫= λ g, gr_enums g.2) ++ r_sharedEnums reg).

Abbreviation nameOf := (nameOf reflect).
Abbreviation pkgPathOf := (pkgPathOf reflect).
Abbreviation stringOf := (stringOf reflect).
Abbreviation groups := (clientGroups isLetter isDigit reg).
Abbreviation events := (pushEvents isLetter isDigit reg).
Abbreviation exported := (goExportedIdent isLetter isDigit).

Section Pass.
  (** The pass, and [topLevel], which is set before the second one. *)
  Context (rendering : option (string → gostr)) (top : gset gostr).

Definition typeExprP : string → M expr :=
  typeExpr isLetter isDigit isNumber isPrint reflect PointerTo isStdlibPkg enumTypes fieldTypeOverride importTypes
    marshalMember rendering ptrs walk depth.
Definition underlyingP : string → M expr :=
  underlyingExpr isLetter isDigit isNumber isPrint reflect PointerTo isStdlibPkg fieldTypeOverride importTypes
    rendering typeExprP.
Definition qualPkgP : gostr → M expr := qualPkg isLetter isDigit rendering.

(** ** Methods *)

(** The loop of [buildParams]. *)
Fixpoint buildParamsFrom (names : list gostr) (i : nat) (ps : list ParamInfo) (used : gset gostr) : M (list goParam) :=
  match ps with
  | [] => mret []
  | p :: ps => λ σ,
      let name := paramName (g_importNames σ) top used (sourceName isLetter isDigit names i) in
      (e ← typeExprP (typeOf (pi_type p));
       rest ← buildParamsFrom names (S i) ps ({[name]} ∪ used);
       mret (GoParam name e (pi_variadic p) :: rest)) σ
  end.

Definition buildParams (info : HandlerInfo) : M (list goParam) :=
  buildParamsFrom (srcNames (hi_structName info) (hi_name info)) 0 (hi_params info) ∅.

(** The result of a method, by kind; [streamTypes] gives the key and the value. *)
Definition streamKey (info : HandlerInfo) : M expr :=
  match hi_streamKey info with Some k => typeExprP (typeOf k) | None => typeExprP "" end.

(** [renderMethod]: the method, and its live query if it has one. *)
Definition renderMethod (grp : @goGroup Mw) (info : HandlerInfo) : M (list decl) :=
  cl ← qualPkgP goClientPkgPath;
  params ← buildParams info;
  context ← qualPkgP (lit "context");
  let wire := lit (gr_name (gg_group grp)) ++ lit "." ++ lit (hi_name info) in
  let method name call := DMethod (gg_typeName grp) name wire cl context params call in
  match hi_kind info with
  | HandlerKindStream =>
      item ← typeExprP (typeOf (hi_response info));
      mret [method (lit (hi_name info)) (CallStream item)]
  | HandlerKindStream2 =>
      k ← streamKey info;
      v ← typeExprP (typeOf (hi_response info));
      mret [method (lit (hi_name info)) (CallStream2 k v)]
  | HandlerKindUnary =>
      if hi_isVoid info then mret [method (lit (hi_name info)) CallVoid]
      else
        result ← typeExprP (typeOf (hi_response info));
        mret [method (lit (hi_name info)) (Call result);
              method (lit "Subscribe" ++ lit (hi_name info)) (Subscribe result)]
  end.

(** [renderGroup]. *)
Definition addErrors (errs : list nameError) : M unit := λ σ,
  (tt, Gen (g_named σ) (g_order σ) (g_importNames σ) (g_usedImports σ) (g_realPkgNames σ) (g_importChecked σ)
           (g_errs σ ++ (EName <$> errs))).

Definition renderGroup (grp : @goGroup Mw) : M (list decl) :=
  cl ← qualPkgP goClientPkgPath;
  addErrors (groupMethods (gg_group grp)).1 ;;
  methods ← mapM (λ h, renderMethod grp h.2) (sortedHandlers (gg_group grp));
  mret (DGroup (gg_typeName grp) cl :: concat methods).

(** ** Push events, error codes, types *)

Definition renderEvent (ev : PushEventInfo) : M decl :=
  dataType ← typeExprP (pe_type ev);
  cl ← qualPkgP goClientPkgPath;
  mret (DOnPush (onEvent isLetter isDigit ev) dataType cl (lit (pe_name ev))).

Definition renderErrorCodes : M (list decl) :=
  match r_errorCodes reg with
  | [] => mret []
  | codes =>
      cl ← qualPkgP goClientPkgPath;
      mret [DErrorCodes cl ((λ ec, (errorCodeConst isLetter isDigit ec.1, ec.2)) <$> codes)]
  end.

(** The name of a declared type in this pass. *)
Definition typeNameP (t : string) : gostr :=
  match rendering with
  | Some finalName => finalName t
  | None => goTypeNameCandidate isLetter isDigit isNumber nameOf pkgPathOf t 0
  end.

(** [renderNamed]. *)
Definition enumLiteral (e : EnumInfo) (marshaled : option (list gostr)) (i : nat) (value : gostr) : gostr :=
  match marshaled with
  | Some ms => Quote isPrint (default [] (ms !! i))
  | None => if en_isString e then Quote isPrint value else value
  end.

Definition enumDecl (t : string) (nt : goNamedType) (e : EnumInfo) : decl :=
  let name := typeNameP t in
  let kind := match nt_marshaled nt with Some _ => lit "string" | None => goBasicKind (kindOf reflect t) end in
  DEnum t name kind
    (imap (λ i v, (name ++ goEnumMemberIdent isLetter isDigit v.1 i, enumLiteral e (nt_marshaled nt) i v.2))
       (en_values e)).

Definition renderNamed (t : string) : M (list decl) := λ σ,
  match g_named σ !! t with
  | None => ([], σ)
  | Some nt =>
      match nt_enum nt with
      | Some e => ([enumDecl t nt e], σ)
      | None => (e ← underlyingP t; mret [DType t (typeNameP t) e]) σ
      end
  end.

(** The queue of the pass that discovers: [for i := 0; i < len(g.order); i++]. *)
Fixpoint drain (fuel i : nat) : M unit := λ σ,
  match g_order σ !! i, fuel with
  | Some t, S fuel => (renderNamed t ;; drain fuel (S i)) σ
  | _, _ => (tt, σ)
  end.

(** The types in the order of their names. *)
Definition sortedTypes (order : list string) : list string :=
  merge_sort (λ a b, Is_true (gostrLe (typeNameP a) (typeNameP b))) order.

Definition renderTypes : M (list decl) :=
  match rendering with
  | Some _ => λ σ, (ds ← mapM renderNamed (sortedTypes (g_order σ)); mret (concat ds)) σ
  | None => drain (S (size U)) 0 ;; mret []
  end.

(** [renderBody], up to the declarations of types, and with them. *)
Definition enumTypesOf : list string :=
  en_type <$> ((groups ≫= λ g, gr_enums (gg_group g)) ++ r_sharedEnums reg).

Definition renderRoots : M (list decl) :=
  addErrors (clientMembers isLetter isDigit reg).1 ;;
  cl ← qualPkgP goClientPkgPath;
  let fields := (λ g, (gg_fieldName g, gg_typeName g)) <$> groups in
  pushes ← mapM renderEvent events;
  groupDecls ← mapM renderGroup groups;
  codes ← renderErrorCodes;
  mapM typeExprP enumTypesOf ;;
  mret ([DClient cl fields; DNew cl fields] ++ pushes ++ concat groupDecls ++ codes).

Definition renderBody : M (list decl) := roots ← renderRoots; types ← renderTypes; mret (roots ++ types).

End Pass.

(** ** Imports *)

(** [pkgNameIsGuess]. *)
Definition pkgNameIsGuess (real : gmap gostr gostr) (p : gostr) : bool :=
  if bool_decide (p = goClientPkgPath) || isStdlibPkg p then false
  else negb (bool_decide (List.last (split 47%Z p) [] = pkgName isLetter isDigit real p)).

(** A line of the import block: a name, where one is printed, and the path. *)
Definition importLine (σ : gen) (p : gostr) : gostr :=
  let local := default [] (g_importNames σ !! p) in
  (if bool_decide (local ≠ pkgName isLetter isDigit (g_realPkgNames σ) p) || pkgNameIsGuess (g_realPkgNames σ) p
   then local ++ lit " " else []) ++ Quote isPrint p.

(** [renderImports]: the lines of the standard library, and the others. *)
Definition renderImports (σ : gen) : list gostr * list gostr :=
  let used := elements (g_usedImports σ) in
  (sortNames (importLine σ <$> filter (λ p, isStdlibPkg p = true) used),
   sortNames (importLine σ <$> filter (λ p, isStdlibPkg p = false) used)).

(** ** [Generate] *)

Definition emptyGen : gen := Gen ∅ [] ∅ ∅ ∅ ∅ [].

(** The state after the first pass, and what the second one starts from. *)
Definition pass1 : gen := (renderBody None ∅ emptyGen).2.

Definition enumOf (t : string) : option EnumInfo := g_named pass1 !! t ≫= nt_enum.
Definition finalNameOf : string → gostr :=
  finalName isLetter isDigit isNumber nameOf pkgPathOf stringOf reg (g_order pass1).
Definition nameErrors : list nameError :=
  assignNames isLetter isDigit isNumber nameOf pkgPathOf stringOf reg (g_order pass1) enumOf.
Definition topLevelOf : gset gostr :=
  topLevel isLetter isDigit isNumber nameOf pkgPathOf stringOf reg (g_order pass1) enumOf.
Definition importNamesOf : gmap gostr gostr :=
  assignImportNames isLetter isDigit (g_realPkgNames pass1) (g_importNames pass1).

Definition start2 : gen :=
  Gen (g_named pass1) (g_order pass1) importNamesOf ∅ (g_realPkgNames pass1) (g_importChecked pass1) [].
Definition pass2 : list decl * gen := renderBody (Some finalNameOf) topLevelOf start2.

Inductive goFailure :=
  | BadPackageName | ImportsServer
  | Discovery (errs : list genError) | Naming (errs : list nameError) | Printing (errs : list genError).

Record goClient := GoClient {
  gc_package : gostr;
  gc_imports : list gostr * list gostr;
  gc_decls : list decl;
}.

(** The base name of the absolute output directory is [base]. *)
Definition Generate (PackageName : gostr) (base : option gostr) : res goFailure goClient :=
  match packageName isLetter isDigit PackageName base with
  | None => Err BadPackageName
  | Some pkgName =>
      if bool_decide (aprotPkgPath ∈ importTypes) then Err ImportsServer
      else
        match g_errs pass1, nameErrors, g_errs pass2.2 with
        | [], [], [] => Ok (GoClient pkgName (renderImports pass2.2) pass2.1)
        | [], [], errs => Err (Printing errs)
        | [], errs, _ => Err (Naming errs)
        | errs, _, _ => Err (Discovery errs)
        end
  end.

End Code.
End GoGen.
