(* ===== verification/GoCoherence.v ===== *)
(** * GoCoherence: the two passes of the Go generator agree (generate_go.go)

    The first pass of [Generate] discovers types and imports, the second prints with names
    chosen in between. Both run the same code, but what it does can depend on names, and the
    second pass must not meet anything that the first has not: such a type would have no
    declaration. The proof relates the two runs as in a relational program logic, with one
    triple per function of the generator. *)

From S2P Require Import Prelude Runes Transform Registry Naming Schema GoNames Zod GoTypes GoGen.
From stdpp Require Import prelude gmap strings list pretty fin_maps fin_sets sorting.

Module GoCoherence.
Import Runes Registry Naming GoNames GoTypes GoGen.
Import Schema(gostrLe, sortNames).
Import Transform(goType).

(** ** Equal computations *)

Definition meq {A} (m1 m2 : M A) : Prop := ∀ σ, m1 σ = m2 σ.

Lemma meq_refl {A} (m : M A) : meq m m.
Proof. done. Qed.

Lemma meq_bind {A B} (m1 m2 : M A) (f1 f2 : A → M B) :
  meq m1 m2 → (∀ a, meq (f1 a) (f2 a)) → meq (m1 ≫= f1) (m2 ≫= f2).
Proof. intros Hm Hf σ. unfold mbind, M_bind. rewrite Hm. destruct (m2 σ). apply Hf. Qed.

Lemma meq_mapM {A B} (f1 f2 : A → M B) l :
  (∀ x, x ∈ l → meq (f1 x) (f2 x)) → meq (mapM f1 l) (mapM f2 l).
Proof.
  induction l as [|x l IH]; intros Hf; simpl; [done|].
  apply meq_bind; [apply Hf; left|]. intros y. apply meq_bind; [|done]. apply IH. intros. apply Hf. by right.
Qed.

(** What every result of a computation satisfies. *)
Definition posts {A} (P : A → Prop) (m : M A) : Prop := ∀ σ, P (m σ).1.

Lemma posts_ret {A} (P : A → Prop) a : P a → posts P (mret a).
Proof. by intros ? σ. Qed.

Lemma posts_bind {A B} (Q : A → Prop) (P : B → Prop) (m : M A) (f : A → M B) :
  posts Q m → (∀ a, Q a → posts P (f a)) → posts P (m ≫= f).
Proof. intros Hm Hf σ. unfold mbind, M_bind. specialize (Hm σ). destruct (m σ). by apply Hf. Qed.

Lemma posts_true {A} (m : M A) : posts (λ _, True) m.
Proof. done. Qed.

Lemma posts_mapM {A B} (P : B → Prop) (f : A → M B) l :
  (∀ x, x ∈ l → posts P (f x)) → posts (Forall P) (mapM f l).
Proof.
  induction l as [|x l IH]; intros Hf; simpl; [by apply posts_ret|].
  apply (posts_bind P); [apply Hf; left|]. intros y Hy. apply (posts_bind (Forall P)).
  - apply IH. intros. apply Hf. by right.
  - intros ys Hys. apply posts_ret. by constructor.
Qed.

Lemma meq_bind_post {A B} (P : A → Prop) (m1 m2 : M A) (f1 f2 : A → M B) :
  posts P m1 → meq m1 m2 → (∀ a, P a → meq (f1 a) (f2 a)) → meq (m1 ≫= f1) (m2 ≫= f2).
Proof.
  intros Hp Hm Hf σ. unfold mbind, M_bind. specialize (Hp σ). rewrite <-Hm. destruct (m1 σ). by apply Hf.
Qed.

Section Proofs.
  Context `{RuneCase} (isLetter isDigit isNumber isPrint : rune → bool).
  Context (reflect : string → typeInfo) (PointerTo : string → string) (isStdlibPkg : gostr → bool).
  Context (fieldTypeOverride : string → gostr → option string).
  Context (marshalMember : string → gostr → option (option gostr)).
  Context (enumTypes : gmap string EnumInfo) (importTypes : gset gostr) (ptrs walk : nat).

Abbreviation kindOf := (kindOf reflect).
Abbreviation nameOf := (nameOf reflect).
Abbreviation pkgPathOf := (pkgPathOf reflect).
Abbreviation stringOf := (stringOf reflect).

(** ** Which types an expression is made of *)

Definition fieldCalls (owner : string) (f : structField) : list string :=
  [sf_Type f; (derefPtr reflect (sf_Type f)).1] ++
  match fieldTypeOverride owner (sf_Name f) with Some ov => [ov; PointerTo ov] | None => [] end.

Definition structCalls (t : string) : list string := fieldsOf (kindOf t) ≫= fieldCalls t.

(** The types whose expressions [underlyingExpr] may ask for; those of an embedded struct are
    included, since a clash replaces it by its fields. *)
Definition components (t : string) : list string :=
  match kindOf t with
  | Pointer e => e :: match fieldV reflect e with Some v => [v] | None => [] end
  | Slice e | Array _ e => [e]
  | Map k e => [k; e]
  | Struct fs => structCalls t ++ (fs ≫= λ f, if sf_Anonymous f then structCalls (derefPtr reflect (sf_Type f)).1 else [])
  | _ => []
  end.

(** The types whose expression is not just a name. *)
Definition expanded (t : string) : bool :=
  match kindOf t with
  | Pointer _ => true
  | _ => isSql reflect t || bool_decide (nameOf t = []) || bool_decide (pkgPathOf t = []) ||
         (isStdlibPkg (pkgPathOf t) && (generic (nameOf t) || negb (IsExported (nameOf t))))
  end.

(** ** The fuel is enough *)

Section Pass.
  Context (rendering : option (string → gostr)).

Abbreviation body rec := (typeExprBody isLetter isDigit isNumber isPrint reflect PointerTo isStdlibPkg enumTypes
  fieldTypeOverride importTypes marshalMember rendering rec ptrs walk).
Abbreviation underlying rec := (underlyingExpr isLetter isDigit isNumber isPrint reflect PointerTo isStdlibPkg
  fieldTypeOverride importTypes rendering rec).
Abbreviation fieldsExpr rec := (structFields isLetter isDigit isNumber isPrint reflect PointerTo isStdlibPkg
  fieldTypeOverride importTypes rendering rec).
Abbreviation expr k := (typeExpr isLetter isDigit isNumber isPrint reflect PointerTo isStdlibPkg enumTypes
  fieldTypeOverride importTypes marshalMember rendering ptrs walk k).

(** Where an embedded field of the output comes from. *)
Definition embeddedIn (t : string) (field : goField) : Prop :=
  ∀ ft, gf_embedded field = Some ft →
    isStruct reflect ft = true ∧ gf_jsonKey field = [] ∧
    ∃ f, f ∈ fieldsOf (kindOf t) ∧ sf_Anonymous f = true ∧ ft = (derefPtr reflect (sf_Type f)).1.

Abbreviation fieldExpr rec := (goFieldOf isLetter isDigit isNumber isPrint reflect PointerTo isStdlibPkg
  fieldTypeOverride importTypes rendering rec).

Lemma goFieldOf_posts rec t f :
  f ∈ fieldsOf (kindOf t) →
  posts (λ r, ∀ field, r = Some field → embeddedIn t field) (fieldExpr rec t f).
Proof.
  intros Hf. unfold goFieldOf. destruct (shouldSkipField f); [by apply posts_ret|].
  destruct (derefPtr reflect (sf_Type f)) as [ft ptr] eqn:E.
  destruct (_ && _ && _ && _); [by apply posts_ret|].
  apply (posts_bind (λ r, ∀ field, r = Some field → embeddedIn t field)).
  - destruct (sf_Anonymous f && isStruct reflect ft && _) eqn:Ei; [|by apply posts_ret].
    apply andb_true_iff in Ei as [[Ha Hs]%andb_true_iff _].
    eapply posts_bind; [apply posts_true|]. intros e _. apply posts_ret.
    intros field. destruct (embeddableRe _ _ _); [|done]. intros [= <-] ft' [= <-].
    split_and!; [done|done|]. exists f. by rewrite E.
  - intros [field|] Hfield; [|].
    + apply posts_ret. intros field' [= <-] ft' Hft'. by apply (Hfield field).
    + destruct (_ && _); [by apply posts_ret|]. apply (posts_bind (λ field, gf_embedded field = None)).
      * unfold namedField. eapply posts_bind; [apply posts_true|]. intros e _. by apply posts_ret.
      * intros field Hn. apply posts_ret. intros field' [= <-] ft' Hft'. simpl in Hft'. congruence.
Qed.

Lemma structFields_posts rec t : posts (Forall (embeddedIn t)) (fieldsExpr rec t).
Proof.
  unfold structFields. eapply posts_bind; [apply posts_mapM; intros f; apply goFieldOf_posts|].
  intros fs Hfs. apply posts_ret. apply Forall_forall. intros field (r & Hr & E)%list_elem_of_omap.
  simpl in E. subst r. by eapply Forall_forall in Hfs; [apply Hfs|].
Qed.

Section Congruence.
  Context (rec1 rec2 : string → M GoTypes.expr).

Lemma goFieldOf_meq t f :
  (∀ u, u ∈ fieldCalls t f → meq (rec1 u) (rec2 u)) →
  meq (goFieldOf isLetter isDigit isNumber isPrint reflect PointerTo isStdlibPkg fieldTypeOverride importTypes
         rendering rec1 t f)
      (goFieldOf isLetter isDigit isNumber isPrint reflect PointerTo isStdlibPkg fieldTypeOverride importTypes
         rendering rec2 t f).
Proof.
  intros Hrec. unfold goFieldOf. destruct (shouldSkipField f); [done|].
  pose proof (Hrec (derefPtr reflect (sf_Type f)).1 ltac:(unfold fieldCalls; set_solver)) as Hft.
  destruct (derefPtr reflect (sf_Type f)) as [ft ptr] eqn:E.
  destruct (_ && _ && _ && _); [done|]. apply meq_bind.
  - destruct (_ && _); [|done]. unfold embeddedDecl. apply meq_bind; [|done].
    destruct (_ || _); [done|exact Hft].
  - intros [field|]; [done|]. destruct (_ && _); [done|]. apply meq_bind; [|done].
    unfold namedField. apply meq_bind; [|done]. unfold fieldTypeExpr, fieldCalls in *.
    destruct (fieldTypeOverride t (sf_Name f)) as [ov|]; [|apply Hrec; set_solver].
    destruct (kindOf ov); apply Hrec; set_solver.
Qed.

Lemma structFields_meq t :
  (∀ u, u ∈ structCalls t → meq (rec1 u) (rec2 u)) → meq (fieldsExpr rec1 t) (fieldsExpr rec2 t).
Proof.
  intros Hrec. unfold structFields. apply meq_bind; [|done]. apply meq_mapM. intros f Hf.
  apply goFieldOf_meq. intros u Hu. apply Hrec. apply list_elem_of_bind. by exists f.
Qed.

Lemma structExpr_meq t :
  isStruct reflect t = true → (∀ u, u ∈ components t → meq (rec1 u) (rec2 u)) →
  meq (underlying rec1 t) (underlying rec2 t).
Proof.
  unfold isStruct, components, underlyingExpr. intros Hs Hrec. destruct (kindOf t) eqn:Ek; try done.
  unfold structExpr. apply (meq_bind_post (Forall (embeddedIn t))).
  - apply structFields_posts.
  - apply structFields_meq. intros u Hu. apply Hrec, elem_of_app. by left.
  - intros fs Hfs. apply meq_bind; [|done]. apply meq_mapM. intros field Hfield. unfold inlineClash.
    eapply Forall_forall in Hfs; [|done]. destruct (gf_embedded field) as [ft|] eqn:E; [|done].
    destruct (bool_decide _); [done|]. destruct (gf_ptr field); [done|]. apply meq_bind; [|done].
    apply structFields_meq. intros u Hu. apply Hrec, elem_of_app. right.
    destruct (Hfs ft E) as (_ & _ & f & Hf & Ha & ->). rewrite Ek in Hf. apply list_elem_of_bind.
    exists f. by rewrite Ha.
Qed.

Lemma underlyingExpr_meq t :
  (∀ u, u ∈ components t → meq (rec1 u) (rec2 u)) → meq (underlying rec1 t) (underlying rec2 t).
Proof.
  intros Hrec. destruct (isStruct reflect t) eqn:Es; [by apply structExpr_meq|].
  unfold isStruct, components, underlyingExpr in *. destruct (kindOf t); try done;
    try (apply meq_bind; [apply Hrec; set_solver|done]).
  apply meq_bind; [|intros k; apply meq_bind; [apply Hrec; set_solver|done]].
  unfold mapKeyExpr. destruct (_ && _); [done|]. apply Hrec. set_solver.
Qed.

Lemma fieldV_call t v : fieldV reflect t = Some v → v ∈ structCalls t ∧ isStruct reflect t = true.
Proof.
  unfold fieldV. intros (f & Hf & ->)%fmap_Some. apply head_Some_elem_of, list_elem_of_filter in Hf as [_ Hf].
  split.
  - apply list_elem_of_bind. exists f. split; [|done]. unfold fieldCalls. set_solver.
  - unfold isStruct. destruct (kindOf t); simpl in Hf; try done; by apply not_elem_of_nil in Hf.
Qed.

Abbreviation sqlExpr rec := (sqlNullExpr isLetter isDigit isNumber isPrint reflect PointerTo isStdlibPkg
  fieldTypeOverride importTypes rendering rec).

Lemma structCalls_components t u : u ∈ structCalls t → u ∈ components t.
Proof.
  unfold structCalls at 1, components. destruct (kindOf t) eqn:E; simpl; try by intros ?%not_elem_of_nil.
  intros Hu. apply elem_of_app. left. unfold structCalls. by rewrite E.
Qed.

Lemma sqlNullExpr_meq t :
  (isSql reflect t = true → ∀ v, fieldV reflect t = Some v → flattenedType reflect v = true → meq (rec1 v) (rec2 v)) →
  (isSql reflect t = true → isSQLNullFlattened reflect t = false → meq (underlying rec1 t) (underlying rec2 t)) →
  meq (sqlExpr rec1 t) (sqlExpr rec2 t).
Proof.
  intros Hv Hu. unfold sqlNullExpr. unfold isSQLNullFlattened in Hu.
  destruct (isSql reflect t); cbn [negb] in *; [|done].
  destruct (isOneOf _ _) eqn:Eo.
  - clear Hu. unfold isOneOf in Eo. apply bool_decide_eq_true in Eo. repeat (case_bool_decide; [done|]).
    exfalso. set_solver.
  - clear Eo. repeat (case_bool_decide; [done|]). destruct (hasPrefix _ _); [|done].
    destruct (fieldV reflect t) as [v|]; [|done].
    destruct (flattenedType reflect v) eqn:Ef; (apply meq_bind; [|done]); [by apply Hv|by apply Hu].
Qed.

Lemma typeExprBody_meq t :
  (expanded t = true → ∀ u, u ∈ components t → meq (rec1 u) (rec2 u)) → meq (body rec1 t) (body rec2 t).
Proof.
  intros Hrec. unfold typeExprBody. do 2 (case_bool_decide; [done|]).
  assert (Hother : (∀ e, kindOf t ≠ Pointer e) → meq (sqlExpr rec1 t) (sqlExpr rec2 t) ∧
            (bool_decide (nameOf t = []) || bool_decide (pkgPathOf t = []) = true ∨
             isStdlibPkg (pkgPathOf t) = true ∧ negb (generic (nameOf t)) && IsExported (nameOf t) = false →
             meq (underlying rec1 t) (underlying rec2 t))).
  { intros Hk. unfold expanded in Hrec. split.
    - assert (Hsql : isSql reflect t = true → ∀ u, u ∈ components t → meq (rec1 u) (rec2 u)).
      { intros Hs. apply Hrec. destruct (kindOf t); try by rewrite Hs. by destruct (Hk elem). }
      apply sqlNullExpr_meq; [|intros Hs _; by apply underlyingExpr_meq, Hsql].
      intros Hs v Hv _. apply Hsql; [done|].
      by apply structCalls_components, fieldV_call.
    - intros Hc. apply underlyingExpr_meq, Hrec. destruct (kindOf t); try (by destruct (Hk elem));
        rewrite !orb_true_iff, andb_true_iff; destruct Hc as [[Hc|Hc]%orb_true_iff|[Hc Hn]]; auto; right;
        (split; [done|]); destruct (generic (nameOf t)); simpl in *; try done; by rewrite Hn. }
  destruct (kindOf t) as [| e | | | | | |] eqn:Ek; try
    (destruct Hother as [Hs Hu]; [done|]; apply meq_bind; [exact Hs|]; intros [e'|]; [done|];
     cbv zeta; destruct (bool_decide (nameOf t = []) || bool_decide (pkgPathOf t = [])); [by apply Hu; left|];
     destruct (isStdlibPkg (pkgPathOf t)); [|done];
     destruct (negb (generic (nameOf t)) && IsExported (nameOf t)); [done|];
     destruct (marshalShape reflect t); [done|]; apply Hu; by right).
  - assert (He : ∀ u, u ∈ components t → meq (rec1 u) (rec2 u)) by (apply Hrec; unfold expanded; by rewrite Ek).
    unfold components in He. rewrite Ek in He.
    destruct (isSQLNullFlattened reflect e) eqn:Ef; (apply meq_bind; [|done]); [|apply He; set_solver].
    apply sqlNullExpr_meq; [|by rewrite Ef]. intros _ v Hv _. apply He. rewrite Hv. set_solver.
  - destruct Hother as [Hs _]; [done|]. apply meq_bind; [exact Hs|]. by intros [e'|].
Qed.
End Congruence.

(** The fuel is enough for a type if it exceeds the type's level, and then [typeExpr] obeys
    the recursive equation of the code. *)
Context (level : string → nat) (Hlevel : ∀ t u, expanded t = true → u ∈ components t → level u < level t).

Lemma typeExpr_fuel t k1 k2 : level t < k1 → level t < k2 → meq (expr k1 t) (expr k2 t).
Proof.
  revert t k2. induction k1 as [|k1 IH]; intros t [|k2] H1 H2; try lia. simpl.
  apply typeExprBody_meq. intros He u Hu. pose proof (Hlevel _ _ He Hu). apply IH; lia.
Qed.

Lemma typeExpr_eq k t : level t < k → meq (expr k t) (body (expr k) t).
Proof.
  destruct k as [|k]; [lia|]. intros Hk. change (expr (S k) t) with (body (expr k) t). apply typeExprBody_meq. intros He u Hu.
  pose proof (Hlevel _ _ He Hu). apply typeExpr_fuel; lia.
Qed.

End Pass.

(** ** The pass that discovers *)

Context {Tables : UnicodeTables isLetter isDigit}.
Context (blob_path : pkgPathOf blobType = aprotPkgPath).
Context (enum_kind : ∀ t e, enumTypes !! t = Some e → isStruct reflect t = false).

(** What the first pass keeps: the queue lists the types it has registered, once each, and
    package clauses are identifiers. *)
Record discovering (σ : gen) : Prop := Discovering {
  ds_nodup : NoDup (g_order σ);
  ds_order t : t ∈ g_order σ ↔ is_Some (g_named σ !! t);
  ds_path t nt : g_named σ !! t = Some nt → pkgPathOf t ≠ [];
  ds_enum t nt e : g_named σ !! t = Some nt → nt_enum nt = Some e → isStruct reflect t = false;
  ds_real p name : g_realPkgNames σ !! p = Some name → IsIdentifier isLetter isDigit name = true;
  ds_import p local : g_importNames σ !! p = Some local → local = goPkgName isLetter isDigit p ∨
                                                           IsIdentifier isLetter isDigit local = true;
}.

(** Later states know more. *)
Record later (σ σ' : gen) : Prop := Later {
  lt_named : g_named σ ⊆ g_named σ';
  lt_order : g_order σ `prefix_of` g_order σ';
  lt_imports : dom (g_importNames σ) ⊆ dom (g_importNames σ');
}.

#[export] Instance later_preorder : PreOrder later.
Proof.
  split.
  - intros σ. by split.
  - intros σ1 σ2 σ3 [N1 O1 I1] [N2 O2 I2]. split; by etrans.
Qed.

Definition discovers {A} (m : M A) : Prop := ∀ σ, discovering σ → discovering (m σ).2 ∧ later σ (m σ).2.

Lemma discovers_ret {A} (a : A) : discovers (mret a).
Proof. intros σ Hσ. by split. Qed.

Lemma discovers_bind {A B} (m : M A) (f : A → M B) :
  discovers m → (∀ a, discovers (f a)) → discovers (m ≫= f).
Proof.
  intros Hm Hf σ Hσ. unfold mbind, M_bind. destruct (Hm σ Hσ) as [H1 H2]. destruct (m σ) as [a σ'].
  destruct (Hf a σ' H1) as [H3 H4]. split; [done|by etrans].
Qed.

Lemma discovers_mapM {A B} (f : A → M B) l : (∀ x, x ∈ l → discovers (f x)) → discovers (mapM f l).
Proof.
  induction l as [|x l IH]; intros Hf; simpl; [apply discovers_ret|].
  apply discovers_bind; [apply Hf; left|]. intros y. apply discovers_bind; [|intros; apply discovers_ret].
  apply IH. intros. apply Hf. by right.
Qed.

(** Updates of fields the invariant does not speak of. *)
Lemma discovers_quiet {A} (m : M A) :
  (∀ σ, g_named (m σ).2 = g_named σ ∧ g_order (m σ).2 = g_order σ ∧ g_importNames (m σ).2 = g_importNames σ ∧
        g_realPkgNames (m σ).2 = g_realPkgNames σ) → discovers m.
Proof.
  intros Hm σ []. destruct (Hm σ) as (E1 & E2 & E3 & E4). by split; split; rewrite ?E1, ?E2, ?E3, ?E4.
Qed.

Lemma discovers_errorf e : discovers (errorf e).
Proof. by apply discovers_quiet. Qed.

Lemma discovers_setReal p name : IsIdentifier isLetter isDigit name = true → discovers (setRealPkgName p name).
Proof.
  intros Hid σ []. split; split; simpl; try done. intros q n. rewrite lookup_insert_Some. intros [[_ <-]|[_ E]]; eauto.
Qed.

Lemma discovers_qualPkg p : discovers (qualPkg isLetter isDigit None p).
Proof.
  apply discovers_bind; [by apply discovers_quiet|]. intros _ σ Hσ. unfold importName.
  destruct (g_importNames σ !! p) as [local|] eqn:E; [by split|]. destruct Hσ. simpl. split; split; simpl; try done.
  - intros q l. rewrite lookup_insert_Some. intros [[<- <-]|[_ El]]; [|eauto].
    unfold pkgName. destruct (g_realPkgNames σ !! p) as [name|] eqn:Er; simpl; eauto.
  - rewrite dom_insert_L. set_solver.
Qed.

Abbreviation named1 := (namedRef isLetter isDigit isNumber reflect None).

Lemma discovers_namedRef t enum marshaled :
  pkgPathOf t ≠ [] → (∀ e, enum = Some e → isStruct reflect t = false) → discovers (named1 t enum marshaled).
Proof.
  intros Hp He σ Hσ. unfold namedRef. destruct (g_named σ !! t) as [nt|] eqn:E; [by split|].
  destruct Hσ as [Hnd Ho Hpath Henum Hreal Himp]. simpl. split; split; simpl; try done.
  - apply NoDup_app. split_and!; [done| |apply NoDup_singleton].
    intros u Hu ->%list_elem_of_singleton. apply Ho in Hu. rewrite E in Hu. by destruct Hu.
  - intros u. rewrite elem_of_app, list_elem_of_singleton, Ho. destruct (decide (u = t)) as [->|Hne].
    + rewrite lookup_insert_eq. split; [by eexists|by right].
    + rewrite lookup_insert_ne by done. split; [by intros [|]|by left].
  - intros u nt. rewrite lookup_insert_Some. intros [[<- _]|[_ Eu]]; eauto.
  - intros u nt e. rewrite lookup_insert_Some. intros [[<- <-]|[_ Eu]]; simpl; eauto.
  - by apply insert_subseteq.
  - by apply prefix_app_r.
Qed.

(** Walks through a computation: binds, branches, and the steps known already. *)
Ltac walk_with tac :=
  repeat (cbv zeta;
    match goal with
    | |- discovers (mret _) => apply discovers_ret
    | |- discovers (errorf _) => apply discovers_errorf
    | |- discovers (qualPkg _ _ _ _) => apply discovers_qualPkg
    | |- discovers (match ?m with _ => _ end) => let E := fresh "E" in destruct m eqn:E
    | |- discovers (_ ≫= _) => apply discovers_bind; [|intros ?]
    | _ => tac
    end).

Lemma discovers_qual p name : discovers (qual isLetter isDigit None p name).
Proof. unfold qual. walk_with fail. Qed.

Lemma discovers_shape s : discovers (shapeTypeExpr isLetter isDigit None s).
Proof. destruct s; simpl; walk_with ltac:(apply discovers_qual). Qed.

Lemma discovers_marshaled t e : discovers (marshaledEnumValues marshalMember t e).
Proof.
  unfold marshaledEnumValues. induction (en_values e) as [|v vs IH]; simpl; walk_with ltac:(exact IH).
Qed.

Lemma discovers_checkImported t : discovers (checkImportedType reflect ptrs walk t).
Proof.
  apply discovers_quiet. intros σ. unfold checkImportedType. destruct (decide _); [done|].
  unfold mbind, M_bind. simpl. destruct (findSQLNull _ _ _ _ _ _) as [[[path|] seen]|]; done.
Qed.

Section Recursion.
  Context (rec : string → M GoTypes.expr) (Hrec : ∀ u, discovers (rec u)).

Lemma discovers_goFieldOf t f :
  discovers (goFieldOf isLetter isDigit isNumber isPrint reflect PointerTo isStdlibPkg fieldTypeOverride importTypes
    None rec t f).
Proof.
  unfold goFieldOf, namedField, embeddedDecl, fieldTypeExpr. walk_with ltac:(apply Hrec).
  apply discovers_namedRef; [|done].
  match goal with E : _ || _ = true |- _ => apply orb_true_iff in E as [E|E]; apply bool_decide_eq_true in E; rewrite E end;
    [by rewrite blob_path|done].
Qed.

Lemma discovers_structFields t :
  discovers (structFields isLetter isDigit isNumber isPrint reflect PointerTo isStdlibPkg fieldTypeOverride
    importTypes None rec t).
Proof.
  unfold structFields. walk_with fail. apply discovers_mapM. intros f _. apply discovers_goFieldOf.
Qed.

Lemma discovers_structBody t seen fs : discovers (structBody t seen fs).
Proof. revert seen. induction fs as [|f fs IH]; intros seen; simpl; walk_with ltac:(apply IH). Qed.

Lemma bind_at {A B : Type} (m : M A) (f : A → M B) σ : (m ≫= f) σ = f (m σ).1 (m σ).2.
Proof. unfold mbind, M_bind. by destruct (m σ). Qed.

(** A struct's expression starts with its fields. *)
Lemma underlying_fields t σ :
  isStruct reflect t = true → discovering σ →
  later (structFields isLetter isDigit isNumber isPrint reflect PointerTo isStdlibPkg fieldTypeOverride importTypes
           None rec t σ).2
        (underlyingExpr isLetter isDigit isNumber isPrint reflect PointerTo isStdlibPkg fieldTypeOverride importTypes
           None rec t σ).2.
Proof.
  unfold isStruct, underlyingExpr. intros Hs Hσ. destruct (kindOf t); try done. unfold structExpr.
  rewrite bind_at. destruct (discovers_structFields t σ Hσ) as [Hσ1 _].
  destruct (structFields _ _ _ _ _ _ _ _ _ _ _ t σ) as [fs σ1]. cbn [fst snd]. cbv zeta.
  match goal with |- later _ (?m σ1).2 => assert (Hd : discovers m); [|by apply Hd] end.
  walk_with ltac:(apply discovers_structBody). apply discovers_mapM. intros f _. unfold inlineClash.
  walk_with ltac:(apply discovers_structFields).
Qed.

Lemma discovers_underlying t :
  discovers (underlyingExpr isLetter isDigit isNumber isPrint reflect PointerTo isStdlibPkg fieldTypeOverride
    importTypes None rec t).
Proof.
  unfold underlyingExpr, mapKeyExpr, structExpr. walk_with ltac:(apply Hrec || apply discovers_structFields ||
    apply discovers_structBody). apply discovers_mapM. intros f _. unfold inlineClash.
  walk_with ltac:(apply discovers_structFields).
Qed.

Lemma discovers_sqlNull t :
  discovers (sqlNullExpr isLetter isDigit isNumber isPrint reflect PointerTo isStdlibPkg fieldTypeOverride
    importTypes None rec t).
Proof.
  unfold sqlNullExpr. walk_with ltac:(apply Hrec || apply discovers_qual || apply discovers_underlying).
Qed.

Lemma discovers_imported t : discovers (importedExpr isLetter isDigit reflect None ptrs walk t).
Proof.
  unfold importedExpr. walk_with ltac:(apply discovers_qual || apply discovers_checkImported ||
    (apply discovers_setReal; done)).
Qed.

Lemma discovers_declared t :
  pkgPathOf t ≠ [] → discovers (declaredExpr isLetter isDigit isNumber reflect enumTypes marshalMember None t).
Proof.
  intros Hp. unfold declaredExpr. walk_with ltac:(apply discovers_shape || apply discovers_marshaled).
  all: apply discovers_namedRef; [done|intros e' [= <-]; by eapply enum_kind].
Qed.

(** What [typeExpr] does with a type that is no pointer, interface or database/sql type. *)
Definition restOf (r : option (string → gostr)) (rec' : string → M GoTypes.expr) (t : string) : M GoTypes.expr :=
  if bool_decide (nameOf t = []) || bool_decide (pkgPathOf t = [])
  then underlyingExpr isLetter isDigit isNumber isPrint reflect PointerTo isStdlibPkg fieldTypeOverride importTypes r rec' t
  else if isStdlibPkg (pkgPathOf t) then
    if negb (generic (nameOf t)) && IsExported (nameOf t) then qual isLetter isDigit r (pkgPathOf t) (nameOf t)
    else match marshalShape reflect t with
         | Some shape => shapeTypeExpr isLetter isDigit r shape
         | None => underlyingExpr isLetter isDigit isNumber isPrint reflect PointerTo isStdlibPkg fieldTypeOverride
                     importTypes r rec' t
         end
  else if bool_decide (pkgPathOf t ∈ importTypes) then importedExpr isLetter isDigit reflect r ptrs walk t
  else declaredExpr isLetter isDigit isNumber reflect enumTypes marshalMember r t.

Lemma discovers_rest t : discovers (restOf None rec t).
Proof.
  unfold restOf. walk_with ltac:(apply discovers_qual || apply discovers_underlying || apply discovers_shape ||
    apply discovers_imported). apply discovers_declared. by apply orb_false_iff in E as [_ E%bool_decide_eq_false].
Qed.

Lemma discovers_body t :
  discovers (typeExprBody isLetter isDigit isNumber isPrint reflect PointerTo isStdlibPkg enumTypes
    fieldTypeOverride importTypes marshalMember None rec ptrs walk t).
Proof.
  unfold typeExprBody. case_bool_decide; [apply discovers_ret|]. case_bool_decide; [apply discovers_qual|].
  pose proof (discovers_rest t) as Hr. unfold restOf in Hr.
  destruct (kindOf t); try (apply discovers_bind; [apply discovers_sqlNull|]; intros [e'|]; [apply discovers_ret|];
    exact Hr || apply discovers_ret).
  destruct (isSQLNullFlattened _ _); walk_with ltac:(apply Hrec || apply discovers_sqlNull).
Qed.

End Recursion.

Abbreviation expr1 k := (typeExpr isLetter isDigit isNumber isPrint reflect PointerTo isStdlibPkg enumTypes
  fieldTypeOverride importTypes marshalMember None ptrs walk k).

Lemma discovers_typeExpr k t : discovers (expr1 k t).
Proof. revert t. induction k as [|k IH]; intros t; [apply discovers_ret|by apply discovers_body]. Qed.

(** ** The pass that prints

    The second pass starts from what the first has found: the types [N] in the order [O], and
    the local names [L] of the imports. *)

Section Agreement.
Context (number_ascii : ∀ r, (0 ≤ r < 128)%Z → isNumber r = asciiDigit r).
Context (digit_number : ∀ r, isDigit r = true → isNumber r = true).
Context (N : gmap string goNamedType) (O : list string) (L : gmap gostr gostr) (fin : string → gostr).
Context (fin_ident : ∀ t, is_Some (N !! t) → IsIdentifier isLetter isDigit (fin t) = true).
Context (L_ident : ∀ p l, L !! p = Some l → IsIdentifier isLetter isDigit l = true).

(** A state of the second pass, [u] of whose imports are used. *)
Record printing (τ : gen) : Prop := Printing_ {
  pr_named : g_named τ = N;
  pr_order : g_order τ = O;
  pr_imports : g_importNames τ = L;
  pr_used : g_usedImports τ ⊆ dom L;
  pr_errs t : EDiscovered t ∉ g_errs τ;
}.

(** The state of the first pass is no further than its end. *)
Definition below (σ : gen) : Prop := g_named σ ⊆ N ∧ dom (g_importNames σ) ⊆ dom L.

Lemma below_later σ σ' : later σ σ' → below σ' → below σ.
Proof. intros [Hn _ Hi] [Hn' Hi']. split; by etrans. Qed.

(** The triple: when the first pass has run [m1] on its way, the second can run [m2]; [R]
    relates the results, given the imports that are used afterwards. *)
Definition agree {A B : Type} (U : gset gostr) (R : gset gostr → A → B → Prop) (m1 : M A) (m2 : M B) : Prop :=
  ∀ σ τ, discovering σ → below (m1 σ).2 → printing τ → U ⊆ g_usedImports τ →
    printing (m2 τ).2 ∧ g_usedImports τ ⊆ g_usedImports (m2 τ).2 ∧
    R (g_usedImports (m2 τ).2) (m1 σ).1 (m2 τ).1.

(** The second pass on its own. *)
Definition prints {B : Type} (U : gset gostr) (P : gset gostr → B → Prop) (m : M B) : Prop :=
  ∀ τ, printing τ → U ⊆ g_usedImports τ →
    printing (m τ).2 ∧ g_usedImports τ ⊆ g_usedImports (m τ).2 ∧ P (g_usedImports (m τ).2) (m τ).1.

Lemma prints_ret {B : Type} (U : gset gostr) (P : gset gostr → B → Prop) b :
  (∀ U', U ⊆ U' → P U' b) → prints U P (mret b).
Proof. intros HP τ Hτ HU. split_and!; [done|done|by apply HP]. Qed.

Lemma prints_bind {A B : Type} (U : gset gostr) (P : gset gostr → A → Prop) (Q : gset gostr → B → Prop)
    (m : M A) (f : A → M B) :
  prints U P m → (∀ U' a, U ⊆ U' → P U' a → prints U' Q (f a)) → prints U Q (m ≫= f).
Proof.
  intros Hm Hf τ Hτ HU. destruct (Hm τ Hτ HU) as (H1 & H2 & H3). unfold mbind, M_bind.
  destruct (m τ) as [a τ1]. simpl in *.
  destruct (Hf (g_usedImports τ1) a ltac:(by etrans) H3 τ1 H1 ltac:(done)) as (H4 & H5 & H6).
  split_and!; [done|by etrans|done].
Qed.

Lemma agree_ret {A B : Type} (U : gset gostr) (R : gset gostr → A → B → Prop) a b :
  (∀ U', U ⊆ U' → R U' a b) → agree U R (mret a) (mret b).
Proof. intros HR σ τ _ _ Hτ HU. split_and!; [done|done|by apply HR]. Qed.

Lemma agree_bind {A1 A2 B1 B2 : Type} (U : gset gostr) (R : gset gostr → A1 → A2 → Prop) (R' : gset gostr → B1 → B2 → Prop)
    (m1 : M A1) (m2 : M A2) f1 f2 :
  discovers m1 → (∀ a, discovers (f1 a)) → agree U R m1 m2 →
  (∀ U' a b, U ⊆ U' → R U' a b → agree U' R' (f1 a) (f2 b)) → agree U R' (m1 ≫= f1) (m2 ≫= f2).
Proof.
  intros Hd1 Hd2 Hm Hf σ τ Hσ. unfold mbind, M_bind. destruct (Hd1 σ Hσ) as [Hσ' _].
  specialize (Hm σ τ Hσ). destruct (m1 σ) as [a σ1]. destruct (Hd2 a σ1 Hσ') as [_ Hl].
  intros Hb Hτ HU. destruct (Hm (below_later _ _ Hl Hb) Hτ HU) as (Hτ' & HU' & HR).
  destruct (m2 τ) as [b τ1]. simpl in *.
  destruct (Hf (g_usedImports τ1) a b ltac:(by etrans) HR σ1 τ1 Hσ' Hb Hτ' ltac:(done)) as (H1 & H2 & H3).
  split_and!; [done|by etrans|done].
Qed.

Lemma agree_weaken {A B : Type} (U : gset gostr) (R R' : gset gostr → A → B → Prop) m1 m2 :
  agree U R m1 m2 → (∀ U' a b, U ⊆ U' → R U' a b → R' U' a b) → agree U R' m1 m2.
Proof.
  intros Hm HR σ τ Hσ Hb Hτ HU. destruct (Hm σ τ Hσ Hb Hτ HU) as (H1 & H2 & H3).
  split_and!; [done|done|]. apply HR; [by etrans|done].
Qed.

Lemma agree_prints {A B : Type} (U : gset gostr) (P : gset gostr → B → Prop) (m1 : M A) (m2 : M B) :
  prints U P m2 → agree U (λ U' _ b, P U' b) m1 m2.
Proof. intros Hm σ τ _ _ Hτ HU. by apply Hm. Qed.

(** Relations that stay true when more imports are used. *)
Definition growing {A B : Type} (R : gset gostr → A → B → Prop) : Prop := ∀ U U' a b, U ⊆ U' → R U a b → R U' a b.

Lemma agree_mapM {A1 A2 B1 B2 : Type} (E : A1 → A2 → Prop) (R : gset gostr → B1 → B2 → Prop)
    (f1 : A1 → M B1) (f2 : A2 → M B2) (l1 : list A1) (l2 : list A2) (U0 : gset gostr) :
  growing R → Forall2 E l1 l2 → (∀ x, x ∈ l1 → discovers (f1 x)) →
  (∀ x1 x2 U, U0 ⊆ U → x1 ∈ l1 → x2 ∈ l2 → E x1 x2 → agree U R (f1 x1) (f2 x2)) →
  ∀ U, U0 ⊆ U → agree U (λ U', Forall2 (R U')) (mapM f1 l1) (mapM f2 l2).
Proof.
  intros Hg. induction 1 as [|x1 x2 l1 l2 Hx Hl IH]; intros Hd Hf U HU0; simpl; [apply agree_ret; constructor|].
  assert (Hd' : ∀ x, x ∈ l1 → discovers (f1 x)) by (intros; apply Hd; by right).
  apply (agree_bind _ R); [apply Hd; left| |apply Hf; [done|left|left|done]|].
  { intros a. apply discovers_bind; [by apply discovers_mapM|intros; apply discovers_ret]. }
  intros U1 a b HU1 HR. apply (agree_bind _ (λ U', Forall2 (R U'))).
  - by apply discovers_mapM.
  - intros. apply discovers_ret.
  - apply IH; [done| |by etrans]. intros. apply Hf; [done|by right|by right|done].
  - intros U2 as_ bs HU2 Has. apply agree_ret. intros U3 HU3. constructor.
    + eapply Hg; [|done]. by etrans.
    + eapply Forall2_impl; [done|]. intros. by eapply Hg.
Qed.

(** *** Expressions *)

Definition okToken (U : gset gostr) (t : token) : Prop :=
  match t with
  | Txt _ => True
  | Ref t n => n = fin t ∧ is_Some (N !! t)
  | Pkg p l => L !! p = Some l ∧ p ∈ U
  end.
Definition okExpr (U : gset gostr) (e : GoTypes.expr) : Prop := Forall (okToken U) e.

Lemma okExpr_mono (U U' : gset gostr) e : U ⊆ U' → okExpr U e → okExpr U' e.
Proof.
  intros HU He. eapply Forall_impl; [exact He|]. intros [s|t n|p l]; simpl; [done|done|]. intros [? ?]. split; [done|by apply HU].
Qed.

Abbreviation embeddable e := (embeddableRe isLetter isNumber (render e)).

(** What is related are expressions that are good in the second pass, and that can be
    embedded under the same name in both, except when the name is that of a declared type. *)
Definition exprRel (t : string) (U : gset gostr) (e1 e2 : GoTypes.expr) : Prop :=
  okExpr U e2 ∧ embeddable e1 = embeddable e2 ∧
  (isStruct reflect t = true → embeddable e1 = true →
     is_Some (N !! t) ∨ afterDot (render e1) = afterDot (render e2)).

Lemma exprRel_growing t : growing (exprRel t).
Proof. intros U U' e1 e2 HU (H1 & H2). split; [by eapply okExpr_mono|done]. Qed.

Lemma exprRel_same (t : string) (U : gset gostr) e : Forall (λ tok, ∃ s, tok = Txt s) e → exprRel t U e e.
Proof.
  intros He. split_and!; [|done|by intros _ _; right]. eapply Forall_impl; [done|]. by intros tok [s ->].
Qed.

Lemma exprRel_plain (t : string) (U : gset gostr) e1 e2 : okExpr U e2 → embeddable e1 = false → embeddable e2 = false → exprRel t U e1 e2.
Proof. intros Ho E1 E2. split_and!; [done|congruence|congruence]. Qed.

(** *** The automaton *)

Abbreviation run := (foldl (reStep isLetter isNumber)).

Lemma run_fail s : run ReFail s = ReFail.
Proof. by induction s. Qed.

(** On ASCII the tables are not needed. *)
Lemma run_ascii q s :
  forallb (λ r, bool_decide (0 ≤ r < 128)%Z) s = true →
  run q s = foldl (reStep asciiLetters asciiDigit) q s.
Proof.
  revert q. induction s as [|r s IH]; intros q; simpl; [done|].
  intros [Hr%bool_decide_eq_true Hs]%andb_true_iff. rewrite IH by done. f_equal.
  unfold reStep. rewrite letter_ascii, number_ascii by done. done.
Qed.

(** An expression that starts like no identifier cannot be embedded. *)
Lemma not_embeddable pre s :
  forallb (λ r, bool_decide (0 ≤ r < 128)%Z) pre = true →
  foldl (reStep asciiLetters asciiDigit) ReStart pre = ReFail →
  embeddableRe isLetter isNumber (pre ++ s) = false.
Proof.
  intros Ha Hf. unfold embeddableRe. by rewrite foldl_app, (run_ascii _ pre Ha), Hf, run_fail.
Qed.

Lemma run_identifier s : IsIdentifier isLetter isDigit s = true → run ReStart s = ReFirst.
Proof.
  destruct s as [|r s]; [done|]. unfold IsIdentifier. intros [[Hr Hs]%andb_true_iff _]%andb_true_iff. simpl.
  rewrite Hr. clear Hr. induction s as [|x s IH]; [done|]. simpl in *. apply andb_true_iff in Hs as [Hx Hs].
  unfold identRune in Hx. rewrite !orb_true_iff in Hx.
  assert (isLetter x || bool_decide (x = underscore) || isNumber x = true) as ->; [|by apply IH].
  rewrite !orb_true_iff. destruct Hx as [[Hx|Hx]|Hx]; auto.
Qed.

(** Package names need not avoid keywords. *)
Lemma run_goPkgName p : run ReStart (goPkgName isLetter isDigit p) = ReFirst.
Proof.
  destruct (goPkgName_ident isLetter isDigit p) as (r & rest & -> & Hr & Hc). simpl. rewrite Hr. simpl.
  unfold identChars in Hc. simpl in Hc. apply andb_true_iff in Hc as [_ Hc]. clear Hr.
  induction rest as [|x s IH]; [done|]. simpl in *. apply andb_true_iff in Hc as [Hx Hs].
  unfold identRune in Hx. rewrite !orb_true_iff in Hx.
  assert (isLetter x || bool_decide (x = underscore) || isNumber x = true) as ->; [|by apply IH].
  rewrite !orb_true_iff. destruct Hx as [[Hx|Hx]|Hx]; auto.
Qed.

Lemma afterDot_app a b : afterDot (a ++ 46%Z :: b) = afterDot b.
Proof.
  unfold afterDot. assert (Hne : ∀ s, split 46%Z s ≠ []).
  { intros [|r s]; simpl; [done|]. case_bool_decide; [done|]. by destruct (split 46%Z s). }
  induction a as [|r a IH]; simpl.
  - destruct (split 46%Z b) eqn:E; [by destruct (Hne b)|done].
  - case_bool_decide.
    + destruct (split 46%Z (a ++ 46%Z :: b)) eqn:E; [by destruct (Hne (a ++ 46%Z :: b))|]. by rewrite <-IH.
    + destruct (split 46%Z (a ++ 46%Z :: b)) as [|x xs] eqn:E; [by destruct (Hne (a ++ 46%Z :: b))|].
      assert (Hxs : xs ≠ []).
      { clear -E Hne. revert x xs E. induction a as [|y a IH]; intros x xs; simpl.
        - intros [= _ <-]. apply Hne.
        - case_bool_decide; [intros [= _ <-]; apply Hne|].
          destruct (split 46%Z (a ++ 46%Z :: b)) eqn:E; [by destruct (Hne (a ++ 46%Z :: b))|]. intros [= _ <-]. by eapply IH. }
      destruct xs as [|y ys]; [by destruct Hxs|exact IH].
Qed.

(** *** Names and imports *)

(** The second pass with a name it knows. *)
Abbreviation two := (Some fin).

Lemma prints_errorf (U : gset gostr) e : (∀ t, e ≠ EDiscovered t) → prints U (λ _ _, True) (errorf e).
Proof.
  intros He τ [] HU. split_and!; [|done|done]. split; simpl; try done.
  intros t. rewrite elem_of_app, list_elem_of_singleton. intros [Ht|Ht]; [naive_solver|by destruct (He t)].
Qed.

Definition localsRel (p : gostr) (U : gset gostr) (e1 e2 : GoTypes.expr) : Prop :=
  ∃ l1 l2, e1 = [Pkg p l1] ∧ e2 = [Pkg p l2] ∧ run ReStart l1 = ReFirst ∧ run ReStart l2 = ReFirst ∧
           L !! p = Some l2 ∧ p ∈ U.

Lemma qualPkg_first p σ :
  discovering σ → ∃ l σ', qualPkg isLetter isDigit None p σ = ([Pkg p l], σ') ∧ run ReStart l = ReFirst ∧
                          p ∈ dom (g_importNames σ').
Proof.
  intros Hσ. unfold qualPkg, mbind, M_bind. simpl. unfold importName. simpl.
  destruct (g_importNames σ !! p) as [l|] eqn:E.
  - do 2 eexists. split_and!; [done| |by apply elem_of_dom].
    destruct (ds_import _ Hσ _ _ E) as [->|Hid]; [apply run_goPkgName|by apply run_identifier].
  - do 2 eexists. split_and!; [done| |simpl; rewrite dom_insert_L; set_solver].
    unfold pkgName. destruct (g_realPkgNames σ !! p) as [name|] eqn:Er; simpl; [|apply run_goPkgName].
    by eapply run_identifier, ds_real.
Qed.

Lemma agree_qualPkg (U : gset gostr) p :
  agree U (localsRel p) (qualPkg isLetter isDigit None p) (qualPkg isLetter isDigit two p).
Proof.
  intros σ τ Hσ Hb [Hn Ho HL Hu He] HU.
  destruct (qualPkg_first p σ Hσ) as (l1 & σ' & E1 & Hr1 & Hp). rewrite E1 in *. simpl in *.
  assert (is_Some (L !! p)) as [l2 El2] by (apply elem_of_dom; by apply Hb).
  unfold qualPkg, mbind, M_bind. simpl. unfold importName. simpl. rewrite HL, El2. simpl. split_and!.
  - split; simpl; try done. intros q [->%elem_of_singleton|Hq]%elem_of_union; [by apply elem_of_dom|by apply Hu].
  - set_solver.
  - exists l1, l2. split_and!; try done; [by eapply run_identifier, L_ident|set_solver].
Qed.

Lemma exprRel_qual (t : string) (U : gset gostr) p l1 l2 name :
  run ReStart l1 = ReFirst → run ReStart l2 = ReFirst → L !! p = Some l2 → p ∈ U →
  exprRel t U [Pkg p l1; Txt (lit "." ++ name)] [Pkg p l2; Txt (lit "." ++ name)].
Proof.
  intros H1 H2 Hl Hp. unfold exprRel. cbn [render mbind list_bind renderToken]. rewrite !app_nil_r.
  change (lit "." ++ name) with (46%Z :: name). split_and!.
  - repeat constructor; done.
  - unfold embeddableRe. by rewrite !foldl_app, H1, H2.
  - intros _ _. right. by rewrite !afterDot_app.
Qed.

Lemma agree_qual (t : string) (U : gset gostr) p name :
  agree U (exprRel t) (qual isLetter isDigit None p name) (qual isLetter isDigit two p name).
Proof.
  unfold qual. eapply agree_bind; [apply discovers_qualPkg|intros; apply discovers_ret|apply agree_qualPkg|].
  intros U' a b HU (l1 & l2 & -> & -> & H1 & H2 & Hl & Hp). apply agree_ret. intros U'' HU''.
  apply exprRel_qual; [done|done|done|by apply HU''].
Qed.

Lemma agree_namedRef (t : string) (U : gset gostr) enum marshaled :
  agree U (exprRel t) (named1 t enum marshaled) (namedRef isLetter isDigit isNumber reflect two t enum marshaled).
Proof.
  intros σ τ Hσ Hb Hτ HU. pose proof Hτ as [Hn Ho HL Hu He]. unfold namedRef in *.
  assert (Ht : is_Some (N !! t)).
  { destruct Hb as [Hb _]. destruct (g_named σ !! t) as [nt|] eqn:E; simpl in Hb.
    - exists nt. by eapply lookup_weaken.
    - eexists. eapply lookup_weaken; [|exact Hb]. apply lookup_insert_eq. }
  destruct Ht as [nt Ent]. rewrite Hn, Ent. split_and!; [done|done|]. simpl.
  assert (Hr1 : run ReStart (goTypeNameCandidate isLetter isDigit isNumber nameOf pkgPathOf t 0) = ReFirst).
  { apply run_identifier. apply exported_identifier; [exact Tables|apply candidate_upper|by apply candidate_ident]. }
  assert (Hr2 : run ReStart (fin t) = ReFirst) by (apply run_identifier, fin_ident; by eexists).
  assert (Hrel : ∀ n, run ReStart n = ReFirst →
            exprRel t (g_usedImports τ) [Ref t n] [Ref t (fin t)]).
  { intros n Hr. unfold exprRel. cbn [render mbind list_bind renderToken]. rewrite !app_nil_r. split_and!.
    - constructor; [|done]. split; [done|by eexists].
    - unfold embeddableRe. by rewrite Hr, Hr2.
    - intros _ _. left. by eexists. }
  destruct (g_named σ !! t); by apply Hrel.
Qed.

Lemma agree_shape (t : string) (U : gset gostr) s :
  agree U (exprRel t) (shapeTypeExpr isLetter isDigit None s) (shapeTypeExpr isLetter isDigit two s).
Proof.
  destruct s; simpl; [| |apply agree_qual]; apply agree_ret; intros; apply exprRel_same; repeat constructor; by eexists.
Qed.

(** Computations that do the same in both passes and concern neither types nor imports. *)
Definition silent {A : Type} (m : M A) : Prop :=
  (∀ σ τ, (m σ).1 = (m τ).1) ∧
  ∀ τ, g_named (m τ).2 = g_named τ ∧ g_order (m τ).2 = g_order τ ∧ g_importNames (m τ).2 = g_importNames τ ∧
       g_usedImports (m τ).2 = g_usedImports τ ∧ ∀ t, EDiscovered t ∈ g_errs (m τ).2 → EDiscovered t ∈ g_errs τ.

Lemma agree_silent {A : Type} (U : gset gostr) (m : M A) : silent m → agree U (λ _ a b, a = b) m m.
Proof.
  intros [Hv Hs] σ τ _ _ [] _. destruct (Hs τ) as (E1 & E2 & E3 & E4 & E5).
  split_and!; [split; rewrite ?E1, ?E2, ?E3, ?E4; try done; naive_solver|by rewrite E4|apply Hv].
Qed.

Lemma silent_marshaled t e : silent (marshaledEnumValues marshalMember t e).
Proof.
  unfold marshaledEnumValues. induction (en_values e) as [|v vs [IH1 IH2]]; simpl; [done|].
  destruct (marshalMember t v.2) as [[s|]|]; [|done|].
  - split; unfold mbind, M_bind.
    + intros σ τ. specialize (IH1 σ τ). destruct (marshaledValues _ _ _ _ σ), (marshaledValues _ _ _ _ τ).
      simpl in *. by subst.
    + intros τ. specialize (IH2 τ). by destruct (marshaledValues _ _ _ _ τ).
  - split; [done|]. intros τ. unfold mbind, M_bind. simpl. split_and!; try done.
    intros u. rewrite elem_of_app, list_elem_of_singleton. intros [?|?]; done.
Qed.

Lemma silent_checkImported t : silent (checkImportedType reflect ptrs walk t).
Proof.
  split; [intros σ τ; by repeat destruct ((checkImportedType _ _ _ _ _).1)|].
  intros τ. unfold checkImportedType. destruct (decide _); [by split_and!|].
  unfold mbind, M_bind. simpl. destruct (findSQLNull _ _ _ _ _ _) as [[[path|] seen]|]; simpl; split_and!; try done.
  intros u. rewrite elem_of_app, list_elem_of_singleton. by intros [?|?].
Qed.

Lemma silent_real p n : silent (setRealPkgName p n).
Proof. split; [done|]. intros τ. by split_and!. Qed.

Lemma silent_ret {A : Type} (a : A) : silent (mret a).
Proof. split; [done|]. intros τ. by split_and!. Qed.

Lemma silent_errorf e : (∀ t, e ≠ EDiscovered t) → silent (errorf e).
Proof.
  intros He. split; [done|]. intros τ. simpl. split_and!; try done.
  intros t. rewrite elem_of_app, list_elem_of_singleton. intros [Ht|Ht]; [done|by destruct (He t)].
Qed.

(** *** Struct fields *)

Abbreviation fieldExprOf rendering rec := (goFieldOf isLetter isDigit isNumber isPrint reflect PointerTo isStdlibPkg
  fieldTypeOverride importTypes rendering rec).
Abbreviation fieldsExprOf rendering rec := (structFields isLetter isDigit isNumber isPrint reflect PointerTo isStdlibPkg
  fieldTypeOverride importTypes rendering rec).
Abbreviation underlyingOf rendering rec := (underlyingExpr isLetter isDigit isNumber isPrint reflect PointerTo
  isStdlibPkg fieldTypeOverride importTypes rendering rec).
Abbreviation sqlOf rendering rec := (sqlNullExpr isLetter isDigit isNumber isPrint reflect PointerTo
  isStdlibPkg fieldTypeOverride importTypes rendering rec).

Section Recursion2.
  Context (rec1 rec2 : string → M GoTypes.expr) (Hdisc : ∀ u, discovers (rec1 u)).

(** The recursive calls for a type agree. *)
Definition callsAgree (us : list string) : Prop := ∀ u, u ∈ us → ∀ U, agree U (exprRel u) (rec1 u) (rec2 u).


Record fieldRel (U : gset gostr) (f1 f2 : goField) : Prop := FieldRel {
  fr_key : gf_jsonKey f1 = gf_jsonKey f2;
  fr_tag : gf_tag f1 = gf_tag f2;
  fr_embedded : gf_embedded f1 = gf_embedded f2;
  fr_ptr : gf_ptr f1 = gf_ptr f2;
  fr_decl : okExpr U (gf_decl f2);
  fr_name : gf_goName f1 = gf_goName f2 ∨ ∃ ft, gf_embedded f1 = Some ft ∧ is_Some (N !! ft);
}.

Definition optionRel (U : gset gostr) (r1 r2 : option goField) : Prop :=
  match r1, r2 with Some f1, Some f2 => fieldRel U f1 f2 | None, None => True | _, _ => False end.

Lemma fieldRel_growing : growing fieldRel.
Proof. intros U U' f1 f2 HU []. split; try done. by eapply okExpr_mono. Qed.

Lemma optionRel_growing : growing optionRel.
Proof. intros U U' [f1|] [f2|] HU; simpl; try done. by apply fieldRel_growing. Qed.

Lemma okExpr_txt (U : gset gostr) s e : okExpr U e → okExpr U ([Txt s] ++ e).
Proof. intros He. constructor; done. Qed.

Lemma agree_embeddedDecl (ft : string) (ptr : bool) (U : gset gostr) :
  isStruct reflect ft = true →
  (∀ U, agree U (exprRel ft) (rec1 ft) (rec2 ft)) →
  agree U optionRel (embeddedDecl isLetter isDigit isNumber reflect None rec1 ft ptr)
                    (embeddedDecl isLetter isDigit isNumber reflect two rec2 ft ptr).
Proof.
  intros Hs Hft. unfold embeddedDecl. eapply (agree_bind _ (exprRel ft)).
  - destruct (_ || _) eqn:E; [|apply Hdisc]. apply discovers_namedRef; [|done].
    apply orb_true_iff in E as [E|E]; apply bool_decide_eq_true in E; rewrite E; [by rewrite blob_path|done].
  - intros. apply discovers_ret.
  - destruct (_ || _); [apply agree_namedRef|apply Hft].
  - intros U1 e1 e2 HU1 (Hok & Hemb & Hname). apply agree_ret. intros U2 HU2. unfold optionRel.
    rewrite <-Hemb. destruct (embeddable e1); [|done]. specialize (Hname Hs eq_refl).
    assert (Hok' : okExpr U2 e2) by (by eapply okExpr_mono).
    split; simpl; try done; [by destruct ptr; [apply okExpr_txt|]|].
    destruct Hname as [HN|Hname]; [right; eauto|by left].
Qed.

Lemma agree_namedField (t : string) (f : structField) (jsonName : gostr) (U : gset gostr) :
  callsAgree (fieldCalls t f) →
  agree U fieldRel (namedField isLetter isDigit reflect PointerTo fieldTypeOverride rec1 t f jsonName)
                   (namedField isLetter isDigit reflect PointerTo fieldTypeOverride rec2 t f jsonName).
Proof.
  intros Hrec. unfold namedField.
  assert (Hft : ∃ u, agree U (exprRel u) (fieldTypeExpr reflect PointerTo fieldTypeOverride rec1 t f)
                                         (fieldTypeExpr reflect PointerTo fieldTypeOverride rec2 t f) ∧
            discovers (fieldTypeExpr reflect PointerTo fieldTypeOverride rec1 t f)).
  { unfold fieldTypeExpr, callsAgree, fieldCalls in *. destruct (fieldTypeOverride t (sf_Name f)) as [ov|].
    - destruct (kindOf ov); eexists; (split; [apply Hrec; set_solver|apply Hdisc]).
    - eexists. split; [apply Hrec; set_solver|apply Hdisc]. }
  destruct Hft as (u & Ha & Hd). eapply agree_bind; [done|intros; apply discovers_ret|exact Ha|].
  intros U1 e1 e2 HU1 (Hok & _). apply agree_ret. intros U2 HU2. split; simpl; try done; [|by left].
  apply okExpr_txt. by eapply okExpr_mono.
Qed.

Lemma withTag_rel (U : gset gostr) tag f1 f2 :
  fieldRel U f1 f2 → fieldRel U (withTag isPrint tag f1) (withTag isPrint tag f2).
Proof. by intros []. Qed.

Lemma agree_goFieldOf (t : string) (f : structField) (U : gset gostr) :
  callsAgree (fieldCalls t f) → agree U optionRel (fieldExprOf None rec1 t f) (fieldExprOf two rec2 t f).
Proof.
  intros Hrec. unfold goFieldOf. destruct (shouldSkipField f); [by apply agree_ret|].
  pose proof (Hrec (derefPtr reflect (sf_Type f)).1 ltac:(unfold fieldCalls; set_solver)) as Hft.
  destruct (derefPtr reflect (sf_Type f)) as [ft ptr]. cbv zeta.
  destruct (_ && _ && _ && _); [by apply agree_ret|]. apply (agree_bind _ optionRel).
  - destruct (_ && _) eqn:E; [|apply discovers_ret]. unfold embeddedDecl.
    apply discovers_bind; [|intros; apply discovers_ret]. destruct (_ || _) eqn:Eb; [|apply Hdisc].
    apply discovers_namedRef; [|done].
    apply orb_true_iff in Eb as [Eb|Eb]; apply bool_decide_eq_true in Eb; rewrite Eb; [by rewrite blob_path|done].
  - intros [a|]; [apply discovers_ret|]. destruct (_ && _); [apply discovers_ret|].
    apply discovers_bind; [|intros; apply discovers_ret]. unfold namedField, fieldTypeExpr.
    walk_with ltac:(apply Hdisc).
  - destruct (_ && _) eqn:E; [|by apply agree_ret]. apply agree_embeddedDecl; [|done].
    by apply andb_true_iff in E as [[_ E]%andb_true_iff _].
  - intros U1 [f1|] [f2|] HU1 Hr; try done.
    + apply agree_ret. intros U2 HU2. simpl. apply withTag_rel. by eapply fieldRel_growing.
    + destruct (_ && _); [by apply agree_ret|].
      eapply agree_bind; [|intros; apply discovers_ret|by apply agree_namedField|].
      * unfold namedField, fieldTypeExpr. walk_with ltac:(apply Hdisc).
      * intros U2 f1 f2 HU2 Hf. apply agree_ret. intros U3 HU3. simpl. apply withTag_rel. by eapply fieldRel_growing.
Qed.

Lemma agree_structFields (t : string) (U : gset gostr) :
  callsAgree (structCalls t) →
  agree U (λ U', Forall2 (fieldRel U')) (fieldsExprOf None rec1 t) (fieldsExprOf two rec2 t).
Proof.
  intros Hrec. unfold structFields. apply (agree_bind _ (λ U', Forall2 (optionRel U'))).
  - apply discovers_mapM. intros f _. by apply discovers_goFieldOf.
  - intros. apply discovers_ret.
  - apply (agree_mapM eq _ _ _ _ _ ∅); [apply optionRel_growing|by apply Forall_Forall2_diag, Forall_forall| | |set_solver].
    + intros f _. by apply discovers_goFieldOf.
    + intros f ? U' _ Hf _ <-. apply agree_goFieldOf. intros u Hu. apply Hrec. apply list_elem_of_bind. by exists f.
  - intros U1 rs1 rs2 HU1 Hrs. apply agree_ret. intros U2 HU2.
    induction Hrs as [|r1 r2 rs1 rs2 Hr Hrs IH]; [constructor|].
    destruct r1 as [f1|], r2 as [f2|]; simpl in *; try done. constructor; [by eapply fieldRel_growing|done].
Qed.

(** *** Structs *)

Definition okField (U : gset gostr) (f : goField) : Prop := okExpr U (gf_decl f).

Lemma okGoField_mono (U U' : gset gostr) (fs : list goField) : U ⊆ U' → Forall (okField U) fs → Forall (okField U') fs.
Proof. intros HU Hfs. eapply Forall_impl; [exact Hfs|]. intros f. by apply okExpr_mono. Qed.

Lemma fieldRel_ok (U : gset gostr) (fs1 fs2 : list goField) : Forall2 (fieldRel U) fs1 fs2 → Forall (okField U) fs2.
Proof. intros Hfs. eapply Forall2_Forall_r; [exact Hfs|]. apply Forall_forall. by intros f1 _ f2 []. Qed.

Lemma fieldLine_ok (U : gset gostr) (f : goField) : okField U f → okExpr U (fieldLine f).
Proof.
  intros Hf. unfold fieldLine. apply Forall_app. split; [done|]. apply Forall_app.
  split; [destruct (bool_decide _); repeat constructor|repeat constructor].
Qed.

Lemma prints_structBody (t : string) (seen : gset gostr) (fs : list goField) (U : gset gostr) :
  Forall (okField U) fs → prints U okExpr (structBody t seen fs).
Proof.
  revert seen U. induction fs as [|f fs IH]; intros seen U Hfs; simpl; [apply prints_ret; constructor|].
  apply Forall_cons in Hfs as [Hf Hfs]. destruct (bool_decide _).
  - eapply prints_bind; [by apply prints_errorf|]. intros U' _ HU' _. apply IH. by eapply okGoField_mono.
  - eapply prints_bind; [by apply IH|]. intros U' rest HU' Hr. apply prints_ret. intros U2 HU2.
    apply Forall_app. split; [|by eapply okExpr_mono]. apply fieldLine_ok. unfold okField.
    eapply okExpr_mono; [|exact Hf]. by etrans.
Qed.

Lemma agree_posts {A B : Type} (U : gset gostr) (R : gset gostr → A → B → Prop) (P : A → Prop) (m1 : M A) (m2 : M B) :
  agree U R m1 m2 → posts P m1 → agree U (λ U' a b, R U' a b ∧ P a) m1 m2.
Proof. intros Hm Hp σ τ Hσ Hb Hτ HU. destruct (Hm σ τ Hσ Hb Hτ HU) as (H1 & H2 & H3). by split_and!. Qed.

(** The second pass can replace an embedded struct of [t], declared by the client, by its fields. *)
Definition inlines (t : string) : Prop :=
  ∀ ft f, f ∈ fieldsOf (kindOf t) → sf_Anonymous f = true → ft = (derefPtr reflect (sf_Type f)).1 →
    is_Some (N !! ft) → isStruct reflect ft = true →
    ∀ U, prints U (λ U', Forall (okField U')) (fieldsExprOf two rec2 ft).

Abbreviation clash rendering rec := (inlineClash isLetter isDigit isNumber isPrint reflect PointerTo isStdlibPkg
  fieldTypeOverride importTypes rendering rec).

Lemma discovers_inlineClash (t : string) direct keys f : discovers (clash None rec1 t direct keys f).
Proof. unfold inlineClash. walk_with ltac:(by apply discovers_structFields). Qed.

Lemma agree_inlineClash (t : string) (direct keys : list gostr) (f1 f2 : goField) (U : gset gostr) :
  callsAgree (components t) → inlines t → fieldRel U f1 f2 → embeddedIn t f1 →
  agree U (λ U' _ b, Forall (okField U') b) (clash None rec1 t direct keys f1) (clash two rec2 t direct keys f2).
Proof.
  intros Hrec Hinl [Hkey Htag Hemb Hptr Hdecl Hname] Hin. unfold inlineClash. rewrite <-Hemb.
  assert (Hret : ∀ {A} (m1 : M A), agree U (λ U' _ b, Forall (okField U') b) m1 (mret [f2])).
  { intros A m1. apply agree_prints, prints_ret. intros U' HU'. constructor; [|done]. by eapply okExpr_mono. }
  destruct (gf_embedded f1) as [ft|] eqn:E1; [|apply Hret].
  destruct (Hin ft E1) as (Hs & _ & f & Hf & Ha & Hft).
  destruct (bool_decide (gf_goName f2 ∉ direct)) eqn:E2; [apply Hret|]. rewrite <-Hptr.
  destruct (gf_ptr f1) eqn:Ep.
  - apply agree_prints. eapply prints_bind; [by apply prints_errorf|]. intros U' _ _ _. by apply prints_ret.
  - assert (Hkept : ∀ (U' : gset gostr) fs, Forall (okField U') fs →
      Forall (okField U') (filter (λ i, gf_embedded i = None → gf_jsonKey i ∉ keys) fs)).
    { intros U' fs Hfs. apply Forall_forall. intros i [_ Hi]%list_elem_of_filter.
      by eapply Forall_forall in Hfs. }
    destruct (decide (is_Some (N !! ft))) as [HN|HN].
    + apply agree_prints. eapply prints_bind; [by apply (Hinl ft f)|]. intros U' inner HU' Hi. apply prints_ret.
      intros U2 HU2. apply Hkept. by eapply okGoField_mono.
    + assert (Hn : gf_goName f1 = gf_goName f2).
      { destruct Hname as [|(ft' & [= <-] & HN')]; [done|by destruct HN]. }
      rewrite Hn, E2. eapply agree_bind; [by apply discovers_structFields|intros; apply discovers_ret| |].
      * apply agree_structFields. intros u Hu. apply Hrec. unfold components.
        destruct (kindOf t) eqn:Ek; try (simpl in Hf; by apply not_elem_of_nil in Hf).
        apply elem_of_app; right. apply list_elem_of_bind. exists f. by rewrite Ha, <-Hft.
      * intros U' i1 i2 HU' Hi. apply agree_ret. intros U2 HU2. apply Hkept.
        eapply okGoField_mono; [exact HU2|]. eapply fieldRel_ok. exact Hi.
Qed.

Lemma Forall2_with_l {A B : Type} (P : A → B → Prop) (Q : A → Prop) l1 l2 :
  Forall2 P l1 l2 → Forall Q l1 → Forall2 (λ a b, P a b ∧ Q a) l1 l2.
Proof. induction 1; intros HQ; constructor; inversion HQ; subst; auto. Qed.

Lemma direct_same {A : Type} (U : gset gostr) (g : goField → A) (fs1 fs2 : list goField) :
  (∀ f1 f2, fieldRel U f1 f2 → gf_embedded f1 = None → g f1 = g f2) →
  Forall2 (fieldRel U) fs1 fs2 → g <$> filter isDirect fs1 = g <$> filter isDirect fs2.
Proof.
  intros Hg. induction 1 as [|f1 f2 fs1 fs2 Hf Hfs IH]; [done|]. rewrite !filter_cons.
  pose proof (fr_embedded _ _ _ Hf) as He.
  destruct (decide (isDirect f1)) as [D1|D1], (decide (isDirect f2)) as [D2|D2]; unfold isDirect in *;
    try congruence. simpl. f_equal; [by apply Hg|done].
Qed.

Lemma agree_structExpr (t : string) (U : gset gostr) :
  isStruct reflect t = true → callsAgree (components t) → inlines t →
  agree U (exprRel t)
    (structExpr isLetter isDigit isNumber isPrint reflect PointerTo isStdlibPkg fieldTypeOverride importTypes None rec1 t)
    (structExpr isLetter isDigit isNumber isPrint reflect PointerTo isStdlibPkg fieldTypeOverride importTypes two rec2 t).
Proof.
  intros Hs Hrec Hinl. unfold structExpr.
  eapply (agree_bind _ (λ U' fs1 fs2, Forall2 (fieldRel U') fs1 fs2 ∧ Forall (embeddedIn t) fs1)).
  - by apply discovers_structFields.
  - intros fs. apply discovers_bind; [|intros; apply discovers_bind; [apply discovers_structBody|intros; apply discovers_ret]].
    apply discovers_mapM. intros f _. apply discovers_inlineClash.
  - apply agree_posts; [|apply structFields_posts]. apply agree_structFields. intros u Hu. apply Hrec.
    by apply structCalls_components.
  - intros U1 fs1 fs2 HU1 [Hfs Hin]. cbv zeta.
    rewrite (direct_same U1 gf_goName fs1 fs2), (direct_same U1 gf_jsonKey fs1 fs2); [|by intros ?? []|done| |done].
    2: { intros f1 f2 [_ _ _ _ _ [Hn|(ft & E & _)]] E'; [done|congruence]. }
    set (direct := gf_goName <$> _). set (keys := gf_jsonKey <$> _).
    eapply (agree_bind _ (λ U' _ out, Forall (Forall (okField U')) out)).
    + apply discovers_mapM. intros f _. apply discovers_inlineClash.
    + intros. apply discovers_bind; [apply discovers_structBody|intros; apply discovers_ret].
    + eapply agree_weaken; [apply (agree_mapM (λ f1 f2, fieldRel U1 f1 f2 ∧ embeddedIn t f1)
        (λ U' _ b, Forall (okField U') b) _ _ _ _ U1); [| | | |reflexivity]|].
      * intros U' U2 _ b HU2. by apply okGoField_mono.
      * by apply Forall2_with_l.
      * intros f _. apply discovers_inlineClash.
      * intros f1 f2 U' HU' _ _ [Hf Hi]. apply agree_inlineClash; [done|done| |done].
        by eapply fieldRel_growing.
      * intros U' out1 out2 _ Hout. eapply Forall2_Forall_r; [exact Hout|]. by apply Forall_forall.
    + intros U2 out1 out2 HU2 Hout.
      eapply (agree_bind _ (λ U' _ e, okExpr U' e)); [apply discovers_structBody|intros; apply discovers_ret| |].
      * apply agree_prints, prints_structBody. by apply Forall_concat.
      * intros U3 e1 e2 HU3 He. apply agree_ret. intros U4 HU4. apply exprRel_plain.
        -- apply okExpr_txt, Forall_app. split; [by eapply okExpr_mono|repeat constructor].
        -- apply (not_embeddable (lit "struct {" ++ [10%Z])); by vm_compute.
        -- apply (not_embeddable (lit "struct {" ++ [10%Z])); by vm_compute.
Qed.

(** *** Expressions of types *)

Lemma agree_prefixed (t u : string) (s : gostr) (U : gset gostr) (m1 m2 : M GoTypes.expr) :
  discovers m1 → agree U (exprRel u) m1 m2 → (∀ x, embeddableRe isLetter isNumber (s ++ x) = false) →
  agree U (exprRel t) (e ← m1; mret ([Txt s] ++ e)) (e ← m2; mret ([Txt s] ++ e)).
Proof.
  intros Hd Hm Hs. eapply agree_bind; [done|intros; apply discovers_ret|exact Hm|].
  intros U1 e1 e2 HU1 (Hok & _). apply agree_ret. intros U2 HU2.
  apply exprRel_plain; [|apply Hs|apply Hs]. apply okExpr_txt. by eapply okExpr_mono.
Qed.


Lemma agree_mapKey (k : string) (U : gset gostr) :
  (∀ U, agree U (exprRel k) (rec1 k) (rec2 k)) →
  agree U (exprRel k) (mapKeyExpr reflect isStdlibPkg importTypes rec1 k) (mapKeyExpr reflect isStdlibPkg importTypes rec2 k).
Proof.
  intros Hk. unfold mapKeyExpr. destruct (_ && _); [|apply Hk].
  apply agree_ret. intros. apply exprRel_same. repeat constructor. by eexists.
Qed.

Lemma agree_text (t : string) (U : gset gostr) (s : gostr) : agree U (exprRel t) (mret [Txt s]) (mret [Txt s]).
Proof. apply agree_ret. intros. apply exprRel_same. repeat constructor. by eexists. Qed.

Lemma agree_underlying (t : string) (U : gset gostr) :
  callsAgree (components t) → inlines t → agree U (exprRel t) (underlyingOf None rec1 t) (underlyingOf two rec2 t).
Proof.
  intros Hrec Hinl. destruct (isStruct reflect t) eqn:Es.
  { pose proof (agree_structExpr t U Es Hrec Hinl). unfold isStruct, underlyingExpr in *. by destruct (kindOf t). }
  unfold isStruct, callsAgree, components, underlyingExpr in *.
  destruct (kindOf t) as [name|e|e|n e|k e|fs| |]; try done; try apply agree_text.
  - eapply (agree_prefixed _ e); [apply Hdisc|apply Hrec; set_solver|].
    intros x. by apply (not_embeddable (lit "*")).
  - eapply (agree_prefixed _ e); [apply Hdisc|apply Hrec; set_solver|].
    intros x. by apply (not_embeddable (lit "[]")).
  - eapply (agree_prefixed _ e); [apply Hdisc|apply Hrec; set_solver|].
    intros x. rewrite <-(assoc_L (++)). by apply (not_embeddable (lit "[")).
  - eapply (agree_bind _ (exprRel k)).
    + unfold mapKeyExpr. destruct (_ && _); [apply discovers_ret|apply Hdisc].
    + intros. apply discovers_bind; [apply Hdisc|intros; apply discovers_ret].
    + apply agree_mapKey, Hrec. set_solver.
    + intros U1 k1 k2 HU1 (Hk & _). eapply (agree_bind _ (exprRel e)).
      * apply Hdisc.
      * intros. apply discovers_ret.
      * apply Hrec. set_solver.
      * intros U2 e1 e2 HU2 (He & _). apply agree_ret. intros U3 HU3. apply exprRel_plain.
        -- apply okExpr_txt, Forall_app. split; [eapply okExpr_mono; [|exact Hk]; by etrans|].
           apply okExpr_txt. by eapply okExpr_mono.
        -- by apply (not_embeddable (lit "map[")).
        -- by apply (not_embeddable (lit "map[")).
Qed.

Definition optionExprRel (t : string) (U : gset gostr) (r1 r2 : option GoTypes.expr) : Prop :=
  match r1, r2 with Some e1, Some e2 => exprRel t U e1 e2 | None, None => True | _, _ => False end.

(** A computation whose result is wrapped. *)
Lemma agree_Some (t : string) (U : gset gostr) (m1 m2 : M GoTypes.expr) :
  discovers m1 → agree U (exprRel t) m1 m2 →
  agree U (optionExprRel t) (e ← m1; mret (Some e)) (e ← m2; mret (Some e)).
Proof.
  intros Hd Hm. eapply agree_bind; [done|intros; apply discovers_ret|exact Hm|].
  intros U1 e1 e2 HU1 He. apply agree_ret. intros U2 HU2. simpl. by eapply exprRel_growing.
Qed.

Lemma agree_SomeStar (t u : string) (U : gset gostr) (m1 m2 : M GoTypes.expr) :
  discovers m1 → agree U (exprRel u) m1 m2 →
  agree U (optionExprRel t) (e ← m1; mret (Some (txt "*" ++ e))) (e ← m2; mret (Some (txt "*" ++ e))).
Proof.
  intros Hd Hm. eapply agree_bind; [done|intros; apply discovers_ret|exact Hm|].
  intros U1 e1 e2 HU1 (Hok & _). apply agree_ret. intros U2 HU2. simpl.
  apply exprRel_plain; [apply okExpr_txt; by eapply okExpr_mono| |]; by apply (not_embeddable (lit "*")).
Qed.

Lemma agree_sqlNull (t : string) (U : gset gostr) :
  (isSql reflect t = true → ∀ v, fieldV reflect t = Some v → flattenedType reflect v = true →
     ∀ U, agree U (exprRel v) (rec1 v) (rec2 v)) →
  (isSql reflect t = true → isSQLNullFlattened reflect t = false →
     ∀ U, agree U (exprRel t) (underlyingOf None rec1 t) (underlyingOf two rec2 t)) →
  agree U (optionExprRel t) (sqlOf None rec1 t) (sqlOf two rec2 t).
Proof.
  intros Hv Hu. unfold sqlNullExpr. unfold isSQLNullFlattened in Hu.
  destruct (isSql reflect t); cbn [negb] in *; [|by apply agree_ret].
  assert (Htxt : ∀ s, agree U (optionExprRel t) (mret (Some (txt s))) (mret (Some (txt s)))).
  { intros s. apply agree_ret. intros. apply exprRel_same. repeat constructor. by eexists. }
  destruct (isOneOf _ _) eqn:Eo.
  - clear Hu. unfold isOneOf in Eo. apply bool_decide_eq_true in Eo. do 7 (case_bool_decide; [apply Htxt|]).
    case_bool_decide; [|exfalso; set_solver].
    eapply agree_SomeStar; [apply discovers_qual|apply (agree_qual "")].
  - clear Eo. do 7 (case_bool_decide; [apply Htxt|]).
    case_bool_decide; [eapply agree_SomeStar; [apply discovers_qual|apply (agree_qual "")]|].
    destruct (hasPrefix _ _); [|by apply agree_ret].
    destruct (fieldV reflect t) as [v|]; [|by apply agree_ret].
    destruct (flattenedType reflect v) eqn:Ef.
    + eapply agree_SomeStar; [apply Hdisc|by apply Hv].
    + apply agree_Some; [by apply discovers_underlying|by apply Hu].
Qed.

Lemma agree_imported (t : string) (U : gset gostr) :
  agree U (exprRel t) (importedExpr isLetter isDigit reflect None ptrs walk t)
                      (importedExpr isLetter isDigit reflect two ptrs walk t).
Proof.
  unfold importedExpr. cbv zeta.
  assert (Herr : ∀ e, (∀ t, e ≠ EDiscovered t) →
    agree U (exprRel t) (errorf e ;; mret (txt "any")) (errorf e ;; mret (txt "any"))).
  { intros e He. eapply agree_bind; [apply discovers_errorf|intros; apply discovers_ret|by apply agree_silent, silent_errorf|].
    intros. apply agree_text. }
  destruct (generic (nameOf t)); [by apply Herr|]. destruct (negb _); [by apply Herr|].
  set (real := match cut _ _ with Some _ => _ | None => _ end).
  assert (Hreal : silent real ∧ discovers real).
  { unfold real. destruct (cut _ _) as [[name ?]|]; [|split; [apply silent_ret|apply discovers_ret]].
    destruct (IsIdentifier _ _ name) eqn:E; [split; [apply silent_real|by apply discovers_setReal]|].
    split; [apply silent_ret|apply discovers_ret]. }
  destruct Hreal as [Hs Hd].
  eapply agree_bind; [apply discovers_checkImported| |apply agree_silent, silent_checkImported|].
  { intros _. apply discovers_bind; [done|intros; apply discovers_qual]. }
  intros U1 _ _ _ _. eapply agree_bind; [done|intros; apply discovers_qual|by apply agree_silent|].
  intros. apply agree_qual.
Qed.

Lemma agree_declared (t : string) (U : gset gostr) :
  pkgPathOf t ≠ [] →
  agree U (exprRel t) (declaredExpr isLetter isDigit isNumber reflect enumTypes marshalMember None t)
                      (declaredExpr isLetter isDigit isNumber reflect enumTypes marshalMember two t).
Proof.
  intros Hp. unfold declaredExpr. cbv zeta. destruct (marshalShape reflect t) as [shape|].
  - destruct (enumTypes !! t) as [e|] eqn:E; [|apply agree_shape].
    destruct shape; try apply agree_shape.
    eapply agree_bind; [apply discovers_marshaled| |apply agree_silent, silent_marshaled|].
    { intros [values|]; [|apply discovers_shape]. apply discovers_namedRef; [done|].
      intros e' [= <-]. by eapply enum_kind. }
    intros U1 [values|] ? _ <-; [apply agree_namedRef|apply (agree_shape _ _ goShapeString)].
  - destruct (enumTypes !! t) as [e|]; [apply agree_namedRef|].
    destruct (kindOf t); try apply agree_namedRef. apply agree_text.
Qed.

Lemma agree_body (t : string) (U : gset gostr) :
  (expanded t = true → callsAgree (components t) ∧ inlines t) →
  agree U (exprRel t)
    (typeExprBody isLetter isDigit isNumber isPrint reflect PointerTo isStdlibPkg enumTypes fieldTypeOverride
       importTypes marshalMember None rec1 ptrs walk t)
    (typeExprBody isLetter isDigit isNumber isPrint reflect PointerTo isStdlibPkg enumTypes fieldTypeOverride
       importTypes marshalMember two rec2 ptrs walk t).
Proof.
  intros Hrec. unfold typeExprBody.
  case_bool_decide; [apply agree_text|]. case_bool_decide; [apply agree_qual|].
  assert (Hund : expanded t = true → ∀ U, agree U (exprRel t) (underlyingOf None rec1 t) (underlyingOf two rec2 t)).
  { intros He U'. destruct (Hrec He). by apply agree_underlying. }
  assert (Hother : (∀ e, kindOf t ≠ Pointer e) →
    agree U (optionExprRel t) (sqlOf None rec1 t) (sqlOf two rec2 t)).
  { intros Hk. assert (Hsql : isSql reflect t = true → expanded t = true).
    { intros Hs. unfold expanded. rewrite Hs. destruct (kindOf t); try done. }
    apply agree_sqlNull; [|intros Hs _; by apply Hund, Hsql].
    intros Hs v Hv _. apply (proj1 (Hrec (Hsql Hs))). by apply structCalls_components, fieldV_call. }
  assert (Hrest : (∀ e, kindOf t ≠ Pointer e) → ∀ U, agree U (exprRel t) (restOf None rec1 t) (restOf two rec2 t)).
  { intros Hk U'. unfold restOf. destruct (_ || _) eqn:E.
    - apply Hund. unfold expanded. destruct (kindOf t); try done; rewrite <-orb_assoc, <-(orb_assoc (isSql _ _));
        by rewrite (orb_assoc (bool_decide (nameOf t = []))), E, ?orb_true_r.
    - destruct (isStdlibPkg (pkgPathOf t)) eqn:Es.
      + destruct (_ && _) eqn:Eq; [apply agree_qual|]. destruct (marshalShape reflect t); [apply agree_shape|].
        apply Hund. unfold expanded. rewrite Es.
        destruct (kindOf t); try done; destruct (generic (nameOf t)); simpl in *; rewrite ?Eq; by rewrite ?orb_true_r.
      + destruct (bool_decide (_ ∈ importTypes)); [apply agree_imported|]. apply agree_declared.
        by apply orb_false_iff in E as [_ E%bool_decide_eq_false]. }
  pose proof (discovers_rest rec1 Hdisc t) as Hd. unfold restOf in Hd, Hrest.
  destruct (kindOf t) as [| e | | | | | |] eqn:Ek.
  2: { assert (He : expanded t = true) by (unfold expanded; by rewrite Ek).
    destruct (Hrec He) as [Hcalls _]. unfold callsAgree, components in Hcalls. rewrite Ek in Hcalls.
    destruct (isSQLNullFlattened reflect e) eqn:Ef.
    - eapply (agree_bind _ (optionExprRel e)); [by apply discovers_sqlNull|intros; apply discovers_ret| |].
      + apply agree_sqlNull; [|by rewrite Ef]. intros _ v Hv _. apply Hcalls. rewrite Hv. set_solver.
      + intros U1 [e1|] [e2|] HU1 Hr; try done; apply agree_ret; intros U2 HU2; simpl.
        * destruct (exprRel_growing e U1 U2 e1 e2 HU2 Hr) as (K1 & K2 & _). split_and!; [done|done|].
          unfold isStruct. by rewrite Ek.
        * apply exprRel_same. constructor.
    - eapply (agree_prefixed _ e); [apply Hdisc|apply Hcalls; set_solver|].
      intros x. by apply (not_embeddable (lit "*")). }
  all: specialize (Hother ltac:(done)); specialize (Hrest ltac:(done)).
  all: eapply (agree_bind _ (optionExprRel t)); [by apply discovers_sqlNull| |exact Hother|].
  all: try (intros [a|]; [apply discovers_ret|]; exact Hd || apply discovers_ret).
  all: intros U1 [e1|] [e2|] HU1 Hr; [|done|done|apply agree_text || apply Hrest].
  all: apply agree_ret; intros U2 HU2; by eapply exprRel_growing.
Qed.

End Recursion2.

(** *** All types *)

Abbreviation expr2 k := (typeExpr isLetter isDigit isNumber isPrint reflect PointerTo isStdlibPkg enumTypes
  fieldTypeOverride importTypes marshalMember two ptrs walk k).

Context (level : string → nat) (Hlevel : ∀ t u, expanded t = true → u ∈ components t → level u < level t).
Context (depth : nat) (Hdepth : ∀ t, level t < depth).

(** The first pass has walked through the fields of every struct it has registered. *)
Definition walked : Prop :=
  ∀ ft, is_Some (N !! ft) → isStruct reflect ft = true →
    ∃ σ, discovering σ ∧
      below (fieldsExprOf None (expr1 depth) ft σ).2.

Lemma walked_prints (rec2 : string → M GoTypes.expr) (ft : string) :
  walked → is_Some (N !! ft) → isStruct reflect ft = true →
  (∀ u, u ∈ structCalls ft → ∀ U, agree U (exprRel u) (expr1 depth u) (rec2 u)) →
  ∀ U, prints U (λ U', Forall (okField U'))
    (fieldsExprOf two rec2 ft).
Proof.
  intros Hw HN Hs Hcalls U τ Hτ HU. destruct (Hw ft HN Hs) as (σ & Hσ & Hb).
  destruct (agree_structFields (expr1 depth) rec2 (discovers_typeExpr depth) ft U Hcalls σ τ Hσ Hb Hτ HU)
    as (H1 & H2 & H3).
  split_and!; [done|done|by eapply fieldRel_ok].
Qed.

Lemma inlined_component (t : string) f u :
  f ∈ fieldsOf (kindOf t) → sf_Anonymous f = true → u ∈ structCalls (derefPtr reflect (sf_Type f)).1 → u ∈ components t.
Proof.
  intros Hf Ha Hu. unfold components. destruct (kindOf t); simpl in Hf; try by apply not_elem_of_nil in Hf.
  apply elem_of_app; right. apply list_elem_of_bind. exists f. by rewrite Ha.
Qed.

Lemma typeExpr_agree (n : nat) (t : string) (k1 k2 : nat) :
  walked → level t < n → level t < k1 → level t < k2 → ∀ U, agree U (exprRel t) (expr1 k1 t) (expr2 k2 t).
Proof.
  intros Hw. revert t k1 k2. induction n as [|n IH]; intros t [|k1] [|k2] Hn H1 H2 U; try lia.
  apply agree_body; [apply discovers_typeExpr|]. intros He. split.
  - intros u Hu U'. pose proof (Hlevel _ _ He Hu). apply IH; lia.
  - intros ft f Hf Ha -> HN Hs. apply walked_prints; [done|done|done|]. intros u Hu U'.
    pose proof (Hlevel _ _ He (inlined_component _ _ _ Hf Ha Hu)). pose proof (Hdepth u). apply IH; lia.
Qed.

Lemma types_agree (t : string) : walked → ∀ U, agree U (exprRel t) (expr1 depth t) (expr2 depth t).
Proof. intros Hw U. by apply (typeExpr_agree depth). Qed.

Lemma underlying_agree (t : string) :
  walked → ∀ U, agree U (exprRel t) (underlyingOf None (expr1 depth) t) (underlyingOf two (expr2 depth) t).
Proof.
  intros Hw U. apply agree_underlying; [apply discovers_typeExpr| |].
  - intros u _. by apply types_agree.
  - intros ft f _ _ _ HN Hs. apply walked_prints; [done|done|done|]. intros u _. by apply types_agree.
Qed.

End Agreement.

End Proofs.
End GoCoherence.
