(* ===== verification/GoPasses.v ===== *)
(** * GoPasses: the generated Go client is closed (generate_go.go)

    GoCoherence.v relates the two passes on one type; this file does so for the whole body of
    the client, from the push events to the queue of types, and concludes: the second pass
    never meets a type that the first has not registered, and every name in the output is
    declared or imported. *)

From S2P Require Import Prelude Runes Transform Registry Naming Schema GoNames Zod GoTypes GoGen GoCoherence.
From stdpp Require Import prelude gmap strings list pretty fin_maps fin_sets sorting.

Module GoPasses.
Import Runes Registry Naming GoNames GoTypes GoGen GoCoherence.
Import Schema(gostrLe, sortNames).
Import Transform(goType(..)).
Import Zod(Quote).

Section Client.
  Context `{RuneCase} (isLetter isDigit isNumber isPrint : rune → bool).
  Context (reflect : string → typeInfo) (PointerTo : string → string) (isStdlibPkg : gostr → bool).
  Context (fieldTypeOverride : string → gostr → option string).
  Context (marshalMember : string → gostr → option (option gostr)).
  Context (typeOf : goType → string) (srcNames : string → string → list gostr).
  Context {Mw : Type} (reg : @Registry Mw) (importTypes : gset gostr).
  Context (ptrs walk depth : nat) (U : gset string).

(** What is relied on. [level] bounds how deep a type expression nests: only types that are
    not declared by name are printed in place, and Go's types have to be named to be
    recursive. The named types of the program are finite, and a registered enum is no struct. *)
Record environment (level : string → nat) : Prop := Environment {
  ev_tables : UnicodeTables isLetter isDigit;
  ev_number r : (0 ≤ r < 128)%Z → isNumber r = asciiDigit r;
  ev_digit r : isDigit r = true → isNumber r = true;
  ev_blob : pkgPathOf reflect blobType = aprotPkgPath;
  ev_enum t e : enumTypes reg !! t = Some e → isStruct reflect t = false;
  ev_level t u : expanded reflect isStdlibPkg t = true →
    u ∈ components reflect PointerTo fieldTypeOverride t → level u < level t;
  ev_depth t : level t < depth;
  ev_named t : pkgPathOf reflect t ≠ [] → t ∈ U;
}.

Context (level : string → nat) (Env : environment level).
#[local] Instance tables : UnicodeTables isLetter isDigit := ev_tables _ Env.

Abbreviation disc m := (discovers isLetter isDigit reflect m).
Abbreviation typeExprOf r := (typeExprP isLetter isDigit isNumber isPrint reflect PointerTo isStdlibPkg
  fieldTypeOverride marshalMember reg importTypes ptrs walk depth r).
Abbreviation methodOf r top := (renderMethod isLetter isDigit isNumber isPrint reflect PointerTo isStdlibPkg
  fieldTypeOverride marshalMember typeOf srcNames reg importTypes ptrs walk depth r top).
Abbreviation groupOf r top := (renderGroup isLetter isDigit isNumber isPrint reflect PointerTo isStdlibPkg
  fieldTypeOverride marshalMember typeOf srcNames reg importTypes ptrs walk depth r top).
Abbreviation rootsOf r top := (renderRoots isLetter isDigit isNumber isPrint reflect PointerTo isStdlibPkg
  fieldTypeOverride marshalMember typeOf srcNames reg importTypes ptrs walk depth r top).
Abbreviation namedOf r := (renderNamed isLetter isDigit isNumber isPrint reflect PointerTo isStdlibPkg
  fieldTypeOverride marshalMember reg importTypes ptrs walk depth r).
Abbreviation underlyingOf r := (underlyingP isLetter isDigit isNumber isPrint reflect PointerTo isStdlibPkg
  fieldTypeOverride marshalMember reg importTypes ptrs walk depth r).
Abbreviation drainOf := (drain isLetter isDigit isNumber isPrint reflect PointerTo isStdlibPkg
  fieldTypeOverride marshalMember reg importTypes ptrs walk depth None).

(** ** The first pass *)

Lemma disc_typeExpr t : disc (typeExprOf None t).
Proof. apply discovers_typeExpr; [apply tables|apply Env|apply Env]. Qed.

Lemma disc_qualPkg p : disc (qualPkgP isLetter isDigit None p).
Proof. apply (discovers_qualPkg _ _ _ isStdlibPkg (enumTypes reg)); [apply Env|apply Env]. Qed.

Ltac step tac :=
  repeat (cbv zeta;
    match goal with
    | |- discovers _ _ _ (mret _) => apply discovers_ret
    | |- discovers _ _ _ (match ?m with _ => _ end) => let E := fresh "E" in destruct m eqn:E
    | |- discovers _ _ _ (_ ≫= _) => apply discovers_bind; [|intros ?]
    | |- discovers _ _ _ (mapM _ _) => apply discovers_mapM; intros ? ?
    | |- discovers _ _ _ (qualPkgP _ _ _ _) => apply disc_qualPkg
    | |- discovers _ _ _ (typeExprOf None _) => apply disc_typeExpr
    | _ => tac
    end).

Lemma disc_addErrors errs : disc (addErrors errs).
Proof. by apply discovers_quiet. Qed.

Lemma disc_buildParams top names i ps used :
  disc (buildParamsFrom isLetter isDigit isNumber isPrint reflect PointerTo isStdlibPkg fieldTypeOverride marshalMember
    typeOf reg importTypes ptrs walk depth None top names i ps used).
Proof.
  revert i used. induction ps as [|p ps IH]; intros i used; simpl; [apply discovers_ret|].
  intros σ. generalize (paramName (g_importNames σ) top used (sourceName isLetter isDigit names i)). intros name.
  revert σ. apply (discovers_bind isLetter isDigit reflect); [apply disc_typeExpr|intros e]. step ltac:(apply IH).
Qed.

Lemma disc_method top grp info : disc (methodOf None top grp info).
Proof. unfold renderMethod, streamKey. step ltac:(apply disc_buildParams). Qed.

Lemma disc_group top grp : disc (groupOf None top grp).
Proof. unfold renderGroup. step ltac:(apply disc_addErrors || apply disc_method). Qed.

Lemma disc_roots top : disc (rootsOf None top).
Proof.
  unfold renderRoots, renderErrorCodes, renderEvent. step ltac:(apply disc_addErrors || apply disc_group).
Qed.

Lemma disc_named t : disc (namedOf None t).
Proof.
  intros σ Hσ. unfold renderNamed. destruct (g_named σ !! t) as [nt|]; [|by split].
  destruct (nt_enum nt); [by split|].
  revert σ Hσ. apply (discovers_bind isLetter isDigit reflect); [|intros; apply discovers_ret].
  apply discovers_underlying; [apply Env|]. intros u. apply disc_typeExpr.
Qed.

Lemma disc_drain fuel i : disc (drainOf fuel i).
Proof.
  revert i. induction fuel as [|fuel IH]; intros i σ Hσ; simpl; destruct (g_order σ !! i) as [t|]; try by split.
  revert σ Hσ. apply (discovers_bind isLetter isDigit reflect); [apply disc_named|intros; apply IH].
Qed.

(** *** The queue *)

Abbreviation discov σ := (discovering isLetter isDigit reflect σ).

Lemma order_small σ : discov σ → length (g_order σ) ≤ size U.
Proof.
  intros Hσ. rewrite <-(size_list_to_set (C := gset string)) by apply Hσ. apply subseteq_size.
  intros t Ht%elem_of_list_to_set. apply (ds_order _ _ _ _ Hσ) in Ht as [nt Ht].
  eapply ev_named; [exact Env|]. by eapply ds_path.
Qed.

(** What has been printed by the time the queue is empty. *)
Lemma drain_prints fuel i σ t j :
  discov σ → size U < fuel + i → i ≤ j → g_order (drainOf fuel i σ).2 !! j = Some t →
  ∃ σ0 nt, discov σ0 ∧ g_named σ0 !! t = Some nt ∧ later (namedOf None t σ0).2 (drainOf fuel i σ).2.
Proof.
  revert i σ. induction fuel as [|fuel IH]; intros i σ Hσ Hf Hij; simpl;
    destruct (g_order σ !! i) as [u|] eqn:Eu; simpl.
  - apply lookup_lt_Some in Eu. pose proof (order_small σ Hσ). lia.
  - intros Et. apply lookup_lt_Some in Et. apply lookup_ge_None in Eu. lia.
  - unfold mbind, M_bind. destruct (disc_named u σ Hσ) as [Hσ1 Hl1].
    destruct (namedOf None u σ) as [ds σ1] eqn:E1. simpl in *. intros Et.
    destruct (decide (i = j)) as [<-|Hne]; [|apply (IH (S i)); [done|lia|lia|done]].
    destruct (disc_drain fuel (S i) σ1 Hσ1) as [_ Hl2].
    assert (Htu : t = u).
    { pose proof (prefix_lookup_Some _ _ _ _ Eu (lt_order _ _ Hl1)) as E2.
      pose proof (prefix_lookup_Some _ _ _ _ E2 (lt_order _ _ Hl2)) as E3. congruence. }
    subst u. assert (is_Some (g_named σ !! t)) as [nt Ent].
    { eapply ds_order; [exact Hσ|]. by eapply list_elem_of_lookup_2. }
    exists σ, nt. rewrite E1. done.
  - intros Et. apply lookup_lt_Some in Et. apply lookup_ge_None in Eu. lia.
Qed.

(** *** The end of the first pass *)

Abbreviation pass1Of := (pass1 isLetter isDigit isNumber isPrint reflect PointerTo isStdlibPkg fieldTypeOverride
  marshalMember typeOf srcNames reg importTypes ptrs walk depth U).

Definition rootState : gen := (rootsOf None ∅ emptyGen).2.

Lemma discov_empty : discov emptyGen.
Proof.
  split; simpl.
  - constructor.
  - intros t. rewrite lookup_empty. split; [intros Ht; by apply not_elem_of_nil in Ht|by intros []].
  - intros t nt. by rewrite lookup_empty.
  - intros t nt e. by rewrite lookup_empty.
  - intros p name. by rewrite lookup_empty.
  - intros p local. by rewrite lookup_empty.
Qed.

Lemma pass1_drained : pass1Of = (drainOf (S (size U)) 0 rootState).2.
Proof.
  unfold pass1, renderBody, rootState. rewrite bind_at. unfold renderTypes. rewrite !bind_at. done.
Qed.

Lemma rootState_discov : discov rootState.
Proof. apply disc_roots, discov_empty. Qed.

Lemma pass1_discov : discov pass1Of.
Proof. rewrite pass1_drained. apply disc_drain, rootState_discov. Qed.

Lemma pass1_after_roots : later rootState pass1Of.
Proof. rewrite pass1_drained. apply disc_drain, rootState_discov. Qed.

Lemma pass1_printed t :
  is_Some (g_named pass1Of !! t) →
  ∃ σ nt, discov σ ∧ g_named σ !! t = Some nt ∧ later (namedOf None t σ).2 pass1Of.
Proof.
  intros Ht. apply (ds_order _ _ _ _ pass1_discov) in Ht. apply list_elem_of_lookup in Ht as [j Hj].
  rewrite pass1_drained in *. eapply drain_prints; [apply rootState_discov|lia|lia|exact Hj].
Qed.

(** The entry of a type does not change. *)
Lemma named_stable σ t nt :
  discov σ → g_named σ !! t = Some nt → later (namedOf None t σ).2 pass1Of → g_named pass1Of !! t = Some nt.
Proof.
  intros Hσ Et Hl. destruct (disc_named t σ Hσ) as [_ Hl']. eapply lookup_weaken; [exact Et|].
  etrans; [apply Hl'|apply Hl].
Qed.

Abbreviation localsOf := (importNamesOf isLetter isDigit isNumber isPrint reflect PointerTo isStdlibPkg fieldTypeOverride
  marshalMember typeOf srcNames reg importTypes ptrs walk depth U).
Abbreviation finOf := (finalNameOf isLetter isDigit isNumber isPrint reflect PointerTo isStdlibPkg fieldTypeOverride
  marshalMember typeOf srcNames reg importTypes ptrs walk depth U).

Lemma locals_dom : dom localsOf = dom (g_importNames pass1Of).
Proof.
  unfold importNamesOf. apply assignImportNames_spec; [exact tables|]. intros p name. apply pass1_discov.
Qed.

Lemma locals_ident p l : localsOf !! p = Some l → IsIdentifier isLetter isDigit l = true.
Proof.
  intros El. assert (Hp : p ∈ dom (g_importNames pass1Of)) by (rewrite <-locals_dom; by eapply elem_of_dom_2).
  unfold importNamesOf in El.
  destruct (assignImportNames_spec isLetter isDigit (g_realPkgNames pass1Of) (ds_real _ _ _ _ pass1_discov)
    (g_importNames pass1Of)) as [[_ _ Hok] _].
  by apply (Hok p l Hp).
Qed.

Lemma final_ident t : is_Some (g_named pass1Of !! t) → IsIdentifier isLetter isDigit (finOf t) = true.
Proof.
  intros Ht. apply (ds_order _ _ _ _ pass1_discov) in Ht. unfold finalNameOf.
  apply (packageNames_identifier isLetter isDigit isNumber (nameOf reflect) (pkgPathOf reflect) (stringOf reflect)
    reg (g_order pass1Of) (λ _, None)); [apply pass1_discov|].
  unfold packageNames. apply elem_of_app; right. apply elem_of_app; right. apply elem_of_app; left.
  apply list_elem_of_fmap. by exists t.
Qed.

Lemma below_pass1 σ : later σ pass1Of → below (g_named pass1Of) localsOf σ.
Proof. intros [Hn _ Hi]. split; [done|]. by rewrite locals_dom. Qed.

Lemma walked_pass1 :
  walked isLetter isDigit isNumber isPrint reflect PointerTo isStdlibPkg fieldTypeOverride marshalMember
    (enumTypes reg) importTypes ptrs walk (g_named pass1Of) localsOf depth.
Proof.
  intros ft Hft Hs. destruct (pass1_printed ft Hft) as (σ & nt & Hσ & Ent & Hl). exists σ. split; [done|].
  apply below_pass1. etrans; [|exact Hl]. clear Hl. unfold renderNamed. rewrite Ent.
  destruct (nt_enum nt) as [e|] eqn:Ee.
  { rewrite (ds_enum _ _ _ _ Hσ _ _ _ Ent Ee) in Hs. done. }
  rewrite bind_at. apply underlying_fields; [apply Env| |done|done]. intros u. apply disc_typeExpr.
Qed.

(** ** The second pass *)

Abbreviation two := (Some finOf).
Abbreviation agrees := (agree isLetter isDigit reflect (g_named pass1Of) (g_order pass1Of) localsOf).
Abbreviation shows := (prints (g_named pass1Of) (g_order pass1Of) localsOf).
Abbreviation okE := (okExpr (g_named pass1Of) localsOf finOf).

(** The expressions of a declaration are good. *)
Definition okDecl (V : gset gostr) (d : decl) : Prop := Forall (okE V) (exprsOf d).
Definition okDecls (V : gset gostr) (ds : list decl) : Prop := Forall (okDecl V) ds.

Lemma okE_mono (V W : gset gostr) (e : expr) : V ⊆ W → okE V e → okE W e.
Proof. apply okExpr_mono. Qed.

Lemma okDecls_mono (V W : gset gostr) (ds : list decl) : V ⊆ W → okDecls V ds → okDecls W ds.
Proof.
  intros HV Hds. eapply Forall_impl; [exact Hds|]. intros d Hd. eapply Forall_impl; [exact Hd|].
  intros e. by apply okE_mono.
Qed.

Lemma agrees_type (t : string) (V : gset gostr) : agrees V (λ W _ e, okE W e) (typeExprOf None t) (typeExprOf two t).
Proof.
  eapply agree_weaken; [eapply (types_agree _ _ isNumber) with (level := level)|].
  - exact tables.
  - apply Env.
  - apply Env.
  - apply Env.
  - apply Env.
  - apply final_ident.
  - apply locals_ident.
  - apply Env.
  - apply Env.
  - apply walked_pass1.
  - by intros W e1 e2 _ [He _].
Qed.

Lemma agrees_pkg (p : gostr) (V : gset gostr) :
  agrees V (λ W _ e, okE W e) (qualPkgP isLetter isDigit None p) (qualPkgP isLetter isDigit two p).
Proof.
  eapply agree_weaken; [eapply (agree_qualPkg _ _ isNumber reflect isStdlibPkg (enumTypes reg))|].
  - apply Env.
  - apply Env.
  - apply Env.
  - apply Env.
  - apply final_ident.
  - apply locals_ident.
  - intros W e1 e2 _ (l1 & l2 & -> & -> & _ & _ & Hl & Hp). by repeat constructor.
Qed.

Lemma agrees_errors (errs : list nameError) (V : gset gostr) : agrees V (λ _ _ _, True) (addErrors errs) (addErrors errs).
Proof.
  intros σ τ _ _ [] _. split_and!; [|done|done]. split; simpl; try done.
  intros t. rewrite elem_of_app. intros [Ht|(e & Ht & _)%list_elem_of_fmap]; naive_solver.
Qed.

Definition okParams (V : gset gostr) (ps : list goParam) : Prop := Forall (λ p, okE V (gp_typ p)) ps.

Abbreviation paramsOf r top := (buildParamsFrom isLetter isDigit isNumber isPrint reflect PointerTo isStdlibPkg
  fieldTypeOverride marshalMember typeOf reg importTypes ptrs walk depth r top).

Lemma agrees_params (top1 top2 : gset gostr) (names : list gostr) (i : nat) (ps : list ParamInfo)
    (used1 used2 V : gset gostr) :
  agrees V (λ W _ ps, okParams W ps) (paramsOf None top1 names i ps used1) (paramsOf two top2 names i ps used2).
Proof.
  revert i used1 used2 V. induction ps as [|p ps IH]; intros i used1 used2 V; simpl.
  { apply agree_ret. intros. constructor. }
  intros σ τ. generalize (paramName (g_importNames σ) top1 used1 (sourceName isLetter isDigit names i)).
  generalize (paramName (g_importNames τ) top2 used2 (sourceName isLetter isDigit names i)). intros n2 n1.
  refine (agree_bind isLetter isDigit reflect _ _ _ V (λ W _ e, okE W e) (λ W _ ps, okParams W ps)
    (typeExprOf None (typeOf (pi_type p)))
    (typeExprOf two (typeOf (pi_type p))) _ _ _ _ _ _ σ τ).
  - apply disc_typeExpr.
  - intros e. apply discovers_bind; [apply disc_buildParams|intros; apply discovers_ret].
  - apply agrees_type.
  - intros V1 e1 e2 HV1 He. eapply agree_bind; [apply disc_buildParams|intros; apply discovers_ret|apply IH|].
    intros V2 ps1 ps2 HV2 Hps. apply agree_ret. intros V3 HV3. constructor.
    + eapply okE_mono; [|exact He]. by etrans.
    + eapply Forall_impl; [exact Hps|]. intros q. by apply okE_mono.
Qed.

Lemma agrees_method (top1 top2 : gset gostr) (grp : @goGroup Mw) (info : HandlerInfo) (V : gset gostr) :
  agrees V (λ W _ ds, okDecls W ds) (methodOf None top1 grp info) (methodOf two top2 grp info).
Proof.
  unfold renderMethod, buildParams, streamKey.
  eapply agree_bind; [apply disc_qualPkg| |apply agrees_pkg|].
  { intros cl. step ltac:(apply disc_buildParams). }
  intros V1 c1 c2 HV1 Hc. eapply agree_bind; [apply disc_buildParams| |apply agrees_params|].
  { intros ps. step fail. }
  intros V2 ps1 ps2 HV2 Hps. eapply agree_bind; [apply disc_qualPkg| |apply agrees_pkg|].
  { intros cx. step fail. }
  intros V3 x1 x2 HV3 Hx. cbv zeta.
  assert (Hd : ∀ (W : gset gostr) name call, V3 ⊆ W → Forall (okE W) (exprsOfCall call) →
    okDecl W (DMethod (gg_typeName grp) name (lit (gr_name (gg_group grp)) ++ lit "." ++ lit (hi_name info)) c2 x2 ps2 call)).
  { intros W name call HW Hcall. constructor; [eapply okE_mono; [|exact Hc]; by repeat (etrans; [eassumption|])|].
    constructor; [by eapply okE_mono|]. apply Forall_app. split; [|done]. apply Forall_fmap.
    eapply Forall_impl; [exact Hps|]. intros q. apply okE_mono. by etrans. }
  destruct (hi_kind info).
  - destruct (hi_isVoid info).
    + apply agree_ret. intros W HW. constructor; [|constructor]. apply Hd; [done|constructor].
    + eapply agree_bind; [apply disc_typeExpr|intros; apply discovers_ret|apply agrees_type|].
      intros V4 e1 e2 HV4 He. apply agree_ret. intros W HW.
      assert (Hr : Forall (okE W) [e2]) by (constructor; [by eapply okE_mono|constructor]).
      constructor; [|constructor; [|constructor]]; (apply Hd; [by etrans|done]).
  - eapply agree_bind; [apply disc_typeExpr|intros; apply discovers_ret|apply agrees_type|].
    intros V4 e1 e2 HV4 He. apply agree_ret. intros W HW. constructor; [|constructor].
    apply Hd; [by etrans|]. constructor; [by eapply okE_mono|constructor].
  - eapply (agree_bind isLetter isDigit reflect _ _ _ _ (λ W _ e, okE W e)).
    + destruct (hi_streamKey info); apply disc_typeExpr.
    + intros. step fail.
    + destruct (hi_streamKey info); apply agrees_type.
    + intros V4 k1 k2 HV4 Hk.
      eapply agree_bind; [apply disc_typeExpr|intros; apply discovers_ret|apply agrees_type|].
      intros V5 e1 e2 HV5 He. apply agree_ret. intros W HW. constructor; [|constructor].
      apply Hd; [by repeat (etrans; [eassumption|])|]. constructor; [eapply okE_mono; [|exact Hk]; by etrans|].
      constructor; [by eapply okE_mono|constructor].
Qed.

(** A list of computations of which each yields something good. *)
Lemma agrees_mapM {A B : Type} (P : gset gostr → B → Prop) (f1 f2 : A → M B) (l : list A) (V : gset gostr) :
  (∀ W W' b, W ⊆ W' → P W b → P W' b) →
  (∀ x, disc (f1 x)) → (∀ x W, agrees W (λ W' _ b, P W' b) (f1 x) (f2 x)) →
  agrees V (λ W _ bs, Forall (P W) bs) (mapM f1 l) (mapM f2 l).
Proof.
  intros Hg Hd Hf. eapply agree_weaken.
  - apply (agree_mapM _ _ _ _ _ _ eq (λ W _ b, P W b) _ _ _ _ V).
    + intros W W' _ b. apply Hg.
    + by apply Forall_Forall2_diag, Forall_forall.
    + intros x _. apply Hd.
    + intros x ? W _ _ _ <-. apply Hf.
    + reflexivity.
  - intros W a bs _ Hbs. eapply Forall2_Forall_r; [exact Hbs|]. by apply Forall_forall.
Qed.

Lemma agrees_group (top1 top2 : gset gostr) (grp : @goGroup Mw) (V : gset gostr) :
  agrees V (λ W _ ds, okDecls W ds) (groupOf None top1 grp) (groupOf two top2 grp).
Proof.
  unfold renderGroup. eapply agree_bind; [apply disc_qualPkg| |apply agrees_pkg|].
  { intros cl. step ltac:(apply disc_addErrors || apply disc_method). }
  intros V1 c1 c2 HV1 Hc. eapply agree_bind; [apply disc_addErrors| |apply agrees_errors|].
  { intros _. step ltac:(apply disc_method). }
  intros V2 _ _ HV2 _. eapply agree_bind; [|intros; apply discovers_ret|apply (agrees_mapM okDecls)|].
  - step ltac:(apply disc_method).
  - intros W W' ds. apply okDecls_mono.
  - intros h. apply disc_method.
  - intros h W. apply agrees_method.
  - intros V3 d1 d2 HV3 Hds. apply agree_ret. intros W HW. constructor.
    + constructor; [|constructor]. eapply okE_mono; [|exact Hc]. by repeat (etrans; [eassumption|]).
    + eapply okDecls_mono; [exact HW|]. by apply Forall_concat.
Qed.

Lemma okDecl_mono (V W : gset gostr) (d : decl) : V ⊆ W → okDecl V d → okDecl W d.
Proof. intros HV Hd. eapply Forall_impl; [exact Hd|]. intros e. by apply okE_mono. Qed.

Abbreviation eventOf r := (renderEvent isLetter isDigit isNumber isPrint reflect PointerTo isStdlibPkg fieldTypeOverride
  marshalMember reg importTypes ptrs walk depth r).

Lemma disc_event ev : disc (eventOf None ev).
Proof. unfold renderEvent. step fail. Qed.

Lemma agrees_event (ev : PushEventInfo) (V : gset gostr) :
  agrees V (λ W _ d, okDecl W d) (eventOf None ev) (eventOf two ev).
Proof.
  unfold renderEvent. eapply agree_bind; [apply disc_typeExpr| |apply agrees_type|].
  { intros e. step fail. }
  intros V1 e1 e2 HV1 He. eapply agree_bind; [apply disc_qualPkg|intros; apply discovers_ret|apply agrees_pkg|].
  intros V2 c1 c2 HV2 Hc. apply agree_ret. intros W HW. constructor; [eapply okE_mono; [|exact He]; by etrans|].
  constructor; [by eapply okE_mono|constructor].
Qed.

Lemma agrees_codes (V : gset gostr) :
  agrees V (λ W _ ds, okDecls W ds) (renderErrorCodes isLetter isDigit reg None) (renderErrorCodes isLetter isDigit reg two).
Proof.
  unfold renderErrorCodes. destruct (r_errorCodes reg); [apply agree_ret; constructor|].
  eapply agree_bind; [apply disc_qualPkg|intros; apply discovers_ret|apply agrees_pkg|].
  intros V1 c1 c2 HV1 Hc. apply agree_ret. intros W HW. constructor; [|constructor].
  constructor; [by eapply okE_mono|constructor].
Qed.

Lemma agrees_roots (top1 top2 V : gset gostr) :
  agrees V (λ W _ ds, okDecls W ds) (rootsOf None top1) (rootsOf two top2).
Proof.
  unfold renderRoots. eapply agree_bind; [apply disc_addErrors| |apply agrees_errors|].
  { intros _. unfold renderErrorCodes. step ltac:(apply disc_group || apply disc_event). }
  intros V0 _ _ _ _. eapply agree_bind; [apply disc_qualPkg| |apply agrees_pkg|].
  { intros cl. unfold renderErrorCodes. step ltac:(apply disc_group || apply disc_event). }
  intros V1 c1 c2 _ Hc. cbv zeta. eapply agree_bind; [| |apply (agrees_mapM okDecl)|].
  { step ltac:(apply disc_event). }
  { intros pushes. unfold renderErrorCodes. step ltac:(apply disc_group). }
  { intros W W' d. apply okDecl_mono. }
  { intros ev. apply disc_event. }
  { intros ev W. apply agrees_event. }
  intros V2 p1 p2 HV2 Hp. eapply agree_bind; [| |apply (agrees_mapM okDecls)|].
  { step ltac:(apply disc_group). }
  { intros gs. unfold renderErrorCodes. step fail. }
  { intros W W' ds. apply okDecls_mono. }
  { intros g. apply disc_group. }
  { intros g W. apply agrees_group. }
  intros V3 g1 g2 HV3 Hg. eapply agree_bind; [| |apply agrees_codes|].
  { unfold renderErrorCodes. step fail. }
  { intros ds. step fail. }
  intros V4 k1 k2 HV4 Hk. eapply agree_bind; [|intros; apply discovers_ret|apply (agrees_mapM okE)|].
  { step fail. }
  { intros W W' e. apply okE_mono. }
  { intros t. apply disc_typeExpr. }
  { intros t W. apply agrees_type. }
  intros V5 e1 e2 HV5 _. apply agree_ret. intros W HW.
  assert (HWs : V1 ⊆ W ∧ V2 ⊆ W ∧ V3 ⊆ W ∧ V4 ⊆ W) by (split_and!; repeat (first [eassumption|etrans; [eassumption|]])).
  destruct HWs as (W1 & W2 & W3 & W4).
  apply Forall_app. split; [|apply Forall_app; split; [|apply Forall_app; split]].
  - assert (okE W c2) by (eapply okE_mono; [exact W1|exact Hc]). by repeat constructor.
  - eapply Forall_impl; [exact Hp|]. intros d. by apply okDecl_mono.
  - apply Forall_concat. eapply Forall_impl; [exact Hg|]. intros ds. by apply okDecls_mono.
  - by eapply okDecls_mono.
Qed.

(** *** Types *)

Lemma shows_named (t : string) (V : gset gostr) :
  is_Some (g_named pass1Of !! t) → shows V (λ W ds, okDecls W ds ∧ omap declares ds = [(t, finOf t)]) (namedOf two t).
Proof.
  intros Ht τ Hτ HV. destruct (pass1_printed t Ht) as (σ & nt & Hσ & Ent & Hl).
  pose proof (named_stable σ t nt Hσ Ent Hl) as EN. unfold renderNamed in *. rewrite Ent in Hl.
  rewrite (pr_named _ _ _ _ Hτ), EN. destruct (nt_enum nt) as [e|].
  { split_and!; [done|done| |done]. repeat constructor. }
  assert (Hu : agrees V (λ W _ e, okE W e) (underlyingOf None t) (underlyingOf two t)).
  { unfold underlyingP, typeExprP. eapply agree_weaken; [eapply (underlying_agree isLetter isDigit isNumber isPrint
      reflect PointerTo isStdlibPkg fieldTypeOverride marshalMember (enumTypes reg)) with (level := level) (depth := depth)|].
    - exact tables.
    - apply Env.
    - apply Env.
    - apply Env.
    - apply Env.
    - apply final_ident.
    - apply locals_ident.
    - apply Env.
    - apply Env.
    - apply walked_pass1.
    - by intros W e1 e2 _ [He _]. }
  assert (Hd : disc (underlyingOf None t)).
  { apply discovers_underlying; [apply Env|]. intros u. apply disc_typeExpr. }
  revert σ τ Hσ Hτ HV Ent Hl. intros σ τ Hσ Hτ HV Ent Hl. apply below_pass1 in Hl.
  refine (agree_bind isLetter isDigit reflect _ _ _ V _
    (λ W _ ds, okDecls W ds ∧ omap declares ds = [(t, finOf t)]) _ _ 
    (λ e, mret [DType t _ e]) _ Hd _ Hu _ σ τ Hσ Hl Hτ HV).
  - intros. apply discovers_ret.
  - intros V1 e1 e2 _ He. apply agree_ret. intros W HW. split; [|done]. constructor; [|constructor].
    constructor; [by eapply okE_mono|constructor].
Qed.

(** What the declarations of types declare. *)
Definition declaring (ts : list string) (W : gset gostr) (dss : list (list decl)) : Prop :=
  okDecls W (concat dss) ∧ omap declares (concat dss) = (λ t, (t, finOf t)) <$> ts.

Lemma shows_types (ts : list string) (V : gset gostr) :
  (∀ t, t ∈ ts → is_Some (g_named pass1Of !! t)) → shows V (declaring ts) (mapM (namedOf two) ts).
Proof.
  revert V. induction ts as [|t ts IH]; intros V Hts; simpl.
  { apply prints_ret. intros W _. split; [constructor|done]. }
  eapply prints_bind; [apply shows_named, Hts; left|]. intros V1 ds HV1 [Hds Hd].
  eapply prints_bind; [apply IH; intros; apply Hts; by right|]. intros V2 dss HV2 [Hdss Hds']. apply prints_ret.
  intros W HW. split; simpl; [|by rewrite omap_app, Hd, Hds']. apply Forall_app.
  split; [eapply okDecls_mono; [|exact Hds]; by etrans|exact (okDecls_mono _ _ _ HW Hdss)].
Qed.

Abbreviation sorted2 := (sortedTypes isLetter isDigit isNumber reflect two (g_order pass1Of)).

Lemma sorted_perm : sorted2 ≡ₚ g_order pass1Of.
Proof. apply merge_sort_Permutation. Qed.

Lemma sorted_named (t : string) : t ∈ sorted2 → is_Some (g_named pass1Of !! t).
Proof. rewrite sorted_perm. apply pass1_discov. Qed.

(** ** The output *)

Abbreviation topOf := (topLevelOf isLetter isDigit isNumber isPrint reflect PointerTo isStdlibPkg fieldTypeOverride
  marshalMember typeOf srcNames reg importTypes ptrs walk depth U).
Abbreviation startOf := (start2 isLetter isDigit isNumber isPrint reflect PointerTo isStdlibPkg fieldTypeOverride
  marshalMember typeOf srcNames reg importTypes ptrs walk depth U).
Abbreviation pass2Of := (pass2 isLetter isDigit isNumber isPrint reflect PointerTo isStdlibPkg fieldTypeOverride
  marshalMember typeOf srcNames reg importTypes ptrs walk depth U).

Lemma start2_printing : printing (g_named pass1Of) (g_order pass1Of) localsOf startOf.
Proof. split; simpl; try done. intros t. apply not_elem_of_nil. Qed.

Lemma types2_eq (τ : gen) :
  renderTypes isLetter isDigit isNumber isPrint reflect PointerTo isStdlibPkg fieldTypeOverride marshalMember reg
    importTypes ptrs walk depth U two τ =
  (ds ← mapM (namedOf two) (sortedTypes isLetter isDigit isNumber reflect two (g_order τ)); mret (concat ds)) τ.
Proof. done. Qed.

(** Only the types declare types. *)
Definition declaresNone (d : decl) : Prop := declares d = None.

Ltac silently :=
  repeat (cbv zeta;
    match goal with
    | |- posts _ (mret _) => apply posts_ret; repeat constructor
    | |- posts _ (match ?m with _ => _ end) => destruct m
    | |- posts _ (_ ≫= _) => eapply posts_bind; [apply posts_true|intros ? _]
    end).

Lemma method_silent (top : gset gostr) (grp : @goGroup Mw) (info : HandlerInfo) :
  posts (Forall declaresNone) (methodOf two top grp info).
Proof. unfold renderMethod. silently. Qed.

Lemma group_silent (top : gset gostr) (grp : @goGroup Mw) : posts (Forall declaresNone) (groupOf two top grp).
Proof.
  unfold renderGroup. do 2 (eapply posts_bind; [apply posts_true|intros ? _]).
  eapply posts_bind; [apply posts_mapM; intros h _; apply method_silent|]. intros ds Hds. apply posts_ret.
  constructor; [done|]. by apply Forall_concat.
Qed.

Lemma roots_silent (top : gset gostr) : posts (Forall declaresNone) (rootsOf two top).
Proof.
  unfold renderRoots. do 2 (eapply posts_bind; [apply posts_true|intros ? _]). cbv zeta.
  eapply (posts_bind (Forall declaresNone)); [apply posts_mapM; intros ev _; unfold renderEvent; silently|].
  intros pushes Hp. eapply posts_bind; [apply posts_mapM; intros g _; apply group_silent|]. intros gs Hg.
  eapply (posts_bind (Forall declaresNone)); [unfold renderErrorCodes; silently|]. intros codes Hc.
  eapply posts_bind; [apply posts_true|intros ? _]. apply posts_ret. constructor; [done|]. constructor; [done|].
  apply Forall_app. split; [done|]. apply Forall_app. split; [|done]. by apply Forall_concat.
Qed.

Lemma roots_declare (top : gset gostr) (τ : gen) : omap declares (rootsOf two top τ).1 = [].
Proof.
  pose proof (roots_silent top τ) as H0. induction H0 as [|d ds Hd _ IH]; [done|]. simpl. by rewrite Hd.
Qed.

Lemma pass2_prints :
  printing (g_named pass1Of) (g_order pass1Of) localsOf pass2Of.2 ∧ okDecls (g_usedImports pass2Of.2) pass2Of.1 ∧
  omap declares pass2Of.1 = (λ t, (t, finOf t)) <$> sorted2.
Proof.
  assert (Hr : printing (g_named pass1Of) (g_order pass1Of) localsOf (rootsOf two topOf startOf).2 ∧
               okDecls (g_usedImports (rootsOf two topOf startOf).2) (rootsOf two topOf startOf).1).
  { destruct (agrees_roots ∅ topOf ∅ emptyGen startOf) as (H1 & _ & H3); [apply discov_empty| | |set_solver|done].
    - apply below_pass1, pass1_after_roots.
    - apply start2_printing. }
  unfold pass2, renderBody. rewrite bind_at. pose proof (roots_declare topOf startOf) as Hnone.
  destruct (rootsOf two topOf startOf) as [roots τ]. cbn [fst snd] in *.
  destruct Hr as [Hτ Hroots]. rewrite bind_at, types2_eq, (pr_order _ _ _ _ Hτ), bind_at.
  destruct (shows_types sorted2 (g_usedImports τ) sorted_named τ Hτ ltac:(done)) as (H1 & H2 & H3 & H4).
  destruct (mapM (namedOf two) sorted2 τ) as [dss τ2]. unfold mret, M_ret. cbn [fst snd] in *.
  split_and!; [done| |by rewrite omap_app, Hnone, H4].
  apply Forall_app. split; [|done]. apply (okDecls_mono _ _ _ H2 Hroots).
Qed.

(** The import block binds [local] to the package at [p]: it says so, or the package clause does. *)
Definition binds (real : gmap gostr gostr) (imports : list gostr * list gostr) (p local : gostr) : Prop :=
  local ++ lit " " ++ Quote isPrint p ∈ imports.1 ++ imports.2 ∨
  (Quote isPrint p ∈ imports.1 ++ imports.2 ∧ local = pkgName isLetter isDigit real p).

Lemma used_bound (σ : gen) (p local : gostr) :
  p ∈ g_usedImports σ → g_importNames σ !! p = Some local →
  binds (g_realPkgNames σ) (renderImports isLetter isDigit isPrint isStdlibPkg σ) p local.
Proof.
  intros Hp El. assert (Hin : importLine isLetter isDigit isPrint isStdlibPkg σ p ∈
    (renderImports isLetter isDigit isPrint isStdlibPkg σ).1 ++ (renderImports isLetter isDigit isPrint isStdlibPkg σ).2).
  { unfold renderImports, sortNames. cbn [fst snd]. rewrite elem_of_app, !merge_sort_Permutation.
    destruct (isStdlibPkg p) eqn:E; [left|right]; apply list_elem_of_fmap; exists p; split; try done;
      apply list_elem_of_filter; (split; [done|]); by apply elem_of_elements. }
  revert Hin. unfold importLine, binds. assert (Ed : default [] (g_importNames σ !! p) = local) by exact (f_equal (default []) El).
  rewrite Ed. simpl. case_bool_decide as Hc; simpl.
  - rewrite <-(assoc_L (++)). by left.
  - destruct (pkgNameIsGuess _ _ _ _ _); [rewrite <-(assoc_L (++)); by left|]. right. split; [done|].
    destruct (decide (local = pkgName isLetter isDigit (g_realPkgNames σ) p)) as [E|Hne]; [exact E|by destruct Hc].
Qed.

Lemma finOf_inj (t u : string) : t ∈ sorted2 → u ∈ sorted2 → finOf t = finOf u → t = u.
Proof.
  rewrite sorted_perm. intros Ht Hu E.
  apply (nameOfType_spec isLetter isDigit isNumber (nameOf reflect) (pkgPathOf reflect) (stringOf reflect)
    reg (g_order pass1Of) (ds_nodup _ _ _ _ pass1_discov)) in Ht as [Ht _].
  apply (nameOfType_spec isLetter isDigit isNumber (nameOf reflect) (pkgPathOf reflect) (stringOf reflect)
    reg (g_order pass1Of) (ds_nodup _ _ _ _ pass1_discov)) in Hu as [Hu _].
  unfold finalNameOf in E. rewrite E in Ht. congruence.
Qed.

End Client.

Section Property.
  Context `{RuneCase} (isLetter isDigit isNumber isPrint : rune → bool).
  Context (reflect : string → typeInfo) (PointerTo : string → string) (isStdlibPkg : gostr → bool).
  Context (fieldTypeOverride : string → gostr → option string).
  Context (marshalMember : string → gostr → option (option gostr)).
  Context (typeOf : goType → string) (srcNames : string → string → list gostr).
  Context {Mw : Type} (reg : @Registry Mw) (importTypes : gset gostr).
  Context (ptrs walk depth : nat) (U : gset string).

Abbreviation second := (pass2 isLetter isDigit isNumber isPrint reflect PointerTo isStdlibPkg fieldTypeOverride
  marshalMember typeOf srcNames reg importTypes ptrs walk depth U).
Abbreviation Generated := (Generate isLetter isDigit isNumber isPrint reflect PointerTo isStdlibPkg fieldTypeOverride
  marshalMember typeOf srcNames reg importTypes ptrs walk depth U).

(** Every name of the output is declared, once, or imported. *)
Definition closed (c : goClient) : Prop :=
  NoDup (omap declares (gc_decls c)).*1 ∧ NoDup (omap declares (gc_decls c)).*2 ∧
  ∀ d e tok, d ∈ gc_decls c → e ∈ exprsOf d → tok ∈ e →
    match tok with
    | Txt _ => True
    | Ref t name => (t, name) ∈ omap declares (gc_decls c)
    | Pkg p local => binds isLetter isDigit isPrint (g_realPkgNames second.2) (gc_imports c) p local
    end.

(** C30: the two passes of the Go client generator fit together. The pass that prints never
    meets a type that the pass that discovers has missed, so that it reports no such error;
    and when a client is generated, every type it refers to is declared in it, under the name
    it is referred to by, no type and no name is declared twice, and every package that a
    name is qualified by is imported under that name. *)
Theorem go_generation_coherent (level : string → nat) :
  environment isLetter isDigit isNumber reflect PointerTo isStdlibPkg fieldTypeOverride reg depth U level →
  (∀ t, EDiscovered t ∉ g_errs second.2) ∧
  ∀ PackageName base c, Generated PackageName base = Ok c → closed c.
Proof.
  intros Env. set (N := pass1 isLetter isDigit isNumber isPrint reflect PointerTo isStdlibPkg fieldTypeOverride
    marshalMember typeOf srcNames reg importTypes ptrs walk depth U).
  destruct (pass2_prints isLetter isDigit isNumber isPrint reflect PointerTo isStdlibPkg fieldTypeOverride
    marshalMember typeOf srcNames reg importTypes ptrs walk depth U level Env) as ([_ _ HL Hused Herr] & Hok & Hdecl).
  split; [done|]. intros PackageName base c. unfold Generate.
  destruct (packageName _ _ _ _) as [pn|]; [|done]. case_bool_decide; [done|].
  repeat match goal with |- (match ?errs with [] => _ | _ => _ end = _) → _ => destruct errs; [|try done] end; try done.
  intros [= <-]. unfold closed. simpl. rewrite Hdecl.
  pose proof (sorted_perm isLetter isDigit isNumber isPrint reflect PointerTo isStdlibPkg fieldTypeOverride
    marshalMember typeOf srcNames reg importTypes ptrs walk depth U) as Hperm.
  set (ts := sortedTypes _ _ _ _ _ _) in *.
  pose proof (pass1_discov isLetter isDigit isNumber isPrint reflect PointerTo isStdlibPkg fieldTypeOverride
    marshalMember typeOf srcNames reg importTypes ptrs walk depth U level Env) as Hdis.
  assert (Hnd : NoDup ts) by (rewrite Hperm; apply Hdis). split_and!.
  - rewrite <-list_fmap_compose. by rewrite list_fmap_id.
  - rewrite <-list_fmap_compose. apply NoDup_fmap_2_strong; [|done]. intros t u Ht Hu.
    by eapply (finOf_inj isLetter isDigit isNumber isPrint reflect).
  - intros d e tok Hd He Htok.
    assert (Ht : okToken (g_named N) (importNamesOf isLetter isDigit isNumber isPrint reflect PointerTo isStdlibPkg
      fieldTypeOverride marshalMember typeOf srcNames reg importTypes ptrs walk depth U)
      (finalNameOf isLetter isDigit isNumber isPrint reflect PointerTo isStdlibPkg
      fieldTypeOverride marshalMember typeOf srcNames reg importTypes ptrs walk depth U) (g_usedImports second.2) tok).
    { unfold okDecls in Hok. rewrite Forall_forall in Hok. specialize (Hok d Hd). unfold okDecl in Hok.
      rewrite Forall_forall in Hok. specialize (Hok e He). unfold okExpr in Hok. rewrite Forall_forall in Hok. by apply Hok. }
    destruct tok as [s|t name|p local]; [done| |].
    + destruct Ht as [-> Ht]. apply list_elem_of_fmap. exists t. split; [done|]. rewrite Hperm. by apply Hdis.
    + destruct Ht as [El Hp]. apply used_bound; [done|]. by rewrite HL.
Qed.

End Property.

(** ** An example *)

(** Two types called Node that refer to each other, the first one to itself and to an enum. *)
Definition exField (name : string) (t : string) : structField :=
  StructField (lit name) t false true None.
Definition exStruct (name pkg str : string) (fs : list structField) : typeInfo :=
  TypeInfo (Struct fs) (lit name) (lit pkg) (lit str) false false (Some (lit "{}")).
Definition exPlain (k : kind) (name pkg str : string) : typeInfo :=
  TypeInfo k (lit name) (lit pkg) (lit str) false false (Some (lit "0")).

Definition exTypes : list (string * typeInfo) :=
  [("a.Node", exStruct "Node" "example.com/a" "a.Node"
      [exField "ID" "string"; exField "Next" "*a.Node"; exField "Kids" "[]b.Node"; exField "At" "time.Time";
       exField "Color" "a.Color"]);
   ("b.Node", exStruct "Node" "example.com/b" "b.Node" [exField "Owner" "*a.Node"]);
   ("a.Color", exPlain (Basic "string") "Color" "example.com/a" "a.Color");
   ("time.Time", exStruct "Time" "time" "time.Time" []);
   (blobType, exPlain (Slice "uint8") "Blob" "github.com/marrasen/aprot" "aprot.Blob");
   ("*a.Node", exPlain (Pointer "a.Node") "" "" "*a.Node");
   ("[]b.Node", exPlain (Slice "b.Node") "" "" "[]b.Node");
   ("string", exPlain (Basic "string") "string" "" "string")].

Fixpoint lookupIn {A : Type} (l : list (string * A)) (t : string) : option A :=
  match l with [] => None | (u, a) :: l => if bool_decide (t = u) then Some a else lookupIn l t end.

Definition exReflect (t : string) : typeInfo := default (exPlain (Basic "int") "" "" "int") (lookupIn exTypes t).
Definition exPointerTo (t : string) : string := String.append "*" t.
Definition exStdlib (p : gostr) : bool := bool_decide (p = lit "time").
Definition exOverride (t : string) (f : gostr) : option string := None.
Definition exMember (t : string) (v : gostr) : option (option gostr) := Some (Some v).
Definition exTypeOf (t : goType) : string :=
  match t with TPtr _ => "*a.Node" | TSlice _ => "[]b.Node" | _ => "string" end.
Definition exSource (s m : string) : list gostr := [lit "id"].
Definition exLevel (t : string) : nat := if bool_decide (t ∈ ["*a.Node"; "[]b.Node"]) then 1 else 0.
Definition exNamed : gset string := {["a.Node"; "b.Node"; "a.Color"; "time.Time"; blobType]}.

Definition exHandlers : gmap string HandlerInfo :=
  {["Find" := Info "Find" [Param (TBasic Transform.KString) false] (TPtr (TStruct "Node")) "Shop" false HandlerKindUnary None;
    "Watch" := Info "Watch" [] (TSlice (TStruct "Node")) "Shop" false HandlerKindStream None]}.
Definition exRegistry : @Registry unit :=
  Reg ∅ {["shop" := Group "shop" exHandlers [PushEvent "moved" "a.Node" "shop"]
            [Registry.Enum "Color" "a.Color" true [(lit "red", lit "red")]] [] true]}
    [] ∅ [("gone", 1000%Z)] [] 1001%Z [] ∅ ∅.
Definition exPrint (r : rune) : bool := bool_decide (32 ≤ r < 127)%Z.

Lemma lookupIn_None {A : Type} (l : list (string * A)) t : t ∉ l.*1 → lookupIn l t = None.
Proof.
  induction l as [|[u a] l IH]; simpl; [done|]. rewrite not_elem_of_cons. intros [Hne Hl].
  rewrite bool_decide_false by done. by apply IH.
Qed.

Lemma exReflect_cases (P : string → Prop) :
  Forall P exTypes.*1 → (∀ t, exReflect t = exPlain (Basic "int") "" "" "int" → P t) → ∀ t, P t.
Proof.
  intros Hl Hd t. destruct (decide (t ∈ exTypes.*1)) as [Ht|Ht]; [by eapply Forall_forall in Hl|].
  apply Hd. unfold exReflect. by rewrite lookupIn_None.
Qed.

Lemma exEnvironment :
  environment (H := asciiCase) asciiLetters asciiDigit asciiDigit exReflect exPointerTo exStdlib exOverride exRegistry
    2 exNamed exLevel.
Proof.
  split.
  - apply asciiTables.
  - done.
  - done.
  - by vm_compute.
  - cut (map_Forall (λ t _, isStruct exReflect t = false) (enumTypes exRegistry)); [intros Hm t e; apply Hm|].
    refine (bool_decide_unpack _ _). vm_compute. exact I.
  - intros t u Ht. revert u. apply Forall_forall. revert t Ht.
    apply (exReflect_cases (λ t, expanded exReflect exStdlib t = true →
      Forall (λ u, exLevel u < exLevel t) (components exReflect exPointerTo exOverride t))).
    + refine (bool_decide_unpack _ _). vm_compute. exact I.
    + intros t E _. unfold components, kindOf. rewrite E. constructor.
  - intros t. unfold exLevel. case_bool_decide; lia.
  - apply (exReflect_cases (λ t, pkgPathOf exReflect t ≠ [] → t ∈ exNamed)).
    + refine (bool_decide_unpack _ _). vm_compute. exact I.
    + intros t E. unfold pkgPathOf. by rewrite E.
Qed.

Abbreviation exGenerate := (Generate (H := asciiCase) asciiLetters asciiDigit asciiDigit exPrint exReflect exPointerTo
  exStdlib exOverride exMember exTypeOf exSource exRegistry ∅ 4 16 2 exNamed [] (Some (lit "shop"))).

Definition exClient : goClient := match exGenerate with Ok c => c | Err _ => GoClient [] ([], []) [] end.

(** The declaration of a type, printed. *)
Definition typeText (d : decl) : option (gostr * gostr) :=
  match d with DType _ name e => Some (name, render e) | _ => None end.

Lemma go_generation_coherent_witness :
  exGenerate = Ok exClient ∧
  omap declares (gc_decls exClient) = [("a.Node", lit "ANode"); ("b.Node", lit "BNode"); ("a.Color", lit "Color")] ∧
  omap typeText (gc_decls exClient) !! 1 =
    Some (lit "BNode", lit "struct {" ++ [10%Z] ++ lit "Owner *ANode" ++ [10%Z] ++ lit "}") ∧
  closed (H := asciiCase) asciiLetters asciiDigit asciiDigit exPrint exReflect exPointerTo exStdlib exOverride exMember
    exTypeOf exSource exRegistry ∅ 4 16 2 exNamed exClient.
Proof.
  assert (E : exGenerate = Ok exClient) by (vm_compute; reflexivity).
  split; [exact E|]. do 2 (split; [vm_compute; reflexivity|]).
  destruct (go_generation_coherent (H := asciiCase) asciiLetters asciiDigit asciiDigit exPrint exReflect exPointerTo exStdlib
    exOverride exMember exTypeOf exSource exRegistry ∅ 4 16 2 exNamed exLevel exEnvironment) as [_ Hc].
  exact (Hc [] (Some (lit "shop")) exClient E).
Defined.

(** An enum of a package that the client imports its types from, which no method and no event
    mentions: its type is spelled for its effects alone, so the package is imported, and the
    client never uses it. *)
Definition lonelyEnum : @Registry unit :=
  Reg ∅ {["shop" := Group "shop" {["Watch" := Info "Watch" [] (TBasic Transform.KString) "Shop" false HandlerKindStream None]}
            [] [Registry.Enum "Color" "a.Color" true [(lit "red", lit "red")]] [] true]}
    [] ∅ [] [] 1000%Z [] ∅ ∅.

Abbreviation lonelyClient := (Generate (H := asciiCase) asciiLetters asciiDigit asciiDigit exPrint exReflect exPointerTo
  exStdlib exOverride exMember exTypeOf exSource lonelyEnum {[lit "example.com/a"]} 4 16 2 exNamed [] (Some (lit "shop"))).

Definition mentions (p : gostr) (d : decl) : bool :=
  existsb (existsb (λ tok, match tok with Pkg q _ => bool_decide (q = p) | _ => false end)) (exprsOf d).

Lemma imported_enum_unused :
  match lonelyClient with
  | Ok c => Quote exPrint (lit "example.com/a") ∈ (gc_imports c).2 ∧
            existsb (mentions (lit "example.com/a")) (gc_decls c) = false
  | Err _ => False
  end.
Proof.
  assert (E : match lonelyClient with
    | Ok c => bool_decide (Quote exPrint (lit "example.com/a") ∈ (gc_imports c).2) &&
              negb (existsb (mentions (lit "example.com/a")) (gc_decls c))
    | Err _ => false end = true) by (vm_compute; reflexivity).
  destruct lonelyClient as [c|e]; [|done]. apply andb_true_iff in E as [E1 E2].
  split; [by apply bool_decide_eq_true in E1|by apply negb_true_iff].
Qed.

End GoPasses.
