(* ===== verification/Http.v ===== *)
(** * Http: what guards the HTTP endpoints against other origins (cors.go, origin.go)

    [Module Cors] is the CORS middleware, as a function from a request and the response
    headers set so far to what happens: the wrapped handler runs, or the preflight is
    answered. [Module Origin] is [SameOriginCheck], the origin check for WebSocket
    upgrades; parsing a URL is net/url's work and a parameter, and the case-insensitive
    comparison is an interface with the laws used. *)

From S2P Require Import Prelude Runes.
From stdpp Require Import prelude gmap strings list pretty.

(** ** Headers *)

Module Headers.

(** [http.Header], with canonical keys. *)
Abbreviation Header := (gmap string (list string)) (only parsing).

Definition Get (h : Header) (k : string) : string :=
  match h !! k with Some (v :: _) => v | _ => "" end.
Definition Set_ (k v : string) (h : Header) : Header := <[k := [v]]> h.
Definition Add (k v : string) (h : Header) : Header := <[k := default [] (h !! k) ++ [v]]> h.

Lemma lookup_Set_ne k k' v h : k ≠ k' → Set_ k v h !! k' = h !! k'.
Proof. intros. by apply lookup_insert_ne. Qed.
Lemma lookup_Add_ne k k' v h : k ≠ k' → Add k v h !! k' = h !! k'.
Proof. intros. by apply lookup_insert_ne. Qed.

End Headers.

(** ** CORS *)

Module Cors.
Import Headers.

Record CORSOptions := CORSOpts {
  AllowedOrigins : list string;
  AllowedMethods : list string;
  AllowedHeaders : list string;
  ExposedHeaders : list string;
  AllowCredentials : bool;
  MaxAge : Z;
}.

Definition defaultCORSMethods : list string := ["GET"; "POST"; "PUT"; "PATCH"; "DELETE"; "OPTIONS"].

(** [resolveOrigin]: the first entry that fits decides. *)
Fixpoint resolveFrom (credentials : bool) (os : list string) (origin : string) : option string :=
  match os with
  | [] => None
  | o :: os =>
      if bool_decide (o = origin) then Some origin
      else if bool_decide (o = "*") then (if credentials then Some origin else Some "*")
      else resolveFrom credentials os origin
  end.

Definition resolveOrigin (opts : CORSOptions) (origin : string) : option string :=
  resolveFrom (AllowCredentials opts) (AllowedOrigins opts) origin.

(** What becomes of a request: the wrapped handler runs with these headers set, or the
    middleware answers by itself. *)
Inductive served := Next (h : Header) | Answer (status : Z) (h : Header).

Definition headersOf (r : served) : Header := match r with Next h | Answer _ h => h end.

Record request := Request { method : string; header : Header }.

Definition ACAO : string := "Access-Control-Allow-Origin".
Definition ACAC : string := "Access-Control-Allow-Credentials".
Definition ACEH : string := "Access-Control-Expose-Headers".
Definition ACAM : string := "Access-Control-Allow-Methods".
Definition ACAH : string := "Access-Control-Allow-Headers".
Definition ACMA : string := "Access-Control-Max-Age".

Definition isPreflight (r : request) : bool :=
  bool_decide (method r = "OPTIONS") &&
  bool_decide (Get (header r) "Access-Control-Request-Method" ≠ "").

(** The headers of an allowed origin, and those that answer its preflight. *)
Definition allowHeaders (opts : CORSOptions) (allowOrigin : string) (h : Header) : Header :=
  let h := Set_ ACAO allowOrigin h in
  let h := if AllowCredentials opts then Set_ ACAC "true" h else h in
  let expose := String.concat ", " (ExposedHeaders opts) in
  if bool_decide (expose ≠ "") then Set_ ACEH expose h else h.

Definition preflightHeaders (opts : CORSOptions) (r : request) (h : Header) : Header :=
  let methods := match AllowedMethods opts with [] => defaultCORSMethods | l => l end in
  let headers := match AllowedHeaders opts with [] => ["Content-Type"] | l => l end in
  let h := Set_ ACAM (String.concat ", " methods) h in
  let h :=
    if bool_decide ("*" ∈ headers) && AllowCredentials opts then
      let reqHeaders := Get (header r) "Access-Control-Request-Headers" in
      if bool_decide (reqHeaders ≠ "") then Set_ ACAH reqHeaders h else h
    else Set_ ACAH (String.concat ", " headers) h in
  if bool_decide (0 < MaxAge opts)%Z then Set_ ACMA (pretty (MaxAge opts)) h else h.

(** [CORS], around a handler, on a request with the response headers [h]. *)
Definition CORS (opts : CORSOptions) (r : request) (h : Header) : served :=
  let origin := Get (header r) "Origin" in
  if bool_decide (origin = "") then Next h
  else
    let h := Add "Vary" "Origin" h in
    let h := match resolveOrigin opts origin with Some o => allowHeaders opts o h | None => h end in
    if negb (isPreflight r) then Next h
    else
      let h := Add "Vary" "Access-Control-Request-Headers" (Add "Vary" "Access-Control-Request-Method" h) in
      Answer 204
        (match resolveOrigin opts origin with Some _ => preflightHeaders opts r h | None => h end).

(** *** Facts *)

Lemma resolveFrom_spec cr os origin a :
  resolveFrom cr os origin = Some a →
  (a = origin ∧ (origin ∈ os ∨ ("*" ∈ os ∧ cr = true))) ∨ (a = "*" ∧ "*" ∈ os ∧ cr = false).
Proof.
  induction os as [|o os IH]; simpl; [done|]. case_bool_decide as E.
  - subst. intros [= <-]. left. split; [done|]. left. by left.
  - case_bool_decide as Es; [|intros Ha; rewrite !elem_of_cons; naive_solver].
    subst. destruct cr; intros [= <-].
    + left. split; [done|]. right. split; [by left|done].
    + right. split_and!; [done|by left|done].
Qed.

Lemma resolveFrom_none cr os origin :
  resolveFrom cr os origin = None ↔ (origin ∉ os) ∧ ("*" ∉ os).
Proof.
  induction os as [|o os IH]; simpl; [set_solver|]. rewrite !not_elem_of_cons.
  case_bool_decide; [naive_solver|]. case_bool_decide; [destruct cr; naive_solver|]. naive_solver.
Qed.

(** The headers a preflight adds are none of those that grant access. *)
Lemma preflight_keeps opts r h k :
  k ∉ [ACAM; ACAH; ACMA] → preflightHeaders opts r h !! k = h !! k.
Proof.
  rewrite !not_elem_of_cons. intros (H1 & H2 & H3 & _). unfold preflightHeaders.
  repeat case_match; rewrite ?lookup_Set_ne by done; done.
Qed.

Lemma allow_lookup opts o h :
  allowHeaders opts o h !! ACAO = Some [o] ∧
  allowHeaders opts o h !! ACAC = (if AllowCredentials opts then Some ["true"] else h !! ACAC) ∧
  allowHeaders opts o h !! "Vary" = h !! "Vary".
Proof.
  unfold allowHeaders, Set_.
  repeat case_match; split_and!; by simplify_map_eq.
Qed.

Lemma cors_lookup opts r h k :
  Get (header r) "Origin" ≠ "" → k = ACAO ∨ k = ACAC →
  headersOf (CORS opts r h) !! k =
    match resolveOrigin opts (Get (header r) "Origin") with
    | Some o => allowHeaders opts o (Add "Vary" "Origin" h) !! k
    | None => h !! k
    end.
Proof.
  intros Ho Hk. unfold CORS. rewrite bool_decide_false by done.
  assert (k ≠ "Vary" ∧ k ∉ [ACAM; ACAH; ACMA]) as [Hv Hp].
  { destruct Hk as [->| ->]; (split; [done|]; apply (bool_decide_unpack _); by vm_compute). }
  destruct (resolveOrigin _ _); destruct (isPreflight r); cbn [negb headersOf];
    rewrite ?preflight_keeps by done; rewrite ?lookup_Add_ne by done; done.
Qed.

(** CORS is closed by default and never combines a wildcard with credentials. For a
    request with an Origin header, on a response without access headers: access is granted
    exactly when the origin is listed or the list has "*"; the granted value is the
    request's own origin, or "*" when it came from the wildcard and credentials are off;
    credentials are announced only with credentials on, and then the granted value is never
    the literal "*" for another origin. The wrapped handler runs exactly for the requests
    that are no preflight, allowed or not; a preflight is answered 204 without it. The
    response to a request with an Origin always varies on it, and a request without one is
    passed through untouched. *)
Theorem cors_closed_by_default (opts : CORSOptions) (r : request) (h : Header) :
  h !! ACAO = None → h !! ACAC = None →
  let origin := Get (header r) "Origin" in
  let out := CORS opts r h in
  (origin = "" → out = Next h) ∧
  (origin ≠ "" →
     (is_Some (headersOf out !! ACAO) ↔ origin ∈ AllowedOrigins opts ∨ "*" ∈ AllowedOrigins opts) ∧
     (∀ vs, headersOf out !! ACAO = Some vs →
        vs = [origin] ∨ (vs = ["*"] ∧ "*" ∈ AllowedOrigins opts ∧ AllowCredentials opts = false)) ∧
     (∀ vs, headersOf out !! ACAC = Some vs →
        vs = ["true"] ∧ AllowCredentials opts = true ∧ headersOf out !! ACAO = Some [origin]) ∧
     (∃ vs, headersOf out !! "Vary" = Some vs ∧ "Origin" ∈ vs) ∧
     (if isPreflight r then ∃ h', out = Answer 204 h' else ∃ h', out = Next h')).
Proof.
  intros Hao Hac origin out. split; [intros Ho; unfold out, CORS; by rewrite bool_decide_true|].
  intros Ho. unfold out.
  rewrite !(cors_lookup opts r h ACAO Ho) by auto. rewrite (cors_lookup opts r h ACAC Ho) by auto.
  fold origin. split_and!.
  - unfold resolveOrigin. destruct (resolveFrom _ _ _) as [a|] eqn:E.
    + destruct (allow_lookup opts a (Add "Vary" "Origin" h)) as (-> & _ & _).
      split; [intros _|done]. apply resolveFrom_spec in E. naive_solver.
    + rewrite Hao. apply resolveFrom_none in E as [E1 E2]. split; [by intros []|]. naive_solver.
  - intros vs. unfold resolveOrigin. destruct (resolveFrom _ _ _) as [a|] eqn:E; [|congruence].
    destruct (allow_lookup opts a (Add "Vary" "Origin" h)) as (-> & _ & _). intros [= <-].
    apply resolveFrom_spec in E as [[-> _]|(-> & Hin & Hc)]; [by left|by right].
  - intros vs. unfold resolveOrigin. destruct (resolveFrom _ _ _) as [a|] eqn:E; [|congruence].
    destruct (allow_lookup opts a (Add "Vary" "Origin" h)) as (-> & -> & _).
    destruct (AllowCredentials opts) eqn:Ec; [|rewrite lookup_Add_ne by done; congruence].
    intros [= <-]. apply resolveFrom_spec in E as [[-> _]|(_ & _ & Hc)]; done.
  - unfold CORS. fold origin. rewrite bool_decide_false by done.
    assert (Hv : ∃ vs, match resolveOrigin opts origin with
      | Some o => allowHeaders opts o (Add "Vary" "Origin" h) | None => Add "Vary" "Origin" h end
      !! "Vary" = Some vs ∧ "Origin" ∈ vs).
    { exists (default [] (h !! "Vary") ++ ["Origin"]). split; [|set_solver].
      destruct (resolveOrigin _ _) as [a|]; [|by apply lookup_insert_eq].
      destruct (allow_lookup opts a (Add "Vary" "Origin" h)) as (_ & _ & ->). by apply lookup_insert_eq. }
    destruct Hv as (vs & Hv & Hin). destruct (isPreflight r); simpl; [|by exists vs].
    exists (vs ++ ["Access-Control-Request-Method"; "Access-Control-Request-Headers"]).
    split; [|set_solver]. destruct (resolveOrigin _ _); rewrite ?preflight_keeps by (apply (bool_decide_unpack _); by vm_compute).
    all: unfold Add at 1; rewrite lookup_insert_eq; unfold Add at 1; rewrite lookup_insert_eq; rewrite Hv.
    all: simpl; by rewrite <- app_assoc.
  - unfold CORS. fold origin. rewrite bool_decide_false by done. destruct (isPreflight r); by eexists.
Qed.

(** A request without an Origin header gets no Vary, so a cache may keep that response and
    serve it, without access headers, to a page of an allowed origin. *)
Lemma no_origin_no_vary opts r :
  Get (header r) "Origin" = "" → headersOf (CORS opts r ∅) !! "Vary" = None.
Proof. intros Ho. unfold CORS. by rewrite bool_decide_true. Qed.

(** *** Concrete run *)

Definition exOpts : CORSOptions := CORSOpts ["https://app.example.com"; "*"] [] [] [] true 600.
Definition exPreflight : request :=
  Request "OPTIONS" {["Origin" := ["https://x.example"]; "Access-Control-Request-Method" := ["PUT"]]}.

Lemma cors_closed_by_default_witness :
  headersOf (CORS exOpts exPreflight ∅) !! ACAC = Some ["true"] ∧
  headersOf (CORS exOpts exPreflight ∅) !! ACAO = Some ["https://x.example"] ∧
  ∃ h', CORS exOpts exPreflight ∅ = Answer 204 h'.
Proof.
  destruct (cors_closed_by_default exOpts exPreflight ∅ (lookup_empty _) (lookup_empty _)) as [_ H].
  destruct H as (_ & _ & Hc & _ & Hp); [by vm_compute|].
  assert (Hac : headersOf (CORS exOpts exPreflight ∅) !! ACAC = Some ["true"]) by by vm_compute.
  split_and!; [exact Hac|apply (Hc _ Hac)|exact Hp].
Defined.

End Cors.

(** ** Same origin *)

Module Origin.
Import Headers Runes.

(** [strings.EqualFold], by its laws; on ASCII it ignores case. *)
Class Fold := {
  foldCase :: RuneCase;
  EqualFold : gostr → gostr → bool;
  EqualFold_refl s : EqualFold s s = true;
  EqualFold_sym s t : EqualFold s t = EqualFold t s;
  EqualFold_ascii s t :
    Forall (λ r, 0 ≤ r < 128)%Z s → Forall (λ r, 0 ≤ r < 128)%Z t →
    EqualFold s t = bool_decide ((toLower <$> s) = (toLower <$> t));
}.

Section Code.
  Context `{Fold}.
  (** [url.Parse(s)], as far as its Host is used; None is an error. *)
  Context (parseHost : gostr → option gostr).

Definition ToLower (s : gostr) : gostr := toLower <$> s.

(** [strings.TrimSuffix] of a slash. *)
Definition trimSlash (s : gostr) : gostr :=
  match last s with Some r => if bool_decide (r = 47%Z) then take (length s - 1) s else s | None => s end.

Definition normal (s : gostr) : gostr := ToLower (trimSlash s).

Definition null : gostr := lit "null".

(** [SameOriginCheck]: the Origin header of the request ([] when it has none) against the
    extra origins and the request's Host. *)
Definition SameOriginCheck (extraOrigins : list gostr) (origin host : gostr) : bool :=
  if bool_decide (origin = []) || EqualFold origin null then false
  else if bool_decide (normal origin ∈ normal <$> extraOrigins) then true
  else match parseHost origin with
       | None => false
       | Some h => if bool_decide (h = []) then false else EqualFold h host
       end.

Lemma trimSlash_once s : trimSlash (s ++ [47%Z]) = s.
Proof.
  unfold trimSlash. rewrite last_snoc, bool_decide_true by done. rewrite length_app. simpl.
  rewrite Nat.add_sub. apply take_app_length.
Qed.

(** What the check promises: no Origin and the opaque origin are refused whatever is
    allow-listed; without extra origins only the server's own host passes; an extra origin
    is accepted verbatim, also with one trailing slash; and extra origins only add. *)
Lemma same_origin_contract (extras : list gostr) (origin host : gostr) :
  SameOriginCheck extras [] host = false ∧
  (EqualFold origin null = true → SameOriginCheck extras origin host = false) ∧
  (SameOriginCheck [] origin host = true →
     ∃ h, parseHost origin = Some h ∧ h ≠ [] ∧ EqualFold h host = true) ∧
  (origin ∈ extras → origin ≠ [] → EqualFold origin null = false →
     SameOriginCheck extras origin host = true) ∧
  (SameOriginCheck [] origin host = true → SameOriginCheck extras origin host = true).
Proof.
  unfold SameOriginCheck. split_and!.
  - done.
  - intros ->. by rewrite orb_true_r.
  - destruct (_ || _); [done|]. rewrite bool_decide_false by (simpl; apply not_elem_of_nil).
    destruct (parseHost origin) as [h|]; [|done]. case_bool_decide; [done|]. by exists h.
  - intros Hin Hne Hn. rewrite Hn, bool_decide_false by done. simpl.
    by rewrite bool_decide_true by (by apply list_elem_of_fmap_2).
  - destruct (_ || _); [done|]. rewrite bool_decide_false by (simpl; apply not_elem_of_nil).
    case_bool_decide; [done|]. done.
Qed.

End Code.

End Origin.
