(* ===== verification/Mcp.v ===== *)
(** * Mcp: handlers as MCP tools (mcp_registry.go, mcp/mcp.go)

    [Tools] is the registry's side: which methods are tools, and what each tool is called,
    takes and binds to. [Rpc] is the adapter: one JSON-RPC message per HTTP request, run
    through [Invoke] of Pipeline.v. The JSON library's decoders and encoders are parameters;
    a JSON text is a string. *)

From S2P Require Import Prelude Protocol Runes Transform Registry Naming Schema Streaming Subscriptions Pipeline Dispatch Rest.
From stdpp Require Import prelude gmap strings list fin_maps fin_sets sorting pretty.

Module Tools.
Import Runes Transform Registry Naming Schema.

Record MCPTool := Tool {
  mt_Name : string;
  mt_Title : string;
  mt_Description : string;
  mt_ReadOnly : bool;
  mt_Destructive : bool;
  mt_Idempotent : bool;
  mt_OpenWorld : bool;
}.

Inductive mcpPanic :=
  | McpUnregistered (name : string)
  | McpNoMethod (method name : string)
  | McpStreaming (wire : string)
  | McpNameTaken (name prev wire : string)
  | McpToolless (groups : list string).

(** [EnableMCP]: [opts] are the tools in the order the map is walked. *)
Fixpoint enableTools {M} (g : @HandlerGroup M) (name : string) (opts : list (string * MCPTool))
    (mcpTools : gmap string MCPTool) : res mcpPanic (gmap string MCPTool) :=
  match opts with
  | [] => Ok mcpTools
  | (methodName, tool) :: opts =>
      match gr_handlers g !! methodName with
      | None => Err (McpNoMethod methodName name)
      | Some info =>
          if bool_decide (hi_kind info = HandlerKindUnary)
          then enableTools g name opts (<[wireMethod name methodName := tool]> mcpTools)
          else Err (McpStreaming (wireMethod name methodName))
      end
  end.

Definition EnableMCP {M} (r : @Registry M) (mcpTools : gmap string MCPTool) (name : string)
    (opts : list (string * MCPTool)) : res mcpPanic (gmap string MCPTool) :=
  match r_groups r !! name with
  | None => Err (McpUnregistered name)
  | Some g => enableTools g name opts mcpTools
  end.

Record MCPToolParam := ToolParam { tp_Name : string; tp_Struct : bool; tp_Required : bool }.

Record MCPToolInfo {Num : Type} := ToolInfo {
  ti_Name : string;
  ti_Title : string;
  ti_Description : string;
  ti_Method : string;
  ti_InputSchema : JSONSchema Num;
  ti_ReadOnly : bool;
  ti_Destructive : bool;
  ti_Idempotent : bool;
  ti_OpenWorld : bool;
  ti_Params : list MCPToolParam;
  ti_SingleStruct : bool;
}.
Arguments MCPToolInfo Num : clear implicits.

Section Code.
  Context {Mw Num : Type} `{RuneCase} `{SchemaSource goType Num}.
  (** A Go string as runes and back. *)
  Context (decode : string → gostr) (encode : gostr → string).
  (** The documentation: godoc text and parameter names. *)
  Context (handlerDoc : string → string → string) (paramNames : string → string → list string).
  Context (reg : @Registry Mw).

Definition snake (s : string) : string := encode (toSnake (decode s)).

Definition isStruct (t : goType) : bool := match unptr t with TStruct _ => true | _ => false end.
Definition isPointer (t : goType) : bool := match t with TPtr _ => true | _ => false end.

(** The name of the i-th parameter. *)
Definition paramName (names : list string) (i : nat) : string :=
  match names !! i with Some n => n | None => "arg" +:+ pretty i end.

Definition toolParam (names : list string) (i : nat) (p : ParamInfo) : MCPToolParam :=
  ToolParam (paramName names i) (isStruct (pi_type p)) (negb (isPointer (pi_type p))).

(** The loop of [mcpBinding]: parameters, properties, required names. *)
Fixpoint bindLoop (names : list string) (i : nat) (ps : list ParamInfo) (params : list MCPToolParam)
    (props : list (gostr * JSONSchema Num)) (req : list gostr)
    : list MCPToolParam * list (gostr * JSONSchema Num) * list gostr :=
  match ps with
  | [] => (params, props, req)
  | p :: ps =>
      let mp := toolParam names i p in
      let name := decode (tp_Name mp) in
      bindLoop names (S i) ps (params ++ [mp]) (setProp name (schemaFor (pi_type p)) props)
        (if tp_Required mp then req ++ [name] else req)
  end.

(** A struct parameter of which the schema is an object is the arguments object itself. *)
Definition singleStruct (ps : list ParamInfo) : option ParamInfo :=
  match ps with
  | [p] => if isStruct (pi_type p) && bool_decide (Type_ (schemaFor (pi_type p)) = "object")
           then Some p else None
  | _ => None
  end.

Definition mcpBinding (info : HandlerInfo) : list MCPToolParam * bool * JSONSchema Num :=
  match singleStruct (hi_params info) with
  | Some p =>
      ([ToolParam "" true (negb (isPointer (pi_type p)))], true, schemaFor (pi_type p))
  | None =>
      let '(params, props, req) :=
        bindLoop (paramNames (hi_structName info) (hi_name info)) 0 (hi_params info) [] [] [] in
      (params, false, JSch Num "object" noFacets props (sortNames req) None None None [])
  end.

(** The descriptor of a tool. *)
Definition toolInfo (wire : string) (tool : MCPTool) (info : HandlerInfo) : MCPToolInfo Num :=
  let '(params, single, schema) := mcpBinding info in
  ToolInfo Num
    (if bool_decide (mt_Name tool = "")
     then snake (hi_structName info) +:+ "_" +:+ snake (hi_name info) else mt_Name tool)
    (mt_Title tool)
    (if bool_decide (mt_Description tool = "")
     then encode (trimSpace (decode (handlerDoc (hi_structName info) (hi_name info))))
     else mt_Description tool)
    wire schema (mt_ReadOnly tool) (mt_Destructive tool) (mt_Idempotent tool) (mt_OpenWorld tool)
    params single.

#[local] Arguments toolInfo : simpl never.

(** The loop of [MCPTools]; a method that is gone is skipped. *)
Fixpoint toolLoop (entries : list (string * MCPTool)) (seen : gmap string string)
    (tools : list (MCPToolInfo Num)) : res mcpPanic (list (MCPToolInfo Num)) :=
  match entries with
  | [] => Ok tools
  | (wire, tool) :: entries =>
      match lookupMethod reg wire with
      | None => toolLoop entries seen tools
      | Some info =>
          let ti := toolInfo wire tool info in
          match seen !! ti_Name ti with
          | Some prev => Err (McpNameTaken (ti_Name ti) prev wire)
          | None => toolLoop entries (<[ti_Name ti := wire]> seen) (tools ++ [ti])
          end
      end
  end.

Definition byName (a b : MCPToolInfo Num) : Prop := String.le (ti_Name a) (ti_Name b).

#[local] Instance byName_dec a b : Decision (byName a b).
Proof. unfold byName. apply _. Defined.

(** [MCPTools]: [entries] is the tool map in the order the range visits it. *)
Definition MCPTools (entries : list (string * MCPTool)) : res mcpPanic (list (MCPToolInfo Num)) :=
  ts ← toolLoop entries ∅ []; Ok (merge_sort byName ts).

(** ** Facts *)

Definition resolved (e : string * MCPTool) : option (MCPToolInfo Num) :=
  toolInfo e.1 e.2 <$> lookupMethod reg e.1.

Lemma toolLoop_spec entries seen tools ts :
  toolLoop entries seen tools = Ok ts ↔
  NoDup (ti_Name <$> omap resolved entries) ∧
  (∀ n, n ∈ ti_Name <$> omap resolved entries → seen !! n = None) ∧
  ts = tools ++ omap resolved entries.
Proof.
  revert seen tools. induction entries as [|[wire tool] entries IH]; intros seen tools; simpl.
  - rewrite app_nil_r. split; [intros [= <-]; split_and!; [constructor|set_solver|done]|].
    by intros (_ & _ & ->).
  - change (resolved (wire, tool)) with (toolInfo wire tool <$> lookupMethod reg wire).
    destruct (lookupMethod reg wire) as [info|]; simpl; [|apply IH].
    set (ti := toolInfo wire tool info). rewrite NoDup_cons.
    destruct (seen !! ti_Name ti) as [prev|] eqn:Es.
    + split; [done|]. intros (_ & Hs & _). specialize (Hs (ti_Name ti) ltac:(left)). congruence.
    + rewrite IH, <- app_assoc. split.
      * intros (Hn & Hs & ->). split_and!; [|done| |done].
        -- intros Hin. apply Hs in Hin. by rewrite lookup_insert_eq in Hin.
        -- intros n [->|Hin]%elem_of_cons; [done|]. apply Hs in Hin.
           by apply lookup_insert_None in Hin as [? _].
      * intros ([Hni Hn] & Hs & ->). split_and!; [done| |done]. intros n Hin.
        rewrite lookup_insert_ne by (intros <-; done). apply Hs. by right.
Qed.

Lemma toolInfo_eq wire tool info :
  ∃ name desc, toolInfo wire tool info =
    ToolInfo Num name (mt_Title tool) desc wire (mcpBinding info).2 (mt_ReadOnly tool)
      (mt_Destructive tool) (mt_Idempotent tool) (mt_OpenWorld tool)
      (mcpBinding info).1.1 (mcpBinding info).1.2.
Proof. unfold toolInfo. destruct (mcpBinding info) as [[params single] schema]. by eexists _, _. Qed.

(** *** Binding plans *)

Lemma bindLoop_params names i ps params props req :
  (bindLoop names i ps params props req).1.1 = params ++ imap (λ k, toolParam names (i + k)) ps.
Proof.
  revert i params props req. induction ps as [|p ps IH]; intros i params props req; simpl;
    [by rewrite app_nil_r|].
  rewrite IH, <- app_assoc, Nat.add_0_r. f_equal. simpl. f_equal. apply imap_ext. intros k q _.
  simpl. by rewrite Nat.add_succ_r.
Qed.

Lemma bindLoop_required names i ps params props req :
  let '(P, _, R) := bindLoop names i ps params props req in
  R = req ++ ((λ mp, decode (tp_Name mp)) <$> filter (λ mp, tp_Required mp = true) (drop (length params) P)) ∧
  take (length params) P = params.
Proof.
  revert i params props req. induction ps as [|p ps IH]; intros i params props req; cbn [bindLoop].
  { rewrite drop_all, firstn_all. by rewrite app_nil_r. }
  set (mp := toolParam names i p). specialize (IH (S i) (params ++ [mp])
    (setProp (decode (tp_Name mp)) (schemaFor (pi_type p)) props)
    (if tp_Required mp then req ++ [decode (tp_Name mp)] else req)).
  destruct (bindLoop _ _ _ _ _ _) as [[P Q] R]. destruct IH as [-> Ht]. rewrite length_app, Nat.add_1_r in *.
  assert (HP : P = params ++ mp :: drop (S (length params)) P).
  { pose proof (take_drop (S (length params)) P) as E. by rewrite Ht, <- app_assoc in E. }
  assert (Hd : drop (length params) P = mp :: drop (S (length params)) P).
  { rewrite HP at 1. by rewrite drop_app_length. }
  rewrite Hd, filter_cons. split.
  - destruct (tp_Required mp); simpl; [by rewrite <- app_assoc|done].
  - rewrite HP. by rewrite take_app_length.
Qed.

(** The collected properties and required names stay well-formed. *)
Definition collected (props : list (gostr * JSONSchema Num)) (req : list gostr) : Prop :=
  NoDup props.*1 ∧ (∀ n, n ∈ req → n ∈ props.*1) ∧
  Forall (λ p, refNames p.2 = [] ∧ wfSchema p.2) props.

Lemma bindLoop_collected names i ps params props req :
  collected props req → let '(_, Q, R) := bindLoop names i ps params props req in collected Q R.
Proof.
  revert i params props req. induction ps as [|p ps IH]; intros i params props req Hc; [done|].
  cbn [bindLoop]. apply IH. destruct Hc as (Hd & Hr & Hf). split_and!.
  - by apply setProp_NoDup.
  - intros n Hn. apply setProp_names. destruct (tp_Required _); [|right; by apply Hr].
    apply elem_of_app in Hn as [Hn|Hn]; [right; by apply Hr|left; by apply list_elem_of_singleton in Hn].
  - apply Forall_app. split; [|apply Forall_singleton; split; [apply schemaFor_self|apply schemaFor_wf]].
    apply Forall_forall. intros q [_ Hq]%list_elem_of_filter. by eapply Forall_forall in Hf.
Qed.

Lemma collected_schema props req d :
  collected props req →
  let s := JSch Num "object" noFacets props (sortNames req) None None None d in
  refNames s = [] ∧ wfSchema s.
Proof.
  intros (Hd & Hr & Hf). split; simpl.
  - rewrite app_nil_r. clear Hd Hr. induction Hf as [|p props [Hp _] _ IH]; [done|]. simpl. by rewrite Hp, IH.
  - split_and!; try done.
    + intros n Hn. apply Hr. unfold sortNames in Hn. by rewrite merge_sort_Permutation in Hn.
    + clear Hd Hr. by induction Hf as [|p props [_ Hp] _ IH].
Qed.

Lemma mcpBinding_sound info :
  let '(params, single, schema) := mcpBinding info in
  length params = length (hi_params info) ∧ refNames schema = [] ∧ wfSchema schema ∧
  Type_ schema = "object" ∧
  (single = false →
     params = imap (toolParam (paramNames (hi_structName info) (hi_name info))) (hi_params info) ∧
     Required schema ≡ₚ (λ mp, decode (tp_Name mp)) <$> filter (λ mp, tp_Required mp = true) params).
Proof.
  unfold mcpBinding. destruct (singleStruct (hi_params info)) as [p|] eqn:E.
  - unfold singleStruct in E. destruct (hi_params info) as [|q [|]]; try done.
    destruct (isStruct (pi_type q)); [|done]. simpl in E. case_bool_decide as Ht; [|done].
    injection E as <-. split_and!; [done|apply schemaFor_self|apply schemaFor_wf|done|done].
  - set (names := paramNames _ _).
    pose proof (bindLoop_params names 0 (hi_params info) [] [] []) as Hp.
    pose proof (bindLoop_required names 0 (hi_params info) [] [] []) as Hr.
    pose proof (bindLoop_collected names 0 (hi_params info) [] [] []) as Hc.
    destruct (bindLoop _ _ _ _ _ _) as [[P Q] R]. simpl in Hp. subst P. destruct Hr as [-> _].
    rewrite drop_0. destruct (collected_schema Q _ [] (Hc ltac:(split_and!; [constructor|set_solver|constructor]))) as [H1 H2].
    split_and!; [by rewrite length_imap|exact H1|exact H2|done|].
    intros _. split; [done|]. simpl. unfold sortNames. by rewrite merge_sort_Permutation.
Qed.

(** The tool list is well-defined. It does not depend on the order in which the map of
    enabled methods is walked: another order gives the same list (and where one order finds
    a name taken twice, so does every other). The list is sorted by name and the names are
    distinct, so a tools/call names one method. Every tool is the descriptor of an enabled
    method that exists; its input schema is a self-contained object schema that requires
    only properties it declares, and its binding plan has one entry per parameter. *)
Theorem mcp_tools_sound entries entries' ts :
  entries ≡ₚ entries' → MCPTools entries = Ok ts →
  MCPTools entries' = Ok ts ∧ NoDup (ti_Name <$> ts) ∧ StronglySorted byName ts ∧
  ∀ ti, ti ∈ ts → ∃ tool info,
    (ti_Method ti, tool) ∈ entries ∧ lookupMethod reg (ti_Method ti) = Some info ∧
    ti = toolInfo (ti_Method ti) tool info ∧ length (ti_Params ti) = length (hi_params info) ∧
    Type_ (ti_InputSchema ti) = "object" ∧ refNames (ti_InputSchema ti) = [] ∧ wfSchema (ti_InputSchema ti).
Proof.
  intros Hp H1. unfold MCPTools in *. apply bind_Ok in H1 as (l & Hl & [= <-]).
  apply toolLoop_spec in Hl as (Hn & _ & Hl). simpl in Hl. subst l.
  assert (Hperm : omap resolved entries ≡ₚ omap resolved entries') by by rewrite Hp.
  assert (Hl' : toolLoop entries' ∅ [] = Ok (omap resolved entries')).
  { apply toolLoop_spec. split_and!; [by rewrite <- Hperm|intros; apply lookup_empty|done]. }
  rewrite Hl'. simpl.
  assert (Hnd : NoDup (ti_Name <$> merge_sort byName (omap resolved entries)))
    by by rewrite merge_sort_Permutation.
  assert (Htr : Transitive byName) by (intros a b c; unfold byName; by etrans).
  assert (Hto : Total byName) by (intros a b; unfold byName; apply (total String.le)).
  split_and!; [|done|by apply StronglySorted_merge_sort|].
  - f_equal. apply (StronglySorted_unique_strong byName).
    + intros x y Hx Hy Hxy Hyx. rewrite merge_sort_Permutation in Hx, Hy. rewrite <- Hperm in Hx.
      apply (NoDup_fmap_eq ti_Name (omap resolved entries)); [done..|]. by apply (anti_symm String.le).
    + by apply StronglySorted_merge_sort.
    + by apply StronglySorted_merge_sort.
    + by rewrite !merge_sort_Permutation.
  - intros ti Hti. rewrite merge_sort_Permutation in Hti.
    apply list_elem_of_omap in Hti as ([wire tool] & Hin & Hti). unfold resolved in Hti. simpl in Hti.
    destruct (lookupMethod reg wire) as [info|] eqn:El; [|done]. injection Hti as <-.
    pose proof (mcpBinding_sound info) as Hs. destruct (mcpBinding info) as [[params single] schema] eqn:Eb.
    destruct Hs as (H1 & H2 & H3 & H4 & _). exists tool, info. unfold toolInfo. rewrite Eb. simpl.
    split_and!; done.
Qed.

End Code.

(** *** Concrete run: two tools, enabled in either order *)

#[local] Existing Instance asciiCase.

Definition exAdd : HandlerInfo :=
  Info "Add" [Param (TBasic KInt) false; Param (TPtr (TStruct "Opts")) false] (TStruct "R") "Users" false
    HandlerKindUnary None.
Definition exDel : HandlerInfo :=
  Info "Del" [Param (TBasic KInt) false] (TStruct "R") "Users" false HandlerKindUnary None.

Definition exToolReg {Mw} : @Registry Mw :=
  Reg {["Users.Add" := exAdd; "Users.Del" := exDel]} ∅ [] ∅ [] [] 1000 [] ∅ ∅.

Definition exTool (name : string) : MCPTool := Tool name "" "" false false false false.

Definition exSource : SchemaSource goType Z.
Proof.
  refine {| schemaFor _ := JSch Z "integer" noFacets [] [] None None None [] |}; [done|].
  intros _. simpl. split_and!; try done. constructor.
Defined.

Definition exTools (entries : list (string * MCPTool)) : res mcpPanic (list (MCPToolInfo Z)) :=
  MCPTools (H0 := exSource) lit (λ _, "") (λ _ _, "") (λ _ _, ["id"]) (exToolReg (Mw := unit)) entries.

Definition exEntries : list (string * MCPTool) :=
  [("Users.Del", exTool "users_del"); ("Users.Add", exTool "users_add"); ("Gone.Now", exTool "gone")].

Definition exInfos : list (MCPToolInfo Z) := match exTools exEntries with Ok ts => ts | Err _ => [] end.

Lemma mcp_tools_sound_witness :
  ti_Name <$> exInfos = ["users_add"; "users_del"] ∧ exTools (reverse exEntries) = Ok exInfos.
Proof.
  split; [vm_compute; reflexivity|].
  refine (proj1 (mcp_tools_sound (H0 := exSource) lit (λ _, "") (λ _ _, "") (λ _ _, ["id"])
    (exToolReg (Mw := unit)) exEntries (reverse exEntries) exInfos _ _)).
  - symmetry. apply reverse_Permutation.
  - vm_compute. reflexivity.
Defined.

End Tools.

Module Rpc.
Import Protocol Runes Transform Registry Pipeline Schema Tools.
Import Rest.Adapter(wrote, muteCode, carriesQueue, handlerQuiet, mc_provider, adapter_quiet_buildHandler).

Definition protocolVersion : string := "2025-06-18".
Definition supportedVersions : list string := ["2025-06-18"; "2025-03-26"; "2024-11-05"].

Record Options := Opts {
  ServerName : string; ServerTitle : string; ServerVersion : string; Instructions : string;
}.

(** A decoded message; [rq_ID] is the raw text of the id, empty when absent. *)
Record rpcRequest := RpcReq { rq_ID : string; rq_Method : string; rq_Params : string }.

Record rpcError := RpcErr { re_Code : Z; re_Message : string }.

(** What a method returns, before it is marshaled. *)
Inductive rpcResult {Num : Type} :=
  | RInitialize (version : string) (opts : Options)
  | RPong
  | RTools (tools : list (MCPToolInfo Num))
  | RTool (structured : option string) (text : string) (isError : bool).
Arguments rpcResult Num : clear implicits.

Record httpRequest := HttpReq { hr_Method : string; hr_Body : option string }.

(** A JSON array from its parts. *)
Definition jsonArray (parts : list string) : string := "[" +:+ String.concat "," parts +:+ "]".

Definition absent (raw : string) : bool := bool_decide (raw = "") || bool_decide (raw = "null").

(** [errors.As] for a [*ProtocolError]: the first in the tree, depth first. *)
Fixpoint errorsAs (e : goerr) : option (Z * string) :=
  match e with
  | EProto _ code m _ _ => Some (code, m)
  | ECancel _ => None
  | EOther _ _ ws => foldr (λ w rest, match errorsAs w with Some p => Some p | None => rest end) None ws
  end.

(** A name in quotes: [%q] of a Go identifier. *)
Definition quoted (s : string) : string :=
  let q := String (Ascii.ascii_of_nat 34) EmptyString in q +:+ s +:+ q.

(** The minimal error of [writeResult]; it has no id. *)
Definition handBuilt : string :=
  "{" +:+ quoted "jsonrpc" +:+ ":" +:+ quoted "2.0" +:+ "," +:+ quoted "error" +:+ ":{" +:+
  quoted "code" +:+ ":-32603," +:+ quoted "message" +:+ ":" +:+
  quoted "failed to marshal response" +:+ "}}".

Section Adapter.
  Context {P V Num : Type}.
  Abbreviation ctx := (@ctx P).
  Abbreviation result := (@result V).
  Abbreviation Middleware := (@Middleware P V).
  Context (reg : @Registry Middleware) (serverMW : list Middleware).
  Context (Call CallStream : HandlerInfo → ctx → string → M (res goerr result)).
  Context (provider : nat → option (ctx → M (res goerr P))).
  (** [result == nil], and [MarshalWire]. *)
  Context (isNil : result → bool) (MarshalWire : result → Dispatch.encoding).
  (** The JSON library: the message, its params, an object, and the two kinds of response. *)
  Context (unmarshalRequest : string → option rpcRequest).
  Context (unmarshalVersion : string → string).
  Context (unmarshalCall : string → option (string * string)).
  Context (unmarshalObject : string → option (gmap string string)).
  Context (marshalSuccess : string → rpcResult Num → option string).
  Context (marshalFailure : option string → rpcError → option string).

(** *** Construction *)

Record Adapter := NewAd {
  ad_opts : Options;
  ad_tools : gmap string (MCPToolInfo Num);
  ad_order : list string;
}.

(** [strings.Cut(t.Method, ".")], of which the part before is used. *)
Definition groupOf (method : string) : string :=
  match cutDot method with Some (g, _) => g | None => method end.

(** [NewAdapter], given what [MCPTools] returned. *)
Definition NewAdapter (opts : Options) (infos : list (MCPToolInfo Num)) : res mcpPanic Adapter :=
  let opts := Opts (if bool_decide (ServerName opts = "") then "aprot" else ServerName opts)
                (ServerTitle opts)
                (if bool_decide (ServerVersion opts = "") then "0.0.0" else ServerVersion opts)
                (Instructions opts) in
  let toolGroups := groupOf ∘ ti_Method <$> infos in
  let toolless := filter (λ name, name ∈ r_mcpOnlyGroups reg ∧ name ∉ toolGroups)
                    (elements (dom (r_groups reg))) in
  match toolless with
  | [] => Ok (NewAd opts (foldl (λ m t, <[ti_Name t := t]> m) ∅ infos) (ti_Name <$> infos))
  | _ => Err (McpToolless (Rest.Routes.sortStrings toolless))
  end.

(** *** Methods *)

Definition initialize (a : Adapter) (params : string) : rpcResult Num :=
  let asked := unmarshalVersion params in
  RInitialize (if bool_decide (asked ∈ supportedVersions) then asked else protocolVersion) (ad_opts a).

Definition listTools (a : Adapter) : rpcResult Num :=
  RTools (omap (λ name, ad_tools a !! name) (ad_order a)).

Definition toolResult (structured : option string) (text : string) (isErr : bool) : rpcResult Num :=
  RTool structured text isErr.

(** The loop of [bindArguments]. *)
Fixpoint bindParts (argMap : gmap string string) (params : list MCPToolParam)
    : res rpcError (list string) :=
  match params with
  | [] => Ok []
  | param :: params =>
      match argMap !! tp_Name param with
      | Some v => vs ← bindParts argMap params; Ok (v :: vs)
      | None =>
          if tp_Required param
          then Err (RpcErr CodeInvalidParams ("missing required argument " +:+ quoted (tp_Name param)))
          else vs ← bindParts argMap params; Ok ("null" :: vs)
      end
  end.

Definition bindArguments (tool : MCPToolInfo Num) (arguments : string) : res rpcError string :=
  if ti_SingleStruct tool then
    if absent arguments then
      if match ti_Params tool with p :: _ => tp_Required p | [] => false end
      then Err (RpcErr CodeInvalidParams "missing arguments")
      else Ok "[null]"
    else Ok (jsonArray [arguments])
  else
    argMap ← (if absent arguments then Ok ∅
              else match unmarshalObject arguments with
                   | Some m => Ok m
                   | None => Err (RpcErr CodeInvalidParams "arguments must be an object")
                   end);
    parts ← bindParts argMap (ti_Params tool);
    Ok (jsonArray parts).

(** What [callTool] makes of the outcome of [Invoke]. *)
Definition toolOutcome (r : res goerr result) : M (res rpcError (rpcResult Num)) :=
  match r with
  | Err e =>
      match errorsAs e with
      | Some (code, m) =>
          if bool_decide (code = CodeInvalidParams) then mret (Err (RpcErr CodeInvalidParams m))
          else mret (Ok (toolResult None (errorText e) true))
      | None => mret (Ok (toolResult None (errorText e) true))
      end
  | Ok v =>
      if isNil v then mret (Ok (toolResult None "OK" false))
      else match MarshalWire v with
           | Dispatch.EncOk data => mret (Ok (toolResult (Some data) data false))
           | Dispatch.EncErr text =>
               mret (Ok (toolResult None ("failed to marshal tool result: " +:+ text) true))
           | Dispatch.EncPanic abort => throw abort
           end
  end.

Definition callTool (a : Adapter) (c : ctx) (params : string) : M (res rpcError (rpcResult Num)) :=
  match unmarshalCall params with
  | None => mret (Err (RpcErr CodeInvalidParams "invalid tools/call params"))
  | Some (name, arguments) =>
      match ad_tools a !! name with
      | None => mret (Err (RpcErr CodeInvalidParams ("unknown tool: " +:+ name)))
      | Some tool =>
          match bindArguments tool arguments with
          | Err e => mret (Err e)
          | Ok positional =>
              r ← Invoke reg serverMW Call CallStream provider c (ti_Method tool) positional;
              toolOutcome r
          end
      end
  end.

(** *** One HTTP request *)

Definition writeResult (id : string) (r : rpcResult Num) : M unit :=
  emit (Wrote 200 (BodyJSON (default handBuilt (marshalSuccess id r)))).

Definition writeError (status : Z) (id : option string) (e : rpcError) : M unit :=
  emit (Wrote status (BodyJSON (default "" (marshalFailure id e)))).

(** The method switch. *)
Definition dispatchMethod (a : Adapter) (c : ctx) (req : rpcRequest) : M (res rpcError (rpcResult Num)) :=
  if bool_decide (rq_Method req = "initialize") then mret (Ok (initialize a (rq_Params req)))
  else if bool_decide (rq_Method req = "ping") then mret (Ok RPong)
  else if bool_decide (rq_Method req = "tools/list") then mret (Ok (listTools a))
  else if bool_decide (rq_Method req = "tools/call") then callTool a c (rq_Params req)
  else mret (Err (RpcErr CodeMethodNotFound ("method not found: " +:+ rq_Method req))).

(** The recover around the switch. *)
Definition rpcRecover (method : string) (abort : bool) : M (res rpcError (rpcResult Num)) :=
  if abort then throw true
  else (_ ← emit (LoggedPanic method); mret (Err (RpcErr CodeInternalError "handler panicked"))).

(** [http.MaxBytesReader(w, r.Body, 4<<20)] under [io.ReadAll]. *)
Definition readAll (body : option string) : option string :=
  b ← body; if bool_decide (Z.of_nat (String.length b) ≤ Z.shiftl 4 20)%Z then Some b else None.

Definition startsBatch (body : string) : bool :=
  match body with String ch _ => Ascii.eqb ch (Ascii.ascii_of_nat 91) | EmptyString => false end.

Definition ServeHTTP (a : Adapter) (c : ctx) (r : httpRequest) : M unit :=
  if bool_decide (hr_Method r ≠ "POST") then emit (Wrote 405 (BodyText "method not allowed"))
  else match readAll (hr_Body r) with
  | None => writeError 400 None (RpcErr CodeParseError "failed to read request body")
  | Some body =>
      match unmarshalRequest body with
      | None =>
          if startsBatch body
          then writeError 400 None (RpcErr CodeInvalidRequest "batch requests are not supported")
          else writeError 400 None (RpcErr CodeParseError "invalid JSON-RPC message")
      | Some req =>
          if absent (rq_ID req) then emit (Wrote 202 NoBody)
          else
            rr ← recover (rpcRecover (rq_Method req)) (dispatchMethod a c req);
            match rr with
            | Err e => writeError 200 (Some (rq_ID req)) e
            | Ok v => writeResult (rq_ID req) v
            end
      end
  end.

(** *** Arguments *)

Lemma bindParts_spec argMap params :
  match bindParts argMap params with
  | Ok parts =>
      parts = (λ mp, default "null" (argMap !! tp_Name mp)) <$> params ∧
      ∀ mp, mp ∈ params → tp_Required mp = true → is_Some (argMap !! tp_Name mp)
  | Err e => ∃ mp, mp ∈ params ∧ tp_Required mp = true ∧ argMap !! tp_Name mp = None ∧
      e = RpcErr CodeInvalidParams ("missing required argument " +:+ quoted (tp_Name mp))
  end.
Proof.
  induction params as [|mp params IH]; simpl; [split; [done|set_solver]|].
  destruct (argMap !! tp_Name mp) as [v|] eqn:E.
  - destruct (bindParts argMap params) as [vs|e]; simpl; [|destruct IH as (q & ? & ?); exists q; set_solver].
    destruct IH as [-> Hr]. split; [done|]. intros q [->|Hq]%elem_of_cons ?; [by rewrite E|by apply Hr].
  - destruct (tp_Required mp) eqn:Er; [exists mp; by split_and!; [left| | |]|].
    destruct (bindParts argMap params) as [vs|e]; simpl; [|destruct IH as (q & ? & ?); exists q; set_solver].
    destruct IH as [-> Hr]. split; [done|]. intros q [->|Hq]%elem_of_cons ?; [congruence|by apply Hr].
Qed.

(** The arguments object; absent arguments are an empty one. *)
Definition argObject (arguments : string) : option (gmap string string) :=
  if absent arguments then Some ∅ else unmarshalObject arguments.

(** *** Responses *)

(** The message a request carries, if it carries one. *)
Definition message (r : httpRequest) : option rpcRequest :=
  if bool_decide (hr_Method r = "POST") then readAll (hr_Body r) ≫= unmarshalRequest else None.

(** The answer to a request, by how the method ended: an error or a result made for the
    request's own id, or, when the result cannot be marshaled, the hand-built error, which has no
    id; an error that cannot be marshaled leaves the body empty. *)
Inductive answer (id : string) : res rpcError (rpcResult Num) → httpBody → Prop :=
  | AnswerResult v text : marshalSuccess id v = Some text → answer id (Ok v) (BodyJSON text)
  | AnswerError e text : marshalFailure (Some id) e = Some text → answer id (Err e) (BodyJSON text)
  | AnswerUncorrelated v : marshalSuccess id v = None → answer id (Ok v) (BodyJSON handBuilt)
  | AnswerEmpty e : marshalFailure (Some id) e = None → answer id (Err e) (BodyJSON "").

(** User code writes no response. *)
Definition silentEv (e : ev) : Prop := wrote e = false.

Section Muted.
  Context (Hmute : muteCode reg Call CallStream provider [] (Some serverMW) silentEv).

Lemma silent_processRefreshQueue q : quiet silentEv (processRefreshQueue q).
Proof.
  intros s. destruct (processRefreshQueue_run q s) as (s' & -> & Hl & _).
  exists (flushLog (queueOf s q)). split; [done|]. destruct (queueOf s q); by repeat constructor.
Qed.

(** [invoke], with a queue of its own to flush or without. *)
Lemma silent_invoke c info req : quiet silentEv (invoke reg serverMW Call CallStream provider c info req).
Proof.
  unfold invoke. apply quiet_recover.
  2: { intros []; [apply quiet_throw|].
       apply quiet_bind; [by apply quiet_emit|intros ?; apply quiet_ret]. }
  apply quiet_bind.
  { unfold invokePrincipal. destruct (principalResolved c); [apply quiet_ret|].
    destruct (Connection c) as [k|]; [|apply quiet_ret]. unfold resolvePrincipal.
    destruct (provider k) as [p|] eqn:E; [|apply quiet_ret].
    apply quiet_bind; [by eapply (mc_provider _ _ _ _ _ _ _ Hmute)|]. intros [v|e]; apply quiet_ret. }
  intros [c1 [e|]]; [apply quiet_ret|]. intros s.
  set (c2 := VRequest req :: VHandlerInfo info :: c1).
  assert (∃ s1 c3 q owned, invokeQueue c2 s = (s1, Ret (c3, q, owned)) ∧ st_log s1 = st_log s ∧
    is_Some (refreshQueueOf c3)) as (s1 & c3 & q & owned & E & Hl & Hq).
  { unfold invokeQueue. destruct (refreshQueueOf c2) eqn:Eq; do 4 eexists; split_and!; try reflexivity;
      [by rewrite Eq|by eexists]. }
  rewrite (run_bind _ _ _ _ _ E). eapply ext_trans; [by apply ext_log|].
  apply quiet_bind.
  { by apply (adapter_quiet_buildHandler _ _ _ _ _ _ _ Hmute); [|right]. }
  intros [v|e]; [|apply quiet_ret]. apply quiet_bind; [|intros ?; apply quiet_ret].
  destruct owned; [apply silent_processRefreshQueue|apply quiet_ret].
Qed.

Lemma silent_Invoke c method params : quiet silentEv (Invoke reg serverMW Call CallStream provider c method params).
Proof.
  unfold Invoke. destruct (lookupMethod reg method) as [info|]; [|apply quiet_ret].
  case_bool_decide; [|apply quiet_ret]. apply silent_invoke.
Qed.

Lemma silent_toolOutcome r : quiet silentEv (toolOutcome r).
Proof. intros s. apply ext_log. unfold toolOutcome. by repeat case_match. Qed.

Lemma silent_callTool a c params : quiet silentEv (callTool a c params).
Proof.
  unfold callTool. destruct (unmarshalCall params) as [[name arguments]|]; [|apply quiet_ret].
  destruct (ad_tools a !! name) as [tool|]; [|apply quiet_ret].
  destruct (bindArguments tool arguments); [|apply quiet_ret].
  apply quiet_bind; [apply silent_Invoke|intros r; apply silent_toolOutcome].
Qed.

Lemma dispatch_silent a c req : quiet silentEv (dispatchMethod a c req).
Proof.
  unfold dispatchMethod. repeat case_bool_decide; try apply quiet_ret. apply silent_callTool.
Qed.

(** The switch under its recover: silent, and only [http.ErrAbortHandler] passes. *)
Lemma switch_outcome a c req s s' o :
  recover (rpcRecover (rq_Method req)) (dispatchMethod a c req) s = (s', o) →
  ext silentEv s s' ∧ o ≠ Panic false ∧ (o = Panic true → rq_Method req = "tools/call").
Proof.
  intros E. split.
  - assert (Hs : quiet silentEv (recover (rpcRecover (rq_Method req)) (dispatchMethod a c req))).
    { apply quiet_recover; [apply dispatch_silent|]. intros []; [apply quiet_throw|].
      apply quiet_bind; [by apply quiet_emit|intros; apply quiet_ret]. }
    specialize (Hs s). by rewrite E in Hs.
  - unfold recover in E. destruct (dispatchMethod a c req s) as [s1 [v|b]] eqn:Ed; [by injection E as <- <-|].
    assert (rq_Method req = "tools/call") as Ht.
    { unfold dispatchMethod in Ed. repeat case_bool_decide; by simplify_eq/=. }
    destruct b; injection E as <- <-; by split.
Qed.

End Muted.

(** A struct-validation failure of a tool call is no -32602: it is a tool result, of which
    the text is the bare message, without the field errors of the error's data. *)
Lemma validation_failure_is_tool_result id data s :
  toolOutcome (Err (EProto id CodeValidationFailed "validation failed" None data)) s =
  (s, Ret (Ok (toolResult None "validation failed" true))).
Proof. reflexivity. Qed.

(** A result that cannot be marshaled is answered without the request's id. *)
Lemma unmarshalable_reply_uncorrelated id v s :
  marshalSuccess id v = None → writeResult id v s = emit (Wrote 200 (BodyJSON handBuilt)) s.
Proof. intros Hm. unfold writeResult. by rewrite Hm. Qed.


Section Binding.
  Context `{RuneCase} `{SchemaSource goType Num}.
  Context (decode : string → Runes.gostr) (encode : Runes.gostr → string).
  Context (handlerDoc : string → string → string) (paramNames : string → string → list string).

(** C12: the arguments a tool advertises are the arguments it binds. Of a tool with a named
    binding, the input schema requires exactly the names of the parameters that are no
    pointers. An arguments object binds exactly when it has all of those: the method gets a
    positional array with one entry per parameter, in the method's order, the object's value
    for the parameter's name or null; otherwise the call is refused with -32602 and names a
    missing argument. A single struct parameter takes the arguments object as it is, and
    null when it is a pointer and there is none. *)
Theorem mcp_arguments_bind wire tool info arguments :
  let ti := toolInfo decode encode handlerDoc paramNames wire tool info in
  let names := paramNames (hi_structName info) (hi_name info) in
  if ti_SingleStruct ti then
    ∃ p, hi_params info = [p] ∧
    bindArguments ti arguments =
      if absent arguments then
        if isPointer (pi_type p) then Ok "[null]" else Err (RpcErr CodeInvalidParams "missing arguments")
      else Ok (jsonArray [arguments])
  else
    Required (ti_InputSchema ti) ≡ₚ
      (decode ∘ tp_Name) <$> filter (λ mp, tp_Required mp = true) (ti_Params ti) ∧
    match argObject arguments with
    | None => bindArguments ti arguments = Err (RpcErr CodeInvalidParams "arguments must be an object")
    | Some obj =>
        match bindArguments ti arguments with
        | Ok positional => ∃ parts,
            positional = jsonArray parts ∧ length parts = length (hi_params info) ∧
            (∀ i p, hi_params info !! i = Some p →
               parts !! i = Some (default "null" (obj !! paramName names i)) ∧
               (isPointer (pi_type p) = false → is_Some (obj !! paramName names i)))
        | Err e => ∃ i p, hi_params info !! i = Some p ∧ isPointer (pi_type p) = false ∧
            obj !! paramName names i = None ∧
            e = RpcErr CodeInvalidParams ("missing required argument " +:+ quoted (paramName names i))
        end
    end.
Proof.
  intros ti names. unfold ti. destruct (toolInfo_eq decode encode handlerDoc paramNames wire tool info)
    as (nm & desc & ->). simpl.
  pose proof (mcpBinding_sound decode paramNames info) as Hs.
  unfold bindArguments. simpl. unfold mcpBinding in *.
  destruct (singleStruct (hi_params info)) as [p|] eqn:Es; simpl in *.
  { exists p. unfold singleStruct in Es. destruct (hi_params info) as [|q [|]]; try done.
    destruct (_ && _); [|done]. injection Es as <-. split; [done|]. by destruct (isPointer _). }
  destruct (bindLoop _ _ _ _ _ _ _) as [[params props] req]. simpl.
  destruct Hs as (_ & _ & _ & _ & Hs). destruct (Hs eq_refl) as [Hp Hreq]. split; [done|].
  assert (Hlk : ∀ i p, hi_params info !! i = Some p → params !! i = Some (toolParam names i p)).
  { intros i p Hi. rewrite Hp, list_lookup_imap, Hi. done. }
  unfold argObject. assert (Hmain : ∀ obj, match bindParts obj params with
    | Ok parts => ∃ parts', jsonArray parts = jsonArray parts' ∧ length parts' = length (hi_params info) ∧
        (∀ i p, hi_params info !! i = Some p →
           parts' !! i = Some (default "null" (obj !! paramName names i)) ∧
           (isPointer (pi_type p) = false → is_Some (obj !! paramName names i)))
    | Err e => ∃ i p, hi_params info !! i = Some p ∧ isPointer (pi_type p) = false ∧
        obj !! paramName names i = None ∧
        e = RpcErr CodeInvalidParams ("missing required argument " +:+ quoted (paramName names i)) end).
  { intros obj. pose proof (bindParts_spec obj params) as Hb. destruct (bindParts obj params) as [parts|e].
    - destruct Hb as [-> Hr]. eexists. split; [done|]. rewrite length_fmap. split; [by rewrite Hp, length_imap|].
      intros i p Hi. apply Hlk in Hi. split; [by rewrite list_lookup_fmap, Hi|]. intros Hptr.
      apply (Hr (toolParam names i p)); [by eapply list_elem_of_lookup_2|]. simpl. by rewrite Hptr.
    - destruct Hb as (mp & Hmp & Hr & Hn & ->). rewrite Hp in Hmp.
      apply elem_of_lookup_imap in Hmp as (i & p & -> & Hi). exists i, p. simpl in *.
      split_and!; [done|by destruct (isPointer _)|done|done]. }
  destruct (absent arguments); simpl.
  - specialize (Hmain ∅). by destruct (bindParts ∅ params).
  - destruct (unmarshalObject arguments) as [obj|]; simpl; [|done].
    specialize (Hmain obj). by destruct (bindParts obj params).
Qed.

End Binding.
End Adapter.

(** *** Concrete run: one tool call *)

Definition exReg : @Registry (@Middleware string nat) := exToolReg.

Definition exAdapter : Adapter (Num := Z) :=
  NewAd (Opts "aprot" "" "0.0.0" "") {["users_del" := nth 1 exInfos (toolInfo (H := asciiCase)
    (H0 := exSource) lit (λ _, "") (λ _ _, "") (λ _ _, []) "" (exTool "") exDel)]} ["users_del"].

Definition exServe (r : httpRequest) : St * out unit :=
  ServeHTTP (Num := Z) exReg [] exCall exCall Dispatch.exProvider (λ _, false) (λ _, Dispatch.EncOk "7")
    (λ b, if bool_decide (b = "call") then Some (RpcReq "1" "tools/call" "p")
          else if bool_decide (b = "note") then Some (RpcReq "" "tools/call" "p") else None)
    (λ _, "") (λ _, Some ("users_del", "obj")) (λ _, Some {["id" := "5"]})
    (λ id v, match v with RTool (Some d) _ _ => Some (id +:+ "=" +:+ d) | _ => None end)
    (λ _ e, Some (re_Message e)) exAdapter [] r exState.

Lemma exRpcMute : muteCode exReg exCall exCall Dispatch.exProvider [] (Some []) silentEv.
Proof.
  assert (∀ info c p, quiet silentEv (exCall info c p)) as Hcall.
  { intros info c p. apply quiet_bind; [|intros _; apply quiet_ret].
    intros s. apply ext_log. unfold TriggerRefreshCtx. by destruct (refreshQueueOf c). }
  split; [done|done|done|done|constructor|by intros ? [= <-]|].
  intros g. unfold GroupMiddleware. simpl. by rewrite lookup_empty.
Defined.

Example mcp_notification_runs_nothing :
  st_log (exServe (HttpReq "POST" (Some "note"))).1 = [Wrote 202 NoBody] ∧
  st_log (exServe (HttpReq "POST" (Some "[1]"))).1 =
    [Wrote 400 (BodyJSON "batch requests are not supported")] ∧
  st_log (exServe (HttpReq "GET" None)).1 = [Wrote 405 (BodyText "method not allowed")].
Proof. vm_compute. done. Qed.


End Rpc.
