(* ===== verification/OpenApi.v ===== *)
(** * OpenApi: the OpenAPI document of the REST handlers (openapi.go)

    [Generate] walks the REST groups as the router of Rest.v does and describes each method
    as an operation; the schemas come from Schema.v in ref mode, with one component table
    for the whole document. The theorem is that the document and the router agree. *)

From S2P Require Import Prelude Protocol Runes Transform Registry Naming Schema Streaming Subscriptions Pipeline Dispatch Rest.
From stdpp Require Import prelude gmap strings list fin_maps fin_sets sorting.

Module OpenApi.
Import Runes Transform Registry Naming(asciiLetter, asciiDigit) Schema Rest.Routes.

Section Doc.
  Context {Num : Type}.
  Abbreviation schema := (JSONSchema Num).

Record Parameter_ := OpParam {
  pm_Name : string; pm_In : string; pm_Required : bool; pm_Schema : schema;
}.

(** A response: its description, and its schema under "application/json". *)
Record Response := Resp { rs_Description : string; rs_Content : option schema }.

Record Operation := Op {
  op_OperationID : string;
  op_Tags : list string;
  op_Summary : string;
  op_Description : string;
  op_Parameters : list Parameter_;
  op_RequestBody : option schema;
  op_Responses : list (string * Response);
}.

Record PathItem := Item {
  pi_Get : option Operation; pi_Post : option Operation; pi_Put : option Operation;
  pi_Patch : option Operation; pi_Delete : option Operation;
}.

Record OpenAPISpec := Spec {
  sp_OpenAPI : string;
  sp_Title : string;
  sp_Version : string;
  sp_Paths : gmap string PathItem;
  sp_Schemas : gmap gostr schema;
}.

Definition emptyItem : PathItem := Item None None None None None.

Definition setOp (m : HTTPMethod) (op : Operation) (i : PathItem) : PathItem :=
  let '(Item g po pu pa d) := i in
  match m with
  | HTTPGet => Item (Some op) po pu pa d
  | HTTPPost => Item g (Some op) pu pa d
  | HTTPPut => Item g po (Some op) pa d
  | HTTPPatch => Item g po pu (Some op) d
  | HTTPDelete => Item g po pu pa (Some op)
  end.

Definition getOp (m : HTTPMethod) (i : PathItem) : option Operation :=
  match m with
  | HTTPGet => pi_Get i | HTTPPost => pi_Post i | HTTPPut => pi_Put i
  | HTTPPatch => pi_Patch i | HTTPDelete => pi_Delete i
  end.

(** [WithBasePath]: [strings.TrimRight(path, "/")]. *)
Fixpoint trimRightSlash (s : string) : string :=
  match s with
  | EmptyString => EmptyString
  | String c s =>
      match trimRightSlash s with
      | EmptyString => if bool_decide (c = Ascii.ascii_of_nat 47) then EmptyString else String c EmptyString
      | t => String c t
      end
  end.

Definition operationAt (paths : gmap string PathItem) (path : string) (m : HTTPMethod) : option Operation :=
  paths !! path ≫= getOp m.

(** The schemas an operation holds. *)
Definition opSchemas (op : Operation) : list schema :=
  (pm_Schema <$> op_Parameters op) ++ option_list (op_RequestBody op) ++
  omap (λ r, rs_Content r.2) (op_Responses op).

End Doc.
Arguments Parameter_ Num : clear implicits.
Arguments Operation Num : clear implicits.
Arguments PathItem Num : clear implicits.
Arguments OpenAPISpec Num : clear implicits.

Section Code.
  Context {Mw Num : Type}.
  (** The naming plugin, the documentation, and go/doc's [Synopsis]. *)
  Context (PathPrefix PathSegment : string → string).
  Context (paramNames : string → string → list string) (handlerDoc : string → string → string).
  Context (Synopsis : string → string).
  Context (title version basePath : string).
  (** [sg.goTypeToJSONSchema] in ref mode. *)
  Context (typeSchema : @mode Num → goType → option (JSONSchema Num * @mode Num)).
  Context (componentName : string → gostr).
  Context (reg : @Registry Mw).

(** The operations in the order of the loops: REST groups sorted, their methods sorted,
    streaming methods skipped. *)
Definition operations : list (string * string * HandlerInfo) :=
  groupName ← sortStrings (elements (dom (r_groups reg)));
  if decide (groupName ∈ r_restGroups reg) then
    match r_groups reg !! groupName with
    | None => []
    | Some g =>
        omap (λ methodName,
            info ← gr_handlers g !! methodName;
            if bool_decide (hi_kind info ≠ HandlerKindUnary) then None
            else Some (groupName, methodName, info))
          (sortStrings (elements (dom (gr_handlers g))))
    end
  else [].

Fixpoint pathParameters (g : @mode Num) (pps : list routeParam) : option (list (Parameter_ Num) * @mode Num) :=
  match pps with
  | [] => Some ([], g)
  | pp :: pps =>
      sg ← typeSchema g (pi_type (rp_info pp));
      r ← pathParameters sg.2 pps;
      Some (OpParam (rp_name pp) "path" true sg.1 :: r.1, r.2)
  end.

Definition bodySchema (g : @mode Num) (body : option ParamInfo) : option (option (JSONSchema Num) * @mode Num) :=
  match body with
  | None => Some (None, g)
  | Some p => sg ← typeSchema g (pi_type p); Some (Some sg.1, sg.2)
  end.

Definition responses (g : @mode Num) (info : HandlerInfo) : option (list (string * Response) * @mode Num) :=
  r ← (if hi_isVoid info then Some (("204", Resp "No content" None), g)
       else sg ← typeSchema g (hi_response info);
            Some (("200", Resp "Successful response" (Some sg.1)), sg.2));
  Some ([r.1; ("422", Resp "Validation error" None); ("500", Resp "Internal server error" None)], r.2).

(** The body of the inner loop: the full path, the method and the operation. *)
Definition operation (g : @mode Num) (e : string * string * HandlerInfo)
    : option (string * HTTPMethod * Operation Num * @mode Num) :=
  let '(groupName, methodName, info) := e in
  let '(pathParams, bodyParam) :=
    splitParams (paramNames (hi_structName info) (hi_name info)) 0 (hi_params info) [] None in
  let path := PathPrefix groupName +:+ "/" +:+ PathSegment methodName +:+
              String.concat "" ((λ pp, "/{" +:+ rp_name pp +:+ "}") <$> pathParams) in
  let doc := handlerDoc (hi_structName info) (hi_name info) in
  ps ← pathParameters g pathParams;
  b ← bodySchema ps.2 bodyParam;
  rs ← responses b.2 info;
  Some (basePath +:+ path, inferHTTPMethod methodName,
        Op (groupName +:+ "_" +:+ methodName) [groupName]
          (if bool_decide (doc = "") then groupName +:+ "." +:+ methodName else Synopsis doc)
          doc ps.1 b.1 rs.1,
        rs.2).

Definition addOperation (paths : gmap string (PathItem Num)) (path : string) (m : HTTPMethod)
    (op : Operation Num) : gmap string (PathItem Num) :=
  <[path := setOp m op (default emptyItem (paths !! path))]> paths.

Fixpoint addOperations (g : @mode Num) (es : list (string * string * HandlerInfo))
    (paths : gmap string (PathItem Num)) : option (gmap string (PathItem Num) * @mode Num) :=
  match es with
  | [] => Some (paths, g)
  | e :: es =>
      r ← operation g e;
      let '(path, m, op, g) := r in
      addOperations g es (addOperation paths path m op)
  end.

(** The component table as the document's schemas, in the order the map is walked; of two
    types with one component name the last stays. *)
Definition components (g : @mode Num) : gmap gostr (JSONSchema Num) :=
  match g with
  | Refs r => foldl (λ m ix, match ix.2 with Some x => <[componentName ix.1 := x]> m | None => m end) ∅ (map_to_list r)
  | Inline _ => ∅
  end.

Definition Generate : option (OpenAPISpec Num) :=
  r ← addOperations (Refs ∅) operations ∅;
  Some (Spec "3.0.3" title version r.1 (components r.2)).

(** ** Facts *)

(** What an operation says of a route. *)
Definition describes (op : Operation Num) (rt : RouteInfo) : Prop :=
  op_OperationID op = rt_groupName rt +:+ "_" +:+ rt_methodName rt ∧
  pm_Name <$> op_Parameters op = rp_name <$> rt_pathParams rt ∧
  (is_Some (op_RequestBody op) ↔ is_Some (rt_bodyParam rt)) ∧
  (op_Responses op).*1 = [if hi_isVoid (rt_info rt) then "204" else "200"; "422"; "500"].

Definition route (e : string * string * HandlerInfo) : RouteInfo :=
  routeFor PathPrefix PathSegment paramNames e.1.1 e.1.2 e.2.

(** REST groups have no streaming methods. *)
Definition restUnary : Prop := ∀ g grp n info,
  g ∈ r_restGroups reg → r_groups reg !! g = Some grp → gr_handlers grp !! n = Some info →
  hi_kind info = HandlerKindUnary.

Lemma routes_of_operations :
  restUnary → buildRoutes PathPrefix PathSegment paramNames reg = route <$> operations.
Proof.
  intros Hu. unfold buildRoutes, operations. generalize (sortStrings (elements (dom (r_groups reg)))).
  intros gs. induction gs as [|g gs IH]; [done|]. rewrite !bind_cons, fmap_app, IH. f_equal.
  destruct (decide (g ∈ r_restGroups reg)) as [Hg|]; [|done].
  destruct (r_groups reg !! g) as [grp|] eqn:Eg; [|done].
  generalize (sortStrings (elements (dom (gr_handlers grp)))). intros ms.
  induction ms as [|m ms IHm]; [done|]. simpl. destruct (gr_handlers grp !! m) as [info|] eqn:Em; simpl; [|done].
  rewrite bool_decide_false; [simpl; f_equal; exact IHm|]. intros Hk. by apply Hk, (Hu g grp m).
Qed.

Lemma getOp_setOp m m' (op : Operation Num) i :
  getOp m' (setOp m op i) = if bool_decide (m = m') then Some op else getOp m' i.
Proof. by destruct i, m, m'. Qed.

Lemma operationAt_add paths path m op path' m' :
  operationAt (addOperation paths path m op) path' m' =
    if bool_decide (path = path' ∧ m = m') then Some op else operationAt paths path' m'.
Proof.
  unfold operationAt, addOperation. destruct (decide (path = path')) as [<-|Hp].
  - rewrite lookup_insert_eq. simpl. rewrite getOp_setOp. destruct (decide (m = m')) as [<-|Hm].
    + by rewrite !bool_decide_true.
    + rewrite !bool_decide_false by naive_solver. destruct (paths !! path); [done|by destruct m'].
  - rewrite lookup_insert_ne, bool_decide_false by naive_solver. done.
Qed.

Section Works.
  (** The generator: it always answers, its state grows, what it made stays good. *)
  Context (gr : @mode Num → @mode Num → Prop) (gd : @mode Num → JSONSchema Num → Prop).
  Context (gr_refl : ∀ g, gr g g) (gr_trans : ∀ a b c, gr a b → gr b c → gr a c).
  Context (gd_mono : ∀ g g' s, gr g g' → gd g s → gd g' s).
  Context (Hts : ∀ g t, ∃ s g', typeSchema g t = Some (s, g') ∧ gr g g' ∧ gd g' s).

Lemma gds_mono g g' ss : gr g g' → Forall (gd g) ss → Forall (gd g') ss.
Proof. intros Hg Hf. eapply Forall_impl; [exact Hf|]. intros s. by apply gd_mono. Qed.

Lemma pathParameters_works g pps :
  ∃ ps g', pathParameters g pps = Some (ps, g') ∧ gr g g' ∧
    pm_Name <$> ps = rp_name <$> pps ∧ Forall (gd g') (pm_Schema <$> ps).
Proof.
  revert g. induction pps as [|pp pps IH]; intros g; simpl; [exists [], g; by repeat split|].
  destruct (Hts g (pi_type (rp_info pp))) as (s & g1 & -> & Hg1 & Hs). simpl.
  destruct (IH g1) as (ps & g2 & -> & Hg2 & Hn & Hf). simpl. eexists _, g2. split; [done|].
  split; [by eapply gr_trans|]. split; [simpl; f_equal; exact Hn|]. simpl. constructor; [by eapply gd_mono|done].
Qed.

Lemma bodySchema_works g body :
  ∃ b g', bodySchema g body = Some (b, g') ∧ gr g g' ∧ (is_Some b ↔ is_Some body) ∧
    Forall (gd g') (option_list b).
Proof.
  unfold bodySchema. destruct body as [p|]; [|exists None, g; by repeat split].
  destruct (Hts g (pi_type p)) as (s & g1 & -> & Hg1 & Hs). simpl. exists (Some s), g1.
  split; [done|]. split; [done|]. split; [split; by eexists|by constructor].
Qed.

Lemma responses_works g info :
  ∃ rs g', responses g info = Some (rs, g') ∧ gr g g' ∧
    rs.*1 = [if hi_isVoid info then "204" else "200"; "422"; "500"] ∧
    Forall (gd g') (omap (λ r, rs_Content r.2) rs).
Proof.
  unfold responses. destruct (hi_isVoid info); simpl.
  - eexists _, g. split; [done|]. split; [done|]. split; [done|]. constructor.
  - destruct (Hts g (hi_response info)) as (s & g1 & -> & Hg1 & Hs). simpl. eexists _, g1.
    split; [done|]. split; [done|]. split; [done|]. by repeat constructor.
Qed.

Lemma operation_works g e :
  ∃ op g', operation g e = Some (basePath +:+ rt_path (route e), rt_httpMethod (route e), op, g') ∧
    gr g g' ∧ describes op (route e) ∧ Forall (gd g') (opSchemas op).
Proof.
  destruct e as [[groupName methodName] info]. unfold operation, route, routeFor. simpl.
  destruct (splitParams _ 0 _ [] None) as [pps body].
  destruct (pathParameters_works g pps) as (ps & g1 & -> & Hg1 & Hn & Hf1). simpl.
  destruct (bodySchema_works g1 body) as (b & g2 & -> & Hg2 & Hb & Hf2). simpl.
  destruct (responses_works g2 info) as (rs & g3 & -> & Hg3 & Hr & Hf3). simpl.
  eexists _, g3. split; [done|]. assert (gr g1 g3) by by eapply gr_trans. split; [by eapply gr_trans|].
  split; [done|]. unfold opSchemas. simpl. apply Forall_app. split; [by apply (gds_mono g1)|].
  apply Forall_app. split; [by apply (gds_mono g2)|done].
Qed.

Definition opsGood (g : @mode Num) (paths : gmap string (PathItem Num)) : Prop :=
  ∀ path m op, operationAt paths path m = Some op → Forall (gd g) (opSchemas op).

Lemma addOperations_works es g paths :
  opsGood g paths →
  ∃ paths' g', addOperations g es paths = Some (paths', g') ∧ gr g g' ∧ opsGood g' paths' ∧
    (∀ path m op, operationAt paths' path m = Some op →
       operationAt paths path m = Some op ∨
       ∃ e, e ∈ es ∧ path = basePath +:+ rt_path (route e) ∧ m = rt_httpMethod (route e) ∧
         describes op (route e)) ∧
    (∀ path m, is_Some (operationAt paths path m) → is_Some (operationAt paths' path m)) ∧
    (∀ e, e ∈ es → is_Some (operationAt paths' (basePath +:+ rt_path (route e)) (rt_httpMethod (route e)))).
Proof.
  revert g paths. induction es as [|e es IH]; intros g paths Hgood; simpl.
  { exists paths, g. split_and!; [done|apply gr_refl|done|intros; by left|done|].
    intros e He. by apply not_elem_of_nil in He. }
  destruct (operation_works g e) as (op & g1 & -> & Hg1 & Hd & Hf). simpl.
  set (path := basePath +:+ rt_path (route e)) in *. set (m := rt_httpMethod (route e)) in *.
  destruct (IH g1 (addOperation paths path m op)) as (paths' & g2 & -> & Hg2 & Hgood2 & Hfrom & Hkeep & Hall).
  { intros path' m' op'. rewrite operationAt_add. case_bool_decide; [by intros [= <-]|].
    intros Ho. apply (gds_mono g); [done|]. by eapply Hgood. }
  exists paths', g2. split_and!; [done|by eapply gr_trans|done| | |].
  - intros path' m' op' Ho. destruct (Hfrom _ _ _ Ho) as [Ho1|(e' & He' & ?)].
    + rewrite operationAt_add in Ho1. case_bool_decide as Hpm; [|by left].
      injection Ho1 as <-. destruct Hpm as [<- <-]. right. exists e. split; [by left|done].
    + right. exists e'. split; [by right|done].
  - intros path' m' Ho. apply Hkeep. rewrite operationAt_add. by case_bool_decide.
  - intros e' [->|He']%elem_of_cons; [|by apply Hall]. apply Hkeep.
    rewrite operationAt_add, bool_decide_true; done.
Qed.

End Works.

(** The components of a table in which every entry has its schema. *)
Lemma components_spec r :
  (∀ id, id ∈ dom r → ∃ x, r !! id = Some (Some x)) →
  (∀ id, id ∈ dom r → is_Some (components (Refs r) !! componentName id)) ∧
  (∀ n x, components (Refs r) !! n = Some x → ∃ id, r !! id = Some (Some x)).
Proof.
  intros Hall. simpl.
  assert (Hgen : ∀ l (m : gmap gostr (JSONSchema Num)),
    let m' := foldl (λ m ix, match ix.2 with Some x => <[componentName ix.1 := x]> m | None => m end) m l in
    (∀ n, is_Some (m !! n) → is_Some (m' !! n)) ∧
    (∀ id x, (id, Some x) ∈ l → is_Some (m' !! componentName id)) ∧
    (∀ n x, m' !! n = Some x → m !! n = Some x ∨ ∃ id, (id, Some x) ∈ l)).
  { intros l. induction l as [|[i [x|]] l IH]; intros m; simpl.
    - split_and!; [done|intros ?? Hin; by apply not_elem_of_nil in Hin|by left].
    - destruct (IH (<[componentName i := x]> m)) as (K & A & F). split_and!.
      + intros n [y Hy]. apply K. destruct (decide (componentName i = n)) as [<-|]; [by rewrite lookup_insert_eq|].
        rewrite lookup_insert_ne by done. by eexists.
      + intros id y [[= -> ->]|Hin]%elem_of_cons; [|by eapply A]. apply K. by rewrite lookup_insert_eq.
      + intros n y Hy. destruct (F n y Hy) as [Hm|[id Hin]]; [|right; exists id; by right].
        apply lookup_insert_Some in Hm as [[<- <-]|[_ Hm]]; [|by left]. right. exists i. by left.
    - destruct (IH m) as (K & A & F). split_and!; [done| |].
      + intros id y [[=]|Hin]%elem_of_cons. by eapply A.
      + intros n y Hy. destruct (F n y Hy) as [Hm|[id Hin]]; [by left|right; exists id; by right]. }
  destruct (Hgen (map_to_list r) ∅) as (_ & A & F). split.
  - intros id Hid. destruct (Hall id Hid) as [x Hx]. apply (A id x). by apply elem_of_map_to_list.
  - intros n x Hx. destruct (F n x Hx) as [Hm|[id Hin]]; [by rewrite lookup_empty in Hm|].
    exists id. by apply elem_of_map_to_list.
Qed.

End Code.

(** ** REST groups have no streams, however the registry was built *)

Section RestUnary.
  Context (implementsContext implementsError : goType → bool).
  Context (structs : gmap string (list structField)) {Mw : Type} {RC : RuneCase}.
  Abbreviation Registry := (@Registry Mw).
  Abbreviation HandlerGroup := (@HandlerGroup Mw).

(** Every REST group exists and has unary methods only. *)
Definition restOk (r : Registry) : Prop := ∀ g, g ∈ r_restGroups r →
  ∃ grp : HandlerGroup, r_groups r !! g = Some grp ∧
    ∀ n info, gr_handlers grp !! n = Some info → hi_kind info = HandlerKindUnary.

Lemma restOk_unary r : restOk r → restUnary r.
Proof. intros Hr g grp n info Hg Hgrp. destruct (Hr g Hg) as (grp' & Hgrp' & Hu). simplify_eq. apply Hu. Qed.

(** Steps that keep the groups' methods and the REST set. *)
Lemma restOk_keep (r r' : Registry) :
  r_restGroups r' = r_restGroups r →
  (∀ g grp, r_groups r !! g = Some grp →
     ∃ grp', r_groups r' !! g = Some grp' ∧ gr_handlers grp' = gr_handlers grp) →
  restOk r → restOk r'.
Proof.
  intros Hs Hg Hr g. rewrite Hs. intros Hin. destruct (Hr g Hin) as (grp & Hgrp & Hu).
  destruct (Hg g grp Hgrp) as (grp' & Hgrp' & Hh). exists grp'. rewrite Hh. done.
Qed.

Lemma assert_unary (r : Registry) name grp :
  assertNoStreamHandlers r name = Ok () → r_groups r !! name = Some grp →
  ∀ n info, gr_handlers grp !! n = Some info → hi_kind info = HandlerKindUnary.
Proof.
  unfold assertNoStreamHandlers. intros Ha Hg n info Hn. rewrite Hg in Ha.
  destruct (filter _ (map_to_list (gr_handlers grp))) as [|[n' i'] l] eqn:E; [|done].
  destruct (decide (hi_kind info = HandlerKindUnary)) as [|Hk]; [done|].
  assert ((n, info) ∈ filter (λ ni, hi_kind ni.2 ≠ HandlerKindUnary) (map_to_list (gr_handlers grp))) as Hin.
  { apply list_elem_of_filter. split; [done|]. by apply elem_of_map_to_list. }
  rewrite E in Hin. by apply not_elem_of_nil in Hin.
Qed.

Lemma register_groups (r : Registry) h ws mw r' :
  register implementsContext implementsError structs r h ws mw = Ok r' →
  r_restGroups r' = r_restGroups r ∧ is_Some (r_groups r' !! ho_name h) ∧
  ∀ g grp, r_groups r !! g = Some grp → r_groups r' !! g = Some grp.
Proof.
  unfold register. destruct (negb _); [done|]. case_bool_decide as Hex; [done|].
  destruct (registerMethods _ _ _ _ _ _ _ _) as [[hs gh]|]; [|done]. intros [= <-]. simpl.
  split_and!; [done|rewrite lookup_insert_eq; by eexists|]. intros g grp Hg.
  rewrite lookup_insert_ne; [done|]. intros <-. apply Hex. by eexists.
Qed.

Lemma restOk_enable r name :
  restOk r → is_Some (r_groups r !! name) → assertNoStreamHandlers r name = Ok () →
  restOk (withModes ({[name]} ∪ r_restGroups r) (r_mcpOnlyGroups r) r).
Proof.
  intros Hr [grp Hgrp] Ha g Hg. simpl in *. apply elem_of_union in Hg as [Hg|Hg]; [|by apply Hr].
  apply elem_of_singleton in Hg as ->. exists grp. split; [done|]. by eapply assert_unary.
Qed.

Lemma built_restOk r : built implementsContext implementsError structs r → restOk r.
Proof.
  assert (Hreg : ∀ r h ws mw r', restOk r →
    register implementsContext implementsError structs r h ws mw = Ok r' → restOk r').
  { intros r1 h ws mw r2 Hr E. destruct (register_groups _ _ _ _ _ E) as (Hs & _ & Hk).
    eapply restOk_keep; [done| |done]. intros g grp Hg. exists grp. by rewrite (Hk _ _ Hg). }
  induction 1 as [|r h mw r' _ IH Hg E|r h mw r' _ IH Hg E|r h mw r' _ IH Hg E|r h r' _ IH E
    |r e n _ IH|r n _ IH|r sn t n r' _ IH E|r n t b es r' _ IH E|r sn n t b es r' _ IH E].
  - intros g Hg. by apply not_elem_of_empty in Hg.
  - by eapply Hreg.
  - apply bind_Ok in E as (r1 & E1 & E). apply bind_Ok in E as ([] & Ha & [= <-]).
    destruct (register_groups _ _ _ _ _ E1) as (_ & Hsome & _).
    apply restOk_enable; [by eapply Hreg|done|done].
  - apply bind_Ok in E as (r1 & E1 & E). apply bind_Ok in E as ([] & _ & [= <-]).
    eapply (restOk_keep r1); [done|intros g grp Hgrp; by exists grp|]. by eapply Hreg.
  - unfold EnableREST in E. destruct (r_groups r !! _) as [grp|] eqn:Eg; [|done].
    apply bind_Ok in E as ([] & Ha & [= <-]). apply restOk_enable; [done|by eexists|done].
  - eapply (restOk_keep r); [done|intros g grp Hgrp; by exists grp|done].
  - eapply (restOk_keep r); [done|intros g grp Hgrp; by exists grp|done].
  - unfold RegisterPushEventFor in E. destruct (r_groups r !! sn) as [g|] eqn:Eg; [|done].
    injection E as <-. eapply (restOk_keep r); [done| |done]. intros g' grp Hgrp. simpl.
    destruct (decide (sn = g')) as [<-|]; [rewrite lookup_insert_eq; simplify_eq; by eexists|].
    rewrite lookup_insert_ne by done. by exists grp.
  - apply bind_Ok in E as (i & _ & [= <-]). eapply (restOk_keep r); [done|intros g grp Hgrp; by exists grp|done].
  - unfold RegisterEnumFor in E. destruct (r_groups r !! sn) as [g|] eqn:Eg; [|done].
    apply bind_Ok in E as (i & _ & [= <-]). eapply (restOk_keep r); [done| |done]. intros g' grp Hgrp. simpl.
    destruct (decide (sn = g')) as [<-|]; [rewrite lookup_insert_eq; simplify_eq; by eexists|].
    rewrite lookup_insert_ne by done. by exists grp.
Qed.

End RestUnary.

(** ** The document and the router agree *)

Section Agree.
  Context (implementsContext implementsError : goType → bool).
  Context (structs : gmap string (list structField)) {Mw Num : Type} `{RuneCase}.
  (** The generator of Schema.v, over a finite universe of struct types. *)
  Context (parseFloat : gostr → Num) (toInt : Num → Z).
  Context (nameOf : string → gostr) (fieldsOf : string → list rfield) (namedOf : string → option rtype).
  Context (enumTypes : gmap string EnumInfo).
  Context (typeDoc : gostr → gostr) (fieldDoc : gostr → gostr → gostr) (isLetter isDigit : rune → bool).
  Context (U : gset string) (D : nat) (nsize : string → nat) (reflectOf : goType → rtype) (fuel : nat).
  Context (PathPrefix PathSegment : string → string).
  Context (paramNames : string → string → list string) (handlerDoc : string → string → string).
  Context (Synopsis : string → string) (title version basePath : string) (reg : @Registry Mw).

(** The types of the program: a finite universe in which every cycle goes through a struct;
    and [fuel] is enough for the types of parameters and results. *)
Definition typesFit : Prop :=
  cyclesThroughStructs fieldsOf namedOf U D nsize ∧
  (∀ t, inU U (reflectOf t) ∧ typeSize namedOf nsize (reflectOf t) + size U * S D ≤ fuel).

Definition typeSchema (g : @mode Num) (t : goType) : option (JSONSchema Num * @mode Num) :=
  goTypeToJSONSchema parseFloat toInt nameOf fieldsOf namedOf enumTypes typeDoc fieldDoc isLetter isDigit
    fuel g (reflectOf t).

Definition document : option (OpenAPISpec Num) :=
  Generate PathPrefix PathSegment paramNames handlerDoc Synopsis title version basePath typeSchema
    (componentName nameOf isLetter isDigit) reg.

(** C13: the OpenAPI document describes exactly what the REST router serves. For a registry
    built by registration, of which no two routes share a method and a path, [Generate]
    ends with a document in which every route has its operation, at the base path followed
    by the route's path and under the route's HTTP method, with the route's path parameters
    in order and a request body exactly when the route takes one; and every operation of
    the document is such a route. Every $ref, in an operation or in a component, names a
    component of the document. *)
Theorem openapi_matches_routes :
  built implementsContext implementsError structs reg → typesFit →
  NoDup ((λ rt, (rt_httpMethod rt, rt_path rt)) <$> buildRoutes PathPrefix PathSegment paramNames reg) →
  ∃ spec, document = Some spec ∧
    (∀ rt, rt ∈ buildRoutes PathPrefix PathSegment paramNames reg →
       ∃ op, operationAt (sp_Paths spec) (basePath +:+ rt_path rt) (rt_httpMethod rt) = Some op ∧
         describes op rt) ∧
    (∀ path m op, operationAt (sp_Paths spec) path m = Some op →
       (∃ rt, rt ∈ buildRoutes PathPrefix PathSegment paramNames reg ∧
          path = basePath +:+ rt_path rt ∧ m = rt_httpMethod rt ∧ describes op rt) ∧
       ∀ s n, s ∈ opSchemas op → n ∈ refNames s → is_Some (sp_Schemas spec !! n)) ∧
    (∀ k x n, sp_Schemas spec !! k = Some x → n ∈ refNames x → is_Some (sp_Schemas spec !! n)).
Proof.
  intros Hb [Henv Hfit] Hnd. unfold document, Generate.
  rewrite (routes_of_operations PathPrefix PathSegment paramNames reg (restOk_unary _ (built_restOk _ _ _ _ Hb))) in *.
  destruct (addOperations_works PathPrefix PathSegment paramNames handlerDoc Synopsis basePath typeSchema
    (grows nameOf isLetter isDigit) (good nameOf isLetter isDigit) (grows_refl _ _ _) (grows_trans _ _ _)
    (good_mono _ _ _)
    (λ g t, generator_works parseFloat toInt nameOf fieldsOf namedOf enumTypes typeDoc fieldDoc isLetter isDigit
      U D nsize Henv fuel g (reflectOf t) (proj1 (Hfit t)) (proj2 (Hfit t)))
    (operations reg) (Refs ∅) ∅) as (paths & [b|r] & -> & Hg & Hgood & Hfrom & _ & Hall);
    [by intros path m op|done|].
  destruct Hg as (_ & Hnone & Hsome).
  destruct (components_spec (componentName nameOf isLetter isDigit) r) as [Hcin Hcfrom].
  { intros id [[x|] Hx]%elem_of_dom; [by exists x|]. apply Hnone in Hx. by rewrite lookup_empty in Hx. }
  assert (Href : ∀ s n, good nameOf isLetter isDigit (Refs r) s → n ∈ refNames s →
    is_Some (components (componentName nameOf isLetter isDigit) (Refs r) !! n)).
  { intros s n [Hs _] Hn. destruct (Hs n Hn) as (id & Hid & <-). by apply Hcin. }
  simpl. eexists. split; [done|]. cbn [sp_Paths sp_Schemas].
  assert (Hop : ∀ path m op, operationAt paths path m = Some op →
    ∃ e, e ∈ operations reg ∧ path = basePath +:+ rt_path (route PathPrefix PathSegment paramNames e) ∧
      m = rt_httpMethod (route PathPrefix PathSegment paramNames e) ∧
      describes op (route PathPrefix PathSegment paramNames e)).
  { intros path m op Ho. by destruct (Hfrom path m op Ho). }
  split_and!.
  - intros rt (e & -> & He)%list_elem_of_fmap. destruct (Hall e He) as [op Ho]. exists op. split; [done|].
    destruct (Hop _ _ _ Ho) as (e' & He' & Hp & Hm & Hd).
    rewrite (NoDup_fmap_eq _ _ (route PathPrefix PathSegment paramNames e)
      (route PathPrefix PathSegment paramNames e') Hnd); [done|by apply list_elem_of_fmap_2..|].
    apply (inj (String.append basePath)) in Hp. by rewrite Hp, Hm.
  - intros path m op Ho. split.
    + destruct (Hop _ _ _ Ho) as (e & He & ?). eexists. split; [by apply list_elem_of_fmap_2|done].
    + intros s n Hs. apply Href. pose proof (Hgood _ _ _ Ho) as Hf. by eapply Forall_forall in Hf.
  - intros k x n Hk. destruct (Hcfrom k x Hk) as [id Hid]. apply Href.
    destruct (Hsome id x Hid) as [Hx|]; [by rewrite lookup_empty in Hx|done].
Qed.

End Agree.

(** *** Concrete run: a registry with a REST group *)

#[local] Existing Instance asciiCase.

Definition exMethod : methodSig :=
  MethodSig "UpdateUser" [TPtr (TStruct "Users"); TIface "Context"; TBasic KInt; TPtr (TStruct "pkg.Node")]
    [TPtr (TStruct "pkg.Node"); TIface "error"] false.
Definition exBuilt : res regPanic (@Registry unit) :=
  RegisterREST exContext exError ∅ NewRegistry (HandlerObj true "Users" [exMethod]) [].
Definition exReg : @Registry unit := match exBuilt with Ok r => r | Err _ => NewRegistry end.

Definition exReflect (t : goType) : rtype :=
  match unptr t with TStruct "pkg.Node" => RPtr (RStruct "pkg.Node") | _ => RBasic BInt None end.

Definition exDocument : option (OpenAPISpec Z) :=
  document (λ _, 0%Z) id (λ _, lit "Node") nodeFields forest ∅ (λ _, []) (λ _ _, []) asciiLetter asciiDigit
    exReflect 20 (λ g, "/" +:+ g) (λ m, m) (λ _ _, ["id"; "req"]) (λ _ _, "") id "t" "1" "/api" exReg.

Example document_paths :
  (λ d, (map_to_list (sp_Paths d)).*1) <$> exDocument = Some ["/api/Users/UpdateUser/{id}"] ∧
  (λ d, (map_to_list (sp_Schemas d)).*1) <$> exDocument = Some [lit "Node"].
Proof. vm_compute. done. Qed.

Lemma openapi_matches_routes_witness :
  ∃ spec, exDocument = Some spec ∧
    ∀ rt, rt ∈ buildRoutes (λ g, "/" +:+ g) (λ m, m) (λ _ _, ["id"; "req"]) exReg →
      ∃ op, operationAt (sp_Paths spec) ("/api" +:+ rt_path rt) (rt_httpMethod rt) = Some op ∧ describes op rt.
Proof.
  assert (Hb : built exContext exError ∅ exReg).
  { eapply (built_rest _ _ _ NewRegistry (HandlerObj true "Users" [exMethod]) []);
      [constructor|by repeat constructor|vm_compute; reflexivity]. }
  assert (Hf : typesFit nodeFields forest {["pkg.Node"; "pkg.Forest"]} 4 (λ _, 3) exReflect 20).
  { split; [exact nodeCycles|]. intros t. change (size {["pkg.Node"; "pkg.Forest"]} * 5) with 10.
    unfold exReflect. repeat case_match; (split; [cbn; try done; set_solver|simpl; lia]). }
  destruct (openapi_matches_routes exContext exError ∅ (λ _, 0%Z) id (λ _, lit "Node") nodeFields forest ∅
    (λ _, []) (λ _ _, []) asciiLetter asciiDigit {["pkg.Node"; "pkg.Forest"]} 4 (λ _, 3) exReflect 20
    (λ g, "/" +:+ g) (λ m, m) (λ _ _, ["id"; "req"]) (λ _ _, "") id "t" "1" "/api" exReg Hb Hf) as (spec & Hd & Hr & _).
  - apply (bool_decide_unpack _). vm_compute. done.
  - exists spec. split; [exact Hd|exact Hr].
Defined.

End OpenApi.
