(* ===== verification/Validate.v ===== *)
(** * Validate: struct validation and the wire form of database/sql types
      (validate.go, sql_null.go)

    [Module Validate] turns what go-playground/validator reports into the protocol error a
    client sees. [Module SqlNull] is the JSON form of sql.Null* values and their way back.
    The validator and encoding/json/v2 are parameters. *)

From S2P Require Import Prelude Protocol Runes Transform Registry Naming Schema Zod TsTypes.
From stdpp Require Import prelude gmap strings list.

Module Validate.
Import Protocol Runes Schema.

(** [FieldError]; the value is kept as it is. *)
Record FieldError {Val : Type} := FieldErr {
  fe_Field : gostr; fe_Tag : gostr; fe_Value : Val; fe_Param : gostr; fe_Message : gostr;
}.
#[global] Arguments FieldError : clear implicits.
#[global] Arguments FieldErr {Val} _ _ _ _ _.

(** What the validator says of one field. *)
Record fieldFailure {Val : Type} := Failure { ff_Field : gostr; ff_Tag : gostr; ff_Value : Val; ff_Param : gostr }.
#[global] Arguments fieldFailure : clear implicits.
#[global] Arguments Failure {Val} _ _ _ _.

(** [p.v.Struct(v)]: nil, [validator.ValidationErrors], or another error. *)
Inductive structResult {Val : Type} :=
  | Passed
  | ValidationErrors (fes : list (fieldFailure Val))
  | OtherError (text : gostr).
#[global] Arguments structResult : clear implicits.
#[global] Arguments Passed {Val}.
#[global] Arguments ValidationErrors {Val} _.
#[global] Arguments OtherError {Val} _.

(** The [ProtocolError] that is returned. *)
Record validationError {Val : Type} := VErr { ve_Code : Z; ve_Message : gostr; ve_Data : list (FieldError Val) }.
#[global] Arguments validationError : clear implicits.
#[global] Arguments VErr {Val} _ _ _.

(** The function given to [RegisterTagNameFunc]; "" means the Go name of the field. *)
Definition tagName (json : gostr) : gostr :=
  if bool_decide (json = []) || bool_decide (json = lit "-") then []
  else match cut comma json with Some (name, _) => name | None => json end.

(** The messages by tag: the text before and after the parameter, if it is shown. *)
Definition ruleMessages : list (string * (string * bool)) :=
  [("required", (" is required", false)); ("min", (" must be at least ", true)); ("max", (" must be at most ", true));
   ("gte", (" must be >= ", true)); ("lte", (" must be <= ", true)); ("gt", (" must be > ", true));
   ("lt", (" must be < ", true)); ("email", (" must be a valid email", false)); ("url", (" must be a valid URL", false));
   ("uuid", (" must be a valid UUID", false)); ("oneof", (" must be one of: ", true)); ("len", (" must have length ", true))].

Section Code.
  Context {Val : Type}.

Definition formatFieldError (fe : fieldFailure Val) : gostr :=
  match filter (λ m, lit m.1 = ff_Tag fe) ruleMessages with
  | (_, (text, shown)) :: _ => ff_Field fe ++ lit text ++ (if shown then ff_Param fe else [])
  | [] => ff_Field fe ++ lit " failed " ++ ff_Tag fe ++ lit " validation"
  end.

Definition fieldError (fe : fieldFailure Val) : FieldError Val :=
  FieldErr (ff_Field fe) (ff_Tag fe) (ff_Value fe) (ff_Param fe) (formatFieldError fe).

Definition ValidateStruct (r : structResult Val) : option (validationError Val) :=
  match r with
  | Passed => None
  | OtherError text => Some (VErr CodeInvalidParams text [])
  | ValidationErrors fes => Some (VErr CodeValidationFailed (lit "validation failed") (fieldError <$> fes))
  end.

(** ** Facts *)

(** Every failure is reported, in order, under its field, with a message that names it. *)
Lemma ValidateStruct_reports fes :
  ∃ e, ValidateStruct (ValidationErrors fes) = Some e ∧ ve_Code e = CodeValidationFailed ∧
    fe_Field <$> ve_Data e = ff_Field <$> fes ∧
    Forall (λ fe, hasPrefix (fe_Field fe) (fe_Message fe) = true) (ve_Data e).
Proof.
  eexists. split_and!; [done|done| |]; cbn [ve_Data].
  - by rewrite <-list_fmap_compose.
  - apply Forall_fmap, Forall_forall. intros fe _. cbn. unfold formatFieldError, hasPrefix.
    apply bool_decide_eq_true. destruct (filter _ _) as [|[t [text shown]] l]; by rewrite take_app_length.
Qed.

End Code.

Lemma split_cut sep s : head (split sep s) = Some (match cut sep s with Some (a, _) => a | None => s end).
Proof.
  induction s as [|r s IH]; [done|]. cbn [split cut]. case_bool_decide; [done|].
  destruct (split sep s) as [|p ps]; [done|]. cbn in IH. injection IH as ->. by destruct (cut sep s) as [[a b]|].
Qed.

(** A field is reported to the client under the name it has in JSON, which is also the one
    that generated clients and schemas use. *)
Lemma reported_name f :
  skipped f = false →
  (match tagName (f_json f) with [] => f_name f | n => n end) = jsonFieldName f.
Proof.
  intros [_ Hd%bool_decide_eq_false]%orb_false_iff. unfold tagName, jsonFieldName.
  destruct (f_json f) as [|r json] eqn:E; [done|]. rewrite (bool_decide_false (r :: json = [])), bool_decide_false by done.
  cbn [orb]. pose proof (split_cut comma (r :: json)) as Hs.
  destruct (split comma (r :: json)) as [|p ps]; [done|]. cbn [head] in Hs. injection Hs as Hs.
  assert (p = match cut comma (r :: json) with Some (n, _) => n | None => r :: json end) as <- by done.
  by destruct p.
Qed.

Example exMessages :
  fe_Message <$> default [] (ve_Data <$> ValidateStruct (ValidationErrors
    [Failure (lit "age") (lit "gte") 3 (lit "18"); Failure (lit "mail") (lit "email") 0 []; Failure (lit "x") (lit "odd") 2 []])) =
  [lit "age must be >= 18"; lit "mail must be a valid email"; lit "x failed odd validation"].
Proof. vm_compute. done. Qed.

End Validate.

Module SqlNull.
Import Runes Schema TsTypes.

(** The types under the nullable ones that have overrides. *)
Inductive nullBase := NString | NInt | NInt64 | NInt32 | NInt16 | NFloat64 | NBool | NByte | NTime.

#[export] Instance nullBase_eq_dec : EqDecision nullBase.
Proof. solve_decision. Defined.

(** [sqlNullMarshalers] and [sqlNullUnmarshalers], by type. *)
Definition sqlNullMarshalers : list (string * nullBase) :=
  [("database/sql.NullString", NString); ("database/sql.NullInt64", NInt64); ("database/sql.NullInt32", NInt32);
   ("database/sql.NullInt16", NInt16); ("database/sql.NullFloat64", NFloat64); ("database/sql.NullBool", NBool);
   ("database/sql.NullByte", NByte); ("database/sql.NullTime", NTime);
   ("database/sql.Null[string]", NString); ("database/sql.Null[int]", NInt); ("database/sql.Null[int64]", NInt64);
   ("database/sql.Null[int32]", NInt32); ("database/sql.Null[int16]", NInt16); ("database/sql.Null[float64]", NFloat64);
   ("database/sql.Null[bool]", NBool); ("database/sql.Null[time.Time]", NTime)].

Definition sqlNullUnmarshalers : list (string * nullBase) :=
  [("database/sql.NullString", NString); ("database/sql.NullInt64", NInt64); ("database/sql.NullInt32", NInt32);
   ("database/sql.NullInt16", NInt16); ("database/sql.NullFloat64", NFloat64); ("database/sql.NullBool", NBool);
   ("database/sql.NullByte", NByte); ("database/sql.NullTime", NTime);
   ("database/sql.Null[string]", NString); ("database/sql.Null[int]", NInt); ("database/sql.Null[int64]", NInt64);
   ("database/sql.Null[int32]", NInt32); ("database/sql.Null[int16]", NInt16); ("database/sql.Null[float64]", NFloat64);
   ("database/sql.Null[bool]", NBool); ("database/sql.Null[time.Time]", NTime)].

Definition override (table : list (string * nullBase)) (id : string) : option nullBase :=
  snd <$> head (filter (λ e, e.1 = id) table).

Section Codec.
  (** encoding/json/v2 on the values of the base types, and its default for a struct. *)
  Context {V : Type}.
  Context (encode : nullBase → V → option gostr) (decode : nullBase → gostr → option V).
  Context (encodeStruct : string → V → bool → option gostr) (decodeStruct : string → gostr → option (V * bool)).

(** sql.NullX and sql.Null[X]. *)
Record nullValue := NullVal { nv_V : V; nv_Valid : bool }.

(** The function of one marshaler; [marshalGenericNull] is the same. *)
Definition marshalNull (b : nullBase) (v : nullValue) : option gostr :=
  if negb (nv_Valid v) then Some (lit "null") else encode b (nv_V v).

(** [unmarshalGenericNull] and its like, into a value that is there: what the value is then,
    and whether there was no error. *)
Definition unmarshalNull (b : nullBase) (data : gostr) (v : nullValue) : nullValue * bool :=
  if bool_decide (data = lit "null") then (NullVal (nv_V v) false, true)
  else match decode b data with
       | Some x => (NullVal x true, true)
       | None => (NullVal (nv_V v) true, false)
       end.

(** [MarshalWire] and [unmarshalJSON] on a nullable type. *)
Definition MarshalWire (id : string) (v : nullValue) : option gostr :=
  match override sqlNullMarshalers id with
  | Some b => marshalNull b v
  | None => encodeStruct id (nv_V v) (nv_Valid v)
  end.

Definition unmarshalJSON (id : string) (data : gostr) (v : nullValue) : nullValue * bool :=
  match override sqlNullUnmarshalers id with
  | Some b => unmarshalNull b data v
  | None => match decodeStruct id data with Some (x, ok) => (NullVal x ok, true) | None => (v, false) end
  end.

(** The probe at start-up: [checkFormatTagSupport] of what the canary encodes to. *)
Definition formatTagCanaryWant : gostr := lit "{" ++ [34%Z] ++ lit "d" ++ [34%Z] ++ lit ":1000000000}".
Definition checkFormatTagSupport (out : option gostr) : bool :=
  match out with Some o => bool_decide (o = formatTagCanaryWant) | None => false end.

(** ** Facts *)

Lemma tables_agree : sqlNullMarshalers = sqlNullUnmarshalers.
Proof. done. Qed.

(** A codec reads back what it wrote, and writes null for no value. *)
Definition codecOk : Prop :=
  ∀ b x data, encode b x = Some data → decode b data = Some x ∧ data ≠ lit "null".

(** What has an override is null or the bare value on the wire, and comes back; a value that
    is not valid comes back with what was there before, and not valid. *)
Lemma sql_null_roundtrip id b v data v0 :
  codecOk → override sqlNullMarshalers id = Some b → MarshalWire id v = Some data →
  (nv_Valid v = true → encode b (nv_V v) = Some data ∧ unmarshalJSON id data v0 = (v, true)) ∧
  (nv_Valid v = false → data = lit "null" ∧ unmarshalJSON id data v0 = (NullVal (nv_V v0) false, true)).
Proof.
  intros Hc Hb Hm. unfold MarshalWire, unmarshalJSON in *. rewrite <-tables_agree. rewrite Hb in *.
  unfold marshalNull in Hm. destruct v as [x ok]. cbn in *.
  destruct ok; cbn in Hm.
  - split; [|done]. intros _. destruct (Hc b x data Hm) as [Hd Hn]. split; [done|]. unfold unmarshalNull.
    rewrite bool_decide_false by done. by rewrite Hd.
  - split; [done|]. intros _. injection Hm as <-. split; [done|]. unfold unmarshalNull. by rewrite bool_decide_true.
Qed.

End Codec.

(** The TypeScript type of a base. *)
Definition baseTS (b : nullBase) : string :=
  match b with
  | NString | NTime => "string"
  | NInt | NInt64 | NInt32 | NInt16 | NFloat64 | NByte => "number"
  | NBool => "boolean"
  end.

(** The concrete types that the generators print as nullable are those with an override, and
    the printed type is that of the bare value. *)
Lemma codegen_matches_overrides id :
  hasInfix (lit "[") (lit id) = false →
  (λ b, b.1) <$> sqlNullBase id = baseTS <$> override sqlNullMarshalers id.
Proof.
  intros Hn. destruct (decide (id ∈ sqlNullMarshalers.*1)) as [Hin|Hout].
  - repeat (apply elem_of_cons in Hin as [->|Hin]; [first [reflexivity|vm_compute in Hn; discriminate Hn]|]).
    by apply not_elem_of_nil in Hin.
  - assert (override sqlNullMarshalers id = None) as ->.
    { unfold override. destruct (filter _ _) as [|e l] eqn:E; [done|]. exfalso. apply Hout.
      assert (e ∈ filter (λ e, e.1 = id) sqlNullMarshalers) as He by (rewrite E; by left).
      apply list_elem_of_filter in He as [<- He]. by apply list_elem_of_fmap_2. }
    assert (∀ x, bool_decide (x ∈ sqlNullMarshalers.*1) = true → bool_decide (id = x) = false) as Hne.
    { intros x Hx%bool_decide_eq_true. apply bool_decide_eq_false. by intros ->. }
    unfold sqlNullBase. rewrite !Hne by (vm_compute; reflexivity). rewrite bool_decide_false; [done|].
    intros Hin. apply Hout. repeat (apply elem_of_cons in Hin as [->|Hin]; [apply (bool_decide_unpack _); vm_compute; exact I|]).
    by apply not_elem_of_nil in Hin.
Qed.

(** sql.Null[uint32] has none, so it stays an object on the wire; the generators print it as
    nullable all the same. *)
Lemma exotic_null_diverges `{RuneCase} isLetter isDigit nameOf marshalerOf enumTypes :
  override sqlNullMarshalers "database/sql.Null[uint32]" = None ∧
  (infer marshalerOf (RNull "database/sql.Null[uint32]" (RBasic BUint None)) = None →
   infer marshalerOf (RBasic BUint None) = None →
   enumTypes !! "database/sql.Null[uint32]" = None →
   render (goTypeToTS isLetter isDigit nameOf marshalerOf enumTypes
     (RNull "database/sql.Null[uint32]" (RBasic BUint None))) = lit "number | null").
Proof.
  split; [by vm_compute|]. intros H1 H2 H3. cbn [goTypeToTS]. unfold lookupType. cbn [typeId mbind option_bind].
  by rewrite H3, H1, H2.
Qed.

End SqlNull.
