(* ===== verification/Wire.v ===== *)
(** * Wire: binary frames, newline framing, message limits and outbound queues
      (transport_ws.go, transport_stream.go, client/wire.go)

    A byte is a [Z] between 0 and 255. [Module Binary] has the encoder of the server and
    the decoder of the Go client; the JSON codec of the header is a parameter.
    [Module Lines] is the newline-delimited framing of the byte-stream transport, with
    bufio.Scanner as the standard library has it, and the size limits of both sides.
    [Module Outbound] is the queue between the senders and the write pump of the two
    transports. *)

From S2P Require Import Prelude Protocol.
From stdpp Require Import prelude list strings.

Abbreviation bytes := (list Z) (only parsing).

Definition byteOk (b : Z) : Prop := (0 ≤ b < 256)%Z.

Module Binary.

Record binaryFrameHeader := FrameHeader {
  Version : Z;
  Type_ : string;
  ID : string;
  ContentType : string;
}.

Definition binaryFrameVersion : Z := 1.
Definition MaxUint32 : Z := 2 ^ 32 - 1.

(** [binary.BigEndian.PutUint32] and [Uint32]. *)
Definition PutUint32 (v : Z) : bytes :=
  [Z.land (Z.shiftr v 24) 255; Z.land (Z.shiftr v 16) 255;
   Z.land (Z.shiftr v 8) 255; Z.land v 255].

Definition Uint32 (b : bytes) : Z :=
  match b with
  | [b0; b1; b2; b3] =>
      Z.lor (Z.lor (Z.lor b3 (Z.shiftl b2 8)) (Z.shiftl b1 16)) (Z.shiftl b0 24)
  | _ => 0
  end.

Inductive decodeError := ShortFrame | HeaderExceedsFrame | BadHeader.
Inductive encodeError := HeaderEncode | HeaderTooLarge (n : Z).

Section Codec.
  (** encoding/json/v2 on the header struct. *)
  Context (marshalHeader : binaryFrameHeader → option bytes)
          (unmarshalHeader : bytes → option binaryFrameHeader).

Definition stamped (h : binaryFrameHeader) : binaryFrameHeader :=
  FrameHeader binaryFrameVersion (Type_ h) (ID h) (ContentType h).

Definition encodeBinaryFrame (header : binaryFrameHeader) (payload : bytes)
    : res encodeError bytes :=
  match marshalHeader (stamped header) with
  | None => Err HeaderEncode
  | Some headerData =>
      let headerLen := Z.of_nat (length headerData) in
      if bool_decide (MaxUint32 < headerLen)%Z then Err (HeaderTooLarge headerLen)
      else Ok (PutUint32 (wrapU32 headerLen) ++ headerData ++ payload)
  end.

Definition decodeBinaryFrame (data : bytes) : res decodeError (binaryFrameHeader * bytes) :=
  if bool_decide (length data < 4) then Err ShortFrame
  else
    let n := Uint32 (take 4 data) in
    let rest := drop 4 data in
    if bool_decide (Z.of_nat (length rest) < n)%Z then Err HeaderExceedsFrame
    else
      match unmarshalHeader (take (Z.to_nat n) rest) with
      | None => Err BadHeader
      | Some h => Ok (h, drop (Z.to_nat n) rest)
      end.

Lemma length_PutUint32 v : length (PutUint32 v) = 4.
Proof. done. Qed.

Lemma Uint32_PutUint32 v : (0 ≤ v < 2 ^ 32)%Z → Uint32 (PutUint32 v) = v.
Proof.
  intros Hv. unfold Uint32, PutUint32.
  apply Z.bits_inj'. intros n Hn. change 255%Z with (Z.ones 8).
  rewrite !Z.lor_spec, !Z.shiftl_spec, !Z.land_spec by done.
  destruct (decide (32 ≤ n)%Z) as [Hbig|Hsmall].
  { rewrite (Z.bits_above_log2 v n); [|lia|].
    - rewrite !Z.ones_spec_high by lia. rewrite !andb_false_r. done.
    - destruct (decide (v = 0)%Z) as [->|]; [simpl; lia|].
      apply Z.log2_lt_pow2; [lia|]. eapply Z.lt_le_trans; [apply Hv|].
      apply Z.pow_le_mono_r; lia. }
  destruct (decide (n < 8)%Z).
  { rewrite Z.ones_spec_low, andb_true_r by lia.
    rewrite !(Z.testbit_neg_r _ (n - _)) by lia. rewrite !orb_false_r. done. }
  rewrite (Z.ones_spec_high 8 n), andb_false_r by lia. simpl.
  destruct (decide (n < 16)%Z).
  { rewrite !(Z.testbit_neg_r _ (n - 16)), !(Z.testbit_neg_r _ (n - 24)) by lia.
    rewrite Z.shiftr_spec, (Z.ones_spec_low 8 (n - 8)) by lia.
    rewrite andb_true_r, !orb_false_r. f_equal. lia. }
  rewrite (Z.ones_spec_high 8 (n - 8)), andb_false_r by lia. simpl.
  destruct (decide (n < 24)%Z).
  { rewrite !(Z.testbit_neg_r _ (n - 24)) by lia.
    rewrite Z.shiftr_spec, (Z.ones_spec_low 8 (n - 16)) by lia.
    rewrite andb_true_r, !orb_false_r. f_equal. lia. }
  rewrite (Z.ones_spec_high 8 (n - 16)), andb_false_r by lia. simpl.
  rewrite Z.shiftr_spec, (Z.ones_spec_low 8 (n - 24)) by lia.
  rewrite andb_true_r. f_equal. lia.
Qed.

Lemma encodeBinaryFrame_inv h p f :
  encodeBinaryFrame h p = Ok f →
  ∃ hd, marshalHeader (stamped h) = Some hd ∧ (Z.of_nat (length hd) < 2 ^ 32)%Z ∧
    f = PutUint32 (Z.of_nat (length hd)) ++ hd ++ p.
Proof.
  unfold encodeBinaryFrame. destruct (marshalHeader (stamped h)) as [hd|]; [|done].
  case_bool_decide as Hb; [done|]. intros [= <-]. exists hd. unfold MaxUint32 in Hb.
  split_and!; [done|lia|]. unfold wrapU32. rewrite Z.mod_small by lia. done.
Qed.

(** What the decoder does with the first [k] bytes of an encoded frame. *)
Lemma decode_prefix hd p k :
  (Z.of_nat (length hd) < 2 ^ 32)%Z →
  decodeBinaryFrame (take k (PutUint32 (Z.of_nat (length hd)) ++ hd ++ p)) =
    if bool_decide (k < 4) then Err ShortFrame
    else if bool_decide (k < 4 + length hd) then Err HeaderExceedsFrame
    else match unmarshalHeader hd with
         | None => Err BadHeader
         | Some h => Ok (h, take (k - 4 - length hd) p)
         end.
Proof.
  intros Hlen. unfold decodeBinaryFrame. set (pre := PutUint32 _).
  assert (Hp : length pre = 4) by done.
  rewrite length_take, !length_app, Hp.
  destruct (decide (k < 4)) as [Hk|Hk].
  { rewrite !bool_decide_true by lia. done. }
  rewrite (bool_decide_false (k < 4)) by lia.
  rewrite (bool_decide_false (_ `min` _ < 4)) by lia.
  replace (take k (pre ++ hd ++ p)) with (pre ++ take (k - 4) (hd ++ p))
    by (rewrite (take_app_ge pre) by lia; by rewrite Hp).
  rewrite (take_app_length' pre) by done. rewrite (drop_app_length' pre) by done.
  replace (Uint32 pre) with (Z.of_nat (length hd)) by (symmetry; apply Uint32_PutUint32; lia).
  rewrite Nat2Z.id.
  rewrite length_take, length_app.
  destruct (decide (k < 4 + length hd)) as [Hh|Hh].
  { rewrite !bool_decide_true by lia. done. }
  rewrite !bool_decide_false by lia. rewrite take_app_ge by lia.
  rewrite take_app_length, drop_app_length. done.
Qed.

(** C39: the Go client decodes what the server encodes: the header, stamped with the
    protocol version, and the payload come back unchanged, and every truncation that cuts
    the length prefix or the header is reported as an error. *)
Theorem binary_frame_roundtrip h p f :
  encodeBinaryFrame h p = Ok f →
  (∀ hd, marshalHeader (stamped h) = Some hd → unmarshalHeader hd = Some (stamped h)) →
  decodeBinaryFrame f = Ok (stamped h, p) ∧
  ∀ k, k < length f - length p → ∃ e, decodeBinaryFrame (take k f) = Err e.
Proof.
  intros (hd & Hm & Hlen & ->)%encodeBinaryFrame_inv Hcodec.
  assert (HL : length (PutUint32 (Z.of_nat (length hd)) ++ hd ++ p) = 4 + length hd + length p)
    by (rewrite !length_app, length_PutUint32; lia).
  split.
  - rewrite <- (firstn_all (PutUint32 _ ++ _)), HL, decode_prefix, (Hcodec hd Hm) by done.
    rewrite !bool_decide_false by lia. rewrite take_ge by lia. done.
  - intros k Hk. rewrite HL in Hk. rewrite decode_prefix by done.
    repeat case_bool_decide; eauto; lia.
Qed.

End Codec.

(** A toy header codec, for the examples. *)
Definition exHeader : binaryFrameHeader := FrameHeader 0 "response" "7" "image/png".
Definition exMarshal (h : binaryFrameHeader) : option bytes :=
  if bool_decide (Version h = 1)%Z then Some [123; 34; 118; 34; 125]%Z else None.
Definition exUnmarshal (b : bytes) : option binaryFrameHeader :=
  if bool_decide (b = [123; 34; 118; 34; 125]%Z) then Some (stamped exHeader) else None.

Lemma binary_frame_roundtrip_witness :
  encodeBinaryFrame exMarshal exHeader [1; 2; 3]%Z =
    Ok [0; 0; 0; 5; 123; 34; 118; 34; 125; 1; 2; 3]%Z ∧
  decodeBinaryFrame exUnmarshal [0; 0; 0; 5; 123; 34; 118; 34; 125; 1; 2; 3]%Z =
    Ok (stamped exHeader, [1; 2; 3]%Z).
Proof.
  assert (He : encodeBinaryFrame exMarshal exHeader [1; 2; 3]%Z =
    Ok [0; 0; 0; 5; 123; 34; 118; 34; 125; 1; 2; 3]%Z) by reflexivity.
  split; [exact He|].
  refine (proj1 (binary_frame_roundtrip exMarshal exUnmarshal exHeader [1; 2; 3]%Z _ He _)).
  intros hd. vm_compute. intros [= <-]. reflexivity.
Defined.

End Binary.

Module Lines.
Import Protocol.Protocol.

(** ** bufio.Scanner with ScanLines *)

Definition newline : Z := 10.
Definition MaxInt32 : Z := 2 ^ 31 - 1.

(** [dropCR]. *)
Definition dropCR (line : bytes) : bytes :=
  match reverse line with
  | 13%Z :: r => reverse r
  | _ => line
  end.

Inductive scanEnd := ScanEOF | ErrTooLong.

(** The tokens of [sc.Scan] and how it ends. [cur] holds the bytes of the unfinished line;
    the buffer is full, and the scan fails, when it holds [max] bytes and no newline. *)
Fixpoint scanFrom (max : Z) (cur input : bytes) : list bytes * scanEnd :=
  match input with
  | [] => (if bool_decide (cur = []) then [] else [dropCR cur], ScanEOF)
  | b :: input =>
      if bool_decide (b = newline) then
        let '(ls, e) := scanFrom max [] input in (dropCR cur :: ls, e)
      else if bool_decide (max ≤ Z.of_nat (length cur) + 1)%Z then ([], ErrTooLong)
      else scanFrom max (cur ++ [b]) input
  end.

Definition scanLines (max : Z) (input : bytes) : list bytes * scanEnd := scanFrom max [] input.

(** The UTF-8 encodings of the runes of [unicode.IsSpace]. *)
Definition spaceLen (s : bytes) : nat :=
  match s with
  | (9 | 10 | 11 | 12 | 13 | 32)%Z :: _ => 1
  | 194%Z :: (133 | 160)%Z :: _ => 2
  | 225%Z :: 154%Z :: 128%Z :: _ => 3
  | 226%Z :: 128%Z :: c :: _ =>
      if bool_decide (128 ≤ c ≤ 138)%Z || bool_decide (c ∈ [168; 169; 175])%Z then 3 else 0
  | 226%Z :: 129%Z :: 159%Z :: _ => 3
  | 227%Z :: 128%Z :: 128%Z :: _ => 3
  | _ => 0
  end.

(** [len(bytes.TrimSpace(line)) == 0]: the line is white space from end to end. *)
Fixpoint blankFuel (fuel : nat) (s : bytes) : bool :=
  match fuel, s with
  | _, [] => true
  | O, _ => false
  | S fuel, _ => match spaceLen s with 0 => false | S n => blankFuel fuel (drop (S n) s) end
  end.

Definition blank (line : bytes) : bool := blankFuel (length line) line.

(** ** The server's read loop *)

(** The scanner's bound and the bound on a line; 0 means no bound. *)
Definition readLimits (MaxMessageSize : Z) : Z * Z :=
  if bool_decide (0 < MaxMessageSize)%Z && bool_decide (MaxMessageSize < MaxInt32 - 2)%Z
  then ((MaxMessageSize + 2)%Z, MaxMessageSize) else (MaxInt32, 0%Z).

(** The loop body over the scanned lines: the messages handed to
    [conn.handleIncomingMessage], up to the first oversized line. *)
Fixpoint dispatchLines (limit : Z) (ls : list bytes) : list bytes :=
  match ls with
  | [] => []
  | line :: ls =>
      if bool_decide (0 < limit)%Z && bool_decide (limit < Z.of_nat (length line))%Z then []
      else if blank line then dispatchLines limit ls
      else line :: dispatchLines limit ls
  end.

Definition readLoop (MaxMessageSize : Z) (input : bytes) : list bytes :=
  let '(bufMax, limit) := readLimits MaxMessageSize in
  dispatchLines limit (fst (scanLines bufMax input)).

(** [append(data, '\n')], by both writers. *)
Definition writeLine (data : bytes) : bytes := data ++ [newline].

(** ** The client's side *)

Definition defaultMaxMessageSize : Z := Z.shiftl 32 20.

(** [DialStream]'s maxSize. *)
Definition clientMaxSize (opt : Z) : Z :=
  let maxSize := if bool_decide (opt ≤ 0)%Z then defaultMaxMessageSize else opt in
  if bool_decide (MaxInt32 ≤ maxSize)%Z then (MaxInt32 - 1)%Z else maxSize.

(** [streamConn.read], called until the stream ends. *)
Definition streamRead (maxMessageSize : Z) (input : bytes) : list bytes * scanEnd :=
  let '(ls, e) := scanLines (maxMessageSize + 1) input in
  (filter (λ l, blank l = false) ls, e).

(** [outboundLimit.setOutboundLimit] and [check]; the error names both sizes. *)
Definition setOutboundLimit (n : Z) : Z := if bool_decide (n < 0)%Z then 0%Z else n.

Definition check (max size : Z) : option (Z * Z) :=
  if bool_decide (0 < max)%Z && bool_decide (max < size)%Z then Some (size, max) else None.

(** [wsConn.write] and [streamConn.write] up to the write itself: the bytes that go out. *)
Definition wsWrite (max : Z) (data : bytes) : res (Z * Z) bytes :=
  match check max (Z.of_nat (length data)) with
  | Some e => Err e
  | None => Ok data
  end.

Definition streamWrite (max : Z) (data : bytes) : res (Z * Z) bytes :=
  match check max (Z.of_nat (length data) + 1) with
  | Some e => Err e
  | None => Ok (writeLine data)
  end.

(** ** Facts *)

(** What the framing needs of a message: compact JSON has no raw newline, no trailing
    carriage return, and is not blank. *)
Definition lineSafe (m : bytes) : Prop :=
  (newline ∉ m) ∧ last m ≠ Some 13%Z ∧ blank m = false.

Lemma dropCR_id m : last m ≠ Some 13%Z → dropCR m = m.
Proof.
  intros Hl. unfold dropCR. destruct m as [|x m _] using rev_ind; [done|].
  rewrite last_snoc in Hl. rewrite reverse_snoc. repeat case_match; simplify_eq; done.
Qed.

Lemma length_dropCR m : length (dropCR m) ≤ length m.
Proof.
  unfold dropCR. destruct m as [|x m _] using rev_ind; [done|].
  rewrite reverse_snoc, length_app. simpl.
  repeat case_match; simplify_eq; rewrite ?length_reverse, ?length_app; simpl; lia.
Qed.

Lemma scanFrom_line max cur m rest :
  newline ∉ m → (Z.of_nat (length cur + length m) < max)%Z →
  scanFrom max cur (m ++ newline :: rest) =
    let '(ls, e) := scanFrom max [] rest in (dropCR (cur ++ m) :: ls, e).
Proof.
  revert cur. induction m as [|b m IH]; intros cur Hn Hl; simpl.
  - by rewrite app_nil_r.
  - apply not_elem_of_cons in Hn as [Hb Hn]. simpl in Hl.
    rewrite bool_decide_false by done. rewrite bool_decide_false by lia.
    rewrite IH; [by rewrite <- (assoc_L (++))|done|rewrite length_app; simpl; lia].
Qed.

Lemma scanLines_writeLines max ms :
  Forall (λ m, lineSafe m ∧ (Z.of_nat (length m) < max)%Z) ms →
  scanLines max (concat (map writeLine ms)) = (ms, ScanEOF).
Proof.
  unfold scanLines. induction 1 as [|m ms [(Hn & Hr & _) Hl] _ IH]; simpl; [done|].
  unfold writeLine at 1. rewrite <- (assoc_L (++)). simpl.
  rewrite scanFrom_line by (simpl; done || lia). rewrite IH. by rewrite dropCR_id.
Qed.

Lemma scanFrom_bound max cur input l :
  (Z.of_nat (length cur) < max)%Z → l ∈ (scanFrom max cur input).1 → (Z.of_nat (length l) < max)%Z.
Proof.
  revert cur. induction input as [|b input IH]; intros cur Hc; simpl.
  - case_bool_decide; [by intros ?%not_elem_of_nil|]. rewrite list_elem_of_singleton. intros ->.
    pose proof (length_dropCR cur). lia.
  - case_bool_decide.
    + destruct (scanFrom max [] input) as [ls e] eqn:E. simpl. rewrite elem_of_cons. intros [->|Hl].
      * pose proof (length_dropCR cur). lia.
      * apply (IH []); [simpl; lia|]. by rewrite E.
    + case_bool_decide; [by intros ?%not_elem_of_nil|].
      apply IH. rewrite length_app. simpl. lia.
Qed.

Lemma dispatchLines_all limit ms :
  Forall (λ m, blank m = false ∧ (limit ≤ 0 ∨ Z.of_nat (length m) ≤ limit)%Z) ms →
  dispatchLines limit ms = ms.
Proof.
  induction 1 as [|m ms [Hb Hl] _ IH]; simpl; [done|].
  rewrite Hb, IH. repeat case_bool_decide; try done; simpl; lia.
Qed.

Lemma dispatchLines_sound limit ls m :
  m ∈ dispatchLines limit ls → m ∈ ls ∧ blank m = false ∧ (limit ≤ 0 ∨ Z.of_nat (length m) ≤ limit)%Z.
Proof.
  induction ls as [|l ls IH]; simpl; [by intros ?%not_elem_of_nil|].
  destruct (bool_decide (0 < limit)%Z && _) eqn:Hd; [by intros ?%not_elem_of_nil|].
  destruct (blank l) eqn:Hb; rewrite ?elem_of_cons; [naive_solver|].
  intros [->|Hm]; [|naive_solver]. split_and!; [by left|done|].
  apply andb_false_iff in Hd as [Hd|Hd]; apply bool_decide_eq_false in Hd; lia.
Qed.

(** What [readLoop] accepts of well-formed lines. *)
Lemma readLoop_writeLines L ms :
  Forall (λ m, lineSafe m ∧ (Z.of_nat (length m) < MaxInt32)%Z ∧
               (L ≤ 0 ∨ Z.of_nat (length m) ≤ L)%Z) ms →
  readLoop L (concat (map writeLine ms)) = ms.
Proof.
  intros Hms. unfold readLoop, readLimits.
  destruct (bool_decide (0 < L)%Z && bool_decide (L < MaxInt32 - 2)%Z) eqn:E.
  - apply andb_true_iff in E as [E1 E2]. apply bool_decide_eq_true in E1, E2.
    rewrite scanLines_writeLines; simpl.
    + apply dispatchLines_all. eapply Forall_impl; [done|]. unfold lineSafe. naive_solver.
    + eapply Forall_impl; [done|]. intros m (? & ? & ?). split; [done|lia].
  - rewrite scanLines_writeLines; simpl.
    + apply dispatchLines_all. eapply Forall_impl; [done|].
      intros m ((_ & _ & ?) & _). split; [done|lia].
    + eapply Forall_impl; [done|]. naive_solver.
Qed.

Lemma streamWrite_ok max m out :
  streamWrite max m = Ok out → out = writeLine m ∧ (max ≤ 0 ∨ Z.of_nat (length m) + 1 ≤ max)%Z.
Proof.
  unfold streamWrite, check. destruct (_ && _) eqn:E; [done|]. intros [= <-]. split; [done|].
  apply andb_false_iff in E as [E|E]; apply bool_decide_eq_false in E; lia.
Qed.

(** The connection's limit, from the server's options through the config frame. *)
Definition announced (MaxMessageSize : Z) : Z := setOutboundLimit (advertisedMaxMessageSize MaxMessageSize).

Lemma announced_cases L : announced L = (if bool_decide (0 < L)%Z then L else 0)%Z.
Proof.
  unfold announced, setOutboundLimit, advertisedMaxMessageSize.
  repeat case_bool_decide; lia.
Qed.

(** Over a byte stream, what one side writes the other side reads: every sequence of
    messages the client's outbound check lets through, under the limit the server announced,
    is handed to the server's dispatcher whole and in order, so an accepted message never
    costs the connection; every sequence of server messages within the client's bound is
    read back whole and in order; and whatever bytes arrive, the server dispatches no
    message above its limit and no blank one. *)
Theorem stream_framing_agrees (L opt : Z) :
  (∀ ms outs, mapM (λ m, match streamWrite (announced L) m with Ok o => Some o | Err _ => None end) ms
                = Some outs →
     Forall (λ m, lineSafe m ∧ (Z.of_nat (length m) < MaxInt32)%Z) ms →
     readLoop L (concat outs) = ms) ∧
  (∀ ms, Forall (λ m, lineSafe m ∧ (Z.of_nat (length m) ≤ clientMaxSize opt)%Z) ms →
     streamRead (clientMaxSize opt) (concat (map writeLine ms)) = (ms, ScanEOF)) ∧
  (∀ input m, m ∈ readLoop L input →
     blank m = false ∧ (Z.of_nat (length m) < MaxInt32)%Z ∧
     (0 < L < MaxInt32 - 2 → Z.of_nat (length m) ≤ L)%Z).
Proof.
  split_and!.
  - intros ms outs Hw Hs.
    assert (outs = map writeLine ms ∧
      Forall (λ m, L ≤ 0 ∨ Z.of_nat (length m) ≤ L)%Z ms) as [-> HL].
    { apply mapM_Some in Hw. clear Hs. induction Hw as [|m o ms outs Hm _ [-> IH]]; [done|].
      destruct (streamWrite _ m) eqn:E; simplify_eq. apply streamWrite_ok in E as [-> Hl].
      split; [done|]. constructor; [|done]. rewrite announced_cases in Hl. case_bool_decide; lia. }
    apply readLoop_writeLines, Forall_forall. rewrite Forall_forall in Hs, HL.
    intros m Hm. destruct (Hs m Hm). auto.
  - intros ms Hms. unfold streamRead. rewrite scanLines_writeLines.
    + f_equal. induction Hms as [|m ms [(_ & _ & Hb) _] _ IH]; [done|].
      by rewrite filter_cons_True, IH.
    + eapply Forall_impl; [done|]. intros m [? ?]. split; [done|lia].
  - intros input m. unfold readLoop, readLimits.
    destruct (bool_decide (0 < L)%Z && bool_decide (L < MaxInt32 - 2)%Z) eqn:E;
      cbn [fst snd]; intros (Hin & Hb & Hl)%dispatchLines_sound; (split; [done|]).
    + apply andb_true_iff in E as [E1 E2]. apply bool_decide_eq_true in E1, E2. lia.
    + apply scanFrom_bound in Hin; [|done]. split; [done|].
      apply andb_false_iff in E as [E|E]; apply bool_decide_eq_false in E; lia.
Qed.

Definition exMsg : bytes := [123; 125]%Z.

Lemma exMsg_safe : lineSafe exMsg.
Proof. unfold lineSafe. split_and!; [by apply (bool_decide_unpack _)|done|done]. Qed.

Lemma stream_framing_agrees_witness :
  readLoop 3 (concat [writeLine exMsg; writeLine exMsg]) = [exMsg; exMsg] ∧
  streamRead (clientMaxSize 2) (concat (map writeLine [exMsg])) = ([exMsg], ScanEOF).
Proof.
  split.
  - apply (proj1 (stream_framing_agrees 3 2) [exMsg; exMsg]); [reflexivity|].
    repeat constructor; try apply exMsg_safe; reflexivity.
  - apply (proj1 (proj2 (stream_framing_agrees 3 2)) [exMsg]).
    repeat constructor; try apply exMsg_safe. vm_compute. discriminate.
Defined.

(** The client refuses a stream message of exactly the announced limit, which the server
    would have dispatched: it counts the newline, and the server does not. *)
Lemma exact_limit_refused L m :
  (0 < L < MaxInt32)%Z → lineSafe m → Z.of_nat (length m) = L →
  streamWrite (announced L) m = Err (L + 1, L)%Z ∧ readLoop L (writeLine m) = [m] ∧
  wsWrite (announced L) m = Ok m.
Proof.
  intros HL Hs Hm. rewrite announced_cases, bool_decide_true by lia. split_and!.
  - unfold streamWrite, check. rewrite !bool_decide_true by lia. simpl. by rewrite Hm.
  - rewrite <- (app_nil_r (writeLine m)). apply (readLoop_writeLines L [m]).
    repeat constructor; try apply Hs; lia.
  - unfold wsWrite, check. rewrite (bool_decide_false (L < _)%Z) by lia. by rewrite andb_false_r.
Qed.

End Lines.

Module Outbound.

Inductive kind := WS | Stream.
Inductive pumpState := Running | Draining | Exited.

(** A transport: its send channel, the [done] channel, whether the socket or stream is
    closed under the pump, and the pump. [wire] is what reached the peer and [accepted]
    what senders were told is queued, both in order; [bufferFull] counts the observer's
    SendBufferFull calls. *)
Record transport {F : Type} := Transport {
  tkind : kind;
  send : list F;
  done : bool;
  rwClosed : bool;
  pump : pumpState;
  wire : list F;
  accepted : list F;
  bufferFull : nat;
}.
Arguments transport F : clear implicits.

Definition sendCap : nat := 256.

Section Machine.
  Context {F : Type}.
  Implicit Types t : transport F.

Definition newTransport (k : kind) : transport F := Transport F k [] false false Running [] [] 0.

Inductive branch := BDone | BSend | BCtx.
Inductive sendResult := Sent | ErrConnectionClosed | CtxErr | Blocks.

(** The cases of the select that can proceed. *)
Definition readyBranches t (ctxDone : bool) : list branch :=
  (if done t then [BDone] else []) ++
  (if bool_decide (length (send t) < sendCap) then [BSend] else []) ++
  (if ctxDone then [BCtx] else []).

Definition accept (f : F) t : transport F :=
  Transport F (tkind t) (send t ++ [f]) (done t) (rwClosed t) (pump t) (wire t)
    (accepted t ++ [f]) (bufferFull t).

Definition reportBufferFull t : transport F :=
  Transport F (tkind t) (send t) (done t) (rwClosed t) (pump t) (wire t) (accepted t)
    (S (bufferFull t)).

(** [sendFrame]: [pick] resolves a select with several ready cases, and [first] says
    whether it is the select with the default case. A send with nothing ready blocks and
    is retried through the second select. *)
Definition sendFrame (first ctxDone : bool) (pick : nat) (f : F) t : transport F * sendResult :=
  let bs := readyBranches t ctxDone in
  match bs !! (pick `mod` length bs) with
  | Some BDone => (t, ErrConnectionClosed)
  | Some BSend => (accept f t, Sent)
  | Some BCtx => (t, CtxErr)
  | None => (if first then reportBufferFull t else t, Blocks)
  end.

(** [Send] has no context to give up on; [SendCtx] has one. *)
Definition Send (first : bool) (pick : nat) (f : F) t : transport F * sendResult :=
  sendFrame first false pick f t.

Definition SendCtx (first ctxDone : bool) (pick : nat) (f : F) t : transport F * sendResult :=
  sendFrame first ctxDone pick f t.

(** [Close]: closing [done] twice panics on the WebSocket transport (None); the stream
    transport runs its body once, and closes the stream at once. *)
Definition Close t : option (transport F) :=
  match tkind t with
  | WS => if done t then None
          else Some (Transport F WS (send t) true (rwClosed t) (pump t) (wire t) (accepted t) (bufferFull t))
  | Stream => Some (Transport F Stream (send t) true true (pump t) (wire t) (accepted t) (bufferFull t))
  end.

Definition setPump (p : pumpState) t : transport F :=
  Transport F (tkind t) (send t) (done t) (rwClosed t) p (wire t) (accepted t) (bufferFull t).

(** The deferred calls of [writePump]: the WebSocket's own close, or [t.Close]. *)
Definition exitPump t : transport F :=
  match tkind t with
  | WS => Transport F WS (send t) (done t) true Exited (wire t) (accepted t) (bufferFull t)
  | Stream => Transport F Stream (send t) true true Exited (wire t) (accepted t) (bufferFull t)
  end.

(** One write of the pump: it fails on a closed stream, or when [ok] says so. *)
Definition writeFrame (ok : bool) t : transport F :=
  match send t with
  | [] => t
  | f :: q =>
      let t' := Transport F (tkind t) q (done t) (rwClosed t) (pump t) (wire t) (accepted t) (bufferFull t) in
      if ok && negb (rwClosed t)
      then Transport F (tkind t) q (done t) (rwClosed t) (pump t) (wire t ++ [f]) (accepted t) (bufferFull t)
      else exitPump t'
  end.

(** The case [<-t.done] of [writePump]: the WebSocket pump goes on to [drainSend]. *)
Definition pumpDone t : transport F :=
  match tkind t with
  | WS => setPump Draining t
  | Stream => exitPump t
  end.

(** One turn of [drainSend]. *)
Definition drainSend (ok : bool) t : transport F :=
  match send t with
  | [] => exitPump t
  | _ => writeFrame ok t
  end.

Inductive event :=
  | ESend (first : bool) (pick : nat) (f : F)
  | ESendCtx (first ctxDone : bool) (pick : nat) (f : F)
  | EClose
  | EPumpDone
  | EPumpFrame (ok : bool)
  | EPumpPing (ok : bool)
  | EDrain (ok : bool).

Definition step t (e : event) : transport F :=
  match e, pump t with
  | ESend first p f, _ => fst (Send first p f t)
  | ESendCtx first c p f, _ => fst (SendCtx first c p f t)
  | EClose, _ => default t (Close t)
  | EPumpDone, Running => if done t then pumpDone t else t
  | EPumpFrame ok, Running => writeFrame ok t
  | EPumpPing ok, Running => match tkind t with WS => if ok then t else exitPump t | Stream => t end
  | EDrain ok, Draining => drainSend ok t
  | _, _ => t
  end.

(** The writes of this event succeed. *)
Definition writesOk (e : event) : Prop :=
  match e with EPumpFrame ok | EPumpPing ok | EDrain ok => ok = true | _ => True end.

Lemma sendFrame_cases first c p f t :
  fst (sendFrame first c p f t) = t ∨ fst (sendFrame first c p f t) = accept f t ∨
  fst (sendFrame first c p f t) = reportBufferFull t.
Proof. unfold sendFrame. repeat case_match; simpl; auto. Qed.

(** What is on the wire came from the queue, in order, and the queue holds the rest as long
    as no write has failed. *)
Definition fifo t : Prop :=
  ∃ lost, accepted t = wire t ++ lost ++ send t ∧ (lost = [] ∨ pump t = Exited).

Lemma fifo_step t e : fifo t → fifo (step t e).
Proof.
  intros Hkeep. pose proof Hkeep as (lost & Ha & Hl). unfold step, Send, SendCtx.
  assert (Hw : ∀ ok, pump t ≠ Exited → fifo (writeFrame ok t)).
  { intros ok Hp. destruct Hl as [->|]; [|done]. unfold writeFrame, exitPump.
    destruct (send t) as [|f q] eqn:Hs; [exists []; rewrite Hs; auto|].
    destruct (ok && _); simpl.
    - exists []. split; [|by left]. simpl. by rewrite Ha, <- (assoc_L (++)).
    - exists [f]. destruct (tkind t); simpl; split; auto. }
  destruct e as [first p f|first c p f| | |ok|ok|ok]; simpl.
  - destruct (sendFrame_cases first false p f t) as [->|[->| ->]]; [by exists lost| |by exists lost].
    exists lost. split; [|done]. simpl. rewrite Ha. by rewrite <- !(assoc_L (++)).
  - destruct (sendFrame_cases first c p f t) as [->|[->| ->]]; [by exists lost| |by exists lost].
    exists lost. split; [|done]. simpl. rewrite Ha. by rewrite <- !(assoc_L (++)).
  - unfold Close. destruct (tkind t), (done t); simpl; by exists lost.
  - destruct (pump t) eqn:Hp; [|exact Hkeep..]. destruct (done t); [|exact Hkeep].
    destruct Hl as [->|]; [|done]. unfold pumpDone, setPump, exitPump.
    exists []. destruct (tkind t); simpl; auto.
  - destruct (pump t) eqn:Hp; [|exact Hkeep..]. by apply Hw.
  - destruct (pump t) eqn:Hp; [|exact Hkeep..].
    destruct Hl as [->|]; [|done]. unfold exitPump. exists [].
    destruct (tkind t) eqn:Ek, ok; simpl; rewrite ?Hp; auto.
  - destruct (pump t) eqn:Hp; [exact Hkeep| |exact Hkeep]. unfold drainSend.
    destruct Hl as [->|]; [|done].
    destruct (send t) eqn:Hs; [|apply Hw; congruence].
    unfold exitPump. exists []. destruct (tkind t); simpl; rewrite ?Hs; auto.
Qed.

Lemma fifo_runs k es : fifo (runs step (newTransport k) es).
Proof. apply runs_invariant; [by exists []; auto|]. intros ??; apply fifo_step. Qed.

(** The state of a WebSocket transport whose writes succeed, once [a] was accepted. *)
Definition flushing (a : list F) t : Prop :=
  tkind t = WS ∧ a `prefix_of` accepted t ∧ accepted t = wire t ++ send t ∧
  (pump t ≠ Exited → rwClosed t = false) ∧ (pump t = Exited → a `prefix_of` wire t).

Lemma flushing_step a t e : writesOk e → flushing a t → flushing a (step t e).
Proof.
  intros Hok Hkeep. pose proof Hkeep as (Hk & Hp & Ha & Hr & He). unfold step, Send, SendCtx.
  assert (Hw : pump t ≠ Exited → flushing a (writeFrame true t)).
  { intros Hn. unfold writeFrame. destruct (send t) as [|f q] eqn:Hs; [done|].
    rewrite Hr by done. simpl. unfold flushing. simpl.
    rewrite Ha, <- (assoc_L (++)). simpl. rewrite Ha in Hp. naive_solver. }
  destruct e as [first p f|first c p f| | |ok|ok|ok]; simpl.
  - destruct (sendFrame_cases first false p f t) as [->|[->| ->]]; [done| |done].
    unfold flushing. simpl. rewrite Ha, (assoc_L (++)). rewrite Ha in Hp.
    split_and!; try done. by apply prefix_app_r.
  - destruct (sendFrame_cases first c p f t) as [->|[->| ->]]; [done| |done].
    unfold flushing. simpl. rewrite Ha, (assoc_L (++)). rewrite Ha in Hp.
    split_and!; try done. by apply prefix_app_r.
  - unfold Close. rewrite Hk. destruct (done t); [done|]. by unfold flushing.
  - destruct (pump t) eqn:Ep; [|exact Hkeep..]. destruct (done t); [|exact Hkeep].
    unfold pumpDone. rewrite Hk. unfold flushing. simpl. split_and!; try done.
    intros _. apply Hr. congruence.
  - destruct (pump t) eqn:Ep; [|exact Hkeep..]. simpl in Hok. subst. by apply Hw.
  - destruct (pump t) eqn:Ep; [|exact Hkeep..]. simpl in Hok. subst. by rewrite Hk.
  - destruct (pump t) eqn:Ep; [exact Hkeep| |exact Hkeep]. simpl in Hok. subst.
    unfold drainSend. destruct (send t) eqn:Hs; [|apply Hw; congruence].
    unfold exitPump. rewrite Hk. unfold flushing. simpl. rewrite Hs.
    split_and!; try done. intros _. by rewrite Ha, app_nil_r in Hp.
Qed.

(** After the stream is closed, nothing reaches the peer any more. *)
Lemma closed_stream_mute t es : rwClosed t = true → wire (runs step t es) = wire t.
Proof.
  intros Hr. apply (runs_invariant step (λ t', rwClosed t' = true ∧ wire t' = wire t)); [done|].
  clear. intros t' e [Hr Hw]. rewrite <- Hw. clear Hw.
  assert (Hwr : ∀ ok, rwClosed (writeFrame ok t') = true ∧ wire (writeFrame ok t') = wire t').
  { intros ok. unfold writeFrame. destruct (send t'); [done|]. rewrite Hr, andb_false_r.
    unfold exitPump. simpl. by destruct (tkind t'). }
  unfold step, Send, SendCtx. destruct e as [first p f|first c p f| | |ok|ok|ok].
  - destruct (sendFrame_cases first false p f t') as [->|[->| ->]]; done.
  - destruct (sendFrame_cases first c p f t') as [->|[->| ->]]; done.
  - unfold Close. by destruct (tkind t'), (done t').
  - destruct (pump t'); [|done..]. destruct (done t'); [|done].
    unfold pumpDone, exitPump. by destruct (tkind t').
  - destruct (pump t'); done || apply Hwr.
  - destruct (pump t'); [|done..]. destruct (tkind t') eqn:Ek; [|done]. destruct ok; [done|].
    unfold exitPump. by rewrite Ek.
  - destruct (pump t'); [done| |done]. unfold drainSend, exitPump.
    destruct (send t') eqn:?; [|apply Hwr]. by destruct (tkind t').
Qed.


End Machine.


(** The stream transport has no drain: a frame queued right before the close, such as the
    auth_error of a rejected token, never reaches the peer if the pump has not taken it
    yet, whatever happens next. *)
Lemma stream_close_drops_queued {F} (f : F) es :
  wire (runs step (newTransport Stream) (ESend true 0 f :: EClose :: es)) = [] ∧
  accepted (runs step (newTransport Stream) [ESend true 0 f; EClose]) = [f].
Proof.
  split; [|done]. change (ESend true 0 f :: EClose :: es) with ([ESend true 0 f; EClose] ++ es).
  rewrite runs_app, closed_stream_mute; done.
Qed.

End Outbound.
