(* ===== verification/Fanout.v ===== *)
(** * Fanout: connections as handlers and server code send to them
      (connection.go, server.go, detached.go, progress.go, transport.go)

    A connection is an object of the heap with its id, its closed flag and its transport:
    a queue of Wire.v ([Outbound]) or the transport of a detached connection, which sends
    nothing. [Broadcast], [Push], [sendJSON] and their callers are calls that visit their
    connections one at a time: each visit is [sendRaw], whose check of the closed flag
    and whose send on the transport are separate steps, and a send into a full queue
    blocks the call. Joins, leaves, closes and the write pumps come between any two steps.
    [Module Values] has the key-value store of a connection, [Module Hooks] the lists of
    middleware and hooks that a server is set up with. *)

From S2P Require Import Prelude Protocol Wire.
From stdpp Require Import prelude gmap list strings.

Module Fanout.
Import Protocol.Protocol.

(** A frame with the call that sends it; the tag is bookkeeping of the model. *)
Record sent := Sent { sent_by : nat; sent_frame : frame }.

(** The implementations of [transport]: [binary] is what [SupportsBinary] returns. *)
Inductive link :=
  | DetachedTransport
  | QueueTransport (binary : bool) (t : Outbound.transport sent).

Inductive connError :=
  | ErrConnectionClosed
  | ErrDetachedConn
  | errBinaryUnsupported
  | CtxDone
  | EncodeFailed.

Record Conn := MkConn {
  c_id : Z;
  c_transport : link;
  c_closed : bool;
  c_detached : bool;
  c_authenticated : bool;
}.

(** Where a visit of a call stands: before the section of [sendRaw] that reads the closed
    flag, or in one of the selects of [sendFrame]. *)
Inductive stage := Checking | Sending (first : bool).

(** A call that sends: the encoded frame, if it can be encoded, whether it gives up with a
    context, the connections still to visit, and what each visit so far returned. *)
Record call := Call {
  cl_frame : option frame;
  cl_ctx : bool;
  cl_todo : list nat;
  cl_stage : stage;
  cl_results : list (nat * option connError);
}.

Record world := World {
  w_nextConnID : Z;
  w_heap : gmap nat Conn;
  w_conns : gset nat;
  w_calls : gmap nat call;
}.

Definition newServer : world := World 0 ∅ ∅ ∅.

(** ** Transports *)

Definition SupportsBinary (l : link) : bool :=
  match l with DetachedTransport => false | QueueTransport b _ => b end.

Definition noBinarySend : option connError := Some errBinaryUnsupported.

Definition isBinary (f : frame) : bool := match f with FBinary _ _ _ => true | _ => false end.

(** What a send can come to: an error or nil, or it blocks. *)
Inductive sendOutcome := Returned (e : option connError) | Blocked.

(** [detachedTransport]'s methods, and one select of [sendFrame] of the other two.
    A binary frame goes through [SendBinaryCtx], which refuses before it queues. *)
Definition transportSend (first ctxDone : bool) (pick : nat) (x : sent) (l : link)
    : link * sendOutcome :=
  match l with
  | DetachedTransport =>
      (l, Returned (if isBinary (sent_frame x) then noBinarySend else Some ErrDetachedConn))
  | QueueTransport b t =>
      if isBinary (sent_frame x) && negb b then (l, Returned noBinarySend)
      else
        let '(t, r) := Outbound.sendFrame first ctxDone pick x t in
        (QueueTransport b t,
         match r with
         | Outbound.Sent => Returned None
         | Outbound.ErrConnectionClosed => Returned (Some ErrConnectionClosed)
         | Outbound.CtxErr => Returned (Some CtxDone)
         | Outbound.Blocks => Blocked
         end)
  end.

Definition transportClose (l : link) : link :=
  match l with
  | DetachedTransport => DetachedTransport
  | QueueTransport b t => QueueTransport b (default t (Outbound.Close t))
  end.

(** ** Connections *)

Definition newConn (t : link) (id : Z) : Conn := MkConn id t false false false.

Definition Detached (c : Conn) : bool := c_detached c.

Definition setHeap (h : gmap nat Conn) (w : world) : world :=
  World (w_nextConnID w) h (w_conns w) (w_calls w).

Definition setCalls (cs : gmap nat call) (w : world) : world :=
  World (w_nextConnID w) (w_heap w) (w_conns w) cs.

(** [atomic.AddUint64(&s.nextConnID, 1)] and the object made with the new id. *)
Definition create (a : nat) (mk : Z → Conn) (w : world) : world :=
  match w_heap w !! a with
  | Some _ => w
  | None =>
      let id := wrapU64 (w_nextConnID w + 1) in
      World id (<[a := mk id]> (w_heap w)) (w_conns w) (w_calls w)
  end.

(** The accept paths: a byte stream never has binary frames, a WebSocket client may decline
    them. *)
Definition accept (a : nat) (k : Outbound.kind) (binary : bool) : world → world :=
  create a (newConn (QueueTransport
    (match k with Outbound.WS => binary | Outbound.Stream => false end) (Outbound.newTransport k))).

Definition NewDetachedConn (a : nat) : world → world :=
  create a (λ id, MkConn id DetachedTransport false true true).

Definition withConn (a : nat) (f : Conn → Conn) (w : world) : world :=
  match w_heap w !! a with
  | Some c => setHeap (<[a := f c]> (w_heap w)) w
  | None => w
  end.

Definition setTransport (l : link) (c : Conn) : Conn :=
  MkConn (c_id c) l (c_closed c) (c_detached c) (c_authenticated c).

Definition setClosed (c : Conn) : Conn :=
  MkConn (c_id c) (c_transport c) true (c_detached c) (c_authenticated c).

(** [closeWithCause]: the flag under c.mu, and later the transport. *)
Definition flagClosed (a : nat) : world → world := withConn a setClosed.
Definition closeTransport (a : nat) : world → world :=
  withConn a (λ c, if c_closed c then setTransport (transportClose (c_transport c)) c else c).

(** The insert of [registerConn], whose other steps are in Lifecycle.v, and the delete of
    [run]. Only the accept paths call [registerConn], never with a detached connection. *)
Definition joinConns (a : nat) (w : world) : world :=
  match w_heap w !! a with
  | Some c => if c_detached c then w
              else World (w_nextConnID w) (w_heap w) ({[a]} ∪ w_conns w) (w_calls w)
  | None => w
  end.

Definition leaveConns (a : nat) (w : world) : world :=
  World (w_nextConnID w) (w_heap w) (w_conns w ∖ {[a]}) (w_calls w).

Definition ConnectionCount (w : world) : nat := size (w_conns w).

Section Server.
  Context `{!RangeOrder nat}.

Definition connsSnapshot (w : world) : list nat := range_of (w_conns w).

(** [ForEachConn]: the state after [fn] ran on each connection of the snapshot. *)
Definition ForEachConn {S} (w : world) (fn : nat → S → S) (s : S) : S :=
  fold_left (λ s a, fn a s) (connsSnapshot w) s.

(** ** Calls *)

(** A call starts with the check of [sendRaw]; the one place that sends a binary frame,
    [sendBlobResponse], goes to the transport at once. *)
Definition firstStage (f : option frame) : stage :=
  match f with
  | Some f => if isBinary f then Sending true else Checking
  | None => Checking
  end.

Definition startCall (k : nat) (targets : list nat) (ctx : bool) (f : option frame) (w : world)
    : world :=
  match w_calls w !! k with
  | Some _ => w
  | None => setCalls (<[k := Call f ctx targets (firstStage f) []]> (w_calls w)) w
  end.

(** The frame of [push]: [encode] is marshalJSON on the data. *)
Definition pushFrame (event : string) (encoded : option string) : option frame :=
  FPush event <$> encoded.

(** [Broadcast]: a push to every connection of the snapshot. *)
Definition Broadcast (k : nat) (event : string) (encoded : option string) (w : world) : world :=
  startCall k (connsSnapshot w) false (pushFrame event encoded) w.

(** [sendJSON] and [sendJSONCtx] on one connection, and [Push] on top of it. *)
Definition sendJSON (k a : nat) (f : option frame) : world → world := startCall k [a] false f.
Definition sendJSONCtx (k a : nat) (f : option frame) : world → world := startCall k [a] true f.
Definition push (k a : nat) (event : string) (encoded : option string) : world → world :=
  sendJSON k a (pushFrame event encoded).

(** The visit of the connection at the head is over with [e]. *)
Definition visited (a : nat) (e : option connError) (cl : call) : call :=
  Call (cl_frame cl) (cl_ctx cl) (tail (cl_todo cl)) (firstStage (cl_frame cl)) (cl_results cl ++ [(a, e)]).

Definition atStage (s : stage) (cl : call) : call :=
  Call (cl_frame cl) (cl_ctx cl) (cl_todo cl) s (cl_results cl).

(** One section of [sendJSON] on connection [a]: marshalJSON and the closed check of
    [sendRaw], or a select of the transport's send. *)
Definition visitConn (k a : nat) (c : Conn) (ctxDone : bool) (pick : nat) (cl : call) : Conn * call :=
  match cl_stage cl, cl_frame cl with
  | _, None => (c, visited a (Some EncodeFailed) cl)
  | Checking, Some _ =>
      if c_closed c then (c, visited a (Some ErrConnectionClosed) cl)
      else (c, atStage (Sending true) cl)
  | Sending first, Some f =>
      let '(l, r) := transportSend first (cl_ctx cl && ctxDone) pick (Sent k f) (c_transport c) in
      (setTransport l c,
       match r with
       | Returned e => visited a e cl
       | Blocked => atStage (Sending false) cl
       end)
  end.

Definition callTurn (k : nat) (ctxDone : bool) (pick : nat) (w : world) : world :=
  match w_calls w !! k with
  | Some cl =>
      match cl_todo cl with
      | [] => w
      | a :: _ =>
          match w_heap w !! a with
          | None => w
          | Some c =>
              let '(c, cl) := visitConn k a c ctxDone pick cl in
              World (w_nextConnID w) (<[a := c]> (w_heap w)) (w_conns w) (<[k := cl]> (w_calls w))
          end
      end
  | None => w
  end.

(** ** Progress *)

(** [Progress(ctx)]: the reporter of the request's context, or the no-op one. *)
Inductive ProgressReporter := noopProgress | progressReporter (conn : nat) (requestID : string).

Definition Progress (ctx : option (nat * string)) : ProgressReporter :=
  match ctx with
  | Some (conn, requestID) => progressReporter conn requestID
  | None => noopProgress
  end.

Definition sendProgress (k a : nat) (id : string) (current total : Z) (message : string)
    : world → world := sendJSON k a (Some (FProgress id current total message)).

Definition Update (p : ProgressReporter) (k : nat) (current total : Z) (message : string)
    (w : world) : world :=
  match p with
  | noopProgress => w
  | progressReporter a id => sendProgress k a id current total message w
  end.

(** ** The machine *)

(** What the write pump and the closed peer do to a transport by themselves. *)
Definition pumpEvent (e : Outbound.event (F := sent)) : bool :=
  match e with
  | Outbound.EPumpDone | Outbound.EPumpFrame _ | Outbound.EPumpPing _ | Outbound.EDrain _ => true
  | _ => false
  end.

Definition pump (a : nat) (e : Outbound.event) : world → world :=
  withConn a (λ c, match c_transport c with
                   | QueueTransport b t =>
                       if pumpEvent e then setTransport (QueueTransport b (Outbound.step t e)) c else c
                   | DetachedTransport => c
                   end).

Inductive event :=
  | EAccept (a : nat) (k : Outbound.kind) (binary : bool)
  | EDetached (a : nat)
  | ERegister (a : nat)
  | EUnregister (a : nat)
  | ECloseFlag (a : nat)
  | ECloseTransport (a : nat)
  | EPump (a : nat) (e : Outbound.event (F := sent))
  | EBroadcast (k : nat) (event : string) (encoded : option string)
  | ESend (k a : nat) (ctx : bool) (f : option frame)
  | EUpdate (p : ProgressReporter) (k : nat) (current total : Z) (message : string)
  | ETurn (k : nat) (ctxDone : bool) (pick : nat).

Definition step (w : world) (e : event) : world :=
  match e with
  | EAccept a k b => accept a k b w
  | EDetached a => NewDetachedConn a w
  | ERegister a => joinConns a w
  | EUnregister a => leaveConns a w
  | ECloseFlag a => flagClosed a w
  | ECloseTransport a => closeTransport a w
  | EPump a e => pump a e w
  | EBroadcast k ev d => Broadcast k ev d w
  | ESend k a ctx f => (if ctx then sendJSONCtx else sendJSON) k a f w
  | EUpdate p k cur tot m => Update p k cur tot m w
  | ETurn k ctxDone pick => callTurn k ctxDone pick w
  end.

Definition reach : world → Prop := reachable (λ w, w = newServer) (λ w w', ∃ e, w' = step w e).


(** ** What a connection has been handed *)

Definition acceptedOf (c : Conn) : list sent :=
  match c_transport c with DetachedTransport => [] | QueueTransport _ t => Outbound.accepted t end.

(** The frames of call [k] that the connection's queue took. *)
Definition received (k : nat) (c : Conn) : list frame :=
  sent_frame <$> filter (λ x, sent_by x = k) (acceptedOf c).

(** The connection is closed, or its transport has shut itself down after a failed write. *)
Definition down (c : Conn) : bool :=
  c_closed c || match c_transport c with
                | QueueTransport _ t => Outbound.done t
                | DetachedTransport => false
                end.

(** What an error says about the connection and the call. *)
Definition blames (e : connError) (c : Conn) (cl : call) : Prop :=
  match e with
  | ErrConnectionClosed => down c = true
  | ErrDetachedConn => c_transport c = DetachedTransport
  | errBinaryUnsupported => ∃ f, cl_frame cl = Some f ∧ isBinary f = true
  | CtxDone => cl_ctx cl = true
  | EncodeFailed => cl_frame cl = None
  end.

(** How a connection may change: it keeps its id and kind, a shut one stays shut, and
    [xs] joins its queue. *)
Record grows (xs : list sent) (c c' : Conn) : Prop := {
  g_id : c_id c' = c_id c;
  g_detached : c_detached c' = c_detached c;
  g_down : down c = true → down c' = true;
  g_kind : c_transport c = DetachedTransport ↔ c_transport c' = DetachedTransport;
  g_accepted : acceptedOf c' = acceptedOf c ++ xs;
}.

Lemma grown_refl c : grows [] c c.
Proof. split; rewrite ?app_nil_r; done. Qed.

Lemma received_grows k xs c c' :
  grows xs c c' →
  received k c' = received k c ++ (sent_frame <$> filter (λ x, sent_by x = k) xs).
Proof. intros H. unfold received. by rewrite (g_accepted _ _ _ H), filter_app, fmap_app. Qed.

(** A step of a transport that queues [xs] and does not reopen it. *)
Lemma grows_transport xs b t t' c :
  c_transport c = QueueTransport b t →
  Outbound.accepted t' = Outbound.accepted t ++ xs →
  (Outbound.done t = true → Outbound.done t' = true) →
  grows xs c (setTransport (QueueTransport b t') c).
Proof.
  intros Ht Ha Hd. split; simpl; try done.
  - unfold down. rewrite Ht. simpl. rewrite !orb_true_iff. naive_solver.
  - by rewrite Ht.
  - unfold acceptedOf. by rewrite Ht.
Qed.

Lemma pump_accepted (t : Outbound.transport sent) e :
  pumpEvent e = true →
  Outbound.accepted (Outbound.step t e) = Outbound.accepted t ∧
  (Outbound.done t = true → Outbound.done (Outbound.step t e) = true).
Proof.
  intros He. destruct t as [k q d r p w acc n], e; try done;
    unfold Outbound.step; simpl; destruct p; try done;
    unfold Outbound.pumpDone, Outbound.drainSend, Outbound.writeFrame, Outbound.exitPump, Outbound.setPump;
    simpl; repeat (case_match; simplify_eq/=); done.
Qed.

Lemma close_accepted (t : Outbound.transport sent) :
  Outbound.accepted (default t (Outbound.Close t)) = Outbound.accepted t ∧
  Outbound.done (default t (Outbound.Close t)) = true.
Proof. unfold Outbound.Close. by destruct (Outbound.tkind t), (Outbound.done t) eqn:?. Qed.

(** One select of a transport's send. *)
Lemma transportSend_spec first ctxDone pick x c l r :
  transportSend first ctxDone pick x (c_transport c) = (l, r) →
  match r with
  | Returned None => grows [x] c (setTransport l c) ∧ c_transport c ≠ DetachedTransport
  | _ => grows [] c (setTransport l c)
  end ∧
  match r with
  | Returned (Some ErrConnectionClosed) => down (setTransport l c) = true
  | Returned (Some ErrDetachedConn) => c_transport (setTransport l c) = DetachedTransport
  | Returned (Some errBinaryUnsupported) => isBinary (sent_frame x) = true
  | Returned (Some CtxDone) => ctxDone = true
  | Returned (Some EncodeFailed) => False
  | _ => True
  end.
Proof.
  assert (Hid : grows [] c (setTransport (c_transport c) c)) by (destruct c; apply grown_refl).
  unfold transportSend, noBinarySend. destruct (c_transport c) as [|b t] eqn:Ht.
  { intros [= <- <-]. destruct (isBinary (sent_frame x)) eqn:Hb; simpl; done. }
  destruct (isBinary (sent_frame x)) eqn:Hb; destruct b; simpl;
    try (intros [= <- <-]; done).
  all: unfold Outbound.sendFrame;
    destruct (Outbound.readyBranches t ctxDone !! _) as [br|] eqn:E.
  all: try (intros [= <- <-]; split; [|done]; destruct first;
            eapply grows_transport; try done; by rewrite app_nil_r).
  all: apply list_elem_of_lookup_2 in E; unfold Outbound.readyBranches in E; rewrite !elem_of_app in E.
  all: destruct br; intros [= <- <-]; (split; [|try done]).
  all: try (first [split; [|done]|idtac]; eapply grows_transport; try done; by rewrite app_nil_r).
  all: try (unfold down; simpl; apply orb_true_iff; right).
  all: destruct (Outbound.done t) eqn:?, ctxDone; try done; repeat case_bool_decide; set_solver.
Qed.

(** One section of a visit: still at it, done with the frame queued, or failed with an
    error that is true of the connection. *)
Lemma visit_sections k a c ctxDone pick cl c' cl' :
  visitConn k a c ctxDone pick cl = (c', cl') →
  (∃ s, cl' = atStage s cl ∧ grows [] c c') ∨
  (∃ f, cl_frame cl = Some f ∧ cl' = visited a None cl ∧ grows [Sent k f] c c' ∧
     c_transport c ≠ DetachedTransport) ∨
  (∃ e, cl' = visited a (Some e) cl ∧ grows [] c c' ∧ blames e c' cl).
Proof.
  unfold visitConn. destruct (cl_frame cl) as [f|] eqn:Hf; last first.
  { destruct (cl_stage cl); intros [= <- <-]; right; right; exists EncodeFailed;
      split_and!; try done; apply grown_refl. }
  destruct (cl_stage cl) as [|first].
  { destruct (c_closed c) eqn:Hc; intros [= <- <-].
    - right; right. exists ErrConnectionClosed. split_and!; [done|apply grown_refl|].
      simpl. unfold down. by rewrite Hc.
    - left. eexists. split; [done|apply grown_refl]. }
  destruct (transportSend _ _ _ _ _) as [l r] eqn:Et.
  apply transportSend_spec in Et as [Hg Hb].
  destruct r as [[e|]|]; intros [= <- <-]; [right; right|right; left; naive_solver|left; eauto].
  exists e. split_and!; [done..|]. destruct e; simpl in *; try done; [eauto|].
  by apply andb_true_iff in Hb as [? _].
Qed.

(** ** The invariant *)

(** The frames that the visits so far handed to connection [a]. *)
Definition handed (a : nat) (cl : call) : list frame :=
  omap (λ r, match r.2 with
             | None => if decide (r.1 = a) then cl_frame cl else None
             | Some _ => None
             end) (cl_results cl).

Lemma handed_none a cl : (∀ e, (a, e) ∉ cl_results cl) → handed a cl = [].
Proof.
  unfold handed. induction (cl_results cl) as [|[b e] rs IH]; csimpl; [done|]. intros Hno.
  assert (b ≠ a) by (intros ->; destruct (Hno e); by left).
  rewrite IH by (intros e' ?; destruct (Hno e'); by right).
  destruct e; [done|]. simpl. by rewrite decide_False.
Qed.

Record callOk (w : world) (k : nat) (cl : call) : Prop := {
  co_named : ∀ a e, (a, e) ∈ cl_results cl → is_Some (w_heap w !! a);
  co_blames : ∀ a e c, (a, Some e) ∈ cl_results cl → w_heap w !! a = Some c → blames e c cl;
  co_received : ∀ a c, w_heap w !! a = Some c → received k c = handed a cl;
}.

Record worldOk (w : world) : Prop := {
  wo_calls : ∀ k cl, w_calls w !! k = Some cl → callOk w k cl;
  wo_quiet : ∀ k a c, w_calls w !! k = None → w_heap w !! a = Some c → received k c = [];
  wo_conns : ∀ a, a ∈ w_conns w → ∃ c, w_heap w !! a = Some c ∧ c_detached c = false;
  wo_detached : ∀ a c, w_heap w !! a = Some c → c_detached c = true ↔ c_transport c = DetachedTransport;
}.

(** How the heap may change: objects are never freed, and new ones have received nothing. *)
Record heapGrows (h h' : gmap nat Conn) : Prop := {
  hg_keeps : ∀ a c, h !! a = Some c → ∃ c' xs, h' !! a = Some c' ∧ grows xs c c';
  hg_fresh : ∀ a c', h' !! a = Some c' → h !! a = None → acceptedOf c' = [] ∧
    (c_detached c' = true ↔ c_transport c' = DetachedTransport);
}.

Lemma heapGrows_refl h : heapGrows h h.
Proof. split; [|by intros ?? -> ?]. intros a c Ha. exists c, []. auto using grown_refl. Qed.

Lemma heapGrows_insert h a c c' xs :
  h !! a = Some c → grows xs c c' → heapGrows h (<[a := c']> h).
Proof.
  intros Ha Hg. split; intros b d.
  - intros Hb. destruct (decide (b = a)) as [->|]; simplify_eq.
    + exists c', xs. by rewrite lookup_insert_eq.
    + exists d, []. rewrite lookup_insert_ne by done. auto using grown_refl.
  - intros Hb Hn. rewrite lookup_insert_ne in Hb by congruence. congruence.
Qed.

Lemma blames_grows e c c' xs cl : grows xs c c' → blames e c cl → blames e c' cl.
Proof. intros [_ _ Hd Hk _]. destruct e; simpl; naive_solver. Qed.

Lemma worldOk_detached h w :
  worldOk w → heapGrows (w_heap w) h → ∀ a c, h !! a = Some c →
  c_detached c = true ↔ c_transport c = DetachedTransport.
Proof.
  intros Hw [Hk Hf] a c' Ha. destruct (w_heap w !! a) as [c|] eqn:E; [|by apply (Hf a)].
  destruct (Hk a c E) as (c2 & xs & ? & Hg). simplify_eq.
  rewrite (g_detached _ _ _ Hg), <- (g_kind _ _ _ Hg). by apply (wo_detached w Hw a).
Qed.

Lemma worldOk_conns h w :
  worldOk w → heapGrows (w_heap w) h → ∀ a, a ∈ w_conns w → ∃ c, h !! a = Some c ∧ c_detached c = false.
Proof.
  intros Hw [Hk _] a (c & Ha & Hd)%(wo_conns w Hw). destruct (Hk a c Ha) as (c' & xs & ? & Hg).
  exists c'. by rewrite (g_detached _ _ _ Hg).
Qed.

(** A call whose frames do not move with the heap stays as it was. *)
Lemma callOk_heap w w' k cl :
  callOk w k cl → heapGrows (w_heap w) (w_heap w') →
  (∀ a c c', w_heap w !! a = Some c → w_heap w' !! a = Some c' → received k c' = received k c) →
  callOk w' k cl.
Proof.
  intros [Hn Hb Hr] [Hk Hf] Hsame. split.
  - intros a e [c Hc]%Hn. destruct (Hk a c Hc) as (c' & ? & ? & ?). eauto.
  - intros a e c' Hin Ha. destruct (Hn a _ Hin) as [c Hc].
    destruct (Hk a c Hc) as (c2 & xs & ? & Hg). simplify_eq. eapply blames_grows; eauto.
  - intros a c' Ha. destruct (w_heap w !! a) as [c|] eqn:E; [rewrite (Hsame a c c') by done; by apply Hr|].
    destruct (Hf a c' Ha E) as [Hacc _]. unfold received. rewrite Hacc. simpl.
    symmetry. apply handed_none. intros e [c Hc]%Hn. congruence.
Qed.

Lemma received_fresh k c : acceptedOf c = [] → received k c = [].
Proof. intros H. unfold received. by rewrite H. Qed.

(** Steps that hand nothing over. *)
Definition heapStays (h h' : gmap nat Conn) : Prop :=
  heapGrows h h' ∧ ∀ a c c', h !! a = Some c → h' !! a = Some c' → acceptedOf c' = acceptedOf c.

Lemma heapStays_refl h : heapStays h h.
Proof. split; [apply heapGrows_refl|]. by intros a c c' -> [= ->]. Qed.

Lemma worldOk_quiet w w' :
  worldOk w → heapStays (w_heap w) (w_heap w') → w_calls w' = w_calls w →
  (∀ a, a ∈ w_conns w' → a ∈ w_conns w ∨ ∃ c, w_heap w' !! a = Some c ∧ c_detached c = false) →
  worldOk w'.
Proof.
  intros Hw [Hg Hs] Hc Hin. split.
  - intros k cl Hk. rewrite Hc in Hk. eapply callOk_heap; [by apply (wo_calls w Hw)|done|].
    intros a c c' H1 H2. unfold received. by rewrite (Hs a c c' H1 H2).
  - intros k a c' Hk Ha. rewrite Hc in Hk. destruct (w_heap w !! a) as [c|] eqn:E.
    + unfold received. rewrite (Hs a c) by done. by apply (wo_quiet w Hw k a).
    + apply received_fresh. by apply (hg_fresh _ _ Hg a).
  - intros a [Ha|?]%Hin; [|done]. by apply (worldOk_conns _ w).
  - by apply (worldOk_detached _ w).
Qed.

Lemma worldOk_start w k ts ctx f : worldOk w → worldOk (startCall k ts ctx f w).
Proof.
  intros Hw. unfold startCall. destruct (w_calls w !! k) eqn:Ek; [done|].
  split; simpl; try apply Hw.
  - intros k' cl. destruct (decide (k' = k)) as [->|].
    + rewrite lookup_insert_eq. intros [= <-]. split; simpl; [by intros ?? ?%elem_of_nil| |].
      * by intros ??? ?%elem_of_nil.
      * intros a c Ha. by apply (wo_quiet w Hw k a).
    + rewrite lookup_insert_ne by done. intros Hk. destruct (wo_calls w Hw k' cl Hk). by split.
  - intros k' a c Hk. apply (wo_quiet w Hw). by apply lookup_insert_None in Hk as [? _].
Qed.

Lemma handed_visited a b e cl :
  handed a (visited b e cl) =
    handed a cl ++ match e, cl_frame cl with
                   | None, Some f => if decide (b = a) then [f] else []
                   | _, _ => []
                   end.
Proof.
  unfold handed, visited. simpl. rewrite omap_app. f_equal. simpl.
  destruct e; [done|]. destruct (cl_frame cl); case_decide; done.
Qed.

(** The call that has finished a visit of [a] with [e]. *)
Lemma callOk_visited w h k a c c' cl e xs :
  callOk w k cl → w_heap w !! a = Some c → grows xs c c' →
  (∀ e', e = Some e' → blames e' c' cl) →
  sent_frame <$> filter (λ x, sent_by x = k) xs =
    match e, cl_frame cl with None, Some f => [f] | _, _ => [] end →
  h = <[a := c']> (w_heap w) →
  ∀ ns conns cs, callOk (World ns h conns cs) k (visited a e cl).
Proof.
  intros [Hn Hbl Hr] Ha Hg Hb Hxs -> ns conns cs. split; simpl.
  - intros b e' [Hin|[= -> ->]%list_elem_of_singleton]%elem_of_app.
    + destruct (decide (b = a)) as [->|]; [by rewrite lookup_insert_eq|].
      rewrite lookup_insert_ne by done. by eapply Hn.
    + by rewrite lookup_insert_eq.
  - intros b e' d [Hin|[= -> <-]%list_elem_of_singleton]%elem_of_app.
    + destruct (decide (b = a)) as [->|].
      * rewrite lookup_insert_eq. intros [= <-]. eapply (blames_grows e' c); [done|]. by apply (Hbl a).
      * rewrite lookup_insert_ne by done. by apply (Hbl b).
    + rewrite lookup_insert_eq. intros [= <-]. by apply Hb.
  - intros b d. rewrite handed_visited. destruct (decide (b = a)) as [->|].
    + rewrite lookup_insert_eq. intros [= <-].
      rewrite (received_grows k xs c), Hxs, (Hr a c) by done. f_equal.
      destruct e, (cl_frame cl); try done. by rewrite decide_True.
    + rewrite lookup_insert_ne by done. intros Hd. rewrite (Hr b d Hd).
      destruct e, (cl_frame cl); rewrite ?decide_False by done; by rewrite app_nil_r.
Qed.

Lemma callOk_visit w k a c cl ctxDone pick c' cl' ns conns cs :
  callOk w k cl → w_heap w !! a = Some c → visitConn k a c ctxDone pick cl = (c', cl') →
  callOk (World ns (<[a := c']> (w_heap w)) conns cs) k cl' ∧
  ∃ xs, grows xs c c' ∧ Forall (λ x, sent_by x = k) xs.
Proof.
  intros Hcl Ha Hv.
  apply visit_sections in Hv as [(s & -> & Hg)|[(f & Hf & -> & Hg & _)|(e & -> & Hg & Hb)]].
  - split; [|by exists []].
    apply (callOk_heap w (World ns (<[a := c']> (w_heap w)) conns cs)) in Hcl;
      [by destruct Hcl|by eapply heapGrows_insert|].
    simpl. intros b d d' Hd. destruct (decide (b = a)) as [->|].
    + rewrite lookup_insert_eq. intros [= <-]. simplify_eq.
      rewrite (received_grows k [] c) by done. by rewrite app_nil_r.
    + rewrite lookup_insert_ne by done. congruence.
  - split; [|exists [Sent k f]; auto]. eapply callOk_visited; try done.
    rewrite Hf. by rewrite filter_cons_True.
  - split; [|by exists []]. eapply callOk_visited; try done. by intros ? [= <-].
Qed.

Lemma received_other k k' xs c c' :
  grows xs c c' → Forall (λ x, sent_by x = k) xs → k' ≠ k → received k' c' = received k' c.
Proof.
  intros Hg Hxs Hne. rewrite (received_grows k' xs c) by done.
  rewrite <- (app_nil_r (received k' c)) at 2. f_equal.
  clear Hg. induction Hxs as [|x xs Hx _ IH]; [done|].
  by rewrite filter_cons_False by congruence.
Qed.

Lemma worldOk_turn w k ctxDone pick : worldOk w → worldOk (callTurn k ctxDone pick w).
Proof.
  intros Hw. unfold callTurn. destruct (w_calls w !! k) as [cl|] eqn:Ek; [|done].
  destruct (cl_todo cl) as [|a ts]; [done|]. destruct (w_heap w !! a) as [c|] eqn:Ea; [|done].
  destruct (visitConn k a c ctxDone pick cl) as [c' cl'] eqn:Ev.
  destruct (callOk_visit w k a c cl ctxDone pick c' cl' (w_nextConnID w)
    (w_conns w) (<[k:=cl']> (w_calls w)) (wo_calls w Hw k cl Ek) Ea Ev) as (Hcl & xs & Hg & Hxs).
  assert (Hh : heapGrows (w_heap w) (<[a := c']> (w_heap w))) by by eapply heapGrows_insert.
  assert (Hother : ∀ k' b d d', k' ≠ k → w_heap w !! b = Some d →
    <[a := c']> (w_heap w) !! b = Some d' → received k' d' = received k' d).
  { intros k' b d d' Hne Hd. destruct (decide (b = a)) as [->|].
    - rewrite lookup_insert_eq. intros [= <-]. simplify_eq. by eapply received_other.
    - rewrite lookup_insert_ne by done. congruence. }
  split; simpl.
  - intros k' cl2. destruct (decide (k' = k)) as [->|].
    + rewrite lookup_insert_eq. by intros [= <-].
    + rewrite lookup_insert_ne by done. intros Hk. eapply callOk_heap; [by apply (wo_calls w Hw)|done|].
      intros; by eapply Hother.
  - intros k' b d' [Hk Hne]%lookup_insert_None Hb.
    destruct (w_heap w !! b) as [d|] eqn:E; [|by apply received_fresh, (hg_fresh _ _ Hh b)].
    rewrite (Hother k' b d d') by done. by apply (wo_quiet w Hw k' b).
  - by apply (worldOk_conns _ w).
  - by apply (worldOk_detached _ w).
Qed.

(** ** Every step keeps the invariant *)

Lemma heapStays_insert h a c c' : h !! a = Some c → grows [] c c' → heapStays h (<[a := c']> h).
Proof.
  intros Ha Hg. split; [by eapply heapGrows_insert|]. intros b d d' Hd.
  destruct (decide (b = a)) as [->|].
  - rewrite lookup_insert_eq. intros [= <-]. simplify_eq. by rewrite (g_accepted _ _ _ Hg), app_nil_r.
  - rewrite lookup_insert_ne by done. congruence.
Qed.

Lemma heapStays_fresh h a c :
  h !! a = None → acceptedOf c = [] → (c_detached c = true ↔ c_transport c = DetachedTransport) →
  heapStays h (<[a := c]> h).
Proof.
  intros Ha Hc Hd. split; [split|].
  - intros b d Hb. exists d, []. rewrite lookup_insert_ne by congruence. auto using grown_refl.
  - intros b d. destruct (decide (b = a)) as [->|]; [|rewrite lookup_insert_ne by done; congruence].
    rewrite lookup_insert_eq. intros [= <-]. done.
  - intros b d d' Hb. rewrite lookup_insert_ne by congruence. congruence.
Qed.

Lemma withConn_stays a f w :
  (∀ c, grows [] c (f c)) → heapStays (w_heap w) (w_heap (withConn a f w)).
Proof.
  intros Hf. unfold withConn. destruct (w_heap w !! a) eqn:E; [|apply heapStays_refl].
  by eapply heapStays_insert.
Qed.

Lemma withConn_ok a f w : worldOk w → (∀ c, grows [] c (f c)) → worldOk (withConn a f w).
Proof.
  intros Hw Hf. eapply worldOk_quiet; [done|by apply withConn_stays| |]; unfold withConn;
    destruct (w_heap w !! a); simpl; auto.
Qed.

Lemma create_ok a mk w :
  worldOk w → (∀ id, acceptedOf (mk id) = [] ∧
    (c_detached (mk id) = true ↔ c_transport (mk id) = DetachedTransport)) →
  worldOk (create a mk w).
Proof.
  intros Hw Hmk. unfold create. destruct (w_heap w !! a) eqn:E; [done|].
  eapply worldOk_quiet; simpl; [done| |done|auto].
  by apply heapStays_fresh; [|apply Hmk..].
Qed.

Lemma closed_grows c : grows [] c (setClosed c).
Proof. split; rewrite ?app_nil_r; done. Qed.

Lemma closeTransport_grows c :
  grows [] c (if c_closed c then setTransport (transportClose (c_transport c)) c else c).
Proof.
  destruct (c_closed c); [|apply grown_refl]. destruct (c_transport c) as [|b t] eqn:Ht; simpl.
  - split; simpl; rewrite ?Ht, ?app_nil_r; try done.
    + unfold down. simpl. rewrite Ht. done.
    + unfold acceptedOf. by rewrite Ht.
  - destruct (close_accepted t). eapply grows_transport; rewrite ?app_nil_r; eauto.
Qed.

Lemma pump_grows (e : Outbound.event (F := sent)) c :
  grows [] c (match c_transport c with
              | QueueTransport b t =>
                  if pumpEvent e then setTransport (QueueTransport b (Outbound.step t e)) c else c
              | DetachedTransport => c
              end).
Proof.
  destruct (c_transport c) as [|b t] eqn:Ht; [apply grown_refl|].
  destruct (pumpEvent e) eqn:He; [|apply grown_refl].
  destruct (pump_accepted t e He). eapply grows_transport; rewrite ?app_nil_r; eauto.
Qed.

Lemma step_worldOk w e : worldOk w → worldOk (step w e).
Proof.
  intros Hw. destruct e as [a k b|a|a|a|a|a|a e|k ev d|k a ctx f|p k cur tot m|k cd pick]; simpl.
  - apply create_ok; [done|]. by destruct k.
  - by apply create_ok.
  - unfold joinConns. destruct (w_heap w !! a) as [c|] eqn:E; [|done].
    destruct (c_detached c) eqn:Hd; [done|].
    eapply worldOk_quiet; simpl; [done|apply heapStays_refl|done|].
    intros b [->%elem_of_singleton|?]%elem_of_union; eauto.
  - eapply worldOk_quiet; simpl; [done|apply heapStays_refl|done|]. set_solver.
  - apply withConn_ok; [done|apply closed_grows].
  - apply withConn_ok; [done|apply closeTransport_grows].
  - apply withConn_ok; [done|apply pump_grows].
  - by apply worldOk_start.
  - destruct ctx; by apply worldOk_start.
  - destruct p; [done|]. by apply worldOk_start.
  - by apply worldOk_turn.
Qed.

Lemma reach_worldOk w : reach w → worldOk w.
Proof.
  revert w. apply reachable_invariant.
  - intros ? ->. split; done.
  - intros w w' _ Hw (e & ->). by apply step_worldOk.
Qed.

(** ** What a call does, followed through a run *)

Definition follows (k : nat) (targets : list nat) (ctx : bool) (f : option frame) (w : world) : Prop :=
  ∃ cl, w_calls w !! k = Some cl ∧ cl_frame cl = f ∧ cl_ctx cl = ctx ∧
    (cl_results cl).*1 ++ cl_todo cl = targets.

Lemma startCall_follows k ts ctx f w :
  w_calls w !! k = None → follows k ts ctx f (startCall k ts ctx f w).
Proof. intros Hk. unfold startCall. rewrite Hk. eexists. simpl. by rewrite lookup_insert_eq. Qed.

Lemma startCall_keeps k k' ts ts' ctx ctx' f f' w :
  follows k ts ctx f w → follows k ts ctx f (startCall k' ts' ctx' f' w).
Proof.
  intros (cl & Hk & ?). unfold startCall. destruct (w_calls w !! k') eqn:E; [by exists cl|].
  exists cl. simpl. rewrite lookup_insert_ne by congruence. done.
Qed.

Lemma turn_follows k ts ctx f k' cd pick w :
  follows k ts ctx f w → follows k ts ctx f (callTurn k' cd pick w).
Proof.
  intros (cl & Hk & Hf & Hx & Hts). unfold callTurn. destruct (w_calls w !! k') as [cl'|] eqn:E; [|by exists cl].
  destruct (cl_todo cl') as [|a as'] eqn:Ht; [by exists cl|].
  destruct (w_heap w !! a) as [c|]; [|by exists cl].
  destruct (visitConn k' a c cd pick cl') as [c' cl2] eqn:Ev.
  destruct (decide (k' = k)) as [->|]; last first.
  { exists cl. simpl. by rewrite lookup_insert_ne. }
  simplify_eq. exists cl2. simpl. rewrite lookup_insert_eq. split; [done|].
  apply visit_sections in Ev as [(s & -> & _)|[(? & _ & -> & _)|(? & -> & _)]]; [done|..];
    simpl; rewrite Ht, fmap_app, <- (assoc_L (++)); done.
Qed.

Lemma step_follows k ts ctx f w e : follows k ts ctx f w → follows k ts ctx f (step w e).
Proof.
  intros Hf. destruct e as [a k' b|a|a|a|a|a|a e|k' ev d|k' a ctx' f'|p k' cur tot m|k' cd pick]; simpl.
  - unfold accept, create. by destruct (w_heap w !! a).
  - unfold NewDetachedConn, create. by destruct (w_heap w !! a).
  - unfold joinConns. destruct (w_heap w !! a) as [c|]; [|done]. by destruct (c_detached c).
  - done.
  - unfold flagClosed, withConn. by destruct (w_heap w !! a).
  - unfold closeTransport, withConn. by destruct (w_heap w !! a).
  - unfold pump, withConn. by destruct (w_heap w !! a).
  - by apply startCall_keeps.
  - destruct ctx'; by apply startCall_keeps.
  - destruct p; [done|]. by apply startCall_keeps.
  - by apply turn_follows.
Qed.

(** What a connection was handed stays at the front of its queue. *)
Definition ahead (h h' : gmap nat Conn) : Prop := ∀ a c, h !! a = Some c →
  ∃ c', h' !! a = Some c' ∧ c_detached c' = c_detached c ∧ acceptedOf c `prefix_of` acceptedOf c'.

Lemma ahead_trans h1 h2 h3 : ahead h1 h2 → heapGrows h2 h3 → ahead h1 h3.
Proof.
  intros H1 [H2 _] a c (c2 & Ha2 & Hd & Hp)%H1.
  destruct (H2 a c2 Ha2) as (c3 & ys & Ha3 & Hg3). exists c3.
  rewrite (g_accepted _ _ _ Hg3), (g_detached _ _ _ Hg3). split_and!; [done..|].
  by apply prefix_app_r.
Qed.

Lemma step_heap w e : worldOk w → heapGrows (w_heap w) (w_heap (step w e)).
Proof.
  intros Hw. destruct e as [a k b|a|a|a|a|a|a e|k ev d|k a ctx f|p k cur tot m|k cd pick]; simpl.
  - unfold accept, create. destruct (w_heap w !! a) eqn:E; [apply heapGrows_refl|].
    apply heapStays_fresh; [done|by destruct k..].
  - unfold NewDetachedConn, create. destruct (w_heap w !! a) eqn:E; [apply heapGrows_refl|].
    by apply heapStays_fresh.
  - unfold joinConns. destruct (w_heap w !! a) as [c|]; [destruct (c_detached c)|];
      apply heapGrows_refl.
  - apply heapGrows_refl.
  - apply withConn_stays, closed_grows.
  - apply withConn_stays, closeTransport_grows.
  - apply withConn_stays, pump_grows.
  - unfold Broadcast, startCall. destruct (w_calls w !! k); apply heapGrows_refl.
  - unfold sendJSONCtx, sendJSON, startCall. destruct ctx, (w_calls w !! k); apply heapGrows_refl.
  - destruct p; [apply heapGrows_refl|]. unfold Update, sendProgress, sendJSON, startCall.
    destruct (w_calls w !! k); apply heapGrows_refl.
  - unfold callTurn. destruct (w_calls w !! k) as [cl|] eqn:Ek; [|apply heapGrows_refl].
    destruct (cl_todo cl) as [|a ts]; [apply heapGrows_refl|].
    destruct (w_heap w !! a) as [c|] eqn:Ea; [|apply heapGrows_refl].
    destruct (visitConn k a c cd pick cl) as [c' cl'] eqn:Ev.
    destruct (callOk_visit w k a c cl cd pick c' cl' 0 ∅ ∅ (wo_calls w Hw k cl Ek) Ea Ev)
      as (_ & xs & Hg & _). by eapply heapGrows_insert.
Qed.

Lemma runs_ahead w evs : worldOk w → ahead (w_heap w) (w_heap (runs step w evs)).
Proof.
  intros Hw. eapply (runs_invariant step (λ w', worldOk w' ∧ ahead (w_heap w) (w_heap w'))).
  - split; [done|]. intros a c Ha. exists c. done.
  - intros w1 e [Hw1 IH]. split; [by apply step_worldOk|]. eapply ahead_trans; [done|by apply step_heap].
Qed.

(** The result of a visit tells what the connection got. *)
Lemma handed_once a e cl :
  NoDup (cl_results cl).*1 → (a, e) ∈ cl_results cl →
  handed a cl = match e, cl_frame cl with None, Some f => [f] | _, _ => [] end.
Proof.
  unfold handed. induction (cl_results cl) as [|[b e'] rs IH]; csimpl; [by intros _ ?%elem_of_nil|].
  intros [Hb Hnd]%NoDup_cons [[= <- <-]|Hin]%elem_of_cons.
  - assert (omap (λ r : nat * option connError, match r.2 with
      | None => if decide (r.1 = a) then cl_frame cl else None | Some _ => None end) rs = []) as ->.
    { clear IH Hnd. induction rs as [|[b e'] rs IH]; csimpl; [done|].
      csimpl in Hb. apply not_elem_of_cons in Hb as [Hne Hb]. rewrite IH by done.
      destruct e'; [done|]. by rewrite decide_False. }
    destruct e; [done|]. rewrite decide_True by done. by destruct (cl_frame cl).
  - rewrite IH by done. destruct e'; [done|]. rewrite decide_False; [done|].
    intros ->. apply Hb. by apply (list_elem_of_fmap_2 fst _ (a, e)).
Qed.

(** C15: when a broadcast has visited all its connections, every connection that was
    registered when it started has been handed the push exactly once, whatever joined,
    left, closed or was sent to meanwhile, except for those that are closed; no other
    connection has been handed it, a detached one among them. What a connection had been
    handed before is still ahead of it in the queue. *)
Theorem broadcast_exactly_once w k event data evs cl :
  reach w → w_calls w !! k = None →
  w_calls (runs step (Broadcast k event (Some data) w) evs) !! k = Some cl → cl_todo cl = [] →
  ∀ a c, w_heap (runs step (Broadcast k event (Some data) w) evs) !! a = Some c →
    (a ∈ w_conns w → c_detached c = false ∧
       (received k c = [FPush event data] ∨ received k c = [] ∧ down c = true)) ∧
    (a ∉ w_conns w → received k c = []) ∧
    (∀ c0, w_heap w !! a = Some c0 → acceptedOf c0 `prefix_of` acceptedOf c).
Proof.
  intros Hr Hk Hcl Htodo a c Ha. pose proof (reach_worldOk w Hr) as Hw.
  set (w1 := Broadcast k event (Some data) w) in *. set (w2 := runs step w1 evs) in *.
  assert (Hw1 : worldOk w1) by by apply worldOk_start.
  assert (Hw2 : worldOk w2) by (apply (runs_invariant step worldOk); [done|]; intros; by apply step_worldOk).
  assert (follows k (connsSnapshot w) false (Some (FPush event data)) w2)
    as (cl' & Hcl' & Hf & Hx & Hts).
  { apply (runs_invariant step); [by apply startCall_follows|]. intros; by apply step_follows. }
  assert (Hh : w_heap w1 = w_heap w) by (unfold w1, Broadcast, startCall; by rewrite Hk).
  pose proof (runs_ahead w1 evs Hw1) as Hahead. rewrite Hh in Hahead. fold w2 in Hahead.
  rewrite Hcl in Hcl'. injection Hcl' as <-. rewrite Htodo, app_nil_r in Hts.
  destruct (wo_calls w2 Hw2 k cl Hcl) as [Hn Hb Hrec]. rewrite (Hrec a c Ha). split_and!.
  - intros Hin. assert (Hd : c_detached c = false).
    { destruct (wo_conns w Hw a Hin) as (c0 & Hc0 & Hd).
      destruct (Hahead a c0 Hc0) as (c' & ? & ? & _). congruence. }
    split; [done|]. assert (a ∈ (cl_results cl).*1) as ([a' e] & -> & He)%list_elem_of_fmap.
    { rewrite Hts. by apply elem_of_range_of. }
    simpl in *. rewrite (handed_once a' e), Hf; [|rewrite Hts; apply NoDup_range_of|done].
    destruct e as [e|]; [right|by left]. split; [done|].
    specialize (Hb a' e c He Ha). destruct e; simpl in Hb; try congruence.
    + apply (wo_detached w2 Hw2 a' c Ha) in Hb. congruence.
    + destruct Hb as (f & Hf' & Hbin). rewrite Hf in Hf'. by simplify_eq.
  - intros Hin. apply handed_none. intros e He. apply Hin.
    apply elem_of_range_of. change (a ∈ connsSnapshot w). rewrite <- Hts.
    by apply (list_elem_of_fmap_2 fst _ (a, e)).
  - intros c0 Hc0. destruct (Hahead a c0 Hc0) as (c' & ? & _ & ?). congruence.
Qed.

(** ** A call ends unless a peer stops reading *)

Definition callWeight (cl : call) : nat :=
  2 * length (cl_todo cl) - match cl_stage cl with Checking => 0 | Sending _ => 1 end.

(** The queue of the connection is full and nothing has shut the transport. *)
Definition stuck (c : Conn) : Prop :=
  ∃ b t, c_transport c = QueueTransport b t ∧ Outbound.done t = false ∧
    Outbound.sendCap ≤ length (Outbound.send t).

Lemma transportSend_blocks first ctxDone pick x l l' :
  transportSend first ctxDone pick x l = (l', Blocked) → ∀ c, c_transport c = l → stuck c.
Proof.
  unfold transportSend. destruct l as [|b t]; [done|]. destruct (_ && _); [done|].
  destruct (Outbound.sendFrame _ _ _ _ _) as [t' r] eqn:E. destruct r; intros [= <-] c Hc.
  exists b, t. split; [done|]. unfold Outbound.sendFrame in E.
  destruct (Outbound.readyBranches t ctxDone !! _) as [[]|] eqn:Eb; try done.
  apply lookup_ge_None in Eb.
  destruct (Outbound.readyBranches t ctxDone) as [|br bs] eqn:El.
  - unfold Outbound.readyBranches in El. destruct (Outbound.done t); [done|].
    case_bool_decide; [done|]. split; [done|lia].
  - pose proof (Nat.mod_upper_bound pick (length (br :: bs))). simpl in *. lia.
Qed.

Lemma turn_progress w k cl a ts cd pick :
  worldOk w → w_calls w !! k = Some cl → cl_todo cl = a :: ts → is_Some (w_heap w !! a) →
  ∃ cl', w_calls (callTurn k cd pick w) !! k = Some cl' ∧
    (callWeight cl' < callWeight cl ∨ ∃ c, w_heap w !! a = Some c ∧ stuck c).
Proof.
  intros Hw Hk Ht [c Ha]. unfold callTurn. rewrite Hk, Ht, Ha.
  destruct (visitConn k a c cd pick cl) as [c' cl'] eqn:Ev. exists cl'. simpl. rewrite lookup_insert_eq.
  split; [done|]. unfold visitConn in Ev. unfold callWeight.
  destruct (cl_frame cl), (cl_stage cl) as [|first] eqn:Hs; simplify_eq; simpl; rewrite ?Ht; simpl;
    try (left; lia).
  - destruct (c_closed c); simplify_eq; left; simpl; rewrite ?Ht; simpl; lia.
  - destruct (transportSend _ _ _ _ _) as [l [e|]] eqn:E; simplify_eq; simpl.
    + left. rewrite Ht. simpl. lia.
    + right. exists c. split; [done|]. by eapply transportSend_blocks.
Qed.

(** ** Ids, detached connections and binary frames *)

Record idsOk (w : world) : Prop := {
  ids_count : w_nextConnID w = wrapU64 (Z.of_nat (size (w_heap w)));
  ids_range : (Z.of_nat (size (w_heap w)) < 2 ^ 64)%Z → ∀ a c, w_heap w !! a = Some c →
    (0 < c_id c ≤ Z.of_nat (size (w_heap w)))%Z;
  ids_inj : (Z.of_nat (size (w_heap w)) < 2 ^ 64)%Z → ∀ a b c d, w_heap w !! a = Some c →
    w_heap w !! b = Some d → c_id c = c_id d → a = b;
}.

Lemma idsOk_create a mk w : (∀ id, c_id (mk id) = id) → idsOk w → idsOk (create a mk w).
Proof.
  intros Hmk [Hc Hr Hi]. unfold create. destruct (w_heap w !! a) eqn:E; [done|].
  assert (Hs : size (<[a := mk (wrapU64 (w_nextConnID w + 1))]> (w_heap w)) = S (size (w_heap w)))
    by by apply map_size_insert_None.
  assert (Hid : wrapU64 (w_nextConnID w + 1) = wrapU64 (Z.of_nat (S (size (w_heap w))))).
  { rewrite Hc. unfold wrapU64. rewrite Zplus_mod_idemp_l. f_equal. lia. }
  split; simpl; rewrite Hs; [done|..]; intros Hlt.
  - intros b c. destruct (decide (b = a)) as [->|].
    + rewrite lookup_insert_eq. intros [= <-]. rewrite Hmk, Hid, wrapU64_id by lia. lia.
    + rewrite lookup_insert_ne by done. intros Hb. specialize (Hr ltac:(lia) b c Hb). lia.
  - assert (Hnew : ∀ b c, w_heap w !! b = Some c → c_id c ≠ wrapU64 (w_nextConnID w + 1)).
    { intros b c Hb. specialize (Hr ltac:(lia) b c Hb). rewrite Hid, wrapU64_id by lia. lia. }
    intros b b' c d. destruct (decide (b = a)) as [->|], (decide (b' = a)) as [->|];
      rewrite ?lookup_insert_eq, ?lookup_insert_ne by done; try done.
    + intros [= <-] Hd. rewrite Hmk. intros He. by destruct (Hnew b' d).
    + intros Hb [= <-]. rewrite Hmk. intros He. by destruct (Hnew b c).
    + apply Hi. lia.
Qed.

Lemma idsOk_same w w' :
  w_nextConnID w' = w_nextConnID w → dom (w_heap w') = dom (w_heap w) →
  (∀ a c', w_heap w' !! a = Some c' → ∃ c, w_heap w !! a = Some c ∧ c_id c' = c_id c) →
  idsOk w → idsOk w'.
Proof.
  intros Hn Hd Hsame [Hc Hr Hi].
  assert (Hs : size (w_heap w') = size (w_heap w)) by by rewrite <- !size_dom, Hd.
  split; rewrite Hs; [congruence|..]; intros Hlt.
  - intros a c' (c & Ha & ->)%Hsame. by eapply Hr.
  - intros a b c d (c' & Ha & ->)%Hsame (d' & Hb & ->)%Hsame. by apply Hi.
Qed.

Lemma idsOk_insert w a c c' ns cs conns :
  w_heap w !! a = Some c → c_id c' = c_id c → ns = w_nextConnID w → idsOk w →
  idsOk (World ns (<[a := c']> (w_heap w)) conns cs).
Proof.
  intros Ha Hid -> Hw. apply (idsOk_same w); simpl; [done| | |done].
  - rewrite dom_insert_L. apply elem_of_dom_2 in Ha. set_solver.
  - intros b d. destruct (decide (b = a)) as [->|].
    + rewrite lookup_insert_eq. intros [= <-]. eauto.
    + rewrite lookup_insert_ne by done. eauto.
Qed.

Lemma idsOk_withConn a f w : (∀ c, c_id (f c) = c_id c) → idsOk w → idsOk (withConn a f w).
Proof.
  intros Hf Hw. unfold withConn. destruct (w_heap w !! a) eqn:E; [|done].
  by eapply idsOk_insert.
Qed.

Lemma idsOk_keep w w' : w_nextConnID w' = w_nextConnID w → w_heap w' = w_heap w → idsOk w → idsOk w'.
Proof. intros Hn Hh. apply idsOk_same; rewrite ?Hh; eauto. Qed.

Lemma startCall_ids k ts ctx f w : idsOk w → idsOk (startCall k ts ctx f w).
Proof. apply idsOk_keep; unfold startCall; by destruct (w_calls w !! k). Qed.

Lemma step_ids w e : idsOk w → idsOk (step w e).
Proof.
  intros Hw. destruct e as [a k b|a|a|a|a|a|a e|k ev d|k a ctx f|p k cur tot m|k cd pick]; simpl.
  - by apply idsOk_create.
  - by apply idsOk_create.
  - revert Hw. apply idsOk_keep; unfold joinConns;
      destruct (w_heap w !! a) as [c|]; [destruct (c_detached c)| |destruct (c_detached c)|]; done.
  - by revert Hw; apply idsOk_keep.
  - by apply idsOk_withConn.
  - apply idsOk_withConn; [|done]. intros c. by destruct (c_closed c).
  - apply idsOk_withConn; [|done]. intros c. by destruct (c_transport c), (pumpEvent e).
  - by apply startCall_ids.
  - destruct ctx; by apply startCall_ids.
  - destruct p; [done|by apply startCall_ids].
  - unfold callTurn. destruct (w_calls w !! k) as [cl|]; [|done]. destruct (cl_todo cl) as [|a ts]; [done|].
    destruct (w_heap w !! a) as [c|] eqn:Ea; [|done].
    destruct (visitConn k a c cd pick cl) as [c' cl'] eqn:Ev. eapply idsOk_insert; try done.
    apply visit_sections in Ev as [(? & _ & Hg)|[(? & _ & _ & Hg & _)|(? & _ & Hg & _)]]; apply Hg.
Qed.

(** No two connections of a server share an id, detached ones included, below 2^64
    connections: subscriptions are keyed by it. *)
Lemma connection_ids_distinct w a b c d :
  reach w → (Z.of_nat (size (w_heap w)) < 2 ^ 64)%Z →
  w_heap w !! a = Some c → w_heap w !! b = Some d → c_id c = c_id d → a = b.
Proof.
  intros Hr Hlt. assert (idsOk w) as Hi; [|by apply (ids_inj w Hi)].
  revert Hlt. clear -Hr. intros _. revert w Hr. apply reachable_invariant.
  - intros ? ->. split; done.
  - intros w w' _ Hw (e & ->). by apply step_ids.
Qed.

(** Nothing is ever queued on a detached connection, and a send to it always fails. *)
Lemma detached_gets_nothing w a c k first cd pick x :
  reach w → w_heap w !! a = Some c → Detached c = true →
  received k c = [] ∧ (a ∉ w_conns w) ∧ SupportsBinary (c_transport c) = false ∧
  ∃ e, transportSend first cd pick x (c_transport c) = (c_transport c, Returned (Some e)).
Proof.
  intros Hr%reach_worldOk Ha Hd. pose proof Hd as Ht. apply (wo_detached w Hr a c Ha) in Ht.
  rewrite Ht. split_and!; [|intros Hin|done|].
  - unfold received, acceptedOf. by rewrite Ht.
  - destruct (wo_conns w Hr a Hin) as (c' & ? & ?). unfold Detached in Hd. congruence.
  - unfold transportSend. destruct (isBinary _); eauto.
Qed.

(** The connection of a request's context gets the progress update, under the request's id;
    without a request nothing is sent. *)
Lemma progress_update_goes_to_request ctx k current total message w :
  w_calls w !! k = None →
  match ctx with
  | None => Update (Progress ctx) k current total message w = w
  | Some (a, id) =>
      follows k [a] false (Some (FProgress id current total message))
        (Update (Progress ctx) k current total message w)
  end.
Proof. intros Hk. destruct ctx as [[a id]|]; [|done]. by apply startCall_follows. Qed.

End Server.

(** Two connections join, one closes while the broadcast is under way, and a third and a
    detached one are not in its snapshot. *)
#[local] Instance exOrder : RangeOrder nat := elements_order.

Definition exServer : world :=
  runs step newServer [EAccept 1 Outbound.WS true; ERegister 1; EAccept 2 Outbound.Stream true;
                       ERegister 2; EDetached 3].

Definition exEvents : list event :=
  [EAccept 4 Outbound.WS true; ERegister 4; ETurn 0 false 0; ECloseFlag 1; ETurn 0 false 0;
   ECloseTransport 1; ETurn 0 false 0; ETurn 0 false 0].

Abbreviation exAfter := (runs step (Broadcast 0 "Saved" (Some "{}") exServer) exEvents).

Lemma exServer_reach : reach exServer.
Proof.
  unfold exServer. apply (runs_invariant step); [by apply reach_init|].
  intros w e Hw. eapply reach_step; eauto.
Qed.

Definition exCall : call :=
  Call (Some (FPush "Saved" "{}")) false [] Checking [(2, None); (1, Some ErrConnectionClosed)].

Lemma broadcast_exactly_once_witness :
  received 0 <$> w_heap exAfter !! 2 = Some [FPush "Saved" "{}"] ∧
  received 0 <$> w_heap exAfter !! 1 = Some [] ∧
  ∀ a c, w_heap exAfter !! a = Some c → (a ∉ w_conns exServer) → received 0 c = [].
Proof.
  split_and!; [vm_compute; reflexivity..|]. intros a c Ha Hin.
  eapply (broadcast_exactly_once exServer 0 "Saved" "{}" exEvents exCall exServer_reach);
    [..|exact Ha|exact Hin]; vm_compute; reflexivity.
Defined.

End Fanout.

Module Values.
Section Store.
  Context `{Countable K} {V : Type} (nil : V).

(** The map of a connection's values, nil until the first [Set]. *)
Definition values : Type := option (gmap K V).

Definition SetValue (key : K) (value : V) (s : values) : values :=
  Some (<[key := value]> (default ∅ s)).

Definition GetValue (key : K) (s : values) : V :=
  match s with
  | None => nil
  | Some m => default nil (m !! key)
  end.

Definition LoadValue (key : K) (s : values) : V * bool :=
  match s with
  | None => (nil, false)
  | Some m => match m !! key with Some v => (v, true) | None => (nil, false) end
  end.

(** What the store stands for. *)
Definition contents (s : values) : gmap K V := default ∅ s.

(** The lazy map cannot be told from a map that was there from the start, and [Load] tells a
    key set to nil from one that was never set, which [Get] does not. *)
Lemma values_refine key value s :
  contents (SetValue key value s) = <[key := value]> (contents s) ∧
  GetValue key s = default nil (contents s !! key) ∧
  LoadValue key s = (GetValue key s, bool_decide (is_Some (contents s !! key))).
Proof.
  split_and!; [done| |]; unfold GetValue, LoadValue, contents; destruct s as [m|]; simpl;
    rewrite ?lookup_empty; [done..| |done]. by destruct (m !! key).
Qed.

End Store.
End Values.

Module Hooks.
Section Lists.
  (** [Mid] is [Middleware]; a hook is run on the world [S] of the program. *)
  Context {Mid S E : Type}.

Record hooks := ServerHooks {
  middleware : list Mid;
  connectHooks : list (S → S * option E);
  disconnectHooks : list (S → S);
  stopHooks : list (S → S);
}.

Definition noHooks : hooks := ServerHooks [] [] [] [].

Definition Use (mw : list Mid) (h : hooks) : hooks :=
  ServerHooks (middleware h ++ mw) (connectHooks h) (disconnectHooks h) (stopHooks h).

Definition OnConnect (hook : S → S * option E) (h : hooks) : hooks :=
  ServerHooks (middleware h) (connectHooks h ++ [hook]) (disconnectHooks h) (stopHooks h).

Definition OnDisconnect (hook : S → S) (h : hooks) : hooks :=
  ServerHooks (middleware h) (connectHooks h) (disconnectHooks h ++ [hook]) (stopHooks h).

Definition OnStop (hook : S → S) (h : hooks) : hooks :=
  ServerHooks (middleware h) (connectHooks h) (disconnectHooks h) (stopHooks h ++ [hook]).

Fixpoint runConnectHooks (hs : list (S → S * option E)) (s : S) : S * option E :=
  match hs with
  | [] => (s, None)
  | hook :: hs =>
      match hook s with
      | (s, Some err) => (s, Some err)
      | (s, None) => runConnectHooks hs s
      end
  end.

Definition runDisconnectHooks (hs : list (S → S)) (s : S) : S := fold_left (λ s hook, hook s) hs s.

(** A connect hook runs only when those registered before it accepted, and the first that
    refuses decides. *)
Lemma runConnectHooks_app hs1 hs2 s :
  runConnectHooks (hs1 ++ hs2) s =
    match runConnectHooks hs1 s with
    | (s, Some err) => (s, Some err)
    | (s, None) => runConnectHooks hs2 s
    end.
Proof.
  revert s. induction hs1 as [|hook hs1 IH]; intros s; simpl; [done|].
  by destruct (hook s) as [s' [err|]].
Qed.

Lemma OnConnect_runs_last hook h s :
  runConnectHooks (connectHooks (OnConnect hook h)) s =
    match runConnectHooks (connectHooks h) s with
    | (s, Some err) => (s, Some err)
    | (s, None) => hook s
    end.
Proof.
  simpl. rewrite runConnectHooks_app. destruct (runConnectHooks _ s) as [s' [err|]]; [done|].
  simpl. by destruct (hook s') as [s2 [err|]].
Qed.

Lemma OnDisconnect_runs_last hook h s :
  runDisconnectHooks (disconnectHooks (OnDisconnect hook h)) s =
    hook (runDisconnectHooks (disconnectHooks h) s).
Proof. unfold runDisconnectHooks. simpl. by rewrite fold_left_app. Qed.

End Lists.
End Hooks.
