(* ===== verification/ClientParts.v ===== *)
(** * ClientParts: the objects of the Go client (client/subscription.go, client/stream.go,
      client/push.go, client/call.go, client/errors.go)

    Each object is what the code guards with the object's own mutex: a record with one
    function per critical section. [Module Sub] is [Subscription], with the slot bookkeeping
    and the one-value channel C; [Module RawStream] the buffer of a running stream;
    [Module Drain] the queue in front of a push handler and of OnStateChange, each with its
    goroutine. Client.v puts them together. *)

From S2P Require Import Prelude Protocol.
From stdpp Require Import prelude gmap strings list.

(** ** Errors of the client *)

Module Errors.

(** [Error]: a code, a message and the attached data. *)
Record apiError := ApiErr {
  Code : Z;
  Message : string;
  Data : option string;
}.

#[export] Instance apiError_eq_dec : EqDecision apiError.
Proof. solve_decision. Defined.

(** The errors a client operation can end with: the package's sentinels (with what they
    wrap), an error of the server, the caller's context, and local failures. *)
Inductive clientErr :=
  | ErrClosed
  | ErrConnectionLost (cause : string)
  | ErrMessageTooLarge
  | ErrApi (e : apiError)
  | ErrCtx
  | ErrEncode
  | ErrDecode
  | ErrPatch
  | ErrGaveUp (attempts : Z) (cause : string).

#[export] Instance clientErr_eq_dec : EqDecision clientErr.
Proof. solve_decision. Defined.

(** [HasCode]. *)
Definition HasCode (e : clientErr) (code : Z) : bool :=
  match e with ErrApi a => bool_decide (Code a = code) | _ => false end.

(** The client's own copies of the server's codes. *)
Definition CodeInvalidRequest : Z := -32600.
Definition CodeInternalError : Z := -32603.
Definition CodeConnectionRejected : Z := -32002.
Definition CodeAuthFailed : Z := -32005.

End Errors.

(** ** Subscriptions *)

Module Sub.
Import Errors.

(** A full result as the wire carries it: JSON, or the blob of a binary frame. *)
Record Blob := BlobVal { BlobType : string; BlobData : list Z }.
Inductive payload := Raw (r : string) | BlobResult (b : Blob).

Record Subscription {T : Type} := Subscr {
  applyPatch : option (T → string → option T);
  chan : option T;             (* the buffer of C *)
  closed : bool;
  err : option clientErr;
  current : T;
  hasCur : bool;
  awaiting : option nat;       (* the connection of an unanswered subscribe frame *)
  resend : bool;
}.
Arguments Subscription T : clear implicits.

Section Ops.
  Context {T : Type} (zero : T).
  (** What T decides: whether it is Blob or *Blob, and how JSON decodes into it. *)
  Context (ofBlob : option (Blob → T)) (unmarshalWire : string → option T).
  Implicit Types s : Subscription T.

Definition newSubscription (apply : option (T → string → option T)) : Subscription T :=
  Subscr T apply None false None zero false None false.

(** [decodeResult]. *)
Definition decodeResult (p : payload) : option T :=
  match p with
  | BlobResult b => match ofBlob with Some f => Some (f b) | None => None end
  | Raw r => if bool_decide (r = "") then Some zero else unmarshalWire r
  end.

(** [closeWith]: whether this call closed it. *)
Definition closeWith (e : option clientErr) s : Subscription T * bool :=
  if closed s then (s, false)
  else (Subscr T (applyPatch s) (chan s) true e zero (hasCur s) (awaiting s) (resend s), true).

Definition sent (conn : nat) s : Subscription T :=
  Subscr T (applyPatch s) (chan s) (closed s) (err s) (current s) (hasCur s) (Some conn) (resend s).

Definition awaitingOn s : option nat := awaiting s.

Definition markResend s : Subscription T :=
  Subscr T (applyPatch s) (chan s) (closed s) (err s) (current s) (hasCur s) (awaiting s) true.

Definition takeResend s : Subscription T * bool :=
  (Subscr T (applyPatch s) (chan s) (closed s) (err s) (current s) (hasCur s) (awaiting s) false,
   resend s).

Definition takeAwaiting s : Subscription T * option nat :=
  (Subscr T (applyPatch s) (chan s) (closed s) (err s) (current s) (hasCur s) None (resend s),
   awaiting s).

Definition connLost s : Subscription T :=
  Subscr T (applyPatch s) (chan s) (closed s) (err s) zero false None false.

Definition wantsPatch s : bool := match applyPatch s with Some _ => true | None => false end.

(** [publishLocked]: drain C, then send. *)
Definition publishLocked (v : T) s : Subscription T :=
  if closed s then s
  else if wantsPatch s
  then Subscr T (applyPatch s) (Some v) (closed s) (err s) v true (awaiting s) (resend s)
  else Subscr T (applyPatch s) (Some v) (closed s) (err s) (current s) (hasCur s) (awaiting s) (resend s).

(** [deliver]; Some e is the call [s.end(e)] that follows a result that does not decode. *)
Definition deliver (p : payload) s : Subscription T * option clientErr :=
  match decodeResult p with
  | None => (s, Some ErrDecode)
  | Some v => (publishLocked v s, None)
  end.

(** [patch] takes the mutex twice, around the user's function. *)
Inductive patchStart := PatchIgnored | PatchRefused | PatchApply (cur : T) (f : T → string → option T).

Definition patchBegin s : patchStart :=
  if closed s then PatchIgnored
  else match applyPatch s with
       | Some f => if hasCur s then PatchApply (current s) f else PatchRefused
       | None => PatchRefused
       end.

Definition patchFinish (next : T) s : Subscription T :=
  if hasCur s then publishLocked next s else s.

(** [patch] without interference: the bool result, and the error of [s.end]. *)
Definition patch (raw : string) s : Subscription T * bool * option clientErr :=
  match patchBegin s with
  | PatchIgnored => (s, true, None)
  | PatchRefused => (s, false, None)
  | PatchApply cur f =>
      match f cur raw with
      | None => (s, true, Some ErrPatch)
      | Some next => (patchFinish next s, true, None)
      end
  end.

(** A receive on C by the reader. *)
Definition recv s : Subscription T * option T :=
  (Subscr T (applyPatch s) None (closed s) (err s) (current s) (hasCur s) (awaiting s) (resend s),
   chan s).

(** ** What the reader sees *)

(** The read goroutine, the reader and the connection, in the order they take the mutex. *)
Inductive event :=
  | EDeliver (p : payload)
  | EPatch (raw : string)
  | ERecv
  | EConnLost
  | EEnd (e : option clientErr).

(** A run keeps the values received, and the patches the subscription could not apply (the
    client answers each with a resubscribe). A failure to decode or to apply ends the
    subscription. *)
Record watched := Watched { sub : Subscription T; received : list T; refused : nat }.

Definition endWith (e : option clientErr) (w : watched) : watched :=
  Watched (fst (closeWith e (sub w))) (received w) (refused w).

Definition step (w : watched) (e : event) : watched :=
  match e with
  | EDeliver p =>
      let '(s, oe) := deliver p (sub w) in
      let w := Watched s (received w) (refused w) in
      match oe with Some x => endWith (Some x) w | None => w end
  | EPatch raw =>
      let '(s, ok, oe) := patch raw (sub w) in
      let w := Watched s (received w) (if ok then refused w else S (refused w)) in
      match oe with Some x => endWith (Some x) w | None => w end
  | ERecv =>
      let '(s, ov) := recv (sub w) in
      Watched s (received w ++ option_list ov) (refused w)
  | EConnLost => Watched (connLost (sub w)) (received w) (refused w)
  | EEnd e => endWith e w
  end.

(** The abstract subscription: whether it is open, the values published so far in order,
    and the value a patch applies to. *)
Record spec := Spec { sp_open : bool; sp_published : list T; sp_base : option T }.

Definition publish (v : T) (a : spec) : spec := Spec (sp_open a) (sp_published a ++ [v]) (Some v).

Definition specStep (apply : option (T → string → option T)) (a : spec) (e : event) : spec :=
  if sp_open a then
    match e with
    | EDeliver p =>
        match decodeResult p with
        | Some v => publish v a
        | None => Spec false (sp_published a) (sp_base a)
        end
    | EPatch raw =>
        match apply, sp_base a with
        | Some f, Some v =>
            match f v raw with
            | Some v' => publish v' a
            | None => Spec false (sp_published a) (sp_base a)
            end
        | _, _ => a
        end
    | EConnLost => Spec true (sp_published a) None
    | EEnd _ => Spec false (sp_published a) (sp_base a)
    | ERecv => a
    end
  else a.

(** The reader has received a subsequence of what was published; what it has not skipped or
    received is at most the newest value. *)
Inductive conflated : list T → option T → list T → Prop :=
  | conf_nil : conflated [] None []
  | conf_pub pub c got v : conflated pub c got → conflated (pub ++ [v]) (Some v) got
  | conf_recv pub c got : conflated pub c got → conflated pub None (got ++ option_list c).

Definition implements (apply : option (T → string → option T)) (w : watched) (a : spec) : Prop :=
  applyPatch (sub w) = apply ∧ closed (sub w) = negb (sp_open a) ∧
  conflated (sp_published a) (chan (sub w)) (received w) ∧
  (sp_open a = true → apply ≠ None →
     match sp_base a with
     | Some v => hasCur (sub w) = true ∧ current (sub w) = v
     | None => hasCur (sub w) = false
     end).

Lemma endWith_implements apply e w a :
  implements apply w a → implements apply (endWith e w) (Spec false (sp_published a) (sp_base a)).
Proof.
  intros (Ha & Hc & Hf & _). unfold implements, endWith, closeWith.
  destruct (closed (sub w)) eqn:E; simpl; rewrite ?E; done.
Qed.

Lemma publish_implements apply v w a :
  sp_open a = true → implements apply w a →
  implements apply (Watched (publishLocked v (sub w)) (received w) (refused w)) (publish v a).
Proof.
  intros Ho (Ha & Hc & Hf & Hb). rewrite Ho in Hc. simpl in Hc.
  unfold implements, publishLocked, wantsPatch. rewrite Hc, Ha.
  assert (conflated (sp_published a ++ [v]) (Some v) (received w)) by by econstructor.
  destruct apply; simpl; rewrite ?Ho; done.
Qed.

Lemma step_closed w e : closed (sub w) = true → closed (sub (step w e)) = true.
Proof.
  intros Hc. destruct e; simpl.
  - unfold deliver. destruct (decodeResult p); simpl; unfold publishLocked, endWith, closeWith; simpl;
      by rewrite Hc.
  - unfold patch, patchBegin. rewrite Hc. done.
  - done.
  - done.
  - unfold endWith, closeWith. by rewrite Hc.
Qed.

Lemma step_implements apply w a e :
  implements apply w a → implements apply (step w e) (specStep apply a e).
Proof.
  intros Hi. pose proof Hi as (Ha & Hc & Hf & Hb). unfold specStep.
  destruct (sp_open a) eqn:Ho; simpl in Hc.
  - destruct e as [p|raw| | |x]; simpl.
    + unfold deliver. destruct (decodeResult p) as [v|]; simpl.
      * by apply publish_implements.
      * destruct w. by apply endWith_implements.
    + unfold patch, patchBegin. rewrite Hc, Ha. destruct apply as [f|]; [|by destruct w].
      specialize (Hb eq_refl ltac:(done)). destruct (sp_base a) as [v|] eqn:Eb.
      * destruct Hb as [Hh Hcur]. rewrite Hh, Hcur.
        destruct (f v raw) as [next|].
        -- unfold patchFinish. rewrite Hh. by apply publish_implements.
        -- rewrite <- Eb. destruct w. by apply endWith_implements.
      * rewrite Hb. simpl. unfold implements. simpl. rewrite Eb, Ha, Hc, Ho. done.
    + unfold implements. simpl. rewrite Ho. split_and!; try done. by econstructor.
    + done.
    + by apply endWith_implements.
  - assert (Hcl : ∀ w', closed (sub w') = true → applyPatch (sub w') = apply →
      conflated (sp_published a) (chan (sub w')) (received w') → implements apply w' a).
    { intros w' ? ? ?. unfold implements. rewrite Ho. done. }
    destruct e as [p|raw| | |x]; simpl.
    + unfold deliver, endWith, closeWith, publishLocked.
      destruct (decodeResult p); simpl; rewrite Hc; apply Hcl; simpl; done.
    + unfold patch, patchBegin. rewrite Hc. by destruct w.
    + apply Hcl; simpl; [done|done|]. by econstructor.
    + by apply Hcl.
    + unfold endWith, closeWith. rewrite Hc. by destruct w.
Qed.

Lemma conflated_latest pub c got :
  conflated pub c got →
  (got ++ option_list c) `sublist_of` pub ∧ last (got ++ option_list c) = last pub.
Proof.
  induction 1 as [|pub c got v _ [Hs Hl]|pub c got _ [Hs Hl]]; simpl; [done| |].
  - rewrite !last_snoc. split; [|done]. apply sublist_app; [|done].
    etrans; [|exact Hs]. by apply sublist_inserts_r.
  - rewrite app_nil_r. done.
Qed.

(** C32: a subscription shows its reader the latest value. Whatever the order of results,
    patches, reads, connection losses and ends: what the reader has received, followed by
    what waits in C, is a subsequence of the values published, and its last element is the
    newest one, so a slow reader skips values but never ends on a stale one. The values
    published are those of the abstract subscription: each full result, and each patch
    applied to the value before it; after the connection was lost, a patch is refused until
    a full result has come, and nothing is published after the end. *)
Theorem subscription_latest_wins (apply : option (T → string → option T)) (es : list event) :
  let w := runs step (Watched (newSubscription apply) [] 0) es in
  let a := runs (specStep apply) (Spec true [] None) es in
  (received w ++ option_list (chan (sub w))) `sublist_of` sp_published a ∧
  last (received w ++ option_list (chan (sub w))) = last (sp_published a) ∧
  closed (sub w) = negb (sp_open a) ∧
  (sp_open a = true → ∀ raw, (patch raw (sub w)).1.2 = false ↔ apply = None ∨ sp_base a = None).
Proof.
  cbv zeta. assert (H : implements apply (runs step (Watched (newSubscription apply) [] 0) es)
    (runs (specStep apply) (Spec true [] None) es)).
  { assert (Hg : ∀ es w a, implements apply w a →
      implements apply (runs step w es) (runs (specStep apply) a es)).
    { clear. induction es; simpl; eauto using step_implements. }
    apply Hg. unfold implements. simpl. split_and!; try done. constructor. }
  revert H. generalize (runs step (Watched (newSubscription apply) [] 0) es) as w.
  generalize (runs (specStep apply) (Spec true [] None) es) as a.
  intros a w (Ha & Hc & Hf & Hb). apply conflated_latest in Hf as [Hs Hl].
  split_and!; [done|done|done|]. intros Ho raw. rewrite Ho in Hc. simpl in Hc.
  unfold patch, patchBegin. rewrite Hc, Ha. destruct apply as [f|]; [|naive_solver].
  specialize (Hb Ho ltac:(done)). destruct (sp_base a) as [v|].
  - destruct Hb as [-> ->]. destruct (f v raw); simpl; naive_solver.
  - rewrite Hb. simpl. naive_solver.
Qed.

End Ops.

End Sub.

(** ** Streams *)

Module RawStream.
Import Errors.

Record rawStream {I : Type} := RawStr {
  items : list I;
  serverDone : bool;
  stopped : bool;
  err : option clientErr;
}.
Arguments rawStream I : clear implicits.

Section Ops.
  Context {I : Type}.
  Implicit Types s : rawStream I.

Definition newRawStream : rawStream I := RawStr I [] false false None.

Definition push (item : I) s : rawStream I :=
  if negb (serverDone s) && negb (stopped s)
  then RawStr I (items s ++ [item]) (serverDone s) (stopped s) (err s) else s.

Definition firstErr s (e : option clientErr) : option clientErr :=
  match err s with None => e | Some x => Some x end.

Definition end_ (e : option clientErr) s : rawStream I :=
  if serverDone s then s else RawStr I (items s) true (stopped s) (firstErr s e).

(** [next]: it waits while the buffer is empty and the stream is live. *)
Inductive nextResult := Wait | Over | Item (i : I).

Definition next s : rawStream I * nextResult :=
  if bool_decide (items s = []) && negb (serverDone s) && negb (stopped s) then (s, Wait)
  else match stopped s, items s with
       | false, i :: rest => (RawStr I rest (serverDone s) (stopped s) (err s), Item i)
       | _, _ => (s, Over)
       end.

(** [stop]: whether the stream was running at the server, which makes the caller remove it
    from the client's table and send a cancel frame. *)
Definition stop (e : option clientErr) s : rawStream I * bool :=
  if stopped s then (s, false)
  else (RawStr I [] true true (firstErr s e), negb (serverDone s)).

(** ** The read loop against the consumer *)

Inductive event :=
  | EPush (i : I)
  | EEnd (e : option clientErr)
  | ENext
  | EStop (e : option clientErr).

(** A run keeps the items pushed while the stream was live, the items yielded, whether the
    consumer was told that the stream is over, and the cancels sent. *)
Record watched := Watched {
  strm : rawStream I;
  arrived : list I;
  yielded : list I;
  toldOver : bool;
  cancels : nat;
}.

Definition step (w : watched) (e : event) : watched :=
  let s := strm w in
  match e with
  | EPush i =>
      Watched (push i s)
        (if negb (serverDone s) && negb (stopped s) then arrived w ++ [i] else arrived w)
        (yielded w) (toldOver w) (cancels w)
  | EEnd e => Watched (end_ e s) (arrived w) (yielded w) (toldOver w) (cancels w)
  | ENext =>
      match next s with
      | (s, Wait) => Watched s (arrived w) (yielded w) (toldOver w) (cancels w)
      | (s, Over) => Watched s (arrived w) (yielded w) true (cancels w)
      | (s, Item i) => Watched s (arrived w) (yielded w ++ [i]) (toldOver w) (cancels w)
      end
  | EStop e =>
      let '(s, running) := stop e s in
      Watched s (arrived w) (yielded w) (toldOver w) (if running then S (cancels w) else cancels w)
  end.

Definition init : watched := Watched newRawStream [] [] false 0.

(** The consumer stopped before the server side was over. *)
Fixpoint stoppedFirst (es : list event) : bool :=
  match es with
  | [] => false
  | EEnd _ :: _ => false
  | EStop _ :: _ => true
  | _ :: es => stoppedFirst es
  end.

Definition inv (w : watched) : Prop :=
  let s := strm w in
  (stopped s = false → arrived w = yielded w ++ items s) ∧
  (stopped s = true → serverDone s = true ∧ items s = []) ∧
  yielded w `prefix_of` arrived w ∧
  (toldOver w = true → serverDone s = true ∧ items s = []) ∧
  (cancels w = 0 ∨ (cancels w = 1 ∧ stopped s = true)).

Lemma streamInv_step w e : inv w → inv (step w e).
Proof.
  intros (Hl & Hs & Hp & Ho & Hc). unfold inv. destruct e as [i|e| |e]; simpl.
  - unfold push. destruct (serverDone (strm w)) eqn:Ed, (stopped (strm w)) eqn:Es; simpl;
      rewrite ?Ed, ?Es; split_and!; try done.
    + intros _. by rewrite Hl, (assoc_L (++)).
    + rewrite (Hl eq_refl). rewrite <- (assoc_L (++)). by apply prefix_app_r.
    + intros Ht. by destruct (Ho Ht).
  - unfold end_. destruct (serverDone (strm w)) eqn:Ed; simpl; rewrite ?Ed; [done|].
    split_and!; try done.
    + intros Hst. by destruct (Hs Hst).
    + intros Ht. by destruct (Ho Ht).
  - unfold next. destruct (items (strm w)) as [|i rest] eqn:Ei.
    + rewrite bool_decide_true by done. simpl.
      destruct (serverDone (strm w)) eqn:Ed; simpl.
      * destruct (stopped (strm w)) eqn:Es; simpl; rewrite ?Ed, ?Ei, ?Es; naive_solver.
      * destruct (stopped (strm w)) eqn:Es; simpl; rewrite ?Ed, ?Ei, ?Es; [|done].
        by destruct (Hs eq_refl).
    + rewrite bool_decide_false by done. simpl.
      destruct (stopped (strm w)) eqn:Es; simpl; rewrite ?Es.
      * by destruct (Hs eq_refl).
      * split_and!; try done.
        -- intros _. by rewrite (Hl eq_refl), <- (assoc_L (++)).
        -- rewrite (Hl eq_refl). exists rest. by rewrite <- (assoc_L (++)).
        -- intros Ht. by destruct (Ho Ht).
  - unfold stop. destruct (stopped (strm w)) eqn:Es; simpl; rewrite ?Es.
    + done.
    + split_and!; try done. destruct Hc as [->|[]]; [|done]. destruct (serverDone _); simpl; auto.
Qed.

Lemma inv_runs es : inv (runs step init es).
Proof.
  apply runs_invariant; [|intros; by apply streamInv_step].
  unfold inv. simpl. split_and!; try done. by left.
Qed.

Lemma err_kept w es x : err (strm w) = Some x → err (strm (runs step w es)) = Some x.
Proof.
  intros Hx. apply (runs_invariant step (λ w, err (strm w) = Some x)); [done|].
  clear. intros w [i|e| |e] Hx; simpl.
  - unfold push. by destruct (_ && _).
  - unfold end_, firstErr. destruct (serverDone _); simpl; by rewrite ?Hx.
  - unfold next. repeat case_match; simplify_eq; done.
  - unfold stop, firstErr. destruct (stopped _); simpl; by rewrite ?Hx.
Qed.

Lemma cancels_done w es :
  serverDone (strm w) = true → cancels (runs step w es) = cancels w.
Proof.
  intros Hd. apply (runs_invariant step (λ w', serverDone (strm w') = true ∧ cancels w' = cancels w));
    [done|]. clear. intros w' e [Hd <-]. destruct e as [i|e| |e]; simpl.
  - unfold push. by rewrite Hd.
  - unfold end_. by rewrite Hd.
  - unfold next. rewrite Hd, andb_false_r. simpl. repeat case_match; simplify_eq; done.
  - unfold stop. destruct (stopped _); simpl; by rewrite Hd.
Qed.

Lemma cancels_exact w es :
  serverDone (strm w) = false → stopped (strm w) = false →
  cancels (runs step w es) = if stoppedFirst es then S (cancels w) else cancels w.
Proof.
  revert w. induction es as [|e es IH]; intros w Hd Hs; simpl; [done|].
  destruct e as [i|e| |e]; simpl.
  - rewrite IH; unfold push; rewrite Hd, Hs; done.
  - unfold end_. rewrite Hd. by rewrite cancels_done.
  - unfold next. rewrite Hd, Hs. destruct (items (strm w)) eqn:Ei; simpl.
    + rewrite IH; simpl; done.
    + rewrite IH; simpl; done.
  - unfold stop. rewrite Hd, Hs. simpl. by rewrite cancels_done.
Qed.

(** A stream hands its items to the consumer in order and without loss, however the
    read loop and the consumer interleave: what was yielded is a prefix of what arrived;
    until the consumer stops, the rest is in the buffer; the consumer is told that the
    stream is over only when it has ended and every item has been yielded, or when it
    stopped itself. The first error stays. Exactly one cancel goes to the server when the
    consumer stops a stream the server has not ended, and none otherwise. *)
Theorem stream_in_order (es es' : list event) :
  let w := runs step init es in
  yielded w `prefix_of` arrived w ∧
  (stopped (strm w) = false → arrived w = yielded w ++ items (strm w)) ∧
  (toldOver w = true → serverDone (strm w) = true ∧
     (stopped (strm w) = false → yielded w = arrived w)) ∧
  (∀ x, err (strm w) = Some x → err (strm (runs step init (es ++ es'))) = Some x) ∧
  cancels w = (if stoppedFirst es then 1 else 0).
Proof.
  cbv zeta. destruct (inv_runs es) as (Hl & Hs & Hp & Ho & Hc).
  split_and!; [done|done| | |].
  - intros Ht. destruct (Ho Ht) as [Hd Hi]. split; [done|]. intros Hst.
    by rewrite (Hl Hst), Hi, app_nil_r.
  - intros x Hx. rewrite runs_app. by apply err_kept.
  - by rewrite cancels_exact.
Qed.

End Ops.

End RawStream.

(** ** Queues with a goroutine: push handlers and state notifications *)

Module Drain.

Record pushHandler {D : Type} := Handler {
  queue : list D;
  running : bool;
  removed : bool;
}.
Arguments pushHandler D : clear implicits.

Section Ops.
  Context {D : Type}.
  Implicit Types h : pushHandler D.

(** [enqueue]; the bool is [go h.drain()]. *)
Definition enqueue (data : D) h : pushHandler D * bool :=
  if removed h then (h, false)
  else if running h then (Handler D (queue h ++ [data]) true false, false)
  else (Handler D (queue h ++ [data]) true false, true).

(** One turn of [drain]'s loop, up to the call of [handle]: None ends the goroutine. *)
Definition drain h : pushHandler D * option D :=
  match queue h with
  | data :: q =>
      if removed h then (Handler D [] false true, None)
      else (Handler D q (running h) false, Some data)
  | [] => (Handler D [] false (removed h), None)
  end.

(** The removal function that [OnPush] returns, under the handler's mutex. *)
Definition remove h : pushHandler D := Handler D [] (running h) true.

(** [stateNotifier.push] and a turn of its goroutine; [fn] says whether OnStateChange is
    set. Its state is a handler that is never removed. *)
Definition notifierPush (fn : bool) (s : D) (n : list D * bool) : list D * bool * bool :=
  if negb fn then (n, false)
  else let q := n.1 ++ [s] in
       if n.2 then (q, true, false) else (q, true, true).

Definition notifierTurn (n : list D * bool) : list D * bool * option D :=
  match n.1 with
  | [] => ([], false, None)
  | next :: q => (q, n.2, Some next)
  end.

Definition asHandler (n : list D * bool) : pushHandler D := Handler D n.1 n.2 false.

Lemma notifier_is_handler s n :
  enqueue s (asHandler n) =
    (asHandler (notifierPush true s n).1, (notifierPush true s n).2) ∧
  drain (asHandler n) = (asHandler (notifierTurn n).1, (notifierTurn n).2).
Proof.
  unfold enqueue, drain, notifierPush, notifierTurn, asHandler. destruct n as [q []]; simpl;
    split; try done; by destruct q.
Qed.

(** ** Producers, goroutines and the callback *)

(** [heads] goroutines are at the head of the loop and [busy] are inside the callback;
    [calls] are the calls made so far, [accepted] the data taken into the queue. *)
Record machine := Machine {
  handler : pushHandler D;
  heads : nat;
  busy : list D;
  calls : list D;
  accepted : list D;
}.

Inductive event := EEnqueue (data : D) | ETurn | EReturn | ERemove.

Definition step (m : machine) (e : event) : machine :=
  match e with
  | EEnqueue d =>
      let '(h, spawn) := enqueue d (handler m) in
      Machine h (if spawn then S (heads m) else heads m) (busy m) (calls m)
        (if removed (handler m) then accepted m else accepted m ++ [d])
  | ETurn =>
      match heads m with
      | O => m
      | S n =>
          match drain (handler m) with
          | (h, None) => Machine h n (busy m) (calls m) (accepted m)
          | (h, Some d) => Machine h n (busy m ++ [d]) (calls m ++ [d]) (accepted m)
          end
      end
  | EReturn =>
      match busy m with
      | [] => m
      | _ :: b => Machine (handler m) (S (heads m)) b (calls m) (accepted m)
      end
  | ERemove => Machine (remove (handler m)) (heads m) (busy m) (calls m) (accepted m)
  end.

Definition init : machine := Machine (Handler D [] false false) 0 [] [] [].

Definition inv (m : machine) : Prop :=
  heads m + length (busy m) = Nat.b2n (running (handler m)) ∧
  (queue (handler m) ≠ [] → running (handler m) = true) ∧
  (removed (handler m) = false → accepted m = calls m ++ queue (handler m)) ∧
  (removed (handler m) = true → queue (handler m) = []) ∧
  calls m `prefix_of` accepted m.

Lemma drainInv_step m e : inv m → inv (step m e).
Proof.
  intros (Hn & Hq & Ha & Hr & Hp). unfold inv. destruct m as [[q run rem] hd b c acc]; simpl in *.
  destruct e as [d| | |]; simpl.
  - unfold enqueue. simpl. destruct rem; simpl; [by rewrite ?Hr|].
    rewrite (Ha eq_refl). destruct run; simpl in *; split_and!; try done; try lia;
      try (intros _; by rewrite <- (assoc_L (++))); rewrite <- (assoc_L (++)); by apply prefix_app_r.
  - destruct hd as [|n]; simpl; [done|]. unfold drain. simpl.
    destruct q as [|d q]; simpl.
    + split_and!; try done. destruct run; simpl in *; lia.
    + destruct rem; simpl; [by specialize (Hr eq_refl)|].
      rewrite length_app. simpl. split_and!; try done; try lia.
      * intros _. by apply Hq.
      * intros _. rewrite (Ha eq_refl). by rewrite <- (assoc_L (++)).
      * rewrite (Ha eq_refl). exists q. by rewrite <- (assoc_L (++)).
  - destruct b as [|d b]; simpl in *; [done|]. split_and!; try done; lia.
  - done.
Qed.

(** Push events and state changes reach their callback one at a time, in the order they
    arrived, and none is lost: whatever the interleaving of arrivals, goroutine turns and
    returns, at most one call is in progress, the calls made followed by the queue are
    exactly the data accepted, and a non-empty queue has a goroutine working on it. After
    a removal, no further call starts. *)
Theorem callbacks_serial_in_order (es es' : list event) :
  let m := runs step init es in
  length (busy m) ≤ 1 ∧
  calls m `prefix_of` accepted m ∧
  (removed (handler m) = false → accepted m = calls m ++ queue (handler m) ∧
     (queue (handler m) ≠ [] → heads m + length (busy m) = 1)) ∧
  (removed (handler m) = true → calls (runs step init (es ++ es')) = calls m).
Proof.
  cbv zeta. assert (Hi : ∀ es, inv (runs step init es)).
  { intros. apply runs_invariant; [|intros; by apply drainInv_step].
    unfold inv. simpl. done. }
  destruct (Hi es) as (Hn & Hq & Ha & Hr & Hp). split_and!; [|done| |].
  - destruct (running _); simpl in Hn; lia.
  - intros Hrem. split; [by apply Ha|]. intros Hne. by rewrite Hn, (Hq Hne).
  - intros Hrem. rewrite runs_app. clear Hi Hn Hq Ha Hr Hp.
    apply (runs_invariant step (λ m, removed (handler m) = true ∧
      calls m = calls (runs step init es))); [done|].
    intros m e [Hm <-]. destruct e as [d| | |]; simpl.
    + unfold enqueue. by rewrite Hm.
    + destruct (heads m); [done|]. unfold drain. rewrite Hm. by destruct (queue (handler m)).
    + by destruct (busy m).
    + done.
Qed.

End Ops.

End Drain.
