(* ===== verification/ClientTyped.v ===== *)
(** * ClientTyped: the generic layer of the Go client over the untyped objects
      (client/stream.go, client/push.go, client/blob.go, client/client.go, client/errors.go)

    [Module Range] is the loop [for v := range s.All()] of a typed stream: its iterations
    run on the consumer's goroutine, against the read loop and the watcher of the context,
    over the buffer of ClientParts.v. [Module Codec] has the encodings of arguments,
    pushes, blobs and error payloads, [Module Dial] the options of a connection.
    encoding/json/v2 is a parameter throughout. *)

From S2P Require Import Prelude Protocol ClientParts.
From stdpp Require Import prelude gmap strings list.

Module Range.
Import Errors.

Section Loop.
  Context {I T : Type}.
  (** An item decoded as the stream's element type: a value or nothing. *)
  Context (decode : I → option T).

(** Where the consumer is: before [next], in the loop's body, before a [stop] of the loop
    (of its error path or the deferred one), or past the loop. *)
Inductive phase :=
  | AtNext
  | InBody
  | AtStop (e : clientErr)
  | AtDefer
  | Finished.

(** [got] are the values the body was given. *)
Record loop := Loop {
  strm : RawStream.watched (I := I);
  at_ : phase;
  got : list T;
}.

Definition start : loop := Loop RawStream.init AtNext [].

(** One section of [All]'s loop; in the body, [again] is what [yield] returns. *)
Definition consume (again : bool) (l : loop) : loop :=
  match at_ l with
  | AtNext =>
      let w := RawStream.step (strm l) RawStream.ENext in
      match snd (RawStream.next (RawStream.strm (strm l))) with
      | RawStream.Wait => l
      | RawStream.Over => Loop w AtDefer (got l)
      | RawStream.Item raw =>
          match decode raw with
          | None => Loop w (AtStop ErrDecode) (got l)
          | Some v => Loop w InBody (got l ++ [v])
          end
      end
  | InBody => Loop (strm l) (if again then AtNext else AtDefer) (got l)
  | AtStop e => Loop (RawStream.step (strm l) (RawStream.EStop (Some e))) AtDefer (got l)
  | AtDefer => Loop (RawStream.step (strm l) (RawStream.EStop None)) Finished (got l)
  | Finished => l
  end.

(** The read loop pushes and ends; the context's watcher stops with the context's error,
    and [Close] with nil. *)
Inductive event :=
  | EPush (i : I)
  | EEnd (e : option clientErr)
  | ECtxDone
  | EClose
  | EConsume (again : bool).

Definition onStream (e : RawStream.event) (l : loop) : loop :=
  Loop (RawStream.step (strm l) e) (at_ l) (got l).

Definition step (l : loop) (e : event) : loop :=
  match e with
  | EPush i => onStream (RawStream.EPush i) l
  | EEnd e => onStream (RawStream.EEnd e) l
  | ECtxDone => onStream (RawStream.EStop (Some ErrCtx)) l
  | EClose => onStream (RawStream.EStop None) l
  | EConsume again => consume again l
  end.

(** The consumer gives up by itself: it leaves the loop early or closes the stream. *)
Definition givesUp (e : event) : bool :=
  match e with EClose | EConsume false => true | _ => false end.

(** [Err]. *)
Definition Err (l : loop) : option clientErr := RawStream.err (RawStream.strm (strm l)).

(** ** What the loop has seen *)

(** The values are the items taken from the buffer, decoded in order; only the last one may
    have failed to decode, and then the loop is over. *)
Definition decodedOk (l : loop) : Prop :=
  let w := strm l in
  match at_ l with
  | AtStop e => e = ErrDecode ∧ ∃ l0 x, RawStream.yielded w = l0 ++ [x] ∧
                  mapM decode l0 = Some (got l) ∧ decode x = None
  | AtDefer | Finished =>
      mapM decode (RawStream.yielded w) = Some (got l) ∨
      ∃ l0 x, RawStream.yielded w = l0 ++ [x] ∧ mapM decode l0 = Some (got l) ∧ decode x = None
  | _ => mapM decode (RawStream.yielded w) = Some (got l)
  end.

(** The server has ended the stream and the loop has had all of it. *)
Definition complete (l : loop) : Prop :=
  RawStream.serverDone (RawStream.strm (strm l)) = true ∧
  RawStream.yielded (strm l) = RawStream.arrived (strm l) ∧
  mapM decode (RawStream.arrived (strm l)) = Some (got l).

(** As long as the consumer has not given up, a stream is stopped, and its loop is left,
    only with an error or when it is complete. *)
Definition faithful (l : loop) : Prop :=
  RawStream.inv (strm l) ∧
  (RawStream.stopped (RawStream.strm (strm l)) = true → is_Some (Err l) ∨ at_ l = Finished ∧ complete l) ∧
  (at_ l = AtDefer ∨ at_ l = Finished → is_Some (Err l) ∨ complete l).

Lemma step_yielded (w : RawStream.watched (I := I)) e :
  RawStream.yielded (RawStream.step w e) =
    match e with
    | RawStream.ENext => match snd (RawStream.next (RawStream.strm w)) with
                         | RawStream.Item i => RawStream.yielded w ++ [i]
                         | _ => RawStream.yielded w
                         end
    | _ => RawStream.yielded w
    end.
Proof.
  destruct e; simpl; try done.
  - by destruct (RawStream.next (RawStream.strm w)) as [? [| |]].
  - by destruct (RawStream.stop e (RawStream.strm w)).
Qed.

Lemma err_kept_step (w : RawStream.watched (I := I)) e : is_Some (RawStream.err (RawStream.strm w)) →
  is_Some (RawStream.err (RawStream.strm (RawStream.step w e))).
Proof. intros [x Hx]. exists x. by apply (RawStream.err_kept w [e]). Qed.

Lemma stop_err (w : RawStream.watched (I := I)) x :
  RawStream.stopped (RawStream.strm w) = false →
  is_Some (RawStream.err (RawStream.strm (RawStream.step w (RawStream.EStop (Some x))))).
Proof.
  intros Hs. simpl. unfold RawStream.stop, RawStream.firstErr. rewrite Hs. simpl.
  destruct (RawStream.err (RawStream.strm w)); eauto.
Qed.

Lemma stop_stops (w : RawStream.watched (I := I)) e : RawStream.stopped (RawStream.strm (RawStream.step w (RawStream.EStop e))) = true.
Proof.
  simpl. unfold RawStream.stop. by destruct (RawStream.stopped (RawStream.strm w)) eqn:E.
Qed.

Lemma mapM_snoc (l : list I) x vs v :
  mapM decode l = Some vs → decode x = Some v → mapM decode (l ++ [x]) = Some (vs ++ [v]).
Proof.
  intros Hl Hx. apply mapM_Some. apply mapM_Some in Hl. apply Forall2_app; [done|]. by repeat constructor.
Qed.

Lemma decodedOk_stream e l :
  RawStream.yielded (RawStream.step (strm l) e) = RawStream.yielded (strm l) →
  decodedOk l → decodedOk (onStream e l).
Proof. intros Hy. unfold decodedOk, onStream. simpl. by rewrite Hy. Qed.

Lemma next_stopped s : RawStream.stopped (I := I) s = true → (RawStream.next s).2 = RawStream.Over.
Proof.
  intros Hs. unfold RawStream.next. rewrite Hs. rewrite !andb_false_r. by destruct (RawStream.items s).
Qed.

Lemma decodedOk_consume again l : decodedOk l → decodedOk (consume again l).
Proof.
  intros Hl. unfold consume, decodedOk in *.
  assert (Hy : ∀ e, RawStream.yielded (RawStream.step (strm l) (RawStream.EStop e)) =
    RawStream.yielded (strm l)) by (intros; apply step_yielded).
  pose proof (step_yielded (strm l) RawStream.ENext) as Hn.
  destruct (at_ l) as [| |e| |] eqn:Ea; cbn [at_ strm got]; rewrite ?Hy;
    [| |right; by destruct Hl as [_ ?]|done|by rewrite Ea].
  - destruct (RawStream.next (RawStream.strm (strm l))).2 as [| |raw]; cbn [at_ strm got];
      rewrite ?Ea, ?Hn; [done|by left|].
    destruct (decode raw) as [v|] eqn:Ed; cbn [at_ strm got]; rewrite Hn; [by apply mapM_snoc|].
    split; [done|]. by exists (RawStream.yielded (strm l)), raw.
  - destruct again; simpl; auto.
Qed.

Lemma decodedOk_step l e : decodedOk l → decodedOk (step l e).
Proof.
  destruct e; simpl; try apply decodedOk_stream; try apply step_yielded. apply decodedOk_consume.
Qed.

(** ** Nothing is lost silently *)

Lemma complete_step (w : RawStream.watched (I := I)) e :
  RawStream.serverDone (RawStream.strm w) = true → e ≠ RawStream.ENext →
  RawStream.serverDone (RawStream.strm (RawStream.step w e)) = true ∧
  RawStream.yielded (RawStream.step w e) = RawStream.yielded w ∧
  RawStream.arrived (RawStream.step w e) = RawStream.arrived w.
Proof.
  intros Hd Hne. destruct e as [i|e| |e]; simpl; [| |done|].
  - unfold RawStream.push. by rewrite Hd.
  - unfold RawStream.end_. by rewrite Hd.
  - unfold RawStream.stop. by destruct (RawStream.stopped (RawStream.strm w)).
Qed.

Lemma complete_stream l e :
  e ≠ RawStream.ENext → complete l → complete (onStream e l).
Proof.
  intros Hne (Hd & Hy & Hm). destruct (complete_step (strm l) e Hd Hne) as (H1 & H2 & H3).
  unfold complete, onStream. cbn [strm got]. rewrite H2, H3. done.
Qed.

Lemma err_stream l e : is_Some (Err l) → is_Some (Err (onStream e l)).
Proof. apply err_kept_step. Qed.

(** A section that does not stop the stream leaves it running. *)
Lemma stays_running (w : RawStream.watched (I := I)) e :
  (∀ x, e ≠ RawStream.EStop x) →
  RawStream.stopped (RawStream.strm (RawStream.step w e)) = RawStream.stopped (RawStream.strm w).
Proof.
  intros Hne. destruct e as [i|e| |e]; simpl.
  - unfold RawStream.push. by destruct (_ && _).
  - unfold RawStream.end_. by destruct (RawStream.serverDone _).
  - unfold RawStream.next. repeat case_match; simplify_eq; done.
  - by destruct (Hne e).
Qed.

Lemma faithful_stream e l :
  e ≠ RawStream.ENext → e ≠ RawStream.EStop None → faithful l → faithful (onStream e l).
Proof.
  intros Hn Hs (Hi & H1 & H2). split_and!; cbn [strm onStream at_].
  - by apply RawStream.streamInv_step.
  - intros Hst. destruct (RawStream.stopped (RawStream.strm (strm l))) eqn:E.
    + destruct (H1 eq_refl) as [?|[? ?]]; [left|right; split; [done|]];
        auto using err_stream, complete_stream.
    + left. destruct e as [i|e'| |[x|]]; try done;
        try (rewrite stays_running in Hst by done; congruence). by apply stop_err.
  - intros Hp. destruct (H2 Hp); [left|right]; auto using err_stream, complete_stream.
Qed.

Lemma faithful_consume l : decodedOk l → faithful l → faithful (consume true l).
Proof.
  intros Hdec (Hi & H1 & H2). unfold consume.
  assert (Hi' : ∀ e, RawStream.inv (RawStream.step (strm l) e)) by (intros; by apply RawStream.streamInv_step).
  assert (Hrun := stays_running (strm l) RawStream.ENext ltac:(done)).
  destruct (at_ l) as [| |e| |] eqn:Ea.
  - destruct (RawStream.next (RawStream.strm (strm l))) as [s r] eqn:En. cbn [snd].
    assert (Hkeep : ∀ p g, (p = AtNext ∨ p = InBody ∨ ∃ x, p = AtStop x) →
      faithful (Loop (RawStream.step (strm l) RawStream.ENext) p g)).
    { intros p g Hp. split_and!; cbn [strm at_]; [done| |naive_solver].
      rewrite Hrun. intros Hst. destruct (H1 Hst) as [?|[? _]]; [left; by apply err_kept_step|done]. }
    destruct r as [| |raw]; [by split_and!; rewrite ?Ea| |].
    + assert (Hover : is_Some (Err l) ∨ complete (Loop (RawStream.step (strm l) RawStream.ENext) AtDefer (got l))).
      { destruct (RawStream.stopped (RawStream.strm (strm l))) eqn:Es.
        { destruct (H1 eq_refl) as [?|[? _]]; [by left|done]. }
        right. unfold RawStream.next in En. rewrite Es in En.
        unfold complete. cbn [strm got RawStream.step]. unfold RawStream.next. rewrite Es.
        destruct Hi as (Hl & _). specialize (Hl Es).
        destruct (RawStream.items (RawStream.strm (strm l))) as [|i rest] eqn:Ei.
        - rewrite bool_decide_true in En |- * by done. simpl in En |- *.
          destruct (RawStream.serverDone (RawStream.strm (strm l))) eqn:Esd; simpl in En |- *; [|done].
          rewrite app_nil_r in Hl. unfold decodedOk in Hdec. rewrite Ea in Hdec.
          rewrite Esd, Hl. done.
        - rewrite bool_decide_false in En by done. done. }
      split_and!; cbn [strm at_]; [done| |].
      * rewrite Hrun. intros Hst. destruct (H1 Hst) as [?|[? _]]; [left; by apply err_kept_step|done].
      * intros _. destruct Hover; [left; by apply err_kept_step|by right].
    + destruct (decode raw); apply Hkeep; eauto.
  - split_and!; cbn [strm at_]; [done| |naive_solver]. intros Hst.
    destruct (H1 Hst) as [?|[? _]]; [by left|done].
  - assert (is_Some (Err (Loop (RawStream.step (strm l) (RawStream.EStop (Some e))) AtDefer (got l)))).
    { destruct (RawStream.stopped (RawStream.strm (strm l))) eqn:Es; [|by apply stop_err].
      destruct (H1 eq_refl) as [?|[? _]]; [by apply err_kept_step|done]. }
    split_and!; cbn [strm at_]; auto.
  - assert (is_Some (Err (Loop (RawStream.step (strm l) (RawStream.EStop None)) Finished (got l))) ∨
      complete (Loop (RawStream.step (strm l) (RawStream.EStop None)) Finished (got l))) as Hor.
    { destruct (H2 (or_introl eq_refl)); [left; by apply err_kept_step|right].
      by apply (complete_stream l (RawStream.EStop None)). }
    split_and!; cbn [strm at_]; [done| |done]. intros _. destruct Hor; auto.
  - by split_and!; rewrite ?Ea.
Qed.

(** Every section of the loop is at most one operation on the stream. *)
Lemma step_strm l e : ∃ es, strm (step l e) = runs RawStream.step (strm l) es.
Proof.
  destruct e as [i|e| | |again].
  { by exists [RawStream.EPush i]. }
  { by exists [RawStream.EEnd e]. }
  { by exists [RawStream.EStop (Some ErrCtx)]. }
  { by exists [RawStream.EStop None]. }
  cbn [step]. unfold consume. destruct (at_ l) as [| |e| |].
  - destruct (RawStream.next (RawStream.strm (strm l))).2 as [| |raw]; [by exists []| |].
    + by exists [RawStream.ENext].
    + by exists [RawStream.ENext]; destruct (decode raw).
  - by exists [].
  - by exists [RawStream.EStop (Some e)].
  - by exists [RawStream.EStop None].
  - by exists [].
Qed.

(** A range over a typed stream gives its body, in order, the decoded items the server sent,
    and nothing else, in every interleaving with the read loop, the context and [Close]; at
    most one cancel goes to the server. If the consumer neither left the loop early nor
    closed the stream, then once the loop is over either [Err] returns an error or the
    server has ended the stream and every item it sent was given to the body. *)
Theorem clean_range_is_complete es :
  let l := runs step start es in
  decodedOk l ∧ RawStream.yielded (strm l) `prefix_of` RawStream.arrived (strm l) ∧
  RawStream.cancels (strm l) ≤ 1 ∧
  (Forall (λ e, givesUp e = false) es → at_ l = Finished → Err l = None → complete l).
Proof.
  cbv zeta. assert (Hd : decodedOk (runs step start es)).
  { apply runs_invariant; [done|]. intros; by apply decodedOk_step. }
  assert (Hi : RawStream.inv (strm (runs step start es))).
  { apply (runs_invariant step (λ l, RawStream.inv (strm l))); [apply (RawStream.inv_runs [])|].
    intros l e Hl. destruct (step_strm l e) as [es' ->].
    apply runs_invariant; [done|]. intros; by apply RawStream.streamInv_step. }
  destruct Hi as (_ & _ & Hp & _ & Hc). split_and!; [done|done|lia|].
  intros Hes Hat Herr. assert (decodedOk (runs step start es) ∧ faithful (runs step start es))
    as (_ & _ & _ & Hf).
  { apply (runs_invariant_if step (λ l, decodedOk l ∧ faithful l) (λ e, givesUp e = false)); [|done|].
    - split; [done|]. split_and!; simpl; [apply (RawStream.inv_runs [])|done|naive_solver].
    - intros l e He [Hdl Hfl]. split; [by apply decodedOk_step|].
      destruct e as [i|e| | |[]]; simpl; try done; try (apply faithful_stream; done).
      by apply faithful_consume. }
  destruct (Hf (or_intror Hat)) as [[x Hx]|]; [|done]. congruence.
Qed.

(** ** The loop ends once the stream has *)

Definition phaseWeight (p : phase) : nat :=
  match p with AtNext => 3 | InBody => 4 | AtStop _ => 2 | AtDefer => 1 | Finished => 0 end.

Definition loopWeight (l : loop) : nat :=
  2 * length (RawStream.items (RawStream.strm (strm l))) + phaseWeight (at_ l).

(** After the server has ended the stream, or anyone has stopped it, every section of the
    loop brings it closer to its end: it never waits again. *)
Lemma range_ends again l :
  RawStream.serverDone (RawStream.strm (strm l)) = true → at_ l ≠ Finished →
  loopWeight (consume again l) < loopWeight l ∧
  RawStream.serverDone (RawStream.strm (strm (consume again l))) = true.
Proof.
  intros Hd Hne. unfold consume, loopWeight. destruct (at_ l) as [| |e| |] eqn:Ea; [| | | |done].
  - simpl. unfold RawStream.next. rewrite Hd, andb_false_r. simpl.
    destruct (RawStream.stopped (RawStream.strm (strm l))), (RawStream.items (RawStream.strm (strm l)))
      as [|i rest] eqn:Ei; simpl; rewrite ?Hd, ?Ei; simpl; try (split; [lia|done]).
    destruct (decode i); simpl; rewrite ?Hd; split; (lia || done).
  - destruct again; simpl; rewrite ?Hd; split; (lia || done).
  - simpl. unfold RawStream.stop. destruct (RawStream.stopped _); simpl; rewrite ?Hd; split; (lia || done).
  - simpl. unfold RawStream.stop. destruct (RawStream.stopped _); simpl; rewrite ?Hd; split; (lia || done).
Qed.

End Loop.
End Range.

(** A run: two items and the server's end, with the consumer keeping up. *)
Definition exRun : list (Range.event (I := string)) :=
  [Range.EPush "1"; Range.EConsume true; Range.EPush "x"; Range.EConsume true; Range.EConsume true;
   Range.EConsume true; Range.EEnd None; Range.EConsume true; Range.EConsume true].

Example exRun_complete :
  let l := runs (Range.step Some) Range.start exRun in
  Range.at_ l = Range.Finished ∧ Range.Err l = None ∧ Range.got l = ["1"; "x"].
Proof. vm_compute. done. Qed.

(** The same run where an item does not decode: the loop stops there with an error, and the
    server is told to cancel. *)
Example exRun_undecodable :
  let l := runs (Range.step (λ s, if bool_decide (s = "x") then None else Some s)) Range.start exRun in
  Range.got l = ["1"] ∧ Range.Err l = Some Errors.ErrDecode ∧ RawStream.cancels (Range.strm l) = 1.
Proof. vm_compute. done. Qed.

Module Codec.
Import Errors.

Section Json.
  (** encoding/json/v2: values decoded as the type at hand. *)
  Context {T K V : Type} (zero : T) (unmarshalWire : string → option T).
  Context (unmarshalPair : string → option (string * string))
          (unmarshalKey : string → option K) (unmarshalValue : string → option V).

(** The element decoder of [Stream2Result.All]. *)
Definition decodePair (raw : string) : option (K * V) :=
  match unmarshalPair raw with
  | None => None
  | Some (rk, rv) =>
      match unmarshalKey rk with
      | None => None
      | Some k => match unmarshalValue rv with None => None | Some v => Some (k, v) end
      end
  end.

(** What [OnPush] gives its callback: an event without data is the zero value, and one that
    does not decode is skipped. *)
Definition onPush (data : string) : option T :=
  if bool_decide (data = "") then Some zero else unmarshalWire data.

End Json.

(** [marshalParams]: no parameters are an empty list. *)
Definition marshalParams {A} (marshalWire : list A → option string) (params : option (list A))
    : res clientErr string :=
  match marshalWire (default [] params) with
  | None => Err ErrEncode
  | Some data => Ok data
  end.

Definition CodeValidationFailed : Z := -32604.

(** [Error.ValidationErrors]. *)
Definition ValidationErrors {F} (unmarshal : string → option (list F)) (e : apiError) : list F :=
  match Data e with
  | Some data =>
      if bool_decide (Code e ≠ CodeValidationFailed) || bool_decide (data = "") then []
      else default [] (unmarshal data)
  | None => []
  end.

Section Blobs.
  Context (unmarshalObject : string → option (gmap string string))
          (unmarshalPlain : string → option Sub.Blob).

(** [Blob.UnmarshalJSON]. *)
Definition UnmarshalJSON (data : string) : option Sub.Blob :=
  match unmarshalObject data with
  | None => None
  | Some probe =>
      let data := match probe !! "$blob" with
                  | Some inner => if bool_decide (size probe = 1) then inner else data
                  | None => data
                  end in
      unmarshalPlain data
  end.

(** A blob comes back from its plain form and from the envelope that the server puts around
    it on a transport without binary frames; the plain form has the key "data", so it is
    never taken for an envelope. *)
Lemma blob_decodes_both_shapes b plain envelope probe :
  unmarshalObject plain = Some probe → is_Some (probe !! "data") →
  unmarshalPlain plain = Some b →
  unmarshalObject envelope = Some {["$blob" := plain]} →
  UnmarshalJSON plain = Some b ∧ UnmarshalJSON envelope = Some b.
Proof.
  intros Hp [d Hd] Hb He. unfold UnmarshalJSON. rewrite Hp, He. split.
  - destruct (probe !! "$blob") as [inner|] eqn:E; [|done].
    rewrite bool_decide_false; [done|]. intros Hsz.
    assert (Hdel : delete "$blob" probe = ∅).
    { apply map_size_empty_inv. rewrite map_size_delete_Some by eauto. lia. }
    assert (delete "$blob" probe !! "data" = Some d) as Hd' by by rewrite lookup_delete_ne.
    by rewrite Hdel in Hd'.
  - rewrite lookup_singleton_eq, bool_decide_true by apply map_size_singleton. done.
Qed.

End Blobs.
End Codec.

Module Dial.

Definition second : Z := 1000000000.
Definition defaultPingInterval : Z := 30 * second.
Definition defaultWriteTimeout : Z := 10 * second.

(** [Dial]: the write timeout and the ping interval of a WebSocket connection; 0 means no
    pings. *)
Definition keepalive (WriteTimeout PingInterval : Z) : Z * Z :=
  (if bool_decide (WriteTimeout = 0)%Z then defaultWriteTimeout else WriteTimeout,
   if bool_decide (PingInterval = 0)%Z then defaultPingInterval
   else if bool_decide (PingInterval < 0)%Z then 0%Z else PingInterval).

Lemma keepalive_sane w p :
  (0 ≤ (keepalive w p).2)%Z ∧ (0 ≤ w → 0 < (keepalive w p).1)%Z ∧
  ((keepalive w p).2 = 0 ↔ p < 0)%Z.
Proof.
  unfold keepalive, defaultPingInterval, defaultWriteTimeout, second. simpl.
  repeat case_bool_decide; lia.
Qed.

End Dial.
