(* ===== verification/Reconnect.v ===== *)
(** * Reconnect: the life of the Go client's connection (client/client.go)

    [Module Backoff] is the reconnect schedule and what a config frame may change in it.
    [Module Connect] is one connection attempt, up to the classification of its failure.
    [Module Loop] is [Client.run]: which attempts are made, after which delays, and with
    which error the client gives up; the outcomes of the attempts are the input.
    ClientAuth.v matches verdicts to the auth frames that asked for them. *)

From S2P Require Import Prelude ClientParts.
From stdpp Require Import prelude gmap strings list.

(** ** The schedule *)

Module Backoff.

Definition millisecond : Z := 1000000.
Definition second : Z := 1000000000.

Definition defaultReconnectInterval : Z := second.
Definition defaultReconnectMaxInterval : Z := 10 * second.
Definition defaultRejectedRetryDelay : Z := 2 * second.

Record backoff := Backoff {
  interval : Z;
  maxInterval : Z;
  maxAttempts : Z;
  fixedInterval : bool;
  fixedMaxInterval : bool;
  fixedMaxAttempts : bool;
}.

(** [delay]: the product wraps at 64 bits. *)
Definition delay (b : backoff) (attempt : Z) : Z :=
  let d := wrapS64 (interval b * attempt) in
  if bool_decide (maxInterval b < d)%Z || bool_decide (d ≤ 0)%Z then maxInterval b else d.

(** The reconnect fields of [Options], and what [start] makes of them. *)
Record options := Opts {
  ReconnectInterval : Z;
  ReconnectMaxInterval : Z;
  ReconnectMaxAttempts : Z;
}.

Definition initialBackoff (o : options) : backoff :=
  Backoff
    (if bool_decide (0 < ReconnectInterval o)%Z then ReconnectInterval o else defaultReconnectInterval)
    (if bool_decide (0 < ReconnectMaxInterval o)%Z then ReconnectMaxInterval o
     else defaultReconnectMaxInterval)
    (Z.max (ReconnectMaxAttempts o) 0)
    (bool_decide (0 < ReconnectInterval o)%Z)
    (bool_decide (0 < ReconnectMaxInterval o)%Z)
    (bool_decide (ReconnectMaxAttempts o ≠ 0)%Z).

(** The reconnect fields of a config frame, in milliseconds, and [applyConfig]. *)
Record config := Config { cfgInterval : Z; cfgMaxInterval : Z; cfgMaxAttempts : Z }.

Definition applyConfig (f : config) (b : backoff) : backoff :=
  Backoff
    (if bool_decide (0 < cfgInterval f)%Z && negb (fixedInterval b)
     then wrapS64 (cfgInterval f * millisecond) else interval b)
    (if bool_decide (0 < cfgMaxInterval f)%Z && negb (fixedMaxInterval b)
     then wrapS64 (cfgMaxInterval f * millisecond) else maxInterval b)
    (if bool_decide (0 < cfgMaxAttempts f)%Z && negb (fixedMaxAttempts b)
     then cfgMaxAttempts f else maxAttempts b)
    (fixedInterval b) (fixedMaxInterval b) (fixedMaxAttempts b).

Definition wf (b : backoff) : Prop :=
  (0 < interval b < 2 ^ 63)%Z ∧ (0 < maxInterval b < 2 ^ 63)%Z ∧ (0 ≤ maxAttempts b)%Z.

(** A config whose intervals fit an int64 of nanoseconds (292 years). *)
Definition sane (f : config) : Prop :=
  (cfgInterval f * millisecond < 2 ^ 63)%Z ∧ (cfgMaxInterval f * millisecond < 2 ^ 63)%Z.

Lemma applyConfig_wf f b : sane f → wf b → wf (applyConfig f b).
Proof.
  intros [H1 H2] (Hi & Hm & Ha). unfold wf, applyConfig, millisecond in *. simpl.
  split_and!; destruct (_ && _) eqn:E; try lia;
    apply andb_true_iff in E as [E%bool_decide_eq_true _]; rewrite ?wrapS64_id; lia.
Qed.

Lemma initialBackoff_wf o :
  (ReconnectInterval o < 2 ^ 63)%Z → (ReconnectMaxInterval o < 2 ^ 63)%Z → wf (initialBackoff o).
Proof.
  intros H1 H2. unfold wf, initialBackoff, defaultReconnectInterval, defaultReconnectMaxInterval, second.
  simpl. repeat case_bool_decide; split_and!; lia.
Qed.

Lemma delay_bounds b n : wf b → (0 < delay b n ≤ maxInterval b)%Z.
Proof.
  intros (Hi & Hm & _). unfold delay. destruct (_ || _) eqn:E; [lia|].
  apply orb_false_iff in E as [E1%bool_decide_eq_false E2%bool_decide_eq_false]. lia.
Qed.

(** Without overflow the schedule is linear, capped. *)
Lemma delay_linear b n :
  wf b → (0 < n)%Z → (interval b * n < 2 ^ 63)%Z → delay b n = Z.min (interval b * n) (maxInterval b).
Proof.
  intros (Hi & Hm & _) Hn Ho. unfold delay. rewrite wrapS64_id by nia.
  repeat case_bool_decide; simpl; nia.
Qed.

End Backoff.

(** ** One attempt *)

Module Connect.
Import Errors Backoff.

(** The first frame of a connection, as far as [connect] looks at it. *)
Inductive firstFrame :=
  | FirstUnreadable (cause : string)
  | FirstUndecodable (cause : string)
  | FirstConfig (f : config) (MaxMessageSize : Z)
  | FirstError (e : apiError)
  | FirstOther (type : string).

(** What an attempt meets: the dial, the first frame, the token function (None when
    AuthToken is not set), the verdict on the auth frame, and whether the client was closed
    meanwhile. *)
Record attempt := Attempt {
  dialed : option string;                       (* Some: the dial failed *)
  first : firstFrame;
  token : option (option string);               (* Some (Some c): AuthToken failed *)
  verdict : option clientErr;                   (* the result of [authenticate] *)
  clientClosed : bool;
}.

Inductive outcome :=
  | Failed (cause : string)
  | RejectedBy (e : apiError)
  | FailedClosed                                (* ErrClosed: the client is closing *)
  | Connected.

(** [connect]; the config frame is applied even when the attempt fails later. *)
Definition connect (a : attempt) (b : backoff) : backoff * outcome :=
  match dialed a with
  | Some c => (b, Failed c)
  | None =>
      match first a with
      | FirstUnreadable c | FirstUndecodable c | FirstOther c => (b, Failed c)
      | FirstError e => (b, RejectedBy e)
      | FirstConfig f _ =>
          let b := applyConfig f b in
          match token a with
          | Some (Some c) => (b, Failed c)
          | Some None =>
              match verdict a with
              | Some (ErrApi e) => (b, RejectedBy e)
              | Some (ErrConnectionLost c) => (b, Failed c)
              | Some _ => (b, Failed "auth")
              | None => (b, if clientClosed a then FailedClosed else Connected)
              end
          | None => (b, if clientClosed a then FailedClosed else Connected)
          end
      end
  end.

End Connect.

(** ** The run loop *)

Module Loop.
Import Errors Backoff Connect.

Record RejectedRetry := Retry { Delay : Z; MaxAttempts : Z }.

Record policy := Policy {
  NoReconnect : bool;
  ReconnectOnRejected : option RejectedRetry;
}.

(** The locals of [run], with the client's schedule and last rejection. *)
Record runState := RunState {
  rejections : Z;
  attempts : Z;
  rejected : option apiError;
  cause : string;                (* the error of the last attempt *)
  schedule : backoff;
  lastRejection : option apiError;
}.

Inductive turn := Stop (e : clientErr) | Wait (d : Z) (st : runState).

(** The head of the inner loop: give up, or wait. *)
Definition retryTurn (p : policy) (st : runState) : turn :=
  match rejected st with
  | Some r =>
      match ReconnectOnRejected p with
      | None => Stop (ErrApi r)
      | Some retry =>
          if bool_decide (0 < MaxAttempts retry)%Z && bool_decide (MaxAttempts retry ≤ rejections st)%Z
          then Stop (ErrApi r)
          else Wait (if bool_decide (Delay retry ≤ 0)%Z then defaultRejectedRetryDelay else Delay retry)
                 (RunState (rejections st + 1) (attempts st) (rejected st) (cause st) (schedule st) (Some r))
      end
  | None =>
      let attempt := (attempts st + 1)%Z in
      let b := schedule st in
      if bool_decide (0 < maxAttempts b)%Z && bool_decide (maxAttempts b < attempt)%Z
      then Stop (ErrGaveUp (maxAttempts b) (cause st))
      else Wait (delay b attempt)
             (RunState 0 attempt None (cause st) b (lastRejection st))
  end.

(** What the loop does with the outcome of an attempt that did not connect. *)
Definition onFailure (o : outcome) (st : runState) (b : backoff) : runState :=
  match o with
  | RejectedBy e => RunState (rejections st) 0 (Some e) (Message e) b (lastRejection st)
  | Failed c => RunState (rejections st) (attempts st) None c b (lastRejection st)
  | _ => RunState (rejections st) (attempts st) None (cause st) b (lastRejection st)
  end.

(** The end of a connection: its error, and the rejection the server sent mid-session. *)
Definition onDrop (p : policy) (dropErr : string) (dropRejection : option apiError) (st : runState)
    : runState + clientErr :=
  if NoReconnect p then
    inr (match dropRejection with Some r => ErrApi r | None => ErrConnectionLost dropErr end)
  else inl (RunState (match dropRejection with Some _ => rejections st | None => 0 end) 0 dropRejection
              "" (schedule st) (lastRejection st)).

(** Where the loop is: a connection is up, an attempt is due (its delay is the last of
    [waits]), the client was shut down with an error, or [ctx] was done. *)
Inductive phase := Up (st : runState) | Waiting (st : runState) | Stopped (e : clientErr) | Ended.

Record runner := Runner { at_ : phase; waits : list Z }.

(** What the loop meets: the outcome of the attempt that was due, the end of the
    connection, or the client closing. *)
Inductive input :=
  | Try (a : attempt)
  | Drop (dropErr : string) (dropRejection : option apiError)
  | Close.

Definition takeTurn (p : policy) (st : runState) (ws : list Z) : runner :=
  match retryTurn p st with
  | Stop e => Runner (Stopped e) ws
  | Wait d st => Runner (Waiting st) (ws ++ [d])
  end.

Definition connected (st : runState) (b : backoff) : runState :=
  RunState (rejections st) (attempts st) (rejected st) (cause st) b None.

Definition run (p : policy) (r : runner) (i : input) : runner :=
  match at_ r, i with
  | Waiting st, Try a =>
      match connect a (schedule st) with
      | (b, Connected) => Runner (Up (connected st b)) (waits r)
      | (_, FailedClosed) => Runner Ended (waits r)
      | (b, o) => takeTurn p (onFailure o st b) (waits r)
      end
  | Up st, Drop c dr =>
      match onDrop p c dr st with
      | inr e => Runner (Stopped e) (waits r)
      | inl st => takeTurn p st (waits r)
      end
  | (Up _ | Waiting _), Close => Runner Ended (waits r)
  | _, _ => r
  end.

(** The state in which [start] leaves the loop. *)
Definition started (b : backoff) : runner := Runner (Up (RunState 0 0 None "" b None)) [].

(** ** Facts *)

(** An attempt that fails before the server says anything. *)
Definition unreachable (a : attempt) : option string :=
  match dialed a with
  | Some c => Some c
  | None => match first a with
            | FirstUnreadable c | FirstUndecodable c | FirstOther c => Some c
            | _ => None
            end
  end.

Lemma connect_unreachable a b c : unreachable a = Some c → connect a b = (b, Failed c).
Proof. unfold unreachable, connect. destruct (dialed a), (first a); naive_solver. Qed.

(** An attempt that fails at any stage without a rejection: the dial, the first frame, the
    token function, or an auth frame that got no verdict. *)
Definition failing (a : attempt) : bool :=
  match dialed a with
  | Some _ => true
  | None =>
      match first a with
      | FirstUnreadable _ | FirstUndecodable _ | FirstOther _ => true
      | FirstError _ => false
      | FirstConfig _ _ =>
          match token a, verdict a with
          | Some (Some _), _ => true
          | Some None, Some (ErrApi _) => false
          | Some None, Some _ => true
          | _, _ => false
          end
      end
  end.

Lemma connect_failing a b : failing a = true → ∃ c, (connect a b).2 = Failed c.
Proof.
  unfold failing, connect. destruct (dialed a); [eauto|]. destruct (first a); eauto; try done.
  destruct (token a) as [[]|]; eauto; [|done]. destruct (verdict a) as [[]|]; eauto; done.
Qed.

(** An attempt that the server rejects: with its first frame, or with its verdict on the
    auth frame. *)
Definition refused (a : attempt) : option apiError :=
  match dialed a, first a with
  | None, FirstError e => Some e
  | None, FirstConfig _ _ =>
      match token a, verdict a with Some None, Some (ErrApi e) => Some e | _, _ => None end
  | _, _ => None
  end.

Lemma connect_refused a b e : refused a = Some e → (connect a b).2 = RejectedBy e.
Proof.
  unfold refused, connect. destruct (dialed a); [done|]. destruct (first a); try naive_solver.
  destruct (token a) as [[]|]; try done. destruct (verdict a) as [[]|]; naive_solver.
Qed.

Lemma connect_maxAttempts a b m :
  maxAttempts b = m → fixedMaxAttempts b = true →
  maxAttempts (connect a b).1 = m ∧ fixedMaxAttempts (connect a b).1 = true.
Proof.
  intros Hm Hf.
  assert (Hc : ∀ f, maxAttempts (applyConfig f b) = m ∧ fixedMaxAttempts (applyConfig f b) = true).
  { intros f. unfold applyConfig. simpl. by rewrite Hf, andb_false_r. }
  unfold connect. destruct (dialed a); [done|]. destruct (first a); try done.
  destruct (token a) as [[]|]; [apply Hc| |destruct (clientClosed a); apply Hc].
  destruct (verdict a) as [[]|]; apply Hc.
Qed.

(** The counters of a waiting loop, when the caller capped the attempts at [m]. *)
Definition counted (p : policy) (m : Z) (r : runner) : Prop :=
  match at_ r with
  | Up st => (0 ≤ rejections st)%Z ∧ maxAttempts (schedule st) = m ∧ fixedMaxAttempts (schedule st) = true
  | Waiting st =>
      maxAttempts (schedule st) = m ∧ fixedMaxAttempts (schedule st) = true ∧
      match rejected st with
      | None => (rejections st = 0)%Z ∧ (1 ≤ attempts st ≤ m)%Z
      | Some _ => (attempts st = 0)%Z ∧ (1 ≤ rejections st)%Z ∧
          ∃ retry, ReconnectOnRejected p = Some retry ∧
            (0 < MaxAttempts retry → rejections st ≤ MaxAttempts retry)%Z
      end
  | _ => True
  end.

Lemma takeTurn_counted p m st ws :
  (0 < m)%Z → maxAttempts (schedule st) = m → fixedMaxAttempts (schedule st) = true →
  (0 ≤ rejections st)%Z → (0 ≤ attempts st)%Z → (rejected st ≠ None → attempts st = 0)%Z →
  counted p m (takeTurn p st ws).
Proof.
  intros Hm Hmax Hf Hr Ha Hra. unfold takeTurn, retryTurn, counted.
  destruct (rejected st) as [e|] eqn:Er.
  - destruct (ReconnectOnRejected p) as [retry|] eqn:Ep; [|done].
    destruct (_ && _) eqn:E; simpl; [done|]. split_and!; try done; [by apply Hra|lia|].
    exists retry. split; [done|]. intros Hp. rewrite bool_decide_true in E by done.
    apply bool_decide_eq_false in E. lia.
  - rewrite Hmax. rewrite (bool_decide_true (0 < m)%Z) by done. simpl.
    case_bool_decide; simpl; [done|]. split_and!; try done; lia.
Qed.

Lemma run_counted p m r i : (0 < m)%Z → counted p m r → counted p m (run p r i).
Proof.
  intros Hm Hr. unfold run. pose proof Hr as Hr0. unfold counted in Hr. destruct (at_ r) as [st|st|e|] eqn:Eat; destruct i as [a|c dr|];
    try exact Hr0; try exact I.
  - destruct Hr as (Hrej & Hmax & Hf). unfold onDrop.
    destruct (NoReconnect p); [exact I|]. apply takeTurn_counted; simpl; try done.
    destruct dr; lia.
  - destruct Hr as (Hmax & Hf & Hc).
    pose proof (connect_maxAttempts a _ _ Hmax Hf) as [Hmax' Hf'].
    destruct (connect a (schedule st)) as [b o]. simpl in *.
    destruct o as [cs|e| |]; simpl.
    + apply takeTurn_counted; simpl; try done; destruct (rejected st); lia.
    + apply takeTurn_counted; simpl; try done; destruct (rejected st); lia.
    + exact I.
    + unfold counted, connected. simpl. split_and!; try done. destruct (rejected st); lia.
Qed.

(** The loop under a further failure that costs an attempt. *)
Lemma run_unreachable p r st a c :
  at_ r = Waiting st → unreachable a = Some c →
  run p r (Try a) = takeTurn p (RunState (rejections st) (attempts st) None c (schedule st) (lastRejection st)) (waits r).
Proof. intros Hr Ha. unfold run. rewrite Hr, (connect_unreachable _ _ c Ha). done. Qed.

Lemma run_failing p m r st a :
  at_ r = Waiting st → counted p m r → failing a = true →
  ∃ c b, maxAttempts b = m ∧
    run p r (Try a) = takeTurn p (RunState (rejections st) (attempts st) None c b (lastRejection st)) (waits r).
Proof.
  intros Hr Hc Ha. unfold counted in Hc. rewrite Hr in Hc. destruct Hc as (Hmax & Hf & _).
  pose proof (connect_maxAttempts a _ _ Hmax Hf) as [Hmax' _].
  destruct (connect_failing a (schedule st) Ha) as [c Hc]. exists c, (connect a (schedule st)).1.
  split; [done|]. unfold run. rewrite Hr. destruct (connect a (schedule st)) as [b o].
  simpl in *. by rewrite Hc.
Qed.

Lemma run_refused p r st a e :
  at_ r = Waiting st → refused a = Some e →
  run p r (Try a) = takeTurn p (RunState (rejections st) 0 (Some e) (Message e) (connect a (schedule st)).1 (lastRejection st)) (waits r).
Proof.
  intros Hr Ha. pose proof (connect_refused a (schedule st) e Ha) as Hc. unfold run. rewrite Hr.
  destruct (connect a (schedule st)) as [b o]. simpl in *. by rewrite Hc.
Qed.

Definition isWaiting (r : runner) : bool := match at_ r with Waiting _ => true | _ => false end.

(** Attempts change nothing once the loop no longer waits for one. *)
Lemma run_not_waiting p r ats :
  isWaiting r = false → runs (run p) r (Try <$> ats) = r.
Proof.
  unfold isWaiting. induction ats as [|a ats IH]; intros Hw; simpl; [done|].
  assert (run p r (Try a) = r) as ->; [|auto]. unfold run. by destruct (at_ r).
Qed.

(** How many more failed attempts, and how many more rejections, the loop can take. *)
Definition failuresLeft (m : Z) (r : runner) : Z :=
  match at_ r with
  | Waiting st => match rejected st with None => m - attempts st | Some _ => m end
  | _ => 0
  end.

Lemma failures_step p m r a :
  (0 < m)%Z → counted p m r → isWaiting r = true → failing a = true →
  (∃ c, at_ (run p r (Try a)) = Stopped (ErrGaveUp m c)) ∨
  (isWaiting (run p r (Try a)) = true ∧ 0 ≤ failuresLeft m (run p r (Try a)) < failuresLeft m r)%Z.
Proof.
  unfold isWaiting. intros Hm Hc Hw Ha. destruct (at_ r) as [|st| |] eqn:Eat; try done.
  destruct (run_failing p m r st a Eat Hc Ha) as (c & b & Hb & ->).
  unfold counted, failuresLeft in *. rewrite Eat in *. destruct Hc as (_ & _ & Hc).
  unfold takeTurn, retryTurn. simpl. rewrite Hb, (bool_decide_true (0 < m)%Z) by done. simpl.
  case_bool_decide; simpl; [left; eauto|right]. destruct (rejected st); lia.
Qed.

(** The end of the loop after a cap of failures in a row. *)
Lemma failures_stop p m r ats :
  (0 < m)%Z → counted p m r → isWaiting r = true → Forall (λ a, failing a = true) ats →
  (failuresLeft m r < Z.of_nat (length ats))%Z →
  ∃ c, at_ (runs (run p) r (Try <$> ats)) = Stopped (ErrGaveUp m c).
Proof.
  intros Hm Hc Hw Ha. revert r Hc Hw. induction Ha as [|a ats Ha _ IH]; intros r Hc Hw Hl.
  - simpl in *. unfold isWaiting, failuresLeft, counted in *. destruct (at_ r) as [|st| |]; try done.
    destruct Hc as (_ & _ & Hc). destruct (rejected st); lia.
  - cbn [fmap list_fmap runs]. rewrite length_cons in Hl.
    destruct (failures_step p m r a Hm Hc Hw Ha) as [[c Hs]|[Hw' Hf]].
    + rewrite run_not_waiting by (unfold isWaiting; by rewrite Hs). eauto.
    + apply IH; [by apply run_counted|done|lia].
Qed.

Definition rejectionsLeft (k : Z) (r : runner) : Z :=
  match at_ r with Waiting st => k - rejections st | _ => 0 end.

Lemma rejections_stop p m k r ats :
  (0 < m)%Z → (0 < k)%Z → counted p m r → isWaiting r = true →
  (∀ q, ReconnectOnRejected p = Some q → MaxAttempts q = k) →
  Forall (λ a, is_Some (refused a)) ats →
  (rejectionsLeft k r < Z.of_nat (length ats))%Z →
  ∃ e, at_ (runs (run p) r (Try <$> ats)) = Stopped (ErrApi e).
Proof.
  intros Hm Hk Hc Hw Hp Ha. revert r Hc Hw. induction Ha as [|a ats [e Hae] _ IH]; intros r Hc Hw Hl.
  - simpl in *. unfold isWaiting, rejectionsLeft, counted in *. destruct (at_ r) as [|st| |]; try done.
    destruct Hc as (_ & _ & Hc). destruct (rejected st); [|lia].
    destruct Hc as (_ & _ & q & Hq & Hb). rewrite (Hp q Hq) in Hb. lia.
  - cbn [fmap list_fmap runs]. rewrite length_cons in Hl.
    assert ((∃ e, at_ (run p r (Try a)) = Stopped (ErrApi e)) ∨
      isWaiting (run p r (Try a)) = true ∧
      (rejectionsLeft k (run p r (Try a)) < rejectionsLeft k r)%Z) as [[e' Hs]|[Hw' Hlt]].
    + unfold isWaiting, rejectionsLeft in *. destruct (at_ r) as [|st| |] eqn:Eat; try done.
      rewrite (run_refused p r st a e Eat Hae). unfold takeTurn, retryTurn. simpl.
      destruct (ReconnectOnRejected p); [|simpl; eauto]. destruct (_ && _); simpl; [eauto|right; lia].
    + rewrite run_not_waiting by (unfold isWaiting; by rewrite Hs). eauto.
    + apply IH; [by apply run_counted|done|lia].
Qed.

Fixpoint delaysFrom (b : backoff) (a : Z) (n : nat) : list Z :=
  match n with
  | O => []
  | S n => delay b (a + 1) :: delaysFrom b (a + 1) n
  end.

Lemma failures_schedule p st ws ats :
  rejected st = None → (0 ≤ attempts st)%Z → (0 ≤ maxAttempts (schedule st))%Z →
  (∀ a, a ∈ ats → ∃ c, unreachable a = Some c) →
  let m := maxAttempts (schedule st) in
  let r := runs (run p) (Runner (Waiting st) ws) (Try <$> ats) in
  if bool_decide (m = 0 ∨ attempts st + Z.of_nat (length ats) ≤ m)%Z
  then isWaiting r = true ∧ waits r = ws ++ delaysFrom (schedule st) (attempts st) (length ats)
  else (attempts st ≤ m)%Z →
       (∃ c, at_ r = Stopped (ErrGaveUp m c)) ∧
       waits r = ws ++ delaysFrom (schedule st) (attempts st) (Z.to_nat (m - attempts st)).
Proof.
  revert st ws. induction ats as [|a ats IH]; intros st ws Hr Ha Hm Hats; cbv zeta.
  - simpl. case_bool_decide; [by rewrite app_nil_r|]. lia.
  - destruct (Hats a ltac:(by left)) as [c Hc]. cbn [fmap list_fmap runs].
    rewrite (run_unreachable p (Runner (Waiting st) ws) st a c eq_refl Hc). unfold takeTurn, retryTurn. simpl.
    destruct (bool_decide (0 < maxAttempts (schedule st))%Z &&
              bool_decide (maxAttempts (schedule st) < attempts st + 1)%Z) eqn:E.
    + apply andb_true_iff in E as [E1%bool_decide_eq_true E2%bool_decide_eq_true].
      rewrite run_not_waiting by done. simpl. rewrite bool_decide_false by lia.
      intros Hle. split; [by eexists|].
      replace (Z.to_nat _) with 0 by lia. by rewrite app_nil_r.
    + assert (maxAttempts (schedule st) = 0 ∨ attempts st + 1 ≤ maxAttempts (schedule st))%Z as Hle.
      { apply andb_false_iff in E as [E|E]; apply bool_decide_eq_false in E; lia. }
      clear E. specialize (IH (RunState 0 (attempts st + 1) None c (schedule st) (lastRejection st))
        (ws ++ [delay (schedule st) (attempts st + 1)]) eq_refl ltac:(simpl; lia) Hm ltac:(naive_solver (by right))).
      cbv zeta in IH. cbn [attempts schedule] in IH.
      rewrite <- (assoc_L (++)) in IH. simpl in IH.
      case_bool_decide as Hd1; case_bool_decide as Hd2; simpl in *; try lia; [done|].
      intros _. destruct (IH ltac:(lia)) as [Hs Hw]. split; [done|]. rewrite Hw.
      replace (Z.to_nat (maxAttempts (schedule st) - attempts st))
        with (S (Z.to_nat (maxAttempts (schedule st) - (attempts st + 1)))) by lia.
      by rewrite <- (assoc_L (++)).
Qed.

Lemma first_drop p b c :
  NoReconnect p = false → (0 ≤ maxAttempts b)%Z →
  run p (started b) (Drop c None) = Runner (Waiting (RunState 0 1 None "" b None)) [delay b 1].
Proof.
  intros Hnr Hm. unfold run, started. simpl. unfold onDrop. rewrite Hnr.
  unfold takeTurn, retryTurn. cbn -[Z.add delay].
  replace (_ && _) with false; [done|]. symmetry. apply andb_false_iff.
  destruct (decide (maxAttempts b = 0)%Z); [left|right]; apply bool_decide_eq_false; lia.
Qed.

(** The reconnect schedule. After a connection drops, attempts that fail are made after
    the delays n × interval, capped; the delay is always positive and at most the maximum,
    overflow of the product included. With a cap of m attempts the client makes exactly m
    of them and then closes with the last error; without a cap it never stops. A rejection
    closes the client at once with that rejection unless [ReconnectOnRejected] is set, in
    which case the next attempt comes after the fixed delay. *)
Theorem reconnect_schedule (p : policy) (b : backoff) (c : string) (ats : list attempt) :
  wf b → NoReconnect p = false → (∀ a, a ∈ ats → ∃ c, unreachable a = Some c) →
  let r := runs (run p) (started b) (Drop c None :: (Try <$> ats)) in
  (if bool_decide (maxAttempts b = 0 ∨ Z.of_nat (length ats) < maxAttempts b)%Z
   then isWaiting r = true ∧ waits r = delaysFrom b 0 (S (length ats))
   else (∃ e, at_ r = Stopped (ErrGaveUp (maxAttempts b) e)) ∧
        waits r = delaysFrom b 0 (Z.to_nat (maxAttempts b))) ∧
  (∀ n, (0 < delay b n ≤ maxInterval b)%Z) ∧
  (∀ n, (0 < n)%Z → (interval b * n < 2 ^ 63)%Z →
     delay b n = Z.min (interval b * n) (maxInterval b)) ∧
  (∀ e, run p (started b) (Drop c (Some e)) =
     match ReconnectOnRejected p with
     | None => Runner (Stopped (ErrApi e)) []
     | Some q => Runner (Waiting (RunState 1 0 (Some e) "" b (Some e)))
         [if bool_decide (Delay q ≤ 0)%Z then defaultRejectedRetryDelay else Delay q]
     end).
Proof.
  intros Hwf Hnr Hats r. split_and!; [|by intros; apply delay_bounds|by intros; apply delay_linear|].
  - pose proof Hwf as (_ & _ & Hm). subst r. cbn [runs]. rewrite first_drop by done.
    pose proof (failures_schedule p (RunState 0 1 None "" b None) [delay b 1] ats eq_refl
      ltac:(simpl; lia) Hm Hats) as Hs. cbv zeta in Hs. cbn [attempts schedule] in Hs.
    case_bool_decide as Hd1; case_bool_decide as Hd2; try lia; [exact Hs|].
    destruct (Hs ltac:(lia)) as [He Hw]. split; [done|]. rewrite Hw.
    replace (Z.to_nat (maxAttempts b)) with (S (Z.to_nat (maxAttempts b - 1))) by lia. done.
  - intros e. unfold run, started. simpl. unfold onDrop. rewrite Hnr.
    unfold takeTurn, retryTurn. simpl. destruct (ReconnectOnRejected p) as [q|]; [|done].
    replace (_ && _) with false; [done|]. symmetry. apply andb_false_iff.
    destruct (decide (MaxAttempts q ≤ 0)%Z); [left|right]; apply bool_decide_eq_false; lia.
Qed.

Definition exDown (c : string) : attempt := Attempt (Some c) (FirstOther "") None None false.
Definition exPolicy : policy := Policy false None.
Definition exBackoff : backoff := initialBackoff (Opts 0 (3 * second) 4).

Lemma reconnect_schedule_witness :
  waits (runs (run exPolicy) (started exBackoff)
    (Drop "eof" None :: (Try <$> [exDown "a"; exDown "b"; exDown "c"; exDown "d"]))) =
  [second; 2 * second; 3 * second; 3 * second]%Z.
Proof.
  assert (Hwf : wf exBackoff) by (apply initialBackoff_wf; done).
  assert (Hats : ∀ a, a ∈ [exDown "a"; exDown "b"; exDown "c"; exDown "d"] → ∃ c, unreachable a = Some c).
  { intros a Ha. repeat (apply elem_of_cons in Ha as [->|Ha]; [by eexists|]). by apply not_elem_of_nil in Ha. }
  pose proof (proj1 (reconnect_schedule exPolicy exBackoff "eof" _ Hwf eq_refl Hats)) as H.
  exact (proj2 H).
Defined.

(** A run of [run] from [start], with the caller's options. *)
Definition lives (o : options) (p : policy) (ins : list input) : runner :=
  runs (run p) (started (initialBackoff o)) ins.

(** C28: a row of failures ends the client's retries. When the program capped the attempts
    and the loop is waiting for one, then whatever happened before (connections,
    rejections, config frames, drops, in any order): if more attempts than the cap fail in a
    row, at whatever stage (dial, first frame, token function, auth frame without a
    verdict), the loop stops and reports that it gave up; and if more attempts in a row
    than [ReconnectOnRejected] allows are rejected, by the first frame or by the verdict on
    the auth frame, it stops with a rejection. (A rejection starts the count of failures
    again, and a failure that of rejections.) *)
Theorem reconnect_gives_up (o : options) (p : policy) (ins : list input) (ats : list attempt) :
  (0 < ReconnectMaxAttempts o)%Z → isWaiting (lives o p ins) = true →
  (Forall (λ a, failing a = true) ats →
   (ReconnectMaxAttempts o < Z.of_nat (length ats))%Z →
   ∃ c, at_ (lives o p (ins ++ (Try <$> ats))) = Stopped (ErrGaveUp (ReconnectMaxAttempts o) c)) ∧
  (∀ k, (0 < k)%Z → (∀ q, ReconnectOnRejected p = Some q → MaxAttempts q = k) →
   Forall (λ a, is_Some (refused a)) ats →
   (k < Z.of_nat (length ats))%Z →
   ∃ e, at_ (lives o p (ins ++ (Try <$> ats))) = Stopped (ErrApi e)).
Proof.
  intros Ho. set (m := ReconnectMaxAttempts o) in *. unfold lives.
  assert (Hc : counted p m (runs (run p) (started (initialBackoff o)) ins)).
  { apply runs_invariant; [|intros; by apply run_counted].
    unfold counted, started, initialBackoff. simpl. rewrite bool_decide_true by lia. split_and!; lia || done. }
  rewrite !runs_app. intros Hw. split.
  - intros Hats Hlen. eapply failures_stop; [done|exact Hc|done|done|].
    unfold failuresLeft, counted in *. destruct (at_ _) as [|st| |]; try lia.
    destruct Hc as (_ & _ & Hc). destruct (rejected st); lia.
  - intros k Hk Hp Hats Hlen. eapply (rejections_stop p m k); [done|done|exact Hc|done|done|done|].
    unfold rejectionsLeft, counted in *. destruct (at_ _) as [|st| |]; try lia.
    destruct Hc as (_ & _ & Hc). destruct (rejected st); lia.
Qed.

(** The server answers, and then does not accept the token, or does not answer it. *)
Abbreviation exAuthFails v :=
  (Attempt None (FirstConfig (Config 0 0 9) 0) (Some None) (Some v) false) (only parsing).

Lemma reconnect_gives_up_witness :
  isWaiting (lives (Opts 0 0 1) exPolicy [Drop "eof" None]) = true ∧
  (∃ c, at_ (lives (Opts 0 0 1) exPolicy
     ([Drop "eof" None] ++ (Try <$> [exDown "a"; exAuthFails (ErrConnectionLost "auth")]))) =
     Stopped (ErrGaveUp 1 c)) ∧
  (∃ e, at_ (lives (Opts 0 0 1) (Policy false (Some (Retry 0 1)))
     ([Drop "eof" None] ++ (Try <$> [exAuthFails (ErrApi (ApiErr CodeAuthFailed "a" None));
                                     exAuthFails (ErrApi (ApiErr CodeAuthFailed "b" None))]))) =
     Stopped (ErrApi e)).
Proof.
  assert (Hw : ∀ p, NoReconnect p = false → isWaiting (lives (Opts 0 0 1) p [Drop "eof" None]) = true)
    by (intros [] E; simpl in E; subst; reflexivity).
  split_and!; [by apply Hw| |].
  - apply (proj1 (reconnect_gives_up (Opts 0 0 1) exPolicy [Drop "eof" None]
      [exDown "a"; exAuthFails (ErrConnectionLost "auth")] ltac:(reflexivity) (Hw exPolicy eq_refl)));
      [by repeat constructor|reflexivity].
  - apply (proj2 (reconnect_gives_up (Opts 0 0 1) (Policy false (Some (Retry 0 1))) [Drop "eof" None]
      [exAuthFails (ErrApi (ApiErr CodeAuthFailed "a" None));
       exAuthFails (ErrApi (ApiErr CodeAuthFailed "b" None))] ltac:(reflexivity) (Hw (Policy false (Some (Retry 0 1))) eq_refl)) 1%Z);
      [reflexivity|by intros q [= <-]|repeat constructor; by eexists|reflexivity].
Defined.

End Loop.
