(* ===== verification/ClientAuth.v ===== *)
(** * ClientAuth: auth frames and their verdicts (client/client.go)

    [authenticate] runs under [authMu], so one caller is active at a time; the read loop
    hands verdicts over through [authWait]. A caller that gives up leaves its frame
    unanswered, and the counters of [connWatch] make the read loop drop the verdict that
    belongs to it. The machine is one connection: callers, the server's answers (in the
    order of the frames), and the read loop's [handleFrame] case. *)

From S2P Require Import Prelude ClientParts.
From stdpp Require Import prelude gmap strings list.

Module Auth.
Import Errors.

Inductive verdict := AuthOk | AuthError (e : apiError).

(** Where the caller holding [authMu] is: about to count and send its frame, sending,
    in the select, waiting for a verdict that is being handed over, or returning. *)
Inductive authResult := Answered (frame : nat) (v : verdict) | SendFailed | Lost | CtxDone.
Inductive pc := PReady | PSending | PWaiting | PTaking | PReturning (r : authResult).

Record authState := AuthSt {
  active : option (nat * pc);
  authWait : option nat;
  authSent : Z;
  authAbandoned : nat;
  outstanding : list nat;           (* frames the server has not answered, oldest first *)
  inbox : gmap nat (nat * verdict); (* the callers' channels; the frame answered is ghost *)
  results : list (nat * authResult);
  nextCaller : nat;
  gone : bool;                      (* [watch.done] is closed *)
}.

Definition init : authState := AuthSt None None 0 0 [] ∅ [] 0 false.

(** ** The read loop *)

Inductive action := Dropped | HandOver (caller : nat) | Shutdown.

(** The case "auth_ok", "auth_error" of [handleFrame]. [hasToken]: Options.AuthToken is
    set; [timeout]: the frame is the server's pending-auth timeout. *)
Definition handleVerdict (hasToken timeout : bool) (frame : nat) (v : verdict) (a : authState)
    : authState * action :=
  if timeout && hasToken then (a, Dropped)
  else
    let n := (authSent a - 1)%Z in
    if bool_decide (n < 0)%Z then
      (AuthSt (active a) (authWait a) 0 (authAbandoned a) (outstanding a) (inbox a) (results a)
         (nextCaller a) (gone a),
       match v with AuthError _ => if hasToken then Dropped else Shutdown | AuthOk => Dropped end)
    else
      match authAbandoned a with
      | S k =>
          (AuthSt (active a) (authWait a) n k (outstanding a) (inbox a) (results a)
             (nextCaller a) (gone a), Dropped)
      | O =>
          match authWait a with
          | None =>
              (AuthSt (active a) None n 0 (outstanding a) (inbox a) (results a)
                 (nextCaller a) (gone a), Dropped)
          | Some i =>
              (AuthSt (active a) None n 0 (outstanding a) (<[i := (frame, v)]> (inbox a)) (results a)
                 (nextCaller a) (gone a), HandOver i)
          end
      end.

(** ** The caller *)

Definition setPc (i : nat) (p : pc) (a : authState) : authState :=
  AuthSt (Some (i, p)) (authWait a) (authSent a) (authAbandoned a) (outstanding a) (inbox a)
    (results a) (nextCaller a) (gone a).

Definition addSent (d : Z) (a : authState) : authState :=
  AuthSt (active a) (authWait a) (authSent a + d) (authAbandoned a) (outstanding a) (inbox a)
    (results a) (nextCaller a) (gone a).

Definition setWait (w : option nat) (a : authState) : authState :=
  AuthSt (active a) w (authSent a) (authAbandoned a) (outstanding a) (inbox a)
    (results a) (nextCaller a) (gone a).

Inductive event :=
  | Begin                       (* authMu taken, authWait set *)
  | Count                       (* watch.authSent.Add(1) *)
  | SendOk | SendFail
  | Receive                     (* the select's <-wait, or the late receive *)
  | ConnDone                    (* the select's <-watch.done *)
  | Ctx                         (* the select's <-ctx.Done() *)
  | Finish                      (* the deferred functions *)
  | Verdict (v : verdict)       (* the server answers its oldest frame, the read loop routes it *)
  | TimeoutFrame (v : verdict)  (* the server's pending-auth timeout *)
  | Unsolicited (v : verdict)   (* the server's answer to another frame before auth *)
  | Gone.                       (* the read loop ends *)

Section Machine.
  Context (hasToken : bool).

Definition step (a : authState) (e : event) : authState :=
  match e, active a with
  | Begin, None =>
      AuthSt (Some (nextCaller a, PReady)) (Some (nextCaller a)) (authSent a) (authAbandoned a)
        (outstanding a) (inbox a) (results a) (S (nextCaller a)) (gone a)
  | Count, Some (i, PReady) => setPc i PSending (addSent 1 a)
  | SendOk, Some (i, PSending) =>
      AuthSt (Some (i, PWaiting)) (authWait a) (authSent a) (authAbandoned a)
        (outstanding a ++ [i]) (inbox a) (results a) (nextCaller a) (gone a)
  | SendFail, Some (i, PSending) => setPc i (PReturning SendFailed) (addSent (-1) a)
  | Receive, Some (i, (PWaiting | PTaking)) =>
      match inbox a !! i with
      | Some (f, v) => setPc i (PReturning (Answered f v)) a
      | None => a
      end
  | ConnDone, Some (i, PWaiting) => if gone a then setPc i (PReturning Lost) a else a
  | Ctx, Some (i, PWaiting) =>
      if bool_decide (authWait a = Some i) then
        AuthSt (Some (i, PReturning CtxDone)) None (authSent a) (S (authAbandoned a))
          (outstanding a) (inbox a) (results a) (nextCaller a) (gone a)
      else setPc i PTaking a
  | Finish, Some (i, PReturning r) =>
      AuthSt None (if bool_decide (authWait a = Some i) then None else authWait a)
        (authSent a) (authAbandoned a) (outstanding a) (inbox a)
        (results a ++ [(i, r)]) (nextCaller a) (gone a)
  | Verdict v, _ =>
      if gone a then a
      else match outstanding a with
           | [] => a
           | f :: fs =>
               fst (handleVerdict hasToken false f v
                 (AuthSt (active a) (authWait a) (authSent a) (authAbandoned a) fs (inbox a)
                    (results a) (nextCaller a) (gone a)))
           end
  | TimeoutFrame v, _ =>
      if gone a then a else fst (handleVerdict hasToken true (nextCaller a) v a)
  | Unsolicited v, _ =>
      if gone a then a else fst (handleVerdict hasToken false (nextCaller a) v a)
  | Gone, _ =>
      AuthSt (active a) (authWait a) (authSent a) (authAbandoned a) (outstanding a) (inbox a)
        (results a) (nextCaller a) true
  | _, _ => a
  end.

(** A frame that answers no auth frame arrives while one is in flight, and is not told
    apart from its answer: only the timeout is marked, and the mark is looked at only with a
    token. *)
Definition crosses (a : authState) (e : event) : bool :=
  match e with
  | TimeoutFrame _ => negb hasToken && bool_decide (0 < authSent a)%Z
  | Unsolicited _ => bool_decide (0 < authSent a)%Z
  | _ => false
  end.

(** A run in which none does. *)
Fixpoint uncrossed (a : authState) (es : list event) : Prop :=
  match es with
  | [] => True
  | e :: es => crosses a e = false ∧ uncrossed (step a e) es
  end.

(** ** Facts *)

(** The frames ahead of the active caller's own are those of callers who gave up. *)
Definition waitingFrame (a : authState) : list nat :=
  match active a with
  | Some (i, PWaiting) => if bool_decide (authWait a = Some i) then [i] else []
  | _ => []
  end.

Definition sending (a : authState) : Z :=
  match active a with Some (_, PSending) => 1 | _ => 0 end.

Definition pcOk (a : authState) : Prop :=
  match active a with
  | None => authWait a = None
  | Some (i, p) =>
      i < nextCaller a ∧
      match p with
      | PReady | PSending => authWait a = Some i ∧ inbox a !! i = None
      | PWaiting => (authWait a = Some i ∧ inbox a !! i = None) ∨
                    (authWait a = None ∧ ∃ v, inbox a !! i = Some (i, v))
      | PTaking => authWait a = None ∧ ∃ v, inbox a !! i = Some (i, v)
      | PReturning r =>
          (authWait a = None ∨ authWait a = Some i ∧ (r = SendFailed ∨ r = Lost)) ∧
          ∀ f v, r = Answered f v → f = i
      end
  end.

Definition inv (a : authState) : Prop :=
  pcOk a ∧
  (∀ i f v, inbox a !! i = Some (f, v) → f = i ∧ i < nextCaller a) ∧
  (∀ i f v, (i, Answered f v) ∈ results a → f = i) ∧
  (gone a = false →
     (∃ old, outstanding a = old ++ waitingFrame a ∧ length old = authAbandoned a) ∧
     authSent a = (Z.of_nat (length (outstanding a)) + sending a)%Z ∧
     ∀ i, active a ≠ Some (i, PReturning Lost)).

Lemma authInv_init : inv init.
Proof. unfold inv, pcOk. simpl. split_and!; try done; [set_solver|]. intros _. split_and!; try done. by exists []. Qed.

Lemma inv_verdict a v : inv a → inv (step a (Verdict v)).
Proof.
  intros Hi. pose proof Hi as (Hp & Hb & Hr & Hg). unfold step.
  assert (Hs : (match active a with _ => if gone a then a else
     match outstanding a with [] => a | f :: fs => fst (handleVerdict hasToken false f v
       (AuthSt (active a) (authWait a) (authSent a) (authAbandoned a) fs (inbox a)
          (results a) (nextCaller a) (gone a))) end end) =
    step a (Verdict v)) by (unfold step; by destruct (active a)).
  fold (step a (Verdict v)). rewrite <- Hs. clear Hs.
  destruct (gone a) eqn:Eg; [by destruct (active a)|].
  specialize (Hg eq_refl) as ((old & Ho & Hl) & Hsent & Hlost).
  assert (Hgo : inv (match outstanding a with [] => a | f :: fs => fst (handleVerdict hasToken false f v
       (AuthSt (active a) (authWait a) (authSent a) (authAbandoned a) fs (inbox a)
          (results a) (nextCaller a) false)) end)); [|by destruct (active a)].
  destruct (outstanding a) as [|f fs] eqn:Eo; [done|].
  unfold handleVerdict. simpl.
  assert (0 ≤ sending a)%Z by (unfold sending; repeat case_match; lia).
  rewrite bool_decide_false by (rewrite Hsent; simpl; lia).
  destruct (authAbandoned a) as [|k] eqn:Ek.
  - destruct old; [|done]. simpl in Ho.
    assert (Hw : ∃ i, active a = Some (i, PWaiting) ∧ authWait a = Some i ∧ f = i ∧ fs = []).
    { unfold waitingFrame in Ho. repeat case_match; try done. case_bool_decide; simplify_eq. eauto. }
    destruct Hw as (i & Ha & Hw & -> & ->). rewrite Hw. simpl. unfold inv, pcOk in *. simpl.
    rewrite Ha in *. destruct Hp as [Hlt Hp]. simpl. split_and!.
    + done.
    + right. split; [done|]. exists v. by rewrite lookup_insert_eq.
    + intros j f' v' Hj. destruct (decide (j = i)) as [->|].
      * rewrite lookup_insert_eq in Hj. by simplify_eq.
      * rewrite lookup_insert_ne in Hj by done. eauto.
    + done.
    + intros _. split_and!; [|unfold sending in *; simpl in *; rewrite ?Ha in *; simpl in *; lia|done].
      exists []. unfold waitingFrame. simpl. by rewrite ?Ha.
  - destruct old as [|o old]; [done|]. simpl in Ho, Hl. simplify_eq. unfold inv. simpl.
    split_and!; try done. intros _. split_and!; [|unfold sending in *; simpl in *; lia|done].
    exists old. by unfold waitingFrame.
Qed.

(** A frame that answers no auth frame, with none in flight. *)
Lemma stray_same (timeout : bool) a v :
  inv a → gone a = false → (authSent a ≤ 0)%Z → fst (handleVerdict hasToken timeout (nextCaller a) v a) = a.
Proof.
  intros (_ & _ & _ & Hg) Hgo Hs. destruct (Hg Hgo) as (_ & Hn & _).
  assert (0 ≤ sending a)%Z by (unfold sending; repeat case_match; lia).
  assert (authSent a = 0%Z) as E by lia.
  unfold handleVerdict. destruct (timeout && hasToken); [done|].
  rewrite bool_decide_true by lia. destruct a. simpl in *. by rewrite E.
Qed.

Lemma authInv_step a e : crosses a e = false → inv a → inv (step a e).
Proof.
  intros Ht Hi. assert (Hstray : ∀ b v, (authSent a ≤ 0)%Z →
      inv (if gone a then a else fst (handleVerdict hasToken b (nextCaller a) v a))).
  { intros b v Hs. destruct (gone a) eqn:Eg; [done|]. by rewrite stray_same. }
  destruct e as [| | | | | | | |v|v|v|]; [| | | | | | | |by apply inv_verdict| | |];
    pose proof Hi as (Hp & Hb & Hr & Hg); unfold step, setPc, addSent, setWait; destruct a as [act aw st ab out ib rs nx gn];
    simpl in *.
  - destruct act as [[i p]|]; [done|]. unfold inv, pcOk in *. simpl in *.
    assert (Hno : ib !! nx = None).
    { destruct (ib !! nx) as [[f v]|] eqn:E; [|done]. destruct (Hb _ _ _ E). lia. }
    split_and!; try done; [lia|..].
    + intros i f v Hf. destruct (Hb i f v Hf). split; [done|lia].
    + intros Hgn. destruct (Hg Hgn) as ((old & Ho & Hl) & Hs & _). unfold waitingFrame, sending in *.
      simpl in *. split_and!; eauto.
  - destruct act as [[i []]|]; try done. unfold inv, pcOk in *. simpl in *.
    destruct Hp as (Hlt & Hw & Hno). split_and!; try done.
    intros Hgn. destruct (Hg Hgn) as ((old & Ho & Hl) & Hs & _). unfold waitingFrame, sending in *.
    simpl in *. split_and!; eauto. lia.
  - destruct act as [[i []]|]; try done. unfold inv, pcOk in *. simpl in *.
    destruct Hp as (Hlt & -> & Hno). split_and!; try done; [by left|].
    intros Hgn. destruct (Hg Hgn) as ((old & Ho & Hl) & Hs & _). unfold waitingFrame, sending in *.
    simpl in *. rewrite bool_decide_true by done. rewrite app_nil_r in Ho. subst old.
    rewrite length_app. simpl. split_and!; eauto. lia.
  - destruct act as [[i []]|]; try done. unfold inv, pcOk in *. simpl in *.
    destruct Hp as (Hlt & -> & Hno). split_and!; try done; [by right; auto|].
    intros Hgn. destruct (Hg Hgn) as ((old & Ho & Hl) & Hs & _). unfold waitingFrame, sending in *.
    simpl in *. split_and!; eauto. lia.
  - destruct act as [[i []]|]; try done; (destruct (ib !! i) as [[f v]|] eqn:E; [|done]);
      unfold inv, pcOk in *; simpl in *.
    + destruct Hp as (Hlt & [[-> ?]|[-> _]]); [congruence|]. split_and!; try done; [by left|naive_solver|].
      intros Hgn. destruct (Hg Hgn) as ((old & Ho & Hl) & Hs & _). unfold waitingFrame, sending in *.
      simpl in *. split_and!; eauto.
    + destruct Hp as (Hlt & -> & _). split_and!; try done; [by left|naive_solver|].
      intros Hgn. destruct (Hg Hgn) as ((old & Ho & Hl) & Hs & _). unfold waitingFrame, sending in *.
      simpl in *. split_and!; eauto.
  - destruct act as [[i []]|]; try done. destruct gn; [|done]. unfold inv, pcOk in *. simpl in *.
    split_and!; try done; naive_solver.
  - destruct act as [[i []]|]; try done. case_bool_decide as Hw; unfold inv, pcOk in *; simpl in *.
    + subst aw. destruct Hp as (Hlt & Hp). split_and!; try done; [by left|].
      intros Hgn. destruct (Hg Hgn) as ((old & Ho & Hl) & Hs & _). unfold waitingFrame, sending in *.
      simpl in *. rewrite bool_decide_true in Ho by done.
      split_and!; eauto. exists out. rewrite app_nil_r. split; [done|]. rewrite Ho, length_app. simpl. lia.
    + destruct Hp as (Hlt & [[? ?]|[? ?]]); [done|]. subst aw. split_and!; try done.
      intros Hgn. destruct (Hg Hgn) as ((old & Ho & Hl) & Hs & _). unfold waitingFrame, sending in *.
      simpl in *. split_and!; eauto.
  - destruct act as [[i []]|]; try done. unfold inv, pcOk in *. simpl in *.
    destruct Hp as (Hlt & Hw & Hown). split_and!; try done.
    + destruct Hw as [->|[-> _]]; [by rewrite bool_decide_false|by rewrite bool_decide_true].
    + intros j f v [Hj|Hj]%elem_of_app; [eauto|]. apply list_elem_of_singleton in Hj. simplify_eq. eauto.
    + intros Hgn. destruct (Hg Hgn) as ((old & Ho & Hl) & Hs & _). unfold waitingFrame, sending in *.
      simpl in *. split_and!; eauto.
  - destruct hasToken; [destruct act as [[i []]|], gn; exact Hi|]. simpl in Ht.
    apply bool_decide_eq_false in Ht. specialize (Hstray true v ltac:(lia)). destruct act as [[i []]|]; exact Hstray.
  - apply bool_decide_eq_false in Ht. specialize (Hstray false v ltac:(lia)).
    destruct act as [[i []]|]; exact Hstray.
  - destruct act as [[i []]|]; unfold inv, pcOk in *; simpl in *; naive_solver.
Qed.

Lemma uncrossed_inv es a : uncrossed a es → inv a → inv (runs step a es).
Proof.
  revert a. induction es as [|e es IH]; intros a Hu Hi; simpl in *; [done|].
  destruct Hu as [He Hu]. apply IH; [done|]. by apply authInv_step.
Qed.

(** C27: a caller of [authenticate] gets the verdict on its own frame, as long as no other
    auth frame of the server crosses one in flight. The server sends two such frames: the
    pending-auth timeout, which a client with a token skips, and the auth_error with which
    it answers any other frame before authentication. While neither arrives between the
    count of an auth frame and its answer (for the timeout: or the client has a token),
    then whatever the interleaving of callers, sends that fail, contexts that end, answers
    of the server and the end of the connection: an answer returned to a caller answers the
    frame that caller sent; a caller that waits has its answer still to come or already in
    its channel, so none is lost to a verdict meant for a caller who gave up; and the late
    receive never blocks. [timeout_taken_for_verdict] and [rejection_taken_for_verdict] are
    the two crossings. *)
Theorem auth_verdict_is_own (es : list event) :
  uncrossed init es →
  let a := runs step init es in
  (∀ i f v, (i, Answered f v) ∈ results a → f = i) ∧
  (∀ i, active a = Some (i, PWaiting) → gone a = false →
     i ∈ outstanding a ∨ ∃ v, inbox a !! i = Some (i, v)) ∧
  (∀ i, active a = Some (i, PTaking) → ∃ v, inbox a !! i = Some (i, v)).
Proof.
  intros Ht. cbv zeta.
  assert (Hi : inv (runs step init es)) by (by apply uncrossed_inv; [|apply authInv_init]).
  destruct Hi as (Hp & Hb & Hr & Hg). unfold pcOk in Hp. split_and!; [done| |].
  - intros i Ha Hgo. rewrite Ha in Hp. destruct Hp as (_ & [[Hw _]|[_ Hv]]); [left|by right].
    destruct (Hg Hgo) as ((old & -> & _) & _). unfold waitingFrame. rewrite Ha.
    rewrite bool_decide_true by done. apply elem_of_app. right. by left.
  - intros i Ha. rewrite Ha in Hp. by destruct Hp as (_ & _ & Hv).
Qed.

End Machine.

(** With a token: a caller gives up, another waits, and the timeout frame arrives meanwhile. *)
Abbreviation exEvents :=
  [Begin; Count; SendOk; Ctx; Finish; Begin; Count; SendOk; TimeoutFrame (AuthError (ApiErr CodeAuthFailed "" None));
   Verdict AuthOk; Verdict (AuthError (ApiErr CodeAuthFailed "no" None)); Receive; Finish;
   Unsolicited (AuthError (ApiErr CodeAuthFailed "" None))].

Lemma auth_verdict_is_own_witness :
  uncrossed true init exEvents ∧
  results (runs (step true) init exEvents) =
    [(0, CtxDone); (1, Answered 1 (AuthError (ApiErr CodeAuthFailed "no" None)))] ∧
  (∀ i f v, (i, Answered f v) ∈ results (runs (step true) init exEvents) → f = i).
Proof.
  assert (Hu : uncrossed true init exEvents) by by vm_compute.
  split_and!; [exact Hu|by vm_compute|].
  exact (proj1 (auth_verdict_is_own true exEvents Hu)).
Defined.

(** Without an AuthToken, the server's pending-auth timeout is taken for the verdict of a
    [RefreshAuth] in flight: the caller is told its token was rejected, by a frame that
    answers nothing (frame 1 does not exist; the caller's own is 0, and is still to be
    answered by the server). *)
Lemma timeout_taken_for_verdict e :
  let a := runs (step false) init
    [Begin; Count; SendOk; TimeoutFrame (AuthError e); Receive; Finish] in
  results a = [(0, Answered 1 (AuthError e))] ∧ outstanding a = [0].
Proof. done. Qed.

(** So is the auth_error that answers a request which the server read before the auth
    frame; the verdict itself then counts as unsolicited, and is dropped. *)
Lemma rejection_taken_for_verdict e :
  let a := runs (step false) init
    [Begin; Count; SendOk; Unsolicited (AuthError e); Receive; Finish; Verdict AuthOk] in
  results a = [(0, Answered 1 (AuthError e))] ∧ outstanding a = [] ∧ authSent a = 0%Z.
Proof. done. Qed.

(** Without an auth frame in flight, a client without a token is shut down by it. *)
Lemma rejection_shuts_down e a :
  (authSent a ≤ 0)%Z → snd (handleVerdict false false (nextCaller a) (AuthError e) a) = Shutdown.
Proof. intros Hs. unfold handleVerdict. simpl. by rewrite bool_decide_true by lia. Qed.

End Auth.
