(* ===== verification/Client.v ===== *)
(** * Client: the Go client's tables and goroutines (client/client.go, client/call.go,
      client/subscription.go, client/stream.go)

    The client's state under [Client.mu], its objects, and the sections of code that run
    under one lock. A goroutine is the list of the sections it has still to execute
    ([task]s): executing one changes the state and puts the sections that follow in its
    place. A step of the machine lets one goroutine execute its next section, or starts a
    goroutine (a call by the program, a context that ends), so every interleaving at the
    grain of the locks is a sequence of steps. [subSendMu] is held across sections; taking
    it is part of the section that follows.

    What the environment decides is in [choice]: whether a write succeeds, which frame
    comes next, whether a context has ended, whether an attempt connects (Reconnect.v has
    the run loop's policy). Wire identifiers are [FormatUint] of the counter; the counter
    is unbounded (2^64 calls do not happen). A subscription is named by its id, which
    is never reused, so the comparisons [c.subs[s.id()] != s] are membership tests. *)

From S2P Require Import Prelude Protocol ClientParts ClientAuth.
From stdpp Require Import prelude gmap strings list pretty fin_maps fin_sets.

Module Client.
Import Errors Sub(Subscription, Subscr, payload, Raw, BlobResult, Blob, BlobVal).
Import RawStream(rawStream, RawStr) Auth(authState, AuthSt, verdict, AuthOk, AuthError).

(** ** Data *)

Inductive State := StateConnecting | StateConnected | StateClosed.

#[export] Instance State_eq_dec : EqDecision State.
Proof. solve_decision. Defined.

(** Client-to-server frames, by what the bookkeeping depends on, and the close of the
    socket. *)
Inductive outFrame :=
  | ORequest (id : string)
  | OSubscribe (id : string) (patch : bool)
  | OUnsubscribe (id : string)
  | OCancel (id : string)
  | OClose.

#[export] Instance outFrame_eq_dec : EqDecision outFrame.
Proof. solve_decision. Defined.

Inductive sendOutcome := SendOK | SendTooLarge | SendFailed.

#[export] Instance sendOutcome_eq_dec : EqDecision sendOutcome.
Proof. solve_decision. Defined.

Abbreviation callResult := (res clientErr payload) (only parsing).

(** Server-to-client frames. *)
Inductive inFrame :=
  | FResponse (id result : string)
  | FError (id : string) (e : apiError)
  | FAuth (v : verdict) (timeout : bool)
  | FProgress (id : string)
  | FPush (event data : string)
  | FPatch (id patch : string)
  | FStreamItem (id item : string)
  | FStreamChunk (id : string) (items : list string)
  | FStreamEnd (id : string) (e : apiError)
  | FConfig
  | FUnknown
  | FBinary (h : option (bool * string * Blob)).  (* understood?, id, payload *)

(** What the program observes besides results. *)
Inductive userEvent :=
  | UProgress (id : string)
  | UPush (event data : string)
  | URefreshError (id : string) (e : apiError).

Record Client {T : Type} := Cl {
  cstate : State;
  conn : option nat;
  closed : bool;
  closeErr : option clientErr;
  nextID : N;
  pending : gset string;
  chans : gmap string (list callResult);
  subs : gset string;
  subObjs : gmap string (Subscription T);
  subMu : bool;
  subInFlight : Z;
  subQueue : list string;
  streams : gset string;
  strObjs : gmap string (nat * rawStream string);
  auth : authState;
  dropRejection : option apiError;
  notified : list State;
  wire : list (nat * outFrame * sendOutcome);
  events : list userEvent;
  nextConn : nat;
  dead : gset nat;
}.
Arguments Client T : clear implicits.

(** The sections of code, named after the functions they belong to. *)
Inductive task {T : Type} :=
  (* Client.call *)
  | CallWait
  | CallNewID (k : nat)
  | CallRegister (k : nat) (id : string)
  | CallSend (k : nat) (id : string)
  | CallTakeBack (k : nat) (id : string) (e : clientErr)
  | CallSelect (k : nat) (id : string)
  | CallTakeCancel (k : nat) (id : string)
  | CallRecv (id : string)
  | CallReturn (r : callResult)
  | SendResult (id : string) (r : callResult)
  (* startStream, rawStream *)
  | StreamWait
  | StreamNewID (k : nat)
  | StreamRegister (k : nat) (id : string)
  | StreamSend (k : nat) (id : string)
  | StreamForget (id : string)
  | StreamPush (id item : string)
  | StreamEnd (id : string) (e : option clientErr)
  | StreamStop (id : string) (e : option clientErr)
  (* Subscribe, sendSubscribe, writeSubscribe, releaseSubSlot *)
  | SubNewID (apply : option (T → string → option T))
  | SubRegister (apply : option (T → string → option T)) (id : string)
  | SendSubscribe (k : nat) (id : string)
  | WriteMark (k : nat) (id : string)
  | WriteSubscribe (k : nat) (id : string)
  | UnlockSub
  | ReleaseSubSlot (k : nat)
  | Answered (k : nat) (id : string)
  | AnsweredLocked (k : nat) (id : string)
  | Resubscribe (k : nat) (id : string)
  | MarkResend (id : string)
  (* Subscription *)
  | EndSub (id : string) (e : option clientErr)
  | EndLocked (id : string)
  | EndRelease (id : string)
  | Deliver (id : string) (p : payload)
  | AfterDeliver (id : string)
  | ErrorAnswer (id : string) (e : apiError)
  | PatchFrame (k : nat) (id raw : string)
  | PatchFinish (id : string) (next : T)
  | ConnLost (id : string)
  (* the connection *)
  | ReadLoop (k : nat)
  | HandleFrame (k : nat) (f : inFrame)
  | Run (k : nat)
  | MarkDisconnected (k : nat) (cause : string)
  | Reconnect
  | MarkConnected (k : nat)
  | SetState (s : State)
  | Shutdown (e : clientErr)
  | ShutdownFinish
  | WireWrite (k : nat) (f : outFrame).
Arguments task T : clear implicits.

(** What the environment decides in a step. *)
Record choice := Choice {
  ch_send : sendOutcome;
  ch_ctx : bool;                (* the caller's context has ended, and select picks it *)
  ch_frame : option inFrame;    (* the next frame; None: the read fails *)
  ch_connect : bool;            (* the attempt connects; otherwise the loop gives up *)
  ch_cause : string;
}.

Definition maxSubscribesInFlight : Z := 64.

Definition FormatUint (n : N) : string := pretty n.

(** What the client is parametrised by: the result type with its zero value and its JSON
    decoding (and whether it is Blob), the order of [range], and the options: whether
    AuthToken, NoReconnect and ReconnectOnRejected are set. *)
Class Env (T : Type) := {
  zero : T;
  ofBlob : option (Blob → T);
  unmarshalWire : string → option T;
  rangeString :: RangeOrder string;
  hasToken : bool;
  noReconnect : bool;
  retryRejected : bool;
}.

Section Machine.
  Context `{Env T}.

(** Field updates. *)
Definition set_cstate (x : State) (c : Client T) : Client T :=
  Cl T x (conn c) (closed c) (closeErr c) (nextID c) (pending c) (chans c) (subs c) (subObjs c) (subMu c) (subInFlight c) (subQueue c) (streams c) (strObjs c) (auth c) (dropRejection c) (notified c) (wire c) (events c) (nextConn c) (dead c).
Definition set_conn (x : option nat) (c : Client T) : Client T :=
  Cl T (cstate c) x (closed c) (closeErr c) (nextID c) (pending c) (chans c) (subs c) (subObjs c) (subMu c) (subInFlight c) (subQueue c) (streams c) (strObjs c) (auth c) (dropRejection c) (notified c) (wire c) (events c) (nextConn c) (dead c).
Definition set_closed (x : bool) (c : Client T) : Client T :=
  Cl T (cstate c) (conn c) x (closeErr c) (nextID c) (pending c) (chans c) (subs c) (subObjs c) (subMu c) (subInFlight c) (subQueue c) (streams c) (strObjs c) (auth c) (dropRejection c) (notified c) (wire c) (events c) (nextConn c) (dead c).
Definition set_closeErr (x : option clientErr) (c : Client T) : Client T :=
  Cl T (cstate c) (conn c) (closed c) x (nextID c) (pending c) (chans c) (subs c) (subObjs c) (subMu c) (subInFlight c) (subQueue c) (streams c) (strObjs c) (auth c) (dropRejection c) (notified c) (wire c) (events c) (nextConn c) (dead c).
Definition set_nextID (x : N) (c : Client T) : Client T :=
  Cl T (cstate c) (conn c) (closed c) (closeErr c) x (pending c) (chans c) (subs c) (subObjs c) (subMu c) (subInFlight c) (subQueue c) (streams c) (strObjs c) (auth c) (dropRejection c) (notified c) (wire c) (events c) (nextConn c) (dead c).
Definition set_pending (x : gset string) (c : Client T) : Client T :=
  Cl T (cstate c) (conn c) (closed c) (closeErr c) (nextID c) x (chans c) (subs c) (subObjs c) (subMu c) (subInFlight c) (subQueue c) (streams c) (strObjs c) (auth c) (dropRejection c) (notified c) (wire c) (events c) (nextConn c) (dead c).
Definition set_chans (x : gmap string (list callResult)) (c : Client T) : Client T :=
  Cl T (cstate c) (conn c) (closed c) (closeErr c) (nextID c) (pending c) x (subs c) (subObjs c) (subMu c) (subInFlight c) (subQueue c) (streams c) (strObjs c) (auth c) (dropRejection c) (notified c) (wire c) (events c) (nextConn c) (dead c).
Definition set_subs (x : gset string) (c : Client T) : Client T :=
  Cl T (cstate c) (conn c) (closed c) (closeErr c) (nextID c) (pending c) (chans c) x (subObjs c) (subMu c) (subInFlight c) (subQueue c) (streams c) (strObjs c) (auth c) (dropRejection c) (notified c) (wire c) (events c) (nextConn c) (dead c).
Definition set_subObjs (x : gmap string (Subscription T)) (c : Client T) : Client T :=
  Cl T (cstate c) (conn c) (closed c) (closeErr c) (nextID c) (pending c) (chans c) (subs c) x (subMu c) (subInFlight c) (subQueue c) (streams c) (strObjs c) (auth c) (dropRejection c) (notified c) (wire c) (events c) (nextConn c) (dead c).
Definition set_subMu (x : bool) (c : Client T) : Client T :=
  Cl T (cstate c) (conn c) (closed c) (closeErr c) (nextID c) (pending c) (chans c) (subs c) (subObjs c) x (subInFlight c) (subQueue c) (streams c) (strObjs c) (auth c) (dropRejection c) (notified c) (wire c) (events c) (nextConn c) (dead c).
Definition set_subInFlight (x : Z) (c : Client T) : Client T :=
  Cl T (cstate c) (conn c) (closed c) (closeErr c) (nextID c) (pending c) (chans c) (subs c) (subObjs c) (subMu c) x (subQueue c) (streams c) (strObjs c) (auth c) (dropRejection c) (notified c) (wire c) (events c) (nextConn c) (dead c).
Definition set_subQueue (x : list string) (c : Client T) : Client T :=
  Cl T (cstate c) (conn c) (closed c) (closeErr c) (nextID c) (pending c) (chans c) (subs c) (subObjs c) (subMu c) (subInFlight c) x (streams c) (strObjs c) (auth c) (dropRejection c) (notified c) (wire c) (events c) (nextConn c) (dead c).
Definition set_streams (x : gset string) (c : Client T) : Client T :=
  Cl T (cstate c) (conn c) (closed c) (closeErr c) (nextID c) (pending c) (chans c) (subs c) (subObjs c) (subMu c) (subInFlight c) (subQueue c) x (strObjs c) (auth c) (dropRejection c) (notified c) (wire c) (events c) (nextConn c) (dead c).
Definition set_strObjs (x : gmap string (nat * rawStream string)) (c : Client T) : Client T :=
  Cl T (cstate c) (conn c) (closed c) (closeErr c) (nextID c) (pending c) (chans c) (subs c) (subObjs c) (subMu c) (subInFlight c) (subQueue c) (streams c) x (auth c) (dropRejection c) (notified c) (wire c) (events c) (nextConn c) (dead c).
Definition set_auth (x : authState) (c : Client T) : Client T :=
  Cl T (cstate c) (conn c) (closed c) (closeErr c) (nextID c) (pending c) (chans c) (subs c) (subObjs c) (subMu c) (subInFlight c) (subQueue c) (streams c) (strObjs c) x (dropRejection c) (notified c) (wire c) (events c) (nextConn c) (dead c).
Definition set_dropRejection (x : option apiError) (c : Client T) : Client T :=
  Cl T (cstate c) (conn c) (closed c) (closeErr c) (nextID c) (pending c) (chans c) (subs c) (subObjs c) (subMu c) (subInFlight c) (subQueue c) (streams c) (strObjs c) (auth c) x (notified c) (wire c) (events c) (nextConn c) (dead c).
Definition set_notified (x : list State) (c : Client T) : Client T :=
  Cl T (cstate c) (conn c) (closed c) (closeErr c) (nextID c) (pending c) (chans c) (subs c) (subObjs c) (subMu c) (subInFlight c) (subQueue c) (streams c) (strObjs c) (auth c) (dropRejection c) x (wire c) (events c) (nextConn c) (dead c).
Definition set_wire (x : list (nat * outFrame * sendOutcome)) (c : Client T) : Client T :=
  Cl T (cstate c) (conn c) (closed c) (closeErr c) (nextID c) (pending c) (chans c) (subs c) (subObjs c) (subMu c) (subInFlight c) (subQueue c) (streams c) (strObjs c) (auth c) (dropRejection c) (notified c) x (events c) (nextConn c) (dead c).
Definition set_events (x : list userEvent) (c : Client T) : Client T :=
  Cl T (cstate c) (conn c) (closed c) (closeErr c) (nextID c) (pending c) (chans c) (subs c) (subObjs c) (subMu c) (subInFlight c) (subQueue c) (streams c) (strObjs c) (auth c) (dropRejection c) (notified c) (wire c) x (nextConn c) (dead c).
Definition set_nextConn (x : nat) (c : Client T) : Client T :=
  Cl T (cstate c) (conn c) (closed c) (closeErr c) (nextID c) (pending c) (chans c) (subs c) (subObjs c) (subMu c) (subInFlight c) (subQueue c) (streams c) (strObjs c) (auth c) (dropRejection c) (notified c) (wire c) (events c) x (dead c).
Definition set_dead (x : gset nat) (c : Client T) : Client T :=
  Cl T (cstate c) (conn c) (closed c) (closeErr c) (nextID c) (pending c) (chans c) (subs c) (subObjs c) (subMu c) (subInFlight c) (subQueue c) (streams c) (strObjs c) (auth c) (dropRejection c) (notified c) (wire c) (events c) (nextConn c) x.

(** ** Calls and results *)

(** [newID]. *)
Definition newID (c : Client T) : Client T * string :=
  (set_nextID (nextID c + 1)%N c, FormatUint (nextID c + 1)).

(** [takePending]. *)
Definition takePending (id : string) (c : Client T) : Client T * bool :=
  if decide (id ∈ pending c) then (set_pending (pending c ∖ {[id]}) c, true) else (c, false).

(** The buffered channel [p.ch] of a call: whether a send would go through, the send, the
    value a receive would get, and the receive. *)
Definition chanFree (id : string) (c : Client T) : bool :=
  match chans c !! id with Some [] => true | _ => false end.

Definition sendResult (id : string) (r : callResult) (c : Client T) : Client T :=
  set_chans (alter (λ rs, rs ++ [r]) id (chans c)) c.

Definition chanHead (id : string) (c : Client T) : option callResult :=
  match chans c !! id with Some (r :: _) => Some r | _ => None end.

Definition recvResult (id : string) (c : Client T) : Client T :=
  set_chans (alter tail id (chans c)) c.

Definition notStreaming : clientErr :=
  ErrApi (ApiErr CodeInvalidRequest "method is not a streaming handler; use Call" None).
Definition isStreaming : clientErr :=
  ErrApi (ApiErr CodeInvalidRequest "method is a streaming handler; use Stream or Stream2" None).

(** [deliverResult]. *)
Definition deliverResult (id : string) (p : payload) (c : Client T) : Client T * list (task T) :=
  let '(c, ok) := takePending id c in
  if ok then (c, [SendResult id (Ok p)])
  else if decide (id ∈ streams c) then
    (set_streams (streams c ∖ {[id]}) c, [StreamEnd id (Some notStreaming)])
  else if decide (id ∈ subs c) then (c, [Deliver id p; AfterDeliver id])
  else (c, []).

(** [rejectStreamForCall]. *)
Definition rejectStreamForCall (k : nat) (id : string) (c : Client T) : Client T * list (task T) :=
  let '(c, ok) := takePending id c in
  if ok then (c, [WireWrite k (OCancel id); SendResult id (Err isStreaming)]) else (c, []).

(** [handleError]. *)
Definition handleError (k : nat) (id : string) (e : apiError) (c : Client T)
    : Client T * list (task T) :=
  if bool_decide (id ≠ "") && bool_decide (id ∈ pending c) then
    (set_pending (pending c ∖ {[id]}) c, [SendResult id (Err (ErrApi e))])
  else if bool_decide (id ≠ "") && bool_decide (id ∈ streams c) then
    (set_streams (streams c ∖ {[id]}) c, [StreamEnd id (Some (ErrApi e))])
  else if bool_decide (id ≠ "") && bool_decide (id ∈ subs c) then (c, [ErrorAnswer id e])
  else if bool_decide (Code e = CodeConnectionRejected) then
    if retryRejected && negb noReconnect then
      (if bool_decide (conn c = Some k) then set_dropRejection (Some e) c else c,
       [WireWrite k OClose])
    else (c, [Shutdown (ErrApi e)])
  else (c, []).

(** [handleBinary], after [decodeBinaryFrame] (Wire.v). The message of the error also
    quotes the version and the type of the frame. *)
Definition handleBinary (h : option (bool * string * Blob)) (c : Client T)
    : Client T * list (task T) :=
  match h with
  | None => (c, [])
  | Some (false, id, _) =>
      let e := ErrApi (ApiErr CodeInternalError "unsupported binary frame" None) in
      let '(c, ok) := takePending id c in
      if ok then (c, [SendResult id (Err e)])
      else if decide (id ∈ subs c) then (c, [EndSub id (Some e)]) else (c, [])
  | Some (true, id, b) => deliverResult id (BlobResult b) c
  end.

(** The message of an unsolicited auth_error. *)
Definition authMessage (v : verdict) : string :=
  match v with
  | AuthError e => if bool_decide (Message e = "") then "authentication required" else Message e
  | AuthOk => ""
  end.

(** [handleFrame]. *)
Definition handleFrame (k : nat) (f : inFrame) (c : Client T) : Client T * list (task T) :=
  match f with
  | FResponse id result => deliverResult id (Raw result) c
  | FError id e => handleError k id e c
  | FAuth v timeout =>
      let '(a, act) := Auth.handleVerdict hasToken timeout 0 v (auth c) in
      (set_auth a c,
       match act with
       | Auth.Shutdown => [Shutdown (ErrApi (ApiErr CodeAuthFailed (authMessage v) None))]
       | _ => []
       end)
  | FProgress id =>
      (if decide (id ∈ pending c) then set_events (events c ++ [UProgress id]) c else c, [])
  | FPush event data => (set_events (events c ++ [UPush event data]) c, [])
  | FPatch id raw => (c, if decide (id ∈ subs c) then [PatchFrame k id raw] else [])
  | FStreamItem id item =>
      if decide (id ∈ streams c) then (c, [StreamPush id item]) else rejectStreamForCall k id c
  | FStreamChunk id items =>
      if decide (id ∈ streams c) then (c, StreamPush id <$> items) else rejectStreamForCall k id c
  | FStreamEnd id e =>
      if decide (id ∈ streams c) then
        (set_streams (streams c ∖ {[id]}) c,
         [StreamEnd id (if bool_decide (Code e ≠ 0%Z) then Some (ErrApi e) else None)])
      else rejectStreamForCall k id c
  | FConfig | FUnknown => (c, [])
  | FBinary h => handleBinary h c
  end.

(** ** The connection *)

(** [setState]. *)
Definition setState (s : State) (c : Client T) : Client T :=
  if bool_decide (cstate c = s) || bool_decide (cstate c = StateClosed) || closed c then c
  else set_notified (notified c ++ [s]) (set_cstate s c).

(** [markConnected]; [Run] is the loop that [connect] returns to. *)
Definition markConnected (k : nat) (c : Client T) : Client T * list (task T) :=
  if closed c then (c, [])
  else (set_subQueue [] (set_subInFlight 0 (set_conn (Some k) c)),
        SetState StateConnected :: (SendSubscribe k <$> range_of (subs c)) ++ [Run k]).

(** [markDisconnected]. *)
Definition markDisconnected (k : nat) (cause : string) (c : Client T) : Client T * list (task T) :=
  if bool_decide (conn c ≠ Some k) then (c, [])
  else
    let e := ErrConnectionLost cause in
    (set_streams ∅ (set_pending ∅ (set_subQueue [] (set_subInFlight 0 (set_conn None c)))),
     ((λ id, SendResult id (Err e)) <$> range_of (pending c)) ++
     ((λ id, StreamEnd id (Some e)) <$> range_of (streams c)) ++
     (ConnLost <$> range_of (subs c)) ++ [SetState StateConnecting]).

(** [shutdown], up to the final state change. *)
Definition shutdown (e : clientErr) (c : Client T) : Client T * list (task T) :=
  if closed c then (c, [])
  else
    (set_subs ∅ (set_streams ∅ (set_pending ∅ (set_conn None (set_closeErr (Some e) (set_closed true c))))),
     (match conn c with Some k => [WireWrite k OClose] | None => [] end) ++
     ((λ id, SendResult id (Err e)) <$> range_of (pending c)) ++
     ((λ id, StreamEnd id (Some e)) <$> range_of (streams c)) ++
     ((λ id, EndSub id (Some e)) <$> range_of (subs c)) ++ [ShutdownFinish]).

(** ** Subscriptions *)

Definition withSub (id : string) (f : Subscription T → Subscription T) (c : Client T) : Client T :=
  set_subObjs (alter f id (subObjs c)) c.

(** What a method of the object of [id] returns. *)
Definition ofSub {A} (id : string) (f : Subscription T → A) (d : A) (c : Client T) : A :=
  match subObjs c !! id with Some s => f s | None => d end.

Definition write (k : nat) (f : outFrame) (o : sendOutcome) (c : Client T) : Client T :=
  set_wire (wire c ++ [(k, f, o)]) c.

(** [sendSubscribe], with [subSendMu] taken; it stays locked while the frame is written. *)
Definition sendSubscribe (k : nat) (id : string) (c : Client T) : Client T * list (task T) :=
  if negb (bool_decide (id ∈ subs c) && bool_decide (conn c = Some k)) then (c, [])
  else if bool_decide (maxSubscribesInFlight ≤ subInFlight c)%Z then
    (set_subQueue (subQueue c ++ [id]) c, [])
  else (set_subMu true (set_subInFlight (subInFlight c + 1)%Z c),
        [WriteMark k id; WriteSubscribe k id; UnlockSub]).

(** The loop of [releaseSubSlot] over the queue: the new count, the rest of the queue and
    the subscriptions to send. *)
Fixpoint dequeue (open : gset string) (n : Z) (q : list string) : Z * list string * list string :=
  match q with
  | [] => (n, [], [])
  | s :: q' =>
      if bool_decide (n < maxSubscribesInFlight)%Z then
        if decide (s ∈ open) then
          let '(n', q'', next) := dequeue open (n + 1)%Z q' in (n', q'', s :: next)
        else dequeue open n q'
      else (n, q, [])
  end.

(** [releaseSubSlot], with [subSendMu] taken. *)
Definition releaseSubSlot (k : nat) (c : Client T) : Client T * list (task T) :=
  if bool_decide (conn c ≠ Some k) then (c, [])
  else
    let '(n, q, next) := dequeue (subs c) (subInFlight c - 1)%Z (subQueue c) in
    (set_subMu true (set_subQueue q (set_subInFlight n c)),
     concat ((λ s, [WriteMark k s; WriteSubscribe k s]) <$> next) ++ [UnlockSub]).

(** The first occurrence of [id] removed, as the loop in [end] does. *)
Fixpoint removeFirst (id : string) (q : list string) : list string :=
  match q with
  | [] => []
  | x :: q => if bool_decide (x = id) then q else x :: removeFirst id q
  end.

(** [end], from the point where it holds [subSendMu]. *)
Definition endLocked (id : string) (c : Client T) : Client T * list (task T) :=
  let c := set_subQueue (removeFirst id (subQueue c)) (set_subs (subs c ∖ {[id]}) c) in
  match conn c with
  | Some k => (set_subMu true c, [WireWrite k (OUnsubscribe id); UnlockSub; EndRelease id])
  | None => (c, [EndRelease id])
  end.

(** [resubscribe]. *)
Definition resubscribe (k : nat) (id : string) (c : Client T) : list (task T) :=
  if bool_decide (ofSub id Sub.awaitingOn None c = Some k) then [MarkResend id] else [SendSubscribe k id].

(** ** Execution *)

Definition takeAwaiting (id : string) (c : Client T) : Client T * option nat :=
  (withSub id (λ s, fst (Sub.takeAwaiting s)) c, ofSub id (λ s, snd (Sub.takeAwaiting s)) None c).

Definition withStream (id : string) (f : rawStream string → rawStream string) (c : Client T) : Client T :=
  set_strObjs (alter (prod_map Datatypes.id f) id (strObjs c)) c.

(** What follows the first half of [patch]: nothing, the resubscribe of [handleFrame], or
    the user's function and its two endings. *)
Definition patchNext (k : nat) (id raw : string) (s : Subscription T) : list (task T) :=
  match Sub.patchBegin s with
  | Sub.PatchIgnored => []
  | Sub.PatchRefused => [Resubscribe k id]
  | Sub.PatchApply cur f =>
      match f cur raw with
      | Some next => [PatchFinish id next]
      | None => [EndSub id (Some ErrPatch)]
      end
  end.

(** The client after the section, the sections that follow it in its goroutine, and the
    goroutines it starts. *)
Record outcome := Outcome {
  o_client : Client T;
  o_next : list (task T);
  o_spawn : list (list (task T));
}.

Definition goOn (cr : Client T * list (task T)) : option outcome := Some (Outcome cr.1 cr.2 []).

(** [waitConnected], one turn of its loop; [found] is what the caller does with the
    connection, [failed] with an error. *)
Definition waitConnected (ch : choice) (found : nat → list (task T)) (failed : clientErr → list (task T))
    (c : Client T) : option outcome :=
  if closed c then goOn (c, failed (default ErrClosed (closeErr c)))
  else match conn c with
       | Some k => goOn (c, found k)
       | None => if ch_ctx ch then goOn (c, failed ErrCtx) else None
       end.

(** The sections of [Client.call], and the senders of its results. *)
Definition execCall (ch : choice) (t : task T) (c : Client T) : option outcome :=
  match t with
  | CallWait => waitConnected ch (λ k, [CallNewID k]) (λ e, [CallReturn (Err e)]) c
  | CallNewID k => let '(c, id) := newID c in goOn (c, [CallRegister k id])
  | CallRegister k id =>
      if bool_decide (conn c = Some k)
      then goOn (set_chans (<[id := []]> (chans c)) (set_pending ({[id]} ∪ pending c) c), [CallSend k id])
      else goOn (c, [CallWait])
  | CallSend k id =>
      let c := write k (ORequest id) (ch_send ch) c in
      goOn (c, match ch_send ch with
               | SendOK => [CallSelect k id]
               | SendTooLarge => [CallTakeBack k id ErrMessageTooLarge]
               | SendFailed => [CallTakeBack k id (ErrConnectionLost (ch_cause ch))]
               end)
  | CallTakeBack k id e =>
      let '(c, ok) := takePending id c in
      goOn (c, if ok || bool_decide (e = ErrMessageTooLarge) then [CallReturn (Err e)] else [CallSelect k id])
  | CallSelect k id =>
      if ch_ctx ch then goOn (c, [CallTakeCancel k id])
      else match chanHead id c with
           | Some r => goOn (recvResult id c, [CallReturn r])
           | None => None
           end
  | CallTakeCancel k id =>
      let '(c, ok) := takePending id c in
      goOn (c, if ok then [WireWrite k (OCancel id); CallReturn (Err ErrCtx)] else [CallRecv id])
  | CallRecv id =>
      match chanHead id c with
      | Some r => goOn (recvResult id c, [CallReturn r])
      | None => None
      end
  | CallReturn _ => None
  | SendResult id r => if chanFree id c then goOn (sendResult id r c, []) else None
  | _ => None
  end.

(** The sections of [startStream], and of the stream objects it makes. *)
Definition execStream (ch : choice) (t : task T) (c : Client T) : option outcome :=
  match t with
  | StreamWait => waitConnected ch (λ k, [StreamNewID k]) (λ _, []) c
  | StreamNewID k => let '(c, id) := newID c in goOn (c, [StreamRegister k id])
  | StreamRegister k id =>
      if bool_decide (conn c = Some k)
      then goOn (set_strObjs (<[id := (k, RawStream.newRawStream)]> (strObjs c))
                   (set_streams ({[id]} ∪ streams c) c), [StreamSend k id])
      else goOn (c, [StreamWait])
  | StreamSend k id =>
      goOn (write k (ORequest id) (ch_send ch) c,
        match ch_send ch with
        | SendOK => []
        | SendTooLarge => [StreamForget id; StreamEnd id (Some ErrMessageTooLarge)]
        | SendFailed => [StreamForget id; StreamEnd id (Some (ErrConnectionLost (ch_cause ch)))]
        end)
  | StreamForget id => goOn (set_streams (streams c ∖ {[id]}) c, [])
  | StreamPush id item => goOn (withStream id (RawStream.push item) c, [])
  | StreamEnd id e => goOn (withStream id (RawStream.end_ e) c, [])
  | StreamStop id e =>
      goOn (withStream id (λ s, fst (RawStream.stop e s)) c,
        match strObjs c !! id with
        | Some (k, s) =>
            if snd (RawStream.stop e s) then [StreamForget id; WireWrite k (OCancel id)] else []
        | None => []
        end)
  | _ => None
  end.

(** The sections of [Subscribe]. *)
Definition execSubscribe (ch : choice) (t : task T) (c : Client T) : option outcome :=
  match t with
  | SubNewID apply => let '(c, id) := newID c in goOn (c, [SubRegister apply id])
  | SubRegister apply id =>
      let s := Sub.newSubscription zero apply in
      if closed c then goOn (set_subObjs (<[id := fst (Sub.closeWith zero (closeErr c) s)]> (subObjs c)) c, [])
      else goOn (set_subs ({[id]} ∪ subs c) (set_subObjs (<[id := s]> (subObjs c)) c),
                 match conn c with Some k => [SendSubscribe k id] | None => [] end)
  | _ => None
  end.

(** [writeSubscribe], with [subSendMu] held: the mark and the frame. *)
Definition writeSubscribe (ch : choice) (t : task T) (c : Client T) : option outcome :=
  match t with
  | WriteMark k id => goOn (withSub id (Sub.sent k) c, [])
  | WriteSubscribe k id =>
      Some (Outcome (write k (OSubscribe id (ofSub id Sub.wantsPatch false c)) (ch_send ch) c) []
        (if bool_decide (ch_send ch = SendTooLarge) then [[EndSub id (Some ErrMessageTooLarge)]] else []))
  | _ => None
  end.

(** [answered]. *)
Definition answered (ch : choice) (t : task T) (c : Client T) : option outcome :=
  match t with
  | Answered k id =>
      goOn (withSub id (λ s, fst (Sub.takeResend s)) c,
            if ofSub id (λ s, snd (Sub.takeResend s)) false c
            then [AnsweredLocked k id] else [ReleaseSubSlot k])
  | AnsweredLocked k id =>
      if subMu c then None
      else if bool_decide (id ∈ subs c) && bool_decide (conn c = Some k)
      then goOn (set_subMu true c, [WriteMark k id; WriteSubscribe k id; UnlockSub])
      else goOn (c, [ReleaseSubSlot k])
  | _ => None
  end.

(** The sections of [Subscription.end]. *)
Definition execEnd (ch : choice) (t : task T) (c : Client T) : option outcome :=
  match t with
  | EndSub id e =>
      goOn (withSub id (λ s, fst (Sub.closeWith zero e s)) c,
            if ofSub id (λ s, snd (Sub.closeWith zero e s)) false c then [EndLocked id] else [])
  | EndLocked id => if subMu c then None else goOn (endLocked id c)
  | EndRelease id =>
      let '(c, aw) := takeAwaiting id c in
      goOn (c, match aw with Some k => [ReleaseSubSlot k] | None => [] end)
  | _ => None
  end.

(** What the read loop does with the object of a subscription after it left [c.mu]. *)
Definition execAnswer (ch : choice) (t : task T) (c : Client T) : option outcome :=
  match t with
  | Deliver id p =>
      goOn (withSub id (λ s, fst (Sub.deliver zero ofBlob unmarshalWire p s)) c,
            match ofSub id (λ s, snd (Sub.deliver zero ofBlob unmarshalWire p s)) None c with
            | Some e => [EndSub id (Some e)]
            | None => []
            end)
  | AfterDeliver id =>
      let '(c, aw) := takeAwaiting id c in
      goOn (c, match aw with Some k => [Answered k id] | None => [] end)
  | ErrorAnswer id e =>
      let '(c, aw) := takeAwaiting id c in
      match aw with
      | Some k => goOn (c, [ReleaseSubSlot k; EndSub id (Some (ErrApi e))])
      | None => goOn (set_events (events c ++ [URefreshError id e]) c, [])
      end
  | PatchFrame k id raw => goOn (c, ofSub id (patchNext k id raw) [] c)
  | PatchFinish id next => goOn (withSub id (Sub.patchFinish next) c, [])
  | ConnLost id => goOn (withSub id (Sub.connLost zero) c, [])
  | _ => None
  end.

(** The read loop, the run loop and the connection. *)
Definition execConn (ch : choice) (t : task T) (c : Client T) : option outcome :=
  match t with
  | ReadLoop k =>
      match ch_frame ch with
      | Some f => goOn (c, [HandleFrame k f; ReadLoop k])
      | None => goOn (set_dead ({[k]} ∪ dead c) c, [])
      end
  | HandleFrame k f => goOn (handleFrame k f c)
  | Run k =>
      if decide (k ∈ dead c) then
        goOn (set_dropRejection None c,
              [MarkDisconnected k (ch_cause ch);
               if noReconnect then
                 Shutdown (match dropRejection c with
                           | Some e => ErrApi e
                           | None => ErrConnectionLost (ch_cause ch)
                           end)
               else Reconnect])
      else if closed c then goOn (c, []) else None
  | MarkDisconnected k cause => goOn (markDisconnected k cause c)
  | Reconnect =>
      if closed c then goOn (c, [])
      else if ch_connect ch then
        let k := nextConn c in
        Some (Outcome (set_auth Auth.init (set_nextConn (S k) c)) [MarkConnected k] [[ReadLoop k]])
      else goOn (c, [Shutdown (ErrGaveUp 0 (ch_cause ch))])
  | MarkConnected k => goOn (markConnected k c)
  | SetState s => goOn (setState s c, [])
  | Shutdown e => goOn (shutdown e c)
  | ShutdownFinish => goOn (set_notified (notified c ++ [StateClosed]) (set_cstate StateClosed c), [])
  | _ => None
  end.

(** One section; None: it has to wait (for a lock, a channel, the connection). *)
Definition exec (ch : choice) (t : task T) (c : Client T) : option outcome :=
  match t with
  | CallWait | CallNewID _ | CallRegister _ _ | CallSend _ _ | CallTakeBack _ _ _ | CallSelect _ _
  | CallTakeCancel _ _ | CallRecv _ | CallReturn _ | SendResult _ _ => execCall ch t c
  | StreamWait | StreamNewID _ | StreamRegister _ _ | StreamSend _ _ | StreamForget _
  | StreamPush _ _ | StreamEnd _ _ | StreamStop _ _ => execStream ch t c
  | SubNewID _ | SubRegister _ _ => execSubscribe ch t c
  | WriteMark _ _ | WriteSubscribe _ _ => writeSubscribe ch t c
  | Answered _ _ | AnsweredLocked _ _ => answered ch t c
  | EndSub _ _ | EndLocked _ | EndRelease _ => execEnd ch t c
  | Deliver _ _ | AfterDeliver _ | ErrorAnswer _ _ | PatchFrame _ _ _ | PatchFinish _ _
  | ConnLost _ => execAnswer ch t c
  | ReadLoop _ | HandleFrame _ _ | Run _ | MarkDisconnected _ _ | Reconnect | MarkConnected _
  | SetState _ | Shutdown _ | ShutdownFinish => execConn ch t c
  | SendSubscribe k id => if subMu c then None else goOn (sendSubscribe k id c)
  | UnlockSub => goOn (set_subMu false c, [])
  | ReleaseSubSlot k => if subMu c then None else goOn (releaseSubSlot k c)
  | Resubscribe k id => goOn (c, resubscribe k id c)
  | MarkResend id => goOn (withSub id Sub.markResend c, [])
  | WireWrite k f => goOn (write k f (ch_send ch) c, [])
  end.

(** ** The machine *)

Record world := World { client : Client T; threads : list (list (task T)) }.

(** What starts a goroutine of its own: the API, a context that ends, a consumer. *)
Definition apiStart (ts : list (task T)) : Prop :=
  match ts with
  | [CallWait] | [StreamWait] | [StreamStop _ _] | [SubNewID _] | [EndSub _ _] | [Shutdown _] => True
  | _ => False
  end.

Inductive step : world → world → Prop :=
  | step_start w ts : apiStart ts → step w (World (client w) (threads w ++ [ts]))
  | step_exec w ch i t rest o :
      threads w !! i = Some (t :: rest) → exec ch t (client w) = Some o →
      step w (World (o_client o) (<[i := o_next o ++ rest]> (threads w) ++ o_spawn o)).

Definition initClient : Client T :=
  Cl T StateConnecting None false None 0 ∅ ∅ ∅ ∅ false 0 [] ∅ ∅ Auth.init None [] [] [] 0 ∅.

(** [start]: the first connection attempt. *)
Definition initial (w : world) : Prop := w = World initClient [[Reconnect]].

(** A scheduler, to run the machine on concrete inputs: the goroutine to move (or the one
    to start) and the environment's choices. *)
Inductive move := Start (ts : list (task T)) | Go (i : nat) (ch : choice).

Definition apply1 (w : world) (m : move) : world :=
  match m with
  | Start ts => World (client w) (threads w ++ [ts])
  | Go i ch =>
      match threads w !! i with
      | Some (t :: rest) =>
          match exec ch t (client w) with
          | Some o => World (o_client o) (<[i := o_next o ++ rest]> (threads w) ++ o_spawn o)
          | None => w
          end
      | _ => w
      end
  end.

Definition legal (m : move) : Prop := match m with Start ts => apiStart ts | Go _ _ => True end.

Definition moves (w : world) (ms : list move) : world := runs apply1 w ms.

Lemma moves_reachable ms w :
  Forall legal ms → reachable initial step w → reachable initial step (moves w ms).
Proof.
  intros Hms. revert w. induction Hms as [|m ms Hm _ IH]; intros w Hw; [done|].
  apply IH. destruct m as [ts|i ch]; simpl.
  - eapply reach_step; [exact Hw|]. by constructor.
  - destruct (threads w !! i) as [[|t rest]|] eqn:Ei; [done| |done].
    destruct (exec ch t (client w)) as [o|] eqn:Eo; [|done].
    eapply reach_step; [exact Hw|]. by eapply step_exec.
Qed.

End Machine.

Arguments world T : clear implicits.
Arguments move T : clear implicits.

End Client.
