(* ===== verification/ClientRun.v ===== *)
(** * ClientRun: runs of the Go client's machine on concrete inputs

    A client of strings, and schedules that connect, make a call and a subscription, have
    them answered, unsubscribe, and close. The theorems about reachable worlds are applied
    to these. *)

From S2P Require Import Prelude Protocol ClientParts ClientAuth Client.
From stdpp Require Import prelude gmap strings list pretty fin_maps fin_sets.

Module ClientRun.
Import Client.Client.
Import Errors.

#[export] Instance stringEnv : Env string := {|
  zero := "";
  ofBlob := None;
  unmarshalWire := Some;
  rangeString := elements_order;
  hasToken := false;
  noReconnect := false;
  retryRejected := false;
|}.

Definition calm : choice := Choice SendOK false None true "".
Definition reads (f : inFrame) : choice := Choice SendOK false (Some f) true "".

Definition world0 : world string := World initClient [[Reconnect]].

Definition go (i n : nat) : list (move string) := replicate n (Go i calm).

(** Connect; a call waits for its answer, and so does a subscription. *)
Definition opening : list (move string) :=
  go 0 3 ++ [Start [CallWait]] ++ go 2 4 ++ [Start [SubNewID None]] ++ go 3 6.

(** Both are answered. *)
Definition answers : list (move string) :=
  [Go 1 (reads (FResponse "1" "one"))] ++ go 1 2 ++ go 2 1 ++
  [Go 1 (reads (FResponse "2" "two"))] ++ go 1 6.

(** The program closes the subscription, and the client. *)
Definition closing : list (move string) :=
  [Start [EndSub "2" None]] ++ go 4 6 ++ [Start [Shutdown ErrClosed]] ++ go 5 4.

Definition opened : world string := moves world0 opening.
Definition bothAnswered : world string := moves opened answers.
Definition ended : world string := moves bothAnswered closing.

Lemma world0_reachable : reachable initial step world0.
Proof. by constructor. Qed.

Lemma opened_reachable : reachable initial step opened.
Proof. apply moves_reachable; [by repeat constructor|apply world0_reachable]. Qed.

Lemma bothAnswered_reachable : reachable initial step bothAnswered.
Proof. apply moves_reachable; [by repeat constructor|apply opened_reachable]. Qed.

Lemma ended_reachable : reachable initial step ended.
Proof. apply moves_reachable; [by repeat constructor|apply bothAnswered_reachable]. Qed.

Example opened_run :
  threads opened = [[Run 0]; [ReadLoop 0]; [CallSelect 0 "1"]; []] ∧
  conn (client opened) = Some 0 ∧ pending (client opened) = {["1"]} ∧ subInFlight (client opened) = 1%Z.
Proof. vm_compute. done. Qed.

Example answered_run :
  threads bothAnswered = [[Run 0]; [ReadLoop 0]; [CallReturn (Ok (Sub.Raw "one"))]; []] ∧
  subInFlight (client bothAnswered) = 0%Z.
Proof. vm_compute. done. Qed.

Example ended_run :
  notified (client ended) = [StateConnected; StateClosed] ∧
  wire (client ended) =
    [(0, ORequest "1", SendOK); (0, OSubscribe "2" false, SendOK);
     (0, OUnsubscribe "2", SendOK); (0, OClose, SendOK)].
Proof. vm_compute. done. Qed.

End ClientRun.
