(* ===== verification/ClientFacts.v ===== *)
(** * ClientFacts: counting the sections of the Go client's goroutines

    The invariants of Client.v speak of how many pending sections of a kind there are over
    all goroutines. This file has the counting lemmas, the shape of a goroutine that holds
    [subSendMu], and the freshness of wire identifiers. *)

From S2P Require Import Prelude Protocol ClientParts ClientAuth Client.
From stdpp Require Import prelude gmap strings list pretty fin_maps fin_sets.

Module ClientFacts.
Import Client.Client.
Import Errors.

Section Facts.
  Context `{Env T}.
  Implicit Types (c : Client T) (t : task T) (ts : list (task T)) (ths : list (list (task T))).

(** ** Counting *)

Fixpoint cntL (P : task T → bool) ts : nat :=
  match ts with
  | [] => 0
  | t :: ts => Nat.b2n (P t) + cntL P ts
  end.

Fixpoint cnt (P : task T → bool) ths : nat :=
  match ths with
  | [] => 0
  | ts :: ths => cntL P ts + cnt P ths
  end.

Lemma cntL_app P ts1 ts2 : cntL P (ts1 ++ ts2) = cntL P ts1 + cntL P ts2.
Proof. induction ts1; simpl; lia. Qed.

Lemma cnt_app P ths1 ths2 : cnt P (ths1 ++ ths2) = cnt P ths1 + cnt P ths2.
Proof. induction ths1; simpl; lia. Qed.

Lemma cnt_insert P ths i ts ts' :
  ths !! i = Some ts → cnt P (<[i := ts']> ths) + cntL P ts = cnt P ths + cntL P ts'.
Proof.
  revert i. induction ths as [|u ths IH]; intros i Hi; [done|].
  destruct i as [|i]; simpl in *; [simplify_eq; lia|]. specialize (IH _ Hi). lia.
Qed.

(** The effect of one section on a count. *)
Lemma cnt_step P ths i t rest nw sp :
  ths !! i = Some (t :: rest) →
  cnt P (<[i := nw ++ rest]> ths ++ sp) + Nat.b2n (P t) = cnt P ths + cntL P nw + cnt P sp.
Proof.
  intros Hi. rewrite cnt_app. pose proof (cnt_insert P ths i _ (nw ++ rest) Hi) as Hc.
  rewrite cntL_app in Hc. simpl in Hc. lia.
Qed.

Lemma cnt_head P ths i t rest :
  ths !! i = Some (t :: rest) → P t = true → 1 ≤ cnt P ths.
Proof.
  intros Hi Ht. pose proof (cnt_insert P ths i _ [] Hi) as Hc. simpl in Hc. rewrite Ht in Hc.
  simpl in Hc. lia.
Qed.

Lemma cntL_false P ts : (∀ t, t ∈ ts → P t = false) → cntL P ts = 0.
Proof.
  induction ts as [|t ts IH]; intros Ht; [done|]. simpl. rewrite (Ht t) by by left.
  rewrite IH; [done|]. intros. apply Ht. by right.
Qed.

Lemma cntL_fmap {A} P (f : A → task T) (l : list A) :
  (∀ x, P (f x) = false) → cntL P (f <$> l) = 0.
Proof. intros Hf. apply cntL_false. intros t (x & -> & _)%list_elem_of_fmap. apply Hf. Qed.

(** A count over a range in which each element counts when it is [x]. *)
Lemma cntL_fmap_eq P (f : string → task T) (l : list string) x :
  NoDup l → (∀ y, P (f y) = bool_decide (y = x)) →
  cntL P (f <$> l) = Nat.b2n (bool_decide (x ∈ l)).
Proof.
  intros Hl Hf. induction Hl as [|y l Hy _ IH]; [done|]. cbn [fmap list_fmap cntL].
  rewrite Hf, IH. repeat case_bool_decide; subst; simpl; try done; set_solver.
Qed.

(** In a run of the machine, a count that no section raises stays at zero. *)
Lemma cnt_zero_head P ths i t rest :
  cnt P ths = 0 → ths !! i = Some (t :: rest) → P t = false.
Proof.
  intros Hz Hi. destruct (P t) eqn:E; [|done]. pose proof (cnt_head P ths i t rest Hi E). lia.
Qed.

(** ** Reachable worlds *)

(** An invariant of client and goroutines, by cases on the section that runs. *)
Lemma world_invariant (I : Client T → list (list (task T)) → Prop) :
  I initClient [[Reconnect]] →
  (∀ c ths ts, I c ths → apiStart ts → I c (ths ++ [ts])) →
  (∀ c ths i t rest ch o, reachable initial step (World c ths) → I c ths →
     ths !! i = Some (t :: rest) → exec ch t c = Some o →
     I (o_client o) (<[i := o_next o ++ rest]> ths ++ o_spawn o)) →
  ∀ w, reachable initial step w → I (client w) (threads w).
Proof.
  intros Hi Hs He w Hr. induction Hr as [w ->|w w' Hr IH Hst]; [done|].
  destruct Hst as [w ts Hts|w ch i t rest o Hth Hex]; simpl in *.
  - by apply Hs.
  - eapply He; eauto. by destruct w.
Qed.

(** ** The holder of [subSendMu] *)

(** The sections that run under it, and its release. *)
Definition isCrit t : bool :=
  match t with
  | WriteMark _ _ | WriteSubscribe _ _ | WireWrite _ (OUnsubscribe _ | OSubscribe _ _) => true
  | _ => false
  end.

Definition isUnlock t : bool := match t with UnlockSub => true | _ => false end.

Definition plain t : Prop := isCrit t = false ∧ isUnlock t = false.

(** A goroutine either has no critical section, or is about to finish one. *)
Definition shaped ts : Prop :=
  Forall plain ts ∨
  ∃ cs rest, ts = cs ++ UnlockSub :: rest ∧ Forall (λ t, isCrit t = true) cs ∧ Forall plain rest.

Lemma shaped_plain ts rest : Forall plain ts → Forall plain rest → shaped (ts ++ rest).
Proof. intros. left. by apply Forall_app. Qed.

Lemma plain_fmap {A} (f : A → task T) (l : list A) : (∀ x, plain (f x)) → Forall plain (f <$> l).
Proof. intros Hf. apply Forall_forall. intros t (x & -> & _)%list_elem_of_fmap. apply Hf. Qed.

(** What a section leaves behind, when it is not itself critical: plain sections, or (when
    it took the free mutex) a critical section. *)
Definition leaves (c : Client T) (o : outcome) : Prop :=
  (Forall plain (o_next o) ∧ subMu (o_client o) = subMu c) ∨
  (subMu c = false ∧ subMu (o_client o) = true ∧
   ∃ cs rest, o_next o = cs ++ UnlockSub :: rest ∧ Forall (λ t, isCrit t = true) cs ∧ Forall plain rest).

Lemma leaves_plain c c' nw :
  Forall plain nw → subMu c' = subMu c → leaves c (Outcome c' nw []).
Proof. by left. Qed.

(** [takePending] as one update. *)
Lemma takePending_eq id c :
  takePending id c = (set_pending (pending c ∖ {[id]}) c, bool_decide (id ∈ pending c)).
Proof.
  unfold takePending. destruct (decide (id ∈ pending c)).
  - by rewrite bool_decide_true.
  - rewrite bool_decide_false by done. f_equal. destruct c; unfold set_pending; simpl in *.
    f_equal. set_solver.
Qed.

End Facts.

(** Case analysis of a section: the equation [He : exec ch t c = Some o] is taken apart,
    and [o] becomes explicit. The functions that decide more than one thing stay folded. *)
Ltac exec_inv He :=
  cbv [exec execCall execStream execSubscribe writeSubscribe answered execEnd execAnswer execConn
       waitConnected goOn newID takeAwaiting] in He;
  rewrite ?takePending_eq in He; cbv beta iota zeta in He;
  repeat (case_match_in He; cbv beta iota zeta in He; try discriminate He);
  try discriminate He; injection He as <-; cbn [o_client o_next o_spawn fst snd].

Ltac plains := repeat first [apply Forall_nil_2 | apply Forall_cons_2 | apply Forall_app_2
  | apply plain_fmap; intros | split; reflexivity].

Section Mutex.
  Context `{Env T}.
  Implicit Types (c : Client T) (t : task T) (ts : list (task T)) (ths : list (list (task T))).

Lemma handleFrame_leaves k f c : leaves c (Outcome (handleFrame k f c).1 (handleFrame k f c).2 []).
Proof.
  apply leaves_plain; destruct f; simpl;
    unfold deliverResult, handleError, rejectStreamForCall, handleBinary, deliverResult;
    repeat (rewrite takePending_eq || case_match); simplify_eq/=; try done; plains.
Qed.

Lemma setState_frame s c :
  setState s c = set_notified (notified (setState s c)) (set_cstate (cstate (setState s c)) c).
Proof. unfold setState. case_match; by destruct c. Qed.

Lemma sendSubscribe_leaves k id c :
  subMu c = false → leaves c (Outcome (sendSubscribe k id c).1 (sendSubscribe k id c).2 []).
Proof.
  intros Hm. unfold sendSubscribe. repeat case_match; simpl; [by apply leaves_plain; [plains|]..|].
  right. split_and!; try done. exists [WriteMark k id; WriteSubscribe k id], []. split_and!; try done.
  by repeat constructor.
Qed.

Lemma releaseSubSlot_leaves k c :
  subMu c = false → leaves c (Outcome (releaseSubSlot k c).1 (releaseSubSlot k c).2 []).
Proof.
  intros Hm. unfold releaseSubSlot. case_match; [by apply leaves_plain; [plains|]|].
  destruct (dequeue _ _ _) as [[n q] next]. right. simpl. split_and!; try done.
  eexists _, []. split_and!; [done| |done]. apply Forall_concat.
  apply Forall_fmap, Forall_true. intros x. by repeat constructor.
Qed.

Lemma endLocked_leaves id c :
  subMu c = false → leaves c (Outcome (endLocked id c).1 (endLocked id c).2 []).
Proof.
  intros Hm. unfold endLocked. simpl. case_match; simpl; [|by apply leaves_plain; [plains|]].
  right. split_and!; try done. eexists [_], [_]. split_and!; [done| |plains]. by repeat constructor.
Qed.

Lemma markConnected_plain k c :
  Forall plain (markConnected k c).2 ∧ subMu (markConnected k c).1 = subMu c.
Proof. unfold markConnected. case_match; simpl; (split; [plains|done]). Qed.

Lemma markDisconnected_plain k e c :
  Forall plain (markDisconnected k e c).2 ∧ subMu (markDisconnected k e c).1 = subMu c.
Proof. unfold markDisconnected. case_match; simpl; (split; [plains|done]). Qed.

Lemma shutdown_plain e c : Forall plain (shutdown e c).2 ∧ subMu (shutdown e c).1 = subMu c.
Proof. unfold shutdown. repeat case_match; simpl; (split; [plains|done]). Qed.

Lemma exec_leaves ch t c o :
  exec ch t c = Some o → plain t → leaves c o ∧ Forall (Forall plain) (o_spawn o).
Proof.
  intros He [Hc Hu]. destruct t; try done; exec_inv He; try done.
  all: split; [|plains].
  all: try (by apply sendSubscribe_leaves || by apply releaseSubSlot_leaves || by apply endLocked_leaves).
  all: try apply handleFrame_leaves.
  all: try (apply leaves_plain; apply markConnected_plain || apply markDisconnected_plain || apply shutdown_plain).
  all: try (by apply leaves_plain; [plains|reflexivity]).
  - right. split_and!; try done. exists [WriteMark k id; WriteSubscribe k id], [].
    split_and!; try done. by repeat constructor.
  - apply leaves_plain; [|done]. unfold resubscribe. case_match; plains.
  - apply leaves_plain; [|done]. unfold ofSub, patchNext. repeat case_match; plains.
  - apply leaves_plain; [plains|]. by rewrite setState_frame.
Qed.

(** A goroutine that runs a critical section, or the release. *)
Lemma exec_crit ch t c o :
  exec ch t c = Some o → isCrit t = true →
  o_next o = [] ∧ subMu (o_client o) = subMu c ∧ Forall (Forall plain) (o_spawn o).
Proof.
  intros He Hc. destruct t; try done; [| |destruct f; try done]; exec_inv He;
    split_and!; try done; plains.
Qed.

(** Mutual exclusion: the mutex is held exactly when some goroutine is in a critical
    section, which is then the only one. *)
Definition mutexInv c ths : Prop :=
  Forall shaped ths ∧ cnt isUnlock ths = Nat.b2n (subMu c).

Lemma plain_counts ts : Forall plain ts → cntL isCrit ts = 0 ∧ cntL isUnlock ts = 0.
Proof.
  rewrite Forall_forall. intros Hp. split; apply cntL_false; intros t Ht; by apply Hp.
Qed.

Lemma plain_cnt ths : Forall (Forall plain) ths → cnt isCrit ths = 0 ∧ cnt isUnlock ths = 0.
Proof.
  induction 1 as [|ts ths Hts _ [IH1 IH2]]; [done|]. simpl. destruct (plain_counts ts Hts). lia.
Qed.

Lemma crit_counts cs : Forall (λ t, isCrit t = true) cs → cntL isUnlock cs = 0.
Proof.
  rewrite Forall_forall. intros Hp. apply cntL_false. intros t Ht. specialize (Hp t Ht). by destruct t.
Qed.

Lemma shaped_cons t rest :
  shaped (t :: rest) →
  (plain t ∧ Forall plain rest) ∨
  (isCrit t = true ∧ shaped rest ∧ ¬ Forall plain rest) ∨ (t = UnlockSub ∧ Forall plain rest).
Proof.
  intros [[Ht Hr]%Forall_cons|(cs & rest' & E & Hcs & Hr)]; [by left|].
  destruct cs as [|t' cs]; simplify_eq/=; [by right; right|].
  apply Forall_cons in Hcs as [Ht Hcs]. right. left. split_and!; [done| |].
  - right. eauto.
  - rewrite Forall_app, Forall_cons. intros (_ & [_ ?] & _). done.
Qed.

Lemma mutex_step c ths i t rest ch o :
  mutexInv c ths → ths !! i = Some (t :: rest) → exec ch t c = Some o →
  mutexInv (o_client o) (<[i := o_next o ++ rest]> ths ++ o_spawn o).
Proof.
  intros [Hs Hu] Hi He. pose proof (cnt_step isUnlock ths i t rest (o_next o) (o_spawn o) Hi) as Hc.
  assert (Ht : shaped (t :: rest)) by (eapply Forall_lookup_1; eauto).
  assert (Hgoal : ∀ ths0, shaped (o_next o ++ rest) → Forall (Forall plain) ths0 → ths0 = o_spawn o →
    Forall shaped (<[i := o_next o ++ rest]> ths ++ ths0)).
  { intros ths0 Hn Hp _. apply Forall_app. split; [by apply Forall_insert|].
    eapply Forall_impl; [done|]. by left. }
  destruct (shaped_cons _ _ Ht) as [[Hpt Hpr]|[(Hct & Hsr & _)|[-> Hpr]]].
  - destruct (exec_leaves _ _ _ _ He Hpt) as [Hl Hsp].
    destruct (plain_cnt _ Hsp) as [_ Hspu]. destruct Hpt as [_ Hut]. rewrite Hut in Hc. simpl in Hc.
    destruct Hl as [[Hn Hm]|(Hm & Hm' & cs & r & Hn & Hcs & Hr)].
    + destruct (plain_counts _ Hn). split; [|rewrite Hm; lia].
      apply Hgoal; [by apply shaped_plain|done|done].
    + split.
      * apply Hgoal; [|done|done]. rewrite Hn. right. exists cs, (r ++ rest).
        split_and!; [by rewrite <- (assoc_L (++))|done|by apply Forall_app].
      * rewrite Hm'. rewrite Hn in Hc |- *. rewrite cntL_app in Hc. simpl in Hc.
        rewrite (crit_counts cs Hcs) in Hc. destruct (plain_counts r Hr). rewrite Hm in Hu. simpl in *. lia.
  - destruct (exec_crit _ _ _ _ He Hct) as (Hn & Hm & Hsp). destruct (plain_cnt _ Hsp).
    rewrite Hn in *. simpl in *. assert (isUnlock t = false) as E by by destruct t.
    rewrite E in Hc. simpl in Hc. split; [by apply Hgoal|]. rewrite Hm. lia.
  - exec_inv He. simpl in Hc. split; [apply Hgoal; [by left|plains|done]|]. simpl.
    destruct (subMu c); simpl in *; lia.
Qed.

Lemma apiStart_plain ts : apiStart ts → Forall plain ts.
Proof. destruct ts as [|[] []]; simpl; try done; intros _; plains. Qed.

Lemma mutex_reachable w : reachable initial step w → mutexInv (client w) (threads w).
Proof.
  apply world_invariant.
  - split; [|done]. apply Forall_singleton. left. plains.
  - intros c ths ts [Hs Hu] Ha. apply apiStart_plain in Ha. split.
    + apply Forall_app. split; [done|]. apply Forall_singleton. by left.
    + rewrite cnt_app. simpl. destruct (plain_counts ts Ha). lia.
  - intros. by eapply mutex_step.
Qed.

(** While the mutex is free no goroutine is in a critical section; while a goroutine is at
    one, no other is. *)
Lemma mutex_free c ths : mutexInv c ths → subMu c = false → cnt isCrit ths = 0.
Proof.
  intros [Hs Hu] Hm. rewrite Hm in Hu. clear Hm. induction Hs as [|ts ths Hts _ IH]; [done|].
  simpl in *. rewrite IH by lia. destruct Hts as [Hp|(cs & rest & -> & _ & _)].
  - by destruct (plain_counts ts Hp) as [-> _].
  - rewrite cntL_app in Hu. simpl in Hu. lia.
Qed.

(** ** Fresh identifiers *)

Definition isReg (id : string) t : bool :=
  match t with
  | CallRegister _ x | StreamRegister _ x | SubRegister _ x => bool_decide (x = id)
  | _ => false
  end.

Definition noReg t : Prop := ∀ id, isReg id t = false.

Lemma noReg_cntL id ts : Forall noReg ts → cntL (isReg id) ts = 0.
Proof. rewrite Forall_forall. intros Hr. apply cntL_false. intros t Ht. by apply Hr. Qed.

Ltac noregs := repeat first [apply Forall_nil_2 | apply Forall_cons_2 | apply Forall_app_2
  | apply Forall_fmap, Forall_true; intros | by intros ?].

Lemma handleFrame_noReg k f c :
  Forall noReg (handleFrame k f c).2 ∧ nextID (handleFrame k f c).1 = nextID c.
Proof.
  destruct f; simpl;
    unfold deliverResult, handleError, rejectStreamForCall, handleBinary, deliverResult;
    repeat (rewrite takePending_eq || case_match); simplify_eq/=; split; try done; noregs.
Qed.

Lemma releaseSubSlot_noReg k c :
  Forall noReg (releaseSubSlot k c).2 ∧ nextID (releaseSubSlot k c).1 = nextID c.
Proof.
  unfold releaseSubSlot. case_match; [split; [noregs|done]|].
  destruct (dequeue _ _ _) as [[n q] next]. simpl. split; [|done].
  apply Forall_app. split; [|noregs]. apply Forall_concat, Forall_fmap, Forall_true.
  intros x. simpl. noregs.
Qed.

Lemma small_noReg c :
  (∀ k id, Forall noReg (sendSubscribe k id c).2 ∧ nextID (sendSubscribe k id c).1 = nextID c) ∧
  (∀ id, Forall noReg (endLocked id c).2 ∧ nextID (endLocked id c).1 = nextID c) ∧
  (∀ k, Forall noReg (markConnected k c).2 ∧ nextID (markConnected k c).1 = nextID c) ∧
  (∀ k e, Forall noReg (markDisconnected k e c).2 ∧ nextID (markDisconnected k e c).1 = nextID c) ∧
  (∀ e, Forall noReg (shutdown e c).2 ∧ nextID (shutdown e c).1 = nextID c).
Proof.
  unfold sendSubscribe, endLocked, markConnected, markDisconnected, shutdown.
  split_and!; intros; repeat case_match; simpl; split; try done; noregs.
Qed.

(** Only [newID] produces a registration, of the next identifier. *)
Lemma exec_reg ch t c o :
  exec ch t c = Some o →
  Forall (Forall noReg) (o_spawn o) ∧
  ((Forall noReg (o_next o) ∧ nextID (o_client o) = nextID c) ∨
   (noReg t ∧ nextID (o_client o) = (nextID c + 1)%N ∧
    ∃ t', o_next o = [t'] ∧ ∀ id, isReg id t' = bool_decide (FormatUint (nextID c + 1) = id))).
Proof.
  intros He. destruct (small_noReg c) as (H1 & H2 & H3 & H4 & H5).
  destruct t; exec_inv He; (split; [noregs|]); try (by left; split; [noregs|]);
    try (left; by auto using handleFrame_noReg, releaseSubSlot_noReg).
  - right. split_and!; [done|done|]. eexists. split; done.
  - right. split_and!; [done|done|]. eexists. split; done.
  - right. split_and!; [done|done|]. eexists. split; done.
  - left. split; [|done]. unfold resubscribe. case_match; noregs.
  - left. split; [|done]. unfold ofSub, patchNext. repeat case_match; noregs.
  - left. split; [noregs|]. by rewrite setState_frame.
Qed.

Lemma apiStart_noReg ts : apiStart ts → Forall noReg ts.
Proof. destruct ts as [|[] []]; simpl; try done; intros _; noregs. Qed.

Lemma cnt_noReg id ths : Forall (Forall noReg) ths → cnt (isReg id) ths = 0.
Proof. induction 1 as [|ts ths Hts _ IH]; simpl; [done|]. by rewrite noReg_cntL. Qed.

Section Fresh.
  (** [V id]: nothing has happened to [id] yet. *)
  Context (V : string → Client T → list (list (task T)) → Prop).
  Hypothesis V_init : ∀ id, V id initClient [[Reconnect]].
  Hypothesis V_start : ∀ id c ths ts, V id c ths → apiStart ts → V id c (ths ++ [ts]).
  Hypothesis V_exec : ∀ id c ths i t rest ch o,
    V id c ths → ths !! i = Some (t :: rest) → exec ch t c = Some o → isReg id t = false →
    V id (o_client o) (<[i := o_next o ++ rest]> ths ++ o_spawn o).

Definition freshInv c ths : Prop :=
  (∀ id, cnt (isReg id) ths ≤ 1) ∧ (∀ id, cnt (isReg id) ths = 1 → V id c ths) ∧
  (∀ n, (nextID c < n)%N → cnt (isReg (FormatUint n)) ths = 0 ∧ V (FormatUint n) c ths).

Lemma fresh_reachable w : reachable initial step w → freshInv (client w) (threads w).
Proof.
  apply world_invariant.
  - split_and!; [intros; simpl; lia|done|]. intros n _. split; [done|apply V_init].
  - intros c ths ts (H1 & H2 & H3) Ha. pose proof (apiStart_noReg ts Ha) as Hn.
    assert (Hc : ∀ id, cnt (isReg id) (ths ++ [ts]) = cnt (isReg id) ths).
    { intros id. rewrite cnt_app. simpl. rewrite noReg_cntL by done. lia. }
    split_and!; intros; rewrite ?Hc in *; auto. naive_solver.
  - intros c ths i t rest ch o _ (H1 & H2 & H3) Hi He.
    destruct (exec_reg _ _ _ _ He) as [Hsp Hc].
    assert (Hst : ∀ id, cnt (isReg id) (<[i := o_next o ++ rest]> ths ++ o_spawn o) + Nat.b2n (isReg id t)
      = cnt (isReg id) ths + cntL (isReg id) (o_next o)).
    { intros id. pose proof (cnt_step (isReg id) ths i t rest (o_next o) (o_spawn o) Hi) as Hs.
      rewrite (cnt_noReg id (o_spawn o) Hsp) in Hs. lia. }
    assert (Hpre : ∀ id, isReg id t = true → cnt (isReg id) ths = 1).
    { intros id E. pose proof (cnt_head (isReg id) ths i t rest Hi E). specialize (H1 id). lia. }
    destruct Hc as [[Hn Hid]|(Ht & Hid & t' & Hn & Ht')].
    + assert (Hz : ∀ id, cntL (isReg id) (o_next o) = 0) by (intros; by apply noReg_cntL).
      split_and!.
      * intros id. specialize (Hst id). specialize (H1 id). rewrite Hz in Hst. lia.
      * intros id Hone. specialize (Hst id). rewrite Hz in Hst. specialize (H1 id).
        destruct (isReg id t) eqn:E; simpl in Hst; [lia|]. eapply V_exec; eauto. apply H2. lia.
      * intros n Hlt. rewrite Hid in Hlt. destruct (H3 n Hlt) as [Hc0 Hv].
        specialize (Hst (FormatUint n)). rewrite Hz in Hst.
        destruct (isReg (FormatUint n) t) eqn:E; [rewrite (Hpre _ E) in Hc0; lia|].
        split; [simpl in Hst; lia|]. eapply V_exec; eauto.
    + assert (Hcl : ∀ id, cntL (isReg id) (o_next o) = Nat.b2n (bool_decide (FormatUint (nextID c + 1) = id)))
        by (intros; rewrite Hn; simpl; rewrite Ht'; lia).
      assert (Hnew : (nextID c < nextID c + 1)%N) by lia.
      destruct (H3 _ Hnew) as [Hc0 Hv0].
      split_and!.
      * intros id. specialize (Hst id). rewrite Ht, Hcl in Hst. simpl in Hst.
        destruct (decide (FormatUint (nextID c + 1) = id)) as [<-|Hne].
        -- rewrite bool_decide_true in Hst by done. simpl in Hst. lia.
        -- rewrite bool_decide_false in Hst by done. simpl in Hst. specialize (H1 id). lia.
      * intros id Hone. eapply V_exec; eauto. specialize (Hst id). rewrite Ht, Hcl in Hst.
        destruct (decide (FormatUint (nextID c + 1) = id)) as [<-|Hne]; [done|].
        rewrite bool_decide_false in Hst by done. simpl in Hst. apply H2. lia.
      * intros n Hlt. rewrite Hid in Hlt. destruct (H3 n ltac:(lia)) as [Hcn Hvn].
        split; [|eapply V_exec; eauto]. specialize (Hst (FormatUint n)). rewrite Ht, Hcl in Hst.
        rewrite bool_decide_false in Hst; [simpl in Hst; lia|].
        unfold FormatUint. intros E. apply (inj (pretty (A:=N))) in E. lia.
Qed.

(** When an identifier is registered, nothing has happened to it. *)
Lemma fresh_register c ths i t rest id :
  reachable initial step (World c ths) → ths !! i = Some (t :: rest) → isReg id t = true → V id c ths.
Proof.
  intros Hr Hi Ht. destruct (fresh_reachable _ Hr) as (H1 & H2 & _). simpl in *. apply H2.
  pose proof (cnt_head (isReg id) ths i t rest Hi Ht). specialize (H1 id). lia.
Qed.

End Fresh.

End Mutex.

End ClientFacts.
