(* ===== verification/ClientCalls.v ===== *)
(** * ClientCalls: every call of the Go client gets exactly one result

    The accounting behind the comment on [pendingCall]: whoever removes a call from
    [Client.pending] sends its result, so the buffer of one never blocks. *)

From S2P Require Import Prelude Protocol ClientParts ClientAuth Client ClientRun ClientFacts.
From stdpp Require Import prelude gmap strings list pretty fin_maps fin_sets.

Module ClientCalls.
Import Client.Client ClientRun.ClientRun ClientFacts.ClientFacts.
Import Errors.

Section Calls.
  Context `{Env T}.
  Implicit Types (c : Client T) (t : task T) (ts : list (task T)) (ths : list (list (task T))).

(** A goroutine whose call has been registered and that has not taken its result yet. *)
Definition isWaiter (id : string) t : bool :=
  match t with
  | CallSend _ x | CallTakeBack _ x _ | CallSelect _ x | CallTakeCancel _ x | CallRecv x =>
      bool_decide (x = id)
  | _ => false
  end.

(** A goroutine that has removed the call and is about to send its result. *)
Definition isSender (id : string) t : bool :=
  match t with SendResult x _ => bool_decide (x = id) | _ => false end.

(** Where the call is, in the client's own state: in the table, or answered. *)
Definition inTable (id : string) c : nat := Nat.b2n (bool_decide (id ∈ pending c)).
Definition buffered (id : string) c : nat := length (default [] (chans c !! id)).

Definition account (id : string) c ths : nat :=
  inTable id c + buffered id c + cnt (isSender id) ths.

(** The sections that neither register nor take back a call, and touch no channel. *)
Definition sameCalls (id : string) c c' (ts : list (task T)) : Prop :=
  inTable id c' + cntL (isSender id) ts = inTable id c ∧
  cntL (isWaiter id) ts = 0 ∧ chans c' = chans c.

Lemma sameCalls_id id c c' ts :
  pending c' = pending c → chans c' = chans c →
  Forall (λ t, isSender id t = false ∧ isWaiter id t = false) ts → sameCalls id c c' ts.
Proof.
  unfold sameCalls, inTable. intros -> -> Hts. rewrite Forall_forall in Hts.
  rewrite !cntL_false; [split_and!; lia || done|..]; intros t Ht; by apply Hts.
Qed.

Ltac nocalls := repeat first [apply Forall_nil_2 | apply Forall_cons_2 | apply Forall_app_2
  | apply Forall_fmap, Forall_true; intros | by split].

Lemma inTable_delete id x c :
  inTable id (set_pending (pending c ∖ {[x]}) c) + Nat.b2n (bool_decide (x = id) && bool_decide (x ∈ pending c))
  = inTable id c.
Proof.
  unfold inTable. simpl. destruct (decide (x = id)) as [->|Hne].
  - rewrite (bool_decide_true (id = id)) by done. rewrite (bool_decide_false (id ∈ _ ∖ _)) by set_solver.
    simpl. lia.
  - rewrite (bool_decide_false (x = id)) by done. simpl.
    rewrite (bool_decide_ext (id ∈ pending c ∖ {[x]}) (id ∈ pending c)) by set_solver. lia.
Qed.

(** Removing [x] and sending its result, or doing nothing about it. *)
Lemma sameCalls_take id x c ts :
  cntL (isWaiter id) ts = 0 →
  cntL (isSender id) ts = Nat.b2n (bool_decide (x = id) && bool_decide (x ∈ pending c)) →
  sameCalls id c (set_pending (pending c ∖ {[x]}) c) ts.
Proof.
  intros Hw Hs. unfold sameCalls. split_and!; [|done|done].
  pose proof (inTable_delete id x c). lia.
Qed.

Lemma sameCalls_take_none id x c c' ts :
  x ∉ pending c → pending c' = pending c ∖ {[x]} → chans c' = chans c →
  Forall (λ t, isSender id t = false ∧ isWaiter id t = false) ts → sameCalls id c c' ts.
Proof.
  intros Hx Hp Hc Hts. apply sameCalls_id; [|done|done]. rewrite Hp. set_solver.
Qed.

Lemma deliverResult_calls id x p c : sameCalls id c (deliverResult x p c).1 (deliverResult x p c).2.
Proof.
  unfold deliverResult. rewrite takePending_eq. case_bool_decide as Hx; simpl.
  - apply sameCalls_take; simpl; [done|]. rewrite (bool_decide_true (x ∈ pending c)) by done.
    rewrite andb_true_r. lia.
  - repeat case_match; (eapply sameCalls_take_none; [exact Hx|done|done|nocalls]).
Qed.

Lemma rejectStream_calls id k x c :
  sameCalls id c (rejectStreamForCall k x c).1 (rejectStreamForCall k x c).2.
Proof.
  unfold rejectStreamForCall. rewrite takePending_eq. case_bool_decide as Hx; simpl.
  - apply sameCalls_take; simpl; [done|]. rewrite (bool_decide_true (x ∈ pending c)) by done.
    rewrite andb_true_r. lia.
  - eapply sameCalls_take_none; [exact Hx|done|done|nocalls].
Qed.

Lemma handleFrame_calls id k f c : sameCalls id c (handleFrame k f c).1 (handleFrame k f c).2.
Proof.
  destruct f as [x r|x e|v to|x|ev d|x raw|x it|x its|x e| | |[[[[] x] b]|]]; simpl;
    try apply deliverResult_calls;
    try solve [repeat case_match; try apply rejectStream_calls; apply sameCalls_id; try done; nocalls].
  - unfold handleError. destruct (bool_decide (x ≠ "") && bool_decide (x ∈ pending c)) eqn:E.
    + apply andb_true_iff in E as [_ E]. apply sameCalls_take; simpl; [done|].
      rewrite E, andb_true_r. lia.
    + repeat case_match; apply sameCalls_id; try done; nocalls.
  - rewrite takePending_eq. case_bool_decide as Hx; simpl.
    + apply sameCalls_take; simpl; [done|]. rewrite (bool_decide_true (x ∈ pending c)) by done.
      rewrite andb_true_r. lia.
    + case_match; (eapply sameCalls_take_none; [exact Hx|done|done|nocalls]).
Qed.

(** Failing every pending call, as [markDisconnected] and [shutdown] do. *)
Lemma fail_all_sends id (P : gset string) (e : clientErr) :
  cntL (isSender id) ((λ x, SendResult x (Err e)) <$> range_of P) = Nat.b2n (bool_decide (id ∈ P)).
Proof.
  rewrite (cntL_fmap_eq _ _ _ id); [|apply NoDup_range_of|done].
  by rewrite (bool_decide_ext _ _ (elem_of_range_of P id)).
Qed.

Lemma markDisconnected_calls id k e c :
  sameCalls id c (markDisconnected k e c).1 (markDisconnected k e c).2.
Proof.
  unfold markDisconnected. case_match; [apply sameCalls_id; [done|done|nocalls]|].
  unfold sameCalls. simpl. rewrite !cntL_app, fail_all_sends, !cntL_fmap by done.
  unfold inTable. simpl. rewrite (bool_decide_false (id ∈ ∅)) by set_solver.
  simpl. split_and!; [lia|done|done].
Qed.

Lemma shutdown_calls id e c : sameCalls id c (shutdown e c).1 (shutdown e c).2.
Proof.
  unfold shutdown. case_match; [apply sameCalls_id; [done|done|nocalls]|].
  unfold sameCalls. simpl. rewrite !cntL_app, fail_all_sends, !cntL_fmap by done.
  unfold inTable. simpl. rewrite (bool_decide_false (id ∈ ∅)) by set_solver.
  destruct (conn c); simpl; split_and!; try done; lia.
Qed.

Lemma releaseSubSlot_calls id k c : sameCalls id c (releaseSubSlot k c).1 (releaseSubSlot k c).2.
Proof.
  unfold releaseSubSlot. case_match; [apply sameCalls_id; [done|done|nocalls]|].
  destruct (dequeue _ _ _) as [[n q] next]. simpl. apply sameCalls_id; [done|done|].
  apply Forall_app. split; [|nocalls]. apply Forall_concat, Forall_fmap, Forall_true.
  intros x. simpl. nocalls.
Qed.

Lemma small_calls id c :
  (∀ k x, sameCalls id c (sendSubscribe k x c).1 (sendSubscribe k x c).2) ∧
  (∀ x, sameCalls id c (endLocked x c).1 (endLocked x c).2) ∧
  (∀ k, sameCalls id c (markConnected k c).1 (markConnected k c).2) ∧
  (∀ s, sameCalls id c (setState s c) []).
Proof.
  unfold sendSubscribe, endLocked, markConnected, setState.
  split_and!; intros; repeat case_match; simpl; apply sameCalls_id; try done; nocalls.
Qed.

(** ** One section *)

(** What a section does to the account of [id], when it does not register it: it moves the
    call along, or a waiting caller takes the result (or the call itself) and is done. *)
Definition moved (id : string) t c (o : outcome) : Prop :=
  let before := inTable id c + buffered id c + Nat.b2n (isSender id t) in
  let after := inTable id (o_client o) + buffered id (o_client o) + cntL (isSender id) (o_next o) in
  (is_Some (chans (o_client o) !! id) ↔ is_Some (chans c !! id)) ∧
  cnt (isSender id) (o_spawn o) = 0 ∧ cnt (isWaiter id) (o_spawn o) = 0 ∧
  ((after = before ∧ cntL (isWaiter id) (o_next o) ≤ Nat.b2n (isWaiter id t)) ∨
   (after + 1 = before ∧ isWaiter id t = true ∧ cntL (isWaiter id) (o_next o) = 0)).

Lemma moved_same id t c c' ts sp :
  sameCalls id c c' ts → isSender id t = false →
  cnt (isSender id) sp = 0 → cnt (isWaiter id) sp = 0 →
  moved id t c (Outcome c' ts sp).
Proof.
  intros (Ht & Hw & Hc) Hs H1 H2. unfold moved, buffered. simpl. rewrite Hs, Hc. simpl.
  split_and!; try done. left. lia.
Qed.

(** The same for a section of a caller that goes on to its next section. *)
Lemma moved_waiter id t c c' ts :
  pending c' = pending c → chans c' = chans c →
  cntL (isSender id) ts = 0 → isSender id t = false →
  cntL (isWaiter id) ts ≤ Nat.b2n (isWaiter id t) → moved id t c (Outcome c' ts []).
Proof.
  intros Hp Hc Hs Ht Hw. unfold moved, buffered, inTable. simpl. rewrite Hp, Hc, Ht, Hs. simpl.
  split_and!; try done. left. lia.
Qed.

(** [takePending] by a caller: it has the call, or goes on to wait for the result. *)
Lemma moved_take id t x c ts :
  (∀ y, isWaiter y t = bool_decide (x = y)) → (∀ y, isSender y t = false) →
  cntL (isSender id) ts = 0 →
  cntL (isWaiter id) ts ≤ Nat.b2n (negb (bool_decide (x ∈ pending c)) && bool_decide (x = id)) →
  moved id t c (Outcome (set_pending (pending c ∖ {[x]}) c) ts []).
Proof.
  intros Hw Hs H1 H2. unfold moved, buffered. simpl. rewrite Hw, Hs, H1.
  pose proof (inTable_delete id x c) as Hd. split_and!; try done.
  repeat case_bool_decide; simpl in *; try (left; split; lia); right; split_and!; done || lia.
Qed.

Lemma moved_recv id t x r c :
  (∀ y, isWaiter y t = bool_decide (x = y)) → (∀ y, isSender y t = false) →
  chanHead x c = Some r → moved id t c (Outcome (recvResult x c) [CallReturn r] []).
Proof.
  intros Hw Hs Hr. unfold chanHead in Hr. unfold moved, buffered, recvResult, inTable. simpl.
  rewrite Hw, Hs. destruct (chans c !! x) as [[|r' rs]|] eqn:E; simplify_eq.
  destruct (decide (x = id)) as [<-|Hne].
  - rewrite (bool_decide_true (x = x)) by done. rewrite !lookup_alter_eq, !E. simpl.
    split; [naive_solver|]. split_and!; [done|done|]. right. split_and!; done || lia.
  - rewrite (bool_decide_false (x = id)) by done. rewrite !lookup_alter_ne by done.
    split_and!; try done. left. simpl. lia.
Qed.

Lemma moved_send id x r c :
  chanFree x c = true → moved id (SendResult x r) c (Outcome (sendResult x r c) [] []).
Proof.
  intros Hf. unfold chanFree in Hf. unfold moved, buffered, sendResult, inTable. simpl.
  destruct (chans c !! x) as [[|r' rs]|] eqn:E; simplify_eq.
  destruct (decide (x = id)) as [<-|Hne].
  - rewrite (bool_decide_true (x = x)) by done. rewrite !lookup_alter_eq, !E. simpl.
    split; [naive_solver|]. split_and!; [done|done|]. left. lia.
  - rewrite (bool_decide_false (x = id)) by done. rewrite !lookup_alter_ne by done.
    split_and!; try done. left. simpl. lia.
Qed.

Lemma exec_moved id ch t c o :
  exec ch t c = Some o → (∀ k, t ≠ CallRegister k id) → moved id t c o.
Proof.
  intros He Hreg. destruct (small_calls id c) as (H1 & H2 & H3 & H4).
  destruct t; exec_inv He;
    try solve [apply moved_same; [apply sameCalls_id; [reflexivity|reflexivity|nocalls]|reflexivity..]];
    try solve [apply moved_same; [|reflexivity..];
      auto using handleFrame_calls, markDisconnected_calls, shutdown_calls, releaseSubSlot_calls];
    try solve [apply moved_waiter; simpl; reflexivity || lia];
    try solve [by apply moved_send];
    try solve [by eapply moved_recv];
    try (lazymatch goal with
      | |- moved _ _ _ (Outcome (set_pending (pending _ ∖ _) _) _ _) =>
          solve [apply moved_take; [reflexivity..|]; simpl; try lia; rewrite E; simpl; lia
                |apply moved_take; [reflexivity..|]; simpl; apply orb_false_iff in E as [-> _]; simpl; lia]
      end).
  - assert (id0 ≠ id) as Hne by naive_solver. unfold moved, buffered, inTable. simpl.
    rewrite !lookup_insert_ne by done. rewrite (bool_decide_false (id0 = id)) by done.
    rewrite (bool_decide_ext (id ∈ {[id0]} ∪ pending c) (id ∈ pending c)) by set_solver.
    split_and!; try done. left. simpl. lia.
  - apply moved_same; [|done|done|done]. apply sameCalls_id; [done|done|].
    unfold resubscribe. case_match; nocalls.
  - apply moved_same; [|done|done|done]. apply sameCalls_id; [done|done|].
    unfold ofSub, patchNext. repeat case_match; nocalls.
Qed.

Lemma account_step id c ths i t rest ch o :
  ths !! i = Some (t :: rest) → exec ch t c = Some o → (∀ k, t ≠ CallRegister k id) →
  let ths' := <[i := o_next o ++ rest]> ths ++ o_spawn o in
  (is_Some (chans (o_client o) !! id) ↔ is_Some (chans c !! id)) ∧
  ((account id (o_client o) ths' = account id c ths ∧ cnt (isWaiter id) ths' ≤ cnt (isWaiter id) ths) ∨
   (account id (o_client o) ths' + 1 = account id c ths ∧
    cnt (isWaiter id) ths' + 1 = cnt (isWaiter id) ths)).
Proof.
  intros Hi He Hreg ths'.
  destruct (exec_moved id ch t c o He Hreg) as (Hc & Hs & Hw & Hm). split; [done|].
  pose proof (cnt_step (isSender id) ths i t rest (o_next o) (o_spawn o) Hi) as H1.
  pose proof (cnt_step (isWaiter id) ths i t rest (o_next o) (o_spawn o) Hi) as H2.
  unfold account. fold ths' in H1, H2. destruct Hm as [[Ha Hb]|(Ha & Hb & Hz)]; [left|right].
  - lia.
  - rewrite Hb in H2. simpl in H2. lia.
Qed.

Definition untouched (id : string) c ths : Prop :=
  account id c ths = 0 ∧ cnt (isWaiter id) ths = 0 ∧ chans c !! id = None.

Lemma apiStart_calls id ts :
  apiStart ts → cntL (isWaiter id) ts = 0 ∧ cntL (isSender id) ts = 0.
Proof. destruct ts as [|[] []]; simpl; try done. Qed.

Lemma start_account id c ths ts :
  apiStart ts →
  account id c (ths ++ [ts]) = account id c ths ∧ cnt (isWaiter id) (ths ++ [ts]) = cnt (isWaiter id) ths.
Proof.
  intros Ha. destruct (apiStart_calls id ts Ha). unfold account. rewrite !cnt_app. simpl. lia.
Qed.

(** At its registration a call's identifier is untouched. *)
Lemma untouched_register c ths i rest k id :
  reachable initial step (World c ths) → ths !! i = Some (CallRegister k id :: rest) →
  untouched id c ths.
Proof.
  intros Hr Hi. eapply (fresh_register untouched); [..|exact Hr|exact Hi|].
  - intros x. unfold untouched, account, inTable, buffered. cbn [initClient pending chans].
    rewrite (bool_decide_false (x ∈ ∅)), lookup_empty by set_solver. done.
  - intros id' c' ths' ts (H1 & H2 & H3) Ha. destruct (start_account id' c' ths' ts Ha) as [E1 E2].
    unfold untouched. by rewrite E1, E2.
  - clear. intros id c ths i t rest ch o (H1 & H2 & H3) Hi He Ht.
    assert (∀ k, t ≠ CallRegister k id) as Hreg.
    { intros k ->. simpl in Ht. by rewrite bool_decide_true in Ht. }
    destruct (account_step id c ths i t rest ch o Hi He Hreg) as [Hc Hm].
    unfold untouched. split_and!; [lia|lia|]. apply eq_None_not_Some. rewrite Hc, H3.
    by intros [? ?].
  - simpl. by rewrite bool_decide_true.
Qed.

Lemma register_dec t id : (∃ k, t = CallRegister k id) ∨ (∀ k, t ≠ CallRegister k id).
Proof. destruct t; try (right; congruence). destruct (decide (id0 = id)); [left|right]; naive_solver. Qed.

Definition callInv c ths : Prop :=
  ∀ id, account id c ths ≤ 1 ∧ cnt (isWaiter id) ths ≤ account id c ths ∧
        (1 ≤ account id c ths → is_Some (chans c !! id)).

Lemma call_reachable w : reachable initial step w → callInv (client w) (threads w).
Proof.
  apply world_invariant.
  - intros id. unfold account, inTable, buffered. cbn [initClient pending chans].
    rewrite (bool_decide_false (id ∈ ∅)), lookup_empty by set_solver. simpl. split_and!; lia.
  - intros c ths ts Hinv Ha id. destruct (start_account id c ths ts Ha) as [-> ->]. apply Hinv.
  - intros c ths i t rest ch o Hr Hinv Hi He id. specialize (Hinv id) as (H1 & H2 & H3).
    destruct (register_dec t id) as [[k ->]|Hreg].
    + destruct (untouched_register c ths i rest k id Hr Hi) as (Ha & Hw & Hc).
      pose proof (cnt_step (isSender id) ths i _ rest (o_next o) (o_spawn o) Hi) as Hs1.
      pose proof (cnt_step (isWaiter id) ths i _ rest (o_next o) (o_spawn o) Hi) as Hs2.
      unfold account, inTable, buffered in *. exec_inv He; simpl in *.
      * rewrite lookup_insert_eq. rewrite (bool_decide_true (id = id)) in Hs2 by done.
        rewrite (bool_decide_true (id ∈ {[id]} ∪ pending c)) by set_solver. simpl in *.
        split_and!; [lia|lia|eauto].
      * split_and!; [lia|lia|]. intros ?. lia.
    + destruct (account_step id c ths i t rest ch o Hi He Hreg) as [Hc Hm].
      split_and!; [lia|lia|]. intros Hle. apply Hc, H3. lia.
Qed.

(** C21: every call of the client gets exactly one result, in every interleaving of the
    callers, the read loop, reconnects and shutdown. A call that is registered and whose
    caller has not taken a result is in exactly one place: in the table of pending calls,
    in the hands of the goroutine that removed it, or answered in its channel. So no channel
    ever holds two results, the send into it never blocks (whatever the environment
    chooses), and a caller that waits has its result still to come, on the way, or there. *)
Theorem call_answered_once (w : world T) :
  reachable initial step w →
  (∀ id, inTable id (client w) + cnt (isSender id) (threads w) + buffered id (client w) ≤ 1) ∧
  (∀ i t rest id, threads w !! i = Some (t :: rest) → isWaiter id t = true →
     inTable id (client w) + cnt (isSender id) (threads w) + buffered id (client w) = 1) ∧
  (∀ i id r rest ch, threads w !! i = Some (SendResult id r :: rest) →
     exec ch (SendResult id r) (client w) = Some (Outcome (sendResult id r (client w)) [] [])).
Proof.
  intros Hr. pose proof (call_reachable w Hr) as Hi. destruct w as [c ths]. simpl in *.
  split_and!.
  - intros id. destruct (Hi id) as (Ha & _ & _). unfold account in Ha. lia.
  - intros i t rest id Ht Hw. destruct (Hi id) as (Ha & Hb & _).
    pose proof (cnt_head (isWaiter id) ths i t rest Ht Hw). unfold account in *. lia.
  - intros i id r rest ch Ht. destruct (Hi id) as (Ha & _ & Hc).
    assert (Hs : 1 ≤ cnt (isSender id) ths).
    { eapply cnt_head; [exact Ht|]. simpl. by rewrite bool_decide_true. }
    unfold account in *. destruct Hc as [rs Hrs]; [lia|]. simpl. unfold chanFree.
    rewrite Hrs. unfold buffered in Ha. rewrite Hrs in Ha. simpl in Ha.
    destruct rs; [done|simpl in Ha; lia].
Qed.

End Calls.

Lemma call_answered_once_witness :
  inTable "1" (client opened) + cnt (isSender "1") (threads opened) + buffered "1" (client opened) = 1.
Proof.
  eapply (proj1 (proj2 (call_answered_once opened opened_reachable)) 2);
    [by vm_compute|by vm_compute].
Defined.

End ClientCalls.
