(* ===== verification/ClientConn.v ===== *)
(** * ClientConn: the Go client's connection state against its tables

    What holds without a connection and after a close, and the sequence of state changes
    that OnStateChange sees. *)

From S2P Require Import Prelude Protocol ClientParts ClientAuth Client ClientRun ClientFacts ClientCalls.
From stdpp Require Import prelude gmap strings list pretty fin_maps fin_sets.

Module ClientConn.
Import Client.Client ClientRun.ClientRun ClientFacts.ClientFacts ClientCalls.ClientCalls.
Import Errors.

Section Conn.
  Context `{Env T}.
  Implicit Types (c : Client T) (t : task T) (ts : list (task T)) (ths : list (list (task T))).

(** ** The connection and the tables *)

(** Calls and streams are bound to the connection: without one there are none. A closed
    client has no connection and no subscriptions. *)
Definition unbound c : Prop := pending c = ∅ ∧ streams c = ∅.

Definition tablesInv c : Prop :=
  (conn c = None → unbound c) ∧
  (closed c = true → conn c = None ∧ subs c = ∅).

(** A section that leaves the connection alone and adds to no table. *)
Definition shrinks c c' : Prop :=
  conn c' = conn c ∧ closed c' = closed c ∧
  pending c' ⊆ pending c ∧ streams c' ⊆ streams c ∧ subs c' ⊆ subs c.

Lemma shrinks_tables c c' : shrinks c c' → tablesInv c → tablesInv c'.
Proof.
  intros (Hc & Hcl & Hp & Hs & Hu) [H1 H2]. unfold tablesInv. rewrite Hc, Hcl. split.
  - intros Hn. destruct (H1 Hn) as [Ep Es]. rewrite Ep in Hp. rewrite Es in Hs.
    split; by apply (anti_symm (⊆)); [|apply empty_subseteq].
  - intros Hn. destruct (H2 Hn) as [Ec Eu]. rewrite Eu in Hu. split; [done|].
    by apply (anti_symm (⊆)); [|apply empty_subseteq].
Qed.

Ltac shrink := unfold shrinks; simpl; split_and!;
  first [reflexivity | apply subseteq_difference_l; reflexivity].

Lemma handleFrame_shrinks k f c : shrinks c (handleFrame k f c).1.
Proof.
  destruct f; simpl;
    unfold deliverResult, handleError, rejectStreamForCall, handleBinary, deliverResult;
    repeat (rewrite takePending_eq || case_match); simplify_eq/=; shrink.
Qed.

Lemma markDisconnected_tables k e c : tablesInv c → tablesInv (markDisconnected k e c).1.
Proof.
  unfold markDisconnected. case_match; [done|]. intros [_ H2]. unfold tablesInv. simpl. split; [done|].
  intros Hc. by destruct (H2 Hc).
Qed.

Lemma tables_step ch t c o : tablesInv c → exec ch t c = Some o → tablesInv (o_client o).
Proof.
  intros Hi He.
  destruct t; exec_inv He; try solve [apply (shrinks_tables c); [shrink|exact Hi]].
  - apply bool_decide_eq_true in E. destruct Hi as [H1 H2]. unfold tablesInv. simpl.
    split; [congruence|done].
  - apply bool_decide_eq_true in E. destruct Hi as [H1 H2]. unfold tablesInv. simpl.
    split; [congruence|done].
  - destruct Hi as [H1 H2]. unfold tablesInv. simpl. split; [done|congruence].
  - destruct Hi as [H1 H2]. unfold tablesInv. simpl. split; [done|congruence].
  - apply (shrinks_tables c); [|exact Hi]. unfold sendSubscribe. repeat case_match; shrink.
  - apply (shrinks_tables c); [|exact Hi]. unfold releaseSubSlot.
    destruct (dequeue _ _ _) as [[]]. repeat case_match; shrink.
  - apply (shrinks_tables c); [|exact Hi]. unfold endLocked. simpl. repeat case_match; shrink.
  - apply (shrinks_tables c); [apply handleFrame_shrinks|exact Hi].
  - by apply markDisconnected_tables.
  - unfold markConnected. case_match eqn:Ec; [done|]. destruct Hi as [H1 H2]. unfold tablesInv. simpl.
    split; [done|congruence].
  - rewrite setState_frame. apply (shrinks_tables c); [shrink|exact Hi].
  - unfold shutdown. case_match; [done|]. unfold tablesInv. simpl. done.
Qed.

Lemma tables_reachable w : reachable initial step w → tablesInv (client w).
Proof.
  intros Hr. apply (world_invariant (λ c _, tablesInv c)); [done|done| |done].
  intros c ths i t rest ch o _ Hi _ He. by eapply tables_step.
Qed.

(** C25: nothing waits for a dead connection. While the client has no connection, no call
    and no stream is registered, so every caller that still waits has its result on the way
    or in its channel; and once the client is closed it has no connection, no pending call,
    no stream and no subscription, and none is added later. *)
Theorem nothing_outlives_connection (w : world T) :
  reachable initial step w →
  (conn (client w) = None →
     unbound (client w) ∧
     ∀ i t rest id, threads w !! i = Some (t :: rest) → isWaiter id t = true →
       cnt (isSender id) (threads w) + buffered id (client w) = 1) ∧
  (closed (client w) = true →
     conn (client w) = None ∧ unbound (client w) ∧ subs (client w) = ∅).
Proof.
  intros Hr. destruct (tables_reachable w Hr) as [H1 H2]. split.
  - intros Hn. destruct (H1 Hn) as [Hp Hs]. split; [done|].
    intros i t rest id Ht Hw. destruct (call_reachable w Hr id) as (Ha & Hb & _).
    pose proof (cnt_head (isWaiter id) (threads w) i t rest Ht Hw) as Hone.
    unfold account, inTable in *. rewrite Hp in *. rewrite bool_decide_false in * by set_solver.
    simpl in *. lia.
  - intros Hc. destruct (H2 Hc) as [Hn Hu]. destruct (H1 Hn) as [Hp Hs]. done.
Qed.

(** ** State changes *)

Definition isFinish t : bool := match t with ShutdownFinish => true | _ => false end.
Definition isSetClosed t : bool := match t with SetState StateClosed => true | _ => false end.

(** Each notification differs from the state before it. *)
Fixpoint alternates (prev : State) (l : list State) : Prop :=
  match l with
  | [] => True
  | s :: l => s ≠ prev ∧ alternates s l
  end.

Lemma alternates_snoc p l s :
  alternates p (l ++ [s]) ↔ alternates p l ∧ s ≠ default p (last l).
Proof.
  revert p. induction l as [|x l IH]; intros p; [simpl; naive_solver|]. simpl. rewrite IH, last_cons.
  destruct (last l); simpl; tauto.
Qed.

Definition quiet t : Prop := isFinish t = false ∧ isSetClosed t = false.

Ltac quiets := repeat first [apply Forall_nil_2 | apply Forall_cons_2 | apply Forall_app_2
  | apply Forall_fmap, Forall_true; intros | by split].

(** The sections that leave the state alone. *)
Definition sameState c c' ts : Prop :=
  cstate c' = cstate c ∧ notified c' = notified c ∧ closed c' = closed c ∧ Forall quiet ts.

Lemma handleFrame_state k f c : sameState c (handleFrame k f c).1 (handleFrame k f c).2.
Proof.
  destruct f; simpl;
    unfold deliverResult, handleError, rejectStreamForCall, handleBinary, deliverResult;
    repeat (rewrite takePending_eq || case_match); simplify_eq/=;
    (split_and!; [reflexivity|reflexivity|reflexivity|quiets]).
Qed.

Lemma releaseSubSlot_state k c : sameState c (releaseSubSlot k c).1 (releaseSubSlot k c).2.
Proof.
  unfold releaseSubSlot. case_match; [split_and!; [done|done|done|quiets]|].
  destruct (dequeue _ _ _) as [[n q] next]. split_and!; [done|done|done|]. simpl.
  apply Forall_app. split; [|quiets]. apply Forall_concat, Forall_fmap, Forall_true.
  intros x. simpl. quiets.
Qed.

Lemma small_state c :
  (∀ k id, sameState c (sendSubscribe k id c).1 (sendSubscribe k id c).2) ∧
  (∀ id, sameState c (endLocked id c).1 (endLocked id c).2) ∧
  (∀ k, sameState c (markConnected k c).1 (markConnected k c).2) ∧
  (∀ k e, sameState c (markDisconnected k e c).1 (markDisconnected k e c).2).
Proof.
  unfold sendSubscribe, endLocked, markConnected, markDisconnected.
  split_and!; intros; repeat case_match; (split_and!; [reflexivity|reflexivity|reflexivity|quiets]).
Qed.

(** What a section does to the state: nothing, a change of state, the start of a shutdown,
    or its end. *)
Lemma exec_state ch t c o :
  exec ch t c = Some o →
  Forall (Forall quiet) (o_spawn o) ∧
  ((sameState c (o_client o) (o_next o) ∧ t ≠ ShutdownFinish) ∨
   (∃ s, t = SetState s ∧ o = Outcome (setState s c) [] []) ∨
   (∃ e, t = Shutdown e ∧ closed c = false ∧ closed (o_client o) = true ∧
      cstate (o_client o) = cstate c ∧ notified (o_client o) = notified c ∧
      cntL isFinish (o_next o) = 1 ∧ cntL isSetClosed (o_next o) = 0) ∨
   (t = ShutdownFinish ∧ o_next o = [] ∧ closed (o_client o) = closed c ∧
      cstate (o_client o) = StateClosed ∧ notified (o_client o) = notified c ++ [StateClosed])).
Proof.
  intros He. destruct (small_state c) as (H1 & H2 & H3 & H4).
  destruct t; exec_inv He; (split; [quiets|]);
    try solve [left; split; [|congruence]; (split_and!; [reflexivity|reflexivity|reflexivity|quiets])];
    try solve [left; split; [|congruence];
      first [apply H1|apply H2|apply H3|apply H4|apply handleFrame_state|apply releaseSubSlot_state]].
  - left. split; [|congruence]. split_and!; [done|done|done|]. unfold resubscribe. case_match; quiets.
  - left. split; [|congruence]. split_and!; [done|done|done|].
    unfold ofSub, patchNext. repeat case_match; quiets.
  - right; left. eauto.
  - unfold shutdown. destruct (closed c) eqn:Ec.
    + left. split; [|congruence]. split_and!; [done|by rewrite ?Ec|done|quiets].
    + right; right; left. exists e. simpl. rewrite !cntL_app, !cntL_fmap by done. simpl.
      split_and!; try done; by destruct (conn c).
  - right; right; right. done.
Qed.

Definition stateInv c ths : Prop :=
  alternates StateConnecting (notified c) ∧
  default StateConnecting (last (notified c)) = cstate c ∧
  (∀ i, notified c !! i = Some StateClosed → S i = length (notified c)) ∧
  cnt isFinish ths + Nat.b2n (bool_decide (cstate c = StateClosed)) ≤ Nat.b2n (closed c) ∧
  cnt isSetClosed ths = 0.

Lemma quiet_counts ts : Forall quiet ts → cntL isFinish ts = 0 ∧ cntL isSetClosed ts = 0.
Proof. rewrite Forall_forall. intros Hq. split; apply cntL_false; intros t Ht; by apply Hq. Qed.

Lemma quiet_cnt ths : Forall (Forall quiet) ths → cnt isFinish ths = 0 ∧ cnt isSetClosed ths = 0.
Proof.
  induction 1 as [|ts ths Hts _ [IH1 IH2]]; [done|]. simpl. destruct (quiet_counts ts Hts). lia.
Qed.

(** A notification of a new state, when the last was not Closed. *)
Lemma closed_last (l : list State) s i :
  default StateConnecting (last l) ≠ StateClosed →
  (∀ i, l !! i = Some StateClosed → S i = length l) →
  (l ++ [s]) !! i = Some StateClosed → S i = length (l ++ [s]).
Proof.
  intros Hl Hi Hs. rewrite length_app. simpl.
  apply lookup_app_Some in Hs as [Hs|[Hge Hs]].
  - pose proof (Hi i Hs) as Hlen. exfalso. apply Hl.
    rewrite last_lookup, <- Hlen. simpl. by rewrite Hs.
  - destruct (i - length l) as [|j] eqn:Ej; [lia|]. simpl in Hs. done.
Qed.

Lemma state_step c ths i t rest ch o :
  stateInv c ths → ths !! i = Some (t :: rest) → exec ch t c = Some o →
  stateInv (o_client o) (<[i := o_next o ++ rest]> ths ++ o_spawn o).
Proof.
  intros (Ha & Hl & Hi & Hf & Hs) Hth He.
  pose proof (cnt_step isFinish ths i t rest (o_next o) (o_spawn o) Hth) as C1.
  pose proof (cnt_step isSetClosed ths i t rest (o_next o) (o_spawn o) Hth) as C2.
  destruct (exec_state _ _ _ _ He) as [Hsp Hcases]. destruct (quiet_cnt _ Hsp) as [Q1 Q2].
  rewrite Q1 in C1. rewrite Q2 in C2. unfold stateInv.
  destruct Hcases as [[(Es & En & Ec & Hq) Hne]|[(s & -> & ->)|[(e & -> & Hcl & Hcl' & Es & En & N1 & N2)|
    (-> & Hn & Ec & Es & En)]]].
  - destruct (quiet_counts _ Hq). rewrite Es, En, Ec. split_and!; try done; lia.
  - simpl in *. assert (Hns : s ≠ StateClosed).
    { intros ->. simpl in C2. lia. }
    unfold setState. destruct (bool_decide (cstate c = s)) eqn:E1; simpl;
      [split_and!; try done; lia|]. apply bool_decide_eq_false in E1.
    destruct (bool_decide (cstate c = StateClosed)) eqn:E2; simpl;
      [rewrite E2; split_and!; try done; simpl in *; lia|]. apply bool_decide_eq_false in E2.
    destruct (closed c) eqn:E3; simpl; [rewrite E3, bool_decide_false by done; split_and!; try done; simpl in *; lia|].
    rewrite E3, (bool_decide_false (s = StateClosed)) by done. rewrite last_snoc.
    split_and!; try done; [| |simpl in *; lia|lia].
    + apply alternates_snoc. split; [done|]. congruence.
    + intros j. apply closed_last; [congruence|done].
  - rewrite Es, En, Hcl'. rewrite Hcl in Hf. simpl in *. split_and!; try done; lia.
  - rewrite Hn in *. rewrite Es, En, Ec. simpl in *.
    assert (cstate c ≠ StateClosed) as Hnc.
    { intros E. rewrite E, bool_decide_true in Hf by done. simpl in Hf. destruct (closed c); simpl in *; lia. }
    rewrite (bool_decide_false (cstate c = StateClosed)) in Hf by done. simpl in Hf.
    rewrite last_snoc.
    split_and!; try done; [| |simpl; lia|lia].
    + apply alternates_snoc. split; [done|]. congruence.
    + intros j. apply closed_last; [congruence|done].
Qed.

Lemma apiStart_quiet ts : apiStart ts → Forall quiet ts.
Proof. destruct ts as [|[] []]; simpl; try done; intros _; quiets. Qed.

Lemma state_reachable w : reachable initial step w → stateInv (client w) (threads w).
Proof.
  apply world_invariant.
  - unfold stateInv. simpl. split_and!; try done; by intros.
  - intros c ths ts (Ha & Hl & Hi & Hf & Hs) Hst.
    destruct (quiet_counts ts (apiStart_quiet ts Hst)).
    unfold stateInv. rewrite !cnt_app. simpl. split_and!; try done; lia.
  - intros c ths i t rest ch o _ Hi Hth He. by eapply state_step.
Qed.

(** What OnStateChange is told is the client's history: the queue of notifications
    starts away from Connecting, consecutive notifications differ, [State] is always the
    last one, and Closed is told at most once, as the last notification of all, and only
    when the client was shut down. *)
Theorem state_changes_in_order (w : world T) :
  reachable initial step w →
  alternates StateConnecting (notified (client w)) ∧
  default StateConnecting (last (notified (client w))) = cstate (client w) ∧
  (∀ i, notified (client w) !! i = Some StateClosed → S i = length (notified (client w))) ∧
  (cstate (client w) = StateClosed → closed (client w) = true).
Proof.
  intros Hr. destruct (state_reachable w Hr) as (Ha & Hl & Hi & Hf & Hs). split_and!; try done.
  intros E. rewrite E, bool_decide_true in Hf by done. simpl in Hf.
  destruct (closed (client w)); [done|simpl in Hf; lia].
Qed.

End Conn.

Lemma nothing_outlives_connection_witness :
  pending (client ended) = ∅ ∧ subs (client ended) = ∅ ∧ pending (client world0) = ∅.
Proof.
  destruct (nothing_outlives_connection ended ended_reachable) as [_ Hc].
  destruct (nothing_outlives_connection world0 world0_reachable) as [Hn _].
  split_and!; [by apply Hc; vm_compute|by apply Hc; vm_compute|by apply Hn].
Defined.

Lemma state_changes_in_order_witness :
  alternates StateConnecting (notified (client ended)) ∧ notified (client ended) !! 1 = Some StateClosed ∧
  closed (client ended) = true.
Proof.
  destruct (state_changes_in_order ended ended_reachable) as (Ha & _ & _ & Hc).
  split_and!; [exact Ha|by vm_compute|apply Hc; by vm_compute].
Defined.

End ClientConn.
