(* ===== verification/ClientSlots.v ===== *)
(** * ClientSlots: the subscribe slots of the Go client

    At most [maxSubscribesInFlight] subscribe frames of a connection wait for their first
    answer, the count never loses a slot that is held, and a queue forms only when every
    slot is taken. *)

From S2P Require Import Prelude Protocol ClientParts ClientAuth Client ClientRun ClientFacts.
From stdpp Require Import prelude gmap strings list pretty fin_maps fin_sets.

Module ClientSlots.
Import Client.Client ClientRun.ClientRun ClientFacts.ClientFacts.
Import Errors.

(** ** Counting under [alter] and [insert] *)

Section CountAlter.
  Context `{Countable K} {A : Type} (P : A → bool).
  Implicit Types m : gmap K A.

Lemma countIf_insert_le m k x : P x = false → countIf P (<[k := x]> m) ≤ countIf P m.
Proof.
  intros Hx. destruct (m !! k) as [y|] eqn:E.
  - pose proof (countIf_update P m k x y E) as Hu. rewrite Hx in Hu. simpl in Hu. lia.
  - rewrite (countIf_insert P m k x E), Hx. simpl. lia.
Qed.

Lemma countIf_alter m k f x :
  m !! k = Some x → countIf P (alter f k m) + Nat.b2n (P x) = countIf P m + Nat.b2n (P (f x)).
Proof.
  intros Hk. replace (alter f k m) with (<[k := f x]> m); [by apply countIf_update|].
  apply map_eq. intros j. destruct (decide (j = k)) as [->|Hne].
  - by rewrite lookup_insert_eq, lookup_alter_eq, Hk.
  - by rewrite lookup_insert_ne, lookup_alter_ne by done.
Qed.

Lemma countIf_alter_none m k f : m !! k = None → countIf P (alter f k m) = countIf P m.
Proof.
  intros Hk. replace (alter f k m) with m; [done|]. apply map_eq. intros j.
  destruct (decide (j = k)) as [->|Hne]; [by rewrite lookup_alter_eq, Hk|by rewrite lookup_alter_ne by done].
Qed.

Lemma countIf_alter_le m k f :
  (∀ x, P (f x) = true → P x = true) → countIf P (alter f k m) ≤ countIf P m.
Proof.
  intros Hf. destruct (m !! k) as [x|] eqn:E; [|by rewrite countIf_alter_none].
  pose proof (countIf_alter m k f x E) as Ha. specialize (Hf x).
  destruct (P (f x)) eqn:E1; [rewrite (Hf eq_refl) in Ha|destruct (P x)]; cbn [Nat.b2n] in Ha; lia.
Qed.

Lemma countIf_alter_succ m k f : countIf P (alter f k m) ≤ S (countIf P m).
Proof.
  destruct (m !! k) as [x|] eqn:E; [|rewrite countIf_alter_none by done; lia].
  pose proof (countIf_alter m k f x E) as Ha. destruct (P (f x)), (P x); cbn [Nat.b2n] in Ha; lia.
Qed.

End CountAlter.

(** ** The queue *)

Lemma dequeue_spec open n q n' q' next :
  dequeue open n q = (n', q', next) →
  n' = (n + Z.of_nat (length next))%Z ∧ (n ≤ maxSubscribesInFlight → n' ≤ maxSubscribesInFlight)%Z ∧
  (q' ≠ [] → maxSubscribesInFlight ≤ n')%Z ∧
  (∀ x, x ∈ next → x ∈ open) ∧
  (∀ x, x ∈ open → x ∈ q → x ∈ q' ∨ x ∈ next).
Proof.
  revert n n' q' next. induction q as [|s q IH]; intros n n' q' next Hd; simpl in Hd.
  - simplify_eq/=. split_and!; [lia|done|done|set_solver|set_solver].
  - case_bool_decide as Hlt.
    + case_decide as Hin.
      * destruct (dequeue open (n + 1) q) as [[n1 q1] nx1] eqn:E. simplify_eq/=.
        destruct (IH _ _ _ _ E) as (-> & H1 & H2 & H3 & H4). split_and!; [lia|lia|done| |].
        -- intros x [->|Hx]%elem_of_cons; auto.
        -- intros x Ho [->|Hx]%elem_of_cons; [right; by left|].
           destruct (H4 x Ho Hx); [by left|right; by right].
      * destruct (IH _ _ _ _ Hd) as (-> & H1 & H2 & H3 & H4). split_and!; auto.
        intros x Ho [->|Hx]%elem_of_cons; [done|auto].
    + simplify_eq/=. split_and!; [lia|done|lia|set_solver|auto].
Qed.

Lemma removeFirst_subset id q x : x ∈ removeFirst id q → x ∈ q.
Proof.
  induction q as [|y q IH]; simpl; [done|]. case_bool_decide; rewrite !elem_of_cons; naive_solver.
Qed.

Lemma removeFirst_keeps id q x : x ≠ id → x ∈ q → x ∈ removeFirst id q.
Proof.
  intros Hne. induction q as [|y q IH]; simpl; [done|]. rewrite elem_of_cons.
  case_bool_decide; rewrite ?elem_of_cons; naive_solver.
Qed.

Lemma removeFirst_nonempty id q : removeFirst id q ≠ [] → q ≠ [].
Proof. by destruct q. Qed.

Section Slots.
  Context `{Env T}.
  Implicit Types (c : Client T) (t : task T) (ts : list (task T)) (ths : list (list (task T))).

(** A section that holds a slot of connection [k]. *)
Definition holdsSlot (k : nat) t : bool :=
  match t with
  | ReleaseSubSlot k' | Answered k' _ | AnsweredLocked k' _ | WriteMark k' _ => bool_decide (k' = k)
  | _ => false
  end.

(** A subscription whose frame on [k] is unanswered. *)
Definition awaits (k : nat) (s : Sub.Subscription T) : bool := bool_decide (Sub.awaiting s = Some k).

Definition awaitingSubs (k : nat) c : nat := countIf (awaits k) (subObjs c).
Definition held (k : nat) c ths : nat := awaitingSubs k c + cnt (holdsSlot k) ths.

(** What a section does to the slots of [k], the one that publishes [k] excepted. *)
Definition slotsOk (k : nat) t c (o : outcome) : Prop :=
  cnt (holdsSlot k) (o_spawn o) = 0 ∧
  let before := (Z.of_nat (awaitingSubs k c) + Z.of_nat (Nat.b2n (holdsSlot k t)))%Z in
  let after := (Z.of_nat (awaitingSubs k (o_client o)) + Z.of_nat (cntL (holdsSlot k) (o_next o)))%Z in
  (conn (o_client o) = Some k → conn c = Some k ∧
     after - before ≤ subInFlight (o_client o) - subInFlight c ∧
     (subInFlight c ≤ maxSubscribesInFlight → subInFlight (o_client o) ≤ maxSubscribesInFlight) ∧
     ((subQueue c ≠ [] → maxSubscribesInFlight ≤ subInFlight c) →
      subQueue (o_client o) ≠ [] → maxSubscribesInFlight ≤ subInFlight (o_client o)))%Z ∧
  (conn c ≠ Some k → after ≤ before)%Z.

Lemma slotsOk_same k t c c' ts sp :
  cnt (holdsSlot k) sp = 0 → conn c' = conn c → subInFlight c' = subInFlight c → subQueue c' = subQueue c →
  awaitingSubs k c' + cntL (holdsSlot k) ts ≤ awaitingSubs k c + Nat.b2n (holdsSlot k t) →
  slotsOk k t c (Outcome c' ts sp).
Proof.
  intros Hsp Hc Hi Hq Ha. unfold slotsOk. simpl. rewrite Hc, Hi, Hq. split_and!; [done| |intros; lia].
  intros Hk. split_and!; [done|lia|done|done].
Qed.

(** A section that takes the connection away. *)
Lemma slotsOk_drop k t c c' ts :
  conn c' = None → subObjs c' = subObjs c → cntL (holdsSlot k) ts = 0 → slotsOk k t c (Outcome c' ts []).
Proof.
  intros Hc Hs Ht. unfold slotsOk, awaitingSubs. simpl. rewrite Hc, Hs, Ht. split_and!; [done|done|lia].
Qed.

Lemma slotsOk_plain k t c c' ts :
  conn c' = conn c → subInFlight c' = subInFlight c → subQueue c' = subQueue c → subObjs c' = subObjs c →
  cntL (holdsSlot k) ts = 0 → slotsOk k t c (Outcome c' ts []).
Proof.
  intros Hc Hi Hq Hs Ht. apply slotsOk_same; try done. unfold awaitingSubs. rewrite Hs, Ht. lia.
Qed.

(** A method that does not make its object wait for [k]. *)
Lemma slotsOk_with k t c id f ts :
  (∀ s, awaits k (f s) = true → awaits k s = true) → cntL (holdsSlot k) ts ≤ Nat.b2n (holdsSlot k t) →
  slotsOk k t c (Outcome (withSub id f c) ts []).
Proof.
  intros Hf Ht. apply slotsOk_same; try done. unfold awaitingSubs. simpl.
  pose proof (countIf_alter_le (awaits k) (subObjs c) id f Hf). lia.
Qed.

(** [takeAwaiting]: the slot goes from the object to the section that follows. *)
Lemma takeAwaiting_count k id c :
  awaitingSubs k (withSub id (λ s, fst (Sub.takeAwaiting s)) c) +
    Nat.b2n (bool_decide (ofSub id (λ s, snd (Sub.takeAwaiting s)) None c = Some k)) = awaitingSubs k c.
Proof.
  unfold awaitingSubs, ofSub, withSub. simpl. destruct (subObjs c !! id) as [s|] eqn:E.
  - pose proof (countIf_alter (awaits k) _ id (λ s, fst (Sub.takeAwaiting s)) s E) as Ha.
    unfold awaits in *. simpl in *. lia.
  - rewrite countIf_alter_none by done. simpl. lia.
Qed.

Lemma slotsOk_take k t c c' id ts :
  c' = withSub id (λ s, fst (Sub.takeAwaiting s)) c ∨
    (∃ l, c' = set_events l (withSub id (λ s, fst (Sub.takeAwaiting s)) c)) →
  cntL (holdsSlot k) ts ≤ Nat.b2n (bool_decide (ofSub id (λ s, snd (Sub.takeAwaiting s)) None c = Some k)) →
  slotsOk k t c (Outcome c' ts []).
Proof.
  intros Hc Ht. pose proof (takeAwaiting_count k id c) as Ha.
  destruct Hc as [->|[l ->]]; apply slotsOk_same; try done; unfold awaitingSubs in *; simpl in *; lia.
Qed.

Lemma handleFrame_slots k k' f c :
  slotsOk k (HandleFrame k' f) c (Outcome (handleFrame k' f c).1 (handleFrame k' f c).2 []).
Proof.
  destruct f; simpl;
    unfold deliverResult, handleError, rejectStreamForCall, handleBinary, deliverResult;
    repeat (rewrite takePending_eq || case_match); simplify_eq/=;
    apply slotsOk_plain; try reflexivity; rewrite ?cntL_fmap; reflexivity.
Qed.

Lemma sendSubscribe_slots k k' id c :
  slotsOk k (SendSubscribe k' id) c (Outcome (sendSubscribe k' id c).1 (sendSubscribe k' id c).2 []).
Proof.
  unfold sendSubscribe. destruct (negb _) eqn:E; [by apply slotsOk_plain|].
  apply negb_false_iff, andb_true_iff in E as [_ E%bool_decide_eq_true].
  unfold slotsOk, awaitingSubs. case_bool_decide as Hm; simpl.
  - split_and!; [done| |lia]. intros Hk. split_and!; [done|lia|done|done].
  - split_and!; [done| |intros Hk; rewrite (bool_decide_false (k' = k)) by congruence; simpl; lia].
    intros Hk. split_and!; [done| |lia|intros Hq Hne; specialize (Hq Hne); lia].
    destruct (bool_decide (k' = k)); simpl; lia.
Qed.

Lemma cntL_writes k k' (next : list string) :
  cntL (holdsSlot k) (concat ((λ s, [WriteMark k' s; WriteSubscribe k' s]) <$> next)) =
    if bool_decide (k' = k) then length next else 0.
Proof.
  induction next as [|x next IH]; [simpl; by case_bool_decide|].
  rewrite fmap_cons, concat_cons, cntL_app, IH. simpl. case_bool_decide; simpl; lia.
Qed.

Lemma releaseSubSlot_slots k k' c :
  slotsOk k (ReleaseSubSlot k') c (Outcome (releaseSubSlot k' c).1 (releaseSubSlot k' c).2 []).
Proof.
  unfold releaseSubSlot. case_bool_decide as E; [by apply slotsOk_plain|].
  destruct (dequeue _ _ _) as [[n q] next] eqn:Ed.
  apply dequeue_spec in Ed as (-> & H1 & H2 & _). unfold slotsOk, awaitingSubs.
  cbn [o_client o_next o_spawn fst snd]. rewrite cntL_app, cntL_writes. simpl. split_and!; [done| |].
  - intros Hk. assert (k' = k) as -> by congruence. rewrite bool_decide_true by done. simpl.
    split_and!; [done|lia|intros; apply H1; lia|intros _ Hne; apply H2; done].
  - intros Hk. rewrite bool_decide_false by congruence. simpl. lia.
Qed.

Lemma endLocked_slots k id c :
  slotsOk k (EndLocked id) c (Outcome (endLocked id c).1 (endLocked id c).2 []).
Proof.
  unfold endLocked, slotsOk, awaitingSubs. simpl. destruct (conn c) eqn:E; simpl.
  - rewrite E. split_and!; [done| |lia]. intros Hk.
    split_and!; [done|lia|done|]. intros Hq Hne. apply Hq. by eapply removeFirst_nonempty.
  - rewrite E. split_and!; [done|done|lia].
Qed.

Lemma closeWith_awaits k e (s : Sub.Subscription T) :
  awaits k (fst (Sub.closeWith zero e s)) = awaits k s.
Proof. unfold awaits, Sub.closeWith. by case_match. Qed.

Lemma deliver_awaits k p (s : Sub.Subscription T) :
  awaits k (fst (Sub.deliver zero ofBlob unmarshalWire p s)) = awaits k s.
Proof.
  unfold awaits, Sub.deliver, Sub.publishLocked. repeat case_match; simplify_eq/=; try done; by repeat case_match.
Qed.

Lemma patchFinish_awaits k v (s : Sub.Subscription T) : awaits k (Sub.patchFinish v s) = awaits k s.
Proof. unfold awaits, Sub.patchFinish, Sub.publishLocked. by repeat case_match. Qed.

Lemma subRegister_slots k apply id s c c' ts :
  c' = set_subObjs (<[id := s]> (subObjs c)) c ∨
    (∃ l, c' = set_subs l (set_subObjs (<[id := s]> (subObjs c)) c)) →
  Sub.awaiting s = None → cntL (holdsSlot k) ts = 0 →
  slotsOk k (SubRegister apply id) c (Outcome c' ts []).
Proof.
  intros Hc Hs Ht.
  assert (countIf (awaits k) (<[id := s]> (subObjs c)) ≤ countIf (awaits k) (subObjs c)).
  { apply countIf_insert_le. unfold awaits. rewrite Hs. by apply bool_decide_false. }
  destruct Hc as [->|[l ->]]; apply slotsOk_same; try done; unfold awaitingSubs; simpl; lia.
Qed.

Lemma writeMark_slots k k' id c : slotsOk k (WriteMark k' id) c (Outcome (withSub id (Sub.sent k') c) [] []).
Proof.
  apply slotsOk_same; try done. unfold awaitingSubs. simpl. case_bool_decide as E; simpl.
  - pose proof (countIf_alter_succ (awaits k) (subObjs c) id (Sub.sent k')). lia.
  - rewrite Nat.add_0_r, Nat.add_0_r. apply countIf_alter_le. intros s. unfold awaits. simpl.
    rewrite bool_decide_false by congruence. done.
Qed.

Lemma markDisconnected_slots k k' e c :
  slotsOk k (MarkDisconnected k' e) c (Outcome (markDisconnected k' e c).1 (markDisconnected k' e c).2 []).
Proof.
  unfold markDisconnected. case_bool_decide; [by apply slotsOk_plain|]. simpl.
  apply slotsOk_drop; try done. rewrite !cntL_app, !cntL_fmap by done. done.
Qed.

Lemma shutdown_slots k e c : slotsOk k (Shutdown e) c (Outcome (shutdown e c).1 (shutdown e c).2 []).
Proof.
  unfold shutdown. destruct (closed c); [by apply slotsOk_plain|]. simpl.
  apply slotsOk_drop; try done. rewrite !cntL_app, !cntL_fmap by done. by case_match.
Qed.

Lemma markConnected_slots k k' c :
  k' ≠ k → slotsOk k (MarkConnected k') c (Outcome (markConnected k' c).1 (markConnected k' c).2 []).
Proof.
  intros Hne. unfold markConnected. destruct (closed c); [by apply slotsOk_plain|].
  unfold slotsOk, awaitingSubs. cbn [o_client o_next o_spawn fst snd].
  assert (cntL (holdsSlot k) (SetState StateConnected :: (SendSubscribe k' <$> range_of (subs c)) ++ [Run k']) = 0) as ->.
  { cbn [cntL holdsSlot Nat.b2n]. rewrite cntL_app, cntL_fmap by done. done. }
  simpl. split_and!; [done|congruence|lia].
Qed.

Lemma exec_slots k ch t c o :
  exec ch t c = Some o → t ≠ MarkConnected k → slotsOk k t c o.
Proof.
  intros He Hmc.
  destruct t; exec_inv He;
    try solve [apply slotsOk_plain; reflexivity];
    try solve [apply slotsOk_with; [done|simpl; lia]];
    try solve [apply slotsOk_with; [intros s; by rewrite ?closeWith_awaits, ?deliver_awaits, ?patchFinish_awaits|simpl; lia]];
    try solve [apply sendSubscribe_slots|apply releaseSubSlot_slots|apply endLocked_slots|apply handleFrame_slots
      |apply writeMark_slots|apply markDisconnected_slots|apply shutdown_slots
      |apply markConnected_slots; congruence
      |eapply subRegister_slots; [by left|try reflexivity|reflexivity]
      |eapply subRegister_slots; [by right; eexists|reflexivity|reflexivity]];
    try solve [apply slotsOk_same; try reflexivity; unfold awaitingSubs; simpl; lia].
  - apply slotsOk_same; try done. unfold resubscribe. case_match; simpl; lia.
  - eapply slotsOk_take; [by left|]. simpl in *. rewrite E. simpl. repeat case_bool_decide; simplify_eq/=; simpl; lia.
  - eapply slotsOk_take; [by left|]. simpl in *. rewrite E. simpl. repeat case_bool_decide; simplify_eq/=; simpl; lia.
  - eapply slotsOk_take; [by left|]. simpl in *. rewrite E. simpl. repeat case_bool_decide; simplify_eq/=; simpl; lia.
  - apply slotsOk_same; try done. unfold ofSub, patchNext. repeat case_match; simpl; lia.
  - rewrite setState_frame. by apply slotsOk_plain.
Qed.

(** ** The connections *)

Definition isPublish (k : nat) t : bool :=
  match t with MarkConnected k' => bool_decide (k' = k) | _ => false end.

Definition noPublish t : Prop := ∀ k, isPublish k t = false.

Lemma noPublish_cntL k ts : Forall noPublish ts → cntL (isPublish k) ts = 0.
Proof. rewrite Forall_forall. intros Hr. apply cntL_false. intros t Ht. by apply Hr. Qed.

Ltac nopubs := repeat first [apply Forall_nil_2 | apply Forall_cons_2 | apply Forall_app_2
  | apply Forall_fmap, Forall_true; intros | by intros ?].

Lemma releaseSubSlot_nopub k c :
  Forall noPublish (releaseSubSlot k c).2 ∧ nextConn (releaseSubSlot k c).1 = nextConn c.
Proof.
  unfold releaseSubSlot. case_match; [split; [nopubs|done]|].
  destruct (dequeue _ _ _) as [[n q] next]. simpl. split; [|done].
  apply Forall_app. split; [|nopubs]. apply Forall_concat, Forall_fmap, Forall_true. intros x. simpl. nopubs.
Qed.

Lemma small_nopub c :
  (∀ k f, Forall noPublish (handleFrame k f c).2 ∧ nextConn (handleFrame k f c).1 = nextConn c) ∧
  (∀ k id, Forall noPublish (sendSubscribe k id c).2 ∧ nextConn (sendSubscribe k id c).1 = nextConn c) ∧
  (∀ id, Forall noPublish (endLocked id c).2 ∧ nextConn (endLocked id c).1 = nextConn c) ∧
  (∀ k, Forall noPublish (markConnected k c).2 ∧ nextConn (markConnected k c).1 = nextConn c) ∧
  (∀ k e, Forall noPublish (markDisconnected k e c).2 ∧ nextConn (markDisconnected k e c).1 = nextConn c) ∧
  (∀ e, Forall noPublish (shutdown e c).2 ∧ nextConn (shutdown e c).1 = nextConn c).
Proof.
  unfold sendSubscribe, endLocked, markConnected, markDisconnected, shutdown. split_and!; intros.
  - destruct f; simpl;
      unfold deliverResult, handleError, rejectStreamForCall, handleBinary, deliverResult;
      repeat (rewrite takePending_eq || case_match); simplify_eq/=; split; try done; nopubs.
  - repeat case_match; simpl; split; try done; nopubs.
  - repeat case_match; simpl; split; try done; nopubs.
  - repeat case_match; simpl; split; try done; nopubs.
  - repeat case_match; simpl; split; try done; nopubs.
  - repeat case_match; simpl; split; try done; nopubs.
Qed.

(** Only a new connection is published, once. *)
Lemma exec_publish ch t c o :
  exec ch t c = Some o →
  Forall (Forall noPublish) (o_spawn o) ∧
  ((Forall noPublish (o_next o) ∧ nextConn (o_client o) = nextConn c) ∨
   (t = Reconnect ∧ o_next o = [MarkConnected (nextConn c)] ∧ nextConn (o_client o) = S (nextConn c))).
Proof.
  intros He. destruct (small_nopub c) as (H0 & H1 & H2 & H3 & H4 & H5).
  destruct t; exec_inv He; (split; [nopubs|]); try (by left; split; [nopubs|]);
    try (left; by auto using releaseSubSlot_nopub).
  - left. split; [|done]. unfold resubscribe. case_match; nopubs.
  - left. split; [|done]. unfold ofSub, patchNext. repeat case_match; nopubs.
  - right. done.
  - left. split; [nopubs|]. by rewrite setState_frame.
Qed.

Lemma noPublish_cnt k ths : Forall (Forall noPublish) ths → cnt (isPublish k) ths = 0.
Proof. induction 1 as [|ts ths Hts _ IH]; simpl; [done|]. by rewrite noPublish_cntL. Qed.

Definition unused (k : nat) c ths : Prop := held k c ths = 0 ∧ conn c ≠ Some k.

Definition slotInv c ths : Prop :=
  (∀ k, nextConn c ≤ k → cnt (isPublish k) ths = 0 ∧ unused k c ths) ∧
  (∀ k, cnt (isPublish k) ths ≤ 1 ∧ (cnt (isPublish k) ths = 1 → unused k c ths)) ∧
  (∀ k, conn c = Some k →
     Z.of_nat (held k c ths) ≤ subInFlight c ≤ maxSubscribesInFlight ∧
     (subQueue c ≠ [] → maxSubscribesInFlight ≤ subInFlight c))%Z.

Lemma held_step k c ths i t rest o :
  ths !! i = Some (t :: rest) →
  let before := (Z.of_nat (awaitingSubs k c) + Z.of_nat (Nat.b2n (holdsSlot k t)))%Z in
  let after := (Z.of_nat (awaitingSubs k (o_client o)) + Z.of_nat (cntL (holdsSlot k) (o_next o)))%Z in
  cnt (holdsSlot k) (o_spawn o) = 0 →
  (Z.of_nat (held k (o_client o) (<[i := o_next o ++ rest]> ths ++ o_spawn o)) - Z.of_nat (held k c ths)
     = after - before)%Z.
Proof.
  intros Hi before after Hsp. pose proof (cnt_step (holdsSlot k) ths i t rest (o_next o) (o_spawn o) Hi) as Hc.
  unfold held, before, after. lia.
Qed.

(** A connection that is not published stays without slots. *)
Lemma unused_step k c ths i t rest ch o :
  ths !! i = Some (t :: rest) → exec ch t c = Some o → t ≠ MarkConnected k →
  unused k c ths → unused k (o_client o) (<[i := o_next o ++ rest]> ths ++ o_spawn o).
Proof.
  intros Hi He Hne [Hh Hc]. destruct (exec_slots k _ _ _ _ He Hne) as (Hsp & H1 & H2).
  pose proof (held_step k c ths i t rest o Hi Hsp) as Hs. specialize (H2 Hc). split; [lia|].
  intros Hk. by destruct (H1 Hk).
Qed.

Lemma publish_is t k : isPublish k t = true ↔ t = MarkConnected k.
Proof.
  split; [|intros ->; by apply bool_decide_true]. destruct t; try done. simpl. by intros ->%bool_decide_eq_true.
Qed.

(** The connection that [markConnected] publishes starts with every slot free. *)
Lemma published_slots k c ths i rest ch o :
  ths !! i = Some (MarkConnected k :: rest) → exec ch (MarkConnected k) c = Some o →
  held k c ths = 0 → conn c ≠ Some k → conn (o_client o) = Some k →
  (Z.of_nat (held k (o_client o) (<[i := o_next o ++ rest]> ths ++ o_spawn o))
     ≤ subInFlight (o_client o) ≤ maxSubscribesInFlight ∧
   (subQueue (o_client o) ≠ [] → maxSubscribesInFlight ≤ subInFlight (o_client o)))%Z.
Proof.
  intros Hi He Hh Hc Hk. exec_inv He. unfold markConnected in *. destruct (closed c); [done|].
  cbn [fst snd o_client o_next o_spawn] in *.
  pose proof (cnt_step (holdsSlot k) ths i _ rest
    (SetState StateConnected :: (SendSubscribe k <$> range_of (subs c)) ++ [Run k]) [] Hi) as Hst.
  cbn [cntL holdsSlot Nat.b2n cnt] in Hst. rewrite cntL_app, cntL_fmap in Hst by done. simpl in Hst.
  unfold held, awaitingSubs in *. simpl. split; [|done].
  cbn [app] in Hst |- *. unfold maxSubscribesInFlight. lia.
Qed.

Lemma slots_step c ths i t rest ch o :
  slotInv c ths → ths !! i = Some (t :: rest) → exec ch t c = Some o →
  slotInv (o_client o) (<[i := o_next o ++ rest]> ths ++ o_spawn o).
Proof.
  intros (H1 & H2 & H3) Hi He. destruct (exec_publish _ _ _ _ He) as [Hsp Hc].
  assert (Hst : ∀ k, cnt (isPublish k) (<[i := o_next o ++ rest]> ths ++ o_spawn o) + Nat.b2n (isPublish k t)
    = cnt (isPublish k) ths + cntL (isPublish k) (o_next o)).
  { intros k. pose proof (cnt_step (isPublish k) ths i t rest (o_next o) (o_spawn o) Hi) as Hs.
    rewrite (noPublish_cnt k (o_spawn o) Hsp) in Hs. lia. }
  assert (Hone : ∀ k, t = MarkConnected k → cnt (isPublish k) ths = 1).
  { intros k Hk. apply publish_is in Hk. pose proof (cnt_head _ ths i t rest Hi Hk). destruct (H2 k). lia. }
  assert (Hno : ∀ k, cnt (isPublish k) ths = 0 → t ≠ MarkConnected k).
  { intros k Hz ->. specialize (Hone k eq_refl). lia. }
  split_and!.
  - intros k Hk. assert (Hk' : nextConn c ≤ k ∧ cntL (isPublish k) (o_next o) = 0).
    { destruct Hc as [[Hn Hx]|(-> & Hn & Hx)]; rewrite Hx in Hk.
      - by rewrite noPublish_cntL.
      - split; [lia|]. rewrite Hn. simpl. rewrite bool_decide_false by lia. done. }
    destruct Hk' as [Hk' Hz]. destruct (H1 k Hk') as [Hk0 Hu]. specialize (Hst k). split; [lia|].
    eapply unused_step; eauto.
  - intros k. specialize (Hst k). destruct Hc as [[Hn _]|(-> & Hn & _)].
    + rewrite noPublish_cntL in Hst by done. destruct (H2 k) as [Hle Hu]. split; [lia|].
      intros E. destruct (isPublish k t) eqn:Et; simpl in Hst; [lia|].
      eapply unused_step; eauto; [|apply Hu; lia]. intros ->. by rewrite (proj2 (publish_is _ _) eq_refl) in Et.
    + rewrite Hn in Hst |- *. simpl in Hst |- *. destruct (decide (nextConn c = k)) as [<-|Hne].
      * rewrite bool_decide_true in Hst by done. destruct (H1 (nextConn c) ltac:(lia)) as [Hk0 Hu].
        simpl in Hst. split; [lia|]. intros _.
        pose proof (unused_step (nextConn c) _ _ _ _ _ _ _ Hi He ltac:(done) Hu) as Hx. by rewrite Hn in Hx.
      * rewrite bool_decide_false in Hst by done. destruct (H2 k) as [Hle Hu]. simpl in Hst. split; [lia|].
        intros E. pose proof (unused_step k _ _ _ _ _ _ _ Hi He ltac:(done) (Hu ltac:(lia))) as Hx. by rewrite Hn in Hx.
  - intros k Hk. destruct (isPublish k t) eqn:Et.
    + apply publish_is in Et as ->. destruct (H2 k) as [_ Hu]. destruct (Hu (Hone k eq_refl)) as [Hh Hcn].
      by eapply published_slots.
    + assert (Hne : t ≠ MarkConnected k) by (intros ->; by rewrite (proj2 (publish_is _ _) eq_refl) in Et).
      destruct (exec_slots k _ _ _ _ He Hne) as (Hs0 & Hx & _). destruct (Hx Hk) as (Hk' & Ha & Hb & Hq).
      destruct (H3 k Hk') as [[Hl Hr] Hqq]. pose proof (held_step k c ths i t rest o Hi Hs0) as Hs.
      specialize (Hb Hr). specialize (Hq Hqq). split_and!; try done; lia.
Qed.

Lemma slots_reachable w : reachable initial step w → slotInv (client w) (threads w).
Proof.
  apply world_invariant.
  - split_and!; intros; simpl; try done; lia.
  - intros c ths ts (H1 & H2 & H3) Ha.
    assert (Hh : ∀ k, held k c (ths ++ [ts]) = held k c ths ∧ cnt (isPublish k) (ths ++ [ts]) = cnt (isPublish k) ths).
    { intros k. unfold held. rewrite !cnt_app. destruct ts as [|[] []]; simpl in *; try done; lia. }
    unfold slotInv, unused. split_and!; intros k; destruct (Hh k) as [E1 E2]; rewrite ?E1, ?E2;
      [apply H1|apply H2|apply H3].
  - intros c ths i t rest ch o _ Hinv Hi He. by eapply slots_step.
Qed.

(** The subscribe slots of a connection: a subscription that waits for its first answer
    holds one, and so does every section that is about to take it or give it back, so the
    client never counts fewer slots than are taken; it never counts more than
    [maxSubscribesInFlight]; and it is work-conserving: a subscription is queued only while
    every slot is taken. *)
Theorem subscribe_slots (w : world T) (k : nat) :
  reachable initial step w → conn (client w) = Some k →
  (Z.of_nat (awaitingSubs k (client w)) + Z.of_nat (cnt (holdsSlot k) (threads w))
     ≤ subInFlight (client w) ≤ maxSubscribesInFlight)%Z ∧
  (subQueue (client w) ≠ [] → subInFlight (client w) = maxSubscribesInFlight).
Proof.
  intros Hr Hk. destruct (slots_reachable w Hr) as (_ & _ & H3). destruct (H3 k Hk) as [[Hh Hm] Hq].
  unfold held in Hh. split; [split; [|done]; rewrite <- Nat2Z.inj_add; done|]. intros Hne. specialize (Hq Hne). lia.
Qed.

End Slots.

Lemma subscribe_slots_witness :
  awaitingSubs 0 (client opened) = 1 ∧
  (Z.of_nat (awaitingSubs 0 (client opened)) + Z.of_nat (cnt (holdsSlot 0) (threads opened))
     ≤ subInFlight (client opened))%Z.
Proof.
  destruct (subscribe_slots opened 0 opened_reachable) as [[Hl _] _]; [by vm_compute|].
  split; [by vm_compute|exact Hl].
Defined.

End ClientSlots.
