(* ===== verification/ClientSubs.v ===== *)
(** * ClientSubs: the subscriptions of the Go client on the wire

    Whatever goroutines do, a subscription that is closed is unsubscribed at most once and
    never subscribed again, and one that is open is never forgotten on a live connection. *)

From S2P Require Import Prelude Protocol ClientParts ClientAuth Client ClientRun ClientFacts ClientConn ClientSlots.
From stdpp Require Import prelude gmap strings list pretty fin_maps fin_sets.

Module ClientSubs.
Import Client.Client ClientRun.ClientRun ClientFacts.ClientFacts ClientConn.ClientConn ClientSlots.ClientSlots.
Import Errors.

Section Subs.
  Context `{Env T}.
  Implicit Types (c : Client T) (t : task T) (ts : list (task T)) (ths : list (list (task T))).

(** ** Frames written and about to be written *)

Abbreviation logged := (nat * outFrame * sendOutcome)%type (only parsing).

Definition isUnsubFrame (id : string) (f : logged) : bool := bool_decide (f.1.2 = OUnsubscribe id).

Definition isSubFrame (id : string) (f : logged) : bool :=
  match f.1.2 with OSubscribe x _ => bool_decide (x = id) | _ => false end.

Fixpoint countFrames (P : logged → bool) (l : list logged) : nat :=
  match l with [] => 0 | f :: l => Nat.b2n (P f) + countFrames P l end.

Definition isEnd (id : string) t : bool := match t with EndLocked x => bool_decide (x = id) | _ => false end.

Definition isUnsub (id : string) t : bool :=
  match t with WireWrite _ f => bool_decide (f = OUnsubscribe id) | _ => false end.

Definition isWriteSub (id : string) t : bool :=
  match t with
  | WriteSubscribe _ x | WireWrite _ (OSubscribe x _) => bool_decide (x = id)
  | _ => false
  end.

(** Whether the object is closed. *)
Definition closedObj (id : string) c : nat :=
  match subObjs c !! id with Some s => Nat.b2n (Sub.closed s) | None => 0 end.

(** Unsubscribe frames on the wire, and those that are about to follow. *)
Definition unsubbed (id : string) c ths : nat := cnt (isUnsub id) ths + countFrames (isUnsubFrame id) (wire c).

Lemma countFrames_app P l1 l2 : countFrames P (l1 ++ l2) = countFrames P l1 + countFrames P l2.
Proof. induction l1; simpl; lia. Qed.

Lemma countFrames_in P l i f : l !! i = Some f → P f = true → 1 ≤ countFrames P l.
Proof.
  revert i. induction l as [|g l IH]; intros i Hi Hf; [done|]. destruct i; simplify_eq/=.
  - rewrite Hf. simpl. lia.
  - specialize (IH _ Hi Hf). lia.
Qed.

Lemma countFrames_two P l i j f g :
  l !! i = Some f → l !! j = Some g → P f = true → P g = true → countFrames P l ≤ 1 → i = j.
Proof.
  revert i j. induction l as [|x l IH]; intros i j Hi Hj Hf Hg Hle; [done|].
  destruct i, j; simplify_eq/=; [done| | |].
  - pose proof (countFrames_in P l _ _ Hj Hg). rewrite Hf in Hle. simpl in Hle. lia.
  - pose proof (countFrames_in P l _ _ Hi Hf). rewrite Hg in Hle. simpl in Hle. lia.
  - f_equal. eapply IH; eauto. lia.
Qed.

(** ** What a section does to the frames of [id] *)

(** A section that does not register [id]: what it prepares and writes is paid for by the
    section itself or by closing the object, an unsubscribe is prepared under the free mutex
    with the subscription out of the table, and a subscribe only while it is in. *)
Definition effect (id : string) t c (o : outcome) : Prop :=
  (cnt (isEnd id) (o_spawn o) = 0 ∧ cnt (isUnsub id) (o_spawn o) = 0 ∧ cnt (isWriteSub id) (o_spawn o) = 0) ∧
  (∃ l, wire (o_client o) = wire c ++ l ∧ length l ≤ 1 ∧
     cntL (isEnd id) (o_next o) + cntL (isUnsub id) (o_next o) + countFrames (isUnsubFrame id) l + closedObj id c
       ≤ closedObj id (o_client o) + Nat.b2n (isEnd id t) + Nat.b2n (isUnsub id t) ∧
     (cntL (isUnsub id) (o_next o) + countFrames (isUnsubFrame id) l ≤ Nat.b2n (isUnsub id t) ∨
      subMu c = false ∧ (id ∉ subs (o_client o)) ∧ l = [] ∧ cntL (isWriteSub id) (o_next o) = 0) ∧
     countFrames (isSubFrame id) l ≤ Nat.b2n (isWriteSub id t)) ∧
  (1 ≤ cntL (isWriteSub id) (o_next o) → id ∈ subs c) ∧
  (id ∉ subs c → id ∉ subs (o_client o)) ∧
  (subObjs c !! id = None → subObjs (o_client o) !! id = None).

Lemma closedObj_with id x f c :
  (∀ s, Sub.closed s = true → Sub.closed (f s) = true) → closedObj id c ≤ closedObj id (withSub x f c).
Proof.
  intros Hf. unfold closedObj, withSub. simpl. destruct (decide (x = id)) as [->|Hne].
  - rewrite lookup_alter_eq. destruct (subObjs c !! id) as [s|]; simpl; [|done].
    specialize (Hf s). destruct (Sub.closed s), (Sub.closed (f s)); simpl; lia.
  - by rewrite lookup_alter_ne.
Qed.

Lemma withSub_none id x f c : subObjs c !! id = None → subObjs (withSub x f c) !! id = None.
Proof. intros E. unfold withSub. simpl. by rewrite lookup_alter_None. Qed.

(** A section that writes nothing and prepares no frame of [id]. *)
Lemma effect_silent id t c c' ts :
  (id ∉ subs c → id ∉ subs c') → wire c' = wire c → closedObj id c ≤ closedObj id c' →
  (subObjs c !! id = None → subObjs c' !! id = None) →
  cntL (isEnd id) ts = 0 → cntL (isUnsub id) ts = 0 → (1 ≤ cntL (isWriteSub id) ts → id ∈ subs c) →
  effect id t c (Outcome c' ts []).
Proof.
  intros Hs Hw Hc Ho H1 H2 H3. unfold effect. cbn [o_client o_next o_spawn].
  split_and!; try done. exists []. rewrite Hw, app_nil_r. simpl. split_and!; [done|lia|lia|left; lia|lia].
Qed.

Lemma effect_with id t x f c ts :
  (∀ s, Sub.closed s = true → Sub.closed (f s) = true) →
  cntL (isEnd id) ts = 0 → cntL (isUnsub id) ts = 0 → cntL (isWriteSub id) ts = 0 →
  effect id t c (Outcome (withSub x f c) ts []).
Proof.
  intros Hf H1 H2 H3. apply effect_silent; try done; [|apply withSub_none|lia]. by apply closedObj_with.
Qed.

Lemma effect_plain id t c c' ts :
  subs c' ⊆ subs c → subObjs c' = subObjs c → wire c' = wire c →
  cntL (isEnd id) ts = 0 → cntL (isUnsub id) ts = 0 → cntL (isWriteSub id) ts = 0 →
  effect id t c (Outcome c' ts []).
Proof.
  intros Hs Ho Hw H1 H2 H3. apply effect_silent; try done; [set_solver| |by rewrite Ho|lia].
  unfold closedObj. by rewrite Ho.
Qed.

(** A section that writes one frame. *)
Lemma effect_write id t k f x c ts sp :
  Nat.b2n (isUnsubFrame id (k, f, x)) ≤ Nat.b2n (isUnsub id t) →
  Nat.b2n (isSubFrame id (k, f, x)) ≤ Nat.b2n (isWriteSub id t) →
  cnt (isEnd id) sp = 0 → cnt (isUnsub id) sp = 0 → cnt (isWriteSub id) sp = 0 →
  cntL (isEnd id) ts = 0 → cntL (isUnsub id) ts = 0 → cntL (isWriteSub id) ts = 0 →
  effect id t c (Outcome (write k f x c) ts sp).
Proof.
  intros H1 H2 H3 H4 H5 H6 H7 H8. unfold effect. cbn [o_client o_next o_spawn].
  split_and!; try done; [|lia]. exists [(k, f, x)]. cbn [countFrames length].
  assert (closedObj id (write k f x c) = closedObj id c) as -> by done.
  split_and!; [done|lia|lia|left; lia|lia].
Qed.

Lemma handleFrame_effect id k f c :
  effect id (HandleFrame k f) c (Outcome (handleFrame k f c).1 (handleFrame k f c).2 []).
Proof.
  destruct f; simpl;
    unfold deliverResult, handleError, rejectStreamForCall, handleBinary, deliverResult;
    repeat (rewrite takePending_eq || case_match); simplify_eq/=;
    apply effect_plain; rewrite ?cntL_fmap; reflexivity.
Qed.

Lemma markConnected_effect id k c :
  effect id (MarkConnected k) c (Outcome (markConnected k c).1 (markConnected k c).2 []).
Proof.
  unfold markConnected. destruct (closed c); [by apply effect_plain|].
  apply effect_plain; try done; cbn [fst snd cntL isEnd isUnsub isWriteSub Nat.b2n];
    by rewrite cntL_app, cntL_fmap.
Qed.

Lemma markDisconnected_effect id k e c :
  effect id (MarkDisconnected k e) c (Outcome (markDisconnected k e c).1 (markDisconnected k e c).2 []).
Proof.
  unfold markDisconnected. case_bool_decide; [by apply effect_plain|].
  apply effect_plain; try done; simpl; by rewrite !cntL_app, !cntL_fmap.
Qed.

Lemma shutdown_effect id e c : effect id (Shutdown e) c (Outcome (shutdown e c).1 (shutdown e c).2 []).
Proof.
  unfold shutdown. destruct (closed c); [by apply effect_plain|].
  apply effect_plain; try done; simpl; rewrite !cntL_app, !cntL_fmap by done; by case_match.
Qed.

Lemma sendSubscribe_effect id k x c :
  effect id (SendSubscribe k x) c (Outcome (sendSubscribe k x c).1 (sendSubscribe k x c).2 []).
Proof.
  unfold sendSubscribe. destruct (negb _) eqn:E; [by apply effect_plain|].
  apply negb_false_iff, andb_true_iff in E as [Hin%bool_decide_eq_true _].
  case_bool_decide; [by apply effect_plain|].
  apply effect_silent; try done. simpl. case_bool_decide; subst; simpl; [done|lia].
Qed.

Lemma cntL_writeSubs id k (next : list string) :
  cntL (isEnd id) (concat ((λ s, [WriteMark k s; WriteSubscribe k s]) <$> next)) = 0 ∧
  cntL (isUnsub id) (concat ((λ s, [WriteMark k s; WriteSubscribe k s]) <$> next)) = 0 ∧
  (1 ≤ cntL (isWriteSub id) (concat ((λ s, [WriteMark k s; WriteSubscribe k s]) <$> next)) ↔ id ∈ next).
Proof.
  induction next as [|x next (IH1 & IH2 & IH3)]; [split_and!; try done; simpl; split; [lia|by intros ?%not_elem_of_nil]|].
  rewrite fmap_cons, concat_cons, !cntL_app, elem_of_cons. simpl. split_and!; [lia|lia|].
  case_bool_decide as E; simpl; [split; [by left|lia]|].
  rewrite IH3. split; [by right|]. intros [->|]; [done|done].
Qed.

Lemma releaseSubSlot_effect id k c :
  effect id (ReleaseSubSlot k) c (Outcome (releaseSubSlot k c).1 (releaseSubSlot k c).2 []).
Proof.
  unfold releaseSubSlot. case_bool_decide as E; [by apply effect_plain|].
  destruct (dequeue _ _ _) as [[n q] next] eqn:Ed.
  apply dequeue_spec in Ed as (_ & _ & _ & Hin & _). destruct (cntL_writeSubs id k next) as (H1 & H2 & H3).
  apply effect_silent; try done; cbn [fst snd]; rewrite cntL_app, ?H1, ?H2; simpl; [done|done|].
  rewrite Nat.add_0_r. intros Hw. by apply Hin, H3.
Qed.

Lemma endLocked_effect id x c :
  subMu c = false → effect id (EndLocked x) c (Outcome (endLocked x c).1 (endLocked x c).2 []).
Proof.
  intros Hm. unfold endLocked. simpl. destruct (conn c) as [k|]; simpl.
  - unfold effect, closedObj. simpl. split_and!; try done; [|lia|set_solver].
    exists []. rewrite app_nil_r. simpl. split_and!; try done; [lia| |].
    + destruct (decide (x = id)) as [->|Hne]; [rewrite !bool_decide_true by done; simpl; lia|].
      rewrite !bool_decide_false by congruence. simpl. lia.
    + destruct (decide (x = id)) as [->|Hne]; [right; split_and!; try done; set_solver|].
      left. rewrite bool_decide_false by congruence. done.
  - apply effect_plain; try done. simpl. set_solver.
Qed.

Lemma endSub_effect id x e c :
  effect id (EndSub x e) c
    (Outcome (withSub x (λ s, fst (Sub.closeWith zero e s)) c)
       (if ofSub x (λ s, snd (Sub.closeWith zero e s)) false c then [EndLocked x] else []) []).
Proof.
  assert (Hf : ∀ s : Sub.Subscription T, Sub.closed s = true → Sub.closed (fst (Sub.closeWith zero e s)) = true).
  { intros s Hs. unfold Sub.closeWith. by rewrite Hs. }
  destruct (decide (x = id)) as [->|Hne].
  - unfold effect, ofSub, closedObj, withSub. simpl. rewrite lookup_alter_eq.
    destruct (subObjs c !! id) as [s|] eqn:E; simpl.
    + unfold Sub.closeWith. destruct (Sub.closed s) eqn:Ec; simpl;
        (split_and!; try done; [|lia]; exists []; rewrite app_nil_r; simpl;
         rewrite ?Ec, ?bool_decide_true by done; simpl; split_and!; try done; lia || left; lia).
    + split_and!; try done; [|lia]. exists []. rewrite app_nil_r. simpl. split_and!; try done; lia || left; lia.
  - destruct (ofSub x _ false c); apply effect_with; try done. simpl.
    by rewrite bool_decide_false.
Qed.

Lemma exec_effect id ch t c o : exec ch t c = Some o → isReg id t = false → effect id t c o.
Proof.
  intros He Hr. destruct t; try (exec_inv He; fail).
  all: first [solve [exec_inv He;
    first [apply effect_plain; reflexivity
          |apply effect_with; [by intros []|reflexivity..]
          |apply effect_write; reflexivity
          |apply sendSubscribe_effect|apply releaseSubSlot_effect|by apply endLocked_effect|apply handleFrame_effect
          |apply markDisconnected_effect|apply shutdown_effect|apply markConnected_effect]] | idtac].
  - exec_inv He; simpl in Hr; apply bool_decide_eq_false in Hr; apply effect_silent; try done;
      unfold closedObj; simpl; rewrite ?lookup_insert_ne by done; solve [done|lia|set_solver].
  - exec_inv He.
    + apply andb_true_iff in E0 as [Hin%bool_decide_eq_true _]. apply effect_silent; try done. simpl.
      case_bool_decide; subst; simpl; [done|lia].
    + by apply effect_plain.
  - exec_inv He. apply effect_plain; try done; unfold resubscribe; by case_match.
  - cbv [exec execEnd goOn] in He. injection He as <-. apply endSub_effect.
  - assert (Hf : ∀ s : Sub.Subscription T, Sub.closed s = true →
      Sub.closed (fst (Sub.deliver zero ofBlob unmarshalWire p s)) = true).
    { intros s Hs. unfold Sub.deliver, Sub.publishLocked. rewrite Hs. by case_match. }
    exec_inv He; by apply effect_with.
  - exec_inv He. apply effect_plain; try done; unfold ofSub, patchNext; by repeat case_match.
  - exec_inv He. apply effect_with; try done. intros s Hs. unfold Sub.patchFinish, Sub.publishLocked.
    rewrite Hs. by case_match.
  - exec_inv He. rewrite setState_frame. by apply effect_plain.
Qed.

(** ** A closed subscription stays closed *)

Definition finalInv (id : string) c ths : Prop :=
  cnt (isEnd id) ths + unsubbed id c ths ≤ closedObj id c ∧
  (1 ≤ unsubbed id c ths → (id ∉ subs c) ∧ cnt (isWriteSub id) ths = 0) ∧
  (∀ i j f g, wire c !! i = Some f → wire c !! j = Some g →
     isUnsubFrame id f = true → isSubFrame id g = true → j < i).

(** Freshness: the object of an identifier that is not registered yet does not exist. *)
Lemma no_object_yet c ths i t rest id :
  reachable initial step (World c ths) → ths !! i = Some (t :: rest) → isReg id t = true →
  subObjs c !! id = None.
Proof.
  apply (fresh_register (λ id c _, subObjs c !! id = None)); [done|done|].
  intros id' c' ths' i' t' rest' ch' o' Hn _ He Hr.
  by destruct (exec_effect id' _ _ _ _ He Hr) as (_ & _ & _ & _ & Ho); apply Ho.
Qed.

(** A registration writes nothing, and keeps the object of every other identifier. *)
Lemma register_frames id ch t c o :
  exec ch t c = Some o → isReg id t = true →
  o_spawn o = [] ∧ wire (o_client o) = wire c ∧ cntL (isEnd id) (o_next o) = 0 ∧
  cntL (isUnsub id) (o_next o) = 0 ∧ cntL (isWriteSub id) (o_next o) = 0.
Proof. intros He Hr. destruct t; try discriminate Hr; exec_inv He; done. Qed.

Lemma order_snoc id (l : list logged) f :
  (∀ i j f g, l !! i = Some f → l !! j = Some g → isUnsubFrame id f = true → isSubFrame id g = true → j < i) →
  (isSubFrame id f = true → countFrames (isUnsubFrame id) l = 0) →
  ∀ i j f' g, (l ++ [f]) !! i = Some f' → (l ++ [f]) !! j = Some g →
    isUnsubFrame id f' = true → isSubFrame id g = true → j < i.
Proof.
  intros Hl Hf i j f' g Hi Hj Hu Hs.
  apply lookup_app_Some in Hi as [Hi|[Hgi Hi]]; apply lookup_app_Some in Hj as [Hj|[Hgj Hj]].
  - by eapply Hl.
  - apply list_lookup_singleton_Some in Hj as [Hj0 <-]. pose proof (countFrames_in _ _ _ _ Hi Hu).
    specialize (Hf Hs). lia.
  - apply lookup_lt_Some in Hj. lia.
  - apply list_lookup_singleton_Some in Hi as [_ <-]. apply list_lookup_singleton_Some in Hj as [_ <-].
    unfold isUnsubFrame, isSubFrame in *. apply bool_decide_eq_true in Hu. by rewrite Hu in Hs.
Qed.

Lemma writes_are_critical id ths : cnt (isWriteSub id) ths ≤ cnt isCrit ths.
Proof.
  induction ths as [|ts ths IH]; simpl; [done|]. assert (cntL (isWriteSub id) ts ≤ cntL isCrit ts); [|lia].
  clear IH. induction ts as [|t ts IH]; simpl; [done|].
  assert (Nat.b2n (isWriteSub id t) ≤ Nat.b2n (isCrit t)); [|lia].
  destruct t; simpl; try lia; [|destruct f; simpl; try lia]; case_bool_decide; simpl; lia.
Qed.

Lemma final_step id c ths i t rest ch o :
  reachable initial step (World c ths) → finalInv id c ths →
  ths !! i = Some (t :: rest) → exec ch t c = Some o →
  finalInv id (o_client o) (<[i := o_next o ++ rest]> ths ++ o_spawn o).
Proof.
  intros Hr (H1 & H2 & H3) Hi He.
  pose proof (cnt_step (isEnd id) ths i t rest (o_next o) (o_spawn o) Hi) as C1.
  pose proof (cnt_step (isUnsub id) ths i t rest (o_next o) (o_spawn o) Hi) as C2.
  pose proof (cnt_step (isWriteSub id) ths i t rest (o_next o) (o_spawn o) Hi) as C3.
  unfold finalInv, unsubbed in *. destruct (isReg id t) eqn:Et.
  - destruct (register_frames _ _ _ _ _ He Et) as (Hsp & Hw & N1 & N2 & N3).
    pose proof (no_object_yet _ _ _ _ _ _ Hr Hi Et) as Hn. unfold closedObj in H1. rewrite Hn in H1.
    rewrite Hsp in *. rewrite Hw. simpl in C1, C2, C3. split_and!; [lia|lia|done].
  - destruct (exec_effect id _ _ _ _ He Et) as ((S1 & S2 & S3) & (l & Hw & Hlen & Hacc & Hun & Hsub) & Hws & Hin & _).
    rewrite Hw, countFrames_app. split_and!; [lia| |].
    + intros Hge. destruct (decide (1 ≤ cnt (isUnsub id) ths + countFrames (isUnsubFrame id) (wire c))) as [Hold|Hold].
      * destruct (H2 Hold) as [Hni Hz]. split; [by apply Hin|].
        destruct (decide (1 ≤ cntL (isWriteSub id) (o_next o))) as [Hge'|]; [by specialize (Hws Hge')|lia].
      * destruct Hun as [Hun|(Hm & Hni & -> & Hz)].
        -- destruct (isUnsub id t) eqn:Eu; simpl in *; [|lia].
           pose proof (cnt_head (isUnsub id) ths i t rest Hi Eu). lia.
        -- split; [done|]. pose proof (mutex_free c ths (mutex_reachable _ Hr) Hm) as Hc.
           pose proof (writes_are_critical id ths). lia.
    + destruct l as [|f [|]]; simpl in Hlen; [by rewrite app_nil_r| |lia].
      apply order_snoc; [done|]. intros Hs. simpl in Hsub. rewrite Hs in Hsub.
      destruct (isWriteSub id t) eqn:Ew; [|simpl in Hsub; lia].
      pose proof (cnt_head (isWriteSub id) ths i t rest Hi Ew). lia.
Qed.

Lemma final_reachable id w : reachable initial step w → finalInv id (client w) (threads w).
Proof.
  apply world_invariant.
  - split_and!; [done|unfold unsubbed; simpl; lia|done].
  - intros c ths ts (H1 & H2 & H3) Ha. unfold finalInv, unsubbed in *. rewrite !cnt_app.
    assert (cnt (isEnd id) [ts] = 0 ∧ cnt (isUnsub id) [ts] = 0 ∧ cnt (isWriteSub id) [ts] = 0) as (-> & -> & ->).
    { destruct ts as [|[] []]; simpl in *; done. }
    rewrite !Nat.add_0_r. done.
  - intros c ths i t rest ch o Hr Hinv Hi He. by eapply final_step.
Qed.

(** C22: a subscription that the program closed is final on the wire: over all connections
    the client writes at most one unsubscribe frame for its identifier, and no subscribe
    frame for it comes after that one, whatever reconnects, resubscribes, queued sends and
    concurrent answers there are; and from then on the identifier is not in the client's
    table. *)
Theorem unsubscribe_is_final (w : world T) (id : string) (i : nat) (f : logged) :
  reachable initial step w → wire (client w) !! i = Some f → isUnsubFrame id f = true →
  (∀ j g, wire (client w) !! j = Some g → isUnsubFrame id g = true → j = i) ∧
  (∀ j g, wire (client w) !! j = Some g → isSubFrame id g = true → j < i) ∧
  (id ∉ subs (client w)).
Proof.
  intros Hr Hi Hf. destruct (final_reachable id w Hr) as (H1 & H2 & H3). unfold unsubbed in *.
  pose proof (countFrames_in _ _ _ _ Hi Hf). assert (closedObj id (client w) ≤ 1).
  { unfold closedObj. case_match; [|lia]. destruct (Sub.closed _); simpl; lia. }
  split_and!.
  - intros j g Hj Hg. eapply countFrames_two; eauto. lia.
  - intros j g Hj Hg. by eapply H3.
  - apply H2. lia.
Qed.

(** ** An open subscription is not forgotten *)

Definition onWay (k : nat) (id : string) t : bool :=
  match t with
  | SendSubscribe k' x | WriteSubscribe k' x => bool_decide (k' = k) && bool_decide (x = id)
  | _ => false
  end.

Definition isSubOn (k : nat) (id : string) (f : logged) : bool := bool_decide (f.1.1 = k) && isSubFrame id f.

(** The subscription was subscribed on [k], or is queued for a slot, or some goroutine is
    about to send it. *)
Definition covered (k : nat) (id : string) c ths : Prop :=
  1 ≤ countFrames (isSubOn k id) (wire c) ∨ (id ∈ subQueue c) ∨ 1 ≤ cnt (onWay k id) ths.

(** A section keeps the open subscription where it was, or sends it on. *)
Definition keeps (k : nat) (id : string) t c (o : outcome) : Prop :=
  (id ∈ subs (o_client o)) → conn (o_client o) = Some k →
  1 ≤ cntL (onWay k id) (o_next o) ∨
  ((id ∈ subs c) ∧ conn c = Some k ∧
   (id ∈ subQueue c → id ∈ subQueue (o_client o)) ∧
   (onWay k id t = true → (id ∈ subQueue (o_client o)) ∨
      1 ≤ countFrames (isSubOn k id) (wire (o_client o))) ∧
   countFrames (isSubOn k id) (wire c) ≤ countFrames (isSubOn k id) (wire (o_client o))).

Lemma keeps_plain k id t c c' ts sp :
  subs c' ⊆ subs c → conn c' = conn c → subQueue c' = subQueue c →
  (∃ l, wire c' = wire c ++ l) → onWay k id t = false →
  keeps k id t c (Outcome c' ts sp).
Proof.
  intros Hs Hc Hq [l Hw] Ht Hin Hk. right. cbn [o_client] in *. rewrite Hw, countFrames_app, Hq, Ht.
  split_and!; [set_solver|congruence|done|done|lia].
Qed.

Lemma keeps_without k id t c c' ts : conn c' ≠ Some k → keeps k id t c (Outcome c' ts []).
Proof. intros Hn _ Hk. by simpl in Hk. Qed.

Lemma cntL_in P ts t : t ∈ ts → P t = true → 1 ≤ cntL P ts.
Proof.
  induction ts as [|u ts IH]; [by intros ?%not_elem_of_nil|]. intros [->|Hin]%elem_of_cons Ht; simpl.
  - rewrite Ht. simpl. lia.
  - specialize (IH Hin Ht). lia.
Qed.

Lemma sendSubscribe_keeps k id k' x c :
  keeps k id (SendSubscribe k' x) c (Outcome (sendSubscribe k' x c).1 (sendSubscribe k' x c).2 []).
Proof.
  unfold sendSubscribe. destruct (negb _) eqn:E.
  - intros Hin Hk. right. simpl in *. split_and!; try done. intros [->%bool_decide_eq_true ->%bool_decide_eq_true]%andb_true_iff.
    by rewrite !bool_decide_true in E.
  - apply negb_false_iff in E. destruct (bool_decide (maxSubscribesInFlight ≤ _)%Z); intros Hin Hk; simpl in *;
      apply andb_true_iff in E as [_ E%bool_decide_eq_true].
    + right. rewrite elem_of_app, elem_of_cons. split_and!; try done; [by left|].
      intros [_ ->%bool_decide_eq_true]%andb_true_iff. left. right. by left.
    + destruct (bool_decide (k' = k) && bool_decide (x = id)) eqn:Ex; [left; simpl; lia|].
      right. by split_and!.
Qed.

Lemma releaseSubSlot_keeps k id k' c :
  keeps k id (ReleaseSubSlot k') c (Outcome (releaseSubSlot k' c).1 (releaseSubSlot k' c).2 []).
Proof.
  unfold releaseSubSlot. case_bool_decide as E; [by apply keeps_plain; [..|exists []; rewrite app_nil_r|]|].
  destruct (dequeue _ _ _) as [[n q] next] eqn:Ed. apply dequeue_spec in Ed as (_ & _ & _ & _ & Hq).
  intros Hin Hk. cbn [fst snd o_client o_next] in *. simpl in Hin, Hk.
  destruct (decide (id ∈ next)) as [Hn|Hn].
  - left. rewrite cntL_app. assert (k' = k) as -> by congruence.
    assert (1 ≤ cntL (onWay k id) (concat ((λ s, [WriteMark k s; WriteSubscribe k s]) <$> next))); [|lia].
    apply cntL_in with (WriteSubscribe k id); [|by simpl; rewrite !bool_decide_true by done].
    apply list_elem_of_In, in_concat. exists [WriteMark k id; WriteSubscribe k id]. split; [|simpl; auto].
    apply list_elem_of_In, list_elem_of_fmap. eauto.
  - right. simpl. split_and!; try done. intros Hi. by destruct (Hq id Hin Hi).
Qed.

Lemma endLocked_keeps k id x c :
  keeps k id (EndLocked x) c (Outcome (endLocked x c).1 (endLocked x c).2 []).
Proof.
  unfold endLocked. simpl. destruct (conn c) eqn:E; [|by apply keeps_without; simpl; rewrite E].
  intros Hin Hk. right. simpl in *. split_and!; try done; [set_solver|].
  apply removeFirst_keeps. set_solver.
Qed.

Lemma markConnected_keeps k id k' c :
  keeps k id (MarkConnected k') c (Outcome (markConnected k' c).1 (markConnected k' c).2 []).
Proof.
  unfold markConnected. destruct (closed c); [by apply keeps_plain; [..|exists []; rewrite app_nil_r|]|].
  intros Hin Hk. left. cbn [o_client o_next fst snd] in *. simpl in Hin, Hk. simplify_eq/=.
  rewrite cntL_app. assert (1 ≤ cntL (onWay k id) (SendSubscribe k <$> range_of (subs c))); [|simpl; lia].
  apply cntL_in with (SendSubscribe k id); [|by simpl; rewrite !bool_decide_true by done].
  apply list_elem_of_fmap. exists id. split; [done|]. by apply elem_of_range_of.
Qed.

Lemma exec_keeps k id ch t c o : exec ch t c = Some o → keeps k id t c o.
Proof.
  intros He. destruct t; try (exec_inv He; fail).
  all: first [solve [exec_inv He;
    first [apply keeps_plain; [done|done|done|by exists []; rewrite app_nil_r|done]
          |apply keeps_plain; [done|done|done|by eexists|done]
          |apply sendSubscribe_keeps|apply releaseSubSlot_keeps|apply endLocked_keeps
          |apply markConnected_keeps]] | idtac].
  - exec_inv He; [by apply keeps_plain; [..|exists []; rewrite app_nil_r|]| |by apply keeps_without; simpl; congruence].
    intros Hin Hk. simpl in *. assert (n = k) as -> by congruence.
    rewrite (bool_decide_true (k = k)) by done. simpl. destruct (decide (id0 = id)) as [->|Hne].
    + left. rewrite bool_decide_true by done. simpl. lia.
    + right. split_and!; try done. set_solver.
  - exec_inv He; (intros Hin Hk; right; simpl in *; split_and!; try done; rewrite countFrames_app; simpl;
      [|lia]; intros [->%bool_decide_eq_true ->%bool_decide_eq_true]%andb_true_iff; right;
      unfold isSubOn, isSubFrame; simpl; rewrite !bool_decide_true by done; simpl; lia).
  - exec_inv He. apply keeps_plain; [..|done]; destruct f; simpl;
      unfold deliverResult, handleError, rejectStreamForCall, handleBinary, deliverResult;
      repeat (rewrite takePending_eq || case_match); simplify_eq/=; try done;
      by exists []; rewrite app_nil_r.
  - exec_inv He. unfold markDisconnected. case_bool_decide.
    + by apply keeps_plain; [..|exists []; rewrite app_nil_r|].
    + by apply keeps_without.
  - exec_inv He. rewrite setState_frame. by apply keeps_plain; [..|exists []; rewrite app_nil_r|].
  - exec_inv He. unfold shutdown. destruct (closed c).
    + by apply keeps_plain; [..|exists []; rewrite app_nil_r|].
    + by apply keeps_without.
Qed.

Lemma frame_written P l : 1 ≤ countFrames P l → ∃ i f, l !! i = Some f ∧ P f = true.
Proof.
  induction l as [|f l IH]; simpl; [lia|]. intros Hc. destruct (P f) eqn:E; [by exists 0, f|].
  simpl in Hc. destruct (IH Hc) as (i & g & Hi & Hg). by exists (S i), g.
Qed.

Lemma cnt_in P ths : 1 ≤ cnt P ths → ∃ ts, ts ∈ ths ∧ ∃ t, t ∈ ts ∧ P t = true.
Proof.
  induction ths as [|ts ths IH]; simpl; [lia|]. intros Hc. destruct (cntL P ts) as [|n] eqn:E.
  - destruct (IH Hc) as (ts' & Hts & Ht). exists ts'. split; [by right|done].
  - exists ts. split; [by left|]. clear IH Hc. revert n E. induction ts as [|t ts IH]; intros n E; [done|].
    simpl in E. destruct (P t) eqn:Et; [exists t; split; [by left|done]|].
    destruct (IH _ E) as (t' & Hin & Ht'). exists t'. split; [by right|done].
Qed.

Lemma covered_reachable w :
  reachable initial step w →
  ∀ k id, id ∈ subs (client w) → conn (client w) = Some k → covered k id (client w) (threads w).
Proof.
  apply (world_invariant (λ c ths, ∀ k id, id ∈ subs c → conn c = Some k → covered k id c ths)).
  - done.
  - intros c ths ts Hi _ k id Hin Hk. unfold covered. rewrite cnt_app.
    destruct (Hi k id Hin Hk) as [|[|]]; [by left|by right; left|right; right; lia].
  - intros c ths i t rest ch o _ Hinv Hi He k id Hin Hk. unfold covered.
    pose proof (cnt_step (onWay k id) ths i t rest (o_next o) (o_spawn o) Hi) as C.
    destruct (exec_keeps k id _ _ _ _ He Hin Hk) as [Hn|(Hin0 & Hk0 & Hq & Ht & Hw)].
    + right. right. destruct (onWay k id t) eqn:E; simpl in C; [|lia].
      pose proof (cnt_head _ _ _ _ _ Hi E). lia.
    + destruct (onWay k id t) eqn:E; [destruct (Ht eq_refl); [by right; left|by left]|].
      simpl in C. destruct (Hinv k id Hin0 Hk0) as [|[|]]; [left; lia|right; left; auto|right; right; lia].
Qed.

(** ** A subscription whose frame is refused is ended *)

Definition isFail (id : string) t : bool := match t with EndSub x _ => bool_decide (x = id) | _ => false end.

Definition isRefused (id : string) (f : logged) : bool := isSubFrame id f && bool_decide (f.2 = SendTooLarge).

(** What a section does to the end of [id]: an object that exists stays, and stays closed;
    the goroutine that closes it goes on to take it out of the table; a refused frame is
    followed by a goroutine that closes the object. *)
Definition ends (id : string) t c (o : outcome) : Prop :=
  (is_Some (subObjs c !! id) → is_Some (subObjs (o_client o) !! id) ∧ closedObj id c ≤ closedObj id (o_client o)) ∧
  closedObj id (o_client o) ≤ closedObj id c + cntL (isEnd id) (o_next o) ∧
  (isEnd id t = true → id ∉ subs (o_client o)) ∧
  (isFail id t = true → is_Some (subObjs c !! id) → closedObj id (o_client o) = 1) ∧
  (∃ l, wire (o_client o) = wire c ++ l ∧ countFrames (isRefused id) l ≤ cnt (isFail id) (o_spawn o)).

Lemma ends_same id t c c' ts sp :
  subObjs c' = subObjs c → (∃ l, wire c' = wire c ++ l ∧ countFrames (isRefused id) l ≤ cnt (isFail id) sp) →
  isEnd id t = false → isFail id t = false → ends id t c (Outcome c' ts sp).
Proof.
  intros Ho Hw H1 H2. unfold ends, closedObj. cbn [o_client o_next o_spawn]. rewrite Ho, H1, H2.
  split_and!; try done. lia.
Qed.

Lemma ends_with id x f t c ts :
  (∀ s, Sub.closed (f s) = Sub.closed s) → isEnd id t = false → isFail id t = false →
  ends id t c (Outcome (withSub x f c) ts []).
Proof.
  intros Hf H1 H2. unfold ends. cbn [o_client o_next o_spawn]. rewrite H1, H2.
  assert (Hc : closedObj id (withSub x f c) = closedObj id c).
  { unfold closedObj, withSub. simpl. destruct (decide (x = id)) as [->|Hne]; [|by rewrite lookup_alter_ne].
    rewrite lookup_alter_eq. destruct (subObjs c !! id) as [s|]; simpl; [by rewrite Hf|done]. }
  rewrite Hc. split_and!; try done; [|lia|exists []; by rewrite app_nil_r].
  intros Hs. split; [|done]. unfold withSub. simpl. destruct (decide (x = id)) as [->|Hne];
    [rewrite lookup_alter_eq; by apply fmap_is_Some|by rewrite lookup_alter_ne].
Qed.

Lemma endSub_ends id x e c :
  ends id (EndSub x e) c
    (Outcome (withSub x (λ s, fst (Sub.closeWith zero e s)) c)
       (if ofSub x (λ s, snd (Sub.closeWith zero e s)) false c then [EndLocked x] else []) []).
Proof.
  unfold ends, closedObj, withSub, ofSub. cbn [o_client o_next o_spawn isEnd isFail]. simpl.
  destruct (decide (x = id)) as [->|Hne].
  - rewrite lookup_alter_eq, bool_decide_true by done.
    destruct (subObjs c !! id) as [s|]; simpl;
      [|split_and!; try done; try (by intros []); try (by intros _ []); exists []; by rewrite app_nil_r].
    unfold Sub.closeWith. destruct (Sub.closed s) eqn:E; simpl; rewrite ?E, ?bool_decide_true by done; simpl;
      split_and!; try done; try lia; try (intros _; split; [by eexists|lia]); exists []; by rewrite app_nil_r.
  - rewrite lookup_alter_ne by done. rewrite bool_decide_false by done.
    split_and!; try done; [lia|exists []; by rewrite app_nil_r].
Qed.

(** A subscribe frame is written by [writeSubscribe] only. *)
Definition isRaw t : bool := match t with WireWrite _ (OSubscribe _ _) => true | _ => false end.

Definition noRaw t : Prop := isRaw t = false.

Ltac noraws := repeat first [apply Forall_nil_2 | apply Forall_cons_2 | apply Forall_app_2
  | apply Forall_fmap, Forall_true; intros | reflexivity].

Lemma exec_noRaw ch t c o :
  exec ch t c = Some o → Forall noRaw (o_next o) ∧ Forall (Forall noRaw) (o_spawn o).
Proof.
  intros He.
  destruct t; exec_inv He; (split; [|noraws]); try solve [noraws];
    unfold handleFrame, deliverResult, handleError, rejectStreamForCall, handleBinary, deliverResult,
      sendSubscribe, endLocked, markConnected, markDisconnected, shutdown, resubscribe, ofSub, patchNext, releaseSubSlot;
    repeat (rewrite takePending_eq || case_match); simplify_eq/=; noraws.
  apply Forall_concat. noraws.
Qed.

Lemma noRaw_cnt ths : Forall (Forall noRaw) ths → cnt isRaw ths = 0.
Proof.
  induction 1 as [|ts ths Hts _ IH]; simpl; [done|]. rewrite IH, Nat.add_0_r. apply cntL_false.
  by apply Forall_forall.
Qed.

Lemma exec_ends id ch t c o :
  exec ch t c = Some o → isReg id t = false → isRaw t = false → ends id t c o.
Proof.
  intros He Hr Hw. destruct t; try (exec_inv He; fail).
  all: first [solve [exec_inv He;
    first [apply ends_same; [reflexivity|by exists []; rewrite app_nil_r|reflexivity|reflexivity]
          |apply ends_same; [reflexivity|by eexists|reflexivity|reflexivity]
          |apply ends_with; [by intros []|reflexivity..]]] | idtac].
  - exec_inv He; simpl in Hr; apply bool_decide_eq_false in Hr; unfold ends, closedObj;
      cbn [o_client o_next o_spawn]; simpl; rewrite !lookup_insert_ne by done;
      (split_and!; try done; [lia|by exists []; rewrite app_nil_r]).
  - exec_inv He. unfold sendSubscribe. repeat case_match; apply ends_same; try done; by exists []; rewrite app_nil_r.
  - exec_inv He; apply ends_same; try done; (eexists; split; [reflexivity|]).
    + unfold isRefused, isSubFrame. simpl. apply bool_decide_eq_true in E. rewrite E.
      repeat case_bool_decide; simpl; congruence || lia.
    + unfold isRefused. simpl. rewrite E, andb_false_r. simpl. lia.
  - exec_inv He. unfold releaseSubSlot. case_match; [by apply ends_same; [|exists []; rewrite app_nil_r|..]|].
    destruct (dequeue _ _ _) as [[]]. by apply ends_same; [|exists []; rewrite app_nil_r|..].
  - cbv [exec execEnd goOn] in He. injection He as <-. apply endSub_ends.
  - exec_inv He. unfold ends, closedObj, endLocked. simpl. split_and!; try done;
      try (by destruct (conn c); simpl; exists []; rewrite app_nil_r); destruct (conn c); simpl; try done; try lia;
      intros ->%bool_decide_eq_true; set_solver.
  - exec_inv He; (apply ends_with; [|done|done]); intros s; unfold Sub.deliver, Sub.publishLocked; by repeat case_match.
  - exec_inv He. apply ends_with; try done. intros s. unfold Sub.patchFinish, Sub.publishLocked. by repeat case_match.
  - exec_inv He. apply ends_same; try done; destruct f; simpl;
      unfold deliverResult, handleError, rejectStreamForCall, handleBinary, deliverResult;
      repeat (rewrite takePending_eq || case_match); simplify_eq/=; try done; by exists []; rewrite app_nil_r.
  - exec_inv He. unfold markDisconnected. case_match; by apply ends_same; [|exists []; rewrite app_nil_r|..].
  - exec_inv He. unfold markConnected. case_match; by apply ends_same; [|exists []; rewrite app_nil_r|..].
  - exec_inv He. rewrite setState_frame. by apply ends_same; [|exists []; rewrite app_nil_r|..].
  - exec_inv He. unfold shutdown. case_match; by apply ends_same; [|exists []; rewrite app_nil_r|..].
  - exec_inv He. apply ends_same; try done. eexists. split; [reflexivity|]. destruct f; try done.
Qed.

(** Nothing of [id] is written before it is registered. *)
Lemma no_frames_yet c ths i t rest id :
  reachable initial step (World c ths) → ths !! i = Some (t :: rest) → isReg id t = true →
  (id ∉ subs c) ∧ countFrames (isSubFrame id) (wire c) = 0.
Proof.
  intros Hr Hi Ht.
  destruct (fresh_register (λ id c ths, (id ∉ subs c) ∧ countFrames (isSubFrame id) (wire c) = 0 ∧
    cnt (isWriteSub id) ths = 0)) with (c := c) (ths := ths) (i := i) (t := t) (rest := rest) (id := id)
    as (H1 & H2 & _); [done| | |done..|done].
  - intros x c' ths' ts (H1 & H2 & H3) Ha. split_and!; try done. rewrite cnt_app, H3.
    by destruct ts as [|[] []].
  - intros x c' ths' i' t' rest' ch o (H1 & H2 & H3) Hi' He Hr'.
    destruct (exec_effect x _ _ _ _ He Hr') as ((_ & _ & S3) & (l & Hw & _ & _ & _ & Hsub) & Hws & Hin & _).
    pose proof (cnt_step (isWriteSub x) ths' i' t' rest' (o_next o) (o_spawn o) Hi') as C.
    pose proof (cnt_zero_head _ _ _ _ _ H3 Hi') as E. rewrite E in *. simpl in *.
    split_and!; [by apply Hin|rewrite Hw, countFrames_app; lia|].
    destruct (decide (1 ≤ cntL (isWriteSub x) (o_next o))) as [Hge|]; [by specialize (Hws Hge)|lia].
Qed.

Definition endInv (id : string) c ths : Prop :=
  cnt isRaw ths = 0 ∧
  (id ∈ subs c →
     is_Some (subObjs c !! id) ∧ (closedObj id c = 1 → 1 ≤ cnt (isEnd id) ths) ∧
     (1 ≤ countFrames (isRefused id) (wire c) → closedObj id c = 1 ∨ 1 ≤ cnt (isFail id) ths)).

Lemma refused_are_subs id l : countFrames (isRefused id) l ≤ countFrames (isSubFrame id) l.
Proof.
  induction l as [|f l IH]; simpl; [done|]. unfold isRefused at 1. destruct (isSubFrame id f); simpl; [|lia].
  case_bool_decide; simpl; lia.
Qed.

Lemma closedObj_le id c : closedObj id c ≤ 1.
Proof. unfold closedObj. case_match; [|lia]. destruct (Sub.closed _); simpl; lia. Qed.

Lemma register_ends id ch t c o :
  exec ch t c = Some o → isReg id t = true → (id ∉ subs c) →
  wire (o_client o) = wire c ∧
  (id ∈ subs (o_client o) → is_Some (subObjs (o_client o) !! id) ∧ closedObj id (o_client o) = 0).
Proof.
  intros He Hr Hn. unfold closedObj.
  destruct t; try discriminate Hr; exec_inv He; (split; [done|]); simpl; try done.
  all: simpl in Hr; apply bool_decide_eq_true in Hr as ->; rewrite lookup_insert_eq; intros _;
    (split; [by eexists|done]).
Qed.

Lemma ends_step id c ths i t rest ch o :
  reachable initial step (World c ths) → endInv id c ths →
  ths !! i = Some (t :: rest) → exec ch t c = Some o →
  endInv id (o_client o) (<[i := o_next o ++ rest]> ths ++ o_spawn o).
Proof.
  intros Hr (H0 & Hinv) Hi He.
  pose proof (cnt_step isRaw ths i t rest (o_next o) (o_spawn o) Hi) as C0.
  pose proof (cnt_step (isEnd id) ths i t rest (o_next o) (o_spawn o) Hi) as C1.
  pose proof (cnt_step (isFail id) ths i t rest (o_next o) (o_spawn o) Hi) as C2.
  pose proof (cnt_zero_head _ _ _ _ _ H0 Hi) as Er. destruct (exec_noRaw _ _ _ _ He) as [Hn Hsp].
  rewrite (noRaw_cnt (o_spawn o)), (cntL_false isRaw (o_next o)) in C0 by (done || by apply Forall_forall).
  split; [lia|]. intros Hin. destruct (isReg id t) eqn:Et.
  - destruct (no_frames_yet _ _ _ _ _ _ Hr Hi Et) as [Hni Hz].
    destruct (register_ends _ _ _ _ _ He Et Hni) as [Hw Ho]. destruct (Ho Hin) as [Hs Hc].
    pose proof (refused_are_subs id (wire c)). rewrite Hw. split_and!; [done|lia|lia].
  - destruct (exec_effect id _ _ _ _ He Et) as (_ & _ & _ & Hback & _).
    destruct (exec_ends id _ _ _ _ He Et Er) as (Hsome & Hcl & Hend & Hfail & l & Hw & Href).
    assert (Hin0 : id ∈ subs c) by (destruct (decide (id ∈ subs c)); [done|by destruct (Hback n)]).
    destruct (Hinv Hin0) as (Hs & Hc & Hf). destruct (Hsome Hs) as [Hs' Hmono].
    pose proof (closedObj_le id (o_client o)).
    assert (isEnd id t = false) as E1 by (destruct (isEnd id t); [by destruct (Hend eq_refl)|done]).
    rewrite E1 in C1. simpl in C1. split_and!; [done| |].
    + intros Hone. destruct (decide (closedObj id c = 1)) as [E|E]; [specialize (Hc E); lia|].
      pose proof (closedObj_le id c). lia.
    + rewrite Hw, countFrames_app. intros Hge.
      destruct (isFail id t) eqn:E2; [left; by apply Hfail|]. simpl in C2.
      destruct (decide (1 ≤ countFrames (isRefused id) (wire c))) as [Hold|]; [|right; lia].
      destruct (Hf Hold); [left|right]; lia.
Qed.

Lemma ends_reachable id w : reachable initial step w → endInv id (client w) (threads w).
Proof.
  apply world_invariant.
  - split; [done|]. intros ?%not_elem_of_empty. done.
  - intros c ths ts (H0 & Hi) Ha. unfold endInv. rewrite !cnt_app. split.
    + rewrite H0. by destruct ts as [|[] []].
    + intros Hin. destruct (Hi Hin) as (H1 & H2 & H3). split_and!; [done|intros E; specialize (H2 E); lia|].
      intros E. destruct (H3 E); [by left|right; lia].
  - intros c ths i t rest ch o Hr Hinv Hi He. by eapply ends_step.
Qed.

(** ** The goroutine that waits for the connection to drop *)

Definition supervises (k : nat) t : bool :=
  match t with Run k' | MarkDisconnected k' _ => bool_decide (k' = k) | _ => false end.

(** A section that publishes [k] goes on to supervise it, and the supervisor of [k] leaves
    only when [k] is not published. *)
Lemma exec_supervises k ch t c o :
  exec ch t c = Some o → tablesInv c → conn (o_client o) = Some k →
  (conn c = Some k ∧ supervises k t = false) ∨ 1 ≤ cntL (supervises k) (o_next o).
Proof.
  intros He [_ Hcl] Hk. destruct t; exec_inv He; try (left; split; [exact Hk|reflexivity]).
  all: try (left; split; [simpl in Hk; congruence|reflexivity]).
  - left. rewrite <- Hk. unfold sendSubscribe. by repeat case_match.
  - left. rewrite <- Hk. unfold releaseSubSlot. destruct (dequeue _ _ _) as [[]]. by repeat case_match.
  - left. rewrite <- Hk. unfold endLocked. simpl. by destruct (conn c) eqn:Ec; simpl; rewrite ?Ec.
  - left. rewrite <- Hk. destruct (handleFrame_shrinks k0 f c) as [Ec _]. by simpl; rewrite Ec.
  - simpl. case_bool_decide; [right; simpl; lia|by left].
  - simpl. case_bool_decide; [right; simpl; lia|by left].
  - simpl. case_bool_decide; [right; simpl; lia|by left].
  - destruct Hcl as [Hn _]; [done|]. simpl in Hk. congruence.
  - unfold markDisconnected in *. simpl in Hk |- *. case_bool_decide as E; simpl in *; [|done].
    left. split; [done|]. case_bool_decide; congruence.
  - unfold markConnected in *. destruct (closed c); simpl in *; [by left|]. right.
    rewrite cntL_app. simpl. rewrite bool_decide_true by congruence. simpl. lia.
  - rewrite setState_frame in Hk. by left.
  - unfold shutdown in *. destruct (closed c); simpl in *; [by left|done].
Qed.

Lemma supervised w k :
  reachable initial step w → conn (client w) = Some k → 1 ≤ cnt (supervises k) (threads w).
Proof.
  intros Hr. revert k.
  apply (world_invariant (λ c ths, ∀ k, conn c = Some k → 1 ≤ cnt (supervises k) ths)); [done| | |done].
  - intros c ths ts Hi _ k Hk. rewrite cnt_app. specialize (Hi k Hk). lia.
  - intros c ths i t rest ch o Hr' Hi Hth He k Hk. pose proof (tables_reachable _ Hr') as Ht.
    pose proof (cnt_step (supervises k) ths i t rest (o_next o) (o_spawn o) Hth) as C.
    destruct (exec_supervises k _ _ _ _ He Ht Hk) as [[Hk0 E]|Hn].
    + specialize (Hi k Hk0). rewrite E in C. simpl in C. lia.
    + destruct (supervises k t) eqn:E; simpl in C; [|lia].
      pose proof (cnt_head _ _ _ _ _ Hth E). lia.
Qed.

(** ** The theorem *)

Definition isEnding (id : string) t : bool := isFail id t || isEnd id t.

(** Some goroutine still has such a section to execute. *)
Definition pendingIn (P : task T → bool) (w : world T) : Prop :=
  ∃ ts, ts ∈ threads w ∧ ∃ t, t ∈ ts ∧ P t = true.

(** The subscribe frame of [id] was handed to connection [k], with this outcome. *)
Definition subscribedOn (k : nat) (id : string) (out : sendOutcome) (w : world T) : Prop :=
  ∃ i patch, wire (client w) !! i = Some (k, OSubscribe id patch, out).

Lemma pendingIn_mono (P Q : task T → bool) w :
  (∀ t, P t = true → Q t = true) → pendingIn P w → pendingIn Q w.
Proof. intros Hpq (ts & Hts & t & Ht & Hp). exists ts. split; [done|]. exists t. auto. Qed.

Lemma refused_is_ending w k id :
  reachable initial step w → id ∈ subs (client w) → subscribedOn k id SendTooLarge w →
  pendingIn (isEnding id) w.
Proof.
  intros Hr Hin (i & p & Hi). destruct (ends_reachable id w Hr) as (_ & Hinv).
  destruct (Hinv Hin) as (_ & Hc & Hf).
  assert (1 ≤ countFrames (isRefused id) (wire (client w))) as Hge.
  { eapply countFrames_in; [exact Hi|]. unfold isRefused, isSubFrame. simpl. by rewrite bool_decide_true. }
  destruct (Hf Hge) as [E|E].
  - eapply pendingIn_mono; [|apply cnt_in, Hc, E]. intros t Ht. unfold isEnding. by rewrite Ht, orb_true_r.
  - eapply pendingIn_mono; [|apply cnt_in, E]. intros t Ht. unfold isEnding. by rewrite Ht.
Qed.

(** C23: no subscription is forgotten. While a connection is published, for every open
    subscription, whether it was made on this connection or survived a reconnect, one of
    these holds: its subscribe frame was written on this very connection; it is in the queue
    that an answer drains, and then every slot of the connection is taken; some goroutine is
    about to send it; its frame was refused as too large, and a goroutine is about to close
    the subscription; or the write failed, and the goroutine that waits for this connection
    to drop (after which every open subscription is sent again on the next one) is there.
    And whenever a frame of it was refused, on whatever connection, a goroutine is about to
    close it. *)
Theorem reconnect_resubscribes (w : world T) (k : nat) (id : string) :
  reachable initial step w → conn (client w) = Some k → id ∈ subs (client w) →
  (subscribedOn k id SendOK w ∨
   (id ∈ subQueue (client w) ∧ subInFlight (client w) = maxSubscribesInFlight) ∨
   pendingIn (onWay k id) w ∨
   (subscribedOn k id SendTooLarge w ∧ pendingIn (isEnding id) w) ∨
   (subscribedOn k id SendFailed w ∧ pendingIn (supervises k) w)) ∧
  (∀ k', subscribedOn k' id SendTooLarge w → pendingIn (isEnding id) w).
Proof.
  intros Hr Hk Hin. split; [|by intros; eapply refused_is_ending].
  destruct (covered_reachable w Hr k id Hin Hk) as [Hw|[Hq|Hc]].
  - apply frame_written in Hw as (i & [[k' f] out] & Hi & Hf). unfold isSubOn, isSubFrame in Hf. simpl in Hf.
    apply andb_true_iff in Hf as [->%bool_decide_eq_true Hf]. destruct f as [|x p| | |]; try discriminate Hf.
    apply bool_decide_eq_true in Hf as ->. assert (Hs : subscribedOn k id out w) by by exists i, p.
    destruct out; [by left| |].
    + do 3 right. left. split; [done|]. by eapply refused_is_ending.
    + do 4 right. split; [done|]. by apply cnt_in, supervised.
  - right. left. split; [done|]. destruct (slots_reachable w Hr) as (_ & _ & H3).
    destruct (H3 k Hk) as [[_ Hle] Hge]. apply Z.le_antisymm; [done|]. apply Hge. intros E.
    rewrite E in Hq. by apply not_elem_of_nil in Hq.
  - right. right. left. by apply cnt_in.
Qed.

End Subs.

Lemma unsubscribe_is_final_witness :
  wire (client ended) !! 2 = Some (0, OUnsubscribe "2", SendOK) ∧ ("2" ∉ subs (client ended)).
Proof.
  assert (Hw : wire (client ended) !! 2 = Some (0, OUnsubscribe "2", SendOK)) by by vm_compute.
  split; [exact Hw|]. by apply (unsubscribe_is_final ended "2" 2 _ ended_reachable Hw).
Defined.

(** A subscription whose frame is refused, before and after its end. *)
Abbreviation refusing :=
  (go 0 3 ++ [Start [SubNewID None]] ++ go 2 4 ++ [Go 2 (Choice SendTooLarge false None true "")]) (only parsing).

Lemma reconnect_resubscribes_witness :
  subscribedOn 0 "1" SendTooLarge (moves world0 refusing) ∧
  pendingIn (isEnding "1") (moves world0 refusing) ∧
  (subscribedOn 0 "2" SendOK opened ∨
   ("2" ∈ subQueue (client opened) ∧ subInFlight (client opened) = maxSubscribesInFlight) ∨
   pendingIn (onWay 0 "2") opened ∨
   (subscribedOn 0 "2" SendTooLarge opened ∧ pendingIn (isEnding "2") opened) ∨
   (subscribedOn 0 "2" SendFailed opened ∧ pendingIn (supervises 0) opened)).
Proof.
  assert (Hs : subscribedOn 0 "1" SendTooLarge (moves world0 refusing)) by (exists 0, false; by vm_compute).
  split_and!; [exact Hs| |].
  - apply (reconnect_resubscribes (moves world0 refusing) 0 "1") with 0; [|by vm_compute|by vm_compute|exact Hs].
    apply moves_reachable; [by repeat constructor|apply world0_reachable].
  - apply (reconnect_resubscribes opened 0 "2" opened_reachable); by vm_compute.
Defined.

End ClientSubs.
